(* ===== verification/_CoqProject ===== *)
-Q . S2P
Prelude.v
GoStrings.v
Observability.v
Types.v
Record.v
Disk.v
Segment.v
Ranking.v
Index.v
Parser.v
Bloom.v
Paths.v
Strconv.v
Json.v
Manager.v
Executor.v
Recovery.v
Merge.v
Fsm.v
Snapshot.v
Sha256.v
Cache.v
Fanout.v
Ingest.v
Replication.v
Compaction.v
Threads.v
Goroutines.v
Rely.v
Requests.v
Compacting.v
Races.v
Crash.v
Node.v
Catchup.v
Metadata.v
Client.v
Loops.v
Detector.v
Startup.v
Shutdown.v
Coordinator.v
Cluster.v
Failover.v
