(* ===== verification/Prelude.v ===== *)
(** * The distributed log query engine, modelled and verified

    ** The program

    The engine ingests log entries over gRPC, stores them in append-only segment
    files on storage nodes, and answers queries over all nodes. Its parts, with the
    sources under [src/] and the files of this development that model them:

    - [pkg/types], [internal/ingest/convert.go]: entries, requests, results and the
      conversions to and from the protobuf messages. [Types].
    - [internal/storage/record.go], [segment.go], [read.go]: length-prefixed records,
      segment files, reading them back. [Record], [Disk] (files and failing system
      calls), [Segment].
    - [internal/storage/manager.go], [bloom.go]: the data directory of a node: the active
      segment, rotation, the marker file, the list of segments, the filters and their
      sidecar files; startup. [Paths] (file names), [Bloom], [Manager].
    - [internal/storage/compaction.go]: merging of small segments and retention.
      [Compaction].
    - [internal/index/index.go]: the in-memory inverted index from tokens, services and
      namespaces to segments, with time bounds. [Index].
    - [internal/query/parser.go], [executor.go], [server.go]: the query language and the
      execution of a query on one node. [Parser], [Ranking] (deduplication, order, pages),
      [Executor], and module [Server] of [Fanout].
    - [internal/coordinator/merge.go], [cache.go], [fanout.go], [query_server.go]: a query
      over all healthy nodes, the merge of their answers, the cache of complete answers.
      [Merge], [Cache] (with [Sha256] for the keys), [Fanout].
    - [internal/metadata/state.go], [fsm.go], [server.go], [liveness.go]: the replicated
      cluster state, its commands as bytes of the Raft log, snapshots, the handlers that
      submit commands, the liveness check and its loop. [Fsm], [Strconv] and [Json] (the text
      of commands and snapshots), [Snapshot], [Metadata], [Detector].
    - [internal/cluster/client.go], [state_cache.go], [heartbeat.go]: the connection of a
      storage node to the coordinators, the state it routes by, its background loops.
      [Client], module [StateCache] of [Ingest], module [NodeLoops] of [Loops].
    - [internal/ingest/router.go], [orchestrator.go], [server.go]: routing of a write to the
      primary of its shard, the local write, batches, the replication endpoint, and the
      calls a recovering replica makes. [Ingest].
    - [internal/replication/replicator.go]: asynchronous delivery to replicas, one goroutine
      per address. [Replication] (the queues alone also in [Ingest]).
    - [internal/ingest/catchup.go]: a joining replica fetches what it lacks. [Catchup].
    - [internal/observability]: request identifiers in contexts and metadata, collectors.
      [Observability].
    - [internal/coordinator/node_client.go]: the pool of connections. Module [Pool] of [Loops].
    - [cmd/node/main.go]: configuration, startup, mode and shutdown of a storage node.
      [Recovery] (a restart from the directory), [Startup], [Shutdown].
    - [cmd/coordinator/main.go]: configuration, startup, services and shutdown of a
      coordinator, and the group of coordinators that share the log of Raft. Module
      [CoordinatorMain] of [Startup] (the environment, peers, status page), [Coordinator].

    The goroutines that share a node's manager, index and disk are programs of atomic
    actions: [Threads] (programs, pools, schedules, the rely-guarantee judgement),
    [Goroutines] (append, query, merge and retention as such programs), [Rely] (what they
    rely on and guarantee), [Requests] and [Compacting] (that they do), [Races] (pools under
    every schedule), [Crash] (the process killed at any point of a schedule, and restarted).

    These files put components together: [Node] (a storage node over its life, with
    restarts), [Loops] (the compactor's loop as such a life), [Coordinator] (a group of
    coordinators), [Cluster] (nodes behind a coordinator) and [Failover] (the detector, the
    layout, the caches of the nodes and the fan-out when a node falls silent, and the cluster
    that goes on without it).

    A write goes [Ingest] -> [Manager] -> [Segment] -> [Record] and then into [Index]; a query
    goes [Fanout] -> [Executor] ([Parser], [Index], [Bloom], [Segment], [Ranking]) -> [Merge]
    -> [Cache]. [Fsm] decides which node owns a shard; [Ingest] reads its copy through the
    class [ClusterStateReader].

    ** How code becomes definitions

    A definition has the name of the Go function where that is free. State is passed
    explicitly: a Go object is a record ([Manager], [Index], [QueryCache], [FSM], [Compactor],
    [StorageNode]) and a method returns the new record. An object is one step of its mutex
    at a time: every exported method of the modelled types holds the lock of its object for
    its whole body, or its locked sections are what the definition sequences. The programs
    of [Goroutines] refine this for the operations that interleave on a node: there a
    critical section, an index operation and a file operation are actions of their own, and
    run alone the programs are the sequential definitions ([goroutines_alone]). A pass of the
    compactor starts there with the list of closed segments it has taken. A function
    that returns [(T, error)] returns a [result]; errors keep their [%w] chain so that
    [errors.Is] is computed. The linked list of the cache lives in an explicit heap, and a nil
    dereference is [None]; an index out of range is an explicit outcome, excluded by the
    theorems. Integers are [Z] with the wrap-around of [int32], [int64] and [uint32] written
    where an operation can leave the range. Goroutines that interact through channels
    ([Replication]) are a machine whose events are the points of interaction; a ticker loop
    ([Loops]) is a function of what its [select] takes, in order, and panics as
    [time.NewTicker] does when its interval is not positive.

    Code outside the sources is a parameter: the protobuf codec (class [Protobuf], law: what
    is marshalled unmarshals to itself), the bloom filter package (class [Bloom], laws: no
    false negatives, a written filter reads back), the Unicode case tables (class
    [GoUnicode], laws: mapping to lower case is idempotent and gives valid code points),
    Raft (an outcome per command; for a group, a log that grows, from which a member is
    handed entries in order or a snapshot that some member persisted), the network (a
    function from address and request to response), [grpc.NewClient] and the error of a call
    on a closed connection, the Prometheus registry, and the environment (a function from
    names to texts). Every theorem under such laws has a witness with a concrete
    instance: [bit_codec], [exact_bloom], [ascii_tables]. The clock, random identifiers and
    [ctx.Err()] are arguments of the operations that read them.

    The disk ([Disk]) is the map of files with a schedule of outcomes, one per system call; a
    theorem for every disk covers every combination of failing calls and short writes,
    [no_faults d] says that the calls succeed. A handle knows whether it is closed: writing,
    syncing and closing a closed file fail, as a rotation that cannot open the next segment
    shows ([failed_rotation_wedges]). Paths are cleaned as [filepath.Join] does ([Paths]).

    ** What the theorems show

    - Storage: records and segments read back what was written ([record_roundtrip],
      [segment_roundtrip]), a torn record is an error ([record_truncated]), an acknowledged
      append is on disk behind everything appended before ([append_durable]), segments keep
      to their size ([append_size_bound]), reading ends ([read_loop_terminates]).
    - Index: it equals the index rebuilt from the surviving entries whatever its history
      ([index_history_independent], [rebuild_from_disk]) and resolves exactly the segments
      that may match ([Resolve_exact], [Resolve_complete]).
    - Query language: the parser is total ([parse_total]), reads the queries of the documented
      grammar, which are exactly those it accepts that are made of the grammar's tokens with
      balanced parentheses ([parse_iff_grammar]), and inverts the printer ([parse_print]).
    - Local queries: with index and filters the answer is that of a scan, for the queries the
      filters are safe for ([bloom_safe]: a field filter that must hold names an attribute that
      is stored in a filter), as in every theorem about queries, or with filters off
      ([Execute_refines_scan]); with failing system calls it is that answer or an error
      ([Execute_all_or_error]); filters have no false negatives on the fields they store
      ([bloom_no_false_negative]).
    - Distributed queries: the merge does not depend on the order of answers and the window it
      cuts is that of all matches ([merge_order_independent], [merge_window_exact],
      [merge_total_bound]); the coordinator's answer is the answer over the entries of all
      nodes, or the one its cache still holds under the key of the request, up to thirty seconds old,
      when [offset+limit] is an [int32] ([fanout_complete]); the cache refines an LRU list with expiry
      ([cache_refines_lru], [cache_get_sound], [cache_retains], [cache_bounded]) and holds
      complete answers only ([fanout_cache_complete]).
    - Cluster state: after any commands it is the round-robin layout of the registry
      ([fsm_refines_layout]), so every shard has one healthy owner, the load differs by at
      most one and replicas are elsewhere ([shard_ownership], [shards_balanced],
      [replica_distinct]); whatever bytes the log holds the state keeps its type
      ([fsm_typed]); a snapshot and the rest of the log give the machine of the whole log
      ([snapshot_replay]), failures leave it as it was ([snapshot_failures]), JSON reads back
      ([json_roundtrip], [command_roundtrip]); the copy nodes fetch is faithful
      ([cluster_state_roundtrip]) and is what they route by ([cache_follows_coordinator]).
    - Failure detection: status, time and gauge of every node follow an automaton of its own
      ([detector_refines]); one pass of the check is exact ([liveness_exact]); heartbeats
      find the leader ([heartbeat_finds_leader]), registration ends and joins
      ([register_terminates]) and assigns shards ([register_assigns]). A silent node loses its
      shards, the others route around it and queries do not ask it ([failover_reroutes]).
    - Coordinators: over any crashes, restarts, snapshots and late deliveries each shows a
      prefix of one history ([coordinators_agree]), a restart leads back into it
      ([coordinator_restarts]) and an acknowledged registration stays in it
      ([registration_survives]); startup ends with the first call that fails
      ([coordinator_main_outcome]).
    - Ingest: an acknowledged write is durable, indexed and visible to queries
      ([ingest_visible]); in a cluster with equal caches it takes one hop
      ([forward_one_hop]) and keeps its request identifier ([request_id_follows]);
      entries without an identifier get distinct ones ([generated_ids_distinct]); a
      transferred segment holds exactly the entries of the shard ([transfer_roundtrip]), and
      catch-up adds what is missing ([catchup_segment_exact], [catchup_tail_complete]).
    - Replication: in every interleaving a replica is sent what was accepted for it, in order
      and at most once ([replication_fifo]), all of it when nothing fails
      ([replication_lossless]), and after [Stop] the goroutines end ([stop_terminates]).
    - Concurrency on a node: in every interleaving of writes, queries and a compaction pass a
      query is complete for the segments that are not compacted and for every write that
      had returned ([concurrent_query_complete]), acknowledged and stored entries are on disk
      at every moment ([concurrent_writes_kept]) and the goroutines do not deadlock
      ([no_deadlock]); killed at any point with the mutex free, also in the middle of a
      merge, the node starts again and finds them all ([crash_recovers]), and shutdown,
      which does not wait for the compactor, never ends otherwise ([shutdown_recovers]); a
      segment that grows while it is read reads as at the last read
      ([read_while_growing]). The invariant is indexed by the turns to come, so that
      sequence numbers and file sizes stay in range without an assumption on each step.
    - Compaction: merging changes no answer ([merge_preserves_answers]); retention deletes
      only old segments ([retention_keeps_recent]); the loop of the compactor is a sequence
      of such passes ([Start_is_node_ops]).
    - Recovery and startup: a restart rebuilds index and manager from the directory
      ([restart_recovers]); a node keeps what it accepted over its whole life
      ([node_keeps_accepted]), also as started from its environment without a cluster
      ([local_node_serves]) and over shutdown and a second start ([local_node_returns]); with
      a reachable leader it joins ([cluster_node_joins]); pools
      hold one connection per address ([pool_stable]), peers and the status page read back
      ([peers_roundtrip], [status_roundtrip]), metrics register once ([Register_once]).
    - The whole: a cluster acknowledges every valid write and a query through the
      coordinator returns it, while nodes replicate, compact and restart
      ([cluster_serves_writes]), the coordinator's cache as above. When a node dies with its
      disk and is marked, the others acknowledge every valid write again, and queries return all
      that they have stored, the copies of the dead node's entries that reached them included
      ([cluster_survives_failure]).
    - Behaviour that surprises, in general: a query on a custom field answers nothing when
      filters are on ([custom_field_query_lost]), a transferred segment replaces the local one
      of its name ([catchup_overwrites]), [Stop] loses an entry it has taken from its channel
      ([stop_loses_entry]), a failed dial strands a channel ([failed_dial_strands]) or a client
      ([bad_address_kills_client]), a failed rotation ends the writing
      ([failed_rotation_wedges]), a failed append the reading ([torn_append_poisons]), a loaded
      segment collides with the next rotation ([load_then_rotate_collides]),
      [unhealthy_until_register], [CacheKey_ambiguous], [record_limit_mismatch],
      [default_shards_differ]. By runs of the model: [merge_stale_bloom],
      [replica_rejects_namespaced], [stale_forward_loop], [catchup_incomplete],
      [bloom_toggle_loses], [interleaving_anomalies], [crash_anomalies], [interval_panics],
      [shard_count_diverges].

    ** Fuel

    [read_loop] runs on one unit more than the number of bytes: every record consumes at least
    its four-byte length. The parser's methods run on [parse_fuel n] for [n] tokens, linear in
    [n]: each of the five functions is entered at most once between two consumed tokens.
    [send_chunks] runs on the length of the payload, of which a round consumes a byte or more.
    [blocks] of SHA-256 runs on the number of words. [heartbeat_loop] counts the attempts of
    the source. [follow] (a forwarded write) retries without bound in the source, so its
    theorems quantify over the fuel; [cluster_ingest] needs two units, since one hop is
    enough ([one_hop]). [Register] of the client runs on one unit more than the attempt
    whose wait meets the deadline ([register_terminates]). The JSON reader runs on twice the
    length of the text plus two ([Json.parse_fuel]), which [parse_enough] shows to be enough:
    two nested calls consume at least a byte. [unquote_runes] runs on the number of runes;
    [dec_go] and [hex_go] on the twenty and sixteen digits a 64-bit integer can have.

    ** Not modelled

    The generated code under [internal/api/gen]; log lines ([logger.go]) and the values of
    latency histograms; the metrics servers, of which a failure is only logged; what happens
    inside Raft and its stores; the command line stub and the load test; connections and TLS;
    interleavings inside an operation that the source's locks do not exclude, other than
    those of [Replication] and of the goroutines of [Goroutines]: segment transfer and
    catch-up run as whole operations, and so do the system calls inside [ReadSegment],
    [OpenSegment], [WriteBloom] and the appends to a merge's temporary file, whose files no
    other goroutine writes and of which a crash leaves at most a temporary file that startup
    does not read. An operation of a coordinator in a group is one step, and the commands it
    proposes enter the log together; handlers whose commands interleave are covered as commits
    and deliveries, not with their answers. A crash is the death of the process: what was written stays, so a loss of
    power that drops unsynced data is not covered. A coordinator that restores a text with a nil
    map ([has_maps], which no persisted snapshot has) would panic at its next registration; the
    group of [Coordinator] restores persisted snapshots only. *)

From stdpp Require Export prelude gmap strings sorting pretty.
From Stdlib Require Export Ascii NArith ZArith Lia.
From Stdlib Require Export Strings.Byte.

#[global] Open Scope string_scope.
#[global] Open Scope list_scope.
#[global] Open Scope Z_scope.

#[global] Arguments String.append : simpl nomatch.

Declare Scope golang_scope.
Delimit Scope golang_scope with go.

(** ** Results of fallible Go functions

    A Go function that returns [(T, error)] is modelled by [T + GoError]: the
    code never uses the value when the error is non-nil. *)
(** The gRPC status codes the handlers use. *)
Inductive codes :=
  | codes_Canceled
  | codes_InvalidArgument
  | codes_DeadlineExceeded
  | codes_NotFound
  | codes_FailedPrecondition
  | codes_Internal
  | codes_Unavailable.

#[global] Instance codes_eq_dec : EqDecision codes.
Proof. solve_decision. Defined.

Inductive GoError :=
  | io_EOF
  | io_ErrUnexpectedEOF
  | os_ErrNotExist
  | os_ErrIO
  | os_ErrClosed
  | context_Canceled
  | context_DeadlineExceeded
  | grpc_Status (code : codes) (msg : string)
  | ErrMsg (msg : string)
  | ErrWrap (msg : string) (inner : GoError).

#[global] Instance GoError_eq_dec : EqDecision GoError.
Proof. solve_decision. Defined.

Inductive result (A : Type) :=
  | Ok (a : A)
  | Err (e : GoError).
Arguments Ok {A} a.
Arguments Err {A} e.

(** [errors.Is(err, target)] for a sentinel target: some error of the
    [%w] chain is the sentinel. *)
Fixpoint errors_Is (e target : GoError) : bool :=
  bool_decide (e = target) ||
  match e with ErrWrap _ e' => errors_Is e' target | _ => false end.

Definition result_bind {A B} (r : result A) (k : A → result B) : result B :=
  match r with Ok a => k a | Err e => Err e end.

Notation "'let?' x := r 'in' k" := (result_bind r (λ x, k))
  (at level 10, x pattern, r at level 100, k at level 200) : golang_scope.

Definition is_ok {A} (r : result A) : bool :=
  match r with Ok _ => true | Err _ => false end.

(** ** Machine integers

    An [int32], [int64], [uint32] or [uint64] is a [Z] in its range; arithmetic
    that can leave the range is wrapped explicitly. [int] is 64 bits wide. *)
Definition wrap_unsigned (w : Z) (z : Z) : Z := z mod 2 ^ w.
Definition wrap_signed (w : Z) (z : Z) : Z :=
  (z + 2 ^ (w - 1)) mod 2 ^ w - 2 ^ (w - 1).

Definition uint32 : Z → Z := wrap_unsigned 32.
Definition uint64 : Z → Z := wrap_unsigned 64.
Definition int32 : Z → Z := wrap_signed 32.
Definition int64 : Z → Z := wrap_signed 64.

Definition in_int32 (z : Z) : Prop := - 2 ^ 31 ≤ z < 2 ^ 31.
Definition in_int64 (z : Z) : Prop := - 2 ^ 63 ≤ z < 2 ^ 63.
Definition MaxUint32 : Z := 2 ^ 32 - 1.
Definition MaxInt32 : Z := 2 ^ 31 - 1.

(** ** Bytes *)
Definition byte_to_Z (b : byte) : Z := Z.of_N (Byte.to_N b).
Definition byte_of_Z (z : Z) : byte :=
  match Byte.of_N (Z.to_N (z mod 256)) with Some b => b | None => x00 end.

#[global] Instance byte_eq_dec : EqDecision byte := Byte.byte_eq_dec.

(** ** Automation *)

Create HintDb dlqe.
Create Rewrite HintDb dlqe.

(** Case analysis on every boolean guard of the goal and the hypotheses, with
    the guard's meaning as a proposition. *)
Ltac guards :=
  repeat first
    [ progress simplify_eq/=
    | case_bool_decide
    | case_decide
    | case_match ].

(** Turns boolean comparisons into arithmetic and calls [lia]. *)
Ltac blia :=
  repeat match goal with
  | H : context [bool_decide _] |- _ =>
      first [ rewrite bool_decide_eq_true in H | rewrite bool_decide_eq_false in H ]
  | H : (_ && _)%bool = true |- _ => apply andb_true_iff in H as [? ?]
  | H : (_ || _)%bool = false |- _ => apply orb_false_iff in H as [? ?]
  end; lia.

(** ** Lemmas on machine integers and bytes *)

Lemma wrap_signed_small w z :
  0 < w → - 2 ^ (w - 1) ≤ z < 2 ^ (w - 1) → wrap_signed w z = z.
Proof.
  intros Hw Hz. unfold wrap_signed.
  assert (2 ^ w = 2 * 2 ^ (w - 1)) as Hpow.
  { rewrite <- Z.pow_succ_r by lia. f_equal. lia. }
  rewrite Z.mod_small; lia.
Qed.

Lemma wrap_signed_range w z :
  0 < w → - 2 ^ (w - 1) ≤ wrap_signed w z < 2 ^ (w - 1).
Proof.
  intros Hw. unfold wrap_signed.
  assert (2 ^ w = 2 * 2 ^ (w - 1)) as Hpow.
  { rewrite <- Z.pow_succ_r by lia. f_equal. lia. }
  pose proof (Z.mod_pos_bound (z + 2 ^ (w - 1)) (2 ^ w)). lia.
Qed.

Lemma int32_small z : in_int32 z → int32 z = z.
Proof. intros. apply wrap_signed_small; unfold in_int32 in *; lia. Qed.

Lemma int32_range z : in_int32 (int32 z).
Proof. apply (wrap_signed_range 32). lia. Qed.

Lemma int64_small z : in_int64 z → int64 z = z.
Proof. intros. apply wrap_signed_small; unfold in_int64 in *; lia. Qed.

Lemma uint32_small z : 0 ≤ z < 2 ^ 32 → uint32 z = z.
Proof. apply Z.mod_small. Qed.

Lemma uint32_range z : 0 ≤ uint32 z < 2 ^ 32.
Proof. apply Z.mod_pos_bound. lia. Qed.

Lemma byte_to_Z_range b : 0 ≤ byte_to_Z b < 256.
Proof. unfold byte_to_Z. pose proof (Byte.to_N_bounded b). lia. Qed.

Lemma byte_to_of_Z z : byte_to_Z (byte_of_Z z) = z mod 256.
Proof.
  unfold byte_to_Z, byte_of_Z.
  pose proof (Z.mod_pos_bound z 256 ltac:(lia)) as Hb.
  destruct (Byte.of_N (Z.to_N (z mod 256))) eqn:E.
  - apply Byte.to_of_N in E. rewrite E. lia.
  - apply Byte.of_N_None_iff in E. lia.
Qed.

Lemma byte_of_to_Z b : byte_of_Z (byte_to_Z b) = b.
Proof.
  unfold byte_to_Z, byte_of_Z.
  pose proof (Byte.to_N_bounded b).
  rewrite Z.mod_small, N2Z.id, Byte.of_to_N by lia. done.
Qed.

#[export] Hint Resolve int32_range uint32_range byte_to_Z_range : dlqe.
#[export] Hint Rewrite byte_to_of_Z byte_of_to_Z : dlqe.

(** ** Lemmas on errors *)

Lemma errors_Is_wrap msg e t :
  errors_Is (ErrWrap msg e) t = bool_decide (ErrWrap msg e = t) || errors_Is e t.
Proof. done. Qed.

Lemma errors_Is_refl e : errors_Is e e = true.
Proof. destruct e; cbn [errors_Is]; by rewrite bool_decide_true. Qed.

(** ** Lemmas on filtered lists *)

Lemma StronglySorted_filter {A} (R : relation A) (P : A → Prop) `{∀ x, Decision (P x)} l :
  StronglySorted R l → StronglySorted R (filter P l).
Proof.
  induction 1 as [|x l Hs IH Hx]; [constructor|]. rewrite filter_cons.
  case_decide; [|done]. constructor; [done|].
  apply Forall_forall. intros y [_ Hy]%list_elem_of_filter.
  by apply (proj1 (Forall_forall _ _) Hx).
Qed.

Lemma NoDup_fmap_filter {A B} (f : A → B) (P : A → Prop) `{∀ x, Decision (P x)} l :
  NoDup (f <$> l) → NoDup (f <$> filter P l).
Proof.
  induction l as [|e l IH]; [done|]. rewrite fmap_cons, filter_cons. intros [Hn Hd]%NoDup_cons.
  case_decide; [rewrite fmap_cons; constructor|]; auto.
  intros (e' & Hid & [_ He']%list_elem_of_filter)%list_elem_of_fmap. apply Hn.
  rewrite Hid. by apply list_elem_of_fmap_2.
Qed.

(** ** Lemmas on maps built by insertion *)

(** Inserting elements with distinct keys. *)
Lemma fold_insert_lookup {K} `{Countable K} {A B} (key : A → K) (val : A → B) (l : list A) (m : gmap K B) :
  NoDup (key <$> l) →
  (∀ x, x ∈ l → foldl (λ m x, <[key x := val x]> m) m l !! key x = Some (val x)) ∧
  (∀ k, k ∉ key <$> l → foldl (λ m x, <[key x := val x]> m) m l !! k = m !! k).
Proof.
  revert m. induction l as [|a l IH]; intros m; [split; [by intros ? ?%not_elem_of_nil|done]|].
  rewrite fmap_cons. intros [Ha Hnd]%NoDup_cons. cbn [foldl].
  destruct (IH (<[key a := val a]> m) Hnd) as [IH1 IH2]. split.
  - intros x [->|Hx]%elem_of_cons; [|by apply IH1]. by rewrite IH2, lookup_insert_eq.
  - intros k [Hk Hkl]%not_elem_of_cons. by rewrite IH2, lookup_insert_ne.
Qed.

(** Rebuilding a map from its values, when they carry their keys. *)
Lemma rebuild_map {K} `{Countable K} {A B} (key : K * A → K) (val : K * A → B) (M : gmap K A) :
  (∀ k v, M !! k = Some v → key (k, v) = k) →
  foldl (λ m x, <[key x := val x]> m) ∅ (map_to_list M) = map_imap (λ k v, Some (val (k, v))) M.
Proof.
  intros Hkey.
  assert (key <$> map_to_list M = (map_to_list M).*1) as Hk.
  { apply list_fmap_ext. intros i [k v] Hi. cbn. apply Hkey, elem_of_map_to_list.
    by eapply list_elem_of_lookup_2. }
  assert (NoDup (key <$> map_to_list M)) as Hnd by (rewrite Hk; apply NoDup_fst_map_to_list).
  destruct (fold_insert_lookup key val (map_to_list M) ∅ Hnd) as [H1 H2].
  apply map_eq. intros k. rewrite map_lookup_imap. destruct (M !! k) as [v|] eqn:HM; cbn.
  - rewrite <- (Hkey k v HM) at 1. apply H1. by apply elem_of_map_to_list.
  - rewrite H2; [done|]. rewrite Hk. intros ([k' v] & -> & Hin)%list_elem_of_fmap.
    apply elem_of_map_to_list in Hin. cbn in HM. congruence.
Qed.
