(* ===== verification/GoStrings.v ===== *)
(** * The Go string functions the engine uses

    A Go string is a byte sequence, here Stdlib's [string]. This file models
    what the sources use of [strings], [unicode/utf8] and [regexp]:
    UTF-8 decoding as [range] does it, [ToLower], [EqualFold], [TrimSpace],
    [Fields], [ReplaceAll], [Contains], [SplitN] and [Split] with the
    expression [[^a-z0-9]+]. The Unicode case tables (data of the Go release)
    are the class [GoUnicode]; the ASCII part is concrete. *)

From S2P Require Import Prelude.

(** ** Characters and runes *)

Definition code (c : ascii) : Z := Z.of_N (N_of_ascii c).
Definition chr (z : Z) : ascii := ascii_of_N (Z.to_N (z mod 256)).

Definition in_range (lo hi z : Z) : bool := (lo <=? z) && (z <=? hi).

Definition RuneSelf : Z := 0x80.
Definition RuneError : Z := 0xFFFD.
Definition MaxRune : Z := 0x10FFFF.

Definition valid_rune (r : Z) : Prop :=
  0 ≤ r ≤ MaxRune ∧ ¬ (0xD800 ≤ r ≤ 0xDFFF).

(** The ranges of the second byte, by first byte ([utf8.acceptRanges]). *)
Definition second_lo (b0 : Z) : Z :=
  if b0 =? 0xE0 then 0xA0 else if b0 =? 0xF0 then 0x90 else 0x80.
Definition second_hi (b0 : Z) : Z :=
  if b0 =? 0xED then 0x9F else if b0 =? 0xF4 then 0x8F else 0xBF.

(** [chunks s]: the runes of [for _, r := range s] with the bytes each was
    decoded from; an invalid byte is [RuneError] of width one. *)
Fixpoint chunks (s : string) : list (Z * string) :=
  match s with
  | "" => []
  | String c0 s0 =>
    let b0 := code c0 in
    let bad := λ _ : (), (RuneError, String c0 "") :: chunks s0 in
    if b0 <? RuneSelf then (b0, String c0 "") :: chunks s0
    else if in_range 0xC2 0xDF b0 then
      match s0 with
      | String c1 s1 =>
        if in_range 0x80 0xBF (code c1)
        then ((b0 - 0xC0) * 64 + (code c1 - 0x80), String c0 (String c1 "")) :: chunks s1
        else bad ()
      | "" => bad ()
      end
    else if in_range 0xE0 0xEF b0 then
      match s0 with
      | String c1 (String c2 s2) =>
        if in_range (second_lo b0) (second_hi b0) (code c1) && in_range 0x80 0xBF (code c2)
        then ((b0 - 0xE0) * 4096 + (code c1 - 0x80) * 64 + (code c2 - 0x80),
              String c0 (String c1 (String c2 ""))) :: chunks s2
        else bad ()
      | _ => bad ()
      end
    else if in_range 0xF0 0xF4 b0 then
      match s0 with
      | String c1 (String c2 (String c3 s3)) =>
        if in_range (second_lo b0) (second_hi b0) (code c1) && in_range 0x80 0xBF (code c2)
           && in_range 0x80 0xBF (code c3)
        then ((b0 - 0xF0) * 262144 + (code c1 - 0x80) * 4096 + (code c2 - 0x80) * 64
               + (code c3 - 0x80),
              String c0 (String c1 (String c2 (String c3 "")))) :: chunks s3
        else bad ()
      | _ => bad ()
      end
    else bad ()
  end.

Definition runes (s : string) : list Z := (chunks s).*1.

(** [utf8.AppendRune]. *)
Definition encode_rune (r : Z) : string :=
  if in_range 0 0x7F r then String (chr r) ""
  else if in_range 0x80 0x7FF r then
    String (chr (0xC0 + r / 64)) (String (chr (0x80 + r mod 64)) "")
  else if in_range 0x800 0xFFFF r && negb (in_range 0xD800 0xDFFF r) then
    String (chr (0xE0 + r / 4096)) (String (chr (0x80 + (r / 64) mod 64))
      (String (chr (0x80 + r mod 64)) ""))
  else if in_range 0x10000 MaxRune r then
    String (chr (0xF0 + r / 262144)) (String (chr (0x80 + (r / 4096) mod 64))
      (String (chr (0x80 + (r / 64) mod 64)) (String (chr (0x80 + r mod 64)) "")))
  else String (chr 0xEF) (String (chr 0xBF) (String (chr 0xBD) "")).

Fixpoint concat_strings (l : list string) : string :=
  match l with [] => "" | s :: l' => s +:+ concat_strings l' end.

(** ** Case *)

(** The Unicode tables beyond ASCII: [unicode.ToLower] and whether two runes,
    not both ASCII, are in one [unicode.SimpleFold] orbit. *)
Class GoUnicode := {
  lower_table : Z → Z;
  fold_table : Z → Z → bool;
}.

Definition ascii_lower (r : Z) : Z := if in_range 65 90 r then r + 32 else r.

Definition unicode_ToLower `{GoUnicode} (r : Z) : Z :=
  if r <? RuneSelf then ascii_lower r else lower_table r.

(** What the Unicode standard guarantees of the lower-case table: it maps
    scalar values to scalar values, and a lower-cased rune is its own
    lower case. *)
Class GoUnicodeLaws `{GoUnicode} : Prop := {
  lower_valid r : valid_rune r → RuneSelf ≤ r → valid_rune (lower_table r);
  lower_idem r : valid_rune r → RuneSelf ≤ r →
    unicode_ToLower (lower_table r) = lower_table r;
}.

Fixpoint string_forallb (p : ascii → bool) (s : string) : bool :=
  match s with "" => true | String c s' => p c && string_forallb p s' end.

Fixpoint string_map (f : ascii → ascii) (s : string) : string :=
  match s with "" => "" | String c s' => String (f c) (string_map f s') end.

Definition is_ascii (s : string) : bool := string_forallb (λ c, code c <? RuneSelf) s.

(** [strings.Map(mapping, s)] for a mapping that drops no rune. *)
Definition strings_Map (mapping : Z → Z) (s : string) : string :=
  concat_strings ((λ r, encode_rune (mapping r)) <$> runes s).

(** [strings.ToLower]: byte-wise on ASCII strings, [Map] otherwise. *)
Definition ToLower `{GoUnicode} (s : string) : string :=
  if is_ascii s then string_map (λ c, chr (ascii_lower (code c))) s
  else strings_Map unicode_ToLower s.

(** Rune comparison of [strings.EqualFold]. *)
Definition fold_eq `{GoUnicode} (r1 r2 : Z) : bool :=
  let sr := Z.min r1 r2 in
  let tr := Z.max r1 r2 in
  if sr =? tr then true
  else if tr <? RuneSelf then in_range 65 90 sr && (tr =? sr + 32)
  else fold_table sr tr.

Fixpoint forallb2 {A B} (p : A → B → bool) (l1 : list A) (l2 : list B) : bool :=
  match l1, l2 with
  | [], [] => true
  | x :: l1', y :: l2' => p x y && forallb2 p l1' l2'
  | _, _ => false
  end.

Definition EqualFold `{GoUnicode} (s t : string) : bool :=
  forallb2 fold_eq (runes s) (runes t).

(** ** White space *)

(** [unicode.IsSpace]. *)
Definition IsSpace (r : Z) : bool :=
  in_range 9 13 r || (r =? 32) || (r =? 0x85) || (r =? 0xA0) || (r =? 0x1680)
  || in_range 0x2000 0x200a r || (r =? 0x2028) || (r =? 0x2029) || (r =? 0x202f)
  || (r =? 0x205f) || (r =? 0x3000).

Fixpoint drop_while {A} (p : A → bool) (l : list A) : list A :=
  match l with [] => [] | x :: l' => if p x then drop_while p l' else l end.

(** [strings.TrimSpace]. *)
Definition TrimSpace (s : string) : string :=
  let sp := λ k : Z * string, IsSpace k.1 in
  concat_strings (reverse (drop_while sp (reverse (drop_while sp (chunks s))))).*2.

(** [strings.Fields]: [cur] is the field being read, empty between fields. *)
Fixpoint fields_go (cur : string) (l : list (Z * string)) : list string :=
  match l with
  | [] => if bool_decide (cur = "") then [] else [cur]
  | (r, b) :: l' =>
    if IsSpace r
    then (if bool_decide (cur = "") then fields_go "" l' else cur :: fields_go "" l')
    else fields_go (cur +:+ b) l'
  end.

Definition strings_Fields (s : string) : list string := fields_go "" (chunks s).

(** ** Searching and splitting *)

(** [strings.ReplaceAll(s, old, new)] for a one-byte [old]. *)
Fixpoint ReplaceAll1 (s : string) (old : ascii) (new : string) : string :=
  match s with
  | "" => ""
  | String c s' =>
    if decide (c = old) then new +:+ ReplaceAll1 s' old new
    else String c (ReplaceAll1 s' old new)
  end.

(** [strings.Contains(s, sep)] and, when it holds, [strings.SplitN(s, sep, 2)]
    for a one-byte [sep]: the text before and after its first occurrence. *)
Fixpoint Cut1 (s : string) (sep : ascii) : option (string * string) :=
  match s with
  | "" => None
  | String c s' =>
    if decide (c = sep) then Some ("", s')
    else match Cut1 s' sep with
         | Some (l, r) => Some (String c l, r)
         | None => None
         end
  end.

Definition Contains1 (s : string) (sep : ascii) : bool :=
  match Cut1 s sep with Some _ => true | None => false end.

Fixpoint string_elem (c : ascii) (s : string) : bool :=
  match s with "" => false | String d s' => bool_decide (c = d) || string_elem c s' end.

(** [a-z0-9] *)
Definition is_alnum (c : ascii) : bool := in_range 97 122 (code c) || in_range 48 57 (code c).

(** [regexp.MustCompile(`[^a-z0-9]+`).Split(s, -1)]. Bytes of a multi-byte rune
    are never in [a-z0-9], so the split is byte-wise. *)
Fixpoint re_Split (s : string) : list string :=
  match s with
  | "" => [""]
  | String c s' =>
    if is_alnum c
    then match re_Split s' with
         | p :: ps => String c p :: ps
         | [] => [String c ""]
         end
    else match s' with
         | String c' _ => if is_alnum c' then "" :: re_Split s' else re_Split s'
         | "" => ["" ; ""]
         end
  end.

(** The shared body of [index.tokenize], [query.tokenize] and the first half of
    [storage.tokenizeEntry]: split, then drop the empty pieces. *)
Definition nonempty_pieces (s : string) : list string :=
  filter (λ p, p ≠ "") (re_Split s).

(** ** Examples from the Go documentation and the repository's tests *)

Definition ascii_tables : GoUnicode :=
  {| lower_table := id; fold_table := λ _ _, false |}.

Example ToLower_ex : @ToLower ascii_tables "Connection TIMEOUT-7" = "connection timeout-7".
Proof. reflexivity. Qed.

Example split_ex : nonempty_pieces "disk full: /dev/sda1" = ["disk"; "full"; "dev"; "sda1"].
Proof. reflexivity. Qed.

Example fields_ex : strings_Fields "  a (  b " = ["a"; "("; "b"].
Proof. reflexivity. Qed.

(** ** Lemmas: bytes and runes *)

Lemma code_range c : 0 ≤ code c < 256.
Proof. unfold code. pose proof (N_ascii_bounded c). lia. Qed.

Lemma code_chr z : code (chr z) = z mod 256.
Proof.
  unfold code, chr. pose proof (Z.mod_pos_bound z 256 ltac:(lia)).
  rewrite N_ascii_embedding; lia.
Qed.

Lemma chr_code c : chr (code c) = c.
Proof.
  unfold code, chr. pose proof (N_ascii_bounded c).
  rewrite Z.mod_small, N2Z.id, ascii_N_embedding by lia. done.
Qed.

Lemma code_chr_small z : 0 ≤ z < 256 → code (chr z) = z.
Proof. intros. rewrite code_chr, Z.mod_small; lia. Qed.

Lemma in_range_true lo hi z : in_range lo hi z = true ↔ lo ≤ z ≤ hi.
Proof. unfold in_range. lia. Qed.

Lemma in_range_false lo hi z : in_range lo hi z = false ↔ ¬ (lo ≤ z ≤ hi).
Proof. unfold in_range. lia. Qed.

#[export] Hint Rewrite code_chr : dlqe.

(** Splits a goal on its range tests and closes the impossible branches. *)
Ltac ranges :=
  repeat match goal with
  | |- context [in_range ?lo ?hi ?z] =>
      destruct (in_range lo hi z) eqn:?;
      [ rewrite in_range_true in * | rewrite in_range_false in * ]; try lia; simpl
  | |- context [?a <? ?b] => destruct (Z.ltb_spec a b); try lia; simpl
  | |- context [?a =? ?b] => destruct (Z.eqb_spec a b); try lia; simpl
  end.

Lemma string_forallb_app p s t :
  string_forallb p (s +:+ t) = string_forallb p s && string_forallb p t.
Proof. induction s as [|c s IH]; cbn; [done|]. by rewrite IH, andb_assoc. Qed.

Lemma string_app_assoc (a b c : string) : a +:+ (b +:+ c) = (a +:+ b) +:+ c.
Proof. induction a as [|x a IH]; simpl; [done|]. by rewrite IH. Qed.

Lemma string_app_nil_r (a : string) : a +:+ "" = a.
Proof. induction a as [|x a IH]; simpl; [done|]. by rewrite IH. Qed.

Lemma concat_strings_app l1 l2 :
  concat_strings (l1 ++ l2) = concat_strings l1 +:+ concat_strings l2.
Proof. induction l1 as [|s l1 IH]; simpl; [done|]. by rewrite IH, string_app_assoc. Qed.

(** UTF-8: decoding inverts encoding, rune by rune. *)
Lemma chunks_encode1 r s :
  0 ≤ r ≤ 0x7F → chunks (encode_rune r +:+ s) = (r, encode_rune r) :: chunks s.
Proof.
  intros. unfold encode_rune. rewrite (proj2 (in_range_true _ _ _)) by lia. simpl.
  rewrite code_chr_small by lia. unfold RuneSelf. ranges. done.
Qed.

Lemma chunks_encode2 r s :
  0x80 ≤ r ≤ 0x7FF → chunks (encode_rune r +:+ s) = (r, encode_rune r) :: chunks s.
Proof.
  intros. unfold encode_rune.
  rewrite (proj2 (in_range_false _ _ r)) by lia.
  rewrite (proj2 (in_range_true _ _ r)) by lia. cbn [String.append chunks].
  assert (0xC2 ≤ 0xC0 + r / 64 ≤ 0xDF) by (Z.div_mod_to_equations; lia).
  pose proof (Z.mod_pos_bound r 64 ltac:(lia)).
  rewrite !code_chr_small by lia. unfold RuneSelf. ranges.
  do 2 f_equal. Z.div_mod_to_equations; lia.
Qed.

Lemma chunks_encode3 r s :
  0x800 ≤ r ≤ 0xFFFF → ¬ (0xD800 ≤ r ≤ 0xDFFF) →
  chunks (encode_rune r +:+ s) = (r, encode_rune r) :: chunks s.
Proof.
  intros Hr Hs.
  assert (encode_rune r = String (chr (0xE0 + r / 4096))
    (String (chr (0x80 + (r / 64) mod 64)) (String (chr (0x80 + r mod 64)) ""))) as ->
    by (unfold encode_rune; ranges; done).
  cbn [String.append chunks].
  assert (0xE0 ≤ 0xE0 + r / 4096 ≤ 0xEF) by (Z.div_mod_to_equations; lia).
  pose proof (Z.mod_pos_bound r 64 ltac:(lia)).
  pose proof (Z.mod_pos_bound (r / 64) 64 ltac:(lia)).
  rewrite !code_chr_small by lia.
  rewrite (proj2 (in_range_true
      (second_lo (0xE0 + r / 4096)) (second_hi (0xE0 + r / 4096)) (0x80 + (r / 64) mod 64))) by
    (unfold second_lo, second_hi; ranges; Z.div_mod_to_equations; lia).
  unfold RuneSelf. ranges. do 2 f_equal. Z.div_mod_to_equations; lia.
Qed.

Lemma chunks_encode4 r s :
  0x10000 ≤ r ≤ MaxRune →
  chunks (encode_rune r +:+ s) = (r, encode_rune r) :: chunks s.
Proof.
  intros Hr. unfold MaxRune in Hr.
  assert (encode_rune r = String (chr (0xF0 + r / 262144)) (String (chr (0x80 + (r / 4096) mod 64))
      (String (chr (0x80 + (r / 64) mod 64)) (String (chr (0x80 + r mod 64)) "")))) as ->
    by (unfold encode_rune, MaxRune; ranges; done).
  cbn [String.append chunks].
  assert (0xF0 ≤ 0xF0 + r / 262144 ≤ 0xF4) by (Z.div_mod_to_equations; lia).
  pose proof (Z.mod_pos_bound r 64 ltac:(lia)).
  pose proof (Z.mod_pos_bound (r / 64) 64 ltac:(lia)).
  pose proof (Z.mod_pos_bound (r / 4096) 64 ltac:(lia)).
  rewrite !code_chr_small by lia.
  rewrite (proj2 (in_range_true
      (second_lo (0xF0 + r / 262144)) (second_hi (0xF0 + r / 262144)) (0x80 + (r / 4096) mod 64))) by
    (unfold second_lo, second_hi; ranges; Z.div_mod_to_equations; lia).
  unfold RuneSelf. ranges. do 2 f_equal. Z.div_mod_to_equations; lia.
Qed.

Lemma chunks_encode r s :
  valid_rune r → chunks (encode_rune r +:+ s) = (r, encode_rune r) :: chunks s.
Proof.
  intros [Hr Hs].
  destruct (decide (r ≤ 0x7F)); [apply chunks_encode1; lia|].
  destruct (decide (r ≤ 0x7FF)); [apply chunks_encode2; lia|].
  destruct (decide (r ≤ 0xFFFF)); [apply chunks_encode3; lia|].
  apply chunks_encode4; lia.
Qed.

Lemma RuneError_valid : valid_rune RuneError.
Proof. unfold valid_rune, RuneError, MaxRune. lia. Qed.

(** One step of decoding: the first chunk holds a valid rune and a non-empty
    prefix of the string, and decoding goes on after that prefix. *)
Lemma chunks_cons s :
  s ≠ "" → ∃ r b s', chunks s = (r, b) :: chunks s' ∧ s = b +:+ s' ∧ b ≠ "" ∧ valid_rune r.
Proof.
  destruct s as [|c0 s0]; [done|]. intros _. cbn [chunks].
  pose proof (code_range c0).
  assert (∃ r b s', (RuneError, String c0 "") :: chunks s0 = (r, b) :: chunks s' ∧
     String c0 s0 = b +:+ s' ∧ b ≠ "" ∧ valid_rune r) as Hbad
    by (eexists _, _, _; split_and!; [done..|apply RuneError_valid]).
  unfold in_range, RuneSelf, second_lo, second_hi.
  repeat case_match; try exact Hbad;
    (eexists _, _, _; split_and!; [done..|unfold valid_rune, MaxRune; lia]).
Qed.

Lemma chunks_induction (P : string → Prop) :
  P "" →
  (∀ r b s, valid_rune r → b ≠ "" → chunks (b +:+ s) = (r, b) :: chunks s →
    P s → P (b +:+ s)) →
  ∀ s, P s.
Proof.
  intros Hnil Hcons s. remember (String.length s) as n eqn:Hn.
  revert s Hn. induction (lt_wf n) as [n _ IH]. intros s ->.
  destruct (decide (s = "")) as [->|Hs]; [done|].
  destruct (chunks_cons s Hs) as (r & b & s' & Hc & Heq & Hb & Hr). subst s.
  apply (Hcons r); [done..|].
  apply (IH (String.length s')); [|done].
  destruct b; [done|]. clear. induction b; simpl in *; lia.
Qed.

Lemma chunks_app_bytes s : concat_strings (chunks s).*2 = s.
Proof.
  induction s as [|r b s Hr Hb Hc IH] using chunks_induction; [done|].
  rewrite Hc. cbn [fmap list_fmap concat_strings snd]. f_equal. exact IH.
Qed.

Lemma runes_valid s : Forall valid_rune (runes s).
Proof.
  unfold runes. induction s as [|r b s Hr Hb Hc IH] using chunks_induction.
  - constructor.
  - rewrite Hc. cbn. by constructor.
Qed.

Lemma chunks_ascii_cons c s :
  code c < RuneSelf → chunks (String c s) = (code c, String c "") :: chunks s.
Proof. intros. cbn [chunks]. by rewrite (proj2 (Z.ltb_lt _ _)). Qed.

(** [strings.Map] output decodes to the mapped runes. *)
Lemma runes_concat_encode l :
  Forall valid_rune l → runes (concat_strings (encode_rune <$> l)) = l.
Proof.
  unfold runes. induction 1 as [|r l Hr _ IH]; [done|]. cbn [fmap list_fmap concat_strings].
  rewrite chunks_encode by done. cbn. f_equal. exact IH.
Qed.

(** ** Lemmas: case *)

Section to_lower.
Context `{GoUnicodeLaws}.

Lemma ascii_lower_range r : 0 ≤ r < RuneSelf → 0 ≤ ascii_lower r < RuneSelf.
Proof. unfold ascii_lower, in_range, RuneSelf. intros. case_match; lia. Qed.

Lemma ascii_lower_idem r : ascii_lower (ascii_lower r) = ascii_lower r.
Proof. unfold ascii_lower, in_range. repeat case_match; lia. Qed.

Lemma unicode_ToLower_valid r : valid_rune r → valid_rune (unicode_ToLower r).
Proof.
  intros Hr. unfold unicode_ToLower. destruct (Z.ltb_spec r RuneSelf).
  - pose proof (ascii_lower_range r). unfold valid_rune, RuneSelf, MaxRune in *. lia.
  - apply lower_valid; [done|lia].
Qed.

Lemma unicode_ToLower_idem r :
  valid_rune r → unicode_ToLower (unicode_ToLower r) = unicode_ToLower r.
Proof.
  intros Hr. unfold unicode_ToLower at 2 3. destruct (Z.ltb_spec r RuneSelf).
  - unfold unicode_ToLower. destruct Hr as [? ?].
    pose proof (ascii_lower_range r). rewrite (proj2 (Z.ltb_lt _ _)) by lia.
    apply ascii_lower_idem.
  - apply lower_idem; [done|lia].
Qed.

(** The byte-wise fast path of [ToLower] agrees with the general one. *)
Lemma ToLower_runes s : ToLower s = concat_strings (encode_rune <$> (unicode_ToLower <$> runes s)).
Proof.
  rewrite <- list_fmap_compose. unfold ToLower, strings_Map.
  destruct (is_ascii s) eqn:E; [|done].
  induction s as [|c s IH]; [done|]. cbn in E. apply andb_true_iff in E as [Hc E].
  apply Z.ltb_lt in Hc. unfold runes. rewrite chunks_ascii_cons by done. cbn.
  rewrite IH by done. unfold unicode_ToLower at 2. rewrite (proj2 (Z.ltb_lt _ _)) by done.
  pose proof (code_range c). pose proof (ascii_lower_range (code c)).
  unfold encode_rune at 2. unfold RuneSelf in *.
  rewrite (proj2 (in_range_true _ _ _)) by lia. done.
Qed.

Lemma runes_ToLower s : runes (ToLower s) = unicode_ToLower <$> runes s.
Proof.
  rewrite ToLower_runes. apply runes_concat_encode, Forall_fmap.
  eapply Forall_impl; [apply runes_valid|]. apply unicode_ToLower_valid.
Qed.

Lemma ToLower_idem s : ToLower (ToLower s) = ToLower s.
Proof.
  rewrite (ToLower_runes (ToLower s)), runes_ToLower, (ToLower_runes s).
  do 2 f_equal. rewrite <- list_fmap_compose.
  apply list_fmap_ext. intros i r Hi. cbn. apply unicode_ToLower_idem.
  eapply Forall_lookup_1; [apply runes_valid|done].
Qed.
End to_lower.

#[export] Hint Rewrite @ToLower_idem using typeclasses eauto : dlqe.

Lemma ascii_tables_laws : @GoUnicodeLaws ascii_tables.
Proof.
  constructor; cbn; [done|]. intros r _ Hr. unfold unicode_ToLower.
  by rewrite (proj2 (Z.ltb_ge _ _)).
Qed.

Lemma ToLower_lower_ascii `{GoUnicode} s :
  string_forallb (λ c, (code c <? RuneSelf) && negb (in_range 65 90 (code c))) s = true →
  ToLower s = s.
Proof.
  intros Hs. unfold ToLower.
  assert (is_ascii s = true) as ->.
  { unfold is_ascii. induction s as [|c s IH]; [done|]. cbn in *.
    apply andb_true_iff in Hs as [[-> _]%andb_true_iff Hs]. by apply IH. }
  induction s as [|c s IH]; [done|]. cbn in *.
  apply andb_true_iff in Hs as [[_ Hc]%andb_true_iff Hs]. apply negb_true_iff in Hc.
  rewrite IH by done. unfold ascii_lower. by rewrite Hc, chr_code.
Qed.

(** On ASCII strings [EqualFold] is equality of lower cases. *)
Lemma EqualFold_ascii `{GoUnicode} s t :
  is_ascii s = true → is_ascii t = true → EqualFold s t = true → ToLower s = ToLower t.
Proof.
  intros Hs Ht. unfold ToLower. rewrite Hs, Ht. unfold EqualFold, runes.
  revert t Hs Ht. induction s as [|c s IH]; intros [|d t] Hs Ht; try done;
    cbn in Hs, Ht; repeat match goal with
    | H : (_ && _)%bool = true |- _ => apply andb_true_iff in H as [?%Z.ltb_lt ?]
    end; rewrite ?chunks_ascii_cons by done; cbn; [done..|].
  intros [Hcd Hst]%andb_true_iff. f_equal; [|by apply IH].
  f_equal. revert Hcd. unfold fold_eq, ascii_lower, in_range, RuneSelf in *.
  repeat case_match; lia.
Qed.

(** ** Lemmas: tokens *)

Lemma re_Split_alnum s : Forall (λ p, string_forallb is_alnum p = true) (re_Split s).
Proof.
  induction s as [|c s IH]; [by repeat constructor|]. cbn [re_Split].
  destruct (is_alnum c) eqn:Hc.
  - destruct (re_Split s) as [|p ps]; repeat constructor; cbn; rewrite ?Hc; [done|by inversion IH..].
  - destruct s as [|c' s]; [by repeat constructor|].
    destruct (is_alnum c'); [by constructor|done].
Qed.

Lemma nonempty_pieces_alnum s t :
  t ∈ nonempty_pieces s → t ≠ "" ∧ string_forallb is_alnum t = true.
Proof.
  intros [Ht Hin]%list_elem_of_filter. split; [done|].
  by apply (proj1 (Forall_forall _ _) (re_Split_alnum s)).
Qed.

Lemma alnum_ToLower `{GoUnicode} t : string_forallb is_alnum t = true → ToLower t = t.
Proof.
  intros Ht. apply ToLower_lower_ascii. induction t as [|c t IH]; [done|]. cbn in *.
  apply andb_true_iff in Ht as [Hc Ht]. rewrite IH by done. rewrite andb_true_r.
  unfold is_alnum, in_range, RuneSelf in *. lia.
Qed.

(** ** Lemmas: cutting *)

Lemma Cut1_Some s c l r :
  Cut1 s c = Some (l, r) ↔ s = l +:+ String c r ∧ string_elem c l = false.
Proof.
  revert l r. induction s as [|d s IH]; intros l r; cbn.
  - split; [done|]. intros [? _]. by destruct l.
  - case_decide as E; [subst d|].
    + split; [intros [= <- <-]; done|]. intros [Heq Hl]. destruct l as [|x l]; cbn in *.
      * by simplify_eq.
      * simplify_eq. by rewrite bool_decide_true in Hl.
    + destruct (Cut1 s c) as [[l' r']|] eqn:Hcut.
      * split.
        -- intros [= <- <-]. apply IH in Hcut as [-> ?] || (destruct (proj1 (IH l' r') eq_refl) as [-> ?]).
           cbn. rewrite bool_decide_false by congruence. done.
        -- destruct (proj1 (IH l' r') eq_refl) as [Hs Hl']. intros [Heq Hl].
           destruct l as [|x l]; cbn in *; [congruence|]. simplify_eq.
           apply orb_false_iff in Hl as [_ Hl].
           assert (Some (l', r') = Some (l, r)) as [= -> ->] by (by apply IH). done.
      * split; [done|]. intros [Heq Hl]. destruct l as [|x l]; cbn in *; [congruence|].
        simplify_eq. apply orb_false_iff in Hl as [_ Hl].
        assert (None = Some (l, r)) by (by apply IH). done.
Qed.
