(* ===== verification/Observability.v ===== *)
(** * Request identifiers and metrics ([internal/observability])

    A request carries an identifier: as a value of the Go context inside a process, and as
    gRPC metadata between processes. The metadata a client attaches is what the server sees
    as incoming; nothing else of the client's context crosses the wire. The metrics are the
    collectors of [metrics.go]; the Prometheus registry is an argument. *)

From S2P Require Import Prelude GoStrings.

(** ** Contexts *)

(** What the engine keeps in a [context.Context]: the value under [requestIDKey], the
    incoming metadata (absent outside a handler) and the outgoing metadata. *)
Record Context := mkContext {
  ctx_requestID : option string;
  ctx_incoming : option (list (string * string));
  ctx_outgoing : list (string * string);
}.

Definition Background : Context := mkContext None None [].

(** The context of a handler for a call made with [ctx]. *)
Definition handler_context (ctx : Context) : Context := mkContext None (Some (ctx_outgoing ctx)) [].

Definition metaKeyRequestID : string := "x-request-id".
Definition metaKeyForwarded : string := "x-forwarded-ingest".

(** [metadata.AppendToOutgoingContext] and [md.Get]; the keys are lower case. *)
Definition AppendToOutgoingContext (ctx : Context) (k v : string) : Context :=
  mkContext (ctx_requestID ctx) (ctx_incoming ctx) (ctx_outgoing ctx ++ [(k, v)]).
Definition md_Get (md : list (string * string)) (k : string) : list string :=
  (filter (λ kv, kv.1 = k) md).*2.

(** The hexadecimal digits of [%x] for a [uint64]. *)
Fixpoint hex_go (fuel : nat) (n : Z) : string :=
  match fuel with
  | O => ""
  | S fuel =>
    (if n <? 16 then "" else hex_go fuel (n / 16))
      +:+ String (if n mod 16 <? 10 then chr (48 + n mod 16) else chr (87 + n mod 16)) ""
  end.

(** [NewRequestID] for the random number drawn. *)
Definition NewRequestID (rand : Z) : string := "req-" +:+ hex_go 16 (uint64 rand).

Definition WithRequestID (ctx : Context) (id : string) : Context :=
  mkContext (Some id) (ctx_incoming ctx) (ctx_outgoing ctx).

Definition RequestIDFromContext (ctx : Context) : string := default "" (ctx_requestID ctx).

Definition OutgoingContextWithRequestID (ctx : Context) (id : string) : Context :=
  AppendToOutgoingContext ctx metaKeyRequestID id.

Definition RequestIDFromIncomingContext (ctx : Context) : string :=
  match ctx_incoming ctx with
  | None => ""
  | Some md => default "" (head (md_Get md metaKeyRequestID))
  end.

Definition OutgoingContextWithForwarded (ctx : Context) : Context :=
  AppendToOutgoingContext ctx metaKeyForwarded "1".

Definition IsForwardedFromIncomingContext (ctx : Context) : bool :=
  match ctx_incoming ctx with
  | None => false
  | Some md => bool_decide (md_Get md metaKeyForwarded ≠ [])
  end.

(** ** Metrics *)

Inductive metric_kind := Counter | Gauge | Histogram (buckets : list Z).

(** A collector: its name, its kind (bucket bounds in milliseconds) and its labels. *)
Record metric := mkMetric {
  m_Name : string;
  m_kind : metric_kind;
  m_labels : list string;
}.

Definition IngestRequestsTotal : metric :=
  mkMetric "logengine_ingest_requests_total" Counter ["node_id"; "status"; "source"].
Definition AppendDuration : metric :=
  mkMetric "logengine_append_duration_seconds" (Histogram [1; 5; 10; 50; 100; 500; 1000; 2000]) ["node_id"].
Definition ActiveSegmentBytes : metric := mkMetric "logengine_active_segment_bytes" Gauge ["node_id"].
Definition MountedSegmentsTotal : metric := mkMetric "logengine_mounted_segments_total" Gauge ["node_id"].
Definition IndexTokenCount : metric := mkMetric "logengine_index_token_count" Gauge ["node_id"].
Definition QueryDuration : metric :=
  mkMetric "logengine_query_duration_seconds" (Histogram [1; 5; 10; 50; 100; 500; 1000; 5000]) ["node_id"; "type"].
Definition FanOutTimeoutsTotal : metric := mkMetric "logengine_fanout_timeouts_total" Counter [].
Definition FanOutPartialTotal : metric := mkMetric "logengine_fanout_partial_total" Counter [].
Definition NodeHealthStatus : metric := mkMetric "logengine_node_health_status" Gauge ["node_id"].
Definition ReplicationLagEntries : metric := mkMetric "logengine_replication_lag_entries" Gauge ["target_addr"].

Definition all_metrics : list metric :=
  [IngestRequestsTotal; AppendDuration; ActiveSegmentBytes; MountedSegmentsTotal; IndexTokenCount;
   QueryDuration; FanOutTimeoutsTotal; FanOutPartialTotal; NodeHealthStatus; ReplicationLagEntries].

(** [Register] with a registry's [MustRegister]; [None] is its panic. *)
Definition Register {R} (MustRegister : R → metric → option R) (reg : R) : option R :=
  foldl (λ acc m, r ← acc; MustRegister r m) (Some reg) all_metrics.

(** Gauges and counters by metric and label values, as the process sets them. *)
Notation Metrics := (gmap (string * list string) Z).

Definition gauge_Set (m : metric) (labels : list string) (v : Z) (ms : Metrics) : Metrics :=
  <[(m_Name m, labels) := v]> ms.
Definition counter_Inc (m : metric) (labels : list string) (ms : Metrics) : Metrics :=
  <[(m_Name m, labels) := default 0 (ms !! (m_Name m, labels)) + 1]> ms.

(** ** Lemmas *)

Section register.
Context {R : Type} (MustRegister : R → metric → option R) (names : R → gset string).
(** A registry accepts a collector exactly when no collector of that name is in it. *)
Context (Hfresh : ∀ r m, m_Name m ∉ names r →
  ∃ r', MustRegister r m = Some r' ∧ names r' = {[ m_Name m ]} ∪ names r).
Context (Hdup : ∀ r m, m_Name m ∈ names r → MustRegister r m = None).

Lemma register_list l r :
  NoDup (m_Name <$> l) → (∀ m, m ∈ l → m_Name m ∉ names r) →
  ∃ r', foldl (λ acc m, r ← acc; MustRegister r m) (Some r) l = Some r' ∧
        names r' = list_to_set (m_Name <$> l) ∪ names r.
Proof.
  revert r. induction l as [|m l IH]; intros r Hnd Hnew.
  - exists r. split; [done|]. set_solver.
  - rewrite fmap_cons in Hnd. apply NoDup_cons in Hnd as [Hm Hnd].
    destruct (Hfresh r m (Hnew m ltac:(set_solver))) as (r1 & E & Hn1).
    destruct (IH r1 Hnd) as (r2 & E2 & Hn2).
    { intros m' Hin. rewrite Hn1. apply not_elem_of_union. split; [|apply Hnew; set_solver].
      intros Hs%elem_of_singleton. apply Hm. rewrite <- Hs. by apply list_elem_of_fmap_2. }
    exists r2. cbn [foldl mbind option_bind]. rewrite E. split; [exact E2|].
    rewrite Hn2, Hn1. cbn. set_solver.
Qed.

(** Registering once into a registry that holds none of the names succeeds and adds
    exactly the ten collectors; a second call panics. *)
Theorem Register_once (reg : R) :
  (∀ m, m ∈ all_metrics → m_Name m ∉ names reg) →
  ∃ reg', Register MustRegister reg = Some reg' ∧
    names reg' = list_to_set (m_Name <$> all_metrics) ∪ names reg ∧ Register MustRegister reg' = None.
Proof.
  intros Hnew. destruct (register_list all_metrics reg) as (r & E & Hn); [|done|].
  { apply (bool_decide_unpack _). vm_compute. done. }
  exists r. split; [exact E|]. split; [exact Hn|]. unfold Register, all_metrics. cbn [foldl mbind option_bind].
  rewrite Hdup; [done|]. rewrite Hn. set_solver.
Qed.
End register.

Lemma Register_once_witness :
  let MustRegister (r : gset string) (m : metric) :=
    if decide (m_Name m ∈ r) then None else Some ({[ m_Name m ]} ∪ r) in
  ∃ reg', Register MustRegister ∅ = Some reg' ∧
    reg' = list_to_set (m_Name <$> all_metrics) ∪ ∅ ∧ Register MustRegister reg' = None.
Proof.
  intros MustRegister. apply (Register_once MustRegister (λ r, r)).
  - intros r m Hm. exists ({[ m_Name m ]} ∪ r). unfold MustRegister. by rewrite decide_False.
  - intros r m Hm. unfold MustRegister. by rewrite decide_True.
  - intros m _ Hm. by apply elem_of_empty in Hm.
Defined.
