(* ===== verification/Types.v ===== *)
(** * Domain types ([pkg/types]) and their protobuf counterparts

    The generated message [logengine.LogEntry] is [Pb.LogEntry]; the
    converters between the two are copied in four packages, and one of the
    copies ([replication.entryToProto]) differs from the others. *)

From S2P Require Import Prelude GoStrings.

(** [types.LogEntry]. [Fields] is a Go [map[string]string]. *)
Record LogEntry := mkLogEntry {
  ID : string;
  Timestamp : Z;
  ReceivedAt : Z;
  Namespace : string;
  Service : string;
  Level : string;
  Message : string;
  Fields : gmap string string;
}.

#[global] Instance LogEntry_eq_dec : EqDecision LogEntry.
Proof. solve_decision. Defined.

(** [types.QueryRequest]. *)
Record QueryRequest := mkQueryRequest {
  QueryString : string;
  qNamespace : string;
  qService : string;
  StartTime : Z;
  EndTime : Z;
  Limit : Z;
  Offset : Z;
}.

(** [types.QueryResult]. *)
Record QueryResult := mkQueryResult {
  Entries : list LogEntry;
  Total : Z;
  TookMs : Z;
  Partial : bool;
}.

(** The generated message [logengine.LogEntry]. *)
Module Pb.
Record LogEntry := mkLogEntry {
  Id : string;
  Timestamp : Z;
  ReceivedAt : Z;
  Service : string;
  Level : string;
  Message : string;
  Fields : gmap string string;
  Namespace : string;
}.

#[global] Instance LogEntry_eq_dec : EqDecision LogEntry.
Proof. solve_decision. Defined.
End Pb.

(** [ingest.ProtoToEntry]. *)
Definition ProtoToEntry (pb : Pb.LogEntry) : LogEntry :=
  {| ID := Pb.Id pb;
     Timestamp := Pb.Timestamp pb;
     ReceivedAt := Pb.ReceivedAt pb;
     Namespace := Pb.Namespace pb;
     Service := Pb.Service pb;
     Level := Pb.Level pb;
     Message := Pb.Message pb;
     Fields := Pb.Fields pb |}.

(** [ingest.EntryToProto]. *)
Definition EntryToProto (e : LogEntry) : Pb.LogEntry :=
  {| Pb.Id := ID e;
     Pb.Timestamp := Timestamp e;
     Pb.ReceivedAt := ReceivedAt e;
     Pb.Namespace := Namespace e;
     Pb.Service := Service e;
     Pb.Level := Level e;
     Pb.Message := Message e;
     Pb.Fields := Fields e |}.

(** [storage.storageProtoToEntry]. *)
Definition storageProtoToEntry (pb : Pb.LogEntry) : LogEntry :=
  {| ID := Pb.Id pb;
     Timestamp := Pb.Timestamp pb;
     ReceivedAt := Pb.ReceivedAt pb;
     Namespace := Pb.Namespace pb;
     Service := Pb.Service pb;
     Level := Pb.Level pb;
     Message := Pb.Message pb;
     Fields := Pb.Fields pb |}.

(** [replication.entryToProto]: the composite literal names no [Namespace], so
    the field keeps its zero value. *)
Definition replication_entryToProto (e : LogEntry) : Pb.LogEntry :=
  {| Pb.Id := ID e;
     Pb.Timestamp := Timestamp e;
     Pb.ReceivedAt := ReceivedAt e;
     Pb.Service := Service e;
     Pb.Level := Level e;
     Pb.Message := Message e;
     Pb.Fields := Fields e;
     Pb.Namespace := "" |}.

(** ** The protobuf runtime

    [proto.Marshal] and [proto.Unmarshal] of [google.golang.org/protobuf] are
    not part of this repository. [Marshal] can fail (a string that is not
    UTF-8), and what it writes reads back. *)
Class Protobuf := {
  Marshal : Pb.LogEntry → option (list byte);
  Unmarshal : list byte → option Pb.LogEntry;
}.

Class ProtobufLaws `{Protobuf} : Prop := {
  Unmarshal_Marshal pb data : Marshal pb = Some data → Unmarshal data = Some pb;
}.

(** [storage.marshalLogEntry]; the same literal opens [appendLocked]. *)
Definition marshalLogEntry `{Protobuf} (e : LogEntry) : result (list byte) :=
  let pb := {| Pb.Id := ID e;
               Pb.Timestamp := Timestamp e;
               Pb.ReceivedAt := ReceivedAt e;
               Pb.Namespace := Namespace e;
               Pb.Service := Service e;
               Pb.Level := Level e;
               Pb.Message := Message e;
               Pb.Fields := Fields e |} in
  match Marshal pb with
  | Some data => Ok data
  | None => Err (ErrWrap "marshal log entry" (ErrMsg "proto"))
  end.

(** A codec with these laws, so that theorems that assume [ProtobufLaws] can be
    evaluated: the positive number that encodes a message, one byte per bit. *)
Definition pb_to_tuple (e : Pb.LogEntry) :=
  (Pb.Id e, Pb.Timestamp e, Pb.ReceivedAt e, Pb.Service e, Pb.Level e, Pb.Message e,
   Pb.Fields e, Pb.Namespace e).
Definition pb_of_tuple t : Pb.LogEntry :=
  let '(i, ts, ra, sv, lv, ms, fl, ns) := t in Pb.mkLogEntry i ts ra sv lv ms fl ns.

#[global] Instance pb_countable : Countable Pb.LogEntry.
Proof. refine (inj_countable' pb_to_tuple pb_of_tuple _). by intros []. Defined.

Fixpoint bits_of_pos (p : positive) : list byte :=
  match p with xH => [] | xO p' => x00 :: bits_of_pos p' | xI p' => x01 :: bits_of_pos p' end.
Fixpoint pos_of_bits (l : list byte) : positive :=
  match l with
  | [] => xH
  | b :: l' => if bool_decide (b = x00) then xO (pos_of_bits l') else xI (pos_of_bits l')
  end.

Definition bit_codec : Protobuf :=
  {| Marshal pb := Some (bits_of_pos (encode pb));
     Unmarshal data := decode (pos_of_bits data) |}.

Definition sample_entry (id msg : string) (ts : Z) : LogEntry :=
  mkLogEntry id ts 1000 "" "api" "INFO" msg ∅.

(** ** Lemmas *)

Lemma pos_of_bits_of_pos p : pos_of_bits (bits_of_pos p) = p.
Proof. induction p as [p IH|p IH|]; cbn; rewrite ?IH; done. Qed.

Lemma bit_codec_laws : @ProtobufLaws bit_codec.
Proof.
  constructor. intros pb data [= <-]. cbn. by rewrite pos_of_bits_of_pos, decode_encode.
Qed.

Lemma ProtoToEntry_EntryToProto e : ProtoToEntry (EntryToProto e) = e.
Proof. by destruct e. Qed.

Lemma EntryToProto_ProtoToEntry pb : EntryToProto (ProtoToEntry pb) = pb.
Proof. by destruct pb. Qed.

Lemma storageProtoToEntry_EntryToProto e : storageProtoToEntry (EntryToProto e) = e.
Proof. by destruct e. Qed.

#[export] Hint Rewrite ProtoToEntry_EntryToProto EntryToProto_ProtoToEntry
  storageProtoToEntry_EntryToProto : dlqe.

Lemma marshalLogEntry_Ok `{Protobuf} e data :
  marshalLogEntry e = Ok data ↔ Marshal (EntryToProto e) = Some data.
Proof. unfold marshalLogEntry, EntryToProto. case_match; naive_solver. Qed.

(** A marshalled entry unmarshals to itself. *)
Lemma unmarshal_entry `{ProtobufLaws} e data :
  marshalLogEntry e = Ok data →
  storageProtoToEntry <$> Unmarshal data = Some e.
Proof.
  intros Hm%marshalLogEntry_Ok. erewrite Unmarshal_Marshal by done. cbn.
  by rewrite storageProtoToEntry_EntryToProto.
Qed.
