(* ===== verification/Record.v ===== *)
(** * Record framing ([internal/storage/record.go])

    [WriteRecord] and [ReadRecord] frame a payload with its length as a 4-byte
    big-endian [uint32]. A reader is the bytes it still delivers and how it
    ends: with [io.EOF], or with an I/O error. *)

From S2P Require Import Prelude.
#[local] Open Scope go.

(** ** The reader: bytes, then [io.EOF] or an error *)
Record Reader := mkReader {
  rd_bytes : list byte;
  rd_end : option GoError;
}.

(** [io.ReadFull(r, buf)] with [len(buf) = n]. *)
Definition ReadFull (r : Reader) (n : nat) : result (list byte * Reader) :=
  if decide (n ≤ length (rd_bytes r))%nat then
    Ok (take n (rd_bytes r), mkReader (drop n (rd_bytes r)) (rd_end r))
  else
    match rd_end r with
    | Some e => Err e
    | None => Err (if decide (rd_bytes r = []) then io_EOF else io_ErrUnexpectedEOF)
    end.

(** [binary.BigEndian] for a [uint32]. *)
Definition put_uint32 (z : Z) : list byte :=
  [byte_of_Z (Z.shiftr z 24); byte_of_Z (Z.shiftr z 16);
   byte_of_Z (Z.shiftr z 8); byte_of_Z z].

Definition get_uint32 (l : list byte) : Z :=
  match byte_to_Z <$> l with
  | [b0; b1; b2; b3] =>
    Z.lor b3 (Z.lor (Z.shiftl b2 8) (Z.lor (Z.shiftl b1 16) (Z.shiftl b0 24)))
  | _ => 0
  end.

Definition len {A} (l : list A) : Z := Z.of_nat (length l).

(** ** Writing *)

(** The writes [WriteRecord] issues on its [io.Writer], in order: the length,
    then the payload; or the error for an oversized payload. *)
Definition WriteRecord_chunks (data : list byte) : result (list (list byte)) :=
  if MaxUint32 <? len data
  then Err (ErrMsg "write record: payload length overflows uint32")
  else Ok [put_uint32 (uint32 (len data)); data].

(** [WriteRecord] on a writer that never fails, such as [bytes.Buffer]. *)
Definition WriteRecord (w : list byte) (data : list byte) : result (list byte) :=
  let? cs := WriteRecord_chunks data in Ok (w ++ mjoin cs).

(** ** Reading *)

Definition maxRecordSize : Z := 64 * 1024 * 1024.

Definition ReadRecord (r : Reader) : result (list byte * Reader) :=
  match ReadFull r 4 with
  | Err e =>
    if bool_decide (e = io_EOF) then Err io_EOF
    else Err (ErrWrap "read record length" e)
  | Ok (hdr, r1) =>
    let length := get_uint32 hdr in
    if maxRecordSize <? length
    then Err (ErrMsg "read record: payload length exceeds maximum")
    else match ReadFull r1 (Z.to_nat length) with
         | Err e => Err (ErrWrap "read record data" e)
         | Ok (data, r2) => Ok (data, r2)
         end
  end.

(** A framed record, as it lies on disk. *)
Definition frame (data : list byte) : list byte := put_uint32 (len data) ++ data.

(** ** Lemmas *)

Lemma put_uint32_length z : length (put_uint32 z) = 4%nat.
Proof. done. Qed.

Lemma testbit_low_byte a n :
  Z.testbit (Z.land a (Z.ones 8)) n = (0 <=? n) && (n <? 8) && Z.testbit a n.
Proof.
  rewrite Z.land_spec. destruct (Z.leb_spec 0 n).
  - rewrite Z.testbit_ones_nonneg by lia. destruct (n <? 8), (Z.testbit a n); done.
  - by rewrite !Z.testbit_neg_r.
Qed.

Lemma testbit_byte_at a k n :
  0 ≤ k → 0 ≤ n →
  Z.testbit (Z.land (Z.shiftr a k) (Z.ones 8)) (n - k)
  = (k <=? n) && (n <? k + 8) && Z.testbit a n.
Proof.
  intros. rewrite testbit_low_byte.
  replace (0 <=? n - k) with (k <=? n) by lia.
  replace (n - k <? 8) with (n <? k + 8) by lia.
  destruct (Z.leb_spec k n); [|done]. rewrite Z.shiftr_spec by lia.
  by replace (n - k + k) with n by lia.
Qed.

Lemma get_put_uint32 z : 0 ≤ z < 2 ^ 32 → get_uint32 (put_uint32 z) = z.
Proof.
  intros Hz. unfold put_uint32, get_uint32. cbn [fmap list_fmap].
  rewrite !byte_to_of_Z. change 256 with (2 ^ 8). rewrite <- !Z.land_ones by lia.
  apply Z.bits_inj'. intros n Hn.
  rewrite !Z.lor_spec, !Z.shiftl_spec, testbit_low_byte, !testbit_byte_at by lia.
  destruct (decide (n < 32)).
  - repeat match goal with
    | |- context [?a <=? ?b] => destruct (Z.leb_spec a b); try lia
    | |- context [?a <? ?b] => destruct (Z.ltb_spec a b); try lia
    end; cbn [andb orb]; by rewrite ?orb_false_r.
  - assert (Z.testbit z n = false) as ->.
    { rewrite <- (Z.mod_small z (2 ^ 32)) by lia. apply Z.mod_pow2_bits_high. lia. }
    by rewrite !andb_false_r.
Qed.

Lemma ReadFull_app r n a b :
  rd_bytes r = a ++ b → length a = n →
  ReadFull r n = Ok (a, mkReader b (rd_end r)).
Proof.
  intros Hr <-. unfold ReadFull. rewrite Hr, length_app.
  rewrite decide_True by lia. by rewrite take_app_length, drop_app_length.
Qed.

Lemma ReadFull_short r n :
  (length (rd_bytes r) < n)%nat → rd_end r = None →
  ReadFull r n = Err (if decide (rd_bytes r = []) then io_EOF else io_ErrUnexpectedEOF).
Proof. intros Hn He. unfold ReadFull. rewrite decide_False, He by lia. done. Qed.

Lemma ReadFull_Ok r n data r' :
  ReadFull r n = Ok (data, r') →
  rd_bytes r = data ++ rd_bytes r' ∧ length data = n ∧ rd_end r' = rd_end r.
Proof.
  unfold ReadFull. case_decide; [|by repeat case_match].
  intros [= <- <-]. cbn. rewrite take_drop, length_take_le; auto.
Qed.

(** Reading a framed record gives its payload and leaves the rest. *)
Lemma ReadRecord_frame data rest e :
  len data ≤ maxRecordSize →
  ReadRecord (mkReader (frame data ++ rest) e) = Ok (data, mkReader rest e).
Proof.
  intros Hlen. unfold ReadRecord, frame.
  rewrite (ReadFull_app _ 4 (put_uint32 (len data)) (data ++ rest)) by (by rewrite <- ?app_assoc).
  unfold len, maxRecordSize in *. rewrite get_put_uint32 by lia.
  rewrite (proj2 (Z.ltb_ge _ _)) by lia.
  rewrite (ReadFull_app _ _ data rest); [done..|lia].
Qed.

Lemma ReadRecord_Ok r data r' :
  ReadRecord r = Ok (data, r') →
  (length (rd_bytes r') + 4 ≤ length (rd_bytes r))%nat ∧ rd_end r' = rd_end r
  ∧ len data ≤ maxRecordSize.
Proof.
  unfold ReadRecord. destruct (ReadFull r 4) as [[hdr r1]|] eqn:E1; [|by case_bool_decide].
  destruct (Z.ltb_spec maxRecordSize (get_uint32 hdr)); [done|].
  destruct (ReadFull r1 _) as [[d r2]|] eqn:E2; [|done]. intros [= <- <-].
  apply ReadFull_Ok in E1 as (E1 & L1 & X1). apply ReadFull_Ok in E2 as (E2 & L2 & X2).
  rewrite E1, E2, !length_app. split; [lia|]. split; [congruence|].
  unfold len, maxRecordSize in *. lia.
Qed.

Lemma WriteRecord_Ok w data :
  len data ≤ MaxUint32 → WriteRecord w data = Ok (w ++ frame data).
Proof.
  intros Hlen. unfold WriteRecord, WriteRecord_chunks, frame.
  rewrite (proj2 (Z.ltb_ge _ _)) by lia. cbn. rewrite app_nil_r.
  unfold len, MaxUint32 in *. by rewrite uint32_small by lia.
Qed.

(** Reading a strict prefix of a framed record fails. *)
Lemma ReadRecord_prefix data k :
  len data ≤ maxRecordSize → (k < length (frame data))%nat →
  ∃ e, ReadRecord (mkReader (take k (frame data)) None) = Err e ∧ (e = io_EOF ↔ k = 0%nat).
Proof.
  intros Hlen Hk. unfold frame in *. rewrite length_app, put_uint32_length in Hk.
  destruct (decide (k < 4)%nat) as [Hk4|Hk4].
  - unfold ReadRecord. rewrite ReadFull_short; [|cbn; rewrite length_take; lia|done]. cbn.
    destruct k as [|k]; cbn.
    + exists io_EOF. by rewrite bool_decide_true.
    + eexists. by rewrite bool_decide_false.
  - rewrite take_app_ge by (rewrite put_uint32_length; lia). rewrite put_uint32_length.
    unfold ReadRecord.
    rewrite (ReadFull_app _ 4 (put_uint32 (len data)) (take (k - 4) data)) by done.
    unfold len, maxRecordSize in *. rewrite get_put_uint32 by lia.
    rewrite (proj2 (Z.ltb_ge _ _)) by lia.
    rewrite ReadFull_short by (cbn; rewrite ?length_take; lia || done).
    eexists. split; [done|]. split; [done|lia].
Qed.

(** ** Properties *)

(** What [WriteRecord] appends to a stream, [ReadRecord] reads back: for every
    payload of at most 64 MiB the write succeeds, and reading from where it was
    written gives exactly the payload and leaves exactly what follows it. *)
Theorem record_roundtrip (w data rest : list byte) (e : option GoError) :
  len data ≤ maxRecordSize →
  ∃ w', WriteRecord w data = Ok w' ∧
    ReadRecord (mkReader (drop (length w) w' ++ rest) e) = Ok (data, mkReader rest e).
Proof.
  intros Hlen. eexists. split; [apply WriteRecord_Ok; unfold maxRecordSize, MaxUint32 in *; lia|].
  rewrite drop_app_length. by apply ReadRecord_frame.
Qed.

Lemma record_roundtrip_witness :
  len [x41; x42] ≤ maxRecordSize ∧
  ∃ w', WriteRecord [x00] [x41; x42] = Ok w' ∧
    ReadRecord (mkReader (drop 1 w' ++ [x43]) None) = Ok ([x41; x42], mkReader [x43] None).
Proof. split; [done|]. apply (record_roundtrip [x00] [x41; x42] [x43] None). done. Defined.

(** A torn record is never mistaken for data: on every strict prefix of a framed
    record [ReadRecord] fails, and it reports [io.EOF] (a clean end) exactly when
    the prefix is empty. *)
Theorem record_truncated (data : list byte) (k : nat) :
  len data ≤ maxRecordSize → (k < length (frame data))%nat →
  ∃ e, ReadRecord (mkReader (take k (frame data)) None) = Err e ∧ (e = io_EOF ↔ k = 0%nat).
Proof. apply ReadRecord_prefix. Qed.

Lemma record_truncated_witness :
  ∃ e, ReadRecord (mkReader (take 5 (frame [x41; x42])) None) = Err e ∧ (e = io_EOF ↔ 5%nat = 0%nat).
Proof. apply (record_truncated [x41; x42] 5); [done|cbn; lia]. Defined.

(** The two limits disagree: a payload above 64 MiB that still fits a [uint32] is
    written without error, and the record so written cannot be read. *)
Theorem record_limit_mismatch (w data rest : list byte) (e : option GoError) :
  maxRecordSize < len data ≤ MaxUint32 →
  ∃ w' msg, WriteRecord w data = Ok w' ∧
    ReadRecord (mkReader (drop (length w) w' ++ rest) e) = Err (ErrMsg msg).
Proof.
  intros Hlen. do 2 eexists. split; [apply WriteRecord_Ok; lia|].
  rewrite drop_app_length. unfold ReadRecord, frame.
  rewrite (ReadFull_app _ 4 (put_uint32 (len data)) (data ++ rest)) by (by rewrite <- ?app_assoc).
  unfold len, maxRecordSize, MaxUint32 in *. rewrite get_put_uint32 by lia.
  by rewrite (proj2 (Z.ltb_lt _ _)) by lia.
Qed.

Lemma record_limit_mismatch_witness :
  ∃ w' msg, WriteRecord [] (replicate (Z.to_nat 67108865) x41) = Ok w' ∧
    ReadRecord (mkReader (drop 0 w' ++ []) None) = Err (ErrMsg msg).
Proof.
  apply (record_limit_mismatch [] (replicate (Z.to_nat 67108865) x41) [] None).
  unfold len, maxRecordSize, MaxUint32. rewrite length_replicate. lia.
Defined.
