(* ===== verification/Disk.v ===== *)
(** * The disk: files, system calls and their failures

    The storage code calls [os] and handles an error of nearly every call. The
    disk here is the files by path together with a schedule of outcomes: each
    system call consumes one outcome, so that a theorem quantified over
    schedules covers every combination of failures, and an empty schedule is a
    disk that never fails. A failing write may leave a prefix of its bytes in
    the file. *)

From S2P Require Import Prelude Record.

Inductive outcome :=
  | Done
  | Fault (written : nat).

Record Disk := mkDisk {
  files : gmap string (list byte);
  sched : list outcome;
}.

(** Computations on the disk. Errors are values: [IO (result A)]. *)
Definition IO (A : Type) : Type := Disk → A * Disk.

#[global] Instance IO_ret : MRet IO := λ A a d, (a, d).
#[global] Instance IO_bind : MBind IO := λ A B k m d, let '(a, d') := m d in k a d'.

(** The outcome of the next system call. *)
Definition syscall : IO outcome := λ d,
  match sched d with
  | [] => (Done, d)
  | o :: os => (o, mkDisk (files d) os)
  end.

Definition get_file (path : string) : IO (option (list byte)) :=
  λ d, (files d !! path, d).
Definition set_file (path : string) (content : list byte) : IO () :=
  λ d, ((), mkDisk (<[path := content]> (files d)) (sched d)).
Definition del_file (path : string) : IO () :=
  λ d, ((), mkDisk (delete path (files d)) (sched d)).

(** ** Reading *)

(** [os.Open] followed by the reads of the whole file: a fault of the open is an
    error, a fault of the reads ends the reader early with an error. *)
Definition os_Open (path : string) : IO (result Reader) :=
  o ← syscall;
  match o with
  | Fault _ => mret (Err os_ErrIO)
  | Done =>
    c ← get_file path;
    match c with
    | None => mret (Err os_ErrNotExist)
    | Some bytes =>
      o ← syscall;
      mret (Ok match o with
               | Done => mkReader bytes None
               | Fault n => mkReader (take n bytes) (Some os_ErrIO)
               end)
    end
  end.

(** [os.ReadFile]. *)
Definition os_ReadFile (path : string) : IO (result (list byte)) :=
  r ← os_Open path;
  mret match r with
       | Err e => Err e
       | Ok rd => match rd_end rd with Some e => Err e | None => Ok (rd_bytes rd) end
       end.

(** [os.Stat(path)]: the size of the file. *)
Definition os_Stat (path : string) : IO (result Z) :=
  o ← syscall;
  match o with
  | Fault _ => mret (Err os_ErrIO)
  | Done =>
    c ← get_file path;
    mret match c with None => Err os_ErrNotExist | Some bytes => Ok (len bytes) end
  end.

(** ** Writing *)

(** A file handle: its path and the offset of the next write, [None] once the
    handle has been closed. *)
Record File := mkHandle {
  f_path : string;
  f_off : option nat;
}.
Notation mkFile path pos := (mkHandle path (Some pos%nat)).

(** [os.OpenFile(path, O_CREATE|O_RDWR, _)]: offset 0, created empty if absent. *)
Definition os_OpenFile (path : string) : IO (result File) :=
  o ← syscall;
  match o with
  | Fault _ => mret (Err os_ErrIO)
  | Done =>
    c ← get_file path;
    match c with
    | Some _ => mret (Ok (mkFile path 0))
    | None => set_file path [] ;; mret (Ok (mkFile path 0))
    end
  end.

(** [os.Create(path)]: truncates. *)
Definition os_Create (path : string) : IO (result File) :=
  o ← syscall;
  match o with
  | Fault _ => mret (Err os_ErrIO)
  | Done => set_file path [] ;; mret (Ok (mkFile path 0))
  end.

(** [f.Stat()] and [f.Seek(0, io.SeekEnd)]. *)
Definition file_Stat (f : File) : IO (result Z) := os_Stat (f_path f).
Definition file_SeekEnd (f : File) : IO (result File) :=
  o ← syscall;
  match o with
  | Fault _ => mret (Err os_ErrIO)
  | Done =>
    c ← get_file (f_path f);
    mret (Ok (mkFile (f_path f) (length (default [] c))))
  end.

(** The content after writing [data] at offset [pos]. *)
Definition write_at (content : list byte) (pos : nat) (data : list byte) : list byte :=
  take pos content ++ replicate (pos - length content) x00 ++ data
  ++ drop (pos + length data) content.

(** [f.Write(data)]: on a fault only a prefix was written. *)
Definition file_Write (f : File) (data : list byte) : IO (File * result ()) :=
  match f_off f with
  | None => mret (f, Err os_ErrClosed)
  | Some pos =>
    o ← syscall;
    c ← get_file (f_path f);
    let content := default [] c in
    match o with
    | Done =>
      set_file (f_path f) (write_at content pos data) ;;
      mret (mkFile (f_path f) (pos + length data), Ok ())
    | Fault n =>
      let data' := take n data in
      set_file (f_path f) (write_at content pos data') ;;
      mret (mkFile (f_path f) (pos + length data'), Err os_ErrIO)
    end
  end.

(** [f.Sync()] and [f.Close()]. Once [f.Close()] has been called the handle is
    [closed_file f], whether or not the call failed; a handle that is used after
    that is replaced by it where the code keeps the handle. *)
Definition on_open (f : File) (c : IO (result ())) : IO (result ()) :=
  match f_off f with None => mret (Err os_ErrClosed) | Some _ => c end.
Definition file_Sync (f : File) : IO (result ()) :=
  on_open f (o ← syscall; mret match o with Done => Ok () | Fault _ => Err os_ErrIO end).
Definition file_Close (f : File) : IO (result ()) :=
  on_open f (o ← syscall; mret match o with Done => Ok () | Fault _ => Err os_ErrIO end).
Definition closed_file (f : File) : File := mkHandle (f_path f) None.

(** [os.Remove] and [os.Rename]. *)
Definition os_Remove (path : string) : IO (result ()) :=
  o ← syscall;
  match o with
  | Fault _ => mret (Err os_ErrIO)
  | Done =>
    c ← get_file path;
    match c with
    | None => mret (Err os_ErrNotExist)
    | Some _ => del_file path ;; mret (Ok ())
    end
  end.

Definition os_Rename (old new : string) : IO (result ()) :=
  o ← syscall;
  match o with
  | Fault _ => mret (Err os_ErrIO)
  | Done =>
    c ← get_file old;
    match c with
    | None => mret (Err os_ErrNotExist)
    | Some bytes => del_file old ;; set_file new bytes ;; mret (Ok ())
    end
  end.

(** [os.WriteFile(path, data, _)]: create or truncate, then write. *)
Definition os_WriteFile (path : string) (data : list byte) : IO (result ()) :=
  r ← os_Create path;
  match r with
  | Err e => mret (Err e)
  | Ok f => '(f, r) ← file_Write f data; _ ← file_Close f; mret r
  end.

(** ** Lemmas *)

(** A disk that never fails. *)
Definition no_faults (d : Disk) : Prop := sched d = [].

Lemma bind_run {A B} (m : IO A) (k : A → IO B) d :
  (m ≫= k) d = k (m d).1 (m d).2.
Proof. unfold mbind, IO_bind. by destruct (m d). Qed.

Lemma ret_run {A} (a : A) d : (mret a : IO A) d = (a, d).
Proof. done. Qed.

Lemma syscall_done d : no_faults d → syscall d = (Done, d).
Proof. unfold syscall, no_faults. by intros ->. Qed.

Lemma write_at_end content data :
  write_at content (length content) data = content ++ data.
Proof.
  unfold write_at. rewrite take_ge, Nat.sub_diag, drop_ge by lia. cbn. by rewrite app_nil_r.
Qed.

#[export] Hint Rewrite @bind_run @ret_run write_at_end : dlqe.

(** [io] runs an [IO] computation of the goal one step, resolving the outcome
    of a system call when the disk has no faults. *)
Ltac io :=
  repeat first
    [ rewrite bind_run
    | rewrite ret_run
    | match goal with
      | |- context [syscall (mkDisk ?fs ?sc)] =>
          rewrite (syscall_done (mkDisk fs sc)) by (assumption || done)
      | |- context [syscall ?d] => is_var d; rewrite (syscall_done d) by assumption
      end
    | progress cbn [fst snd get_file set_file del_file files sched f_path f_off on_open rd_bytes rd_end] ].
