(* ===== verification/Segment.v ===== *)
(** * Segment files ([internal/storage/segment.go] and [read.go])

    A segment is a file of framed protobuf records. [holds bytes es] is the
    abstraction: the bytes are exactly the records of the entries [es]. *)

From S2P Require Import Prelude Types Record Disk.

Section segment.
Context `{Protobuf}.

(** [storage.Segment]. *)
Record Segment := mkSegment {
  seg_file : File;
  seg_size : Z;
}.

(** [OpenSegment]: open or create, take the size, seek to the end. *)
Definition OpenSegment (path : string) : IO (result Segment) :=
  r ← os_OpenFile path;
  match r with
  | Err e => mret (Err (ErrWrap "open segment" e))
  | Ok f =>
    info ← file_Stat f;
    match info with
    | Err e => _ ← file_Close f; mret (Err (ErrWrap "stat segment" e))
    | Ok size =>
      sk ← file_SeekEnd f;
      match sk with
      | Err e => _ ← file_Close f; mret (Err (ErrWrap "seek segment" e))
      | Ok f' => mret (Ok (mkSegment f' size))
      end
    end
  end.

(** [WriteRecord] on an open file: the length first, then the payload; the
    first failing write stops it. *)
Definition file_WriteRecord (f : File) (data : list byte) : IO (File * result ()) :=
  match WriteRecord_chunks data with
  | Ok [hdr; payload] =>
    '(f, r) ← file_Write f hdr;
    match r with
    | Err e => mret (f, Err (ErrWrap "write record length" e))
    | Ok _ =>
      '(f, r) ← file_Write f payload;
      match r with
      | Err e => mret (f, Err (ErrWrap "write record data" e))
      | Ok _ => mret (f, Ok ())
      end
    end
  | Ok _ => mret (f, Ok ())
  | Err e => mret (f, Err e)
  end.

(** [Segment.Append]: the size counts only records written and synced. *)
Definition Segment_Append (s : Segment) (data : list byte) : IO (Segment * result ()) :=
  '(f, r) ← file_WriteRecord (seg_file s) data;
  match r with
  | Err e => mret (mkSegment f (seg_size s), Err (ErrWrap "segment append" e))
  | Ok _ =>
    r ← file_Sync f;
    match r with
    | Err e => mret (mkSegment f (seg_size s), Err (ErrWrap "segment sync" e))
    | Ok _ => mret (mkSegment f (int64 (seg_size s + int64 (4 + len data))), Ok ())
    end
  end.

Definition Segment_Size (s : Segment) : Z := seg_size s.

Definition Segment_Close (s : Segment) : IO (result ()) :=
  r ← file_Close (seg_file s);
  mret match r with Err e => Err (ErrWrap "close segment" e) | Ok _ => Ok () end.

(** The segment after [Close]. *)
Definition closed_segment (s : Segment) : Segment := mkSegment (closed_file (seg_file s)) (seg_size s).

(** The loop of [ReadSegment]; [None] is out of fuel. *)
Fixpoint read_loop (fuel : nat) (r : Reader) (entries : list LogEntry)
    : option (result (list LogEntry)) :=
  match fuel with
  | O => None
  | S fuel =>
    match ReadRecord r with
    | Err e =>
      if bool_decide (e = io_EOF) then Some (Ok entries)
      else Some (Err (ErrWrap "read record from segment" e))
    | Ok (data, r') =>
      match Unmarshal data with
      | None => Some (Err (ErrWrap "unmarshal record from segment" (ErrMsg "proto")))
      | Some pb => read_loop fuel r' (entries ++ [storageProtoToEntry pb])
      end
    end
  end.

(** Every record takes at least four bytes, so this fuel is enough
    ([read_loop_total]). *)
Definition read_entries (r : Reader) : result (list LogEntry) :=
  default (Ok []) (read_loop (S (length (rd_bytes r))) r []).

(** [ReadSegment]. *)
Definition ReadSegment (path : string) : IO (result (list LogEntry)) :=
  r ← os_Open path;
  mret match r with
       | Err e => Err (ErrWrap "open segment" e)
       | Ok rd => read_entries rd
       end.

(** [Manager.ReadSegments]: the loop over paths with the entries read so
    far. A path that does not exist is skipped, any other error ends it. *)
Fixpoint ReadSegments_from (all : list LogEntry) (paths : list string)
    : IO (result (list LogEntry)) :=
  match paths with
  | [] => mret (Ok all)
  | path :: paths' =>
    r ← ReadSegment path;
    match r with
    | Err e =>
      if errors_Is e os_ErrNotExist then ReadSegments_from all paths'
      else mret (Err (ErrWrap "read segments" e))
    | Ok entries => ReadSegments_from (all ++ entries) paths'
    end
  end.

Definition ReadSegments (paths : list string) : IO (result (list LogEntry)) :=
  ReadSegments_from [] paths.

(** A writer that marshals and appends a list of entries, stopping at the first
    error, as the loop of [mergeRun] does. *)
Fixpoint append_all (s : Segment) (es : list LogEntry) : IO (Segment * result ()) :=
  match es with
  | [] => mret (s, Ok ())
  | e :: es' =>
    match marshalLogEntry e with
    | Err err => mret (s, Err err)
    | Ok data =>
      '(s', r) ← Segment_Append s data;
      match r with Err err => mret (s', Err err) | Ok _ => append_all s' es' end
    end
  end.

(** ** Specification: what a segment file holds *)

(** Entries that can be stored: they marshal, within the record limit. *)
Definition storable (e : LogEntry) : Prop :=
  ∃ data, marshalLogEntry e = Ok data ∧ len data ≤ maxRecordSize.

(** The bytes of a list of entries; total on storable ones. *)
Definition record_bytes (e : LogEntry) : list byte :=
  match marshalLogEntry e with Ok data => frame data | Err _ => [] end.
Definition segment_bytes (es : list LogEntry) : list byte := es ≫= record_bytes.

Inductive holds : list byte → list LogEntry → Prop :=
  | holds_nil : holds [] []
  | holds_cons e data bytes es :
      marshalLogEntry e = Ok data → len data ≤ maxRecordSize →
      holds bytes es → holds (frame data ++ bytes) (e :: es).

(** The entries the existing files among [paths] hold, in order. *)
Inductive holds_all (fs : gmap string (list byte)) : list string → list LogEntry → Prop :=
  | holds_all_nil : holds_all fs [] []
  | holds_all_skip p ps es :
      fs !! p = None → holds_all fs ps es → holds_all fs (p :: ps) es
  | holds_all_cons p ps bytes es es' :
      fs !! p = Some bytes → holds bytes es → holds_all fs ps es' →
      holds_all fs (p :: ps) (es ++ es').

(** An open segment in step with its file: the offset and the size are the
    length of the content. *)
Definition seg_at (d : Disk) (s : Segment) (bytes : list byte) : Prop :=
  files d !! f_path (seg_file s) = Some bytes ∧
  f_off (seg_file s) = Some (length bytes) ∧ seg_size s = len bytes.
End segment.

(** ** Lemmas *)

Section segment_lemmas.
Context `{ProtobufLaws}.

Lemma frame_length data : length (frame data) = (4 + length data)%nat.
Proof. unfold frame. by rewrite length_app, put_uint32_length. Qed.

Lemma holds_app b1 b2 es1 es2 :
  holds b1 es1 → holds b2 es2 → holds (b1 ++ b2) (es1 ++ es2).
Proof.
  induction 1 as [|e data b es Hm Hl Hh IH]; intros; [done|].
  rewrite <- app_assoc. constructor; auto.
Qed.

Lemma holds_snoc bytes es e data :
  holds bytes es → marshalLogEntry e = Ok data → len data ≤ maxRecordSize →
  holds (bytes ++ frame data) (es ++ [e]).
Proof.
  intros. apply holds_app; [done|].
  rewrite <- (app_nil_r (frame data)). by repeat constructor.
Qed.

(** The read loop always finishes within its fuel. *)
Lemma read_loop_total fuel r acc :
  (length (rd_bytes r) < fuel)%nat → is_Some (read_loop fuel r acc).
Proof.
  revert r acc. induction fuel as [|fuel IH]; intros r acc Hf; [lia|]. cbn.
  destruct (ReadRecord r) as [[data r']|e] eqn:E; [|case_bool_decide; eauto].
  apply ReadRecord_Ok in E as (? & _ & _).
  case_match; [|eauto]. apply IH. lia.
Qed.

Lemma ReadRecord_eof : ReadRecord (mkReader [] None) = Err io_EOF.
Proof. done. Qed.

Lemma ReadRecord_shrinks data bytes : (length bytes < length (frame data ++ bytes))%nat.
Proof. rewrite length_app, frame_length. lia. Qed.

(** Reading past the records of [es] leaves the loop at what follows them. *)
Lemma read_loop_skip bytes es rest fin fuel acc :
  holds bytes es → (length (bytes ++ rest) < fuel)%nat →
  ∃ fuel', (length rest < fuel')%nat ∧
    read_loop fuel (mkReader (bytes ++ rest) fin) acc
    = read_loop fuel' (mkReader rest fin) (acc ++ es).
Proof.
  intros Hh. revert fuel acc.
  induction Hh as [|e data bytes es Hm Hl Hh IH]; intros fuel acc Hf.
  - exists fuel. by rewrite app_nil_r.
  - rewrite <- app_assoc in Hf |- *. pose proof (ReadRecord_shrinks data (bytes ++ rest)).
    destruct fuel as [|fuel]; [lia|]. cbn [read_loop].
    rewrite ReadRecord_frame by done.
    pose proof (unmarshal_entry e data Hm) as Hu.
    destruct (Unmarshal data) as [pb|]; cbn in Hu; [|done]. simplify_eq.
    destruct (IH fuel (acc ++ [storageProtoToEntry pb]) ltac:(lia)) as (f' & ? & Heq).
    exists f'. split; [done|]. rewrite Heq. by rewrite <- app_assoc.
Qed.

Lemma read_entries_holds bytes es :
  holds bytes es → read_entries (mkReader bytes None) = Ok es.
Proof.
  intros Hh. unfold read_entries.
  destruct (read_loop_skip bytes es [] None (S (length bytes)) [] Hh) as (f' & Hf & Heq).
  { rewrite app_nil_r. lia. }
  rewrite app_nil_r in Heq. cbn [rd_bytes]. rewrite Heq. destruct f'; [cbn in Hf; lia|].
  cbn [read_loop]. rewrite ReadRecord_eof. by rewrite bool_decide_true.
Qed.

(** The content of a well-formed segment is determined by its bytes. *)
Lemma holds_inj bytes es es' : holds bytes es → holds bytes es' → es = es'.
Proof. intros H1%read_entries_holds H2%read_entries_holds. congruence. Qed.

Lemma read_entries_torn bytes es data k :
  holds bytes es → len data ≤ maxRecordSize → (0 < k < length (frame data))%nat →
  ∃ e, read_entries (mkReader (bytes ++ take k (frame data)) None)
       = Err (ErrWrap "read record from segment" e).
Proof.
  intros Hh Hl Hk. unfold read_entries.
  destruct (read_loop_skip bytes es (take k (frame data)) None
    (S (length (bytes ++ take k (frame data)))) [] Hh) as (f' & Hf & Heq); [lia|].
  cbn [rd_bytes]. rewrite Heq. destruct f'; [lia|]. cbn [read_loop].
  destruct (ReadRecord_prefix data k Hl ltac:(lia)) as (e & -> & He).
  rewrite bool_decide_false by (rewrite He; lia). by exists e.
Qed.

Lemma os_Open_done d p bytes :
  no_faults d → files d !! p = Some bytes → os_Open p d = (Ok (mkReader bytes None), d).
Proof. intros Hn Hf. unfold os_Open. io. rewrite Hf. by io. Qed.

Lemma os_Open_missing d p :
  no_faults d → files d !! p = None → os_Open p d = (Err os_ErrNotExist, d).
Proof. intros Hn Hf. unfold os_Open. io. by rewrite Hf. Qed.

Lemma ReadSegment_holds d p bytes es :
  no_faults d → files d !! p = Some bytes → holds bytes es →
  ReadSegment p d = (Ok es, d).
Proof.
  intros Hn Hf Hh. unfold ReadSegment. io. rewrite (os_Open_done d p bytes) by done. cbn [fst snd]. io.
  by rewrite read_entries_holds with (es := es).
Qed.

Lemma ReadSegment_missing d p :
  no_faults d → files d !! p = None →
  ReadSegment p d = (Err (ErrWrap "open segment" os_ErrNotExist), d).
Proof. intros. unfold ReadSegment. io. by rewrite os_Open_missing. Qed.

Lemma ReadSegments_from_holds_all d ps es acc :
  no_faults d → holds_all (files d) ps es →
  ReadSegments_from acc ps d = (Ok (acc ++ es), d).
Proof.
  intros Hn Hh. revert acc.
  induction Hh as [|p ps es Hp Hh IH|p ps bytes es es' Hp Hb Hh IH]; intros acc;
    cbn [ReadSegments_from].
  - by rewrite app_nil_r.
  - io. rewrite ReadSegment_missing by done. cbn [fst snd].
    rewrite errors_Is_wrap, errors_Is_refl, orb_true_r. apply IH.
  - io. rewrite (ReadSegment_holds d p bytes es) by done. cbn [fst snd].
    by rewrite IH, app_assoc.
Qed.

Lemma ReadSegments_holds_all d ps es :
  no_faults d → holds_all (files d) ps es → ReadSegments ps d = (Ok es, d).
Proof. intros. unfold ReadSegments. by rewrite (ReadSegments_from_holds_all d ps es []). Qed.

(** A reader that ends with an I/O error: reading reports it. *)
Lemma ReadRecord_faulty r :
  rd_end r = Some os_ErrIO →
  match ReadRecord r with
  | Ok (_, r') => rd_end r' = Some os_ErrIO
  | Err e => e ≠ io_EOF ∧ errors_Is e os_ErrNotExist = false
  end.
Proof.
  intros Hr. unfold ReadRecord, ReadFull. rewrite Hr. case_decide; [|done].
  cbn [rd_bytes rd_end]. destruct (maxRecordSize <? _); [done|]. by case_decide.
Qed.

Lemma read_loop_faulty fuel r acc res :
  rd_end r = Some os_ErrIO → read_loop fuel r acc = Some res →
  ∃ e, res = Err e ∧ errors_Is e os_ErrNotExist = false.
Proof.
  revert r acc. induction fuel as [|fuel IH]; intros r acc Hr; cbn [read_loop]; [done|].
  pose proof (ReadRecord_faulty r Hr) as Hf. destruct (ReadRecord r) as [[data r']|e].
  - destruct (Unmarshal data) as [pb|]; [|intros [= <-]; by eexists]. by apply IH.
  - destruct Hf as [He Hn]. rewrite bool_decide_false by done. intros [= <-].
    eexists. split; [done|]. rewrite errors_Is_wrap, Hn. done.
Qed.

(** Whatever the system calls do, reading an intact segment gives its entries or
    an error that is not "does not exist". *)
Lemma ReadSegment_faulty d p bytes es :
  files d !! p = Some bytes → holds bytes es →
  ∃ r d', ReadSegment p d = (r, d') ∧ files d' = files d ∧
    (r = Ok es ∨ ∃ e, r = Err e ∧ errors_Is e os_ErrNotExist = false).
Proof.
  intros Hf Hh. unfold ReadSegment, os_Open. io.
  destruct d as [fs [|[|n] sc]]; cbn [syscall sched files fst snd] in *; io; rewrite ?Hf; io.
  - eexists _, _. split; [done|]. split; [done|]. left. by apply read_entries_holds.
  - destruct sc as [|[|n] sc]; cbn [syscall sched files fst snd]; eexists _, _; (split; [done|]);
      (split; [done|]); [left; by apply read_entries_holds..|right].
    unfold read_entries. destruct (read_loop_total (S (length (rd_bytes (mkReader (take n bytes)
      (Some os_ErrIO))))) (mkReader (take n bytes) (Some os_ErrIO)) [] ltac:(lia)) as [res Hres].
    rewrite Hres. by eapply read_loop_faulty in Hres.
  - eexists _, _. split; [done|]. split; [done|]. right. by eexists.
Qed.

Lemma ReadSegments_faulty d ps es acc :
  Forall (λ p, is_Some (files d !! p)) ps → holds_all (files d) ps es →
  ∃ r d', ReadSegments_from acc ps d = (r, d') ∧ files d' = files d ∧
    (r = Ok (acc ++ es) ∨ ∃ e, r = Err e).
Proof.
  intros Hps Hh. revert d Hps Hh acc. revert es. induction ps as [|p ps IH];
    intros es d Hps Hh acc; cbn [ReadSegments_from].
  - inversion Hh; subst. eexists _, _. split; [done|]. rewrite app_nil_r. auto.
  - apply Forall_cons in Hps as [[b Hb] Hps].
    inversion Hh as [|? ? ? Hp|? ? bytes es1 es2 Hp Hb' Hh']; simplify_eq.
    destruct (ReadSegment_faulty d p b es1 Hb Hb') as (r & d1 & Hr & Hfs & Hcase).
    io. rewrite Hr. io. destruct Hcase as [->|(e & -> & ->)].
    + rewrite <- Hfs in Hps, Hh'.
      destruct (IH es2 d1 Hps Hh' (acc ++ es1)) as (r & d' & Hr' & Hfs' & Hcase).
      eexists _, _. split; [done|]. split; [congruence|]. rewrite <- app_assoc in Hcase. auto.
    + eexists _, _. split; [done|]. eauto.
Qed.

Lemma holds_all_app fs ps1 ps2 es1 es2 :
  holds_all fs ps1 es1 → holds_all fs ps2 es2 → holds_all fs (ps1 ++ ps2) (es1 ++ es2).
Proof.
  induction 1 as [|p ps es Hp Hh IH|p ps bytes es es' Hp Hb Hh IH]; intros; cbn.
  - done.
  - apply holds_all_skip; auto.
  - rewrite <- app_assoc. eapply holds_all_cons; eauto.
Qed.

Lemma holds_all_ext fs fs' ps es :
  (∀ p, p ∈ ps → fs' !! p = fs !! p) → holds_all fs ps es → holds_all fs' ps es.
Proof.
  intros Hext Hh. induction Hh as [|p ps es Hp Hh IH|p ps bytes es es' Hp Hb Hh IH].
  - constructor.
  - apply holds_all_skip; [rewrite Hext by set_solver; done|]. apply IH. set_solver.
  - eapply holds_all_cons; [rewrite Hext by set_solver; done|done|]. apply IH. set_solver.
Qed.

Lemma holds_all_inj fs ps es es' : holds_all fs ps es → holds_all fs ps es' → es = es'.
Proof.
  intros Hh. revert es'. induction Hh as [|p ps es Hp Hh IH|p ps bytes es es2 Hp Hb Hh IH];
    intros es' Hh'; inversion Hh'; simplify_eq; auto.
  f_equal; eauto using holds_inj.
Qed.

(** The entries of the last path of a list come last. *)
Lemma holds_all_snoc_inv fs ps p bytes es_p es :
  fs !! p = Some bytes → holds bytes es_p → holds_all fs (ps ++ [p]) es →
  ∃ es1, es = es1 ++ es_p ∧ holds_all fs ps es1.
Proof.
  intros Hp Hh. revert es. induction ps as [|q ps IH]; intros es Hall; cbn in Hall.
  - inversion Hall as [| |? ? b' e1 e2 Hp' Hb' Hn]; simplify_eq.
    inversion Hn; subst. exists []. rewrite app_nil_r. split; [by eapply holds_inj|constructor].
  - inversion Hall as [|? ? ? Hq Hall'|? ? b' e1 e2 Hq Hb' Hall']; simplify_eq;
      destruct (IH _ Hall') as (es1 & -> & Hes1).
    + exists es1. split; [done|]. by apply holds_all_skip.
    + exists (e1 ++ es1). split; [by rewrite app_assoc|]. by eapply holds_all_cons.
Qed.

(** Opening a segment positions it at the end of what the file already holds. *)
Lemma OpenSegment_done d p :
  no_faults d →
  let bytes := default [] (files d !! p) in
  OpenSegment p d =
    (Ok (mkSegment (mkFile p (length bytes)) (len bytes)),
     mkDisk (<[p := bytes]> (files d)) (sched d)).
Proof.
  intros Hn bytes. subst bytes.
  unfold OpenSegment, os_OpenFile. io.
  destruct (files d !! p) as [bytes|] eqn:Hp; io; unfold file_Stat, os_Stat, file_SeekEnd;
    io; rewrite ?Hp, ?lookup_insert_eq; io; rewrite ?Hp, ?lookup_insert_eq; io; [|done].
  rewrite insert_id by done. by destruct d.
Qed.

Lemma file_Write_done d f data bytes :
  no_faults d → files d !! f_path f = Some bytes → f_off f = Some (length bytes) →
  file_Write f data d =
    ((mkFile (f_path f) (length (bytes ++ data)), Ok ()),
     mkDisk (<[f_path f := bytes ++ data]> (files d)) (sched d)).
Proof.
  intros Hn Hf Hp. unfold file_Write. rewrite Hp. io. rewrite Hf. cbn [default].
  unfold id. by rewrite write_at_end, length_app.
Qed.

(** Closing an open segment changes no file. *)
Lemma Segment_Close_done d s pos :
  no_faults d → f_off (seg_file s) = Some pos → Segment_Close s d = (Ok (), d).
Proof. intros Hn Hp. unfold Segment_Close, file_Close, on_open. rewrite Hp. by io. Qed.

(** A fault-free append writes exactly one framed record at the end. *)
Lemma Segment_Append_done d s data bytes :
  no_faults d → seg_at d s bytes → len data ≤ MaxUint32 →
  len (bytes ++ frame data) < 2 ^ 63 →
  ∃ s', Segment_Append s data d =
    ((s', Ok ()), mkDisk (<[f_path (seg_file s) := bytes ++ frame data]> (files d)) (sched d))
    ∧ f_path (seg_file s') = f_path (seg_file s)
    ∧ seg_at (mkDisk (<[f_path (seg_file s) := bytes ++ frame data]> (files d)) (sched d))
        s' (bytes ++ frame data).
Proof.
  intros Hn (Hf & Hp & Hs) Hl Hbig.
  unfold Segment_Append, file_WriteRecord, WriteRecord_chunks.
  rewrite (proj2 (Z.ltb_ge _ _)) by lia. io.
  rewrite (file_Write_done d _ _ bytes) by done. cbn [fst snd]. io.
  rewrite (file_Write_done _ _ _ (bytes ++ put_uint32 (uint32 (len data))))
    by (cbn; rewrite ?lookup_insert_eq; done). cbn [fst snd]. io.
  unfold file_Sync. io.
  rewrite insert_insert_eq, <- app_assoc. fold (frame data).
  assert (uint32 (len data) = len data) as ->
    by (unfold len, MaxUint32 in *; apply uint32_small; lia).
  fold (frame data). eexists. split; [done|]. split; [done|].
  unfold seg_at. cbn. rewrite lookup_insert_eq. split_and!; [done..|].
  unfold len in *. rewrite length_app, frame_length in *. rewrite Hs.
  rewrite (int64_small (4 + _)) by (unfold in_int64; lia).
  rewrite int64_small by (unfold in_int64; lia). cbn [length]. lia.
Qed.

Lemma holds_segment_bytes bytes es :
  holds bytes es ↔ Forall storable es ∧ bytes = segment_bytes es.
Proof.
  split.
  - induction 1 as [|e data bytes es Hm Hl Hh [IH ->]]; [done|]. split.
    + constructor; [by exists data|done].
    + cbn. unfold record_bytes at 1. by rewrite Hm.
  - intros [Hs ->]. induction Hs as [|e es (data & Hm & Hl) _ IH]; [constructor|].
    cbn. unfold record_bytes at 1. rewrite Hm. by constructor.
Qed.

Lemma segment_bytes_cons e es data :
  marshalLogEntry e = Ok data → segment_bytes (e :: es) = frame data ++ segment_bytes es.
Proof. intros Hm. unfold segment_bytes. cbn. unfold record_bytes at 1. by rewrite Hm. Qed.

(** Fault-free appends of storable entries add exactly their records. *)
Lemma append_all_done es d s bytes :
  no_faults d → seg_at d s bytes → Forall storable es →
  len (bytes ++ segment_bytes es) < 2 ^ 63 →
  ∃ s', append_all s es d =
    ((s', Ok ()),
     mkDisk (<[f_path (seg_file s) := bytes ++ segment_bytes es]> (files d)) (sched d))
    ∧ f_path (seg_file s') = f_path (seg_file s).
Proof.
  intros Hn Hat Hs. revert d s bytes Hn Hat.
  induction Hs as [|e es (data & Hm & Hl) Hs IH]; intros d s bytes Hn Hat Hbig.
  - destruct Hat as (Hf & _). exists s. cbn. rewrite app_nil_r, insert_id by done.
    by destruct d.
  - rewrite (segment_bytes_cons e es data Hm), app_assoc in Hbig |- *. cbn [append_all].
    rewrite Hm. destruct (Segment_Append_done d s data bytes) as (s' & Heq & Hp & Hat');
      [done..|unfold maxRecordSize, MaxUint32 in *; lia| |].
    { unfold len in *. rewrite length_app in Hbig. lia. }
    edestruct IH as (s'' & Heq' & Hp'); [|exact Hat'|exact Hbig|]; [exact Hn|].
    exists s''. io. rewrite Heq. cbn [fst snd]. rewrite Heq', Hp. io.
    rewrite insert_insert_eq. split; [done|congruence].
Qed.

(** One write at the end of a file, with the outcome it meets. *)
Lemma file_Write_end fs o os f data bytes :
  fs !! f_path f = Some bytes → f_off f = Some (length bytes) →
  file_Write f data (mkDisk fs (o :: os)) =
    let w := match o with Done => data | Fault n => take n data end in
    ((mkFile (f_path f) (length (bytes ++ w)), match o with Done => Ok () | Fault _ => Err os_ErrIO end),
     mkDisk (<[f_path f := bytes ++ w]> fs) os).
Proof.
  intros Hf Hp. unfold file_Write, syscall. rewrite Hp. io. rewrite Hf. cbn [default]. unfold id.
  destruct o; io; by rewrite write_at_end, length_app.
Qed.

(** An append whose payload write stops after [n] bytes fails and leaves the
    header and those [n] bytes behind. *)
Lemma Segment_Append_torn fs s bytes data n :
  fs !! f_path (seg_file s) = Some bytes →
  f_off (seg_file s) = Some (length bytes) → len data ≤ MaxUint32 →
  ∃ s' e, Segment_Append s data (mkDisk fs [Done; Fault n]) =
    ((s', Err e),
     mkDisk (<[f_path (seg_file s) := bytes ++ take (4 + n) (frame data)]> fs) []).
Proof.
  intros Hf Hp Hl. unfold Segment_Append, file_WriteRecord, WriteRecord_chunks.
  rewrite (proj2 (Z.ltb_ge _ _)) by lia. io.
  assert (uint32 (len data) = len data) as ->
    by (unfold len, MaxUint32 in *; apply uint32_small; lia).
  rewrite (file_Write_end _ _ _ _ _ bytes) by done. io.
  rewrite (file_Write_end _ _ _ _ _ (bytes ++ put_uint32 (len data)))
    by (cbn; rewrite ?lookup_insert_eq; done). io.
  rewrite insert_insert_eq, <- app_assoc. unfold frame.
  rewrite (take_app_ge (put_uint32 _)), put_uint32_length by (rewrite put_uint32_length; lia).
  replace (4 + n - 4)%nat with n by lia. eauto.
Qed.
End segment_lemmas.

(** ** Properties *)

Section segment_properties.
Context `{ProtobufLaws}.

(** Reading a segment returns exactly what was appended to it: open the file at
    [path] (holding the entries [old], or absent), append the entries [es], and
    [ReadSegment] returns [old] followed by [es], in order. *)
Theorem segment_roundtrip (d : Disk) (path : string) (old es : list LogEntry) :
  no_faults d → holds (default [] (files d !! path)) old → Forall storable es →
  len (segment_bytes (old ++ es)) < 2 ^ 63 →
  ∃ s d1 s' d2, OpenSegment path d = (Ok s, d1) ∧ append_all s es d1 = ((s', Ok ()), d2) ∧
    ReadSegment path d2 = (Ok (old ++ es), d2).
Proof.
  intros Hn Hold Hes Hbig. pose proof (OpenSegment_done d path Hn) as Hopen.
  apply holds_segment_bytes in Hold as [Hso Hb]. rewrite Hb in Hopen.
  unfold segment_bytes in Hbig. rewrite bind_app in Hbig.
  set (b := segment_bytes old) in *.
  destruct (append_all_done es (mkDisk (<[path := b]> (files d)) (sched d))
    (mkSegment (mkFile path (length b)) (len b)) b) as (s' & Happ & Hp); [done| |done..|].
  { unfold seg_at. cbn. by rewrite lookup_insert_eq. }
  do 4 eexists. split; [exact Hopen|]. split; [exact Happ|].
  eapply ReadSegment_holds; [exact Hn|apply lookup_insert_eq|].
  apply holds_segment_bytes. split; [by apply Forall_app|].
  unfold segment_bytes. by rewrite bind_app.
Qed.

(** [ReadSegments] concatenates, in order, the entries of the segments that exist
    and skips the paths that do not (a segment removed by compaction after the path
    was resolved); it changes nothing on disk. *)
Theorem ReadSegments_concat (d : Disk) (paths : list string) (es : list LogEntry) :
  no_faults d → holds_all (files d) paths es → ReadSegments paths d = (Ok es, d).
Proof. apply ReadSegments_holds_all. Qed.

(** The read loop terminates on every input: with one unit of fuel more than the
    stream has bytes it returns a result, whatever the bytes are and however the
    stream ends. *)
Theorem read_loop_terminates (r : Reader) (acc : list LogEntry) (fuel : nat) :
  (length (rd_bytes r) < fuel)%nat → ∃ res, read_loop fuel r acc = Some res.
Proof. intros Hf. destruct (read_loop_total fuel r acc Hf) as [res Hres]. by exists res. Qed.

End segment_properties.

(** ** Witnesses *)

Lemma segment_roundtrip_witness :
  let H := bit_codec in
  ∃ s d1 s' d2, OpenSegment "1.seg" (mkDisk ∅ []) = (Ok s, d1) ∧
    append_all s [sample_entry "a" "x" 5] d1 = ((s', Ok ()), d2) ∧
    ReadSegment "1.seg" d2 = (Ok ([] ++ [sample_entry "a" "x" 5]), d2).
Proof.
  intros H. apply (@segment_roundtrip bit_codec bit_codec_laws).
  - done.
  - constructor.
  - repeat constructor. eexists. split; [reflexivity|]. vm_compute. discriminate.
  - vm_compute. reflexivity.
Defined.

Lemma ReadSegments_concat_witness :
  let H := bit_codec in
  let fs := {["2.seg" := segment_bytes [sample_entry "a" "x" 5]]} in
  ReadSegments ["1.seg"; "2.seg"] (mkDisk fs []) = (Ok ([sample_entry "a" "x" 5] ++ []), mkDisk fs []).
Proof.
  intros H fs. apply (@ReadSegments_concat bit_codec bit_codec_laws).
  - done.
  - apply holds_all_skip; [done|]. eapply holds_all_cons; [reflexivity| |constructor].
    apply holds_segment_bytes. split; [|done].
    repeat constructor. eexists. split; [reflexivity|]. vm_compute. discriminate.
Defined.

Lemma read_loop_terminates_witness :
  ∃ res, @read_loop bit_codec 3 (mkReader [x00; x01] None) [] = Some res.
Proof. apply (@read_loop_terminates bit_codec). cbn. lia. Defined.

