(* ===== verification/Ranking.v ===== *)
(** * Deduplication, ordering and paging of entries

    [LocalExecutor.Execute] and [MergeResults] both deduplicate by ID, sort by
    timestamp (newest first) with the ID as tie-breaker, and cut a page out.
    The shared pieces and their theory are here: the sort has one possible
    outcome, and the page of a merged result can be computed from the first
    [offset+limit] entries of each part. *)

From S2P Require Import Prelude Types.

(** The [less] closure given to [sort.Slice]. *)
Definition entry_less (a b : LogEntry) : bool :=
  if negb (Timestamp a =? Timestamp b) then Timestamp b <? Timestamp a
  else String.ltb (ID a) (ID b).

(** [sort.Slice] puts [a] before [b] only if [b] is not less than [a]. *)
Definition entry_le (a b : LogEntry) : Prop := entry_less b a = false.

#[global] Instance entry_le_dec : RelDecision entry_le.
Proof. intros a b. unfold entry_le. apply _. Defined.

(** [sort.Slice(entries, less)]. The Go sort is not stable, so this is one of
    the results it may give; on lists without repeated IDs there is only one
    ([sort_entries_unique]). *)
Definition sort_entries : list LogEntry → list LogEntry := merge_sort entry_le.

(** The loop over [seen]: keeps the first entry of each ID. *)
Fixpoint dedup_from (seen : gset string) (l : list LogEntry) : list LogEntry :=
  match l with
  | [] => []
  | e :: l' =>
    if decide (ID e ∈ seen) then dedup_from seen l'
    else e :: dedup_from ({[ID e]} ∪ seen) l'
  end.

Definition dedup : list LogEntry → list LogEntry := dedup_from ∅.

(** Entries with the same ID are the same entry. *)
Definition id_consistent (l : list LogEntry) : Prop :=
  ∀ a b, a ∈ l → b ∈ l → ID a = ID b → a = b.

(** ** Lemmas: the order *)

Lemma entry_le_alt a b :
  entry_le a b ↔ Timestamp b < Timestamp a ∨
    (Timestamp a = Timestamp b ∧ String.le (ID a) (ID b)).
Proof.
  unfold entry_le, entry_less, String.le, String.ltb, String.leb.
  rewrite (String.compare_antisym (ID b) (ID a)).
  destruct (Z.eqb_spec (Timestamp b) (Timestamp a)) as [E|E]; cbn.
  - destruct (String.compare (ID a) (ID b)); cbn;
      (split; [intros ?; first [done | right; split; [lia|done]]
              |intros [?|[_ ?]]; first [lia | done]]).
  - rewrite Z.ltb_ge. split; [lia|]. intros [?|[? _]]; lia.
Qed.

#[global] Instance entry_le_trans : Transitive entry_le.
Proof.
  intros a b c. rewrite !entry_le_alt. intros [?|[? ?]] [?|[? ?]]; [left; lia..|].
  right. split; [lia|]. by etrans.
Qed.

#[global] Instance entry_le_total : base.Total entry_le.
Proof.
  intros a b. rewrite !entry_le_alt.
  destruct (Z.lt_total (Timestamp a) (Timestamp b)) as [?|[E|?]]; [right; by left| |left; by left].
  destruct (total String.le (ID a) (ID b)); [left|right]; right; auto.
Qed.

Lemma entry_le_antisym a b : entry_le a b → entry_le b a → ID a = ID b.
Proof.
  rewrite !entry_le_alt. intros [?|[? ?]] [?|[? ?]]; try lia.
  by apply (anti_symm String.le).
Qed.

Lemma sort_entries_perm l : sort_entries l ≡ₚ l.
Proof. apply merge_sort_Permutation. Qed.

Lemma sort_entries_sorted l : StronglySorted entry_le (sort_entries l).
Proof. apply (StronglySorted_merge_sort _). Qed.

(** A sorted permutation of entries with distinct IDs is the sort: the
    instability of [sort.Slice] cannot be observed. *)
Lemma sort_entries_unique l l' :
  NoDup (ID <$> l) → l' ≡ₚ l → StronglySorted entry_le l' → l' = sort_entries l.
Proof.
  intros Hnd Hp Hs. apply (StronglySorted_unique_strong entry_le); [|done|apply sort_entries_sorted|].
  - intros a b Ha Hb Hab Hba. pose proof (entry_le_antisym a b Hab Hba) as Hid.
    rewrite Hp in Ha. rewrite sort_entries_perm in Hb.
    apply list_elem_of_lookup in Ha as [i Hi]. apply list_elem_of_lookup in Hb as [j Hj].
    assert (i = j) as ->; [|congruence].
    eapply NoDup_lookup; [exact Hnd| |]; rewrite list_lookup_fmap.
    + by rewrite Hi.
    + rewrite Hj. cbn. by rewrite Hid.
  - by rewrite Hp, sort_entries_perm.
Qed.

(** ** Lemmas: deduplication *)

Lemma dedup_from_elem seen l e : e ∈ dedup_from seen l → e ∈ l ∧ ID e ∉ seen.
Proof.
  revert seen. induction l as [|a l IH]; intros seen; cbn; [set_solver|].
  case_decide as Hd.
  - intros [? ?]%IH. set_solver.
  - intros [->|[? ?]%IH]%elem_of_cons; set_solver.
Qed.

Lemma dedup_from_complete seen l e :
  e ∈ l → ID e ∉ seen → ∃ e', e' ∈ dedup_from seen l ∧ ID e' = ID e.
Proof.
  revert seen. induction l as [|a l IH]; intros seen Hin Hs; [set_solver|]. cbn.
  apply elem_of_cons in Hin. case_decide as Hd.
  - destruct Hin as [->|Hin]; [done|]. by apply IH.
  - destruct (decide (ID e = ID a)) as [E|E].
    + exists a. split; [set_solver|done].
    + destruct Hin as [->|Hin]; [done|].
      destruct (IH ({[ID a]} ∪ seen) Hin) as (e' & ? & ?); [set_solver|].
      exists e'. split; [set_solver|done].
Qed.

Lemma dedup_from_NoDup seen l : NoDup (ID <$> dedup_from seen l).
Proof.
  revert seen. induction l as [|a l IH]; intros seen; cbn; [constructor|].
  case_decide; [done|]. cbn. constructor; [|done].
  intros (e & Hid & He)%list_elem_of_fmap. apply dedup_from_elem in He as [_ He]. set_solver.
Qed.

Lemma dedup_NoDup l : NoDup (ID <$> dedup l).
Proof. apply dedup_from_NoDup. Qed.

Lemma dedup_elem l e : id_consistent l → e ∈ dedup l ↔ e ∈ l.
Proof.
  intros Hc. split; [by intros [? _]%dedup_from_elem|]. intros He.
  destruct (dedup_from_complete ∅ l e He ltac:(set_solver)) as (e' & He' & Hid).
  assert (e' = e) as <-; [|done]. apply Hc; [|done..].
  by apply dedup_from_elem in He' as [? _].
Qed.

Lemma NoDup_ID_entries l : NoDup (ID <$> l) → NoDup l.
Proof. apply NoDup_fmap_1. Qed.

(** Two consistent lists with the same entries rank the same. *)
Lemma ranked_ext l1 l2 :
  id_consistent l1 → id_consistent l2 → (∀ e, e ∈ l1 ↔ e ∈ l2) →
  sort_entries (dedup l1) = sort_entries (dedup l2).
Proof.
  intros H1 H2 Heq. symmetry. apply sort_entries_unique.
  - apply dedup_NoDup.
  - rewrite sort_entries_perm. apply NoDup_Permutation;
      [apply NoDup_ID_entries, dedup_NoDup..|].
    intros e. by rewrite !dedup_elem, Heq by done.
  - apply sort_entries_sorted.
Qed.

(** ** Lemmas: pages of merged results *)

(** The ranking of a subset is the ranking of the whole, filtered. *)
Lemma ranked_filter l sub :
  id_consistent l → (∀ e, e ∈ sub → e ∈ l) →
  sort_entries (dedup sub) = filter (.∈ sub) (sort_entries (dedup l)).
Proof.
  intros Hc Hsub.
  assert (id_consistent sub) as Hc' by (intros a b ???; apply Hc; auto).
  symmetry. apply sort_entries_unique.
  - apply dedup_NoDup.
  - apply NoDup_Permutation.
    + apply NoDup_filter. rewrite sort_entries_perm. apply NoDup_ID_entries, dedup_NoDup.
    + apply NoDup_ID_entries, dedup_NoDup.
    + intros e. rewrite list_elem_of_filter, sort_entries_perm, !dedup_elem by done. naive_solver.
  - apply StronglySorted_filter, sort_entries_sorted.
Qed.

Lemma take_filter_all {A} (P : A → Prop) `{∀ x, Decision (P x)} (l : list A) (k : nat) :
  Forall P (take k l) → take k (filter P l) = take k l.
Proof.
  intros HP. rewrite <- (take_drop k l) at 1. rewrite filter_app.
  assert (filter P (take k l) = take k l) as ->.
  { induction HP as [|x l' Hx _ IH]; [done|]. rewrite filter_cons, decide_True by done. by f_equal. }
  rewrite take_app, take_take, length_take.
  replace (k `min` k)%nat with k by lia.
  destruct (decide (length l ≤ k)%nat).
  - rewrite (drop_ge l) by done. cbn. by rewrite take_nil, app_nil_r.
  - replace (k - k `min` length l)%nat with 0%nat by lia. by rewrite take_0, app_nil_r.
Qed.

Lemma elem_of_take_filter {A} (P : A → Prop) `{∀ x, Decision (P x)} (l : list A) (k : nat) x :
  x ∈ take k l → P x → x ∈ take k (filter P l).
Proof.
  intros Hx HP. revert k Hx. induction l as [|y l IH]; intros [|k] Hx; cbn in Hx; try set_solver.
  rewrite filter_cons. apply elem_of_cons in Hx. case_decide as Hy; cbn.
  - apply elem_of_cons. destruct Hx as [->|Hx]; [by left|]. right. by apply IH.
  - destruct Hx as [->|Hx]; [done|]. apply IH in Hx.
    apply list_elem_of_lookup in Hx as [i Hi]. apply lookup_take_Some in Hi as [Hi Hk].
    apply list_elem_of_lookup. exists i. apply lookup_take_Some. split; [done|lia].
Qed.

(** Ranking only the first [k] of every part loses nothing among the first [k]
    of the whole. *)
Lemma ranked_topk (parts : list (list LogEntry)) (k : nat) :
  id_consistent (mjoin parts) →
  take k (sort_entries (dedup (mjoin ((λ p, take k (sort_entries (dedup p))) <$> parts))))
  = take k (sort_entries (dedup (mjoin parts))).
Proof.
  intros Hc. set (S := sort_entries (dedup (mjoin parts))).
  set (sub := mjoin ((λ p, take k (sort_entries (dedup p))) <$> parts)).
  assert (∀ p, p ∈ parts → ∀ e, e ∈ p → e ∈ mjoin parts) as Hp.
  { intros p Hin e He. apply list_elem_of_join. eauto. }
  assert (∀ p, p ∈ parts → sort_entries (dedup p) = filter (.∈ p) S) as Hpart.
  { intros p Hin. apply ranked_filter; [done|]. by apply Hp. }
  rewrite (ranked_filter (mjoin parts) sub Hc).
  - apply take_filter_all, Forall_forall. intros e He. fold S in He.
    assert (e ∈ mjoin parts) as (p & Hep & Hin)%list_elem_of_join.
    { apply (dedup_elem _ _ Hc). rewrite <- sort_entries_perm.
      fold S. eapply elem_of_subseteq; [|exact He].
      intros x Hx. apply list_elem_of_lookup in Hx as [i Hi].
      apply lookup_take_Some in Hi as [Hi _]. by eapply list_elem_of_lookup_2. }
    apply list_elem_of_join. exists (take k (sort_entries (dedup p))). split.
    + rewrite Hpart by done. by apply elem_of_take_filter.
    + apply list_elem_of_fmap. eauto.
  - intros e (q & He & (p & -> & Hin)%list_elem_of_fmap)%list_elem_of_join.
    apply (Hp p Hin). apply list_elem_of_lookup in He as [i Hi].
    apply lookup_take_Some in Hi as [Hi _]. apply list_elem_of_lookup_2 in Hi.
    rewrite sort_entries_perm in Hi. by apply dedup_from_elem in Hi as [? _].
Qed.
