(* ===== verification/Index.v ===== *)
(** * The in-memory inverted index ([internal/index/index.go])

    The index maps message tokens, services and namespaces to the segment
    paths that contain them and keeps per-segment time bounds. Its contract is
    [Represents idx l]: the index describes the entries [l], each with the path
    of its segment. The operations refine operations on that list, and an index
    is determined by the set of indexed pairs, so any history of updates ends
    in the index a rebuild would produce. *)

From S2P Require Import Prelude GoStrings Types Record Disk Segment.

Section index.
Context `{GoUnicode}.

Record SegmentMeta := mkSegmentMeta { MinTime : Z; MaxTime : Z }.

(** Token, service and namespace postings, and the time bounds. *)
Record Index := mkIndex {
  tokenSegments : gmap string (gset string);
  serviceSegments : gmap string (gset string);
  namespaceSegments : gmap string (gset string);
  segmentMeta : gmap string SegmentMeta;
}.

Definition NewIndex : Index := mkIndex ∅ ∅ ∅ ∅.

(** [index.tokenize]. *)
Definition tokenize (s : string) : list string := nonempty_pieces (ToLower s).

(** [m[k][path] = struct{}{}], with the inner map created when nil. *)
Definition post (k path : string) (m : gmap string (gset string)) : gmap string (gset string) :=
  <[k := {[path]} ∪ default ∅ (m !! k)]> m.

Definition update_meta (ts : Z) (m : option SegmentMeta) : SegmentMeta :=
  match m with
  | None => mkSegmentMeta ts ts
  | Some meta =>
    mkSegmentMeta (if ts <? MinTime meta then ts else MinTime meta)
                  (if MaxTime meta <? ts then ts else MaxTime meta)
  end.

Definition Add (entry : LogEntry) (segmentPath : string) (idx : Index) : Index :=
  {| tokenSegments :=
       foldl (λ m tok, post tok segmentPath m) (tokenSegments idx) (tokenize (Message entry));
     serviceSegments :=
       if bool_decide (Service entry = "") then serviceSegments idx
       else post (Service entry) segmentPath (serviceSegments idx);
     namespaceSegments := post (Namespace entry) segmentPath (namespaceSegments idx);
     segmentMeta :=
       <[segmentPath := update_meta (Timestamp entry) (segmentMeta idx !! segmentPath)]>
         (segmentMeta idx) |}.

(** The token loop of [Resolve]: [None] is its [return nil]. *)
Fixpoint intersect_tokens (m : gmap string (gset string)) (tokens : list string)
    (candidates : gset string) : option (gset string) :=
  match tokens with
  | [] => Some candidates
  | tok :: tokens' =>
    match m !! tok with
    | None => None
    | Some segs =>
      let candidates' := candidates ∩ segs in
      if bool_decide (candidates' = ∅) then None
      else intersect_tokens m tokens' candidates'
    end
  end.

(** The namespace and service steps: an empty key is ignored. *)
Definition intersect_key (m : gmap string (gset string)) (key : string)
    (candidates : gset string) : option (gset string) :=
  if bool_decide (key = "") then Some candidates
  else match m !! key with
       | None => None
       | Some segs => Some (candidates ∩ segs)
       end.

(** Whether the time bounds keep a segment. *)
Definition in_time (startTime endTime : Z) (meta : SegmentMeta) : bool :=
  negb ((0 <? startTime) && (MaxTime meta <? startTime))
  && negb ((0 <? endTime) && (endTime <? MinTime meta)).

Definition prune_time (idx : Index) (startTime endTime : Z) (candidates : gset string)
    : gset string :=
  filter (λ p, in_time startTime endTime
                 (default (mkSegmentMeta 0 0) (segmentMeta idx !! p)) = true) candidates.

Definition Resolve (idx : Index) (tokens : list string) (namespace service : string)
    (startTime endTime : Z) : list string :=
  let candidates := dom (segmentMeta idx) in
  match (c ← intersect_tokens (tokenSegments idx) tokens candidates;
         c ← intersect_key (namespaceSegments idx) namespace c;
         intersect_key (serviceSegments idx) service c) with
  | None => []
  | Some c => merge_sort String.le (elements (prune_time idx startTime endTime c))
  end.

Definition TokenCount (idx : Index) : nat := size (tokenSegments idx).

(** [delete(segs, path)] in every posting; postings left empty are dropped. *)
Definition unpost (path : string) (m : gmap string (gset string)) : gmap string (gset string) :=
  omap (λ segs, let segs' := segs ∖ {[path]} in
                if decide (segs' = ∅) then None else Some segs') m.

Definition RemoveSegment (path : string) (idx : Index) : Index :=
  {| tokenSegments := unpost path (tokenSegments idx);
     serviceSegments := unpost path (serviceSegments idx);
     namespaceSegments := unpost path (namespaceSegments idx);
     segmentMeta := delete path (segmentMeta idx) |}.

(** Adding all the entries of one segment. *)
Definition add_entries (path : string) (entries : list LogEntry) (idx : Index) : Index :=
  foldl (λ idx e, Add e path idx) idx entries.

(** [RebuildFromSegments], with the index it leaves behind also on error. *)
Fixpoint RebuildFromSegments (idx : Index) (paths : list string)
    (readFn : string → IO (result (list LogEntry))) : IO (Index * result ()) :=
  match paths with
  | [] => mret (idx, Ok ())
  | path :: paths' =>
    r ← readFn path;
    match r with
    | Err e => mret (idx, Err (ErrWrap "rebuild index from segment" e))
    | Ok entries => RebuildFromSegments (add_entries path entries idx) paths' readFn
    end
  end.

(** ** Specification *)

(** The pairs of a list of segments and their entries. *)
Definition tagged (path : string) (es : list LogEntry) : list (LogEntry * string) :=
  (λ e, (e, path)) <$> es.

(** A posting map lists, for each key, the segments of the entries that have
    it, and no empty set. *)
Definition posts (m : gmap string (gset string)) (has : LogEntry → string → Prop)
    (l : list (LogEntry * string)) : Prop :=
  (∀ k p, p ∈ default ∅ (m !! k) ↔ ∃ e, (e, p) ∈ l ∧ has e k) ∧
  (∀ k, m !! k ≠ Some ∅).

Definition bounds (meta : gmap string SegmentMeta) (l : list (LogEntry * string)) : Prop :=
  ∀ p, match meta !! p with
       | None => ∀ e, (e, p) ∉ l
       | Some mt =>
         (∃ e, (e, p) ∈ l ∧ Timestamp e = MinTime mt) ∧
         (∃ e, (e, p) ∈ l ∧ Timestamp e = MaxTime mt) ∧
         ∀ e, (e, p) ∈ l → MinTime mt ≤ Timestamp e ≤ MaxTime mt
       end.

Definition has_token (e : LogEntry) (tok : string) : Prop := tok ∈ tokenize (Message e).
Definition has_service (e : LogEntry) (s : string) : Prop := Service e = s ∧ s ≠ "".
Definition has_namespace (e : LogEntry) (n : string) : Prop := Namespace e = n.

Record Represents (idx : Index) (l : list (LogEntry * string)) : Prop := {
  rep_tokens : posts (tokenSegments idx) has_token l;
  rep_services : posts (serviceSegments idx) has_service l;
  rep_namespaces : posts (namespaceSegments idx) has_namespace l;
  rep_meta : bounds (segmentMeta idx) l;
}.
(** The segments of [l] that can hold a match, by keys and time. *)
Definition may_hold (l : list (LogEntry * string)) (tokens : list string) (namespace service : string)
    (startTime endTime : Z) (p : string) : Prop :=
  (∃ e, (e, p) ∈ l) ∧
  (∀ tok, tok ∈ tokens → ∃ e, (e, p) ∈ l ∧ has_token e tok) ∧
  (namespace ≠ "" → ∃ e, (e, p) ∈ l ∧ Namespace e = namespace) ∧
  (service ≠ "" → ∃ e, (e, p) ∈ l ∧ Service e = service) ∧
  (0 < startTime → ∃ e, (e, p) ∈ l ∧ startTime ≤ Timestamp e) ∧
  (0 < endTime → ∃ e, (e, p) ∈ l ∧ Timestamp e ≤ endTime).

(** Histories of index updates, and the pairs they leave indexed. *)
Inductive index_op :=
  | OpAdd (entry : LogEntry) (path : string)
  | OpRemove (path : string).

Definition run_op (idx : Index) (o : index_op) : Index :=
  match o with OpAdd e p => Add e p idx | OpRemove p => RemoveSegment p idx end.

Definition spec_op (l : list (LogEntry * string)) (o : index_op) : list (LogEntry * string) :=
  match o with OpAdd e p => l ++ [(e, p)] | OpRemove p => filter (λ x, x.2 ≠ p) l end.

Definition run_ops (ops : list index_op) : Index := foldl run_op NewIndex ops.
Definition spec_ops (ops : list index_op) : list (LogEntry * string) := foldl spec_op [] ops.

(** The index built by adding pairs one by one. *)
Definition index_of (l : list (LogEntry * string)) : Index :=
  foldl (λ idx x, Add x.1 x.2 idx) NewIndex l.
End index.

(** ** Lemmas: postings *)

Section index_lemmas.
Context `{GoUnicode}.
Implicit Types (l : list (LogEntry * string)) (m : gmap string (gset string)).

Lemma elem_of_post k p m k' q :
  q ∈ default ∅ (post k p m !! k') ↔ (k' = k ∧ q = p) ∨ q ∈ default ∅ (m !! k').
Proof.
  unfold post. destruct (decide (k = k')) as [->|Hne].
  - rewrite lookup_insert_eq. cbn. unfold id. set_solver.
  - rewrite lookup_insert_ne by done. naive_solver.
Qed.

Lemma post_nonempty k p m : (∀ k', m !! k' ≠ Some ∅) → ∀ k', post k p m !! k' ≠ Some ∅.
Proof.
  intros Hm k'. unfold post. destruct (decide (k = k')) as [->|Hne].
  - rewrite lookup_insert_eq. intros [= Heq]. set_solver.
  - by rewrite lookup_insert_ne.
Qed.

Lemma elem_of_post_all toks p m k' q :
  q ∈ default ∅ (foldl (λ m tok, post tok p m) m toks !! k')
  ↔ (k' ∈ toks ∧ q = p) ∨ q ∈ default ∅ (m !! k').
Proof.
  revert m. induction toks as [|t toks IH]; intros m; cbn; [set_solver|].
  rewrite IH, elem_of_post, elem_of_cons. naive_solver.
Qed.

Lemma post_all_nonempty toks p m :
  (∀ k', m !! k' ≠ Some ∅) → ∀ k', foldl (λ m tok, post tok p m) m toks !! k' ≠ Some ∅.
Proof.
  revert m. induction toks as [|t toks IH]; intros m Hm; cbn; [done|].
  apply IH. by apply post_nonempty.
Qed.

Lemma elem_of_unpost p m k q :
  q ∈ default ∅ (unpost p m !! k) ↔ q ∈ default ∅ (m !! k) ∧ q ≠ p.
Proof.
  unfold unpost. rewrite lookup_omap. destruct (m !! k) as [s|]; cbn; [|set_solver].
  case_decide as E; cbn; unfold id; set_solver.
Qed.

Lemma unpost_nonempty p m k : unpost p m !! k ≠ Some ∅.
Proof.
  unfold unpost. rewrite lookup_omap. destruct (m !! k) as [s|]; cbn; [|done].
  case_decide; congruence.
Qed.

Lemma posts_ext m has l l' :
  (∀ x, x ∈ l ↔ x ∈ l') → posts m has l → posts m has l'.
Proof. intros Hl [H1 H2]. split; [|done]. intros k p. rewrite H1. by setoid_rewrite Hl. Qed.

Lemma bounds_ext meta l l' : (∀ x, x ∈ l ↔ x ∈ l') → bounds meta l → bounds meta l'.
Proof.
  intros Hl Hb p. specialize (Hb p). destruct (meta !! p); [|intros e; rewrite <- Hl; apply Hb].
  setoid_rewrite <- Hl. done.
Qed.

Lemma Represents_ext idx l l' :
  (∀ x, x ∈ l ↔ x ∈ l') → Represents idx l → Represents idx l'.
Proof. intros Hl []. split; eauto using posts_ext, bounds_ext. Qed.

(** A posting map is determined by the pairs it describes. *)
Lemma posts_unique m m' has l : posts m has l → posts m' has l → m = m'.
Proof.
  intros [H1 N1] [H2 N2]. apply map_eq. intros k.
  assert (∀ q, q ∈ default ∅ (m !! k) ↔ q ∈ default ∅ (m' !! k)) as Hk
    by (intros q; by rewrite H1, H2).
  specialize (N1 k). specialize (N2 k).
  destruct (m !! k) as [s|], (m' !! k) as [s'|]; cbn in Hk; unfold id in Hk; try done.
  - f_equal. by apply set_eq.
  - exfalso. apply N1. f_equal. apply set_eq. set_solver.
  - exfalso. apply N2. f_equal. apply set_eq. set_solver.
Qed.

Lemma bounds_unique meta meta' l : bounds meta l → bounds meta' l → meta = meta'.
Proof.
  intros H1 H2. apply map_eq. intros p. specialize (H1 p). specialize (H2 p).
  destruct (meta !! p) as [[a b]|], (meta' !! p) as [[a' b']|];
    cbn in *; [|naive_solver..|done].
  destruct H1 as ((e1 & Hin1 & <-) & (e2 & Hin2 & <-) & Hb).
  destruct H2 as ((e3 & Hin3 & <-) & (e4 & Hin4 & <-) & Hb').
  pose proof (Hb _ Hin3). pose proof (Hb _ Hin4).
  pose proof (Hb' _ Hin1). pose proof (Hb' _ Hin2). do 2 f_equal; lia.
Qed.

Lemma Represents_unique idx idx' l : Represents idx l → Represents idx' l → idx = idx'.
Proof.
  intros [] []. destruct idx, idx'; f_equal; eauto using posts_unique, bounds_unique.
Qed.

(** ** Lemmas: the operations refine the list of indexed pairs *)

Lemma NewIndex_represents : Represents NewIndex [].
Proof.
  split; cbn; repeat split; intros; rewrite ?lookup_empty; cbn; try set_solver.
  intros p. rewrite lookup_empty. set_solver.
Qed.

Lemma bounds_add meta l e p :
  bounds meta l →
  bounds (<[p := update_meta (Timestamp e) (meta !! p)]> meta) (l ++ [(e, p)]).
Proof.
  intros Hb q. specialize (Hb q). destruct (decide (p = q)) as [->|Hne].
  - rewrite lookup_insert_eq. destruct (meta !! q) as [[a b]|]; cbn in *.
    + destruct Hb as ((e1 & Hin1 & <-) & (e2 & Hin2 & <-) & Hb).
      pose proof (Hb _ Hin1). pose proof (Hb _ Hin2).
      destruct (Z.ltb_spec (Timestamp e) (Timestamp e1)),
        (Z.ltb_spec (Timestamp e2) (Timestamp e)); try lia;
      (split_and!; [|..|intros e' [?%Hb|[= ->]%list_elem_of_singleton]%elem_of_app; lia]);
      first [exists e1; set_solver | exists e2; set_solver | exists e; set_solver].
    + split_and!; [exists e; set_solver..|].
      intros e' [?%Hb|[= ->]%list_elem_of_singleton]%elem_of_app; [done|lia].
  - rewrite lookup_insert_ne by done.
    assert (∀ e', (e', q) ∈ l ++ [(e, p)] ↔ (e', q) ∈ l) as Hl by set_solver.
    destruct (meta !! q); [|by intros; rewrite Hl]. by setoid_rewrite Hl.
Qed.

Lemma Add_represents idx l e p : Represents idx l → Represents (Add e p idx) (l ++ [(e, p)]).
Proof.
  intros [[Ht Nt] [Hs Ns] [Hn Nn] Hm]. split; cbn.
  - split; [|by apply post_all_nonempty]. intros k q. rewrite elem_of_post_all, Ht.
    unfold has_token. set_solver.
  - case_bool_decide as Es; [split; [|done]|split; [|by apply post_nonempty]]; intros k q.
    + rewrite Hs. unfold has_service. split; [set_solver|].
      intros (e' & [?|[= -> ->]%list_elem_of_singleton]%elem_of_app & ? & ?); [eauto|congruence].
    + rewrite elem_of_post, Hs. unfold has_service. set_solver.
  - split; [|by apply post_nonempty]. intros k q. rewrite elem_of_post, Hn.
    unfold has_namespace. set_solver.
  - by apply bounds_add.
Qed.

Lemma add_entries_represents idx l p es :
  Represents idx l → Represents (add_entries p es idx) (l ++ tagged p es).
Proof.
  unfold add_entries, tagged. revert idx l. induction es as [|e es IH]; intros idx l Hr; cbn.
  - by rewrite app_nil_r.
  - rewrite cons_middle, app_assoc. apply IH. by apply Add_represents.
Qed.

Lemma posts_remove m has l p :
  posts m has l → posts (unpost p m) has (filter (λ x, x.2 ≠ p) l).
Proof.
  intros [H1 H2]. split; [|intros k; apply unpost_nonempty].
  intros k q. rewrite elem_of_unpost, H1. setoid_rewrite list_elem_of_filter. naive_solver.
Qed.

Lemma RemoveSegment_represents idx l p :
  Represents idx l → Represents (RemoveSegment p idx) (filter (λ x, x.2 ≠ p) l).
Proof.
  intros [Ht Hs Hn Hm]. split; cbn; [by apply posts_remove..|]. intros q. specialize (Hm q).
  destruct (decide (p = q)) as [->|Hne].
  - rewrite lookup_delete_eq. intros e [? _]%list_elem_of_filter. done.
  - rewrite lookup_delete_ne by done.
    assert (∀ e, (e, q) ∈ filter (λ x : LogEntry * string, x.2 ≠ p) l ↔ (e, q) ∈ l) as Hl.
    { intros e. rewrite list_elem_of_filter. cbn. naive_solver. }
    destruct (segmentMeta idx !! q); [|by intros; rewrite Hl]. by setoid_rewrite Hl.
Qed.

(** ** Lemmas: resolution *)

Lemma intersect_tokens_spec m tokens c p :
  p ∈ default ∅ (intersect_tokens m tokens c)
  ↔ p ∈ c ∧ ∀ tok, tok ∈ tokens → p ∈ default ∅ (m !! tok).
Proof.
  revert c. induction tokens as [|t toks IH]; intros c; cbn; [set_solver|].
  destruct (m !! t) as [s|] eqn:Ht.
  - case_bool_decide as E; [|rewrite IH].
    + split; [set_solver|]. intros [Hc Hall]. specialize (Hall t ltac:(set_solver)).
      rewrite Ht in Hall. cbn in Hall. unfold id in Hall. set_solver.
    + split; [intros [Hc Hall]; split; [set_solver|]; intros tok [->|?]%elem_of_cons|].
      * rewrite Ht. cbn. set_solver.
      * by apply Hall.
      * intros [Hc Hall]. split; [|set_solver].
        specialize (Hall t ltac:(set_solver)). rewrite Ht in Hall. cbn in Hall. set_solver.
  - split; [set_solver|]. intros [_ Hall]. specialize (Hall t ltac:(set_solver)).
    rewrite Ht in Hall. set_solver.
Qed.

Lemma intersect_key_spec m key c p :
  p ∈ default ∅ (intersect_key m key c)
  ↔ p ∈ c ∧ (key ≠ "" → p ∈ default ∅ (m !! key)).
Proof.
  unfold intersect_key. case_bool_decide; cbn; [naive_solver|].
  destruct (m !! key) as [s|]; cbn; unfold id; set_solver.
Qed.

Lemma in_time_spec st en mt :
  in_time st en mt = true ↔ (0 < st → st ≤ MaxTime mt) ∧ (0 < en → MinTime mt ≤ en).
Proof. unfold in_time. lia. Qed.

Lemma prune_time_spec idx l st en c p :
  Represents idx l →
  p ∈ c ∩ dom (segmentMeta idx) →
  p ∈ prune_time idx st en c ↔
    (0 < st → ∃ e, (e, p) ∈ l ∧ st ≤ Timestamp e) ∧
    (0 < en → ∃ e, (e, p) ∈ l ∧ Timestamp e ≤ en).
Proof.
  intros [_ _ _ Hm] [Hc Hd]%elem_of_intersection. apply elem_of_dom in Hd as [mt Hmt].
  unfold prune_time. rewrite elem_of_filter, Hmt. cbn. unfold id. rewrite in_time_spec.
  specialize (Hm p). rewrite Hmt in Hm.
  destruct Hm as ((e1 & Hin1 & <-) & (e2 & Hin2 & <-) & Hb).
  split; [intros [[? ?] _]; split; eauto|].
  intros [Hs He]. split; [|done]. split; intros Hpos.
  - destruct (Hs Hpos) as (e & ?%Hb & ?). lia.
  - destruct (He Hpos) as (e & ?%Hb & ?). lia.
Qed.

Lemma default_bind {A} (o : option A) (f : A → option (gset string)) (q : string) :
  q ∈ default ∅ (o ≫= f) ↔ ∃ a, o = Some a ∧ q ∈ default ∅ (f a).
Proof. destruct o; cbn; set_solver. Qed.

Lemma Resolve_elem idx l tokens ns svc st en p :
  Represents idx l →
  p ∈ Resolve idx tokens ns svc st en ↔ may_hold l tokens ns svc st en p.
Proof.
  intros Hr. pose proof Hr as [[Ht _] [Hs _] [Hn _] Hm]. unfold Resolve, may_hold.
  assert (p ∈ dom (segmentMeta idx) ↔ ∃ e, (e, p) ∈ l) as Hdom.
  { rewrite elem_of_dom. specialize (Hm p). destruct (segmentMeta idx !! p); naive_solver. }
  set (c := intersect_tokens _ _ _ ≫= _).
  assert (∀ q, q ∈ default ∅ c ↔ q ∈ dom (segmentMeta idx)
    ∧ (∀ tok, tok ∈ tokens → ∃ e, (e, q) ∈ l ∧ has_token e tok)
    ∧ (ns ≠ "" → ∃ e, (e, q) ∈ l ∧ Namespace e = ns)
    ∧ (svc ≠ "" → ∃ e, (e, q) ∈ l ∧ Service e = svc)) as Hc.
  { intros q. subst c. rewrite default_bind. setoid_rewrite default_bind.
    setoid_rewrite intersect_key_spec. setoid_rewrite Hs. unfold has_service.
    split.
    - intros (c1 & E1 & c2 & E2 & Hc2 & Hsv).
      assert (q ∈ default ∅ (intersect_key (namespaceSegments idx) ns c1)) as Hq by by rewrite E2.
      apply intersect_key_spec in Hq as [Hq1 Hq2]. setoid_rewrite Hn in Hq2.
      assert (q ∈ default ∅ (intersect_tokens (tokenSegments idx) tokens (dom (segmentMeta idx))))
        as Hq by by rewrite E1.
      apply intersect_tokens_spec in Hq as [Hq3 Hq4]. setoid_rewrite Ht in Hq4.
      split_and!; [done..|]. naive_solver.
    - intros (Hd & Htok & Hns & Hsv).
      assert (q ∈ default ∅ (intersect_tokens (tokenSegments idx) tokens (dom (segmentMeta idx)))) as Hq.
      { apply intersect_tokens_spec. split; [done|]. by setoid_rewrite Ht. }
      destruct (intersect_tokens _ _ _) as [c1|] eqn:E1; [|set_solver]. cbn in Hq.
      assert (q ∈ default ∅ (intersect_key (namespaceSegments idx) ns c1)) as Hq2.
      { apply intersect_key_spec. split; [done|]. by setoid_rewrite Hn. }
      destruct (intersect_key _ ns c1) as [c2|] eqn:E2; [|set_solver]. cbn in Hq2.
      exists c1. split; [done|]. exists c2. split; [done|]. split; [done|]. naive_solver. }
  specialize (Hc p). destruct c as [c|]; cbn in Hc; unfold id in Hc.
  - rewrite merge_sort_Permutation, elem_of_elements. split.
    + intros Hp. assert (p ∈ c) as Hpc by (unfold prune_time in Hp; set_solver).
      pose proof (proj1 Hc Hpc) as (Hd & ?).
      apply (prune_time_spec idx l) in Hp; [|done|set_solver]. naive_solver.
    + intros (He & Htok & Hns & Hsv & Hst). apply (prune_time_spec idx l); [done| |done].
      apply elem_of_intersection. split; [apply Hc|]; tauto.
  - split; [set_solver|]. intros (He & Htok & Hns & Hsv & Hst). exfalso.
    assert (p ∈ (∅ : gset string)) by (apply Hc; tauto). set_solver.
Qed.

Lemma Resolve_sorted idx tokens ns svc st en :
  StronglySorted String.le (Resolve idx tokens ns svc st en) ∧
  NoDup (Resolve idx tokens ns svc st en).
Proof.
  unfold Resolve. destruct (_ ≫= _) as [c|]; [|split; constructor]. split.
  - apply (StronglySorted_merge_sort _).
  - rewrite merge_sort_Permutation. apply NoDup_elements.
Qed.

(** ** Lemmas: histories *)

Lemma run_ops_represents ops : Represents (run_ops ops) (spec_ops ops).
Proof.
  unfold run_ops, spec_ops. induction ops as [|o ops IH] using rev_ind.
  - apply NewIndex_represents.
  - rewrite !foldl_snoc. destruct o; cbn.
    + by apply Add_represents.
    + by apply RemoveSegment_represents.
Qed.

Lemma index_of_represents l : Represents (index_of l) l.
Proof.
  unfold index_of. induction l as [|[e p] l IH] using rev_ind.
  - apply NewIndex_represents.
  - rewrite foldl_snoc. by apply Add_represents.
Qed.

Lemma RebuildFromSegments_done d idx l paths es :
  ∀ readFn,
  (Forall2 (λ p es, readFn p d = (Ok es, d)) paths es) → Represents idx l →
  ∃ idx', RebuildFromSegments idx paths readFn d = ((idx', Ok ()), d) ∧
    Represents idx' (l ++ mjoin (zip_with tagged paths es)).
Proof.
  intros readFn Hall. revert idx l.
  induction Hall as [|p e ps es Hp Hall IH]; intros idx l Hr; cbn.
  - exists idx. by rewrite app_nil_r.
  - io. rewrite Hp. cbn [fst snd].
    destruct (IH (add_entries p e idx) (l ++ tagged p e)) as (idx' & Heq & Hr').
    { by apply add_entries_represents. }
    exists idx'. by rewrite app_assoc.
Qed.
End index_lemmas.

(** ** Properties *)

Section index_properties.
Context `{GoUnicode}.

(** The index forgets its history: after any sequence of [Add] and
    [RemoveSegment] it equals, field by field, the index obtained by adding the
    entries that remain, one by one, to an empty index. Compaction may therefore
    remove and re-add segments in place of a rebuild. *)
Theorem index_history_independent (ops : list index_op) :
  run_ops ops = index_of (spec_ops ops).
Proof. eapply Represents_unique; [apply run_ops_represents|apply index_of_represents]. Qed.

(** C26. Resolution is exact: [Resolve] lists, in increasing order and without
    repetition, precisely the segments that have an entry with each required token,
    one with the namespace, one with the service, one not before the start and one
    not after the end (empty keys and non-positive bounds ignored). *)
Theorem Resolve_exact (ops : list index_op) (tokens : list string) (ns svc : string) (st en : Z) :
  let r := Resolve (run_ops ops) tokens ns svc st en in
  (∀ p, p ∈ r ↔ may_hold (spec_ops ops) tokens ns svc st en p) ∧
  StronglySorted String.le r ∧ NoDup r.
Proof. split; [intros p; apply Resolve_elem, run_ops_represents|apply Resolve_sorted]. Qed.

(** No false negatives: a segment that holds an indexed entry with all the tokens,
    the namespace and the service asked for, and a timestamp within the bounds, is
    always resolved. *)
Theorem Resolve_complete (ops : list index_op) (tokens : list string) (ns svc : string)
    (st en : Z) (e : LogEntry) (p : string) :
  (e, p) ∈ spec_ops ops →
  (∀ tok, tok ∈ tokens → has_token e tok) →
  (ns = "" ∨ Namespace e = ns) → (svc = "" ∨ Service e = svc) →
  (0 < st → st ≤ Timestamp e) → (0 < en → Timestamp e ≤ en) →
  p ∈ Resolve (run_ops ops) tokens ns svc st en.
Proof.
  intros. apply (Resolve_elem _ (spec_ops ops)); [apply run_ops_represents|].
  unfold may_hold. naive_solver.
Qed.

(** [TokenCount] (the value of the index gauge) is the number of distinct tokens of
    the messages that are indexed. *)
Theorem TokenCount_distinct (ops : list index_op) :
  TokenCount (run_ops ops) =
    size (list_to_set (spec_ops ops ≫= λ x, tokenize (Message x.1)) : gset string).
Proof.
  pose proof (run_ops_represents ops) as [[Ht Nt] _ _ _]. unfold TokenCount.
  rewrite <- size_dom. f_equal. apply set_eq. intros tok.
  rewrite elem_of_dom, elem_of_list_to_set, list_elem_of_bind.
  transitivity (∃ p, p ∈ default ∅ (tokenSegments (run_ops ops) !! tok)).
  - specialize (Nt tok). split.
    + intros [s Hs]. rewrite Hs in Nt |- *. destruct (set_choose_or_empty s) as [[p Hp]|E].
      * by exists p.
      * exfalso. apply Nt. f_equal. by apply leibniz_equiv in E.
    + intros [p Hp]. destruct (tokenSegments (run_ops ops) !! tok); [eauto|set_solver].
  - setoid_rewrite Ht. unfold has_token. split.
    + intros (p & e & ? & ?). by exists (e, p).
    + intros ([e p] & ? & ?). eauto.
Qed.
End index_properties.

(** A rebuild from disk indexes exactly what the segments hold: if every listed
    segment is well formed, [RebuildFromSegments] with [ReadSegment] succeeds on an
    empty index, leaves the disk alone, and gives the index of all their entries. *)
Theorem rebuild_from_disk `{GoUnicode} `{ProtobufLaws} (d : Disk) (paths : list string)
    (es : list (list LogEntry)) :
  no_faults d →
  Forall2 (λ p e, ∃ bytes, files d !! p = Some bytes ∧ holds bytes e) paths es →
  RebuildFromSegments NewIndex paths ReadSegment d
  = ((index_of (mjoin (zip_with tagged paths es)), Ok ()), d).
Proof.
  intros Hn Hall.
  destruct (RebuildFromSegments_done d NewIndex [] paths es ReadSegment) as (idx & -> & Hr).
  - eapply Forall2_impl; [exact Hall|]. intros p e (bytes & Hf & Hh). by eapply ReadSegment_holds.
  - apply NewIndex_represents.
  - do 3 f_equal. eapply Represents_unique; [exact Hr|apply index_of_represents].
Qed.

(** ** Witnesses *)

Lemma Resolve_complete_witness :
  let H := ascii_tables in
  "1.seg" ∈ Resolve (run_ops [OpAdd (sample_entry "a" "disk full" 5) "1.seg"]) ["disk"] "" "api" 3 7.
Proof.
  intros H. apply (@Resolve_complete ascii_tables _ _ _ _ _ _ (sample_entry "a" "disk full" 5)).
  - cbn. set_solver.
  - intros tok ->%list_elem_of_singleton. apply list_elem_of_In. vm_compute. auto.
  - by left.
  - by right.
  - done.
  - done.
Defined.

Lemma rebuild_from_disk_witness :
  let H := ascii_tables in let H' := bit_codec in
  let d := mkDisk {["1.seg" := segment_bytes [sample_entry "a" "x" 5]]} [] in
  RebuildFromSegments NewIndex ["1.seg"] ReadSegment d
  = ((index_of (mjoin (zip_with tagged ["1.seg"] [[sample_entry "a" "x" 5]])), Ok ()), d).
Proof.
  intros H H' d. apply (@rebuild_from_disk ascii_tables bit_codec bit_codec_laws); [done|].
  repeat constructor. eexists. split; [reflexivity|]. apply holds_segment_bytes. split; [|done].
  repeat constructor. eexists. split; [reflexivity|]. vm_compute. discriminate.
Defined.
