(* ===== verification/Parser.v ===== *)
(** * The query parser ([internal/query/parser.go])

    A recursive-descent parser over the tokens of a query string. The three
    mutually recursive methods and their two loops run on fuel; a result is a
    value with the parser state, an error, an index out of range in [consume]
    (a Go panic), or out of fuel. The theorems show that neither of the last
    two happens, and that the parser accepts exactly the documented grammar
    with the documented precedence. *)

From S2P Require Import Prelude GoStrings Types.

Section parser.
Context `{GoUnicode}.

Inductive Node :=
  | AndNode (Left Right : Node)
  | OrNode (Left Right : Node)
  | TermNode (Token : string)
  | FieldNode (Field Value : string).

#[global] Instance Node_eq_dec : EqDecision Node.
Proof. solve_decision. Defined.

(** [queryParser]. *)
Record queryParser := mkParser { tokens : list string; pos : nat }.

Inductive parsed :=
  | POk (node : Node) (p : queryParser)
  | PErr (msg : string)
  | PPanic
  | PFuel.

Definition peek (p : queryParser) : string :=
  if decide (length (tokens p) ≤ pos p)%nat then "" else default "" (tokens p !! pos p).

(** [consume]: [None] is the panic of an index out of range. *)
Definition consume (p : queryParser) : option (string * queryParser) :=
  match tokens p !! pos p with
  | Some t => Some (t, mkParser (tokens p) (S (pos p)))
  | None => None
  end.

Definition parsed_bind (r : parsed) (k : Node → queryParser → parsed) : parsed :=
  match r with POk n p => k n p | PErr m => PErr m | PPanic => PPanic | PFuel => PFuel end.

Definition consumed (p : queryParser) (k : string → queryParser → parsed) : parsed :=
  match consume p with Some (t, p') => k t p' | None => PPanic end.

Fixpoint parseOr (fuel : nat) (p : queryParser) : parsed :=
  match fuel with
  | O => PFuel
  | S fuel => parsed_bind (parseAnd fuel p) (λ left p, or_loop fuel left p)
  end
(** [for p.peek() == "OR"] *)
with or_loop (fuel : nat) (left : Node) (p : queryParser) : parsed :=
  match fuel with
  | O => PFuel
  | S fuel =>
    if bool_decide (peek p = "OR") then
      consumed p (λ _ p,
      parsed_bind (parseAnd fuel p) (λ right p,
      or_loop fuel (OrNode left right) p))
    else POk left p
  end
with parseAnd (fuel : nat) (p : queryParser) : parsed :=
  match fuel with
  | O => PFuel
  | S fuel => parsed_bind (parseAtom fuel p) (λ left p, and_loop fuel left p)
  end
(** [for p.peek() == "AND"] *)
with and_loop (fuel : nat) (left : Node) (p : queryParser) : parsed :=
  match fuel with
  | O => PFuel
  | S fuel =>
    if bool_decide (peek p = "AND") then
      consumed p (λ _ p,
      parsed_bind (parseAtom fuel p) (λ right p,
      and_loop fuel (AndNode left right) p))
    else POk left p
  end
with parseAtom (fuel : nat) (p : queryParser) : parsed :=
  match fuel with
  | O => PFuel
  | S fuel =>
    let tok := peek p in
    if bool_decide (tok = "") then PErr "unexpected end of query"
    else if bool_decide (tok = "AND") || bool_decide (tok = "OR") then
      PErr "unexpected operator"
    else if bool_decide (tok = "(") then
      consumed p (λ _ p,
      parsed_bind (parseOr fuel p) (λ node p,
      if negb (bool_decide (peek p = ")")) then PErr "expected closing ')'"
      else consumed p (λ _ p, POk node p)))
    else
      consumed p (λ _ p,
      match Cut1 tok ":" with
      | Some (f, v) => POk (FieldNode f v) p
      | None => POk (TermNode (ToLower tok)) p
      end)
  end.

(** [lex]. *)
Definition lex (query : string) : list string :=
  let query := ReplaceAll1 query "(" " ( " in
  let query := ReplaceAll1 query ")" " ) " in
  filter (λ f, f ≠ "") (strings_Fields query).

(** Fuel for a parser with [n] tokens left ([parse_total]). *)
Definition parse_fuel (n : nat) : nat := 4 * n + 3.

Definition parse_tokens (toks : list string) : result Node :=
  match parseOr (parse_fuel (length toks)) (mkParser toks 0) with
  | POk node p =>
    if decide (pos p < length (tokens p))%nat then Err (ErrMsg "unexpected token") else Ok node
  | PErr m => Err (ErrMsg m)
  | PPanic => Err (ErrMsg "panic: index out of range")
  | PFuel => Err (ErrMsg "out of fuel")
  end.

(** [Parse]: an empty query is the nil node. *)
Definition Parse (query : string) : result (option Node) :=
  let query := TrimSpace query in
  if bool_decide (query = "") then Ok None
  else match parse_tokens (lex query) with Ok n => Ok (Some n) | Err e => Err e end.

(** ** Specification: the grammar of the comment on [Parse]

    [or_expr = and_expr ("OR" and_expr)*], [and_expr = atom ("AND" atom)*],
    [atom = "(" or_expr ")" | field_term | bare_term],
    [field_term = IDENT ":" IDENT], [bare_term = IDENT], both operators
    associating to the left. An [IDENT] is a word without the marks of the
    grammar, and a bare one is not an operator. *)

Definition ident (t : string) : Prop :=
  t ≠ "" ∧ string_elem ":" t = false ∧ string_elem "(" t = false ∧ string_elem ")" t = false.

Definition bare_term (t : string) : Prop := ident t ∧ t ≠ "AND" ∧ t ≠ "OR".

Definition field_term (t f v : string) : Prop := t = f +:+ String ":" v ∧ ident f ∧ ident v.

Inductive or_expr : list string → Node → Prop :=
  | or_one ts n : and_expr ts n → or_expr ts n
  | or_more ts1 ts2 l r :
      or_expr ts1 l → and_expr ts2 r → or_expr (ts1 ++ "OR" :: ts2) (OrNode l r)
with and_expr : list string → Node → Prop :=
  | and_one ts n : atom ts n → and_expr ts n
  | and_more ts1 ts2 l r :
      and_expr ts1 l → atom ts2 r → and_expr (ts1 ++ "AND" :: ts2) (AndNode l r)
with atom : list string → Node → Prop :=
  | atom_field t f v : field_term t f v → atom [t] (FieldNode f v)
  | atom_bare t : bare_term t → atom [t] (TermNode (ToLower t))
  | atom_paren ts n : or_expr ts n → atom ("(" :: ts ++ [")"]) n.

(** A token the grammar has: an operator, a parenthesis, a field term or a bare term. *)
Definition grammar_token (t : string) : Prop :=
  t = "AND" ∨ t = "OR" ∨ t = "(" ∨ t = ")" ∨ bare_term t ∨ ∃ f v, field_term t f v.

Definition occurrences (t : string) (ts : list string) : nat := length (filter (λ x, x = t) ts).

(** ** What the code reads

    [parseAtom] takes any other token for a term: [")"] too, and words with
    no name or no value around the colon, or with several colons. *)

Definition is_word (t : string) : Prop :=
  t ≠ "" ∧ t ≠ "AND" ∧ t ≠ "OR" ∧ t ≠ "(".

Definition word_node (t : string) : Node :=
  match Cut1 t ":" with Some (f, v) => FieldNode f v | None => TermNode (ToLower t) end.

Inductive or_phrase : list string → Node → Prop :=
  | or_phrase_one ts n : and_phrase ts n → or_phrase ts n
  | or_phrase_more ts1 ts2 l r :
      or_phrase ts1 l → and_phrase ts2 r → or_phrase (ts1 ++ "OR" :: ts2) (OrNode l r)
with and_phrase : list string → Node → Prop :=
  | and_phrase_one ts n : atom_phrase ts n → and_phrase ts n
  | and_phrase_more ts1 ts2 l r :
      and_phrase ts1 l → atom_phrase ts2 r → and_phrase (ts1 ++ "AND" :: ts2) (AndNode l r)
with atom_phrase : list string → Node → Prop :=
  | atom_phrase_word t : is_word t → atom_phrase [t] (word_node t)
  | atom_phrase_paren ts n : or_phrase ts n → atom_phrase ("(" :: ts ++ [")"]) n.

(** A printer, fully parenthesised. *)
Fixpoint print (n : Node) : list string :=
  match n with
  | AndNode l r => "(" :: (print l ++ "AND" :: print r) ++ [")"]
  | OrNode l r => "(" :: (print l ++ "OR" :: print r) ++ [")"]
  | TermNode t => [t]
  | FieldNode f v => [f +:+ String ":" v]
  end.

(** Nodes the printer can express: terms in lower case without a colon,
    field names without a colon. *)
Fixpoint printable (n : Node) : Prop :=
  match n with
  | AndNode l r | OrNode l r => printable l ∧ printable r
  | TermNode t => t ≠ "" ∧ t ≠ "(" ∧ ToLower t = t ∧ string_elem ":" t = false
  | FieldNode f _ => string_elem ":" f = false
  end.

(** The tokens still to be read, and the state [k] tokens later. *)
Definition rest (p : queryParser) : list string := drop (pos p) (tokens p).
Definition advance (p : queryParser) (k : nat) : queryParser := mkParser (tokens p) (pos p + k).

(** What a parser method guarantees: no panic, no lack of fuel, and on success
    it has read exactly the tokens of an [R] phrase. *)
Definition parses (R : list string → Node → Prop) (p : queryParser) (r : parsed) : Prop :=
  match r with
  | POk n p' => ∃ ts, rest p = ts ++ rest p' ∧ p' = advance p (length ts) ∧ R ts n
  | PErr _ => True
  | PPanic | PFuel => False
  end.

(** Tokens that cannot continue an expression. *)
Definition stops (op : string) (r : list string) : Prop := default "" (head r) ≠ op.
End parser.

#[global] Arguments rest : simpl never.
#[global] Arguments advance : simpl never.

Scheme or_expr_ind' := Minimality for or_expr Sort Prop
  with and_expr_ind' := Minimality for and_expr Sort Prop
  with atom_ind' := Minimality for atom Sort Prop.
Combined Scheme grammar_ind from or_expr_ind', and_expr_ind', atom_ind'.

Scheme or_phrase_ind' := Minimality for or_phrase Sort Prop
  with and_phrase_ind' := Minimality for and_phrase Sort Prop
  with atom_phrase_ind' := Minimality for atom_phrase Sort Prop.
Combined Scheme phrase_ind from or_phrase_ind', and_phrase_ind', atom_phrase_ind'.

(** The tests of [parser_test.go]. *)
Example parse_precedence :
  @Parse ascii_tables "a OR b AND c"
  = Ok (Some (OrNode (TermNode "a") (AndNode (TermNode "b") (TermNode "c")))).
Proof. vm_compute. reflexivity. Qed.

Example parse_grouping :
  @Parse ascii_tables "(level:error OR level:warn) AND service:api"
  = Ok (Some (AndNode (OrNode (FieldNode "level" "error") (FieldNode "level" "warn"))
                      (FieldNode "service" "api"))).
Proof. vm_compute. reflexivity. Qed.

Example parse_malformed :
  @Parse ascii_tables "AND error" = Err (ErrMsg "unexpected operator").
Proof. vm_compute. reflexivity. Qed.

(** ** Lemmas *)

Section parser_lemmas.
Context `{GoUnicode}.

Lemma lookup_rest p : tokens p !! pos p = head (rest p).
Proof.
  unfold rest. rewrite <- (Nat.add_0_r (pos p)) at 1. rewrite <- lookup_drop.
  by destruct (drop (pos p) (tokens p)).
Qed.

Lemma peek_rest p : peek p = default "" (head (rest p)).
Proof.
  unfold peek. rewrite lookup_rest. case_decide; [|done].
  unfold rest. by rewrite drop_ge.
Qed.

Lemma consumed_rest p k t r :
  rest p = t :: r → consumed p k = k t (advance p 1).
Proof.
  intros Hr. unfold consumed, consume. rewrite lookup_rest, Hr. cbn.
  unfold advance. by rewrite Nat.add_1_r.
Qed.

Lemma rest_advance p k : rest (advance p k) = drop k (rest p).
Proof. unfold rest, advance. cbn. by rewrite drop_drop. Qed.

Lemma advance_advance p k k' : advance (advance p k) k' = advance p (k + k').
Proof. unfold advance. cbn. f_equal. lia. Qed.

Lemma rest_advance_app p ts r : rest p = ts ++ r → rest (advance p (length ts)) = r.
Proof. intros Hr. by rewrite rest_advance, Hr, drop_app_length. Qed.

Lemma peek_word p t : peek p = t → t ≠ "" → ∃ r, rest p = t :: r.
Proof. rewrite peek_rest. destruct (rest p) as [|x r]; cbn; [congruence|]. intros ->. eauto. Qed.

Lemma parses_bind (R R' : list string → Node → Prop) p r k :
  parses R p r →
  (∀ n ts, rest p = ts ++ rest (advance p (length ts)) → R ts n →
     parses (λ ts', R' (ts ++ ts')) (advance p (length ts)) (k n (advance p (length ts)))) →
  parses R' p (parsed_bind r k).
Proof.
  destruct r as [n p'|m| |]; cbn; [|done..]. intros (ts & Hr & -> & HR) Hk.
  specialize (Hk n ts Hr HR). destruct (k n _) as [n' p''|m| |]; cbn in *; [|done..].
  destruct Hk as (ts' & Hr' & -> & HR'). exists (ts ++ ts'). split_and!; [|by rewrite advance_advance, length_app|done].
  by rewrite Hr, Hr', <- app_assoc.
Qed.

Lemma parses_consumed (R : list string → Node → Prop) p t r k :
  rest p = t :: r →
  parses (λ ts, R (t :: ts)) (advance p 1) (k t (advance p 1)) → parses R p (consumed p k).
Proof.
  intros Hr. rewrite (consumed_rest p k t r Hr).
  destruct (k t _) as [n p'|m| |]; cbn; [|done..]. intros (ts & Hr' & -> & HR).
  exists (t :: ts). split_and!; [|by rewrite advance_advance|done].
  assert (rest (advance p 1) = r) as Hr1 by (rewrite rest_advance, Hr; done).
  rewrite Hr1 in Hr'. rewrite Hr. cbn. by rewrite <- Hr'.
Qed.

Lemma parses_weaken (R R' : list string → Node → Prop) p r :
  (∀ ts n, R ts n → R' ts n) → parses R p r → parses R' p r.
Proof. intros HR. destruct r; cbn; naive_solver. Qed.

Lemma rest_shorter p t r : rest p = t :: r → length (rest p) = S (length (rest (advance p 1))).
Proof. intros Hr. rewrite rest_advance, Hr. cbn. by rewrite drop_0. Qed.

Lemma rest_advance_le p k : (length (rest (advance p k)) ≤ length (rest p))%nat.
Proof. rewrite rest_advance, length_drop. lia. Qed.

(** Soundness and totality of all five functions at once. *)
Lemma parse_sound fuel :
  (∀ p, (4 * length (rest p) + 3 ≤ fuel)%nat → parses or_phrase p (parseOr fuel p)) ∧
  (∀ p left ts0, (4 * length (rest p) + 1 ≤ fuel)%nat → or_phrase ts0 left →
     parses (λ ts, or_phrase (ts0 ++ ts)) p (or_loop fuel left p)) ∧
  (∀ p, (4 * length (rest p) + 2 ≤ fuel)%nat → parses and_phrase p (parseAnd fuel p)) ∧
  (∀ p left ts0, (4 * length (rest p) + 1 ≤ fuel)%nat → and_phrase ts0 left →
     parses (λ ts, and_phrase (ts0 ++ ts)) p (and_loop fuel left p)) ∧
  (∀ p, (4 * length (rest p) + 1 ≤ fuel)%nat → parses atom_phrase p (parseAtom fuel p)).
Proof.
  induction fuel as [|fuel (IHor & IHol & IHand & IHal & IHatom)].
  { split_and!; intros; lia. }
  split_and!; intros p.
  - intros Hf. cbn [parseOr]. eapply parses_bind; [apply IHand; lia|].
    intros n ts Hr Hn. pose proof (rest_advance_le p (length ts)).
    apply IHol; [lia|]. by constructor.
  - intros left ts0 Hf Hl. cbn [or_loop]. case_bool_decide as Ep.
    + destruct (peek_word p _ Ep) as [r Hr]; [done|]. pose proof (rest_shorter _ _ _ Hr).
      eapply parses_consumed; [exact Hr|]. eapply parses_bind; [apply IHand; lia|].
      intros n ts Hr' Hn. pose proof (rest_advance_le (advance p 1) (length ts)).
      eapply parses_weaken; [|apply (IHol _ _ (ts0 ++ "OR" :: ts)); [lia|by constructor]].
      intros ts' n'. cbn. by rewrite <- app_assoc.
    + exists []. cbn. rewrite app_nil_r. split_and!; [done| |done].
      unfold advance. rewrite Nat.add_0_r. by destruct p.
  - intros Hf. cbn [parseAnd]. eapply parses_bind; [apply IHatom; lia|].
    intros n ts Hr Hn. pose proof (rest_advance_le p (length ts)).
    apply IHal; [lia|]. by constructor.
  - intros left ts0 Hf Hl. cbn [and_loop]. case_bool_decide as Ep.
    + destruct (peek_word p _ Ep) as [r Hr]; [done|]. pose proof (rest_shorter _ _ _ Hr).
      eapply parses_consumed; [exact Hr|]. eapply parses_bind; [apply IHatom; lia|].
      intros n ts Hr' Hn. pose proof (rest_advance_le (advance p 1) (length ts)).
      eapply parses_weaken; [|apply (IHal _ _ (ts0 ++ "AND" :: ts)); [lia|by constructor]].
      intros ts' n'. cbn. by rewrite <- app_assoc.
    + exists []. cbn. rewrite app_nil_r. split_and!; [done| |done].
      unfold advance. rewrite Nat.add_0_r. by destruct p.
  - intros Hf. cbn [parseAtom]. case_bool_decide as E1; [done|].
    destruct (bool_decide (peek p = "AND") || bool_decide (peek p = "OR")) eqn:E2; [done|].
    apply orb_false_iff in E2 as [Ea%bool_decide_eq_false Eb%bool_decide_eq_false].
    destruct (peek_word p (peek p) eq_refl E1) as [r Hr]. pose proof (rest_shorter _ _ _ Hr).
    case_bool_decide as E3.
    + rewrite E3 in Hr. eapply parses_consumed; [exact Hr|].
      eapply parses_bind; [apply IHor; lia|]. intros n ts Hr' Hn.
      case_bool_decide as E4; [|done]. cbn [negb].
      destruct (peek_word _ _ E4) as [r' Hr'']; [done|].
      rewrite (consumed_rest _ _ _ _ Hr''). exists [")"]. split_and!; [|done|by constructor].
      rewrite Hr''. cbn. by rewrite rest_advance, Hr''.
    + assert (is_word (peek p)) by done.
      rewrite (consumed_rest _ _ _ _ Hr).
      assert (parses atom_phrase p (POk (word_node (peek p)) (advance p 1))) as Hw.
      { exists [peek p]. split_and!; [|done|by constructor].
        rewrite rest_advance, Hr. done. }
      unfold word_node in Hw. by case_match; [case_match|].
Qed.

Lemma parseOr_parses p :
  parses or_phrase p (parseOr (parse_fuel (length (rest p))) p).
Proof. apply parse_sound. unfold parse_fuel. lia. Qed.

Lemma rest_nil p : rest p = [] ↔ ¬ (pos p < length (tokens p))%nat.
Proof.
  unfold rest. split.
  - intros E%(f_equal length). rewrite length_drop in E. cbn in E. lia.
  - intros. apply drop_ge. lia.
Qed.

Lemma parse_tokens_sound toks n : parse_tokens toks = Ok n → or_phrase toks n.
Proof.
  unfold parse_tokens. pose proof (parseOr_parses (mkParser toks 0)) as Hp.
  change (rest (mkParser toks 0)) with toks in Hp.
  destruct (parseOr _ _) as [n' p'|m| |]; cbn in Hp; [|done..].
  case_decide as Hd; [done|]. intros [= <-]. apply rest_nil in Hd.
  destruct Hp as (ts & Hr & -> & Hn). rewrite Hd, app_nil_r in Hr. cbn in Hr. by subst.
Qed.

(** Completeness: on a phrase of the grammar each function does what the
    derivation says. Expressions leave their loop at what follows them. *)
Lemma parse_complete :
  (∀ ts n, or_phrase ts n → ∀ fuel p r, rest p = ts ++ r → stops "AND" r →
     (4 * length (rest p) + 3 ≤ fuel)%nat →
     ∃ fuel', (4 * length r + 1 ≤ fuel')%nat ∧
       parseOr fuel p = or_loop fuel' n (advance p (length ts))) ∧
  (∀ ts n, and_phrase ts n → ∀ fuel p r, rest p = ts ++ r →
     (4 * length (rest p) + 2 ≤ fuel)%nat →
     ∃ fuel', (4 * length r + 1 ≤ fuel')%nat ∧
       parseAnd fuel p = and_loop fuel' n (advance p (length ts))) ∧
  (∀ ts n, atom_phrase ts n → ∀ fuel p r, rest p = ts ++ r →
     (4 * length (rest p) + 1 ≤ fuel)%nat →
     parseAtom fuel p = POk n (advance p (length ts))).
Proof.
  assert (∀ fuel n p r, rest p = r → stops "OR" r → (1 ≤ fuel)%nat → or_loop fuel n p = POk n p) as Hor.
  { intros [|fuel] n p r Hr Hs ?; [lia|]. cbn. by rewrite peek_rest, Hr, bool_decide_false. }
  assert (∀ fuel n p r, rest p = r → stops "AND" r → (1 ≤ fuel)%nat → and_loop fuel n p = POk n p) as Hand.
  { intros [|fuel] n p r Hr Hs ?; [lia|]. cbn. by rewrite peek_rest, Hr, bool_decide_false. }
  apply phrase_ind.
  - intros ts n _ IH [|fuel] p r Hr Hs Hf; [lia|].
    destruct (IH fuel p r Hr ltac:(lia)) as (f' & Hf' & Heq).
    exists fuel. rewrite Hr, length_app in Hf. split; [lia|]. cbn [parseOr].
    by rewrite Heq, (Hand _ _ _ r) by (done || lia || by apply rest_advance_app).
  - intros ts1 ts2 l rn _ IH1 _ IH2 fuel p r Hr Hs Hf. rewrite <- app_assoc in Hr. cbn in Hr.
    destruct (IH1 fuel p ("OR" :: ts2 ++ r) Hr) as (f1 & Hf1 & ->); [done|done|].
    destruct f1 as [|f1]; [lia|]. cbn [or_loop].
    set (p1 := advance p (length ts1)). assert (rest p1 = "OR" :: ts2 ++ r) as Hr1
      by by apply rest_advance_app.
    rewrite peek_rest, Hr1, bool_decide_true by done.
    rewrite (consumed_rest _ _ _ _ Hr1). cbn in Hf1. rewrite length_app in Hf1.
    assert (rest (advance p1 1) = ts2 ++ r) as Hr2 by by rewrite rest_advance, Hr1.
    destruct (IH2 f1 (advance p1 1) r Hr2) as (f2 & Hf2 & ->).
    { rewrite Hr2, length_app. lia. }
    exists f1. split; [lia|].
    rewrite (Hand _ _ _ r) by (done || lia || by apply rest_advance_app). cbn [parsed_bind].
    subst p1. rewrite !advance_advance, length_app. cbn. do 2 f_equal; lia.
  - intros ts n _ IH [|fuel] p r Hr Hf; [lia|].
    exists fuel. rewrite Hr, length_app in Hf. split; [lia|]. cbn [parseAnd].
    rewrite (IH fuel p r Hr); [done|]. rewrite Hr, length_app. lia.
  - intros ts1 ts2 l rn _ IH1 _ IH2 fuel p r Hr Hf. rewrite <- app_assoc in Hr. cbn in Hr.
    destruct (IH1 fuel p ("AND" :: ts2 ++ r) Hr) as (f1 & Hf1 & ->); [done|].
    destruct f1 as [|f1]; [lia|]. cbn [and_loop].
    set (p1 := advance p (length ts1)). assert (rest p1 = "AND" :: ts2 ++ r) as Hr1
      by by apply rest_advance_app.
    rewrite peek_rest, Hr1, bool_decide_true by done.
    rewrite (consumed_rest _ _ _ _ Hr1). cbn in Hf1. rewrite length_app in Hf1.
    assert (rest (advance p1 1) = ts2 ++ r) as Hr2 by by rewrite rest_advance, Hr1.
    rewrite (IH2 f1 (advance p1 1) r Hr2) by (rewrite Hr2, length_app; lia).
    exists f1. split; [lia|]. cbn [parsed_bind].
    subst p1. rewrite !advance_advance, length_app. cbn. do 2 f_equal; lia.
  - intros t (H1 & H2 & H3 & H4) [|fuel] p r Hr Hf; [lia|]. cbn [parseAtom].
    rewrite peek_rest, Hr. cbn [head app default from_option]. unfold id.
    rewrite !bool_decide_false by done. cbn [orb].
    rewrite (consumed_rest _ _ _ _ Hr). unfold word_node. by case_match; [case_match|].
  - intros ts n _ IH [|fuel] p r Hr Hf; [lia|]. cbn [parseAtom].
    cbn in Hr. rewrite <- app_assoc in Hr. cbn in Hr.
    rewrite peek_rest, Hr. cbn [head default from_option]. unfold id.
    rewrite !bool_decide_false, bool_decide_true by done. cbn [orb].
    rewrite (consumed_rest _ _ _ _ Hr).
    assert (rest (advance p 1) = ts ++ ")" :: r) as Hr1 by by rewrite rest_advance, Hr.
    rewrite Hr in Hf. cbn in Hf. rewrite length_app in Hf. cbn in Hf.
    destruct (IH fuel (advance p 1) (")" :: r) Hr1) as (f' & Hf' & ->); [done| |].
    { rewrite Hr1, length_app. cbn. lia. }
    set (p1 := advance (advance p 1) (length ts)).
    assert (rest p1 = ")" :: r) as Hr2 by by apply rest_advance_app.
    rewrite (Hor _ _ _ _ Hr2) by (done || lia). cbn [parsed_bind].
    rewrite peek_rest, Hr2, bool_decide_true by done. cbn [negb].
    rewrite (consumed_rest _ _ _ _ Hr2). subst p1. rewrite !advance_advance.
    cbn. rewrite length_app. cbn. do 2 f_equal; lia.
Qed.

Lemma parse_tokens_complete toks n : or_phrase toks n → parse_tokens toks = Ok n.
Proof.
  intros Hn. destruct parse_complete as (Hor & _ & _).
  destruct (Hor _ _ Hn (parse_fuel (length toks)) (mkParser toks 0) []) as (f' & Hf' & Heq).
  - by rewrite app_nil_r.
  - done.
  - unfold rest, parse_fuel. cbn. rewrite drop_0. lia.
  - unfold parse_tokens. rewrite Heq. destruct f' as [|f']; [cbn in Hf'; lia|]. cbn [or_loop].
    assert (rest (advance (mkParser toks 0) (length toks)) = []) as Hr
      by (unfold rest, advance; cbn; by apply drop_ge).
    rewrite peek_rest, Hr, bool_decide_false by done. apply rest_nil in Hr.
    by rewrite decide_False.
Qed.

Lemma print_atom n : printable n → atom_phrase (print n) n.
Proof.
  induction n as [l IHl r IHr|l IHl r IHr|t|f v]; cbn [print printable].
  - intros [Hl Hr]. constructor. apply or_phrase_one. apply and_phrase_more; [apply and_phrase_one|]; auto.
  - intros [Hl Hr]. constructor. apply or_phrase_more; [apply or_phrase_one|]; apply and_phrase_one; auto.
  - intros (H1 & H2 & H3 & H4).
    assert (word_node t = TermNode t) as <-; [|constructor; unfold is_word; split_and!; [done|..|done]].
    + unfold word_node. destruct (Cut1 t ":") as [[a b]|] eqn:E; [|by rewrite H3].
      apply Cut1_Some in E as [-> _]. exfalso. clear -H4.
      induction a as [|c a IH]; cbn in H4; [done|]. apply orb_false_iff in H4 as [_ ?]. auto.
    + intros ->. cbn in H3. done.
    + intros ->. cbn in H3. done.
  - intros Hf.
    assert (Cut1 (f +:+ String ":" v) ":" = Some (f, v)) as Hc by by apply Cut1_Some.
    assert (word_node (f +:+ String ":" v) = FieldNode f v) as <- by (unfold word_node; by rewrite Hc).
    constructor. unfold is_word. split_and!; intros E; rewrite E in Hc; done.
Qed.

Lemma or_phrase_nonempty n : ¬ or_phrase [] n.
Proof. intros Hn%parse_tokens_complete. by vm_compute in Hn. Qed.

Lemma Parse_phrase query n : Parse query = Ok (Some n) ↔ or_phrase (lex (TrimSpace query)) n.
Proof.
  unfold Parse. case_bool_decide as E.
  - rewrite E. split; [done|]. intros Hn. by destruct (or_phrase_nonempty n).
  - split.
    + intros Hp. apply parse_tokens_sound. by destruct (parse_tokens _); simplify_eq.
    + by intros ->%parse_tokens_complete.
Qed.

(** What separates the code's phrases from the grammar. *)

Lemma occurrences_app t ts1 ts2 : occurrences t (ts1 ++ ts2) = (occurrences t ts1 + occurrences t ts2)%nat.
Proof. unfold occurrences. by rewrite filter_app, length_app. Qed.

Lemma occurrences_cons t x ts :
  occurrences t (x :: ts) = ((if String.eqb x t then 1 else 0) + occurrences t ts)%nat.
Proof.
  unfold occurrences. rewrite filter_cons. destruct (String.eqb_spec x t); [by rewrite decide_True|by rewrite decide_False].
Qed.

Lemma field_term_word t f v : field_term t f v → is_word t ∧ t ≠ ")" ∧ word_node t = FieldNode f v.
Proof.
  intros (-> & (_ & Hf & _) & _).
  assert (Cut1 (f +:+ String ":" v) ":" = Some (f, v)) as Hc by by apply Cut1_Some.
  unfold word_node. rewrite Hc. split; [|split; [|done]].
  - unfold is_word. split_and!; intros E; by rewrite E in Hc.
  - intros E. by rewrite E in Hc.
Qed.

Lemma bare_term_word t : bare_term t → is_word t ∧ t ≠ ")" ∧ word_node t = TermNode (ToLower t).
Proof.
  intros ((Hne & Hc & Ho & Hcl) & Ha & Hor). unfold word_node.
  assert (Cut1 t ":" = None) as ->.
  { destruct (Cut1 t ":") as [[a b]|] eqn:E; [|done]. apply Cut1_Some in E as [-> _]. exfalso. clear -Hc.
    induction a as [|c a IH]; cbn in Hc; [done|]. apply orb_false_iff in Hc as [_ ?]. auto. }
  unfold is_word. split_and!; try done; intros ->; by vm_compute in Ho, Hcl.
Qed.

Lemma ident_not_mark t : ident t → t ≠ "(" ∧ t ≠ ")".
Proof. intros (_ & _ & Ho & Hc). split; intros ->; done. Qed.

(** A term reads as itself, and holds no parenthesis. *)
Lemma term_atom t : is_word t → grammar_token t → t ≠ ")" →
  atom [t] (word_node t) ∧ occurrences "(" [t] = 0%nat ∧ occurrences ")" [t] = 0%nat.
Proof.
  intros (H1 & H2 & H3 & H4) Hg Hc. rewrite !occurrences_cons, !(proj2 (String.eqb_neq _ _)) by done.
  split; [|done]. destruct Hg as [?|[?|[?|[?|[Hb|(f & v & Hf)]]]]]; [done..| |].
  - destruct (bare_term_word _ Hb) as (_ & _ & ->). by constructor.
  - destruct (field_term_word _ _ _ Hf) as (_ & _ & ->). by constructor.
Qed.

(** The grammar's phrases are the code's, made of tokens of the grammar, with as many
    closing as opening parentheses. *)
Lemma grammar_phrase :
  (∀ ts n, or_expr ts n → or_phrase ts n ∧ Forall grammar_token ts ∧ occurrences "(" ts = occurrences ")" ts) ∧
  (∀ ts n, and_expr ts n → and_phrase ts n ∧ Forall grammar_token ts ∧ occurrences "(" ts = occurrences ")" ts) ∧
  (∀ ts n, atom ts n → atom_phrase ts n ∧ Forall grammar_token ts ∧ occurrences "(" ts = occurrences ")" ts).
Proof.
  apply grammar_ind.
  - intros ts n _ (? & ? & ?). by split; [constructor|].
  - intros ts1 ts2 l r _ (? & ? & E1) _ (? & ? & E2). split; [by constructor|].
    rewrite Forall_app, Forall_cons, !occurrences_app, !occurrences_cons, E1, E2. unfold grammar_token at 2. naive_solver.
  - intros ts n _ (? & ? & ?). by split; [constructor|].
  - intros ts1 ts2 l r _ (? & ? & E1) _ (? & ? & E2). split; [by constructor|].
    rewrite Forall_app, Forall_cons, !occurrences_app, !occurrences_cons, E1, E2. unfold grammar_token at 2. naive_solver.
  - intros t f v Hf. destruct (field_term_word _ _ _ Hf) as (Hw & Hc & <-).
    split; [by constructor|]. assert (grammar_token t) as Hg by (unfold grammar_token; eauto 10).
    split; [by constructor|]. by destruct (term_atom t Hw Hg Hc) as (_ & -> & ->).
  - intros t Hb. destruct (bare_term_word _ Hb) as (Hw & Hc & <-).
    split; [by constructor|]. assert (grammar_token t) as Hg by (unfold grammar_token; eauto 10).
    split; [by constructor|]. by destruct (term_atom t Hw Hg Hc) as (_ & -> & ->).
  - intros ts n _ (? & ? & E). split; [by constructor|]. rewrite !occurrences_cons, !occurrences_app, !occurrences_cons, E.
    rewrite Forall_cons, Forall_app, Forall_singleton. split; [unfold grammar_token; naive_solver|]. cbn. lia.
Qed.

(** In a phrase of the code every opening parenthesis is closed, and a phrase with no further
    closing one, made of the grammar's tokens, is one of the grammar. *)
Lemma phrase_grammar :
  (∀ ts n, or_phrase ts n → (occurrences "(" ts ≤ occurrences ")" ts)%nat ∧
     (Forall grammar_token ts → occurrences "(" ts = occurrences ")" ts → or_expr ts n)) ∧
  (∀ ts n, and_phrase ts n → (occurrences "(" ts ≤ occurrences ")" ts)%nat ∧
     (Forall grammar_token ts → occurrences "(" ts = occurrences ")" ts → and_expr ts n)) ∧
  (∀ ts n, atom_phrase ts n → (occurrences "(" ts ≤ occurrences ")" ts)%nat ∧
     (Forall grammar_token ts → occurrences "(" ts = occurrences ")" ts → atom ts n)).
Proof.
  apply phrase_ind.
  - intros ts n _ [? IH]. split; [done|]. intros. constructor. by apply IH.
  - intros ts1 ts2 l r _ [? IH1] _ [? IH2].
    rewrite Forall_app, Forall_cons, !occurrences_app, !occurrences_cons. cbn. split; [lia|].
    intros (? & ? & ?) ?. constructor; [apply IH1|apply IH2]; done || lia.
  - intros ts n _ [? IH]. split; [done|]. intros. constructor. by apply IH.
  - intros ts1 ts2 l r _ [? IH1] _ [? IH2].
    rewrite Forall_app, Forall_cons, !occurrences_app, !occurrences_cons. cbn. split; [lia|].
    intros (? & ? & ?) ?. constructor; [apply IH1|apply IH2]; done || lia.
  - intros t Hw. assert (occurrences "(" [t] = 0%nat) as Ho by (rewrite occurrences_cons, (proj2 (String.eqb_neq _ _)) by apply Hw; done).
    rewrite Ho. split; [lia|]. intros Hg Hc. apply (proj1 (Forall_singleton _ _)) in Hg. apply (term_atom t Hw Hg). by intros ->.
  - intros ts n _ [? IH]. rewrite Forall_cons, Forall_app, !occurrences_cons, !occurrences_app, !occurrences_cons.
    cbn. split; [lia|]. intros (_ & ? & _) ?. constructor. apply IH; [done|lia].
Qed.
End parser_lemmas.

(** ** Properties *)

Section parser_properties.
Context `{GoUnicode}.

(** C27. The grammar of the comment on [Parse] and the parser, exactly: a query is derivable with
    a node if and only if [Parse] returns that node, every token of the query is one the grammar
    has (an operator, a parenthesis, [IDENT] or [IDENT:IDENT]), and it closes as many parentheses
    as it opens. So the parser reads every query of the grammar, with AND binding tighter than OR
    and both associating to the left, the grammar is unambiguous, and what the parser takes beyond
    it is a term with an empty part or a second colon, or a [")"] read as a term. *)
Theorem parse_iff_grammar (query : string) (n : Node) :
  or_expr (lex (TrimSpace query)) n ↔
  Parse query = Ok (Some n) ∧ Forall grammar_token (lex (TrimSpace query)) ∧
    occurrences "(" (lex (TrimSpace query)) = occurrences ")" (lex (TrimSpace query)).
Proof.
  destruct grammar_phrase as (Hg & _). destruct phrase_grammar as (Hp & _). rewrite Parse_phrase.
  split; [naive_solver|]. intros (Ho & ? & ?). by apply (Hp _ _ Ho).
Qed.

(** Parsing always ends and never panics: with the fuel used, [parseOr] on any
    tokens from any position returns a node or one of the parser's errors; it neither
    runs out of fuel nor reads past the tokens, and a node comes with a position
    inside the tokens. *)
Theorem parse_total (p : queryParser) :
  (pos p ≤ length (tokens p))%nat →
  (∃ n p', parseOr (parse_fuel (length (rest p))) p = POk n p' ∧
     tokens p' = tokens p ∧ (pos p ≤ pos p' ≤ length (tokens p))%nat) ∨
  (∃ msg, parseOr (parse_fuel (length (rest p))) p = PErr msg).
Proof.
  intros Hpos. pose proof (parseOr_parses p) as Hp.
  destruct (parseOr _ p) as [n p'|m| |]; cbn in Hp; [left|right; eauto|done..].
  destruct Hp as (ts & Hr & -> & _). do 2 eexists. split; [done|]. split; [done|].
  apply (f_equal length) in Hr. unfold rest in Hr at 1. rewrite length_app, length_drop in Hr.
  unfold advance. cbn. lia.
Qed.

(** Printing and parsing round-trip: the fully parenthesised tokens of a printable
    node parse back to that node. *)
Theorem parse_print (n : Node) : printable n → parse_tokens (print n) = Ok n.
Proof. intros Hn. apply parse_tokens_complete, or_phrase_one, and_phrase_one. by apply print_atom. Qed.
End parser_properties.

(** ** Witnesses *)

Lemma parse_total_witness :
  let H := ascii_tables in let p := mkParser ["a"; "OR"; "("] 0 in
  (∃ n p', parseOr (parse_fuel (length (rest p))) p = POk n p' ∧
     tokens p' = tokens p ∧ (pos p ≤ pos p' ≤ length (tokens p))%nat) ∨
  (∃ msg, parseOr (parse_fuel (length (rest p))) p = PErr msg).
Proof. intros H p. apply (@parse_total ascii_tables p). cbn. lia. Defined.

Lemma parse_print_witness :
  let n := OrNode (TermNode "a") (AndNode (TermNode "b") (FieldNode "level" "ERROR")) in
  @parse_tokens ascii_tables (print n) = Ok n.
Proof. intros n. apply (@parse_print ascii_tables n). repeat split; discriminate. Defined.

(** A closing parenthesis where a term may start is read as a term. *)
Example parse_close_paren : @Parse ascii_tables ")" = Ok (Some (TermNode ")")).
Proof. vm_compute. reflexivity. Qed.
