(* ===== verification/Bloom.v ===== *)
(** * Bloom sidecars ([internal/storage/bloom.go], [tokenizeEntry])

    The filter itself is the package [bits-and-blooms/bloom]; the class [Bloom]
    is its interface and [BloomLaws] what its documentation promises: no false
    negatives, and a serialised filter reads back. *)

From Stdlib Require Import QArith_base.
From S2P Require Import Prelude GoStrings Types Record Disk.
#[local] Open Scope Z_scope.

Class Bloom := {
  BloomFilter : Type;
  NewWithEstimates : Z → Q → BloomFilter;
  AddString : BloomFilter → string → BloomFilter;
  TestString : BloomFilter → string → bool;
  WriteTo : BloomFilter → list byte;
  ReadFrom : list byte → option BloomFilter;
}.

Class BloomLaws `{Bloom} : Prop := {
  TestString_added bf s : TestString (AddString bf s) s = true;
  TestString_mono bf s t : TestString bf s = true → TestString (AddString bf t) s = true;
  ReadFrom_WriteTo bf : ReadFrom (WriteTo bf) = Some bf;
}.

(** [strings.TrimSuffix]. *)
Definition TrimSuffix (s suffix : string) : string :=
  let n := (String.length s - String.length suffix)%nat in
  if bool_decide (String.length suffix ≤ String.length s)%nat
     && bool_decide (String.substring n (String.length suffix) s = suffix)
  then String.substring 0 n s else s.

Section bloom.
Context `{GoUnicode} `{Bloom}.

(** [BuildBloom]. *)
Definition BuildBloom (tokens : list string) (expectedN : Z) : BloomFilter :=
  let expectedN := if expectedN <? 100 then 100 else expectedN in
  foldl (λ bf tok, AddString bf (ToLower tok)) (NewWithEstimates expectedN (1 # 100)) tokens.

(** [BloomPath]. *)
Definition BloomPath (segPath : string) : string := TrimSuffix segPath ".seg" +:+ ".bloom".

(** [WriteBloom]: write to a temporary file, sync, rename; on any error the
    temporary file is removed. *)
Definition WriteBloom (path : string) (bf : BloomFilter) : IO (result ()) :=
  let tmp := path +:+ ".tmp" in
  r ← os_Create tmp;
  match r with
  | Err e => mret (Err (ErrWrap "create bloom tmp" e))
  | Ok f =>
    '(f, r) ← file_Write f (WriteTo bf);
    match r with
    | Err e => _ ← file_Close f; _ ← os_Remove tmp; mret (Err (ErrWrap "write bloom" e))
    | Ok _ =>
      r ← file_Sync f;
      match r with
      | Err e => _ ← file_Close f; _ ← os_Remove tmp; mret (Err (ErrWrap "sync bloom" e))
      | Ok _ =>
        _ ← file_Close f;
        r ← os_Rename tmp path;
        match r with
        | Err e => _ ← os_Remove tmp; mret (Err (ErrWrap "rename bloom" e))
        | Ok _ => mret (Ok ())
        end
      end
    end
  end.

(** [ReadBloom]. *)
Definition ReadBloom (path : string) : IO (result BloomFilter) :=
  r ← os_Open path;
  mret match r with
       | Err e => Err (ErrWrap "open bloom" e)
       | Ok rd =>
         match rd_end rd with
         | Some e => Err (ErrWrap "read bloom" e)
         | None =>
           match ReadFrom (rd_bytes rd) with
           | Some bf => Ok bf
           | None => Err (ErrWrap "read bloom" io_ErrUnexpectedEOF)
           end
         end
       end.

(** [tokenizeEntry]: the message tokens, then level, service and namespace. *)
Definition tokenizeEntry (e : LogEntry) : list string :=
  nonempty_pieces (ToLower (Message e))
  ++ [ToLower (Level e); ToLower (Service e); ToLower (Namespace e)].

(** The tokens of a segment, and the filter [rotate] and [mergeRun] build. *)
Definition segment_tokens (es : list LogEntry) : list string := es ≫= tokenizeEntry.
Definition segment_bloom (es : list LogEntry) : BloomFilter :=
  BuildBloom (segment_tokens es) (len (segment_tokens es)).

(** ** Specification: a filter that covers a list of entries *)
Definition covers (bf : BloomFilter) (es : list LogEntry) : Prop :=
  ∀ e tok, e ∈ es → tok ∈ tokenizeEntry e → TestString bf (ToLower tok) = true.
End bloom.

(** An exact set as a filter: it has the laws, and shows what a filter without
    false positives answers. *)
Definition exact_bloom : Bloom :=
  {| BloomFilter := gset string;
     NewWithEstimates _ _ := ∅;
     AddString bf s := {[s]} ∪ bf;
     TestString bf s := bool_decide (s ∈ bf);
     WriteTo bf := bits_of_pos (encode bf);
     ReadFrom data := decode (pos_of_bits data) |}.

Lemma exact_bloom_laws : @BloomLaws exact_bloom.
Proof.
  constructor; cbn.
  - intros bf s. apply bool_decide_true. set_solver.
  - intros bf s t Hs%bool_decide_eq_true. apply bool_decide_true. set_solver.
  - intros bf. by rewrite pos_of_bits_of_pos, decode_encode.
Qed.

(** ** Lemmas *)

Section bloom_lemmas.
Context `{GoUnicodeLaws} `{BloomLaws}.

Lemma add_all_mono toks bf s :
  TestString bf s = true →
  TestString (foldl (λ bf tok, AddString bf (ToLower tok)) bf toks) s = true.
Proof.
  revert bf. induction toks as [|t toks IH]; intros bf Hs; cbn; [done|].
  apply IH. by apply TestString_mono.
Qed.

Lemma BuildBloom_test toks n tok :
  tok ∈ toks → TestString (BuildBloom toks n) (ToLower tok) = true.
Proof.
  unfold BuildBloom. generalize (NewWithEstimates (if n <? 100 then 100 else n) (1 # 100)).
  induction toks as [|t toks IH]; intros bf Hin; [set_solver|]. cbn.
  apply elem_of_cons in Hin as [->|Hin]; [|by apply IH].
  apply add_all_mono, TestString_added.
Qed.

Lemma segment_bloom_covers es : covers (segment_bloom es) es.
Proof.
  intros e tok He Ht. apply BuildBloom_test. apply list_elem_of_bind. eauto.
Qed.

Lemma covers_message bf es e tok :
  covers bf es → e ∈ es → tok ∈ nonempty_pieces (ToLower (Message e)) → TestString bf tok = true.
Proof.
  intros Hc He Ht. rewrite <- (alnum_ToLower tok) by (by apply nonempty_pieces_alnum in Ht as [_ ?]).
  apply (Hc e); [done|]. unfold tokenizeEntry. set_solver.
Qed.

Lemma covers_attribute bf es e s :
  covers bf es → e ∈ es → s ∈ [Level e; Service e; Namespace e] →
  TestString bf (ToLower s) = true.
Proof.
  intros Hc He Hs. rewrite <- ToLower_idem. apply (Hc e); [done|].
  unfold tokenizeEntry. set_solver.
Qed.

(** A sidecar written without faults reads back, and only it and the temporary
    name are touched. *)
Lemma WriteBloom_done d path bf :
  no_faults d →
  WriteBloom path bf d =
    (Ok (), mkDisk (<[path := WriteTo bf]> (delete (path +:+ ".tmp") (files d))) (sched d)).
Proof.
  intros Hn. unfold WriteBloom, os_Create. io.
  unfold file_Write. io. rewrite lookup_insert_eq. cbn [default]. unfold id.
  change (write_at [] 0 (WriteTo bf)) with (write_at [] (length (@nil byte)) (WriteTo bf)).
  rewrite write_at_end. cbn [app]. unfold file_Sync, file_Close, os_Rename. io.
  rewrite insert_insert_eq, lookup_insert_eq. io. by rewrite delete_insert_eq.
Qed.

Lemma ReadBloom_done d path bf :
  no_faults d → files d !! path = Some (WriteTo bf) → ReadBloom path d = (Ok bf, d).
Proof.
  intros Hn Hf. unfold ReadBloom, os_Open. io. rewrite Hf. io. by rewrite ReadFrom_WriteTo.
Qed.
End bloom_lemmas.
