(* ===== verification/Paths.v ===== *)
(** * Segment file names

    What [manager.go] uses of [path/filepath], [fmt] and [strconv] to name
    segment files: [filepath.Join] and [Clean] on Unix, [Base], the verb [%020d]
    and [strconv.ParseUint(_, 10, 64)]. *)

From S2P Require Import Prelude GoStrings Bloom.

(** The elements of a path between its slashes. *)
Fixpoint path_elements (s : string) : list string :=
  match s with
  | "" => [""]
  | String c s' =>
    if bool_decide (c = "/"%char) then "" :: path_elements s'
    else match path_elements s' with
         | e :: es => String c e :: es
         | [] => [String c ""]
         end
  end.

(** The loop of [filepath.Clean]: [out] is what is kept so far, last first. *)
Definition clean_step (rooted : bool) (out : list string) (e : string) : list string :=
  if bool_decide (e = "") || bool_decide (e = ".") then out
  else if bool_decide (e = "..") then
    match out with
    | [] => if rooted then [] else [".."]
    | last :: out' => if bool_decide (last = "..") then ".." :: out else out'
    end
  else e :: out.

Definition is_rooted (path : string) : bool :=
  match path with String c _ => bool_decide (c = "/"%char) | "" => false end.

Definition clean_elements (path : string) : list string :=
  reverse (foldl (clean_step (is_rooted path)) [] (path_elements path)).

(** [strings.Join(l, "/")]. *)
Fixpoint join_slash (l : list string) : string :=
  match l with
  | [] => ""
  | [e] => e
  | e :: l' => e +:+ String "/" (join_slash l')
  end.

(** [filepath.Clean]. *)
Definition filepath_Clean (path : string) : string :=
  let out := clean_elements path in
  if is_rooted path then String "/" (join_slash out)
  else if bool_decide (out = []) then "." else join_slash out.

(** [filepath.Join(dir, name)]: empty leading elements are dropped. *)
Definition filepath_Join (dir name : string) : string :=
  if bool_decide (dir = "") then (if bool_decide (name = "") then "" else filepath_Clean name)
  else filepath_Clean (dir +:+ String "/" name).

(** [filepath.Base(path)] for a path that does not end in a slash. *)
Fixpoint filepath_Base (path : string) : string :=
  match path with
  | "" => ""
  | String c rest =>
    if string_elem "/" rest then filepath_Base rest
    else if decide (c = "/"%char) then rest else path
  end.

#[global] Strategy 100 [filepath_Clean].

Example Join_ex :
  filepath_Join "./data" "x" = "data/x" ∧ filepath_Join "/a//b/../c/" "x" = "/a/c/x" ∧
  filepath_Join "../a/../.." "x" = "../../x" ∧ filepath_Join "." "x" = "x" ∧ filepath_Join "data/" "" = "data".
Proof. done. Qed.

Definition digit (d : Z) : ascii := chr (48 + d).

(** The last [k] decimal digits of [n]. Every [uint64] is below [10^20], so
    [%020d] prints exactly [dec_digits 20 n]. *)
Fixpoint dec_digits (k : nat) (n : Z) : string :=
  match k with
  | O => ""
  | S k => dec_digits k (n / 10) +:+ String (digit (n mod 10)) ""
  end.

(** [fmt.Sprintf(segmentNameFmt, seq)]. *)
Definition segment_name (seq : Z) : string := dec_digits 20 seq +:+ ".seg".

(** [strconv.ParseUint(s, 10, 64)]. *)
Fixpoint parse_digits (acc : Z) (s : string) : option Z :=
  match s with
  | "" => Some acc
  | String c s' =>
    if in_range 48 57 (code c) then parse_digits (acc * 10 + (code c - 48)) s' else None
  end.

Definition ParseUint (s : string) : option Z :=
  if bool_decide (s = "") then None
  else match parse_digits 0 s with
       | Some n => if n <? 2 ^ 64 then Some n else None
       | None => None
       end.

(** [strings.HasSuffix]. *)
Definition HasSuffix (s suffix : string) : bool :=
  bool_decide (String.length suffix ≤ String.length s)%nat
  && bool_decide (String.substring (String.length s - String.length suffix)
                    (String.length suffix) s = suffix).

(** ** Lemmas *)

Lemma string_length_app s t : String.length (s +:+ t) = (String.length s + String.length t)%nat.
Proof. induction s as [|c s IH]; cbn; [done|]. by rewrite IH. Qed.

Lemma parse_digits_app acc s t :
  parse_digits acc (s +:+ t) = parse_digits acc s ≫= λ a, parse_digits a t.
Proof.
  revert acc. induction s as [|c s IH]; intros acc; cbn; [done|].
  case_match; [apply IH|done].
Qed.

Lemma parse_dec_digits k n acc :
  0 ≤ n → parse_digits acc (dec_digits k n) = Some (acc * 10 ^ Z.of_nat k + n mod 10 ^ Z.of_nat k).
Proof.
  revert n acc. induction k as [|k IH]; intros n acc Hn; cbn [dec_digits].
  - cbn. f_equal. rewrite Z.mod_1_r. lia.
  - rewrite parse_digits_app, IH by (apply Z.div_pos; lia). cbn [mbind option_bind parse_digits].
    pose proof (Z.mod_pos_bound n 10 ltac:(lia)).
    unfold digit. rewrite code_chr_small by lia.
    rewrite (proj2 (in_range_true _ _ _)) by lia. f_equal.
    rewrite Nat2Z.inj_succ, Z.pow_succ_r by lia.
    rewrite Z.rem_mul_r by lia. lia.
Qed.

Lemma length_dec_digits k n : String.length (dec_digits k n) = k.
Proof.
  revert n. induction k as [|k IH]; intros n; cbn [dec_digits]; [done|].
  rewrite string_length_app, IH. cbn. lia.
Qed.

Lemma ParseUint_digits n : 0 ≤ n < 2 ^ 64 → ParseUint (dec_digits 20 n) = Some n.
Proof.
  intros Hn. unfold ParseUint.
  rewrite bool_decide_false by (intros E; by pose proof (length_dec_digits 20 n) as Hl; rewrite E in Hl).
  rewrite parse_dec_digits by lia. rewrite Z.mod_small by lia.
  replace (0 * 10 ^ Z.of_nat 20 + n) with n by lia. by rewrite (proj2 (Z.ltb_lt _ _)) by lia.
Qed.

Lemma substring_app_l s t : String.substring 0 (String.length s) (s +:+ t) = s.
Proof. induction s as [|c s IH]; cbn; [by destruct t|]. by rewrite IH. Qed.

Lemma substring_all s : String.substring 0 (String.length s) s = s.
Proof. rewrite <- (string_app_nil_r s) at 2. apply substring_app_l. Qed.

Lemma substring_app_r s t : String.substring (String.length s) (String.length t) (s +:+ t) = t.
Proof. induction s as [|c s IH]; cbn; [apply substring_all|done]. Qed.

Lemma TrimSuffix_app s suf : TrimSuffix (s +:+ suf) suf = s.
Proof.
  unfold TrimSuffix. rewrite string_length_app.
  replace (String.length s + String.length suf - String.length suf)%nat with (String.length s) by lia.
  rewrite substring_app_r, !bool_decide_true by (done || lia). cbn. apply substring_app_l.
Qed.

Lemma HasSuffix_app s suf : HasSuffix (s +:+ suf) suf = true.
Proof.
  unfold HasSuffix. rewrite string_length_app.
  replace (String.length s + String.length suf - String.length suf)%nat with (String.length s) by lia.
  by rewrite substring_app_r, !bool_decide_true by (done || lia).
Qed.

Lemma string_elem_app c s t : string_elem c (s +:+ t) = string_elem c s || string_elem c t.
Proof. induction s as [|d s IH]; cbn; [done|]. rewrite IH. by rewrite orb_assoc. Qed.

(** A file name: one path element that [Clean] keeps. *)
Definition plain_name (name : string) : Prop :=
  name ≠ "" ∧ name ≠ "." ∧ name ≠ ".." ∧ string_elem "/" name = false.

(** What [Join] puts before a file name: nothing, or a clean path and a slash. *)
Definition dir_prefix (dir : string) : string :=
  (if is_rooted dir then "/" else "") +:+ concat_strings ((λ e, e +:+ "/") <$> clean_elements dir).

Lemma path_elements_plain s : string_elem "/" s = false → path_elements s = [s].
Proof.
  induction s as [|c s IH]; [done|]. cbn. intros [Hc%bool_decide_eq_false Hs]%orb_false_iff.
  rewrite bool_decide_false by congruence. by rewrite IH.
Qed.

Lemma path_elements_app s t : path_elements (s +:+ String "/" t) = path_elements s ++ path_elements t.
Proof.
  induction s as [|c s IH]; [done|]. cbn. rewrite IH. case_bool_decide; [done|].
  destruct (path_elements s) as [|e es] eqn:E; [|done].
  exfalso. revert E. destruct s as [|c' s]; cbn; [done|]. case_bool_decide; [done|]. by case_match.
Qed.

Lemma join_slash_snoc l name :
  join_slash (l ++ [name]) = concat_strings ((λ e, e +:+ "/") <$> l) +:+ name.
Proof.
  induction l as [|e l IH]; [done|]. cbn [app fmap list_fmap concat_strings].
  rewrite <- !string_app_assoc. cbn [String.append]. rewrite <- IH. by destruct l.
Qed.

Lemma clean_step_plain r out name : plain_name name → clean_step r out name = name :: out.
Proof. intros (? & ? & ? & _). unfold clean_step. by rewrite !bool_decide_false by done. Qed.

Lemma Join_plain dir name : plain_name name → filepath_Join dir name = dir_prefix dir +:+ name.
Proof.
  intros Hp. pose proof Hp as (Hne & _ & _ & Hs). unfold filepath_Join, dir_prefix.
  assert (is_rooted name = false) as Hr.
  { destruct name; [done|]. cbn in *. apply orb_false_iff in Hs as [?%bool_decide_eq_false _].
    apply bool_decide_false. congruence. }
  case_bool_decide as Hd; [subst dir|].
  - rewrite bool_decide_false by done. unfold filepath_Clean, clean_elements.
    rewrite Hr, path_elements_plain by done. cbn [foldl]. by rewrite clean_step_plain by done.
  - unfold filepath_Clean, clean_elements.
    assert (is_rooted (dir +:+ String "/" name) = is_rooted dir) as -> by (by destruct dir).
    rewrite path_elements_app, foldl_app, (path_elements_plain name) by done. cbn [foldl].
    rewrite clean_step_plain, reverse_cons, join_slash_snoc by done.
    destruct (is_rooted dir); [by cbn|]. rewrite bool_decide_false; [done|]. intros [_ ?]%app_nil. done.
Qed.

Lemma dir_prefix_slash dir : dir_prefix dir = "" ∨ ∃ s, dir_prefix dir = s +:+ "/".
Proof.
  unfold dir_prefix. set (l := clean_elements dir). destruct (decide (l = [])) as [->|Hl].
  { destruct (is_rooted dir); [right; by exists ""|by left]. }
  destruct (exists_last Hl) as (l' & e & ->). right. rewrite fmap_app, concat_strings_app. cbn.
  rewrite string_app_nil_r. eexists. by rewrite !string_app_assoc.
Qed.

Lemma Base_Join dir name : plain_name name → filepath_Base (filepath_Join dir name) = name.
Proof.
  intros Hp. rewrite Join_plain by done. destruct Hp as (Hn & _ & _ & Hs).
  destruct (dir_prefix_slash dir) as [-> |[s ->]]; cbn.
  - destruct name as [|c name]; [done|]. cbn in *. apply orb_false_iff in Hs as [Hc%bool_decide_eq_false Hs].
    rewrite Hs. by rewrite decide_False by congruence.
  - rewrite <- string_app_assoc. cbn. induction s as [|c s IH]; cbn.
    + by rewrite Hs.
    + rewrite string_elem_app. cbn. rewrite bool_decide_true, orb_true_r by done. exact IH.
Qed.

(** Joining a file name never gives the directory itself. *)
Lemma Join_ne_dir dir name : plain_name name → filepath_Join dir name ≠ filepath_Join dir "".
Proof.
  intros Hp. rewrite Join_plain by done. pose proof Hp as (Hne & Hdot & _ & Hs).
  unfold filepath_Join. case_bool_decide as Hd; [subst dir; by cbn|].
  unfold filepath_Clean, clean_elements, dir_prefix.
  assert (is_rooted (dir +:+ "/") = is_rooted dir) as -> by (by destruct dir).
  rewrite path_elements_app, foldl_app. cbn [path_elements foldl].
  assert (∀ r out, clean_step r out "" = out) as -> by done. fold (clean_elements dir).
  assert (∀ l, join_slash l ≠ concat_strings ((λ e, e +:+ "/") <$> l) +:+ name) as Hlong.
  { intros l. destruct (decide (l = [])) as [->|Hl]; [done|]. destruct (exists_last Hl) as (l' & e & ->).
    rewrite join_slash_snoc, fmap_app, concat_strings_app, <- string_app_assoc.
    intros E%(f_equal String.length). rewrite !string_length_app in E. cbn in E.
    rewrite string_app_nil_r, !string_length_app in E. cbn in E. lia. }
  destruct (is_rooted dir).
  - cbn. intros [= E]. by apply (Hlong (clean_elements dir)).
  - case_bool_decide as Hl; [by rewrite Hl|]. intros E. by apply (Hlong (clean_elements dir)).
Qed.

Lemma dec_digits_no_slash k n : string_elem "/" (dec_digits k n) = false.
Proof.
  revert n. induction k as [|k IH]; intros n; cbn [dec_digits]; [done|].
  rewrite string_elem_app, IH. cbn. rewrite orb_false_r.
  apply bool_decide_false. intros E%(f_equal code). unfold digit in E.
  pose proof (Z.mod_pos_bound n 10 ltac:(lia)). rewrite code_chr_small in E by lia.
  change (code "/"%char) with 47 in E. lia.
Qed.

Lemma segment_name_no_slash n : string_elem "/" (segment_name n) = false.
Proof. unfold segment_name. by rewrite string_elem_app, dec_digits_no_slash. Qed.

Lemma segment_name_nonempty n : segment_name n ≠ "".
Proof.
  intros E%(f_equal String.length). unfold segment_name in E.
  rewrite string_length_app, length_dec_digits in E. done.
Qed.

Lemma segment_name_plain n : plain_name (segment_name n).
Proof.
  assert (∀ s, (String.length s ≤ 2)%nat → segment_name n ≠ s) as Hlong.
  { intros s Hs <-. unfold segment_name in Hs. rewrite string_length_app, length_dec_digits in Hs. cbn in Hs. lia. }
  split_and!; [apply Hlong; cbn; lia..|]. apply segment_name_no_slash.
Qed.

(** The sequence number comes back from the path of a segment. *)
Lemma parse_segment_path dir n :
  0 ≤ n < 2 ^ 64 →
  ParseUint (TrimSuffix (filepath_Base (filepath_Join dir (segment_name n))) ".seg") = Some n.
Proof.
  intros Hn. rewrite Base_Join by apply segment_name_plain.
  unfold segment_name. rewrite TrimSuffix_app. by apply ParseUint_digits.
Qed.

Lemma segment_path_inj dir n n' :
  0 ≤ n < 2 ^ 64 → 0 ≤ n' < 2 ^ 64 →
  filepath_Join dir (segment_name n) = filepath_Join dir (segment_name n') → n = n'.
Proof.
  intros Hn Hn' E. pose proof (parse_segment_path dir n Hn) as H1.
  rewrite E, parse_segment_path in H1 by done. congruence.
Qed.
