(* ===== verification/Strconv.v ===== *)
(** * Decimal integers as text

    What the sources use of [strconv] for signed integers: [ParseInt(s, 10, 64)]
    and [Atoi], and the decimal text [AppendInt] writes, which is also how
    [encoding/json] writes integers and integer map keys. *)

From S2P Require Import Prelude GoStrings Bloom Paths.

(** The decimal digits of [n] without leading zeros; [fuel] bounds their number. *)
Fixpoint dec_go (fuel : nat) (n : Z) : string :=
  match fuel with
  | O => ""
  | S fuel => (if n <? 10 then "" else dec_go fuel (n / 10)) +:+ String (digit (n mod 10)) ""
  end.

(** [strconv.AppendInt(_, z, 10)]: an [int64] has at most nineteen digits. *)
Definition FormatInt (z : Z) : string :=
  if z <? 0 then String "-" (dec_go 20 (- z)) else dec_go 20 z.

(** [strconv.ParseInt(s, 10, 64)]: an optional sign and the digits of an
    [int64]; [None] is an error. [strconv.Atoi] accepts the same texts. *)
Definition ParseInt (s : string) : option Z :=
  let '(neg, digits) :=
    match s with
    | String c t =>
      if decide (c = "-"%char) then (true, t)
      else if decide (c = "+"%char) then (false, t) else (false, s)
    | "" => (false, s)
    end in
  match ParseUint digits with
  | None => None
  | Some un =>
    if neg then (if un <=? 2 ^ 63 then Some (- un) else None)
    else if un <? 2 ^ 63 then Some un else None
  end.

Definition Atoi : string → option Z := ParseInt.

Example FormatInt_ex : FormatInt (-1205) = "-1205".
Proof. reflexivity. Qed.
Example ParseInt_ex : ParseInt "+042" = Some 42 ∧ ParseInt "9223372036854775808" = None ∧ ParseInt "1_0" = None.
Proof. done. Qed.

(** ** Lemmas *)

Definition is_digit (c : ascii) : bool := in_range 48 57 (code c).

Lemma digit_is_digit d : 0 ≤ d < 10 → is_digit (digit d) = true.
Proof. intros. unfold is_digit, digit. rewrite code_chr_small by lia. apply in_range_true. lia. Qed.

Lemma code_digit d : 0 ≤ d < 10 → code (digit d) = 48 + d.
Proof. intros. unfold digit. by rewrite code_chr_small by lia. Qed.

Lemma dec_go_digits fuel n : 0 ≤ n → string_forallb is_digit (dec_go fuel n) = true.
Proof.
  revert n. induction fuel as [|fuel IH]; intros n Hn; [done|]. cbn [dec_go].
  rewrite string_forallb_app. cbn.
  rewrite digit_is_digit by (apply Z.mod_pos_bound; lia).
  destruct (n <? 10); [done|]. by rewrite IH by (apply Z.div_pos; lia).
Qed.

(** The text of a number starts with a digit, and with zero only for zero. *)
Lemma dec_go_head fuel n :
  0 ≤ n → ∃ d t, dec_go (S fuel) n = String (digit d) t ∧ 0 ≤ d < 10 ∧ string_forallb is_digit t = true
    ∧ (n < 10 ^ Z.of_nat (S fuel) → d = 0 → t = "" ∧ n = 0).
Proof.
  revert n. induction fuel as [|fuel IH]; intros n Hn.
  - cbn [dec_go]. destruct (n <? 10); cbn; exists (n mod 10), ""; repeat split;
      try (apply Z.mod_pos_bound; lia); try done; intros; rewrite Z.mod_small in *; lia.
  - cbn [dec_go]. fold (dec_go (S fuel) (n / 10)). destruct (Z.ltb_spec n 10).
    + exists (n mod 10), "". cbn. rewrite Z.mod_small by lia. repeat split; try lia; done.
    + destruct (IH (n / 10)) as (d & t & E & Hd & Ht & Hz); [apply Z.div_pos; lia|].
      cbn [dec_go] in E. rewrite E. cbn [String.append].
      exists d, (t +:+ String (digit (n mod 10)) ""). split; [done|]. split; [done|]. split.
      * rewrite string_forallb_app, Ht. cbn. rewrite digit_is_digit; [done|]. apply Z.mod_pos_bound; lia.
      * intros Hlt Hd0. exfalso. destruct Hz as [_ Hz0]; [|done|].
        -- apply Z.div_lt_upper_bound; [lia|]. rewrite <- Z.pow_succ_r by lia.
           by rewrite <- Nat2Z.inj_succ.
        -- Z.div_mod_to_equations. lia.
Qed.

Lemma parse_dec_go fuel n acc :
  0 ≤ n < 10 ^ Z.of_nat fuel → (0 < fuel)%nat →
  ∃ k, parse_digits acc (dec_go fuel n) = Some (acc * 10 ^ k + n) ∧ 0 ≤ k.
Proof.
  revert n acc. induction fuel as [|fuel IH]; intros n acc Hn Hf; [lia|]. cbn [dec_go].
  pose proof (Z.mod_pos_bound n 10 ltac:(lia)) as Hm.
  assert (in_range 48 57 (48 + n mod 10) = true) as Hr by (apply in_range_true; lia).
  destruct (Z.ltb_spec n 10).
  - exists 1. split; [|lia]. cbn. rewrite code_digit by lia. rewrite Hr.
    f_equal. rewrite Z.mod_small by lia. lia.
  - destruct (decide (fuel = 0%nat)) as [->|Hne]; [cbn in Hn; lia|].
    destruct (IH (n / 10) acc) as (k & E & Hk); [|lia|].
    { split; [apply Z.div_pos; lia|]. apply Z.div_lt_upper_bound; [lia|].
      rewrite <- Z.pow_succ_r by lia. rewrite <- Nat2Z.inj_succ. lia. }
    exists (k + 1). split; [|lia]. rewrite parse_digits_app, E. cbn. rewrite code_digit by lia.
    rewrite Hr. f_equal. rewrite Z.pow_add_r by lia. Z.div_mod_to_equations. lia.
Qed.

Lemma ParseUint_dec n : 0 ≤ n < 2 ^ 64 → ParseUint (dec_go 20 n) = Some n.
Proof.
  intros Hn. unfold ParseUint. destruct (dec_go_head 19 n) as (d & t & E & _); [lia|].
  rewrite bool_decide_false by (by rewrite E).
  destruct (parse_dec_go 20 n 0) as (k & -> & _); [cbn; lia|lia|].
  rewrite Z.mul_0_l, Z.add_0_l. by rewrite (proj2 (Z.ltb_lt _ _)) by lia.
Qed.

(** The text of an integer reads back as the integer. *)
Lemma ParseInt_FormatInt z : in_int64 z → ParseInt (FormatInt z) = Some z.
Proof.
  unfold in_int64. intros Hz. unfold ParseInt, FormatInt. destruct (Z.ltb_spec z 0).
  - rewrite decide_True by done. rewrite ParseUint_dec by lia.
    rewrite (proj2 (Z.leb_le _ _)) by lia. f_equal. lia.
  - destruct (dec_go_head 19 z) as (d & t & E & Hd & _); [lia|].
    pose proof (ParseUint_dec z ltac:(lia)) as Hp. rewrite E in Hp |- *.
    assert (∀ c, code c < 48 → digit d ≠ c) as Hne by (intros c Hc <-; rewrite code_digit in Hc; lia).
    rewrite !decide_False by (by apply Hne).
    rewrite Hp. by rewrite (proj2 (Z.ltb_lt _ _)) by lia.
Qed.

(** What is read is an [int64]. *)
Lemma ParseInt_range s z : ParseInt s = Some z → in_int64 z.
Proof.
  unfold ParseInt, ParseUint, in_int64. intros H.
  assert (∀ acc t v, 0 ≤ acc → parse_digits acc t = Some v → 0 ≤ v) as Hpos.
  { intros acc t. revert acc. induction t as [|c t IH]; intros acc v Ha E; cbn in E; [by simplify_eq|].
    destruct (in_range _ _ _) eqn:Er; [|done]. apply in_range_true in Er. eapply IH; [|done]. lia. }
  repeat case_match; simplify_eq; try done;
    repeat match goal with H : parse_digits 0 _ = Some _ |- _ => apply Hpos in H; [|lia] end; lia.
Qed.
