(* ===== verification/Json.v ===== *)
(** * JSON text ([encoding/json])

    The state machine's commands and snapshots are JSON. This file models what the
    sources use of [encoding/json]: the text [Marshal] writes for a tree of values, with
    the escapes of its string encoder; the scanner and string decoder behind [Unmarshal]
    and [Decoder.Decode]; and the rules by which an object is stored in a struct. *)

From S2P Require Import Prelude GoStrings Bloom Paths Strconv.

(** A JSON value. A number keeps its text, a string is decoded, an object keeps
    the order of its members. *)
Inductive json :=
  | JNull
  | JBool (b : bool)
  | JNumber (lit : string)
  | JString (s : string)
  | JArray (l : list json)
  | JObject (l : list (string * json)).

Definition dquote : ascii := "034".
Definition backslash : ascii := "092".

(** ** Writing *)

Definition hex_digit (d : Z) : string := String (if d <? 10 then digit d else chr (87 + d)) "".

(** [htmlSafeSet]: printable ASCII other than the quote, the backslash and the three
    characters of HTML. *)
Definition html_safe (r : Z) : bool :=
  (32 <=? r) && negb ((r =? 34) || (r =? 92) || (r =? 60) || (r =? 62) || (r =? 38)).

(** The escape of a backslash, quote or control character with a short form. *)
Definition short_escape (r : Z) : option ascii :=
  if r =? 92 then Some backslash else if r =? 34 then Some dquote
  else if r =? 8 then Some "b"%char else if r =? 12 then Some "f"%char
  else if r =? 10 then Some "n"%char else if r =? 13 then Some "r"%char
  else if r =? 9 then Some "t"%char else None.

(** One rune of [appendString]: an invalid byte is written as the escape of
    U+FFFD. *)
Definition quote_rune (k : Z * string) : string :=
  let '(r, b) := k in
  if r <? RuneSelf then
    if html_safe r then b
    else match short_escape r with
         | Some e => String backslash (String e "")
         | None => String backslash "u00" +:+ hex_digit (r / 16) +:+ hex_digit (r mod 16)
         end
  else if (r =? RuneError) && bool_decide (String.length b = 1%nat) then String backslash "ufffd"
  else if (r =? 0x2028) || (r =? 0x2029) then String backslash "u202" +:+ hex_digit (r mod 16)
  else b.

Definition quote_body (s : string) : string := concat_strings (quote_rune <$> chunks s).
Definition quote (s : string) : string :=
  String dquote (quote_body s +:+ String dquote "").

(** The elements of an array or object after its opening bracket. *)
Definition close_list (close : ascii) (l : list string) : string :=
  match l with
  | [] => String close ""
  | s :: l' => s +:+ concat_strings (String "," <$> l') +:+ String close ""
  end.

(** [json.Marshal] of a tree: no white space. *)
Fixpoint print (j : json) : string :=
  match j with
  | JNull => "null"
  | JBool true => "true"
  | JBool false => "false"
  | JNumber lit => lit
  | JString s => quote s
  | JArray l => String "[" (close_list "]" (print <$> l))
  | JObject l => String "{" (close_list "}" ((λ kv, quote kv.1 +:+ String ":" (print kv.2)) <$> l))
  end.

(** ** Reading *)

Definition json_space (c : ascii) : bool :=
  let z := code c in (z =? 32) || (z =? 9) || (z =? 13) || (z =? 10).

Fixpoint skip_ws (s : string) : string :=
  match s with
  | String c t => if json_space c then skip_ws t else s
  | "" => ""
  end.

Definition hex_value (r : Z) : option Z :=
  if in_range 48 57 r then Some (r - 48)
  else if in_range 97 102 r then Some (r - 87)
  else if in_range 65 70 r then Some (r - 55) else None.

Definition is_hex (c : ascii) : bool := bool_decide (is_Some (hex_value (code c))).

(** The characters that may follow a backslash, other than [u]. *)
Definition escape_value (r : Z) : option Z :=
  if (r =? 34) || (r =? 92) || (r =? 47) then Some r
  else if r =? 98 then Some 8 else if r =? 102 then Some 12
  else if r =? 110 then Some 10 else if r =? 114 then Some 13
  else if r =? 116 then Some 9 else None.

(** The scanner's string states: the text up to the closing quote, with its
    escapes checked and kept, and what follows. *)
Fixpoint string_body (s : string) : option (string * string) :=
  match s with
  | "" => None
  | String c t =>
    if decide (c = dquote) then Some ("", t)
    else if decide (c = backslash) then
      match t with
      | String e t1 =>
        if decide (e = "u"%char) then
          match t1 with
          | String h1 (String h2 (String h3 (String h4 t5))) =>
            if is_hex h1 && is_hex h2 && is_hex h3 && is_hex h4 then
              '(b, r) ← string_body t5;
              Some (String c (String e (String h1 (String h2 (String h3 (String h4 b))))), r)
            else None
          | _ => None
          end
        else match escape_value (code e) with
             | Some _ => '(b, r) ← string_body t1; Some (String c (String e b), r)
             | None => None
             end
      | "" => None
      end
    else if code c <? 32 then None
    else '(b, r) ← string_body t; Some (String c b, r)
  end.

(** [getu4]: the value of [\uXXXX] at the start of the runes. *)
Definition getu4 (l : list (Z * string)) : option (Z * list (Z * string)) :=
  match l with
  | (92, _) :: (117, _) :: (a, _) :: (b, _) :: (c, _) :: (d, _) :: l' =>
    a ← hex_value a; b ← hex_value b; c ← hex_value c; d ← hex_value d;
    Some (((a * 16 + b) * 16 + c) * 16 + d, l')
  | _ => None
  end.

(** [utf16.DecodeRune]. *)
Definition utf16_DecodeRune (r1 r2 : Z) : Z :=
  if in_range 0xD800 0xDBFF r1 && in_range 0xDC00 0xDFFF r2
  then (r1 - 0xD800) * 1024 + (r2 - 0xDC00) + 0x10000 else RuneError.

(** [unquote] over the runes of a scanned string; [fuel] is their number. *)
Fixpoint unquote_runes (fuel : nat) (l : list (Z * string)) : string :=
  match fuel with
  | O => ""
  | S fuel =>
    match l with
    | [] => ""
    | (r, _) :: l1 =>
      if r =? 92 then
        match getu4 l with
        | Some (rr, l2) =>
          if in_range 0xD800 0xDFFF rr then
            match getu4 l2 with
            | Some (rr1, l3) =>
              let dec := utf16_DecodeRune rr rr1 in
              if dec =? RuneError then encode_rune RuneError +:+ unquote_runes fuel l2
              else encode_rune dec +:+ unquote_runes fuel l3
            | None => encode_rune RuneError +:+ unquote_runes fuel l2
            end
          else encode_rune rr +:+ unquote_runes fuel l2
        | None =>
          match l1 with
          | (e, _) :: l2 => encode_rune (default e (escape_value e)) +:+ unquote_runes fuel l2
          | [] => ""
          end
        end
      else encode_rune r +:+ unquote_runes fuel l1
    end
  end.

Definition unquote (s : string) : string :=
  let l := chunks s in unquote_runes (length l) l.

(** Numbers: an optional minus, an integer without leading zeros, an optional
    fraction and exponent. *)
Fixpoint span_digits (s : string) : string * string :=
  match s with
  | String c t => if is_digit c then let '(a, b) := span_digits t in (String c a, b) else ("", s)
  | "" => ("", "")
  end.

Definition scan_int (s : string) : option (string * string) :=
  match s with
  | String c t =>
    if decide (c = "0"%char) then Some ("0", t)
    else if is_digit c then let '(a, b) := span_digits t in Some (String c a, b)
    else None
  | "" => None
  end.

Definition digits1 (s : string) : option (string * string) :=
  let '(a, b) := span_digits s in if bool_decide (a = "") then None else Some (a, b).

Definition scan_frac (s : string) : option (string * string) :=
  match s with
  | String c t =>
    if decide (c = "."%char) then '(a, b) ← digits1 t; Some (String c a, b) else Some ("", s)
  | "" => Some ("", "")
  end.

Definition scan_exp (s : string) : option (string * string) :=
  match s with
  | String e t =>
    if bool_decide (e = "e"%char) || bool_decide (e = "E"%char) then
      let '(sign, t) :=
        match t with
        | String c u =>
          if bool_decide (c = "+"%char) || bool_decide (c = "-"%char) then (String c "", u) else ("", t)
        | "" => ("", t)
        end in
      '(a, b) ← digits1 t; Some (String e (sign +:+ a), b)
    else Some ("", s)
  | "" => Some ("", "")
  end.

Definition scan_number (s : string) : option (string * string) :=
  let '(sign, s) :=
    match s with
    | String c t => if decide (c = "-"%char) then ("-", t) else ("", s)
    | "" => ("", s)
    end in
  '(i, s) ← scan_int s; '(f, s) ← scan_frac s; '(e, s) ← scan_exp s;
  Some (sign +:+ i +:+ f +:+ e, s).

(** The text after a prefix. *)
Fixpoint strip_prefix (p s : string) : option string :=
  match p, s with
  | "", _ => Some s
  | String a p', String b s' => if decide (a = b) then strip_prefix p' s' else None
  | String _ _, "" => None
  end.

(** What follows a given character after white space. *)
Definition eat (c : ascii) (s : string) : option string :=
  match skip_ws s with
  | String d t => if decide (d = c) then Some t else None
  | "" => None
  end.

Definition maxNestingDepth : Z := 10000.

(** The values [scanner] accepts, as trees: a value, the elements of an array after
    its bracket, the members of an object after its brace. *)
Fixpoint parse_value (fuel : nat) (depth : Z) (s : string) : option (json * string) :=
  match fuel with
  | O => None
  | S fuel =>
    match skip_ws s with
    | "" => None
    | String c t as s =>
      if decide (c = dquote) then '(b, t) ← string_body t; Some (JString (unquote b), t)
      else if decide (c = "["%char) then
        if maxNestingDepth <=? depth then None else
        match eat "]" t with
        | Some t => Some (JArray [], t)
        | None => '(l, t) ← parse_elems fuel (depth + 1) t; Some (JArray l, t)
        end
      else if decide (c = "{"%char) then
        if maxNestingDepth <=? depth then None else
        match eat "}" t with
        | Some t => Some (JObject [], t)
        | None => '(l, t) ← parse_members fuel (depth + 1) t; Some (JObject l, t)
        end
      else if bool_decide (c = "-"%char) || is_digit c then
        '(lit, t) ← scan_number s; Some (JNumber lit, t)
      else match strip_prefix "null" s with
           | Some t => Some (JNull, t)
           | None =>
             match strip_prefix "true" s with
             | Some t => Some (JBool true, t)
             | None => t ← strip_prefix "false" s; Some (JBool false, t)
             end
           end
    end
  end
with parse_elems (fuel : nat) (depth : Z) (s : string) : option (list json * string) :=
  match fuel with
  | O => None
  | S fuel =>
    '(v, t) ← parse_value fuel depth s;
    match eat "," t with
    | Some t => '(l, t) ← parse_elems fuel depth t; Some (v :: l, t)
    | None => t ← eat "]" t; Some ([v], t)
    end
  end
with parse_members (fuel : nat) (depth : Z) (s : string) : option (list (string * json) * string) :=
  match fuel with
  | O => None
  | S fuel =>
    t ← eat dquote s; '(b, t) ← string_body t;
    t ← eat ":" t; '(v, t) ← parse_value fuel depth t;
    match eat "," t with
    | Some t => '(l, t) ← parse_members fuel depth t; Some ((unquote b, v) :: l, t)
    | None => t ← eat "}" t; Some ([(unquote b, v)], t)
    end
  end.

Definition parse_fuel (s : string) : nat := 2 * String.length s + 2.

(** The first value of a stream ([Decoder.Decode]) and what follows it. *)
Definition parse_first (s : string) : option (json * string) := parse_value (parse_fuel s) 0 s.

(** A document that is one value ([Unmarshal]). *)
Definition parse (s : string) : option json :=
  '(v, t) ← parse_first s; if bool_decide (skip_ws t = "") then Some v else None.

(** ** Storing in Go values *)

(** [null] leaves a string or an integer alone; another type is an error. *)
Definition decode_string (j : json) (cur : string) : option string :=
  match j with JString s => Some s | JNull => Some cur | _ => None end.

Definition decode_int64 (j : json) (cur : Z) : option Z :=
  match j with JNumber lit => ParseInt lit | JNull => Some cur | _ => None end.

(** A slice of integers. *)
Definition decode_ints (j : json) : option (list Z) :=
  match j with
  | JNull => Some []
  | JArray l => mapM (λ v, decode_int64 v 0) l
  | _ => None
  end.

(** A map: the members are added to the map that is there, each from the zero
    value of its type; [null] makes the map nil. *)
Definition decode_map {K} `{Countable K} {A} (key : string → option K) (value : json → option A)
    (j : json) (cur : gmap K A) : option (gmap K A) :=
  match j with
  | JNull => Some ∅
  | JObject l =>
    foldl (λ acc kv, m ← acc; k ← key kv.1; v ← value kv.2; Some (<[k := v]> m)) (Some cur) l
  | _ => None
  end.

(** [foldName]: the case folding of member names, as far as it can meet the
    ASCII letters of a field name: the small letters, the long s and the Kelvin
    sign. *)
Definition fold_rune (r : Z) : Z :=
  if in_range 97 122 r then r - 32 else if r =? 0x17F then 83 else if r =? 0x212A then 75 else r.
Definition fold_name (s : string) : list Z := fold_rune <$> runes s.

(** The field a member goes to: of its exact name, else of its folded name. *)
Definition find_field {D} (fields : list (string * D)) (name : string) : option D :=
  match list_find (λ f, f.1 = name) fields with
  | Some (_, f) => Some f.2
  | None => snd <$> (snd <$> list_find (λ f, fold_name f.1 = fold_name name) fields)
  end.

(** A struct: members in order, unknown ones skipped, [null] no change. *)
Definition decode_struct {A} (fields : list (string * (json → A → option A))) (j : json) (cur : A)
    : option A :=
  match j with
  | JNull => Some cur
  | JObject l =>
    foldl (λ acc kv, a ← acc;
             match find_field fields kv.1 with Some d => d kv.2 a | None => Some a end) (Some cur) l
  | _ => None
  end.

Definition json_int (z : Z) : json := JNumber (FormatInt z).

Definition dq (s : string) : string := String dquote (s +:+ String dquote "").

Example print_ex :
  print (JObject [("a", JArray [json_int 1; JNull]); ("<b>", JString "x
y")]) = concat_strings ["{"; dq "a"; ":[1,null],"; dq "\u003cb\u003e"; ":"; dq "x\ny"; "}"].
Proof. vm_compute. reflexivity. Qed.

Example parse_ex :
  parse (concat_strings [" { "; dq "k\u0041\ud83d\ude00\ud800"; " : [ -1.5e3 , true ] } "]) =
  Some (JObject [("kA" +:+ encode_rune 0x1F600 +:+ encode_rune RuneError,
                  JArray [JNumber "-1.5e3"; JBool true])]).
Proof. vm_compute. reflexivity. Qed.

Example parse_bad :
  parse "[1,]" = None ∧ parse "01" = None ∧ parse "[1] 2" = None ∧ parse "nul" = None.
Proof. vm_compute. done. Qed.

(** ** Values that are written faithfully *)

(** [utf8.ValidString]. *)
Definition valid_utf8 (s : string) : bool :=
  bool_decide (concat_strings (encode_rune <$> runes s) = s).

(** Strings are UTF-8, numbers are the text of an [int64], and a value at nesting
    depth [d] stays within the scanner's limit. *)
Fixpoint json_ok (d : Z) (j : json) : bool :=
  match j with
  | JNull | JBool _ => true
  | JNumber lit => match ParseInt lit with Some z => bool_decide (lit = FormatInt z) | None => false end
  | JString s => valid_utf8 s
  | JArray l => (d <? maxNestingDepth) && forallb (json_ok (d + 1)) l
  | JObject l => (d <? maxNestingDepth) && forallb (λ kv, valid_utf8 kv.1 && json_ok (d + 1) kv.2) l
  end.

Section json_ind.
Context (P : json → Prop).
Context (Hnull : P JNull) (Hbool : ∀ b, P (JBool b)) (Hnum : ∀ lit, P (JNumber lit)) (Hstr : ∀ s, P (JString s)).
Context (Harr : ∀ l, Forall P l → P (JArray l)).
Context (Hobj : ∀ l, Forall (λ kv, P kv.2) l → P (JObject l)).

Fixpoint json_induction (j : json) : P j :=
  match j with
  | JNull => Hnull
  | JBool b => Hbool b
  | JNumber lit => Hnum lit
  | JString s => Hstr s
  | JArray l =>
    Harr l ((fix go l := match l return Forall P l with
                         | [] => Forall_nil_2 _
                         | v :: l' => Forall_cons_2 P v l' (json_induction v) (go l')
                         end) l)
  | JObject l =>
    Hobj l ((fix go (l : list (string * json)) := match l return Forall (λ kv, P kv.2) l with
                         | [] => Forall_nil_2 _
                         | kv :: l' => Forall_cons_2 (λ kv, P kv.2) kv l' (json_induction kv.2) (go l')
                         end) l)
  end.
End json_ind.

(** ** Lemmas: strings *)

Lemma ascii_cases (P : Z → Prop) : Forall P (seqZ 0 128) → ∀ r, 0 ≤ r < RuneSelf → P r.
Proof. intros H r Hr. apply (proj1 (Forall_forall _ _) H). apply elem_of_seqZ. unfold RuneSelf in *. lia. Qed.

Definition prefixed (p : string) (o : option (string * string)) : option (string * string) :=
  '(b, r) ← o; Some (p +:+ b, r).

(** What the reader does with one rune as the writer leaves it. *)
Definition rune_reads (r : Z) : Prop :=
  (∀ t, string_body (quote_rune (r, encode_rune r) +:+ t)
        = prefixed (quote_rune (r, encode_rune r)) (string_body t)) ∧
  (∀ fuel t, unquote_runes (S fuel) (chunks (quote_rune (r, encode_rune r) +:+ t))
        = encode_rune r +:+ unquote_runes fuel (chunks t)) ∧
  (∀ t, (length (chunks t) < length (chunks (quote_rune (r, encode_rune r) +:+ t)))%nat).

Lemma chunks_ascii_app p t :
  is_ascii p = true → length (chunks (p +:+ t)) = (String.length p + length (chunks t))%nat.
Proof.
  induction p as [|c p IH]; [done|]. intros [Hc%Z.ltb_lt Hp]%andb_true_iff.
  cbn [String.append]. rewrite chunks_ascii_cons by done. cbn. by rewrite IH.
Qed.

Lemma quote_ascii_length r t :
  0 ≤ r < RuneSelf → (length (chunks t) < length (chunks (quote_rune (r, encode_rune r) +:+ t)))%nat.
Proof.
  revert r. apply (ascii_cases (λ r, (length (chunks t) < length (chunks (quote_rune (r, encode_rune r) +:+ t)))%nat)).
  apply (Forall_impl (λ r, is_ascii (quote_rune (r, encode_rune r)) = true ∧
                           (0 < String.length (quote_rune (r, encode_rune r)))%nat)).
  - apply (bool_decide_unpack _). vm_compute. done.
  - intros r [Ha Hl]. rewrite chunks_ascii_app by done. lia.
Qed.

Lemma string_body_short e v t :
  e ≠ "u"%char → escape_value (code e) = Some v →
  string_body (String backslash (String e t)) = prefixed (String backslash (String e "")) (string_body t).
Proof.
  intros He Hv. cbn [string_body]. rewrite decide_False, decide_True, decide_False, Hv by done.
  by destruct (string_body t) as [[]|].
Qed.

Lemma unquote_short fuel e v t :
  e ≠ "u"%char → escape_value (code e) = Some v →
  unquote_runes (S fuel) (chunks (String backslash (String e t))) = encode_rune v +:+ unquote_runes fuel (chunks t).
Proof.
  intros He Hv.
  assert (code e < RuneSelf) as Hlt.
  { unfold escape_value in Hv. unfold RuneSelf. repeat case_match; simplify_eq; lia. }
  rewrite chunks_ascii_cons by done. rewrite chunks_ascii_cons by done. cbn [unquote_runes].
  change (code backslash) with 92. rewrite Z.eqb_refl.
  assert (code e ≠ 117) as Hne.
  { intros E. apply He. by rewrite <- (chr_code e), E. }
  assert (∀ b l, getu4 ((92, b) :: (code e, String e "") :: l) = None) as ->.
  { intros. unfold getu4. destruct (code e) as [|p|p]; [done| |done].
    do 7 (destruct p as [p|p|]; try done). }
  by rewrite Hv.
Qed.

Definition hex_char (d : Z) : ascii := if d <? 10 then digit d else chr (87 + d).

Lemma hex_char_value d : 0 ≤ d < 16 → hex_value (code (hex_char d)) = Some d ∧ code (hex_char d) < RuneSelf.
Proof.
  intros Hd. unfold hex_char, hex_value, RuneSelf. destruct (Z.ltb_spec d 10).
  - rewrite code_digit by lia. ranges. split; [f_equal|]; lia.
  - rewrite code_chr_small by lia. ranges. split; [f_equal|]; lia.
Qed.

(** The text of an escape by code point. *)
Definition u_escape (a b c d : Z) : string :=
  String backslash (String "u" (String (hex_char a) (String (hex_char b)
    (String (hex_char c) (String (hex_char d) ""))))).

Section u_escape.
Context (a b c d : Z) (Ha : 0 ≤ a < 16) (Hb : 0 ≤ b < 16) (Hc : 0 ≤ c < 16) (Hd : 0 ≤ d < 16).

Lemma string_body_u t : string_body (u_escape a b c d +:+ t) = prefixed (u_escape a b c d) (string_body t).
Proof.
  unfold u_escape. cbn [string_body String.append]. rewrite decide_False, decide_True, decide_True by done.
  assert (∀ x, 0 ≤ x < 16 → is_hex (hex_char x) = true) as Hh.
  { intros x Hx. apply bool_decide_true. rewrite (proj1 (hex_char_value x Hx)). eauto. }
  rewrite !Hh by done. cbn [andb]. by destruct (string_body t) as [[]|].
Qed.

Lemma unquote_u fuel t (v := ((a * 16 + b) * 16 + c) * 16 + d) :
  in_range 0xD800 0xDFFF v = false →
  unquote_runes (S fuel) (chunks (u_escape a b c d +:+ t)) = encode_rune v +:+ unquote_runes fuel (chunks t).
Proof.
  intros Hv. unfold u_escape. cbn [String.append].
  rewrite !chunks_ascii_cons by (done || by apply hex_char_value). cbn [unquote_runes].
  change (code backslash) with 92. change (code "u") with 117. rewrite Z.eqb_refl. cbn [getu4].
  rewrite !(λ x H, proj1 (hex_char_value x H)) by done. cbn [mbind option_bind].
  fold v. by rewrite Hv.
Qed.
End u_escape.

(** The ASCII characters that are escaped. *)
Lemma rune_reads_escaped r :
  0 ≤ r < RuneSelf → html_safe r = false →
  (∀ t, string_body (quote_rune (r, encode_rune r) +:+ t)
        = prefixed (quote_rune (r, encode_rune r)) (string_body t)) ∧
  (∀ fuel t, unquote_runes (S fuel) (chunks (quote_rune (r, encode_rune r) +:+ t))
        = encode_rune r +:+ unquote_runes fuel (chunks t)).
Proof.
  intros Hr Hs. unfold quote_rune. rewrite (proj2 (Z.ltb_lt _ _)), Hs by lia.
  destruct (short_escape r) as [e|] eqn:He.
  - assert (e ≠ "u"%char ∧ escape_value (code e) = Some r) as [Hu Hv].
    { unfold short_escape in He.
      repeat match type of He with
      | (if ?x =? ?y then _ else _) = _ => destruct (Z.eqb_spec x y); [by simplify_eq|]
      end. done. }
    split; intros; [by eapply string_body_short|by eapply unquote_short].
  - change (String backslash "u00" +:+ hex_digit (r / 16) +:+ hex_digit (r mod 16))
      with (u_escape 0 0 (r / 16) (r mod 16)).
    unfold RuneSelf in Hr.
    assert (0 ≤ r / 16 < 16 ∧ 0 ≤ r mod 16 < 16) as [? ?] by (Z.div_mod_to_equations; lia).
    split; intros; [by apply string_body_u|]. rewrite unquote_u by (done || (apply in_range_false; Z.div_mod_to_equations; lia)).
    do 2 f_equal. Z.div_mod_to_equations. lia.
Qed.

Lemma string_body_plain b t :
  string_forallb (λ c, RuneSelf <=? code c) b = true → string_body (b +:+ t) = prefixed b (string_body t).
Proof.
  induction b as [|c b IH]; cbn; intros H.
  - by destruct (string_body t) as [[]|].
  - apply andb_true_iff in H as [Hc%Z.leb_le Hb]. unfold RuneSelf in Hc.
    rewrite !decide_False by (intros ->; by apply Hc).
    rewrite (proj2 (Z.ltb_ge _ _)) by lia. rewrite IH by done.
    by destruct (string_body t) as [[]|].
Qed.

Lemma encode_rune_high r :
  valid_rune r → RuneSelf ≤ r → string_forallb (λ c, RuneSelf <=? code c) (encode_rune r) = true.
Proof.
  unfold valid_rune, RuneSelf, MaxRune, encode_rune. intros [Hr Hs] Hl. unfold MaxRune.
  ranges; cbn; rewrite ?code_chr; repeat (apply andb_true_iff; split); try done; apply Z.leb_le;
    rewrite Z.mod_small; Z.div_mod_to_equations; lia.
Qed.

Lemma encode_rune_long r : valid_rune r → RuneSelf ≤ r → String.length (encode_rune r) ≠ 1%nat.
Proof. unfold valid_rune, RuneSelf, MaxRune, encode_rune. intros [Hr Hs] Hl. unfold MaxRune. ranges; done. Qed.

Lemma rune_reads_safe r : 0 ≤ r < RuneSelf → html_safe r = true → rune_reads r.
Proof.
  intros Hr Hs. split_and!; [..|intros; by apply quote_ascii_length]; intros;
    unfold quote_rune; rewrite (proj2 (Z.ltb_lt _ _)), Hs by lia;
    assert (encode_rune r = String (chr r) "") as -> by
      (unfold encode_rune; rewrite (proj2 (in_range_true _ _ _)); [done|unfold RuneSelf in *; lia]);
    assert (code (chr r) = r) as Hc by (apply code_chr_small; unfold RuneSelf in *; lia);
    unfold html_safe in Hs; cbn [String.append].
  - cbn [string_body]. rewrite !decide_False by (intros E; rewrite E in Hc; vm_compute in Hc; lia).
    rewrite Hc, (proj2 (Z.ltb_ge _ _)) by lia. by destruct (string_body t) as [[]|].
  - rewrite chunks_ascii_cons by lia. cbn [unquote_runes]. rewrite Hc, (proj2 (Z.eqb_neq _ _)) by lia.
    assert (encode_rune r = String (chr r) "") as -> by
      (unfold encode_rune; rewrite (proj2 (in_range_true _ _ _)); [done|unfold RuneSelf in *; lia]).
    done.
Qed.

Lemma line_separator_reads r : r = 0x2028 ∨ r = 0x2029 → rune_reads r.
Proof.
  intros Hr. unfold rune_reads.
  assert (quote_rune (r, encode_rune r) = u_escape 2 0 2 (r mod 16)) as -> by (by destruct Hr as [-> | ->]).
  assert (0 ≤ r mod 16 < 16) by (apply Z.mod_pos_bound; lia). split_and!; intros.
  - by apply string_body_u.
  - rewrite unquote_u by (done || by destruct Hr as [-> | ->]). by destruct Hr as [-> | ->].
  - rewrite chunks_ascii_app; [cbn; lia|by destruct Hr as [-> | ->]].
Qed.

Lemma rune_reads_valid r : valid_rune r → rune_reads r.
Proof.
  intros Hr. destruct (decide (r < RuneSelf)) as [Hl|Hh].
  { assert (0 ≤ r) by (destruct Hr; lia). pose proof (λ t, quote_ascii_length r t ltac:(lia)).
    destruct (html_safe r) eqn:Hs; [|split_and!; try done; by apply rune_reads_escaped].
    by apply rune_reads_safe. }
  destruct (decide (r = 0x2028 ∨ r = 0x2029)) as [|Hn]; [by apply line_separator_reads|].
  unfold rune_reads.
  assert (quote_rune (r, encode_rune r) = encode_rune r) as ->.
  { unfold quote_rune. rewrite (proj2 (Z.ltb_ge _ _)) by lia.
    rewrite (bool_decide_false (String.length _ = _)) by (apply encode_rune_long; [done|lia]).
    rewrite andb_false_r. by rewrite (proj2 (Z.eqb_neq r 0x2028)), (proj2 (Z.eqb_neq r 0x2029)) by tauto. }
  split_and!; intros.
  - apply string_body_plain, encode_rune_high; [done|lia].
  - rewrite chunks_encode by done. cbn [unquote_runes].
    rewrite (proj2 (Z.eqb_neq _ _)) by (unfold RuneSelf in *; lia). done.
  - rewrite chunks_encode by done. cbn. lia.
Qed.

(** The body of a written string, rune by rune. *)
Definition runes_body (rs : list Z) : string :=
  concat_strings ((λ r, quote_rune (r, encode_rune r)) <$> rs).

Lemma quote_body_valid s : valid_utf8 s = true → quote_body s = runes_body (runes s).
Proof.
  intros Hs%bool_decide_eq_true. unfold quote_body, runes_body. rewrite <- Hs at 1.
  pose proof (runes_valid s) as Hv. clear Hs.
  induction Hv as [|r rs Hr _ IH]; [done|]. cbn. rewrite chunks_encode by done. cbn. by f_equal.
Qed.

Lemma string_body_runes rs rest :
  Forall valid_rune rs → string_body (runes_body rs +:+ String dquote rest) = Some (runes_body rs, rest).
Proof.
  induction 1 as [|r rs Hr _ IH]; [done|]. unfold runes_body in *. cbn [fmap list_fmap concat_strings].
  rewrite <- string_app_assoc. rewrite (proj1 (rune_reads_valid r Hr)), IH. done.
Qed.

Lemma unquote_runes_body rs fuel :
  Forall valid_rune rs → (length (chunks (runes_body rs)) ≤ fuel)%nat →
  unquote_runes fuel (chunks (runes_body rs)) = concat_strings (encode_rune <$> rs).
Proof.
  intros Hrs. revert fuel. induction Hrs as [|r rs Hr _ IH]; intros fuel Hf; [by destruct fuel|].
  destruct (rune_reads_valid r Hr) as (_ & Hu & Hl).
  change (runes_body (r :: rs)) with (quote_rune (r, encode_rune r) +:+ runes_body rs) in *.
  specialize (Hl (runes_body rs)). destruct fuel as [|fuel]; [lia|].
  rewrite Hu. cbn. f_equal. apply IH. lia.
Qed.

(** A written string is read back. *)
Lemma string_reads s rest :
  valid_utf8 s = true →
  ∃ b, string_body (quote_body s +:+ String dquote rest) = Some (b, rest) ∧ unquote b = s.
Proof.
  intros Hs. exists (runes_body (runes s)). rewrite quote_body_valid by done.
  split; [apply string_body_runes, runes_valid|].
  unfold unquote. rewrite unquote_runes_body by (done || apply runes_valid).
  by apply bool_decide_eq_true in Hs.
Qed.

(** ** Lemmas: numbers *)

(** What may follow a number so that it ends there. *)
Definition stops (s : string) : bool :=
  match s with
  | "" => true
  | String c _ => negb (is_digit c || bool_decide (c = "."%char)
                        || bool_decide (c = "e"%char) || bool_decide (c = "E"%char))
  end.

Lemma span_digits_app a rest :
  string_forallb is_digit a = true → stops rest = true → span_digits (a +:+ rest) = (a, rest).
Proof.
  induction a as [|c a IH]; cbn; intros Ha Hr.
  - destruct rest as [|c rest]; [done|]. cbn in *. by destruct (is_digit c).
  - apply andb_true_iff in Ha as [-> Ha]. by rewrite IH.
Qed.

Lemma scan_frac_exp_stop rest :
  stops rest = true → scan_frac rest = Some ("", rest) ∧ scan_exp rest = Some ("", rest).
Proof.
  destruct rest as [|c rest]; [done|]. cbn.
  intros [[[_ Hd]%orb_false_iff He]%orb_false_iff HE]%negb_true_iff%orb_false_iff.
  rewrite He, HE. apply bool_decide_eq_false in Hd. by rewrite decide_False.
Qed.

Lemma scan_int_dec n rest :
  0 ≤ n < 2 ^ 64 → stops rest = true → scan_int (dec_go 20 n +:+ rest) = Some (dec_go 20 n, rest).
Proof.
  intros Hn Hr. destruct (dec_go_head 19 n) as (d & t & -> & Hd & Ht & Hz); [lia|].
  cbn [String.append scan_int]. case_decide as E.
  - assert (d = 0) as -> by (apply (f_equal code) in E; rewrite code_digit in E by done; change (code "0") with 48 in E; lia).
    by destruct Hz as [-> ->]; [cbn; lia|done|].
  - rewrite digit_is_digit by done. by rewrite span_digits_app.
Qed.

Lemma scan_number_int z rest :
  in_int64 z → stops rest = true → scan_number (FormatInt z +:+ rest) = Some (FormatInt z, rest).
Proof.
  unfold in_int64. intros Hz Hr. destruct (scan_frac_exp_stop rest Hr) as [Hf He].
  unfold scan_number, FormatInt. destruct (Z.ltb_spec z 0).
  - cbn [String.append]. rewrite decide_True by done. rewrite scan_int_dec by (done || lia).
    cbn. rewrite Hf. cbn. rewrite He. cbn. by rewrite string_app_nil_r.
  - destruct (dec_go_head 19 z) as (d & t & E & Hd & _); [lia|].
    pose proof (scan_int_dec z rest ltac:(lia) Hr) as Hs. rewrite E in Hs |- *. cbn [String.append] in Hs |- *.
    rewrite decide_False by (intros Ec%(f_equal code); rewrite code_digit in Ec by done; change (code "-") with 45 in Ec; lia).
    rewrite Hs. cbn. rewrite Hf. cbn. rewrite He. cbn. by rewrite string_app_nil_r.
Qed.

(** The first character of the text of an integer. *)
Lemma FormatInt_head z :
  in_int64 z → ∃ c t, FormatInt z = String c t ∧ (bool_decide (c = "-"%char) || is_digit c) = true.
Proof.
  intros Hz. unfold FormatInt. destruct (Z.ltb_spec z 0); [by eexists _, _|].
  destruct (dec_go_head 19 z) as (d & t & E & Hd & _); [lia|]. eexists _, _. split; [done|].
  by rewrite digit_is_digit, orb_true_r.
Qed.

(** ** Lemmas: values *)

Lemma eat_here c t : json_space c = false → eat c (String c t) = Some t.
Proof. intros Hc. unfold eat. cbn. rewrite Hc. by rewrite decide_True. Qed.

Lemma eat_other c c' t : json_space c = false → c ≠ c' → eat c' (String c t) = None.
Proof. intros Hc Hne. unfold eat. cbn. rewrite Hc. by rewrite decide_False. Qed.

Lemma digit_not_space c : is_digit c = true → json_space c = false ∧ c ≠ "]"%char.
Proof.
  unfold is_digit, json_space. intros Hc%in_range_true. split; [lia|].
  intros ->. by vm_compute in Hc; destruct Hc.
Qed.

(** The first character of a written value. *)
Lemma print_head d j :
  json_ok d j = true → ∃ c t, print j = String c t ∧ json_space c = false ∧ c ≠ "]"%char.
Proof.
  destruct j as [|[]|lit|s|l|l]; cbn; intros Hok; try (by eexists _, _; split_and!).
  destruct (ParseInt lit) as [z|] eqn:Hz; [|done]. apply bool_decide_eq_true in Hok as ->.
  destruct (FormatInt_head z) as (c & t & -> & [Hc|Hc]%orb_true_iff); [by eapply ParseInt_range|..];
    eexists _, _; (split; [done|]).
  - by apply bool_decide_eq_true in Hc as ->.
  - by apply digit_not_space.
Qed.

Lemma close_list_cons c s s' l :
  close_list c (s :: s' :: l) = s +:+ String "," (close_list c (s' :: l)).
Proof. cbn. by rewrite <- string_app_assoc. Qed.

Lemma stops_close c t : c = ","%char ∨ c = "]"%char ∨ c = "}"%char → stops (String c t) = true.
Proof. by intros [-> | [-> | ->]]. Qed.

(** [j], written anywhere a value may stand, is read as [j]. *)
Definition reads (j : json) : Prop :=
  ∀ d fuel rest, json_ok d j = true → (2 * String.length (print j) ≤ fuel)%nat → stops rest = true →
    parse_value fuel d (print j +:+ rest) = Some (j, rest).

Lemma elems_read v l :
  Forall reads (v :: l) → ∀ d fuel rest, forallb (json_ok d) (v :: l) = true →
  (2 * String.length (close_list "]" (print <$> v :: l)) ≤ fuel)%nat →
  parse_elems fuel d (close_list "]" (print <$> v :: l) +:+ rest) = Some (v :: l, rest).
Proof.
  revert v. induction l as [|w l IH]; intros v [Hv Hl]%Forall_cons d fuel rest [Hok Hoks]%andb_true_iff Hf.
  - cbn in Hf. rewrite string_length_app in Hf. cbn in Hf. destruct fuel as [|fuel]; [lia|].
    cbn [fmap list_fmap close_list concat_strings parse_elems]. rewrite <- string_app_assoc.
    cbn [String.append]. rewrite Hv by (done || lia). cbn [mbind option_bind].
    rewrite eat_other, eat_here by done. done.
  - rewrite !fmap_cons, close_list_cons in Hf |- *. rewrite string_length_app in Hf. cbn in Hf.
    destruct fuel as [|fuel]; [lia|]. cbn [parse_elems]. rewrite <- string_app_assoc. cbn [String.append].
    rewrite Hv by (done || lia). cbn [mbind option_bind]. rewrite eat_here by done.
    rewrite <- fmap_cons. rewrite IH; [done|done|done|]. rewrite fmap_cons. cbn. lia.
Qed.

(** The text of a member. *)
Definition print_member (kv : string * json) : string := quote kv.1 +:+ String ":" (print kv.2).

(** One member of an object. *)
Lemma member_read k v d fuel t :
  valid_utf8 k = true → json_ok d v = true → reads v → (2 * String.length (print v) ≤ fuel)%nat →
  stops t = true →
  parse_members (S fuel) d (print_member (k, v) +:+ t) =
    match eat "," t with
    | Some t => '(l, t) ← parse_members fuel d t; Some ((k, v) :: l, t)
    | None => t ← eat "}" t; Some ([(k, v)], t)
    end.
Proof.
  intros Hk Hok Hv Hf Ht. unfold print_member, quote. cbn [fst snd String.append].
  rewrite <- !string_app_assoc. cbn [String.append parse_members]. rewrite eat_here by done.
  cbn [mbind option_bind].
  destruct (string_reads k (String ":" (print v +:+ t)) Hk) as (b & -> & Hu). cbn [mbind option_bind].
  rewrite eat_here by done. cbn [mbind option_bind]. rewrite Hv by done. cbn [mbind option_bind]. by rewrite Hu.
Qed.

Lemma members_read kv l :
  Forall (λ kv, reads kv.2) (kv :: l) → ∀ d fuel rest,
  forallb (λ kv, valid_utf8 kv.1 && json_ok d kv.2) (kv :: l) = true →
  (2 * String.length (close_list "}" (print_member <$> kv :: l)) ≤ fuel)%nat →
  parse_members fuel d (close_list "}" (print_member <$> kv :: l) +:+ rest) = Some (kv :: l, rest).
Proof.
  revert kv. induction l as [|kv' l IH];
    intros [k v] [Hv Hl]%Forall_cons d fuel rest [[Hk Hok]%andb_true_iff Hoks]%andb_true_iff Hf;
    cbn in Hk, Hok, Hv.
  - cbn in Hf. rewrite !string_length_app in Hf. cbn in Hf. destruct fuel as [|fuel]; [lia|].
    cbn [fmap list_fmap close_list concat_strings]. rewrite <- !string_app_assoc. cbn [String.append].
    rewrite member_read by (done || lia). rewrite eat_other, eat_here by done. done.
  - rewrite !fmap_cons, close_list_cons in Hf |- *. rewrite string_length_app in Hf. cbn in Hf.
    rewrite string_length_app in Hf. cbn in Hf.
    destruct fuel as [|fuel]; [lia|]. rewrite <- string_app_assoc. cbn [String.append].
    rewrite member_read by (done || lia). rewrite eat_here by done.
    rewrite <- fmap_cons. rewrite IH; [done|done|done|]. rewrite fmap_cons. cbn. lia.
Qed.

Lemma parse_value_start fuel d c t :
  json_space c = false → parse_value (S fuel) d (String c t) =
      (if decide (c = dquote) then '(b, t) ← string_body t; Some (JString (unquote b), t)
       else if decide (c = "["%char) then
        if maxNestingDepth <=? d then None else
        match eat "]" t with
        | Some t => Some (JArray [], t)
        | None => '(l, t) ← parse_elems fuel (d + 1) t; Some (JArray l, t)
        end
      else if decide (c = "{"%char) then
        if maxNestingDepth <=? d then None else
        match eat "}" t with
        | Some t => Some (JObject [], t)
        | None => '(l, t) ← parse_members fuel (d + 1) t; Some (JObject l, t)
        end
      else if bool_decide (c = "-"%char) || is_digit c then
        '(lit, t) ← scan_number (String c t); Some (JNumber lit, t)
      else match strip_prefix "null" (String c t) with
           | Some t => Some (JNull, t)
           | None =>
             match strip_prefix "true" (String c t) with
             | Some t => Some (JBool true, t)
             | None => t ← strip_prefix "false" (String c t); Some (JBool false, t)
             end
           end).
Proof. intros Hc. cbn [parse_value skip_ws]. by rewrite Hc. Qed.

Lemma number_reads lit : reads (JNumber lit).
Proof.
  intros d fuel rest Hok Hf Hs. cbn in Hok, Hf.
  destruct (ParseInt lit) as [z|] eqn:Hz; [|done]. apply bool_decide_eq_true in Hok as ->.
  apply ParseInt_range in Hz. pose proof (scan_number_int z rest Hz Hs) as Hn.
  destruct (FormatInt_head z Hz) as (c & t & E & Hc). cbn [print]. rewrite E in Hf, Hn |- *.
  cbn in Hf. destruct fuel as [|fuel]; [lia|]. cbn [String.append] in Hn |- *.
  assert (is_digit c = true ∨ c = "-"%char) as Hcase.
  { apply orb_true_iff in Hc as [Hc|Hc]; [right; by apply bool_decide_eq_true in Hc|by left]. }
  assert (json_space c = false) as Hsp.
  { destruct Hcase as [Hd| ->]; [by apply digit_not_space|done]. }
  rewrite parse_value_start by done.
  assert (∀ x, is_digit x = false → x ≠ "-"%char → c ≠ x) as Hne by (intros x Hx Hm ->; destruct Hcase; congruence).
  rewrite !decide_False by (by apply Hne). by rewrite Hc, Hn.
Qed.

(** Every value that is written faithfully is read back. *)
Lemma all_read j : reads j.
Proof.
  induction j as [|b|lit|s|l IH|l IH] using json_induction.
  - intros d [|fuel] rest _ Hf _; [cbn in Hf; lia|]. done.
  - intros d [|fuel] rest _ Hf _; [destruct b; cbn in Hf; lia|]. by destruct b.
  - apply number_reads.
  - intros d [|fuel] rest Hok Hf _; [cbn in Hf; lia|]. cbn [print]. unfold quote. cbn [String.append].
    rewrite parse_value_start by done. rewrite decide_True by done. rewrite <- string_app_assoc.
    destruct (string_reads s rest Hok) as (b & Hb & Hu). cbn [String.append]. rewrite Hb. cbn. by rewrite Hu.
  - intros d [|fuel] rest [Hd%Z.ltb_lt Hok]%andb_true_iff Hf Hs; [cbn in Hf; lia|]. cbn [print] in Hf |- *.
    cbn [String.append]. rewrite parse_value_start by done. rewrite decide_False, decide_True by done.
    rewrite (proj2 (Z.leb_gt _ _)) by lia. destruct l as [|v l]; [done|].
    pose proof Hok as Hok'. cbn in Hok'. apply andb_true_iff in Hok' as [Hv _].
    destruct (print_head _ _ Hv) as (c & t & E & Hsp & Hne).
    assert (eat "]" (close_list "]" (print <$> v :: l) +:+ rest) = None) as ->.
    { cbn. rewrite E. by apply eat_other. }
    rewrite elems_read; [done|done|done|]. cbn [String.length] in Hf. lia.
  - intros d [|fuel] rest [Hd%Z.ltb_lt Hok]%andb_true_iff Hf Hs; [cbn in Hf; lia|]. cbn [print] in Hf |- *.
    cbn [String.append]. rewrite parse_value_start by done. rewrite decide_False, decide_False, decide_True by done.
    rewrite (proj2 (Z.leb_gt _ _)) by lia. destruct l as [|kv l]; [done|].
    change (λ kv, quote kv.1 +:+ String ":" (print kv.2)) with print_member in *.
    assert (eat "}" (close_list "}" (print_member <$> kv :: l) +:+ rest) = None) as -> by done.
    rewrite members_read; [done|done|done|]. cbn [String.length] in Hf. lia.
Qed.

(** ** The fuel of the reader is enough

    Every function consumes text, so with [parse_fuel] a failure is a syntax error and never
    a lack of fuel. *)

Ltac bind_inv H :=
  repeat match type of H with
  | mbind _ ?o = Some _ =>
      let E := fresh "E" in destruct o as [?|] eqn:E; [cbn [mbind option_bind] in H|discriminate H]
  | (let '(_, _) := ?p in _) = Some _ => destruct p as [? ?]
  end.

Lemma skip_ws_length s : (String.length (skip_ws s) ≤ String.length s)%nat.
Proof. induction s as [|c s IH]; cbn; [done|]. destruct (json_space c); cbn; lia. Qed.

Lemma eat_length c s t : eat c s = Some t → (String.length t < String.length s)%nat.
Proof.
  unfold eat. intros H. pose proof (skip_ws_length s). destruct (skip_ws s) as [|d u]; [done|].
  case_decide; simplify_eq. cbn in *. lia.
Qed.

Lemma string_body_length s b t : string_body s = Some (b, t) → (String.length t < String.length s)%nat.
Proof.
  remember (String.length s) as n eqn:Hn. revert s b t Hn.
  induction (lt_wf n) as [n _ IH]. intros [|c s] b t -> H; [done|]. cbn [string_body] in H.
  assert (∀ u b' t', string_body u = Some (b', t') → (String.length u ≤ String.length s)%nat →
            (String.length t' < String.length (String c s))%nat) as Hu.
  { intros u b' t' Hu Hl. cbn. pose proof (IH (String.length u) ltac:(cbn; lia) u b' t' eq_refl Hu). lia. }
  repeat case_match; try done; bind_inv H; simplify_eq; try (by eapply Hu; [eassumption|cbn; lia]).
  cbn. lia.
Qed.

Lemma span_digits_length s a b : span_digits s = (a, b) → (String.length b ≤ String.length s)%nat.
Proof.
  revert a b. induction s as [|c s IH]; cbn; intros a b H; [by simplify_eq|].
  destruct (is_digit c); [|by simplify_eq]. destruct (span_digits s) as [a' b'] eqn:E. simplify_eq.
  specialize (IH _ _ eq_refl). lia.
Qed.

Lemma digits1_length s a b : digits1 s = Some (a, b) → (String.length b ≤ String.length s)%nat.
Proof.
  unfold digits1. destruct (span_digits s) as [a' b'] eqn:E. apply span_digits_length in E. case_bool_decide; naive_solver.
Qed.

Lemma scan_number_length s lit t : scan_number s = Some (lit, t) → (String.length t < String.length s)%nat.
Proof.
  unfold scan_number. intros H.
  destruct (match s with String c t => if decide (c = "-"%char) then ("-", t) else ("", s) | "" => ("", s) end)
    as [sign u] eqn:Hs.
  assert (String.length u ≤ String.length s)%nat as Hl by (repeat case_match; simplify_eq; cbn; lia).
  bind_inv H. simplify_eq.
  assert (∀ x a b, scan_int x = Some (a, b) → (String.length b < String.length x)%nat) as Hi.
  { intros [|c x] a b Hx; [done|]. cbn [scan_int] in Hx. case_decide; [simplify_eq; cbn; lia|].
    destruct (is_digit c); [|done]. destruct (span_digits x) as [] eqn:Ex. apply span_digits_length in Ex.
    simplify_eq. cbn. lia. }
  assert (∀ x a b, scan_frac x = Some (a, b) → (String.length b ≤ String.length x)%nat) as Hf.
  { intros [|c x] a b Hx; cbn [scan_frac] in Hx; [by simplify_eq|]. case_decide; [|by simplify_eq].
    destruct (digits1 x) as [[]|] eqn:Ex; [|done]. apply digits1_length in Ex. cbn in Hx. simplify_eq. cbn. lia. }
  assert (∀ x a b, scan_exp x = Some (a, b) → (String.length b ≤ String.length x)%nat) as He.
  { intros [|c x] a b Hx; cbn [scan_exp] in Hx; [by simplify_eq|]. destruct (_ || _); [|by simplify_eq].
    destruct (match x with String _ _ => _ | "" => _ end) as [sg y] eqn:Hy.
    assert (String.length y ≤ String.length x)%nat by (repeat case_match; simplify_eq; cbn; lia).
    destruct (digits1 y) as [[]|] eqn:Ex; [|done]. apply digits1_length in Ex. cbn in Hx. simplify_eq. cbn. lia. }
  repeat match goal with
  | E : scan_int _ = _ |- _ => apply Hi in E
  | E : scan_frac _ = _ |- _ => apply Hf in E
  | E : scan_exp _ = _ |- _ => apply He in E
  end. lia.
Qed.

Lemma strip_prefix_length p s t :
  strip_prefix p s = Some t → (String.length t + String.length p = String.length s)%nat.
Proof.
  revert s t. induction p as [|a p IH]; intros [|b s] t H; cbn in *; simplify_eq; try done; try lia.
  case_decide; [|done]. apply IH in H. lia.
Qed.

(** Text is consumed by every value. *)
Lemma parse_length fuel :
  (∀ d s v t, parse_value fuel d s = Some (v, t) → (String.length t < String.length s)%nat) ∧
  (∀ d s l t, parse_elems fuel d s = Some (l, t) → (String.length t < String.length s)%nat) ∧
  (∀ d s l t, parse_members fuel d s = Some (l, t) → (String.length t < String.length s)%nat).
Proof.
  induction fuel as [|fuel (IHv & IHe & IHm)]; [done|].
  assert (∀ d s v t, parse_value (S fuel) d s = Some (v, t) → (String.length t < String.length s)%nat) as Hv.
  { intros d s v t H. cbn [parse_value] in H. pose proof (skip_ws_length s) as Hs.
    destruct (skip_ws s) as [|c u]; [done|]. eapply Nat.lt_le_trans; [|exact Hs]. clear Hs.
    repeat (case_decide || case_match; try discriminate H); bind_inv H; simplify_eq;
    repeat match goal with
    | E : string_body _ = Some _ |- _ => apply string_body_length in E
    | E : eat _ _ = Some _ |- _ => apply eat_length in E
    | E : parse_elems _ _ _ = Some _ |- _ => apply IHe in E
    | E : parse_members _ _ _ = Some _ |- _ => apply IHm in E
    | E : scan_number _ = Some _ |- _ => apply scan_number_length in E
    | E : strip_prefix _ _ = Some _ |- _ => apply strip_prefix_length in E
    end; cbn in *; lia. }
  split; [exact Hv|]. split; intros d s l t H; [cbn [parse_elems] in H|cbn [parse_members] in H];
    bind_inv H; destruct (eat "," _) eqn:Ec; bind_inv H; simplify_eq;
    repeat match goal with
    | E : string_body _ = Some _ |- _ => apply string_body_length in E
    | E : eat _ _ = Some _ |- _ => apply eat_length in E
    | E : parse_value _ _ _ = Some _ |- _ => apply IHv in E
    | E : parse_elems _ _ _ = Some _ |- _ => apply IHe in E
    | E : parse_members _ _ _ = Some _ |- _ => apply IHm in E
    end; lia.
Qed.

(** With at least [2 * length + 1] units the result does not depend on the fuel. *)
Lemma parse_enough fuel : ∀ fuel',
  (∀ d s, (2 * String.length s + 1 ≤ fuel)%nat → (2 * String.length s + 1 ≤ fuel')%nat →
     parse_value fuel d s = parse_value fuel' d s) ∧
  (∀ d s, (2 * String.length s + 2 ≤ fuel)%nat → (2 * String.length s + 2 ≤ fuel')%nat →
     parse_elems fuel d s = parse_elems fuel' d s) ∧
  (∀ d s, (2 * String.length s + 2 ≤ fuel)%nat → (2 * String.length s + 2 ≤ fuel')%nat →
     parse_members fuel d s = parse_members fuel' d s).
Proof.
  induction fuel as [|fuel IH]; intros [|fuel']; [split_and!; intros; lia..|].
  destruct (IH fuel') as (IHv & IHe & IHm). destruct (parse_length fuel') as (Lv & _ & _).
  split_and!; intros d s Hf Hf'.
  - cbn [parse_value]. pose proof (skip_ws_length s) as Hs. destruct (skip_ws s) as [|c u]; [done|].
    cbn in Hs. rewrite IHe, IHm by lia. done.
  - cbn [parse_elems]. rewrite IHv by lia.
    destruct (parse_value fuel' d s) as [[v t]|] eqn:Ev; [|done]. cbn [mbind option_bind].
    destruct (eat "," t) as [t'|] eqn:Et; [|done].
    apply Lv in Ev. apply eat_length in Et. by rewrite IHe by lia.
  - cbn [parse_members]. destruct (eat dquote s) as [t1|] eqn:E1; [|done]. cbn [mbind option_bind].
    destruct (string_body t1) as [[b t2]|] eqn:E2; [|done]. cbn [mbind option_bind].
    destruct (eat ":" t2) as [t3|] eqn:E3; [|done]. cbn [mbind option_bind].
    apply eat_length in E1, E3. apply string_body_length in E2. rewrite IHv by lia.
    destruct (parse_value fuel' d t3) as [[v t4]|] eqn:Ev; [|done]. cbn [mbind option_bind].
    destruct (eat "," t4) as [t5|] eqn:Et; [|done].
    apply Lv in Ev. apply eat_length in Et. by rewrite IHm by lia.
Qed.

Lemma parse_first_fuel s fuel : (parse_fuel s ≤ fuel)%nat → parse_value fuel 0 s = parse_first s.
Proof. unfold parse_first, parse_fuel. intros. apply (proj1 (parse_enough fuel _)); lia. Qed.

(** ** What is read is valid UTF-8 *)

Fixpoint strings_ok (j : json) : bool :=
  match j with
  | JString s => valid_utf8 s
  | JArray l => forallb strings_ok l
  | JObject l => forallb (λ kv, valid_utf8 kv.1 && strings_ok kv.2) l
  | _ => true
  end.

Lemma valid_utf8_encoded rs :
  Forall valid_rune rs → valid_utf8 (concat_strings (encode_rune <$> rs)) = true.
Proof. intros Hrs. apply bool_decide_true. by rewrite runes_concat_encode. Qed.

Lemma valid_utf8_ascii s : is_ascii s = true → valid_utf8 s = true.
Proof.
  intros Hs. apply bool_decide_true. unfold runes. induction s as [|c s IH]; [done|].
  apply andb_true_iff in Hs as [Hc%Z.ltb_lt Hs]. rewrite chunks_ascii_cons by done.
  rewrite !fmap_cons. cbn [concat_strings fst]. rewrite IH by done.
  pose proof (code_range c). unfold encode_rune. rewrite (proj2 (in_range_true _ _ _)) by (unfold RuneSelf in *; lia).
  by rewrite chr_code.
Qed.

(** Any integer is encoded as some valid rune. *)
Lemma encode_rune_some x : ∃ r, valid_rune r ∧ encode_rune x = encode_rune r.
Proof.
  destruct (decide (0 ≤ x ≤ MaxRune ∧ ¬ (0xD800 ≤ x ≤ 0xDFFF))) as [Hx|Hx]; [by exists x|].
  exists RuneError. split; [apply RuneError_valid|]. unfold encode_rune, MaxRune in *. ranges; done.
Qed.

Lemma unquote_runes_encoded fuel l :
  ∃ rs, Forall valid_rune rs ∧ unquote_runes fuel l = concat_strings (encode_rune <$> rs).
Proof.
  revert l. induction fuel as [|fuel IH]; intros l; [by exists []|].
  assert (∀ x l', ∃ rs, Forall valid_rune rs ∧
            encode_rune x +:+ unquote_runes fuel l' = concat_strings (encode_rune <$> rs)) as Hstep.
  { intros x l'. destruct (encode_rune_some x) as (r & Hr & ->). destruct (IH l') as (rs & Hrs & ->).
    exists (r :: rs). by split; [constructor|]. }
  cbn [unquote_runes]. destruct l as [|[r b] l1]; [by exists []|].
  destruct (r =? 92); [|apply Hstep]. destruct (getu4 _) as [[rr l2]|].
  - destruct (in_range 0xD800 0xDFFF rr); [|apply Hstep].
    destruct (getu4 l2) as [[rr1 l3]|]; [destruct (_ =? _)|]; apply Hstep.
  - destruct l1 as [|[e ?] l2]; [by exists []|apply Hstep].
Qed.

Lemma unquote_valid b : valid_utf8 (unquote b) = true.
Proof.
  unfold unquote. destruct (unquote_runes_encoded (length (chunks b)) (chunks b)) as (rs & Hrs & ->).
  by apply valid_utf8_encoded.
Qed.

Lemma parse_strings fuel :
  (∀ d s v t, parse_value fuel d s = Some (v, t) → strings_ok v = true) ∧
  (∀ d s l t, parse_elems fuel d s = Some (l, t) → forallb strings_ok l = true) ∧
  (∀ d s l t, parse_members fuel d s = Some (l, t) → forallb (λ kv, valid_utf8 kv.1 && strings_ok kv.2) l = true).
Proof.
  induction fuel as [|fuel (IHv & IHe & IHm)]; [done|]. split_and!; intros d s v t H.
  - cbn [parse_value] in H. destruct (skip_ws s) as [|c u]; [done|].
    repeat (case_decide || case_match; try discriminate H); bind_inv H; simplify_eq; try done;
      cbn; try apply unquote_valid; [by eapply IHe|by eapply IHm].
  - cbn [parse_elems] in H. bind_inv H. destruct (eat "," _); bind_inv H; simplify_eq; cbn;
      repeat match goal with
      | E : parse_value _ _ _ = Some _ |- _ => apply IHv in E as ->
      | E : parse_elems _ _ _ = Some _ |- _ => apply IHe in E as ->
      end; done.
  - cbn [parse_members] in H. bind_inv H. destruct (eat "," _); bind_inv H; simplify_eq; cbn;
      rewrite unquote_valid;
      repeat match goal with
      | E : parse_value _ _ _ = Some _ |- _ => apply IHv in E as ->
      | E : parse_members _ _ _ = Some _ |- _ => apply IHm in E as ->
      end; done.
Qed.

Lemma parse_valid s v : parse s = Some v → strings_ok v = true.
Proof.
  unfold parse, parse_first. intros H. bind_inv H. case_bool_decide; simplify_eq.
  by eapply (proj1 (parse_strings _)).
Qed.

(** ** Structs and maps *)

Lemma find_field_elem {D} (fields : list (string * D)) name d :
  find_field fields name = Some d → ∃ name', (name', d) ∈ fields.
Proof.
  unfold find_field. intros H.
  destruct (list_find (λ f, f.1 = name) fields) as [[i f]|] eqn:E; cbn in H.
  - simplify_eq. apply list_find_Some in E as [E _]. exists f.1. destruct f. by eapply list_elem_of_lookup_2.
  - destruct (list_find (λ f, fold_name f.1 = fold_name name) fields) as [[i f]|] eqn:E'; cbn in H; [|done]. simplify_eq.
    apply list_find_Some in E' as [E' _]. exists f.1. destruct f. by eapply list_elem_of_lookup_2.
Qed.

Lemma foldl_None {A B} (f : A → B → option A) (l : list B) : foldl (λ acc b, a ← acc; f a b) None l = None.
Proof. by induction l. Qed.

(** A property every field decoder keeps holds of the decoded struct. *)
Lemma decode_struct_inv {A} (P : A → Prop) (fields : list (string * (json → A → option A))) j cur a :
  Forall (λ f, ∀ j a a', strings_ok j = true → P a → f.2 j a = Some a' → P a') fields →
  strings_ok j = true → P cur → decode_struct fields j cur = Some a → P a.
Proof.
  intros Hf Hj Hcur. destruct j as [| | | | |l]; try done; [by intros [= <-]|]. cbn [decode_struct].
  cbn in Hj. revert cur Hcur. induction l as [|[k v] l IH]; intros cur Hcur; [by intros [= <-]|].
  apply andb_true_iff in Hj as [[_ Hv]%andb_true_iff Hl]. cbn [foldl mbind option_bind fst snd].
  destruct (find_field fields k) as [d|] eqn:E; [|by apply IH].
  apply find_field_elem in E as (k' & Hin).
  destruct (d v cur) as [cur'|] eqn:Ed.
  - apply IH; [done|]. by apply (proj1 (Forall_forall _ _) Hf _ Hin v cur).
  - by rewrite foldl_None.
Qed.

Lemma mapM_fmap_Some {A B} (f : B → option A) (g : A → B) (l : list A) :
  Forall (λ x, f (g x) = Some x) l → mapM f (g <$> l) = Some l.
Proof. induction 1 as [|x l Hx _ IH]; [done|]. cbn. rewrite Hx. cbn. by rewrite IH. Qed.

(** ** Round trip of documents *)

Lemma parse_first_print j rest :
  json_ok 0 j = true → stops rest = true → parse_first (print j +:+ rest) = Some (j, rest).
Proof.
  intros Hok Hs. unfold parse_first, parse_fuel. apply all_read; [done| |done].
  rewrite string_length_app. lia.
Qed.

Lemma parse_print_value j : json_ok 0 j = true → parse (print j) = Some j.
Proof.
  intros Hok. unfold parse. pose proof (parse_first_print j "" Hok ltac:(done)) as Hp.
  rewrite string_app_nil_r in Hp. by rewrite Hp.
Qed.

(** What [json.Marshal] writes for a tree of valid UTF-8 strings and [int64] numbers,
    nested at most ten thousand deep, [json.Unmarshal] reads back as the same tree. *)
Theorem json_roundtrip (j : json) : json_ok 0 j = true → parse (print j) = Some j.
Proof. apply parse_print_value. Qed.

Lemma json_roundtrip_witness :
  let j := JObject [("a<b", JArray [json_int (-7); JString "x
y"; JNull; JObject []]); ("n", JBool true)] in
  json_ok 0 j = true ∧ parse (print j) = Some j.
Proof.
  intros j. assert (json_ok 0 j = true) as H by (vm_compute; reflexivity).
  split; [exact H|]. exact (json_roundtrip j H).
Defined.
