(* ===== verification/Manager.v ===== *)
(** * The storage manager ([internal/storage/manager.go])

    The manager owns the data directory, the active segment, the list of
    segment paths (the active one last) and the bloom filters of closed
    segments. Every exported method holds the manager's mutex, so each is one
    step here. A method that would index an empty path list panics in Go; the
    model returns the error [panic_index] there, and the invariant [mgr_ok]
    rules it out. *)

From S2P Require Import Prelude GoStrings Types Record Disk Segment Bloom Paths.

Section manager.
Context `{GoUnicode} `{Protobuf} `{Bloom}.

(** [storage.Manager], its mutex aside. *)
Record Manager := mkManager {
  mdir : string;
  maxSegmentBytes : Z;
  active : option Segment;
  nextSeq : Z;
  paths : list string;
  nodeID : string;
  bloomEnabled : bool;
  blooms : gmap string BloomFilter;
}.

Definition with_active (a : option Segment) (m : Manager) : Manager :=
  mkManager (mdir m) (maxSegmentBytes m) a (nextSeq m) (paths m) (nodeID m) (bloomEnabled m) (blooms m).
Definition with_nextSeq (n : Z) (m : Manager) : Manager :=
  mkManager (mdir m) (maxSegmentBytes m) (active m) n (paths m) (nodeID m) (bloomEnabled m) (blooms m).
Definition with_paths (ps : list string) (m : Manager) : Manager :=
  mkManager (mdir m) (maxSegmentBytes m) (active m) (nextSeq m) ps (nodeID m) (bloomEnabled m) (blooms m).
Definition with_blooms (b : gmap string BloomFilter) (m : Manager) : Manager :=
  mkManager (mdir m) (maxSegmentBytes m) (active m) (nextSeq m) (paths m) (nodeID m) (bloomEnabled m) b.

Definition panic_index : GoError := ErrMsg "panic: index out of range".
Definition activeMarkerFile : string := "ACTIVE".

(** The path of the segment with a sequence number. *)
Definition seq_path (dir : string) (seq : Z) : string := filepath_Join dir (segment_name seq).

(** [openNewSegment]; a failure to write the marker is ignored. *)
Definition openNewSegment (m : Manager) : IO (Manager * result ()) :=
  let name := segment_name (nextSeq m) in
  let path := filepath_Join (mdir m) name in
  r ← OpenSegment path;
  match r with
  | Err e => mret (m, Err (ErrWrap "open new segment" e))
  | Ok seg =>
    let m := with_active (Some seg) m in
    let m := with_paths (paths m ++ [path]) m in
    let m := with_nextSeq (uint64 (nextSeq m + 1)) m in
    _ ← os_WriteFile (filepath_Join (mdir m) activeMarkerFile)
          (String.list_byte_of_string name);
    mret (m, Ok ())
  end.

(** The bloom step of [rotate]: best effort. *)
Definition write_segment_bloom (m : Manager) (closingPath : string) : IO Manager :=
  r ← ReadSegment closingPath;
  match r with
  | Err _ => mret m
  | Ok entries =>
    let bf := segment_bloom entries in
    r ← WriteBloom (BloomPath closingPath) bf;
    mret match r with
         | Ok _ => with_blooms (<[closingPath := bf]> (blooms m)) m
         | Err _ => m
         end
  end.

Definition rotate (m : Manager) : IO (Manager * result ()) :=
  match last (paths m), active m with
  | Some closingPath, Some seg =>
    r ← Segment_Close seg;
    let m := with_active (Some (closed_segment seg)) m in
    match r with
    | Err e => mret (m, Err (ErrWrap "close active segment before rotation" e))
    | Ok _ =>
      m ← (if bloomEnabled m then write_segment_bloom m closingPath else mret m);
      openNewSegment m
    end
  | _, _ => mret (m, Err panic_index)
  end.

(** The write that ends [appendLocked]. *)
Definition append_active (m : Manager) (data : list byte) : IO (Manager * result ()) :=
  match active m with
  | None => mret (m, Err panic_index)
  | Some seg =>
    '(seg', r) ← Segment_Append seg data;
    mret (with_active (Some seg') m, r)
  end.

(** Whether the record would push the active segment over the threshold. *)
Definition must_rotate (m : Manager) (seg : Segment) (data : list byte) : bool :=
  let recordSize := int64 (4 + len data) in
  maxSegmentBytes m <? int64 (Segment_Size seg + recordSize).

Definition appendLocked (m : Manager) (entry : LogEntry) : IO (Manager * result ()) :=
  match active m with
  | None => mret (m, Err (ErrMsg "append to closed manager"))
  | Some seg =>
    match marshalLogEntry entry with
    | Err e => mret (m, Err e)
    | Ok data =>
      if must_rotate m seg data then
        '(m, r) ← rotate m;
        match r with
        | Err e => mret (m, Err (ErrWrap "rotate segment" e))
        | Ok _ => append_active m data
        end
      else append_active m data
    end
  end.

Definition Append (m : Manager) (entry : LogEntry) : IO (Manager * result ()) :=
  appendLocked m entry.

Definition AppendWithPath (m : Manager) (entry : LogEntry) : IO (Manager * result string) :=
  '(m, r) ← appendLocked m entry;
  mret match r with
       | Err e => (m, Err e)
       | Ok _ => (m, match last (paths m) with Some p => Ok p | None => Err panic_index end)
       end.

Definition SegmentPaths (m : Manager) : list string := paths m.

(** [Close] *)
Definition Close (m : Manager) : IO (Manager * result ()) :=
  match active m with
  | None => mret (m, Ok ())
  | Some seg => r ← Segment_Close seg; mret (with_active None m, r)
  end.

Definition BloomFor (m : Manager) (segPath : string) : option BloomFilter := blooms m !! segPath.

Definition ListClosedSegments (m : Manager) : list string :=
  if decide (length (paths m) ≤ 1)%nat then [] else take (length (paths m) - 1) (paths m).

Definition RemapSegment (m : Manager) (oldPath newPath : string) : Manager :=
  let m := with_paths ((λ p, if bool_decide (p = oldPath) then newPath else p) <$> paths m) m in
  match blooms m !! oldPath with
  | Some bf => with_blooms (delete oldPath (<[newPath := bf]> (blooms m))) m
  | None => m
  end.

Definition DeleteSegment (m : Manager) (path : string) : Manager :=
  with_blooms (delete path (blooms m)) (with_paths (filter (λ p, p ≠ path) (paths m)) m).

(** [LoadSegment]: the new path goes before the active one. *)
Definition LoadSegment (m : Manager) (path : string) : IO (Manager * result ()) :=
  match last (paths m) with
  | None => mret (m, Err panic_index)
  | Some act =>
    let m := with_paths (take (length (paths m) - 1) (paths m) ++ [path] ++ [act]) m in
    if bloomEnabled m then
      r ← ReadBloom (BloomPath path);
      mret (match r with
            | Ok bf => with_blooms (<[path := bf]> (blooms m)) m
            | Err _ => m
            end, Ok ())
    else mret (m, Ok ())
  end.

Definition ActiveSegmentName (m : Manager) : string :=
  match last (paths m) with None => "" | Some p => filepath_Base p end.

Definition ActiveSegmentPath (m : Manager) : string :=
  match active m, last (paths m) with Some _, Some p => p | _, _ => "" end.

(** [nextSeqFromMatches]. *)
Definition path_seq (p : string) : option Z := ParseUint (TrimSuffix (filepath_Base p) ".seg").

Definition nextSeqFromMatches (matches : list string) : Z :=
  let maxSeq := foldl (λ mx p, match path_seq p with
                               | Some n => if mx <? n then n else mx
                               | None => mx
                               end) 0 matches in
  uint64 (maxSeq + 1).

(** [filepath.Glob(dir/*.seg)] followed by [sort.Strings]. *)
Definition in_dir_seg (dir p : string) : bool :=
  HasSuffix p ".seg" && bool_decide (filepath_Join dir (filepath_Base p) = p).

Definition glob_segments (dir : string) : IO (list string) := λ d,
  (merge_sort String.le (filter (λ p, in_dir_seg dir p = true) (elements (dom (files d)))), d).

(** [os.Stat] and [OpenSegment] where the path may be the directory itself,
    which [filepath.Join(dir, "")] is. *)
Definition stat_in (dir path : string) : IO (result Z) :=
  if bool_decide (path = filepath_Join dir "")
  then o ← syscall; mret match o with Done => Ok 4096 | Fault _ => Err os_ErrIO end
  else os_Stat path.

Definition open_in (dir path : string) : IO (result Segment) :=
  if bool_decide (path = filepath_Join dir "")
  then _ ← syscall; mret (Err (ErrWrap "open segment" (ErrMsg "is a directory")))
  else OpenSegment path.

(** The active segment according to the marker file, [""] if there is none. *)
Definition marked_active (dir : string) : IO string :=
  r ← os_ReadFile (filepath_Join dir activeMarkerFile);
  match r with
  | Err _ => mret ""
  | Ok data =>
    let candidate := filepath_Join dir (TrimSpace (String.string_of_list_byte data)) in
    r ← stat_in dir candidate;
    mret match r with Ok _ => candidate | Err _ => "" end
  end.

(** The active path moved to the end of the list. *)
Definition reorder (activePath : string) (matches : list string) : list string :=
  if negb (bool_decide (activePath = "")) && negb (bool_decide (matches = []))
     && negb (bool_decide (last matches = Some activePath))
  then filter (λ p, p ≠ activePath) matches ++ [activePath]
  else matches.

Fixpoint load_blooms (m : Manager) (closed : list string) : IO Manager :=
  match closed with
  | [] => mret m
  | p :: ps =>
    r ← ReadBloom (BloomPath p);
    load_blooms (match r with
                 | Ok bf => with_blooms (<[p := bf]> (blooms m)) m
                 | Err _ => m
                 end) ps
  end.

(** [NewManager], with the environment variable [BLOOM_ENABLED] and the option
    [WithNodeID] as arguments. *)
Definition NewManager (dir : string) (maxBytes : Z) (node : string) (bloom_env : bool)
    : IO (result Manager) :=
  o ← syscall;
  match o with
  | Fault _ => mret (Err (ErrWrap "create data dir" os_ErrIO))
  | Done =>
    matches ← glob_segments dir;
    marked ← marked_active dir;
    let activePath :=
      if bool_decide (marked = "") then default "" (last matches) else marked in
    let matches := reorder activePath matches in
    let m := mkManager dir maxBytes None (nextSeqFromMatches matches) matches node bloom_env ∅ in
    '(m, r) ← (if bool_decide (activePath = "") then openNewSegment m
               else r ← open_in dir activePath;
                    mret match r with
                         | Err e => (m, Err (ErrWrap "reopen active segment" e))
                         | Ok seg => (with_active (Some seg) m, Ok ())
                         end);
    match r with
    | Err e => mret (Err e)
    | Ok _ =>
      m ← (if bloomEnabled m
           then load_blooms m (take (length (paths m) - 1) (paths m))
           else mret m);
      mret (Ok m)
    end
  end.

(** ** Specification *)

(** The invariant of an open manager: the active segment is the last path and
    is in step with its file; paths are distinct and every file is well formed;
    the sequence numbers still to come are free; a bloom filter covers the
    closed segment it is filed under. *)
Record mgr_ok (m : Manager) (d : Disk) : Prop := {
  ok_active : ∃ seg bytes, active m = Some seg ∧ last (paths m) = Some (f_path (seg_file seg)) ∧
                seg_at d seg bytes;
  ok_nodup : NoDup (paths m);
  ok_files : ∀ p, p ∈ paths m → ∃ bytes es, files d !! p = Some bytes ∧ holds bytes es;
  ok_fresh : ∀ n, nextSeq m ≤ n < 2 ^ 64 →
    seq_path (mdir m) n ∉ paths m ∧ files d !! seq_path (mdir m) n = None;
  ok_seq : 0 ≤ nextSeq m < 2 ^ 64;
  ok_names : ∀ p, p ∈ paths m → HasSuffix p ".seg" = true;
  ok_blooms : ∀ p bf, blooms m !! p = Some bf →
    p ∈ paths m ∧ last (paths m) ≠ Some p ∧
    ∃ bytes es, files d !! p = Some bytes ∧ holds bytes es ∧ covers bf es;
}.

(** The log a manager stores: the entries of its segments, in path order. *)
Definition stored (m : Manager) (d : Disk) (es : list LogEntry) : Prop :=
  holds_all (files d) (paths m) es.

(** What an append needs: a storable entry, a sequence number to spare and a
    segment size far from the limits of [int64]. *)
Definition can_append (m : Manager) (e : LogEntry) (data : list byte) : Prop :=
  marshalLogEntry e = Ok data ∧ len data ≤ maxRecordSize ∧ nextSeq m + 1 < 2 ^ 64 ∧
  (∀ seg, active m = Some seg → seg_size seg + 4 + len data < 2 ^ 63).

(** A manager whose active segment is a closed handle. *)
Definition wedged (m : Manager) : Prop := ∃ seg, active m = Some seg ∧ f_off (seg_file seg) = None.

(** One append after the other, with the result of each. *)
Fixpoint append_each (m : Manager) (es : list LogEntry) : IO (Manager * list (result ())) :=
  match es with
  | [] => mret (m, [])
  | e :: es' => '(m, r) ← Append m e; '(m, rs) ← append_each m es'; mret (m, r :: rs)
  end.

(** Disks that agree on segment files. *)
Definition seg_agree (d d' : Disk) : Prop :=
  ∀ p, HasSuffix p ".seg" = true → files d' !! p = files d !! p.
End manager.

#[global] Arguments segment_name : simpl never.
#[global] Arguments seq_path : simpl never.
#[global] Arguments filepath_Join : simpl never.

(** ** Lemmas: file names *)

Lemma substring_app_skip s t n k :
  String.substring (String.length s + n) k (s +:+ t) = String.substring n k t.
Proof. induction s as [|c s IH]; cbn; done. Qed.

Lemma HasSuffix_skip s t suf :
  (String.length suf ≤ String.length t)%nat → HasSuffix (s +:+ t) suf = HasSuffix t suf.
Proof.
  intros Hl. unfold HasSuffix. rewrite string_length_app.
  replace (String.length s + String.length t - String.length suf)%nat
    with (String.length s + (String.length t - String.length suf))%nat by lia.
  rewrite substring_app_skip. f_equal. apply bool_decide_ext. lia.
Qed.

(** The marker's path ends in its name. *)
Lemma marker_suffixes dir suf :
  (String.length suf ≤ 6)%nat → HasSuffix (filepath_Join dir activeMarkerFile) suf = HasSuffix activeMarkerFile suf.
Proof. intros Hs. by rewrite Join_plain, HasSuffix_skip by (done || exact Hs). Qed.

Lemma marker_not_seg dir : HasSuffix (filepath_Join dir activeMarkerFile) ".seg" = false.
Proof. by rewrite marker_suffixes by (cbn; lia). Qed.

Lemma seq_path_seg dir n : HasSuffix (seq_path dir n) ".seg" = true.
Proof.
  unfold seq_path. rewrite Join_plain by apply segment_name_plain.
  unfold segment_name. rewrite string_app_assoc. apply HasSuffix_app.
Qed.

Lemma bloom_path_not_seg p : HasSuffix (BloomPath p) ".seg" = false.
Proof. unfold BloomPath. by rewrite HasSuffix_skip by (cbn; lia). Qed.

Lemma bloom_tmp_not_seg p : HasSuffix (BloomPath p +:+ ".tmp") ".seg" = false.
Proof. by rewrite HasSuffix_skip by (cbn; lia). Qed.

(** ** Lemmas: the invariant *)

Section manager_lemmas.
Context `{GoUnicodeLaws} `{ProtobufLaws} `{BloomLaws}.
Implicit Types (m : Manager) (d : Disk).

Lemma mgr_ok_agree m d d' : mgr_ok m d → seg_agree d d' → mgr_ok m d'.
Proof.
  intros [(seg & bytes & Ha & Hl & Hat) Hnd Hf Hfr Hsq Hnm Hb] Hag.
  assert (∀ p, p ∈ paths m → files d' !! p = files d !! p) as Hp by eauto.
  assert (f_path (seg_file seg) ∈ paths m) as Hin by (by apply last_Some_elem_of).
  split; [|done| | |done..|].
  - exists seg, bytes. split_and!; [done..|]. destruct Hat as (? & ? & ?).
    split_and!; [by rewrite Hp|done..].
  - intros p Hpin. rewrite Hp by done. by apply Hf.
  - intros n Hn. rewrite (Hag _ (seq_path_seg _ _)). by apply Hfr.
  - intros p bf Hbf. destruct (Hb p bf Hbf) as (? & ? & ?). by rewrite Hp.
Qed.

Lemma stored_agree m d d' es : mgr_ok m d → seg_agree d d' → stored m d es → stored m d' es.
Proof.
  intros Hok Hag. unfold stored. apply holds_all_ext. intros p Hp.
  apply Hag. by apply (ok_names _ _ Hok).
Qed.

(** The log of a manager that satisfies the invariant exists. *)
Lemma stored_exists m d : mgr_ok m d → ∃ es, stored m d es.
Proof.
  intros [_ _ Hf _ _ _ _]. unfold stored. induction (paths m) as [|p ps IH].
  - exists []. constructor.
  - destruct (Hf p ltac:(set_solver)) as (bytes & es & Hp & Hh).
    destruct IH as [es' Hes']; [intros; apply Hf; set_solver|].
    exists (es ++ es'). by eapply holds_all_cons.
Qed.

Lemma os_WriteFile_done d p data :
  no_faults d →
  os_WriteFile p data d = (Ok (), mkDisk (<[p := data]> (files d)) (sched d)).
Proof.
  intros Hn. unfold os_WriteFile, os_Create. io. unfold file_Write. io.
  rewrite lookup_insert_eq. cbn [default]. unfold id.
  change (write_at [] 0 data) with (write_at [] (length (@nil byte)) data).
  rewrite write_at_end. cbn [app]. unfold file_Close. io. by rewrite insert_insert_eq.
Qed.

(** Opening the next segment: an empty file at the end of the list. *)
Lemma openNewSegment_done m d :
  no_faults d → files d !! seq_path (mdir m) (nextSeq m) = None →
  let path := seq_path (mdir m) (nextSeq m) in
  let fs := <[filepath_Join (mdir m) activeMarkerFile :=
                String.list_byte_of_string (segment_name (nextSeq m))]> (<[path := []]> (files d)) in
  openNewSegment m d =
    ((mkManager (mdir m) (maxSegmentBytes m) (Some (mkSegment (mkFile path 0) 0))
        (uint64 (nextSeq m + 1)) (paths m ++ [path]) (nodeID m) (bloomEnabled m) (blooms m), Ok ()),
     mkDisk fs (sched d)).
Proof.
  intros Hn Hf path fs. unfold openNewSegment. fold (seq_path (mdir m) (nextSeq m)). io.
  pose proof (OpenSegment_done d (seq_path (mdir m) (nextSeq m)) Hn) as Ho.
  rewrite Hf in Ho. cbn in Ho. rewrite Ho. io.
  rewrite os_WriteFile_done by done. done.
Qed.

Lemma openNewSegment_ok m d m0 :
  no_faults d → mgr_ok m0 d → nextSeq m0 + 1 < 2 ^ 64 →
  mdir m = mdir m0 → paths m = paths m0 → nextSeq m = nextSeq m0 →
  (∀ p bf, blooms m !! p = Some bf → p ∈ paths m ∧
     ∃ bytes es, files d !! p = Some bytes ∧ holds bytes es ∧ covers bf es) →
  ∃ m' d', openNewSegment m d = ((m', Ok ()), d') ∧ no_faults d' ∧ mgr_ok m' d' ∧
    paths m' = paths m ++ [seq_path (mdir m) (nextSeq m)] ∧ maxSegmentBytes m' = maxSegmentBytes m ∧
    (∃ seg, active m' = Some seg ∧ seg_size seg = 0) ∧
    (∀ es, stored m0 d es → stored m' d' es) ∧
    (∀ q, q ∈ paths m0 → files d' !! q = files d !! q).
Proof.
  intros Hn Hok Hseq Hdir Hps Hns Hbl.
  destruct Hok as [Ha Hnd Hf Hfr Hsq Hnm _].
  destruct (Hfr (nextSeq m0)) as [Hnotin Hnofile]; [lia|].
  rewrite <- Hdir, <- Hns in Hnotin, Hnofile. rewrite <- Hps in Hnotin, Hnd, Hf, Hnm.
  set (path := seq_path (mdir m) (nextSeq m)) in *.
  set (marker := filepath_Join (mdir m) activeMarkerFile).
  assert (∀ p, HasSuffix p ".seg" = true → p ≠ marker) as Hmk.
  { intros p Hp ->. unfold marker in Hp. by rewrite marker_not_seg in Hp. }
  assert (HasSuffix path ".seg" = true) as Hpath by apply seq_path_seg.
  pose proof (openNewSegment_done m d Hn Hnofile) as Ho. cbn zeta in Ho.
  do 2 eexists. split; [exact Ho|]. split; [done|].
  assert (∀ p, p ∈ paths m →
    <[marker := String.list_byte_of_string (segment_name (nextSeq m))]> (<[path := []]> (files d)) !! p
    = files d !! p) as Hold.
  { intros p Hp. rewrite !lookup_insert_ne; [done|by intros <-|].
    apply not_eq_sym, Hmk. by apply Hnm. }
  assert (<[marker := String.list_byte_of_string (segment_name (nextSeq m))]> (<[path := []]> (files d)) !! path
    = Some []) as Hnew by (rewrite lookup_insert_ne, lookup_insert_eq; [done|by apply not_eq_sym, Hmk]).
  split; [|split; [done|]; split; [done|]; split; [by eexists|]; split; [|rewrite <- Hps; exact Hold]].
  - split; cbn.
    + exists (mkSegment (mkFile path 0) 0), []. split; [done|]. split; [apply last_snoc|].
      split; [exact Hnew|done].
    + apply NoDup_app. split_and!; [done| |apply NoDup_singleton]. set_solver.
    + intros p [Hp| ->%list_elem_of_singleton]%elem_of_app.
      * fold path marker. rewrite Hold by done. by apply Hf.
      * exists [], []. split; [exact Hnew|constructor].
    + intros n Hrange. unfold uint64, wrap_unsigned in Hrange. rewrite Z.mod_small in Hrange by lia.
      assert (seq_path (mdir m) n ≠ path) as Hne.
      { intros E. apply segment_path_inj in E; lia. }
      destruct (Hfr n) as [Hn1 Hn2]; [lia|]. rewrite <- Hdir in Hn1, Hn2. rewrite <- Hps in Hn1.
      split.
      * apply not_elem_of_app. split; [exact Hn1|]. by rewrite list_elem_of_singleton.
      * rewrite lookup_insert_ne by (apply not_eq_sym, Hmk, seq_path_seg).
        rewrite lookup_insert_ne by (by apply not_eq_sym). exact Hn2.
    + unfold uint64, wrap_unsigned. rewrite Z.mod_small by lia. lia.
    + intros p [Hp| ->%list_elem_of_singleton]%elem_of_app; [by apply Hnm|done].
    + intros p bf Hbf. destruct (Hbl p bf Hbf) as (Hp & bytes & es & ? & ? & ?).
      split; [apply elem_of_app; by left|]. split; [rewrite last_snoc; intros [= <-]; by apply Hnotin|].
      exists bytes, es. fold path marker. by rewrite Hold.
  - intros es Hes. unfold stored in *. cbn. rewrite <- (app_nil_r es).
    apply holds_all_app.
    + eapply holds_all_ext; [|by rewrite Hps]. exact Hold.
    + apply (holds_all_cons _ _ _ [] [] [] Hnew); constructor.
Qed.

(** The bloom step files the filter of the segment and writes its sidecar. *)
Lemma write_segment_bloom_done m d path bytes es :
  no_faults d → files d !! path = Some bytes → holds bytes es →
  write_segment_bloom m path d =
    (with_blooms (<[path := segment_bloom es]> (blooms m)) m,
     mkDisk (<[BloomPath path := WriteTo (segment_bloom es)]>
               (delete (BloomPath path +:+ ".tmp") (files d))) (sched d)).
Proof.
  intros Hn Hf Hh. unfold write_segment_bloom. io.
  rewrite (ReadSegment_holds d path bytes es) by done. io.
  rewrite WriteBloom_done by done. by io.
Qed.

(** A sidecar write touches no segment. *)
Lemma sidecar_agree d p data :
  seg_agree d (mkDisk (<[BloomPath p := data]> (delete (BloomPath p +:+ ".tmp") (files d))) (sched d)).
Proof.
  intros q Hq. cbn. rewrite lookup_insert_ne, lookup_delete_ne; [done| |];
    intros <-; by rewrite ?bloom_path_not_seg, ?bloom_tmp_not_seg in Hq.
Qed.

(** Rotation closes the active segment and opens an empty one after it. *)
Lemma rotate_ok m d :
  no_faults d → mgr_ok m d → nextSeq m + 1 < 2 ^ 64 →
  ∃ m' d', rotate m d = ((m', Ok ()), d') ∧ no_faults d' ∧ mgr_ok m' d' ∧
    paths m' = paths m ++ [seq_path (mdir m) (nextSeq m)] ∧
    maxSegmentBytes m' = maxSegmentBytes m ∧
    (∃ seg, active m' = Some seg ∧ seg_size seg = 0) ∧
    (∀ es, stored m d es → stored m' d' es) ∧
    (∀ q, q ∈ paths m → files d' !! q = files d !! q).
Proof.
  intros Hn Hok Hseq. pose proof Hok as [(seg & b & Ha & Hl & Hat) Hnd Hf Hfr Hsq Hnm Hb].
  set (ap := f_path (seg_file seg)) in *.
  assert (ap ∈ paths m) as Hin by by apply last_Some_elem_of.
  unfold rotate. rewrite Hl, Ha. io.
  rewrite (Segment_Close_done d seg (length b)) by (done || by destruct Hat as (_ & ? & _)). io.
  set (mc := with_active _ m). change (bloomEnabled mc) with (bloomEnabled m). destruct (bloomEnabled m).
  - destruct (Hf ap Hin) as (bytes & es & Hfile & Hh).
    rewrite (write_segment_bloom_done mc d ap bytes es) by done. io.
    pose proof (sidecar_agree d ap (WriteTo (segment_bloom es))) as Hag. set (d1 := mkDisk _ _) in *.
    destruct (openNewSegment_ok (with_blooms (<[ap := segment_bloom es]> (blooms mc)) mc) d1 m)
      as (m' & d' & Heq & Hn' & Hok' & Hp' & Hmax & Hact & Hst & Hkeep); [done| |done..| |].
    + by eapply mgr_ok_agree.
    + intros p bf Hbf. cbn in Hbf. change (p ∈ paths m ∧ ∃ bytes es, files d1 !! p = Some bytes
        ∧ holds bytes es ∧ covers bf es). destruct (decide (ap = p)) as [<-|Hne].
      * rewrite lookup_insert_eq in Hbf. simplify_eq. split; [done|].
        rewrite (Hag ap) by by apply Hnm. exists bytes, es.
        split_and!; [done..|]. apply segment_bloom_covers.
      * rewrite lookup_insert_ne in Hbf by done. destruct (Hb p bf Hbf) as (Hp & _ & Hc).
        split; [done|]. by rewrite (Hag p) by by apply Hnm.
    + exists m', d'. split_and!; try done.
      * intros es' Hes'. apply Hst. by eapply stored_agree.
      * intros q Hq. rewrite Hkeep by done. apply Hag. by apply Hnm.
  - io. apply (openNewSegment_ok mc); try done. intros p bf Hbf.
    destruct (Hb p bf Hbf) as (Hp & _ & Hc). done.
Qed.

(** Appending a record to the active segment adds one entry to the log. *)
Lemma append_active_ok m d es e data :
  no_faults d → mgr_ok m d → stored m d es →
  marshalLogEntry e = Ok data → len data ≤ maxRecordSize →
  (∀ seg, active m = Some seg → seg_size seg + 4 + len data < 2 ^ 63) →
  ∃ m' d', append_active m data d = ((m', Ok ()), d') ∧ no_faults d' ∧ mgr_ok m' d' ∧
    stored m' d' (es ++ [e]) ∧ paths m' = paths m ∧
    (∀ seg seg', active m = Some seg → active m' = Some seg' →
       seg_size seg' = seg_size seg + 4 + len data) ∧
    (∀ q, last (paths m) ≠ Some q → files d' !! q = files d !! q).
Proof.
  intros Hn Hok Hes Hm Hl Hbig. pose proof Hok as [(seg & b & Ha & Hla & Hat) Hnd Hf Hfr Hsq Hnm Hb].
  specialize (Hbig seg Ha). set (ap := f_path (seg_file seg)) in *.
  assert (ap ∈ paths m) as Hin by by apply last_Some_elem_of.
  destruct (Hf ap Hin) as (b' & es_a & Hfile & Hh).
  pose proof Hat as (Hfile' & _ & Hsize). fold ap in Hfile'. rewrite Hfile in Hfile'. simplify_eq.
  destruct (Segment_Append_done d seg data b Hn Hat) as (seg' & Happ & Hpath & Hat').
  { unfold maxRecordSize, MaxUint32 in *. lia. }
  { unfold len in *. rewrite length_app, frame_length. lia. }
  pose proof (holds_snoc b es_a e data Hh Hm Hl) as Hh'. fold ap in Happ, Hpath, Hat'.
  assert (∀ p, p ≠ ap → <[ap := b ++ frame data]> (files d) !! p = files d !! p) as Hne
    by (intros p Hp; by rewrite lookup_insert_ne).
  unfold append_active. rewrite Ha. io. rewrite Happ. io.
  do 2 eexists. split; [done|]. split; [done|]. split; [|split; [|split; [done|split]]].
  - split; [| done | | | done | done |]; cbn.
    + exists seg', (b ++ frame data). split_and!; [done| |exact Hat']. congruence.
    + intros p Hp. destruct (decide (p = ap)) as [->|Hpne].
      * rewrite lookup_insert_eq. eauto.
      * rewrite Hne by done. by apply Hf.
    + intros n Hr. destruct (Hfr n Hr) as [Hn1 Hn2]. split; [done|].
      rewrite Hne; [done|]. intros E. apply Hn1. by rewrite E.
    + intros p bf Hbf. destruct (Hb p bf Hbf) as (Hp & Hlast & Hc). split_and!; [done..|].
      rewrite Hne; [done|]. intros ->. congruence.
  - unfold stored in *. cbn. apply last_Some in Hla as [ps Hps]. rewrite Hps in Hes, Hnd |- *.
    apply NoDup_app in Hnd as (_ & Hnd & _).
    destruct (holds_all_snoc_inv _ _ _ b es_a _ Hfile Hh Hes) as (es1 & -> & Hes1).
    rewrite <- app_assoc. apply holds_all_app.
    + eapply holds_all_ext; [|done]. intros p Hp. apply Hne. intros ->. set_solver.
    + rewrite <- (app_nil_r (es_a ++ [e])). eapply holds_all_cons; [|exact Hh'|constructor].
      apply lookup_insert_eq.
  - intros seg0 seg1 [= <-] [= <-]. destruct Hat' as (_ & _ & ->).
    rewrite Hsize. unfold len. rewrite length_app, frame_length. lia.
  - intros q Hq. cbn [files]. apply Hne. intros ->. by apply Hq.
Qed.
End manager_lemmas.

Section manager_append.
Context `{GoUnicodeLaws} `{ProtobufLaws} `{BloomLaws}.
Implicit Types (m : Manager) (d : Disk).

Lemma must_rotate_spec m seg data :
  0 ≤ seg_size seg → len data ≤ maxRecordSize → seg_size seg + 4 + len data < 2 ^ 63 →
  must_rotate m seg data = (maxSegmentBytes m <? seg_size seg + 4 + len data).
Proof.
  intros H0' H1' H2'. unfold must_rotate, Segment_Size. cbv zeta.
  assert (0 ≤ len data) by (unfold len; lia). unfold maxRecordSize in *.
  rewrite (int64_small (4 + len data)) by (unfold in_int64; lia).
  rewrite int64_small by (unfold in_int64; lia). f_equal. lia.
Qed.

Lemma mgr_ok_active m d seg :
  mgr_ok m d → active m = Some seg →
  last (paths m) = Some (f_path (seg_file seg)) ∧ 0 ≤ seg_size seg.
Proof.
  intros [(seg' & b & Ha & Hl & (_ & _ & Hs)) _ _ _ _ _ _] Hseg. simplify_eq.
  split; [done|]. rewrite Hs. unfold len. lia.
Qed.

Lemma appendLocked_ok m d es e data :
  no_faults d → mgr_ok m d → stored m d es → can_append m e data →
  ∃ m' d' seg', appendLocked m e d = ((m', Ok ()), d') ∧ no_faults d' ∧ mgr_ok m' d' ∧
    stored m' d' (es ++ [e]) ∧ active m' = Some seg' ∧
    (paths m' = paths m ∨ paths m' = paths m ++ [seq_path (mdir m) (nextSeq m)]) ∧
    (seg_size seg' ≤ maxSegmentBytes m ∨ seg_size seg' = 4 + len data) ∧
    (∀ q, q ∈ paths m → last (paths m') ≠ Some q → files d' !! q = files d !! q).
Proof.
  intros Hn Hok Hes (Hm & Hl & Hseq & Hbig).
  pose proof (ok_active _ _ Hok) as (seg & b & Ha & Hla & Hat).
  destruct (mgr_ok_active m d seg Hok Ha) as [_ Hs0]. specialize (Hbig seg Ha).
  unfold appendLocked. rewrite Ha, Hm, must_rotate_spec by done.
  destruct (Z.ltb_spec (maxSegmentBytes m) (seg_size seg + 4 + len data)).
  - io. destruct (rotate_ok m d Hn Hok Hseq)
      as (m1 & d1 & -> & Hn1 & Hok1 & Hp1 & Hmax & (seg1 & Ha1 & Hz) & Hst1 & Hk1). io.
    destruct (append_active_ok m1 d1 es e data) as (m' & d' & -> & Hn' & Hok' & Hst' & Hp' & Hsz & Hk);
      [by auto..| |].
    { intros s Hs. simplify_eq. rewrite Hz. unfold maxRecordSize in *. lia. }
    pose proof (ok_active _ _ Hok') as (seg' & ? & Ha' & _).
    exists m', d', seg'. split_and!; try done; [right; congruence| |].
    + right. rewrite (Hsz seg1 seg') by done. lia.
    + intros q Hq Hlast. rewrite Hk by (by rewrite <- Hp'). by apply Hk1.
  - destruct (append_active_ok m d es e data) as (m' & d' & -> & Hn' & Hok' & Hst' & Hp' & Hsz & Hk);
      [by auto..| |].
    { intros s Hs. by simplify_eq. }
    pose proof (ok_active _ _ Hok') as (seg' & ? & Ha' & _).
    exists m', d', seg'. split_and!; try done; [by left| |].
    + left. rewrite (Hsz seg seg') by done. lia.
    + intros q _ Hlast. apply Hk. by rewrite <- Hp'.
Qed.

(** ** Properties *)


(** Segments respect the size threshold: after an append the active segment is at
    most [maxSegmentBytes] long, or it holds a single record that is larger. *)
Theorem append_size_bound (m : Manager) (d : Disk) (es : list LogEntry) (e : LogEntry)
    (data : list byte) :
  no_faults d → mgr_ok m d → stored m d es → can_append m e data →
  ∃ m' d' seg', Append m e d = ((m', Ok ()), d') ∧ active m' = Some seg' ∧
    (Segment_Size seg' ≤ maxSegmentBytes m ∨ Segment_Size seg' = 4 + len data).
Proof.
  intros Hn Hok Hes Hcan.
  destruct (appendLocked_ok m d es e data Hn Hok Hes Hcan)
    as (m' & d' & seg' & Heq & _ & _ & _ & Ha & _ & Hs & _).
  exists m', d', seg'. by unfold Append.
Qed.

(** A transferred segment can collide with the next rotation: [LoadSegment] does not
    advance the sequence counter, so after loading a file that bears the next sequence
    number, rotation reopens that file as the active segment, and the same path is in
    the list twice, as a closed segment and as the active one. *)
Theorem load_then_rotate_collides (m : Manager) (d : Disk) (act : string) (seg : Segment)
    (pos : nat) (bytes : list byte) :
  no_faults d → bloomEnabled m = false → active m = Some seg → f_off (seg_file seg) = Some pos →
  last (paths m) = Some act →
  files d !! seq_path (mdir m) (nextSeq m) = Some bytes →
  let p := seq_path (mdir m) (nextSeq m) in
  ∃ m1 m2 d2 seg2, LoadSegment m p d = ((m1, Ok ()), d) ∧ rotate m1 d = ((m2, Ok ()), d2) ∧
    p ∈ ListClosedSegments m2 ∧ active m2 = Some seg2 ∧ f_path (seg_file seg2) = p ∧
    seg_size seg2 = len bytes.
Proof.
  intros Hn Hb Ha Hpos Hl Hf p. unfold LoadSegment. rewrite Hl. cbn [with_paths bloomEnabled]. rewrite Hb.
  eexists _, _, _, _. split; [done|].
  unfold rotate. cbn [paths with_paths active]. rewrite app_assoc, last_snoc, Ha.
  io. rewrite (Segment_Close_done d seg pos) by done. io.
  cbn [bloomEnabled with_paths with_active]. rewrite Hb. io.
  unfold openNewSegment. cbn [mdir nextSeq with_paths with_active].
  pose proof (OpenSegment_done d p Hn) as Ho. unfold p, seq_path in Ho, Hf. rewrite Hf in Ho.
  io. rewrite Ho. io. rewrite os_WriteFile_done by done. io.
  split; [done|]. cbn [paths with_paths with_nextSeq with_active active].
  split; [|done]. unfold ListClosedSegments. cbn [paths with_paths with_nextSeq with_active].
  rewrite !length_app. cbn [length]. rewrite decide_False by lia.
  rewrite take_app_le by (rewrite !length_app; cbn; lia).
  rewrite take_ge by (rewrite !length_app; cbn; lia). unfold p, seq_path. set_solver.
Qed.

(** A rotation that fails leaves a closed active segment, with which a rotation fails. *)
Lemma rotate_wedged m d m' err d' seg :
  active m = Some seg → is_Some (last (paths m)) → rotate m d = ((m', Err err), d') → wedged m'.
Proof.
  intros Ha [cp Hl]. unfold rotate. rewrite Hl, Ha, bind_run.
  set (mc := with_active (Some (closed_segment seg)) m).
  assert (wedged mc) as Hmc by (by exists (closed_segment seg)).
  destruct (Segment_Close seg d) as [[[]|e] d1]; cbn [fst snd]; [|by intros [= <- _ _]]. rewrite bind_run.
  assert (wedged ((if bloomEnabled mc then write_segment_bloom mc cp else mret mc) d1).1) as Hb.
  { destruct (bloomEnabled mc); [|done]. unfold write_segment_bloom. rewrite bind_run.
    destruct (ReadSegment cp d1) as [[es|?] d2]; cbn [fst snd]; [|done]. rewrite bind_run.
    by destruct (WriteBloom _ _ d2) as [[?|?] d3]. }
  destruct ((if bloomEnabled mc then write_segment_bloom mc cp else mret mc) d1) as [m1 d2]. cbn [fst snd] in *.
  unfold openNewSegment. rewrite bind_run. destruct (OpenSegment _ d2) as [[seg'|e] d3]; cbn [fst snd].
  - by rewrite bind_run.
  - by intros [= <- _ _].
Qed.

Lemma wedged_append m e d :
  wedged m → ∃ m' err, Append m e d = ((m', Err err), d) ∧ wedged m'.
Proof.
  intros (seg & Ha & Hoff). assert (wedged m) as Hw by (by exists seg).
  unfold Append, appendLocked. rewrite Ha. destruct (marshalLogEntry e) as [data|err]; [|by eexists _, _].
  destruct (must_rotate m seg data).
  - unfold rotate. rewrite Ha. destruct (last (paths m)) as [cp|]; io; [|by eexists _, _].
    unfold Segment_Close, file_Close, on_open. rewrite Hoff. io. eexists _, _. split; [done|].
    by exists (closed_segment seg).
  - unfold append_active. rewrite Ha. io. unfold Segment_Append, file_WriteRecord.
    destruct (WriteRecord_chunks data) as [[|hdr [|payload [|]]]|err] eqn:Hc;
      try (by unfold WriteRecord_chunks in Hc; destruct (_ <? _)).
    + unfold file_Write. rewrite Hoff. io. eexists _, _. split; [done|]. by eexists.
    + io. eexists _, _. split; [done|]. by eexists.
Qed.

(** C35. A rotation that fails ends the writing: [rotate] closes the active segment before it
    opens the next one and keeps the closed handle when that fails, so from then on every
    append fails without touching the disk, on any disk, however healthy, and for any
    entries, until the process starts again. *)
Theorem failed_rotation_wedges (m : Manager) (d : Disk) (seg : Segment) (m' : Manager) (err : GoError) (d' : Disk) :
  active m = Some seg → is_Some (last (paths m)) → rotate m d = ((m', Err err), d') →
  ∀ es d1, ∃ m'' rs, append_each m' es d1 = ((m'', rs), d1) ∧
    length rs = length es ∧ Forall (λ r, is_ok r = false) rs.
Proof.
  intros Ha Hl Hr es. apply rotate_wedged with (seg := seg) in Hr as Hw; [|done..]. clear - Hw.
  revert m' Hw. induction es as [|e es IH]; intros m Hw d; cbn [append_each]; [by exists m, []|].
  destruct (wedged_append m e d Hw) as (m1 & err & E & Hw1). io. rewrite E. io.
  destruct (IH m1 Hw1 d) as (m2 & rs & E2 & Hlen & Hall). rewrite E2. io.
  exists m2, (Err err :: rs). split; [done|]. split; [cbn; by rewrite Hlen|]. by constructor.
Qed.
End manager_append.

(** ** Witnesses *)

Definition sample_path : string := seq_path "data" 1.
Definition sample_disk : Disk := mkDisk {[sample_path := []]} [].
Definition sample_manager : @Manager exact_bloom :=
  @mkManager exact_bloom "data" 1000 (Some (mkSegment (mkFile sample_path 0) 0)) 2
    [sample_path] "n1" false ∅.

Lemma sample_manager_ok :
  @mgr_ok ascii_tables bit_codec exact_bloom sample_manager sample_disk.
Proof.
  split; cbn.
  - exists (mkSegment (mkFile sample_path 0) 0), []. by split_and!.
  - apply NoDup_singleton.
  - intros p ->%list_elem_of_singleton. exists [], []. rewrite lookup_singleton_eq.
    split; [done|constructor].
  - intros n Hn. assert (sample_path ≠ seq_path "data" n) as Hne.
    { intros E. apply segment_path_inj in E; lia. }
    split; [by rewrite list_elem_of_singleton|]. by rewrite lookup_singleton_ne.
  - done.
  - intros p ->%list_elem_of_singleton. apply seq_path_seg.
  - intros p bf Hbf. by rewrite lookup_empty in Hbf.
Qed.

Lemma sample_stored : @stored bit_codec exact_bloom sample_manager sample_disk [].
Proof.
  apply (holds_all_cons _ _ _ [] [] []); [|constructor..]. cbn. by rewrite lookup_singleton_eq.
Qed.


Lemma append_size_bound_witness :
  let H1 := ascii_tables in let H2 := bit_codec in let H3 := exact_bloom in
  ∃ m' d' seg', Append sample_manager (sample_entry "a" "x" 5) sample_disk = ((m', Ok ()), d') ∧
    active m' = Some seg' ∧
    (Segment_Size seg' ≤ maxSegmentBytes sample_manager ∨
     Segment_Size seg' = 4 + len (bits_of_pos (encode (EntryToProto (sample_entry "a" "x" 5))))).
Proof.
  intros H1 H2 H3.
  apply (@append_size_bound ascii_tables ascii_tables_laws bit_codec bit_codec_laws exact_bloom
    exact_bloom_laws _ _ []).
  - done.
  - apply sample_manager_ok.
  - apply sample_stored.
  - split_and!; [reflexivity|vm_compute; discriminate|vm_compute; reflexivity|].
    intros seg [= <-]. vm_compute. reflexivity.
Defined.

Lemma load_then_rotate_collides_witness :
  let H1 := ascii_tables in let H2 := bit_codec in let H3 := exact_bloom in
  let d := mkDisk (<[seq_path "data" 2 := [x41]]> (files sample_disk)) [] in
  let p := seq_path (mdir sample_manager) (nextSeq sample_manager) in
  ∃ m1 m2 d2 seg2, LoadSegment sample_manager p d = ((m1, Ok ()), d) ∧
    rotate m1 d = ((m2, Ok ()), d2) ∧
    p ∈ ListClosedSegments m2 ∧ active m2 = Some seg2 ∧ f_path (seg_file seg2) = p ∧
    seg_size seg2 = len [x41].
Proof.
  intros H1 H2 H3 d.
  apply (@load_then_rotate_collides ascii_tables ascii_tables_laws bit_codec bit_codec_laws
    exact_bloom exact_bloom_laws sample_manager d sample_path
    (mkSegment (mkFile sample_path 0) 0) 0%nat [x41]); done.
Defined.

(** The next segment cannot be opened once; two appends on a disk without faults fail. *)
Lemma failed_rotation_wedges_witness :
  let H1 := ascii_tables in let H2 := bit_codec in let H3 := exact_bloom in
  let bad := mkDisk (files sample_disk) [Done; Fault 0] in
  let es := [sample_entry "a" "x" 5; sample_entry "b" "y" 6] in
  let m' := (rotate sample_manager bad).1.1 in
  (append_active sample_manager [x41] sample_disk).1.2 = Ok () ∧
  ∃ m'' rs, append_each m' es sample_disk = ((m'', rs), sample_disk) ∧
    length rs = length es ∧ Forall (λ r, is_ok r = false) rs.
Proof.
  intros H1 H2 H3 bad es m'. split; [vm_compute; reflexivity|].
  refine (@failed_rotation_wedges ascii_tables bit_codec exact_bloom
    sample_manager bad (mkSegment (mkFile sample_path 0) 0) m'
    (ErrWrap "open new segment" (ErrWrap "open segment" os_ErrIO)) (mkDisk (files sample_disk) []) _ _ _ es sample_disk).
  - reflexivity.
  - exact (mk_is_Some _ _ eq_refl).
  - reflexivity.
Defined.
