(* ===== verification/Executor.v ===== *)
(** * The local query executor ([internal/query/executor.go])

    [Execute] resolves candidate segments with the index, prunes them with the
    bloom filters, reads the rest, deduplicates, filters, sorts and pages. Its
    specification is a scan of everything stored; the refinement theorem says
    that index and filters only save reads. *)

From S2P Require Import Prelude GoStrings Types Record Disk Segment Ranking Index Parser Bloom.
From S2P Require Import Paths Manager.

Section executor.
Context `{GoUnicode} `{Protobuf} `{Bloom}.

(** [query.tokenize]: the copy of [index.tokenize] in this package. *)
Definition query_tokenize (s : string) : list string := nonempty_pieces (ToLower s).

Definition tokenSet (s : string) : gset string := list_to_set (query_tokenize s).

(** [matchField]; a missing key of [entry.Fields] reads as the empty string. *)
Definition matchField (entry : LogEntry) (field value : string) : bool :=
  let f := ToLower field in
  if bool_decide (f = "level") then EqualFold (Level entry) value
  else if bool_decide (f = "service") then bool_decide (Service entry = value)
  else if bool_decide (f = "namespace") then bool_decide (Namespace entry = value)
  else if bool_decide (f = "message") then bool_decide (ToLower value ∈ tokenSet (Message entry))
  else bool_decide (default "" (Fields entry !! field) = value).

Fixpoint matchesNode (entry : LogEntry) (node : Node) : bool :=
  match node with
  | AndNode l r => matchesNode entry l && matchesNode entry r
  | OrNode l r => matchesNode entry l || matchesNode entry r
  | TermNode t => bool_decide (t ∈ tokenSet (Message entry))
  | FieldNode f v => matchField entry f v
  end.

(** [matchesNode] on a possibly nil node. *)
Definition matches (entry : LogEntry) (ast : option Node) : bool :=
  match ast with None => true | Some n => matchesNode entry n end.

(** [bloomDefiniteMiss]. *)
Fixpoint bloomDefiniteMiss (bf : BloomFilter) (node : Node) : bool :=
  match node with
  | AndNode l r => bloomDefiniteMiss bf l || bloomDefiniteMiss bf r
  | OrNode _ _ => false
  | TermNode t => negb (TestString bf t)
  | FieldNode _ v => negb (TestString bf (ToLower v))
  end.

(** [collectTermTokens]. *)
Fixpoint collectTermTokens (node : Node) : list string :=
  match node with
  | AndNode l r => collectTermTokens l ++ collectTermTokens r
  | OrNode _ _ => []
  | TermNode t => [t]
  | FieldNode _ _ => []
  end.

Definition defaultLimit : Z := 100.

(** The bloom-pruning loop. *)
Definition keep_path (m : Manager) (ast : option Node) (p : string) : bool :=
  match BloomFor m p, ast with
  | Some bf, Some n => negb (bloomDefiniteMiss bf n)
  | _, _ => true
  end.

(** The filter loop. *)
Definition entry_matches (req : QueryRequest) (ast : option Node) (e : LogEntry) : bool :=
  negb (negb (bool_decide (qNamespace req = "")) && negb (bool_decide (Namespace e = qNamespace req)))
  && negb (negb (bool_decide (qService req = "")) && negb (bool_decide (Service e = qService req)))
  && matches e ast
  && negb ((0 <? StartTime req) && (Timestamp e <? StartTime req))
  && negb ((0 <? EndTime req) && (EndTime req <? Timestamp e)).

(** The offset and limit steps. *)
Definition page (offset limit : Z) (l : list LogEntry) : list LogEntry :=
  let offset := if len l <? offset then len l else offset in
  let l := drop (Z.to_nat offset) l in
  let limit := if len l <? limit then len l else limit in
  take (Z.to_nat limit) l.

(** [req.Limit] after the default is filled in. *)
Definition effective_limit (req : QueryRequest) : Z :=
  if Limit req =? 0 then defaultLimit else Limit req.

(** Candidate segments: resolved by the index, pruned by the filters. *)
Definition pruned_paths (idx : Index) (m : Manager) (req : QueryRequest) (ast : option Node)
    : list string :=
  let indexTokens := match ast with Some n => collectTermTokens n | None => [] end in
  filter (λ p, keep_path m ast p = true)
    (Resolve idx indexTokens (qNamespace req) (qService req) (StartTime req) (EndTime req)).

(** The disk read, if any segment is left; [err2] is [ctx.Err()] before it. *)
Definition read_pruned (pruned : list string) (err2 : option GoError)
    : IO (result (list LogEntry)) :=
  if bool_decide (pruned = []) then mret (Ok []) else
  match err2 with
  | Some e => mret (Err (ErrWrap "query canceled before disk read" e))
  | None =>
    r ← ReadSegments pruned;
    mret match r with Err e => Err (ErrWrap "execute query" e) | Ok raw => Ok raw end
  end.

(** Deduplicate, filter, sort, count and page. *)
Definition finish (req : QueryRequest) (ast : option Node) (took : Z) (raw : list LogEntry)
    : QueryResult :=
  let raw := dedup raw in
  let filtered := sort_entries (filter (λ e, entry_matches req ast e = true) raw) in
  {| Entries := page (Offset req) (effective_limit req) filtered;
     Total := int32 (len filtered);
     TookMs := took;
     Partial := false |}.

(** [LocalExecutor.Execute]. [err1] and [err2] are what [ctx.Err()] returns at its
    two calls, [took] the elapsed time. *)
Definition Execute (idx : Index) (m : Manager) (err1 err2 : option GoError) (took : Z)
    (req : QueryRequest) : IO (result QueryResult) :=
  if Limit req <? 0 then mret (Err (ErrMsg "limit must be non-negative")) else
  if Offset req <? 0 then mret (Err (ErrMsg "offset must be non-negative")) else
  match err1 with
  | Some e => mret (Err (ErrWrap "query canceled" e))
  | None =>
    match Parse (QueryString req) with
    | Err e => mret (Err (ErrWrap "parse query" e))
    | Ok ast =>
      r ← read_pruned (pruned_paths idx m req ast) err2;
      mret match r with
      | Err e => Err e
      | Ok raw => Ok (finish req ast took raw)
      end
    end
  end.

(** ** Specification: a scan of everything stored *)

(** All entries that match, ranked; [all] lists the stored entries. *)
Definition scan (req : QueryRequest) (ast : option Node) (all : list LogEntry) : list LogEntry :=
  sort_entries (dedup (filter (λ e, entry_matches req ast e = true) all)).

(** The answer to a request over all stored entries. *)
Definition answer (req : QueryRequest) (ast : option Node) (all : list LogEntry) (took : Z)
    : QueryResult :=
  let ranked := scan req ast all in
  mkQueryResult
    (take (Z.to_nat (effective_limit req)) (drop (Z.to_nat (Offset req)) ranked))
    (int32 (len ranked)) took false.

(** The segments of a node by path, with their entries. *)
Definition entries_of (segs : gmap string (list LogEntry)) : list LogEntry :=
  mjoin (map_to_list segs).*2.
Definition pairs_of (segs : gmap string (list LogEntry)) : list (LogEntry * string) :=
  map_to_list segs ≫= λ x, tagged x.1 x.2.

(** Index, manager and disk describe the same segments. *)
Record store_ok (idx : Index) (m : Manager) (d : Disk) (segs : gmap string (list LogEntry)) : Prop := {
  st_index : Represents idx (pairs_of segs);
  st_files : ∀ p es, segs !! p = Some es → ∃ bytes, files d !! p = Some bytes ∧ holds bytes es;
  st_blooms : ∀ p bf es, BloomFor m p = Some bf → segs !! p = Some es → covers bf es;
}.

(** A manager and an index in step with the disk: the manager's invariant, the
    entries of every segment, and the index over exactly these entries. *)
Record store_inv (m : Manager) (idx : Index) (d : Disk) (segs : gmap string (list LogEntry)) : Prop := {
  si_mgr : mgr_ok m d;
  si_dom : ∀ p, is_Some (segs !! p) ↔ p ∈ paths m;
  si_files : ∀ p es, segs !! p = Some es → ∃ bytes, files d !! p = Some bytes ∧ holds bytes es;
  si_index : Represents idx (pairs_of segs);
}.

(** The queries for which bloom pruning is safe: field filters on the
    attributes the filter stores, levels in ASCII. *)
Fixpoint bloom_safe (all : list LogEntry) (node : Node) : Prop :=
  match node with
  | AndNode l r => bloom_safe all l ∧ bloom_safe all r
  | OrNode _ _ => True
  | TermNode _ => True
  | FieldNode f v =>
    (ToLower f = "level" ∧ is_ascii v = true ∧ ∀ e, e ∈ all → is_ascii (Level e) = true) ∨
    ToLower f = "service" ∨ ToLower f = "namespace" ∨ ToLower f = "message"
  end.

(** A field filter that every match of the query must satisfy. *)
Fixpoint requires (f v : string) (node : Node) : Prop :=
  match node with
  | AndNode l r => requires f v l ∨ requires f v r
  | OrNode _ _ | TermNode _ => False
  | FieldNode f' v' => f' = f ∧ v' = v
  end.

(** The entries read from the pruned segments: all of them stored, and every
    match among them. *)
Definition reads_enough (req : QueryRequest) (ast : option Node) (all raw : list LogEntry) : Prop :=
  (∀ e, e ∈ raw → e ∈ all) ∧
  (∀ e, e ∈ all → entry_matches req ast e = true → e ∈ raw).

(** A store that holds given segments, with or without filters. *)
Definition disk_of (segs : gmap string (list LogEntry)) : Disk :=
  mkDisk (segment_bytes <$> segs) [].
Definition manager_of (filters : bool) (segs : gmap string (list LogEntry)) : Manager :=
  mkManager "data" 1000 None 2 (map_to_list segs).*1 "n1" filters
    (if filters then segment_bloom <$> segs else ∅).
End executor.

(** Two entries in one segment; one has a custom field. *)
Definition sample_segs : gmap string (list LogEntry) :=
  {[ "s1" := [mkLogEntry "a" 1 1000 "" "api" "INFO" "disk full" {["user" := "alice"]};
              mkLogEntry "b" 2 1000 "" "api" "ERROR" "disk ok" ∅] ]}.
Definition sample_query (q : string) : QueryRequest := mkQueryRequest q "" "" 0 0 0 0.

(** ** Lemmas *)

Section matching_lemmas.
Context `{GoUnicodeLaws} `{BloomLaws}.

(** The two tokenizers agree, so a term matches exactly the indexed tokens. *)
Lemma tokenSet_has_token e t : t ∈ tokenSet (Message e) ↔ has_token e t.
Proof. unfold tokenSet, has_token. by rewrite elem_of_list_to_set. Qed.

Lemma collectTermTokens_sound e n :
  matchesNode e n = true → ∀ tok, tok ∈ collectTermTokens n → has_token e tok.
Proof.
  induction n as [l IHl r IHr|l IHl r IHr|t|f v]; cbn; intros Hm tok Htok; [|set_solver| |set_solver].
  - apply andb_true_iff in Hm as [? ?]. set_solver.
  - apply list_elem_of_singleton in Htok as ->. apply tokenSet_has_token.
    by apply bool_decide_eq_true in Hm.
Qed.

Lemma matchField_bloom bf es e f v :
  covers bf es → e ∈ es → bloom_safe es (FieldNode f v) → matchField e f v = true →
  TestString bf (ToLower v) = true.
Proof.
  intros Hc He Hsafe Hm. unfold matchField in Hm.
  destruct Hsafe as [(Hf & Hv & Hl)|[Hf|[Hf|Hf]]]; rewrite Hf in Hm; cbn in Hm.
  - rewrite <- (EqualFold_ascii (Level e) v) by auto.
    eapply covers_attribute; [done..|set_solver].
  - apply bool_decide_eq_true in Hm as <-. eapply covers_attribute; [done..|set_solver].
  - apply bool_decide_eq_true in Hm as <-. eapply covers_attribute; [done..|set_solver].
  - apply bool_decide_eq_true in Hm. unfold tokenSet in Hm. apply elem_of_list_to_set in Hm.
    eapply covers_message; done.
Qed.

(** A covering filter never prunes a segment with a match, for safe queries. *)
Lemma no_definite_miss bf es e n :
  covers bf es → e ∈ es → bloom_safe es n → matchesNode e n = true →
  bloomDefiniteMiss bf n = false.
Proof.
  intros Hc He. induction n as [l IHl r IHr|l IHl r IHr|t|f v]; cbn [bloom_safe matchesNode bloomDefiniteMiss].
  - intros [? ?] [? ?]%andb_true_iff. by rewrite IHl, IHr.
  - done.
  - intros _ Ht%bool_decide_eq_true. apply negb_false_iff.
    apply tokenSet_has_token in Ht. by eapply covers_message.
  - intros Hs Hm. apply negb_false_iff. by eapply matchField_bloom.
Qed.

(** Bloom filters have no false negatives for the queries they support: the
    filter [rotate] and [mergeRun] build for the entries of a segment never excludes a
    segment that has a matching entry. *)
Theorem bloom_no_false_negative (es : list LogEntry) (e : LogEntry) (n : Node) :
  e ∈ es → bloom_safe es n → matchesNode e n = true →
  bloomDefiniteMiss (segment_bloom es) n = false.
Proof. intros. eapply no_definite_miss; [apply segment_bloom_covers|done..]. Qed.
End matching_lemmas.

Section executor_lemmas.
Context `{GoUnicodeLaws} `{ProtobufLaws} `{BloomLaws}.

Lemma bloom_safe_subset all es n : (∀ e, e ∈ es → e ∈ all) → bloom_safe all n → bloom_safe es n.
Proof. intros Hsub. induction n; cbn; naive_solver. Qed.

Lemma entry_matches_spec req ast e :
  entry_matches req ast e = true ↔
    (qNamespace req = "" ∨ Namespace e = qNamespace req) ∧
    (qService req = "" ∨ Service e = qService req) ∧ matches e ast = true ∧
    (0 < StartTime req → StartTime req ≤ Timestamp e) ∧
    (0 < EndTime req → Timestamp e ≤ EndTime req).
Proof.
  unfold entry_matches. rewrite !andb_true_iff, !negb_true_iff, !andb_false_iff, !negb_false_iff.
  rewrite !bool_decide_eq_true. rewrite !Z.ltb_ge. intuition lia.
Qed.

Lemma elem_of_entries_of segs e :
  e ∈ entries_of segs ↔ ∃ p es, segs !! p = Some es ∧ e ∈ es.
Proof.
  unfold entries_of. rewrite list_elem_of_join. setoid_rewrite list_elem_of_fmap. split.
  - intros (es & He & [p es'] & -> & Hin). apply elem_of_map_to_list in Hin. eauto.
  - intros (p & es & Hp & He). exists es. split; [done|]. exists (p, es).
    split; [done|]. by apply elem_of_map_to_list.
Qed.

Lemma elem_of_pairs_of segs e p :
  (e, p) ∈ pairs_of segs ↔ ∃ es, segs !! p = Some es ∧ e ∈ es.
Proof.
  unfold pairs_of, tagged. rewrite list_elem_of_bind. split.
  - intros ([p' es] & (e' & [= -> ->] & He)%list_elem_of_fmap & Hin).
    apply elem_of_map_to_list in Hin. eauto.
  - intros (es & Hp & He). exists (p, es). split; [|by apply elem_of_map_to_list].
    apply list_elem_of_fmap. eauto.
Qed.

Lemma page_spec offset limit l :
  0 ≤ offset → 0 ≤ limit → page offset limit l = take (Z.to_nat limit) (drop (Z.to_nat offset) l).
Proof.
  intros Ho Hl. unfold page, len.
  destruct (Z.ltb_spec (Z.of_nat (length l)) offset).
  - rewrite Nat2Z.id, !drop_ge by lia. cbn. by rewrite !take_nil.
  - destruct (Z.ltb_spec (Z.of_nat (length (drop (Z.to_nat offset) l))) limit); [|done].
    rewrite Nat2Z.id, !take_ge by lia. done.
Qed.

(** Two lists without repeated IDs and with the same entries sort the same. *)
Lemma sort_entries_ext l1 l2 :
  NoDup (ID <$> l1) → NoDup (ID <$> l2) → (∀ e, e ∈ l1 ↔ e ∈ l2) →
  sort_entries l1 = sort_entries l2.
Proof.
  intros Hd1 Hd2 Heq. symmetry. apply sort_entries_unique; [done| |apply sort_entries_sorted].
  rewrite sort_entries_perm. apply NoDup_Permutation; [by apply NoDup_ID_entries..|].
  intros e. by rewrite Heq.
Qed.

Lemma reads_enough_scan req ast all raw :
  id_consistent all → reads_enough req ast all raw →
  sort_entries (filter (λ e, entry_matches req ast e = true) (dedup raw)) = scan req ast all.
Proof.
  intros Hc [Hsub Hcomp].
  assert (id_consistent raw) as Hc1 by (intros a b ???; apply Hc; auto).
  assert (id_consistent (filter (λ e, entry_matches req ast e = true) all)) as Hc2.
  { intros a b [_ ?]%list_elem_of_filter [_ ?]%list_elem_of_filter. by apply Hc. }
  unfold scan. apply sort_entries_ext.
  - apply NoDup_fmap_filter, dedup_NoDup.
  - apply dedup_NoDup.
  - intros e. rewrite (dedup_elem (filter _ all) e Hc2), !list_elem_of_filter, dedup_elem by done.
    naive_solver.
Qed.

(** Files that hold segments, read one after the other. *)
Lemma files_hold (fs : gmap string (list byte)) (segs : gmap string (list LogEntry)) ps :
  (∀ p, p ∈ ps → ∃ bytes es, segs !! p = Some es ∧ fs !! p = Some bytes ∧ holds bytes es) →
  ∃ raw, holds_all fs ps raw ∧ ∀ e, e ∈ raw ↔ ∃ p es, p ∈ ps ∧ segs !! p = Some es ∧ e ∈ es.
Proof.
  induction ps as [|p ps IH]; intros Hps.
  - exists []. split; [constructor|]. set_solver.
  - destruct IH as (raw & Hraw & Helem); [intros; apply Hps; set_solver|].
    destruct (Hps p ltac:(set_solver)) as (bytes & es & Hes & Hf & Hh).
    exists (es ++ raw). split; [by eapply holds_all_cons|]. intros e.
    rewrite elem_of_app, Helem. setoid_rewrite elem_of_cons. naive_solver.
Qed.

Lemma pruned_holds idx m d segs ps :
  store_ok idx m d segs → (∀ p, p ∈ ps → is_Some (segs !! p)) →
  ∃ raw, holds_all (files d) ps raw ∧
    ∀ e, e ∈ raw ↔ ∃ p es, p ∈ ps ∧ segs !! p = Some es ∧ e ∈ es.
Proof.
  intros Hst Hps. apply files_hold. intros p [es Hes]%Hps.
  destruct (st_files _ _ _ _ Hst p es Hes) as (bytes & Hf & Hh). by exists bytes, es.
Qed.

(** Resolution and pruning keep every segment that holds a match. *)
Lemma match_kept idx m d segs req ast p es e :
  store_ok idx m d segs →
  blooms m = ∅ ∨ (∀ n, ast = Some n → bloom_safe (entries_of segs) n) →
  segs !! p = Some es → e ∈ es → entry_matches req ast e = true →
  p ∈ filter (λ p, keep_path m ast p = true)
        (Resolve idx (match ast with Some n => collectTermTokens n | None => [] end)
           (qNamespace req) (qService req) (StartTime req) (EndTime req)).
Proof.
  intros Hst Hsafe Hp He Hm. apply list_elem_of_filter. split.
  - unfold keep_path. destruct (BloomFor m p) as [bf|] eqn:Hbf; [|done].
    destruct ast as [n|]; [|done]. apply negb_true_iff.
    destruct Hsafe as [Hnone|Hsafe].
    { unfold BloomFor in Hbf. by rewrite Hnone, lookup_empty in Hbf. }
    apply (no_definite_miss bf es e); [by eapply st_blooms|done| |].
    + eapply bloom_safe_subset; [|by apply Hsafe]. intros x Hx. apply elem_of_entries_of. eauto.
    + by apply entry_matches_spec in Hm as (_ & _ & ? & _).
  - apply (Resolve_elem _ (pairs_of segs)); [by apply st_index with m d|].
    apply entry_matches_spec in Hm as (Hns & Hsv & Hma & Hts & Hte).
    assert ((e, p) ∈ pairs_of segs) as Hpair by (apply elem_of_pairs_of; eauto).
    unfold may_hold. split_and!; [naive_solver| |naive_solver..].
    intros tok Htok. exists e. split; [done|].
    destruct ast as [n|]; [|set_solver]. by eapply collectTermTokens_sound.
Qed.

(** The segments that [Execute] reads. *)
Lemma pruned_reads idx m d segs req ast :
  store_ok idx m d segs →
  blooms m = ∅ ∨ (∀ n, ast = Some n → bloom_safe (entries_of segs) n) →
  ∃ raw, holds_all (files d) (pruned_paths idx m req ast) raw ∧
    Forall (λ p, is_Some (files d !! p)) (pruned_paths idx m req ast) ∧
    reads_enough req ast (entries_of segs) raw.
Proof.
  intros Hst Hsafe.
  assert (∀ p, p ∈ pruned_paths idx m req ast → is_Some (segs !! p)) as Hps.
  { intros p [_ Hp]%list_elem_of_filter.
    apply (Resolve_elem _ (pairs_of segs)) in Hp as ((e & He) & _); [|by apply st_index with m d].
    apply elem_of_pairs_of in He as (es & Hes & _). eauto. }
  destruct (pruned_holds idx m d segs _ Hst Hps) as (raw & Hraw & Helem).
  exists raw. split_and!; [done| |split].
  - apply Forall_forall. intros p [es Hes]%Hps.
    destruct (st_files _ _ _ _ Hst p es Hes) as (bytes & Hf & _). eauto.
  - intros e (p & es & _ & ? & ?)%Helem. apply elem_of_entries_of. eauto.
  - intros e (p & es & Hp & He)%elem_of_entries_of Hm. apply Helem.
    exists p, es. split_and!; [|done..]. by eapply match_kept.
Qed.

Lemma store_inv_ok m idx d segs : store_inv m idx d segs → store_ok idx m d segs.
Proof.
  intros [Hm Hdom Hf Hi]. split; [done|done|]. intros p bf es Hbf Hp.
  destruct (ok_blooms _ _ Hm p bf Hbf) as (_ & _ & bytes & es' & Hfile & Hh & Hc).
  destruct (Hf p es Hp) as (bytes' & Hfile' & Hh'). rewrite Hfile in Hfile'. injection Hfile' as <-.
  by rewrite (holds_inj bytes es es' Hh' Hh).
Qed.

(** What [Execute] does with the entries it reads. *)
Lemma finish_scan req ast segs raw took :
  id_consistent (entries_of segs) → reads_enough req ast (entries_of segs) raw →
  0 ≤ Limit req → 0 ≤ Offset req →
  finish req ast took raw = answer req ast (entries_of segs) took.
Proof.
  intros Hc Hr Hl Ho. unfold finish, answer, effective_limit, defaultLimit.
  rewrite (reads_enough_scan req ast (entries_of segs) raw Hc Hr), page_spec; [done|lia|].
  destruct (Limit req =? 0); lia.
Qed.

Lemma Execute_scan idx m d segs req ast took :
  no_faults d → store_ok idx m d segs → id_consistent (entries_of segs) →
  0 ≤ Limit req → 0 ≤ Offset req → Parse (QueryString req) = Ok ast →
  blooms m = ∅ ∨ (∀ n, ast = Some n → bloom_safe (entries_of segs) n) →
  Execute idx m None None took req d = (Ok (answer req ast (entries_of segs) took), d).
Proof.
  intros Hn Hst Hc Hl Ho Hparse Hsafe. unfold Execute.
  rewrite (proj2 (Z.ltb_ge _ _)), (proj2 (Z.ltb_ge _ _)), Hparse by done.
  destruct (pruned_reads idx m d segs req ast Hst Hsafe) as (raw & Hraw & _ & Henough).
  assert (read_pruned (pruned_paths idx m req ast) None d = (Ok raw, d)) as Hread.
  { unfold read_pruned. case_bool_decide as E.
    - rewrite E in Hraw. inversion Hraw; subst. done.
    - io. by rewrite (ReadSegments_holds_all d _ raw) by done. }
  io. rewrite Hread. io. by rewrite (finish_scan req ast segs raw).
Qed.

(** The store built from segments is well-formed. *)
Lemma store_of_ok filters segs :
  (∀ p es, segs !! p = Some es → Forall storable es) →
  store_ok (index_of (pairs_of segs)) (manager_of filters segs) (disk_of segs) segs.
Proof.
  intros Hs. split.
  - apply index_of_represents.
  - intros p es Hp. exists (segment_bytes es). unfold disk_of. cbn [files].
    rewrite lookup_fmap, Hp. split; [done|]. apply holds_segment_bytes. eauto.
  - intros p bf es Hbf Hp. unfold BloomFor, manager_of in Hbf. destruct filters; cbn [blooms] in Hbf.
    + rewrite lookup_fmap, Hp in Hbf. injection Hbf as <-. apply segment_bloom_covers.
    + by rewrite lookup_empty in Hbf.
Qed.

(** ** Properties *)

(** C11. A query answered from the index and the bloom filters is the query
    answered by scanning everything stored: on a disk without faults, when index, manager
    and disk describe the same segments and entries of one ID are one entry, [Execute]
    returns the requested page of all matching entries, deduplicated and ranked newest first,
    with their number as the total. With filters loaded this holds of the queries they are
    safe for, those on attributes a filter stores ([bloom_safe]; [custom_field_query_lost] is
    what happens otherwise). *)
Theorem Execute_refines_scan (idx : Index) (m : Manager) (d : Disk)
    (segs : gmap string (list LogEntry)) (req : QueryRequest) (ast : option Node) (took : Z) :
  no_faults d → store_ok idx m d segs → id_consistent (entries_of segs) →
  0 ≤ Limit req → 0 ≤ Offset req → Parse (QueryString req) = Ok ast →
  blooms m = ∅ ∨ (∀ n, ast = Some n → bloom_safe (entries_of segs) n) →
  let limit := if Limit req =? 0 then 100 else Limit req in
  let ranked := sort_entries (dedup (filter (λ e, entry_matches req ast e = true) (entries_of segs))) in
  Execute idx m None None took req d =
    (Ok (mkQueryResult (take (Z.to_nat limit) (drop (Z.to_nat (Offset req)) ranked))
           (int32 (len ranked)) took false), d).
Proof. intros. by rewrite (Execute_scan idx m d segs req ast). Qed.

(** C12. All or an error: whatever the context reports and whichever system calls fail,
    [Execute] on index, manager and disk that describe the same segments, where entries of
    one ID are one entry and no filter is loaded or the filters are safe for the query,
    changes no file and returns either an error or the complete answer, never a part of it. *)
Theorem Execute_all_or_error (idx : Index) (m : Manager) (d : Disk)
    (segs : gmap string (list LogEntry)) (req : QueryRequest) (ast : option Node) (took : Z)
    (err1 err2 : option GoError) :
  store_ok idx m d segs → id_consistent (entries_of segs) →
  Parse (QueryString req) = Ok ast →
  blooms m = ∅ ∨ (∀ n, ast = Some n → bloom_safe (entries_of segs) n) →
  ∃ r d', Execute idx m err1 err2 took req d = (r, d') ∧ files d' = files d ∧
    (r = Ok (answer req ast (entries_of segs) took) ∨ ∃ e, r = Err e).
Proof.
  intros Hst Hc Hparse Hsafe. unfold Execute.
  destruct (Z.ltb_spec (Limit req) 0); [eexists _, _; eauto 6|].
  destruct (Z.ltb_spec (Offset req) 0); [eexists _, _; eauto 6|].
  destruct err1 as [e|]; [eexists _, _; eauto 6|]. rewrite Hparse.
  destruct (pruned_reads idx m d segs req ast Hst Hsafe) as (raw & Hraw & Hall & Henough).
  assert (∃ r d', read_pruned (pruned_paths idx m req ast) err2 d = (r, d') ∧ files d' = files d ∧
            (r = Ok raw ∨ ∃ e, r = Err e)) as (r & d' & Hr & Hfs & Hcase).
  { unfold read_pruned. case_bool_decide as E.
    - rewrite E in Hraw. inversion Hraw; subst. eexists _, _. eauto.
    - destruct err2 as [e|]; [eexists _, _; eauto 6|].
      destruct (ReadSegments_faulty d _ raw [] Hall Hraw) as (r & d' & Hr & Hfs & Hcase).
      io. unfold ReadSegments. rewrite Hr. io. eexists _, _. split; [done|]. split; [done|].
      destruct Hcase as [->|[e ->]]; eauto. }
  io. rewrite Hr. io. eexists _, _. split; [done|]. split; [done|].
  destruct Hcase as [->|[e ->]]; [left|eauto]. by rewrite (finish_scan req ast segs raw).
Qed.

(** Invalid requests are refused before the disk is touched: a negative limit, a
    negative offset, a cancelled context and an unparsable query each give the
    corresponding error, checked in this order, on any disk. *)
Theorem Execute_rejects (idx : Index) (m : Manager) (err1 err2 : option GoError) (took : Z)
    (req : QueryRequest) (d : Disk) :
  Limit req < 0 ∨ Offset req < 0 ∨ is_Some err1 ∨ is_ok (Parse (QueryString req)) = false →
  Execute idx m err1 err2 took req d =
    (Err (if Limit req <? 0 then ErrMsg "limit must be non-negative"
          else if Offset req <? 0 then ErrMsg "offset must be non-negative"
          else match err1, Parse (QueryString req) with
               | Some e, _ => ErrWrap "query canceled" e
               | None, Err e => ErrWrap "parse query" e
               | None, Ok _ => io_EOF
               end), d).
Proof.
  intros Hbad. unfold Execute.
  destruct (Z.ltb_spec (Limit req) 0); [done|]. destruct (Z.ltb_spec (Offset req) 0); [done|].
  destruct err1 as [e|]; [done|]. destruct (Parse (QueryString req)); [|done].
  destruct Hbad as [?|[?|[[? ?]|?]]]; [lia|lia|done|done].
Qed.
Lemma requires_miss bf n f v : requires f v n → TestString bf (ToLower v) = false → bloomDefiniteMiss bf n = true.
Proof.
  induction n as [l IHl r IHr|l IHl r IHr|t|g w]; cbn [requires bloomDefiniteMiss]; [|done..|].
  - intros [?|?] Ht; [by rewrite IHl|by rewrite IHr, orb_true_r].
  - intros [_ ->] Ht. by rewrite Ht.
Qed.

End executor_lemmas.

(** ** Witnesses *)

Lemma sample_segs_storable :
  let H2 := bit_codec in
  ∀ p es, sample_segs !! p = Some es → Forall storable es.
Proof.
  intros H2 p es Hp. unfold sample_segs in Hp. apply lookup_singleton_Some in Hp as [_ <-].
  repeat constructor; eexists; (split; [reflexivity|]); vm_compute; discriminate.
Qed.

Lemma sample_segs_consistent : id_consistent (entries_of sample_segs).
Proof.
  unfold sample_segs, entries_of. rewrite map_to_list_singleton. cbn.
  intros a b Ha Hb. repeat (apply elem_of_cons in Ha as [->|Ha]; [|try by apply not_elem_of_nil in Ha]);
  repeat (apply elem_of_cons in Hb as [->|Hb]; [|try by apply not_elem_of_nil in Hb]); done.
Qed.

Lemma sample_bloom_safe :
  let H1 := ascii_tables in
  ∀ n, Some (AndNode (TermNode "disk") (FieldNode "service" "api")) = Some n →
  bloom_safe (entries_of sample_segs) n.
Proof. intros H1 n [= <-]. cbn [bloom_safe]. split; [done|]. right. left. vm_compute. done. Qed.

Lemma Execute_refines_scan_witness :
  let H1 := ascii_tables in let H2 := bit_codec in let H3 := exact_bloom in
  let req := sample_query "disk AND service:api" in
  let ast := Some (AndNode (TermNode "disk") (FieldNode "service" "api")) in
  let ranked := sort_entries (dedup (filter (λ e, entry_matches req ast e = true)
                                (entries_of sample_segs))) in
  Execute (index_of (pairs_of sample_segs)) (manager_of true sample_segs) None None 0 req
    (disk_of sample_segs)
  = (Ok (mkQueryResult (take (Z.to_nat 100) (drop (Z.to_nat 0) ranked)) (int32 (len ranked)) 0 false),
     disk_of sample_segs) ∧ ID <$> ranked = ["b"; "a"].
Proof.
  intros H1 H2 H3 req ast ranked. split; [|vm_compute; reflexivity].
  apply (@Execute_refines_scan ascii_tables ascii_tables_laws bit_codec bit_codec_laws
    exact_bloom exact_bloom_laws _ _ _ sample_segs req ast 0).
  - done.
  - apply (@store_of_ok ascii_tables ascii_tables_laws bit_codec exact_bloom exact_bloom_laws). apply sample_segs_storable.
  - apply sample_segs_consistent.
  - done.
  - done.
  - vm_compute. reflexivity.
  - right. apply sample_bloom_safe.
Defined.

Lemma Execute_all_or_error_witness :
  let H1 := ascii_tables in let H2 := bit_codec in let H3 := exact_bloom in
  let req := sample_query "disk AND service:api" in
  let ast := Some (AndNode (TermNode "disk") (FieldNode "service" "api")) in
  let d := mkDisk (files (disk_of sample_segs)) [Done; Fault 3] in
  ∃ r d', Execute (index_of (pairs_of sample_segs)) (manager_of true sample_segs) None None 0 req d
      = (r, d') ∧ files d' = files d ∧
    (r = Ok (answer req ast (entries_of sample_segs) 0) ∨ ∃ e, r = Err e).
Proof.
  intros H1 H2 H3 req ast d.
  apply (@Execute_all_or_error ascii_tables ascii_tables_laws bit_codec bit_codec_laws
    exact_bloom exact_bloom_laws _ _ d sample_segs req ast 0 None None).
  - destruct (@store_of_ok ascii_tables ascii_tables_laws bit_codec exact_bloom exact_bloom_laws true sample_segs sample_segs_storable) as [Hi Hf Hb].
    split; [exact Hi|exact Hf|exact Hb].
  - apply sample_segs_consistent.
  - vm_compute. reflexivity.
  - right. apply sample_bloom_safe.
Defined.

Lemma Execute_rejects_witness :
  let H1 := ascii_tables in let H2 := bit_codec in let H3 := exact_bloom in
  Execute NewIndex (manager_of true ∅) None None 0 (mkQueryRequest "" "" "" 0 0 (-1) 0) (disk_of ∅)
  = (Err (ErrMsg "limit must be non-negative"), disk_of ∅).
Proof.
  intros H1 H2 H3.
  apply (@Execute_rejects ascii_tables bit_codec exact_bloom NewIndex (manager_of true ∅) None None 0
    (mkQueryRequest "" "" "" 0 0 (-1) 0) (disk_of ∅)). left. reflexivity.
Defined.

Lemma bloom_no_false_negative_witness :
  let H1 := ascii_tables in let H3 := exact_bloom in
  let es := [sample_entry "a" "disk full" 1] in
  bloomDefiniteMiss (segment_bloom es) (AndNode (TermNode "disk") (FieldNode "Service" "api")) = false.
Proof.
  intros H1 H3 es.
  apply (@bloom_no_false_negative ascii_tables ascii_tables_laws exact_bloom exact_bloom_laws es
    (sample_entry "a" "disk full" 1)).
  - by left.
  - cbn [bloom_safe]. split; [done|]. right. left. vm_compute. done.
  - vm_compute. reflexivity.
Defined.

