(* ===== verification/Recovery.v ===== *)
(** * Recovery: a node restarts from its directory ([NewManager], [cmd/node/main.go])

    Between two runs of a node only its directory survives: segment files, the
    marker file and the filter sidecars. [dir_ok] says how the directory stands to a
    running manager; every operation keeps it, and startup turns it back into a
    manager and an index in step with the same entries. *)

From S2P Require Import Prelude GoStrings Types Record Disk Segment Ranking Index Parser Bloom.
From S2P Require Import Paths Manager Executor.

Section recovery.
Context `{GoUnicode} `{Protobuf} `{Bloom}.

(** The storage part of [main]: open the directory and rebuild the index. *)
Definition start_node (dir : string) (maxBytes : Z) (node : string) (bloom_env : bool)
    : IO (result (Manager * Index)) :=
  r ← NewManager dir maxBytes node bloom_env;
  match r with
  | Err e => mret (Err (ErrWrap "storage.NewManager" e))
  | Ok m =>
    '(idx, r) ← RebuildFromSegments NewIndex (SegmentPaths m) ReadSegment;
    mret match r with
         | Err e => Err (ErrWrap "index rebuild" e)
         | Ok _ => Ok (m, idx)
         end
  end.

(** ** Specification *)

Definition marker_path (dir : string) : string := filepath_Join dir activeMarkerFile.

(** The directory of a running manager: its segment files are the manager's paths, the
    marker names the active one, sequence numbers are below the maximum, and a sidecar
    belongs to a closed segment that it covers. *)
Record dir_ok (m : Manager) (d : Disk) : Prop := {
  dir_paths : ∀ p, p ∈ paths m ↔ in_dir_seg (mdir m) p = true ∧ is_Some (files d !! p);
  dir_marker : ∃ n, 0 ≤ n < 2 ^ 64 ∧ last (paths m) = Some (seq_path (mdir m) n) ∧
    files d !! marker_path (mdir m) = Some (String.list_byte_of_string (segment_name n));
  dir_seqs : ∀ p n, p ∈ paths m → path_seq p = Some n → n + 1 < 2 ^ 64;
  dir_side : ∀ p fb bf, in_dir_seg (mdir m) p = true →
    files d !! BloomPath p = Some fb → ReadFrom fb = Some bf →
    p ∈ paths m ∧ last (paths m) ≠ Some p ∧
    ∃ bytes es, files d !! p = Some bytes ∧ holds bytes es ∧ covers bf es;
  dir_bloom : bloomEnabled m = true ∨
    (blooms m = ∅ ∧ ∀ p, in_dir_seg (mdir m) p = true → files d !! BloomPath p = None);
}.

(** A directory no node has used. *)
Definition empty_dir (dir : string) (d : Disk) : Prop :=
  files d !! marker_path dir = None ∧
  ∀ p, in_dir_seg dir p = true → files d !! p = None ∧ files d !! BloomPath p = None.
End recovery.

(** ** Lemmas: names *)

Lemma drop_while_none {A} (f : A → bool) l : Forall (λ x, f x = false) l → drop_while f l = l.
Proof. destruct 1 as [|x l Hx _]; cbn; [done|]. by rewrite Hx. Qed.

(** Text without spaces is not trimmed. *)
Lemma TrimSpace_id s :
  string_forallb (λ c, (code c <? RuneSelf) && negb (IsSpace (code c))) s = true → TrimSpace s = s.
Proof.
  intros Hs. assert (Forall (λ k : Z * string, IsSpace k.1 = false) (chunks s)) as Hc.
  { induction s as [|c s IH]; [constructor|]. cbn [string_forallb] in Hs.
    apply andb_true_iff in Hs as [[Hr Hsp]%andb_true_iff Hs].
    rewrite chunks_ascii_cons by (by apply Z.ltb_lt). constructor; [|by apply IH].
    by apply negb_true_iff in Hsp. }
  unfold TrimSpace. rewrite (drop_while_none _ (chunks s)) by done.
  rewrite drop_while_none by (by rewrite Forall_reverse). rewrite reverse_involutive.
  apply chunks_app_bytes.
Qed.

Lemma dec_digits_plain k n :
  0 ≤ n → string_forallb (λ c, (code c <? RuneSelf) && negb (IsSpace (code c))) (dec_digits k n) = true.
Proof.
  revert n. induction k as [|k IH]; intros n Hn; cbn [dec_digits]; [done|].
  rewrite string_forallb_app, IH by (apply Z.div_pos; lia). cbn [string_forallb andb].
  pose proof (Z.mod_pos_bound n 10 ltac:(lia)) as Hr. unfold digit. rewrite code_chr_small by lia.
  generalize (n mod 10), Hr. intros r Hr'.
  assert (r = 0 ∨ r = 1 ∨ r = 2 ∨ r = 3 ∨ r = 4 ∨ r = 5 ∨ r = 6 ∨ r = 7 ∨ r = 8 ∨ r = 9) as Hcase by lia.
  by repeat destruct Hcase as [-> | Hcase]; subst.
Qed.

Lemma TrimSpace_segment_name n : 0 ≤ n → TrimSpace (segment_name n) = segment_name n.
Proof.
  intros Hn. apply TrimSpace_id. unfold segment_name. by rewrite string_forallb_app, dec_digits_plain.
Qed.

Lemma seq_path_in_dir dir n : 0 ≤ n → in_dir_seg dir (seq_path dir n) = true.
Proof.
  intros Hn. unfold in_dir_seg. rewrite seq_path_seg. cbn [andb]. apply bool_decide_true.
  unfold seq_path. by rewrite Base_Join by apply segment_name_plain.
Qed.

Lemma path_seq_seq_path dir n : 0 ≤ n < 2 ^ 64 → path_seq (seq_path dir n) = Some n.
Proof. apply parse_segment_path. Qed.

Lemma in_dir_seg_suffix dir p : in_dir_seg dir p = true → HasSuffix p ".seg" = true.
Proof. by intros [? _]%andb_true_iff. Qed.

Lemma marker_not_bloom dir p : marker_path dir ≠ BloomPath p.
Proof.
  intros E%(f_equal (λ s, HasSuffix s ".bloom")). unfold BloomPath in E. rewrite HasSuffix_app in E.
  unfold marker_path in E. by rewrite marker_suffixes in E by (cbn; lia).
Qed.

Lemma marker_not_tmp dir p : marker_path dir ≠ p +:+ ".tmp".
Proof.
  intros E%(f_equal (λ s, HasSuffix s ".tmp")). rewrite HasSuffix_app in E.
  unfold marker_path in E. by rewrite marker_suffixes in E by (cbn; lia).
Qed.

Lemma bloom_not_tmp p q : BloomPath p ≠ q +:+ ".tmp".
Proof.
  intros E%(f_equal (λ s, HasSuffix s ".tmp")). rewrite HasSuffix_app in E.
  unfold BloomPath in E. rewrite HasSuffix_skip in E by (cbn; lia). done.
Qed.

Lemma bloom_suffix p : HasSuffix (BloomPath p) ".tmp" = false.
Proof. unfold BloomPath. by rewrite HasSuffix_skip by (cbn; lia). Qed.

Lemma marker_suffix dir : HasSuffix (marker_path dir) ".tmp" = false.
Proof.
  unfold marker_path. by rewrite marker_suffixes by (cbn; lia).
Qed.

Lemma bloom_ne_seg p q : HasSuffix q ".seg" = true → BloomPath p ≠ q.
Proof. intros Hq <-. by rewrite bloom_path_not_seg in Hq. Qed.

Lemma marker_ne_seg dir q : HasSuffix q ".seg" = true → marker_path dir ≠ q.
Proof. intros Hq <-. unfold marker_path in Hq. by rewrite marker_not_seg in Hq. Qed.

(** A string splits where a substring begins. *)
Lemma substring_split n s :
  (n ≤ String.length s)%nat →
  String.substring 0 n s +:+ String.substring n (String.length s - n) s = s.
Proof.
  revert s. induction n as [|n IH]; intros s Hn.
  - rewrite Nat.sub_0_r. destruct s; cbn; [done|]. f_equal. apply substring_all.
  - destruct s as [|c s]; cbn in Hn; [lia|]. cbn. f_equal. apply IH. lia.
Qed.

Lemma TrimSuffix_HasSuffix p suf : HasSuffix p suf = true → TrimSuffix p suf +:+ suf = p.
Proof.
  unfold HasSuffix, TrimSuffix. intros Hs. rewrite Hs.
  apply andb_true_iff in Hs as [Hl%bool_decide_eq_true Hs%bool_decide_eq_true].
  pose proof (substring_split (String.length p - String.length suf) p ltac:(lia)) as Hsp.
  replace (String.length p - (String.length p - String.length suf))%nat with (String.length suf) in Hsp by lia.
  by rewrite Hs in Hsp.
Qed.

Lemma string_app_inj_l (s t u : string) : s +:+ u = t +:+ u → s = t.
Proof.
  revert t. induction s as [|c s IH]; intros [|c' t] E; [done| | |].
  - apply (f_equal String.length) in E. cbn in E. rewrite string_length_app in E. lia.
  - apply (f_equal String.length) in E. cbn in E. rewrite string_length_app in E. lia.
  - injection E as -> E. f_equal. by apply IH.
Qed.

(** Different segments have different sidecars. *)
Lemma BloomPath_inj p q :
  HasSuffix p ".seg" = true → HasSuffix q ".seg" = true → BloomPath p = BloomPath q → p = q.
Proof.
  intros Hp Hq E%string_app_inj_l. rewrite <- (TrimSuffix_HasSuffix p ".seg"), E by done.
  by apply TrimSuffix_HasSuffix.
Qed.

(** The sequence number after all of a list of paths. *)
Lemma nextSeq_max ps :
  (∀ p n, p ∈ ps → path_seq p = Some n → 0 ≤ n ∧ n + 1 < 2 ^ 64) →
  1 ≤ nextSeqFromMatches ps < 2 ^ 64 ∧
  ∀ p n, p ∈ ps → path_seq p = Some n → n < nextSeqFromMatches ps.
Proof.
  intros Hps. unfold nextSeqFromMatches.
  set (f := λ (mx : Z) (p : string),
    match path_seq p with Some n => if mx <? n then n else mx | None => mx end).
  assert (∀ mx, 0 ≤ mx → mx + 1 < 2 ^ 64 →
    mx ≤ foldl f mx ps ∧ foldl f mx ps + 1 < 2 ^ 64 ∧
    ∀ p n, p ∈ ps → path_seq p = Some n → n ≤ foldl f mx ps) as Hfold.
  { induction ps as [|q ps IH]; intros mx H0' H1'; cbn [foldl].
    - split_and!; [lia..|]. by intros ? ? ?%not_elem_of_nil.
    - assert (mx ≤ f mx q ∧ f mx q + 1 < 2 ^ 64 ∧ ∀ n, path_seq q = Some n → n ≤ f mx q) as (Hq1 & Hq2 & Hq3).
      { unfold f. destruct (path_seq q) as [n|] eqn:E; [|split_and!; [lia..|done]].
        destruct (Hps q n) as [? ?]; [set_solver|done|].
        destruct (Z.ltb_spec mx n); (split_and!; [lia..|]); intros ? [= <-]; lia. }
      destruct (IH ltac:(intros p' n' Hp'; apply Hps; by right) (f mx q)) as (I1 & I2 & I3); [lia..|].
      split_and!; [lia..|]. intros p n [->|Hp]%elem_of_cons Hpn; [|by eapply I3].
      specialize (Hq3 n Hpn). lia. }
  destruct (Hfold 0) as (F1 & F2 & F3); [lia..|]. unfold uint64, wrap_unsigned.
  rewrite Z.mod_small by lia. split; [lia|]. intros p n Hp Hn. specialize (F3 p n Hp Hn). lia.
Qed.

(** [ParseUint] yields a [uint64]. *)
Lemma parse_digits_nonneg acc s n : 0 ≤ acc → parse_digits acc s = Some n → 0 ≤ n.
Proof.
  revert acc. induction s as [|c s IH]; intros acc Hacc; cbn [parse_digits]; [by intros [= <-]|].
  destruct (in_range 48 57 (code c)) eqn:E; [|done]. apply in_range_true in E. apply IH. lia.
Qed.

Lemma path_seq_nonneg p n : path_seq p = Some n → 0 ≤ n.
Proof.
  unfold path_seq, ParseUint. case_bool_decide; [done|].
  destruct (parse_digits 0 _) as [k|] eqn:E; [|done]. case_match; [|done].
  intros [= <-]. by eapply parse_digits_nonneg; [|exact E].
Qed.

(** ** Lemmas: opening a directory *)

Section recovery_lemmas.
Context `{GoUnicodeLaws} `{ProtobufLaws} `{BloomLaws}.
Implicit Types (m : Manager) (d : Disk).

Lemma glob_segments_spec dir d :
  ∃ ms, glob_segments dir d = (ms, d) ∧ NoDup ms ∧
    ∀ p, p ∈ ms ↔ in_dir_seg dir p = true ∧ is_Some (files d !! p).
Proof.
  eexists. split; [reflexivity|]. split.
  - rewrite merge_sort_Permutation. apply NoDup_filter, NoDup_elements.
  - intros p. rewrite merge_sort_Permutation, list_elem_of_filter, elem_of_elements, elem_of_dom. done.
Qed.

(** The marker of a running node names its active segment. *)
Lemma marked_active_done dir d n :
  no_faults d → 0 ≤ n → is_Some (files d !! seq_path dir n) →
  files d !! marker_path dir = Some (String.list_byte_of_string (segment_name n)) →
  marked_active dir d = (seq_path dir n, d).
Proof.
  intros Hn Hn0 [bytes Hf] Hm. unfold marked_active, os_ReadFile, os_Open. fold (marker_path dir). io.
  rewrite Hm. io. rewrite String.string_of_list_byte_of_string, TrimSpace_segment_name by done.
  fold (seq_path dir n). unfold stat_in. rewrite bool_decide_false
    by apply Join_ne_dir, segment_name_plain.
  unfold os_Stat. io. rewrite Hf. by io.
Qed.

Lemma marked_active_none dir d :
  no_faults d → files d !! marker_path dir = None → marked_active dir d = ("", d).
Proof.
  intros Hn Hm. unfold marked_active, os_ReadFile, os_Open. fold (marker_path dir). io. rewrite Hm. by io.
Qed.

(** Moving the active path last changes the order only. *)
Lemma reorder_spec ms a :
  NoDup ms → a ∈ ms → a ≠ "" →
  ∃ ps, reorder a ms = ps ++ [a] ∧ NoDup (ps ++ [a]) ∧ ∀ p, p ∈ ps ++ [a] ↔ p ∈ ms.
Proof.
  intros Hnd Ha Hne. unfold reorder. rewrite bool_decide_false by done. cbn [negb andb].
  assert (ms ≠ []) by (intros ->; by apply not_elem_of_nil in Ha).
  rewrite bool_decide_false by done. cbn [negb andb]. case_bool_decide as Hl; cbn [negb].
  - apply last_Some in Hl as [ps ->]. by exists ps.
  - exists (filter (λ p, p ≠ a) ms). split; [done|]. split.
    + apply NoDup_app. split; [by apply NoDup_filter|]. split; [|apply NoDup_singleton].
      intros p [? _]%list_elem_of_filter. by rewrite list_elem_of_singleton.
    + intros p. rewrite elem_of_app, list_elem_of_filter, list_elem_of_singleton.
      destruct (decide (p = a)) as [->|]; naive_solver.
Qed.

Lemma load_blooms_spec m d ps :
  no_faults d → ∃ b, load_blooms m ps d = (with_blooms b m, d) ∧
    ∀ p bf, b !! p = Some bf → blooms m !! p = Some bf ∨
      (p ∈ ps ∧ ∃ fb, files d !! BloomPath p = Some fb ∧ ReadFrom fb = Some bf).
Proof.
  intros Hn. revert m. induction ps as [|q ps IH]; intros m; cbn [load_blooms].
  { exists (blooms m). split; [by destruct m|]. by left. }
  io. unfold ReadBloom at 1 2, os_Open. io. destruct (files d !! BloomPath q) as [fb|] eqn:Hq; io.
  - destruct (ReadFrom fb) as [bf|] eqn:Hr.
    + destruct (IH (with_blooms (<[q := bf]> (blooms m)) m)) as (b & -> & Hb).
      exists b. split; [done|]. intros p bf' Hp. destruct (Hb p bf' Hp) as [Hin|[Hin Hf]].
      * cbn [blooms with_blooms] in Hin. destruct (decide (p = q)) as [->|Hne].
        -- rewrite lookup_insert_eq in Hin. injection Hin as <-. right. split; [set_solver|eauto].
        -- rewrite lookup_insert_ne in Hin by done. by left.
      * right. split; [set_solver|done].
    + destruct (IH m) as (b & -> & Hb). exists b. split; [done|]. intros p bf' Hp.
      destruct (Hb p bf' Hp) as [?|[? ?]]; [by left|right]. split; [set_solver|done].
  - destruct (IH m) as (b & -> & Hb). exists b. split; [done|]. intros p bf' Hp.
    destruct (Hb p bf' Hp) as [?|[? ?]]; [by left|right]. split; [set_solver|done].
Qed.

(** What [NewManager] computes when the marker names a segment that exists. *)
Lemma NewManager_reopens dir d n mb node env :
  no_faults d → 0 ≤ n → is_Some (files d !! seq_path dir n) →
  files d !! marker_path dir = Some (String.list_byte_of_string (segment_name n)) →
  let a := seq_path dir n in
  ∃ m' ps, NewManager dir mb node env d = (Ok m', d) ∧
    paths m' = ps ++ [a] ∧ NoDup (paths m') ∧
    (∀ p, p ∈ paths m' ↔ in_dir_seg dir p = true ∧ is_Some (files d !! p)) ∧
    mdir m' = dir ∧ bloomEnabled m' = env ∧ nextSeq m' = nextSeqFromMatches (paths m') ∧
    (∃ bytes, active m' = Some (mkSegment (mkFile a (length bytes)) (len bytes)) ∧
       files d !! a = Some bytes) ∧
    (env = false → blooms m' = ∅) ∧
    ∀ p bf, blooms m' !! p = Some bf →
      p ∈ ps ∧ ∃ fb, files d !! BloomPath p = Some fb ∧ ReadFrom fb = Some bf.
Proof.
  intros Hn Hn0 [bytes Hf] Hmk a. fold a in Hf.
  assert (in_dir_seg dir a = true) as Hin by by apply seq_path_in_dir.
  assert (a ≠ "") as Hane by (intros E; by rewrite E in Hin).
  destruct (glob_segments_spec dir d) as (ms & Hglob & Hnd & Hms).
  destruct (reorder_spec ms a Hnd) as (ps & Hre & Hnd' & Hps); [apply Hms; by rewrite Hf|done|].
  unfold NewManager. io. rewrite Hglob. io.
  rewrite (marked_active_done dir d n) by (done || by eexists). io. fold a.
  rewrite !(bool_decide_false (a = "")) by done. rewrite Hre. unfold open_in.
  rewrite (bool_decide_false (a = filepath_Join dir "")) by apply Join_ne_dir, segment_name_plain. io.
  rewrite OpenSegment_done by done. rewrite Hf. cbn [from_option default]. io.
  rewrite insert_id by done. destruct d as [fs sc]. cbn [files sched] in *.
  cbn [bloomEnabled with_active paths]. unfold id. destruct env.
  - rewrite length_app. cbn [length]. replace (length ps + 1 - 1)%nat with (length ps) by lia.
    rewrite take_app_length.
    match goal with |- context [load_blooms ?x ps] =>
      destruct (load_blooms_spec x (mkDisk fs sc) ps Hn) as (b & Hb & Hbl) end.
    rewrite Hb. io. eexists _, ps. split; [reflexivity|]. cbn. split_and!; try done.
    + intros p. by rewrite Hps, Hms.
    + by exists bytes.
    + intros p bf Hp. destruct (Hbl p bf Hp) as [Hin'|Hin']; [|done]. cbn in Hin'. done.
  - io. eexists _, ps. split; [reflexivity|]. cbn. split_and!; try done.
    + intros p. by rewrite Hps, Hms.
    + by exists bytes.
Qed.

(** The reopened directory satisfies both invariants again. *)
Lemma NewManager_ok m d mb node env :
  no_faults d → mgr_ok m d → dir_ok m d → (bloomEnabled m = true → env = true) →
  ∃ m', NewManager (mdir m) mb node env d = (Ok m', d) ∧ mgr_ok m' d ∧ dir_ok m' d ∧
    (∀ p, p ∈ paths m' ↔ p ∈ paths m) ∧ bloomEnabled m' = env ∧ mdir m' = mdir m.
Proof.
  intros Hn Hok Hd Henv.
  destruct (dir_marker _ _ Hd) as (n & Hn64 & Hl & Hmk). set (a := seq_path (mdir m) n) in *.
  assert (a ∈ paths m) as Hain by (by apply last_Some_elem_of).
  destruct (NewManager_reopens (mdir m) d n mb node env Hn)
    as (m' & ps & Hrun & Hps & Hnd & Hdp & Hdir & Hbe & Hsq & (bytes & Ha & Hf) & Hb0 & Hbl);
    [lia|by apply (dir_paths _ _ Hd)|done|]. fold a in Hps, Ha, Hf.
  assert (∀ p, p ∈ paths m' ↔ p ∈ paths m) as Hin by (intros p; by rewrite Hdp, (dir_paths _ _ Hd)).
  assert (last (paths m') = Some a) as Hl' by (rewrite Hps; apply last_snoc).
  assert (∀ p, p ∈ ps → p ∈ paths m ∧ last (paths m) ≠ Some p) as Hclosed.
  { intros p Hp. split; [apply Hin; rewrite Hps; set_solver|]. rewrite Hl. intros [= ->].
    rewrite Hps in Hnd. apply NoDup_app in Hnd as (_ & Hnd & _). apply (Hnd p Hp). set_solver. }
  assert (∀ p k, p ∈ paths m' → path_seq p = Some k → 0 ≤ k ∧ k + 1 < 2 ^ 64) as Hseqs.
  { intros p k Hp Hpn. split; [by eapply path_seq_nonneg|]. eapply (dir_seqs _ _ Hd); [|done]. by apply Hin. }
  destruct (nextSeq_max (paths m') Hseqs) as [Hrange Hmax]. rewrite <- Hsq in Hrange, Hmax.
  exists m'. split; [done|]. split; [|split; [|done]]; split.
  - eexists _, bytes. split; [exact Ha|]. by split.
  - done.
  - intros p Hp. apply (ok_files _ _ Hok). by apply Hin.
  - intros k Hr. rewrite Hdir.
    assert (seq_path (mdir m) k ∉ paths m') as Hnot.
    { intros Hp. specialize (Hmax _ k Hp). rewrite path_seq_seq_path in Hmax by lia.
      specialize (Hmax eq_refl). lia. }
    split; [done|]. destruct (files d !! seq_path (mdir m) k) eqn:E; [|done].
    exfalso. apply Hnot, Hdp. split; [apply seq_path_in_dir; lia|by eexists].
  - lia.
  - intros p Hp. apply (ok_names _ _ Hok). by apply Hin.
  - intros p bf Hp. destruct (Hbl p bf Hp) as (Hpp & fb & Hfb & Hr). destruct (Hclosed p Hpp) as [Hp1 Hp2].
    destruct (dir_side _ _ Hd p fb bf) as (_ & _ & Hc); [by apply (dir_paths _ _ Hd)|done..|].
    rewrite Hin, Hl'. rewrite Hl in Hp2. done.
  - intros p. by rewrite Hdir.
  - rewrite Hl', Hdir, <- Hl. apply (dir_marker _ _ Hd).
  - intros p k Hp Hpn. by apply (Hseqs p k).
  - intros p fb bf. rewrite Hdir, Hin, Hl', <- Hl. apply (dir_side _ _ Hd).
  - rewrite Hdir, Hbe. destruct env; [by left|]. right. split; [by apply Hb0|].
    destruct (dir_bloom _ _ Hd) as [Hbt|[_ Hno]]; [by specialize (Henv Hbt)|done].
Qed.

(** An index rebuilt over segments in any order. *)
Lemma rebuild_segments d ps (segs : gmap string (list LogEntry)) :
  no_faults d → (∀ p, is_Some (segs !! p) ↔ p ∈ ps) →
  (∀ p es, segs !! p = Some es → ∃ bytes, files d !! p = Some bytes ∧ holds bytes es) →
  ∃ idx, RebuildFromSegments NewIndex ps ReadSegment d = ((idx, Ok ()), d) ∧
    Represents idx (pairs_of segs).
Proof.
  intros Hn Hdom Hf. set (es := (λ p, default [] (segs !! p)) <$> ps).
  destruct (RebuildFromSegments_done d NewIndex [] ps es ReadSegment) as (idx & Hrun & Hr).
  - unfold es. apply Forall2_fmap_r, Forall_Forall2_diag, Forall_forall. intros p Hp.
    destruct (proj2 (Hdom p) Hp) as [es' He]. unfold compose. rewrite He. cbn [default from_option id].
    destruct (Hf p es' He) as (bytes & ? & ?). by eapply ReadSegment_holds.
  - apply NewIndex_represents.
  - exists idx. split; [done|]. eapply Represents_ext; [|exact Hr]. intros [e p].
    rewrite elem_of_pairs_of. cbn [app]. rewrite list_elem_of_join. split.
    + intros (l & Hep & Hl). unfold es in Hl. rewrite zip_with_fmap_r, zip_with_diag in Hl.
      apply list_elem_of_fmap in Hl as (q & -> & Hq). apply list_elem_of_fmap in Hep as (e' & [= -> ->] & He).
      destruct (proj2 (Hdom q) Hq) as [es' Hes]. rewrite Hes in He. eauto.
    + intros (es' & Hes & He). exists (tagged p es'). split; [apply list_elem_of_fmap; by exists e|].
      unfold es. rewrite zip_with_fmap_r, zip_with_diag. apply list_elem_of_fmap. exists p.
      rewrite Hes. split; [done|]. apply Hdom. eauto.
Qed.

Lemma start_node_ok m idx d segs mb node env :
  no_faults d → store_inv m idx d segs → dir_ok m d → (bloomEnabled m = true → env = true) →
  ∃ m', start_node (mdir m) mb node env d = (Ok (m', idx), d) ∧
    store_inv m' idx d segs ∧ dir_ok m' d ∧ bloomEnabled m' = env ∧ mdir m' = mdir m.
Proof.
  intros Hn [Hok Hdom Hf Hi] Hd Henv.
  destruct (NewManager_ok m d mb node env Hn Hok Hd Henv) as (m' & Hrun & Hok' & Hd' & Hin & Hbe & Hdir).
  destruct (rebuild_segments d (paths m') segs Hn) as (idx' & Hreb & Hi'); [|done|].
  { intros p. by rewrite Hdom, Hin. }
  assert (idx' = idx) as -> by (by eapply Represents_unique).
  exists m'. split; [|split; [|done]].
  - unfold start_node. io. rewrite Hrun. io. unfold SegmentPaths. rewrite Hreb. by io.
  - split; try done. intros p. by rewrite Hdom, Hin.
Qed.

(** A first start creates segment 1. *)
Lemma start_empty dir mb node env d :
  no_faults d → empty_dir dir d →
  ∃ m idx d', start_node dir mb node env d = (Ok (m, idx), d') ∧ no_faults d' ∧
    mdir m = dir ∧ bloomEnabled m = env ∧ maxSegmentBytes m = mb ∧
    store_inv m idx d' {[ seq_path dir 1 := [] ]} ∧ dir_ok m d'.
Proof.
  intros Hn [Hmk Hno]. destruct (glob_segments_spec dir d) as (ms & Hglob & _ & Hms).
  assert (ms = []) as ->.
  { destruct ms as [|p ms]; [done|]. destruct (proj1 (Hms p)) as [Hp [? Hf]]; [set_solver|].
    destruct (Hno p Hp) as [Hf' _]. congruence. }
  set (m0 := mkManager dir mb None 1 [] node env ∅). set (path := seq_path dir 1).
  assert (in_dir_seg dir path = true) as Hpath by (apply seq_path_in_dir; lia).
  pose proof (marker_ne_seg dir) as Hmp.
  assert (∀ p, BloomPath p ≠ path) as Hbp by (intros p; apply bloom_ne_seg, seq_path_seg).
  set (m := mkManager dir mb (Some (mkSegment (mkFile path 0) 0)) 2 [path] node env ∅).
  set (d' := mkDisk (<[marker_path dir := String.list_byte_of_string (segment_name 1)]>
    (<[path := []]> (files d))) (sched d)).
  assert (NewManager dir mb node env d = (Ok m, d')) as Hrun.
  { unfold NewManager. io. rewrite Hglob. io. rewrite marked_active_none by done. io.
    rewrite !(bool_decide_true ("" = "")) by done. cbn [last default from_option]. unfold id.
    change (reorder "" []) with (@nil string). change (nextSeqFromMatches []) with 1. fold m0.
    pose proof (openNewSegment_done m0 d Hn (proj1 (Hno path Hpath))) as Ho. cbn zeta in Ho.
    rewrite Ho. io. cbn [bloomEnabled paths mdir m0 nextSeq app length].
    destruct env; [|by io]. rewrite take_0. cbn [load_blooms]. by io. }
  assert (files d' !! path = Some []) as Hf.
  { cbn. rewrite lookup_insert_ne, lookup_insert_eq by (by apply Hmp, (seq_path_seg dir 1)). done. }
  assert (∀ p, in_dir_seg dir p = true → p ≠ path → files d' !! p = None) as Hother.
  { intros p Hp Hne. cbn. rewrite lookup_insert_ne by (by apply Hmp, (in_dir_seg_suffix dir p)).
    rewrite lookup_insert_ne by done. by apply Hno. }
  assert (∀ p, in_dir_seg dir p = true → files d' !! BloomPath p = None) as Hside.
  { intros p Hp. cbn. rewrite lookup_insert_ne.
    - rewrite lookup_insert_ne by (by apply not_eq_sym, Hbp). by apply Hno.
    - apply marker_not_bloom. }
  destruct (rebuild_segments d' [path] {[ path := [] ]} Hn) as (idx & Hreb & Hi).
  { intros p. rewrite list_elem_of_singleton. split.
    - intros [es [<- _]%lookup_singleton_Some]. done.
    - intros ->. rewrite lookup_singleton_eq. eauto. }
  { intros p es [<- <-]%lookup_singleton_Some. exists []. split; [done|constructor]. }
  exists m, idx, d'. split; [unfold start_node; io; rewrite Hrun; io; unfold SegmentPaths; cbn [paths m]; rewrite Hreb; by io|].
  split_and!; try done.
  - split; [split|..|done].
    + eexists _, []. split; [done|]. split; [done|]. by split.
    + apply NoDup_singleton.
    + intros p ->%list_elem_of_singleton. exists [], []. split; [done|constructor].
    + intros n Hr. cbn [nextSeq m] in Hr. change (mdir m) with dir.
      assert (seq_path dir n ≠ path) as Hne by (intros E; apply segment_path_inj in E; lia).
      split; [cbn [paths m]; by rewrite list_elem_of_singleton|]. apply Hother; [apply seq_path_in_dir; lia|done].
    + cbn [nextSeq m]. lia.
    + intros p ->%list_elem_of_singleton. apply seq_path_seg.
    + intros p bf. cbn [blooms m]. by rewrite lookup_empty.
    + intros p. cbn [paths m]. rewrite list_elem_of_singleton. split.
      * intros [es [<- _]%lookup_singleton_Some]. done.
      * intros ->. rewrite lookup_singleton_eq. eauto.
    + intros p es [<- <-]%lookup_singleton_Some. exists []. split; [done|constructor].
  - split.
    + intros p. cbn [paths m mdir]. rewrite list_elem_of_singleton. split.
      * intros ->. split; [done|]. rewrite Hf. eauto.
      * intros [Hp [b Hb]]. destruct (decide (p = path)) as [|Hne]; [done|].
        rewrite (Hother p Hp Hne) in Hb. done.
    + exists 1. split; [lia|]. split; [done|]. cbn. by rewrite lookup_insert_eq.
    + intros p n ->%list_elem_of_singleton. unfold path. rewrite path_seq_seq_path by lia. intros [= <-]. lia.
    + intros p fb bf Hp Hfb. rewrite Hside in Hfb by done. done.
    + right. by split.
Qed.

(** ** Lemmas: appends keep the directory *)

(** Only the active segment changed. *)
Lemma dir_ok_touch m m' d d' :
  dir_ok m d → mgr_ok m' d' → paths m' = paths m → mdir m' = mdir m →
  bloomEnabled m' = bloomEnabled m → blooms m' = blooms m →
  (∀ q, last (paths m) ≠ Some q → files d' !! q = files d !! q) → dir_ok m' d'.
Proof.
  intros Hd Hok Hp Hdir Hbe Hb Hsame. pose proof Hd as [Dp (n & Dn & Dl & Dm) Ds Dsd Db].
  assert (∀ q, HasSuffix q ".seg" = false → files d' !! q = files d !! q) as Hns.
  { intros q Hq. apply Hsame. rewrite Dl. intros [= <-]. by rewrite seq_path_seg in Hq. }
  assert (∀ p, p ∈ paths m → is_Some (files d' !! p)) as Hex.
  { intros p Hin. destruct (ok_files _ _ Hok p) as (b & es & -> & _); [by rewrite Hp|]. by eexists. }
  split; rewrite ?Hp, ?Hdir, ?Hbe, ?Hb.
  - intros p. split.
    + intros Hin. split; [by apply Dp|by apply Hex].
    + intros [Hp1 Hp2]. destruct (decide (last (paths m) = Some p)) as [Hl|Hl].
      * by apply last_Some_elem_of.
      * apply Dp. by rewrite <- Hsame.
  - exists n. split; [done|]. split; [done|]. rewrite Hns; [done|]. unfold marker_path. by rewrite marker_not_seg.
  - done.
  - intros p fb bf Hp1. rewrite Hns by apply bloom_path_not_seg. intros Hfb Hr.
    destruct (Dsd p fb bf Hp1 Hfb Hr) as (? & Hl & ?). by rewrite Hsame.
  - destruct Db as [?|[? Hno]]; [by left|right]. split; [done|]. intros p Hp1.
    rewrite Hns by apply bloom_path_not_seg. by apply Hno.
Qed.

Lemma append_active_fields m data d m' r d' :
  append_active m data d = ((m', r), d') →
  paths m' = paths m ∧ mdir m' = mdir m ∧ bloomEnabled m' = bloomEnabled m ∧ blooms m' = blooms m.
Proof.
  unfold append_active. destruct (active m) as [seg|]; [|by intros [= <- _ _]].
  rewrite bind_run. destruct (Segment_Append seg data d) as [[seg' r'] d1]. cbn. by intros [= <- _ _].
Qed.

(** Rotation adds a segment, moves the marker, and covers the closed segment. *)
Lemma rotate_dir m d m' d' :
  no_faults d → mgr_ok m d → dir_ok m d → nextSeq m + 1 < 2 ^ 64 →
  rotate m d = ((m', Ok ()), d') → dir_ok m' d'.
Proof.
  intros Hn Hok Hd Hseq. pose proof Hok as [(seg & b & Ha & Hl & Hat) Hnd Hf Hfr Hsq Hnm Hbl].
  pose proof Hd as [Dp _ Ds Dsd Db].
  set (ap := f_path (seg_file seg)) in *. assert (ap ∈ paths m) as Hin by by apply last_Some_elem_of.
  destruct (Hf ap Hin) as (bytes & es & Hfile & Hh).
  destruct (Hfr (nextSeq m)) as [Hnew Hfree]; [lia|]. set (path := seq_path (mdir m) (nextSeq m)) in *.
  assert (HasSuffix path ".seg" = true) as Hseg by apply seq_path_seg.
  set (fs := if bloomEnabled m then <[BloomPath ap := WriteTo (segment_bloom es)]>
               (delete (BloomPath ap +:+ ".tmp") (files d)) else files d).
  set (bl := if bloomEnabled m then <[ap := segment_bloom es]> (blooms m) else blooms m).
  assert (∀ q, HasSuffix q ".seg" = true → fs !! q = files d !! q) as Hfs.
  { intros q Hq. subst fs. destruct (bloomEnabled m); [|done].
    by apply (sidecar_agree d ap (WriteTo (segment_bloom es))). }
  assert (rotate m d = ((mkManager (mdir m) (maxSegmentBytes m) (Some (mkSegment (mkFile path 0) 0))
      (uint64 (nextSeq m + 1)) (paths m ++ [path]) (nodeID m) (bloomEnabled m) bl, Ok ()),
    mkDisk (<[marker_path (mdir m) := String.list_byte_of_string (segment_name (nextSeq m))]>
      (<[path := []]> fs)) (sched d))) as ->.
  { unfold rotate. rewrite Hl, Ha. io.
    rewrite (Segment_Close_done d seg (length b)) by (done || by destruct Hat as (_ & ? & _)). io. fold ap.
    assert (fs !! path = None) as Hfree' by (by rewrite Hfs).
    set (mc := with_active _ m). change (bloomEnabled mc) with (bloomEnabled m).
    subst fs bl. destruct (bloomEnabled m) eqn:Hbe.
    - rewrite (write_segment_bloom_done mc d ap bytes es) by done. io.
      rewrite openNewSegment_done by done. cbn. by rewrite Hbe.
    - io. rewrite openNewSegment_done by done. cbn. by rewrite Hbe. }
  intros [= <- <-].
  assert (∀ q, HasSuffix q ".seg" = true → q ≠ path →
    <[marker_path (mdir m) := String.list_byte_of_string (segment_name (nextSeq m))]> (<[path := []]> fs) !! q
    = files d !! q) as Hold.
  { intros q Hq Hne. rewrite lookup_insert_ne by (by apply marker_ne_seg).
    rewrite lookup_insert_ne by done. by apply Hfs. }
  assert (∀ p, <[marker_path (mdir m) := String.list_byte_of_string (segment_name (nextSeq m))]>
    (<[path := []]> fs) !! BloomPath p = fs !! BloomPath p) as Hside.
  { intros p. rewrite lookup_insert_ne by apply marker_not_bloom.
    by rewrite lookup_insert_ne by (by apply not_eq_sym, bloom_ne_seg). }
  split; cbn [paths mdir files bloomEnabled blooms].
  - intros p. rewrite elem_of_app, list_elem_of_singleton. destruct (decide (p = path)) as [->|Hne].
    + split; [|by right]. intros _. split; [apply seq_path_in_dir; lia|].
      rewrite lookup_insert_ne by (by apply marker_ne_seg). rewrite lookup_insert_eq. by eexists.
    + split.
      * intros [Hp|?]; [|done]. rewrite Hold by (done || by apply Hnm). by apply Dp.
      * intros [Hp1 Hp2]. left. apply Dp. rewrite Hold in Hp2 by (done || by eapply in_dir_seg_suffix). done.
  - exists (nextSeq m). split; [lia|]. split; [apply last_snoc|]. by rewrite lookup_insert_eq.
  - intros p n [Hp| ->%list_elem_of_singleton]%elem_of_app; [by apply Ds|].
    unfold path. rewrite path_seq_seq_path by lia. intros [= <-]. lia.
  - intros p fb bf Hp. rewrite Hside, last_snoc. intros Hfb Hr.
    assert (p ∈ paths m ∧ ∃ bytes es, files d !! p = Some bytes ∧ holds bytes es ∧ covers bf es)
      as (Hpp & Hc).
    { subst fs. destruct (bloomEnabled m).
      - destruct (decide (p = ap)) as [->|Hne].
        + rewrite lookup_insert_eq in Hfb. injection Hfb as <-. rewrite ReadFrom_WriteTo in Hr.
          injection Hr as <-. split; [done|]. exists bytes, es. split_and!; [done..|]. apply segment_bloom_covers.
        + rewrite lookup_insert_ne in Hfb
            by (intros E%eq_sym%BloomPath_inj; [done|by eapply in_dir_seg_suffix|by apply Hnm]).
          rewrite lookup_delete_ne in Hfb by (by apply not_eq_sym, bloom_not_tmp).
          destruct (Dsd p fb bf Hp Hfb Hr) as (? & _ & ?). done.
      - destruct (Dsd p fb bf Hp Hfb Hr) as (? & _ & ?). done. }
    assert (p ≠ path) as Hne by (intros ->; done).
    split; [set_solver|]. split; [congruence|]. rewrite Hold by (done || by apply Hnm). done.
  - destruct Db as [Hbe|[Hb0 Hno]]; [by left|]. subst fs bl. destruct (bloomEnabled m); [by left|].
    right. split; [done|]. intros p Hp. rewrite Hside. by apply Hno.
Qed.

Lemma appendLocked_dir m d e data m' d' :
  no_faults d → mgr_ok m d → dir_ok m d → can_append m e data →
  appendLocked m e d = ((m', Ok ()), d') → dir_ok m' d'.
Proof.
  intros Hn Hok Hd (Hm & Hl & Hseq & Hbig). destruct (stored_exists _ _ Hok) as [es Hes].
  pose proof (ok_active _ _ Hok) as (seg & b & Ha & _). unfold appendLocked. rewrite Ha, Hm.
  destruct (must_rotate m seg data).
  - destruct (rotate_ok m d Hn Hok Hseq)
      as (m1 & d1 & Hrot & Hn1 & Hok1 & _ & _ & (seg1 & Ha1 & Hz) & Hst1 & _).
    pose proof (rotate_dir m d m1 d1 Hn Hok Hd Hseq Hrot) as Hd1. io. rewrite Hrot. io. intros Happ.
    destruct (append_active_ok m1 d1 es e data) as (m2 & d2 & Heq & _ & Hok2 & _ & _ & _ & Hk); [by auto..| |].
    { intros s Hs. simplify_eq. rewrite Hz. unfold maxRecordSize in *. lia. }
    rewrite Heq in Happ. injection Happ as <- <-.
    destruct (append_active_fields _ _ _ _ _ _ Heq) as (? & ? & ? & ?). by eapply dir_ok_touch.
  - intros Happ. destruct (append_active_ok m d es e data) as (m2 & d2 & Heq & _ & Hok2 & _ & _ & _ & Hk);
      [by auto..|].
    rewrite Heq in Happ. injection Happ as <- <-.
    destruct (append_active_fields _ _ _ _ _ _ Heq) as (? & ? & ? & ?). by eapply dir_ok_touch.
Qed.

Lemma openNewSegment_fixed m d m' r d' :
  openNewSegment m d = ((m', r), d') → bloomEnabled m' = bloomEnabled m ∧ mdir m' = mdir m.
Proof.
  unfold openNewSegment. rewrite bind_run. destruct (OpenSegment _ d) as [[seg|e] d1]; cbn; [|by intros [= <- _ _]].
  rewrite bind_run. cbn. by intros [= <- _ _].
Qed.

(** Filters are not switched on or off by a write, and the directory stays. *)
Lemma appendLocked_fixed m e d m' r d' :
  appendLocked m e d = ((m', r), d') → bloomEnabled m' = bloomEnabled m ∧ mdir m' = mdir m.
Proof.
  assert (∀ m data d m' r d', append_active m data d = ((m', r), d') →
    bloomEnabled m' = bloomEnabled m ∧ mdir m' = mdir m) as Ha.
  { intros * (_ & ? & ? & _)%append_active_fields. done. }
  assert (∀ m d m' r d', rotate m d = ((m', r), d') →
    bloomEnabled m' = bloomEnabled m ∧ mdir m' = mdir m) as Hr.
  { intros m0 d0 m1 r0 d1. unfold rotate. destruct (last (paths m0)), (active m0); try by intros [= <- _ _].
    rewrite bind_run. destruct (Segment_Close _ d0) as [[?|?] d2]; cbn; [|by intros [= <- _ _]].
    set (mc := with_active _ m0). change (bloomEnabled m0) with (bloomEnabled mc).
    change (mdir m0) with (mdir mc). rewrite bind_run. destruct (bloomEnabled mc) eqn:E; cbn [fst snd].
    - destruct (write_segment_bloom mc s d2) as [m2 d3] eqn:Hw. cbn [fst snd].
      intros [-> ->]%openNewSegment_fixed. revert Hw. unfold write_segment_bloom. rewrite bind_run.
      destruct (ReadSegment s d2) as [[es|?] d4]; cbn; [|by intros [= <- _]].
      rewrite bind_run. destruct (WriteBloom _ _ d4) as [[?|?] d5]; cbn; by intros [= <- _].
    - rewrite <- E. by intros ?%openNewSegment_fixed. }
  unfold appendLocked. destruct (active m); [|by intros [= <- _ _]].
  destruct (marshalLogEntry e) as [data|]; [|by intros [= <- _ _]].
  destruct (must_rotate _ _ _); [|by intros ?%Ha].
  rewrite bind_run. destruct (rotate m d) as [[m1 [?|?]] d1] eqn:E; cbn; apply Hr in E as [<- <-].
  - by intros ?%Ha.
  - by intros [= <- _ _].
Qed.

(** ** Properties *)

(** C20. Restarting recovers the node: on a disk without faults, from the directory of a node
    in step with it, startup succeeds without changing a file; the rebuilt index equals the old
    one, the manager is in step with the same segments, and every query is answered as before,
    where entries of one ID are one entry and the filters are off or safe for the query. Filters
    may be switched on by the restart, not off. *)
Theorem restart_recovers (m : Manager) (idx : Index) (d : Disk) (segs : gmap string (list LogEntry))
    (maxBytes : Z) (node : string) (bloom_env : bool) :
  no_faults d → store_inv m idx d segs → dir_ok m d → (bloomEnabled m = true → bloom_env = true) →
  ∃ m', start_node (mdir m) maxBytes node bloom_env d = (Ok (m', idx), d) ∧
    store_inv m' idx d segs ∧ dir_ok m' d ∧
    ∀ q ast took, id_consistent (entries_of segs) → 0 ≤ Limit q → 0 ≤ Offset q →
      Parse (QueryString q) = Ok ast → bloom_env = false ∨ (∀ n, ast = Some n → bloom_safe (entries_of segs) n) →
      Execute idx m' None None took q d = Execute idx m None None took q d.
Proof.
  intros Hn Hinv Hd Henv.
  destruct (start_node_ok m idx d segs maxBytes node bloom_env Hn Hinv Hd Henv) as (m' & Hrun & Hinv' & Hd' & Hbe & _).
  exists m'. split_and!; try done. intros q ast took Hc Hl Ho Hp Hs.
  assert (∀ mm, dir_ok mm d → (bloom_env = false → bloomEnabled mm = false) →
    blooms mm = ∅ ∨ (∀ n, ast = Some n → bloom_safe (entries_of segs) n)) as Hb.
  { intros mm Hdm Hoff. destruct Hs as [Hs|Hs]; [left|by right].
    destruct (dir_bloom _ _ Hdm) as [Hon|[? _]]; [|done]. rewrite Hoff in Hon; done. }
  rewrite !(Execute_scan idx _ d segs q ast took); try done; try (by apply store_inv_ok); apply Hb; try done.
  - intros ->. by destruct (bloomEnabled m); [discriminate Henv|].
  - congruence.
Qed.
End recovery_lemmas.

(** ** Witnesses *)

Lemma empty_disk_dir dir : empty_dir dir (mkDisk ∅ []).
Proof. by split. Qed.

Lemma restart_recovers_witness :
  let H1 := ascii_tables in let H2 := bit_codec in let H3 := exact_bloom in
  ∃ m idx d, start_node "data" 1000 "n1" false (mkDisk ∅ []) = (Ok (m, idx), d) ∧
  ∃ m', start_node (mdir m) 2000 "n1" true d = (Ok (m', idx), d) ∧
    store_inv m' idx d {[ seq_path "data" 1 := [] ]} ∧ dir_ok m' d ∧
    ∀ q ast took, id_consistent (entries_of {[ seq_path "data" 1 := [] ]}) → 0 ≤ Limit q → 0 ≤ Offset q →
      Parse (QueryString q) = Ok ast →
      true = false ∨ (∀ n, ast = Some n → bloom_safe (entries_of {[ seq_path "data" 1 := [] ]}) n) →
      Execute idx m' None None took q d = Execute idx m None None took q d.
Proof.
  intros H1 H2 H3.
  destruct (@start_empty ascii_tables ascii_tables_laws bit_codec bit_codec_laws exact_bloom exact_bloom_laws
    "data" 1000 "n1" false (mkDisk ∅ [])) as (m & idx & d & Hrun & Hn & _ & _ & _ & Hinv & Hd);
    [done|apply empty_disk_dir|].
  exists m, idx, d. split; [exact Hrun|].
  apply (@restart_recovers ascii_tables ascii_tables_laws bit_codec bit_codec_laws exact_bloom exact_bloom_laws
    m idx d {[ seq_path "data" 1 := [] ]} 2000 "n1" true); [exact Hn|exact Hinv|exact Hd|done].
Defined.
