(* ===== verification/Merge.v ===== *)
(** * Merging node results ([internal/coordinator/merge.go])

    [MergeResults] deduplicates the entries of all nodes that answered, ranks
    them and cuts the client's page out. The parts come from a channel in the
    order the nodes answered. *)

From S2P Require Import Prelude Types Record Ranking.

Record nodeResult := mkNodeResult {
  nr_nodeID : string;
  nr_entries : list LogEntry;
  nr_total : Z;
  nr_err : option GoError;
}.

Record mergeOutput := mkMergeOutput {
  mo_entries : list LogEntry;
  mo_total : Z;
  mo_partial : bool;
}.

(** The inner loop over the entries of one part. *)
Fixpoint combine_entries (seen : gset string) (combined : list LogEntry) (es : list LogEntry)
    : gset string * list LogEntry :=
  match es with
  | [] => (seen, combined)
  | e :: es' =>
    if decide (ID e ∈ seen) then combine_entries seen combined es'
    else combine_entries ({[ID e]} ∪ seen) (combined ++ [e]) es'
  end.

(** The outer loop over the parts. *)
Fixpoint combine_parts (partial : bool) (seen : gset string) (combined : list LogEntry)
    (parts : list nodeResult) : bool * list LogEntry :=
  match parts with
  | [] => (partial, combined)
  | p :: parts' =>
    match nr_err p with
    | Some _ => combine_parts true seen combined parts'
    | None =>
      let '(seen', combined') := combine_entries seen combined (nr_entries p) in
      combine_parts partial seen' combined' parts'
    end
  end.

(** [MergeResults]; [None] is the run-time panic of slicing with a negative
    offset. A limit of zero or less keeps everything after the offset. *)
Definition MergeResults (parts : list nodeResult) (offset limit : Z) : option mergeOutput :=
  let '(partial, combined) := combine_parts false ∅ [] parts in
  let combined := sort_entries combined in
  let total := int32 (len combined) in
  let off := if len combined <? offset then len combined else offset in
  if off <? 0 then None else
  let combined := drop (Z.to_nat off) combined in
  let combined := if (0 <? limit) && (limit <? len combined)
                  then take (Z.to_nat limit) combined else combined in
  Some (mkMergeOutput combined total partial).

(** ** Specification *)

(** The entries of the parts without error. *)
Definition answered (parts : list nodeResult) : list LogEntry :=
  parts ≫= λ p, match nr_err p with None => nr_entries p | Some _ => [] end.

Definition failed (parts : list nodeResult) : bool :=
  existsb (λ p, match nr_err p with None => false | Some _ => true end) parts.

(** Client paging: a non-positive limit keeps everything. *)
Definition window (offset limit : Z) (l : list LogEntry) : list LogEntry :=
  let l := drop (Z.to_nat offset) l in
  if 0 <? limit then take (Z.to_nat limit) l else l.

(** The first [n] matches of a node, in ranking order: what a node that was
    asked for [n] entries answers. *)
Definition top (n : nat) (matches : list LogEntry) : list LogEntry :=
  take n (sort_entries (dedup matches)).

Definition node_answer (n : nat) (id : string) (matches : list LogEntry) : nodeResult :=
  mkNodeResult id (top n matches) (int32 (len (dedup matches))) None.

(** ** Lemmas *)

Lemma dedup_from_app seen a b :
  dedup_from seen (a ++ b) = dedup_from seen a ++ dedup_from (list_to_set (ID <$> a) ∪ seen) b.
Proof.
  revert seen. induction a as [|e a IH]; intros seen; [cbn; by rewrite union_empty_l_L|].
  cbn [app dedup_from]. case_decide; rewrite IH; cbn [app]; [|f_equal]; f_equal; f_equal;
    rewrite fmap_cons; set_solver.
Qed.

Lemma combine_entries_spec seen acc es :
  combine_entries seen acc es = (list_to_set (ID <$> es) ∪ seen, acc ++ dedup_from seen es).
Proof.
  revert seen acc. induction es as [|e es IH]; intros seen acc; cbn [combine_entries].
  - cbn. by rewrite union_empty_l_L, app_nil_r.
  - cbn [dedup_from]. case_decide; rewrite IH, fmap_cons; f_equal;
      [set_solver|set_solver|by rewrite <- app_assoc].
Qed.

Lemma combine_parts_spec partial seen acc parts :
  combine_parts partial seen acc parts
  = (partial || failed parts, acc ++ dedup_from seen (answered parts)).
Proof.
  revert partial seen acc. induction parts as [|p parts IH]; intros partial seen acc; cbn.
  - by rewrite orb_false_r, app_nil_r.
  - destruct (nr_err p); [by rewrite IH, orb_true_r|].
    rewrite combine_entries_spec, IH, dedup_from_app. cbn. by rewrite app_assoc.
Qed.

Lemma drop_clip {A} (l : list A) (o : Z) :
  drop (Z.to_nat (if len l <? o then len l else o)) l = drop (Z.to_nat o) l.
Proof.
  unfold len. destruct (Z.ltb_spec (Z.of_nat (length l)) o); [|done].
  rewrite Nat2Z.id, !drop_ge by lia. done.
Qed.

Lemma MergeResults_spec parts offset limit :
  0 ≤ offset →
  MergeResults parts offset limit =
    let ranked := sort_entries (dedup (answered parts)) in
    Some (mkMergeOutput (window offset limit ranked) (int32 (len ranked)) (failed parts)).
Proof.
  intros Ho. unfold MergeResults. rewrite combine_parts_spec. cbn [app orb].
  fold (dedup (answered parts)). set (r := sort_entries (dedup (answered parts))).
  rewrite (proj2 (Z.ltb_ge _ 0)) by (unfold len; case_match; lia).
  rewrite drop_clip. unfold window. cbv zeta. do 2 f_equal.
  destruct (Z.ltb_spec 0 limit); [|done]. cbn [andb].
  destruct (Z.ltb_spec limit (len (drop (Z.to_nat offset) r))) as [|Hl]; [done|].
  unfold len in Hl. by rewrite take_ge by lia.
Qed.

Lemma answered_perm parts parts' : parts ≡ₚ parts' → answered parts ≡ₚ answered parts'.
Proof. intros Hp. unfold answered. by apply bind_Permutation. Qed.

Lemma failed_spec parts : failed parts = true ↔ ∃ p, p ∈ parts ∧ is_Some (nr_err p).
Proof.
  unfold failed. rewrite existsb_exists. setoid_rewrite <- list_elem_of_In.
  split; intros (p & Hp & He); exists p; (split; [done|]); revert He;
    destruct (nr_err p); intros He; eauto; first [done | by destruct He].
Qed.

Lemma failed_perm parts parts' : parts ≡ₚ parts' → failed parts = failed parts'.
Proof. intros Hp. apply eq_true_iff_eq. rewrite !failed_spec. by setoid_rewrite Hp. Qed.

Lemma answered_node_answers n ids shards :
  length ids = length shards →
  answered (zip_with (node_answer n) ids shards) = mjoin (top n <$> shards).
Proof.
  revert shards. induction ids as [|i ids IH]; intros [|s shards] Hl; try done.
  cbn. f_equal. apply IH. by injection Hl.
Qed.

Lemma failed_node_answers n ids shards : failed (zip_with (node_answer n) ids shards) = false.
Proof. revert shards. induction ids as [|i ids IH]; intros [|s shards]; cbn; auto. Qed.

Lemma window_take {A} (l l' : list A) (n o k : nat) :
  (o + k ≤ n)%nat → take n l = take n l' → take k (drop o l) = take k (drop o l').
Proof.
  intros Hn Heq. rewrite !take_drop_commute. f_equal.
  replace (o + k)%nat with ((o + k) `min` n)%nat by lia. by rewrite <- !take_take, Heq.
Qed.

Lemma ID_sub_length l1 l2 :
  (∀ e, e ∈ l1 → e ∈ l2) → id_consistent l2 → (length (dedup l1) ≤ length (dedup l2))%nat.
Proof.
  intros Hsub Hc. apply submseteq_length, NoDup_submseteq.
  - apply NoDup_ID_entries, dedup_NoDup.
  - intros e [He _]%dedup_from_elem. rewrite dedup_elem by done. auto.
Qed.

Lemma top_elem n m e : e ∈ top n m → e ∈ m.
Proof.
  unfold top. intros [i Hi]%list_elem_of_lookup. apply lookup_take_Some in Hi as [Hi _].
  apply list_elem_of_lookup_2 in Hi. rewrite sort_entries_perm in Hi.
  by apply dedup_from_elem in Hi as [? _].
Qed.

Lemma top_all n m e :
  id_consistent m → (length (dedup m) ≤ n)%nat → e ∈ top n m ↔ e ∈ m.
Proof.
  intros Hc Hl. unfold top. rewrite take_ge by (by rewrite sort_entries_perm).
  by rewrite sort_entries_perm, dedup_elem.
Qed.

Lemma join_top_elem n shards e :
  e ∈ mjoin (top n <$> shards) → e ∈ mjoin shards.
Proof.
  rewrite !list_elem_of_join. intros (q & He & (p & -> & Hp)%list_elem_of_fmap).
  exists p. split; [|done]. by eapply top_elem.
Qed.

(** ** Properties *)

(** The merge does not depend on the order in which the nodes answer: however
    the results arrive on the channel, the entries, the total and the partial flag are
    the same. *)
Theorem merge_order_independent (parts parts' : list nodeResult) (offset limit : Z) :
  parts ≡ₚ parts' → id_consistent (answered parts) → 0 ≤ offset →
  MergeResults parts offset limit = MergeResults parts' offset limit.
Proof.
  intros Hp Hc Ho. rewrite !MergeResults_spec by done. cbv zeta.
  rewrite (failed_perm _ _ Hp). apply answered_perm in Hp.
  by rewrite (ranked_ext (answered parts) (answered parts')); [| |intros ??; rewrite <- Hp; auto
    |intros e; by rewrite Hp].
Qed.

(** Top-k completeness of the fan-out: when every node returns the first [n] of
    its matches and the client's window fits in [n], the merged page is the page of
    the ranking of all matches of all nodes, replicas counted once, although no node
    sent more than [n] entries. *)
Theorem merge_window_exact (ids : list string) (shards : list (list LogEntry)) (offset limit : Z)
    (n : nat) :
  length ids = length shards → id_consistent (mjoin shards) →
  0 ≤ offset → 0 < limit → offset + limit ≤ Z.of_nat n →
  ∃ total, MergeResults (zip_with (node_answer n) ids shards) offset limit =
    Some (mkMergeOutput
      (take (Z.to_nat limit) (drop (Z.to_nat offset) (sort_entries (dedup (mjoin shards)))))
      total false).
Proof.
  intros Hids Hc Ho Hl Hn. eexists. rewrite MergeResults_spec by done. cbv zeta.
  rewrite answered_node_answers, failed_node_answers by done. do 2 f_equal.
  unfold window. rewrite (proj2 (Z.ltb_lt 0 limit)) by done.
  apply (window_take _ _ n); [lia|]. by apply ranked_topk.
Qed.

(** The total of a merge is a lower bound of the number of distinct matches, and
    exact when no node had more matches than it was asked for. *)
Theorem merge_total_bound (ids : list string) (shards : list (list LogEntry)) (offset limit : Z)
    (n : nat) :
  length ids = length shards → id_consistent (mjoin shards) → 0 ≤ offset →
  len (dedup (mjoin shards)) < 2 ^ 31 →
  ∃ out, MergeResults (zip_with (node_answer n) ids shards) offset limit = Some out ∧
    0 ≤ mo_total out ≤ len (dedup (mjoin shards)) ∧
    (Forall (λ s, (length (dedup s) ≤ n)%nat) shards → mo_total out = len (dedup (mjoin shards))).
Proof.
  intros Hids Hc Ho Hsmall. eexists. rewrite MergeResults_spec by done. split; [done|].
  cbv zeta. rewrite answered_node_answers by done. cbn [mo_total].
  pose proof (ID_sub_length _ _ (join_top_elem n shards) Hc) as Hle. unfold len in *.
  rewrite sort_entries_perm, int32_small by (unfold in_int32; lia). split; [lia|].
  intros Hall. f_equal. apply Nat.le_antisymm; [done|]. apply ID_sub_length.
  - intros e (s & He & Hs)%list_elem_of_join. apply list_elem_of_join. exists (top n s).
    split; [|by apply list_elem_of_fmap_2]. apply top_all; [| |done].
    + intros a b ???. apply Hc; [apply list_elem_of_join; eauto..|done].
    + by eapply Forall_forall in Hall.
  - intros a b Ha Hb. apply Hc; by eapply join_top_elem.
Qed.

(** A merged result is marked partial exactly when some node failed. *)
Theorem merge_partial_iff (parts : list nodeResult) (offset limit : Z) :
  0 ≤ offset →
  ∃ out, MergeResults parts offset limit = Some out ∧
    (mo_partial out = true ↔ ∃ p, p ∈ parts ∧ is_Some (nr_err p)).
Proof.
  intros Ho. eexists. rewrite MergeResults_spec by done. split; [done|].
  cbn [mo_partial]. apply failed_spec.
Qed.

(** ** Witnesses *)

(** Two nodes with a common entry. *)
Definition sample_shards : list (list LogEntry) :=
  [[sample_entry "a" "x" 1; sample_entry "b" "y" 2]; [sample_entry "b" "y" 2; sample_entry "c" "z" 3]].

Lemma sample_shards_consistent : id_consistent (mjoin sample_shards).
Proof.
  intros a b Ha Hb. cbn in Ha, Hb.
  repeat (apply elem_of_cons in Ha as [->|Ha]; [|try by apply not_elem_of_nil in Ha]);
  repeat (apply elem_of_cons in Hb as [->|Hb]; [|try by apply not_elem_of_nil in Hb]); done.
Qed.

Lemma merge_order_independent_witness :
  let p1 := mkNodeResult "n1" [sample_entry "a" "x" 1] 1 None in
  let p2 := mkNodeResult "n2" [sample_entry "b" "y" 2] 1 None in
  MergeResults [p1; p2] 0 10 = MergeResults [p2; p1] 0 10.
Proof.
  intros p1 p2. apply merge_order_independent; [apply Permutation_swap| |done].
  intros a b Ha Hb. cbn in Ha, Hb.
  repeat (apply elem_of_cons in Ha as [->|Ha]; [|try by apply not_elem_of_nil in Ha]);
  repeat (apply elem_of_cons in Hb as [->|Hb]; [|try by apply not_elem_of_nil in Hb]); done.
Defined.

Lemma merge_window_exact_witness :
  ∃ total, MergeResults (zip_with (node_answer 2) ["n1"; "n2"] sample_shards) 1 1 =
    Some (mkMergeOutput [sample_entry "b" "y" 2] total false).
Proof.
  apply (merge_window_exact ["n1"; "n2"] sample_shards 1 1 2); try done.
  apply sample_shards_consistent.
Defined.

Lemma merge_total_bound_witness :
  ∃ out, MergeResults (zip_with (node_answer 1) ["n1"; "n2"] sample_shards) 0 1 = Some out ∧
    0 ≤ mo_total out ≤ len (dedup (mjoin sample_shards)) ∧
    (Forall (λ s, (length (dedup s) ≤ 1)%nat) sample_shards →
       mo_total out = len (dedup (mjoin sample_shards))).
Proof.
  apply (merge_total_bound ["n1"; "n2"] sample_shards 0 1 1); try done.
  apply sample_shards_consistent.
Defined.

Lemma merge_partial_iff_witness :
  let parts := [mkNodeResult "n1" [] 0 None; mkNodeResult "n2" [] 0 (Some context_DeadlineExceeded)] in
  ∃ out, MergeResults parts 0 10 = Some out ∧
    (mo_partial out = true ↔ ∃ p, p ∈ parts ∧ is_Some (nr_err p)).
Proof. intros parts. apply (merge_partial_iff parts 0 10). done. Defined.
