(* ===== verification/Fsm.v ===== *)
(** * Cluster metadata: the Raft state machine ([internal/metadata/state.go], [fsm.go])

    The state machine keeps the registered nodes and the owner of every shard.
    Its specification is a registry of nodes without any shard data; the state
    is at all times the layout of the shards over the registry. *)

From S2P Require Import Prelude.

Module Fsm.

Definition NodeStatus : Type := string.
Definition NodeHealthy : NodeStatus := "healthy".
Definition NodeUnhealthy : NodeStatus := "unhealthy".

Record NodeRecord := mkNodeRecord {
  n_ID : string;
  n_Address : string;
  n_Shards : list Z;
  n_Status : NodeStatus;
  n_LastSeen : Z;
}.

Record ShardRecord := mkShardRecord {
  s_ShardID : Z;
  s_PrimaryNode : string;
  s_ReplicaNode : string;
}.

Record ClusterState := mkClusterState {
  Nodes : gmap string NodeRecord;
  Shards : gmap Z ShardRecord;
}.

(** The zero values a missing map key reads as. *)
Definition zero_node : NodeRecord := mkNodeRecord "" "" [] "" 0.
Definition zero_shard : ShardRecord := mkShardRecord 0 "" "".

Definition with_Shards (l : list Z) (n : NodeRecord) : NodeRecord :=
  mkNodeRecord (n_ID n) (n_Address n) l (n_Status n) (n_LastSeen n).
Definition with_Primary (p : string) (s : ShardRecord) : ShardRecord :=
  mkShardRecord (s_ShardID s) p (s_ReplicaNode s).
Definition with_Replica (r : string) (s : ShardRecord) : ShardRecord :=
  mkShardRecord (s_ShardID s) (s_PrimaryNode s) r.

(** [sort.Strings] and [sort.Ints]. *)
Definition sort_strings : list string → list string := merge_sort String.le.
Definition sort_ints : list Z → list Z := merge_sort Z.le.

(** ** The machine *)

Record FSM := mkFSM {
  state : ClusterState;
  totalShards : Z;
}.

(** The loop of [NewFSM]. *)
Definition NewFSM (totalShards : Z) : FSM :=
  let shards := foldl (λ m i, <[i := mkShardRecord i "" ""]> m) ∅ (seqZ 0 totalShards) in
  mkFSM (mkClusterState ∅ shards) totalShards.

(** The IDs of the healthy nodes, sorted. *)
Definition healthyIDs (cs : ClusterState) : list string :=
  sort_strings (filter (λ x, n_Status x.2 = NodeHealthy) (map_to_list (Nodes cs))).*1.

(** One turn of the round-robin loop. *)
Definition assign_primary (ids : list string) (cs : ClusterState) (ix : nat * Z) : ClusterState :=
  let '(i, shardID) := ix in
  let nodeID := default "" (ids !! (i mod length ids)%nat) in
  let sr := default zero_shard (Shards cs !! shardID) in
  let shards := <[shardID := with_Primary nodeID sr]> (Shards cs) in
  let n := default zero_node (Nodes cs !! nodeID) in
  let nodes := <[nodeID := with_Shards (n_Shards n ++ [shardID]) n]> (Nodes cs) in
  mkClusterState nodes shards.

Definition rebalancePrimary (cs : ClusterState) : ClusterState :=
  let ids := healthyIDs cs in
  if decide (length ids = 0%nat) then cs else
  let allShards := sort_ints (map_to_list (Shards cs)).*1 in
  let cs := mkClusterState (with_Shards [] <$> Nodes cs) (with_Primary "" <$> Shards cs) in
  let cs := foldl (assign_primary ids) cs (imap pair allShards) in
  mkClusterState ((λ n, with_Shards (sort_ints (n_Shards n)) n) <$> Nodes cs) (Shards cs).

(** The first healthy node that is not the primary. *)
Fixpoint first_other (primary : string) (ids : list string) : string :=
  match ids with
  | [] => ""
  | id :: ids' => if decide (id = primary) then first_other primary ids' else id
  end.

Definition assignReplicas (cs : ClusterState) : ClusterState :=
  let ids := healthyIDs cs in
  mkClusterState (Nodes cs)
    ((λ sr, with_Replica (first_other (s_PrimaryNode sr) ids) sr) <$> Shards cs).

Inductive payload :=
  | RegisterNodePayload (NodeID Address : string) (NowUnixNs : Z)
  | UpdateHeartbeatPayload (NodeID : string) (NowUnixNs : Z)
  | MarkUnhealthyPayload (NodeID : string).

Definition applyRegisterNode (NodeID Address : string) (NowUnixNs : Z) (cs : ClusterState)
    : ClusterState * result () :=
  let register :=
    let rec := mkNodeRecord NodeID Address [] NodeHealthy NowUnixNs in
    (assignReplicas (rebalancePrimary (mkClusterState (<[NodeID := rec]> (Nodes cs)) (Shards cs))),
     Ok ()) in
  match Nodes cs !! NodeID with
  | Some existing =>
    if decide (n_Status existing = NodeHealthy) then
      let existing := mkNodeRecord (n_ID existing) Address (n_Shards existing) (n_Status existing) NowUnixNs in
      (mkClusterState (<[NodeID := existing]> (Nodes cs)) (Shards cs), Ok ())
    else register
  | None => register
  end.

Definition applyUpdateHeartbeat (NodeID : string) (NowUnixNs : Z) (cs : ClusterState)
    : ClusterState * result () :=
  match Nodes cs !! NodeID with
  | None => (cs, Err (ErrMsg ("node not found: " +:+ NodeID)))
  | Some n =>
    let n := mkNodeRecord (n_ID n) (n_Address n) (n_Shards n) (n_Status n) NowUnixNs in
    (mkClusterState (<[NodeID := n]> (Nodes cs)) (Shards cs), Ok ())
  end.

(** The loops of [applyMarkUnhealthy] over the node's shards and over all shards. *)
Definition release_primary (shards : gmap Z ShardRecord) (shardID : Z) : gmap Z ShardRecord :=
  <[shardID := with_Primary "" (default zero_shard (shards !! shardID))]> shards.
Definition clear_replica (NodeID : string) (sr : ShardRecord) : ShardRecord :=
  if decide (s_ReplicaNode sr = NodeID) then with_Replica "" sr else sr.

Definition applyMarkUnhealthy (NodeID : string) (cs : ClusterState) : ClusterState * result () :=
  match Nodes cs !! NodeID with
  | None => (cs, Err (ErrMsg ("node not found: " +:+ NodeID)))
  | Some n =>
    let shards := foldl release_primary (Shards cs) (n_Shards n) in
    let shards := clear_replica NodeID <$> shards in
    let n := mkNodeRecord (n_ID n) (n_Address n) [] NodeUnhealthy (n_LastSeen n) in
    let cs := mkClusterState (<[NodeID := n]> (Nodes cs)) shards in
    (assignReplicas (rebalancePrimary cs), Ok ())
  end.

(** The dispatch of [FSM.Apply] on a decoded command. *)
Definition apply_payload (p : payload) (cs : ClusterState) : ClusterState * result () :=
  match p with
  | RegisterNodePayload id addr now => applyRegisterNode id addr now cs
  | UpdateHeartbeatPayload id now => applyUpdateHeartbeat id now cs
  | MarkUnhealthyPayload id => applyMarkUnhealthy id cs
  end.

Definition apply_all (ps : list payload) (cs : ClusterState) : ClusterState :=
  foldl (λ cs p, (apply_payload p cs).1) cs ps.

(** ** Specification: a registry, and the layout of shards over it *)

Record entry := mkEntry {
  e_Address : string;
  e_Status : NodeStatus;
  e_LastSeen : Z;
}.
Notation registry := (gmap string entry).

Definition spec_payload (p : payload) (R : registry) : registry :=
  match p with
  | RegisterNodePayload id addr now => <[id := mkEntry addr NodeHealthy now]> R
  | UpdateHeartbeatPayload id now =>
    alter (λ e, mkEntry (e_Address e) (e_Status e) now) id R
  | MarkUnhealthyPayload id =>
    alter (λ e, mkEntry (e_Address e) NodeUnhealthy (e_LastSeen e)) id R
  end.
Definition spec_all (ps : list payload) (R : registry) : registry :=
  foldl (λ R p, spec_payload p R) R ps.

(** The healthy nodes of a registry, sorted. *)
Definition healthy (R : registry) : list string :=
  sort_strings (filter (λ x, e_Status x.2 = NodeHealthy) (map_to_list R)).*1.

(** Shard [j] belongs to the healthy node number [j mod] their count; no node
    if there is none. *)
Definition primary (H : list string) (j : Z) : string :=
  default "" (H !! (Z.to_nat j mod length H)%nat).
Definition shards_of (H : list string) (n : Z) (id : string) : list Z :=
  filter (λ j, H ≠ [] ∧ primary H j = id) (seqZ 0 n).

Definition layout_shard (H : list string) (j : Z) : ShardRecord :=
  mkShardRecord j (primary H j) (first_other (primary H j) H).
Definition layout_node (H : list string) (n : Z) (id : string) (e : entry) : NodeRecord :=
  mkNodeRecord id (e_Address e) (shards_of H n id) (e_Status e) (e_LastSeen e).

(** Nodes with given shard lists, and [n] shards with given records. *)
Definition mknodes (ss : string → list Z) (R : registry) : gmap string NodeRecord :=
  map_imap (λ id e, Some (mkNodeRecord id (e_Address e) (ss id) (e_Status e) (e_LastSeen e))) R.
Definition mkshards (n : Z) (f : Z → ShardRecord) : gmap Z ShardRecord :=
  list_to_map ((λ j, (j, f j)) <$> seqZ 0 n).

Definition layout (n : Z) (R : registry) : ClusterState :=
  mkClusterState (mknodes (shards_of (healthy R) n) R) (mkshards n (layout_shard (healthy R))).

(** ** Lemmas: maps of nodes and shards *)

Lemma mknodes_lookup ss R id :
  mknodes ss R !! id =
    (λ e, mkNodeRecord id (e_Address e) (ss id) (e_Status e) (e_LastSeen e)) <$> R !! id.
Proof. unfold mknodes. rewrite map_lookup_imap. by destruct (R !! id). Qed.

Lemma mkshards_lookup n f j :
  mkshards n f !! j = if decide (0 ≤ j < n) then Some (f j) else None.
Proof.
  unfold mkshards.
  assert (NoDup ((λ j, (j, f j)) <$> seqZ 0 n).*1) as Hnd.
  { rewrite <- list_fmap_compose. unfold compose. cbn. rewrite list_fmap_id. apply NoDup_seqZ. }
  case_decide as Hj.
  - apply elem_of_list_to_map; [done|]. apply list_elem_of_fmap. exists j.
    split; [done|]. apply elem_of_seqZ. lia.
  - apply not_elem_of_list_to_map. rewrite <- list_fmap_compose. unfold compose. cbn.
    rewrite list_fmap_id, elem_of_seqZ. lia.
Qed.

Lemma mkshards_ext n f g : (∀ j, 0 ≤ j < n → f j = g j) → mkshards n f = mkshards n g.
Proof.
  intros Hfg. apply map_eq. intros j. rewrite !mkshards_lookup. case_decide; [|done].
  by rewrite Hfg.
Qed.

Lemma mkshards_fmap n f g : g <$> mkshards n f = mkshards n (λ j, g (f j)).
Proof.
  apply map_eq. intros j. rewrite lookup_fmap, !mkshards_lookup. by case_decide.
Qed.

Lemma mkshards_insert n f j v :
  0 ≤ j < n → <[j := v]> (mkshards n f) = mkshards n (λ i, if decide (i = j) then v else f i).
Proof.
  intros Hj. apply map_eq. intros i. rewrite mkshards_lookup.
  destruct (decide (i = j)) as [->|Hne].
  - by rewrite lookup_insert_eq, decide_True.
  - by rewrite lookup_insert_ne, mkshards_lookup.
Qed.

Lemma mknodes_insert ss R id e l :
  <[id := mkNodeRecord id (e_Address e) l (e_Status e) (e_LastSeen e)]> (mknodes ss R)
  = mknodes (λ i, if decide (i = id) then l else ss i) (<[id := e]> R).
Proof.
  apply map_eq. intros i. rewrite mknodes_lookup. destruct (decide (i = id)) as [->|Hne].
  - by rewrite !lookup_insert_eq.
  - by rewrite !lookup_insert_ne, mknodes_lookup.
Qed.

Lemma mknodes_ext ss ss' R :
  (∀ id, is_Some (R !! id) → ss id = ss' id) → mknodes ss R = mknodes ss' R.
Proof.
  intros Hss. apply map_eq. intros i. rewrite !mknodes_lookup.
  destruct (R !! i) eqn:E; cbn; [|done]. by rewrite Hss by eauto.
Qed.

(** ** Lemmas: sorting *)

Lemma sort_strings_ext l1 l2 :
  NoDup l1 → NoDup l2 → (∀ x, x ∈ l1 ↔ x ∈ l2) → sort_strings l1 = sort_strings l2.
Proof.
  intros H1 H2 Heq. apply (StronglySorted_unique String.le);
    [apply (StronglySorted_merge_sort _)..|].
  unfold sort_strings. rewrite !merge_sort_Permutation. by apply NoDup_Permutation.
Qed.

Lemma sort_ints_sorted l : StronglySorted Z.le l → sort_ints l = l.
Proof.
  intros Hl. apply (StronglySorted_unique Z.le); [apply (StronglySorted_merge_sort _)|done|].
  apply merge_sort_Permutation.
Qed.

Lemma seqZ_sorted m n : StronglySorted Z.le (seqZ m n).
Proof.
  unfold seqZ. generalize (Z.to_nat n) as k. intros k. revert m. generalize 0%nat as s.
  induction k as [|k IH]; intros s m; [constructor|]. cbn. constructor; [apply IH|].
  apply Forall_forall. intros x (y & -> & Hy)%list_elem_of_fmap. apply elem_of_seq in Hy. lia.
Qed.

Lemma mkshards_keys n f : sort_ints (map_to_list (mkshards n f)).*1 = seqZ 0 n.
Proof.
  apply (StronglySorted_unique Z.le); [apply (StronglySorted_merge_sort _)|apply seqZ_sorted|].
  unfold sort_ints. rewrite merge_sort_Permutation. unfold mkshards. rewrite map_to_list_to_map.
  - rewrite <- list_fmap_compose. unfold compose. cbn. by rewrite list_fmap_id.
  - rewrite <- list_fmap_compose. unfold compose. cbn. rewrite list_fmap_id. apply NoDup_seqZ.
Qed.

(** ** Lemmas: healthy nodes *)

Section healthy_ids.
Context {A : Type} (st : A → string).

Definition ids_with (m : gmap string A) : list string :=
  sort_strings (filter (λ x, st x.2 = NodeHealthy) (map_to_list m)).*1.

Lemma unsorted_elem (m : gmap string A) id :
  id ∈ (filter (λ x, st x.2 = NodeHealthy) (map_to_list m)).*1 ↔
  ∃ x, m !! id = Some x ∧ st x = NodeHealthy.
Proof.
  rewrite list_elem_of_fmap. split.
  - intros ([k x] & -> & [Hst Hin%elem_of_map_to_list]%list_elem_of_filter). eauto.
  - intros (x & Hm & Hst). exists (id, x). split; [done|].
    apply list_elem_of_filter. split; [done|]. by apply elem_of_map_to_list.
Qed.

Lemma unsorted_NoDup (m : gmap string A) :
  NoDup (filter (λ x, st x.2 = NodeHealthy) (map_to_list m)).*1.
Proof.
  apply NoDup_fmap_filter, NoDup_fst_map_to_list.
Qed.

Lemma ids_with_elem m id : id ∈ ids_with m ↔ ∃ x, m !! id = Some x ∧ st x = NodeHealthy.
Proof. unfold ids_with, sort_strings. rewrite merge_sort_Permutation. apply unsorted_elem. Qed.

Lemma ids_with_NoDup m : NoDup (ids_with m).
Proof. unfold ids_with, sort_strings. rewrite merge_sort_Permutation. apply unsorted_NoDup. Qed.
End healthy_ids.

Lemma ids_with_ext {A B} (f : A → string) (g : B → string) (m : gmap string A) (m' : gmap string B) :
  (∀ id, f <$> m !! id = g <$> m' !! id) → ids_with f m = ids_with g m'.
Proof.
  intros Heq. apply sort_strings_ext; [apply unsorted_NoDup..|]. intros id.
  rewrite !unsorted_elem. specialize (Heq id).
  destruct (m !! id) as [x|], (m' !! id) as [y|]; cbn in Heq; try done; [|naive_solver].
  injection Heq as Heq. split; intros (? & [= <-] & ?); eexists; split; try done; congruence.
Qed.

Lemma healthyIDs_mknodes ss R S : healthyIDs (mkClusterState (mknodes ss R) S) = healthy R.
Proof.
  apply (ids_with_ext n_Status e_Status). intros id. cbn [Nodes]. rewrite mknodes_lookup.
  by destruct (R !! id).
Qed.

Lemma healthy_elem R id : id ∈ healthy R ↔ ∃ e, R !! id = Some e ∧ e_Status e = NodeHealthy.
Proof. apply (ids_with_elem e_Status). Qed.

Lemma healthy_NoDup R : NoDup (healthy R).
Proof. apply (ids_with_NoDup e_Status). Qed.

(** ** Lemmas: rebalancing *)

Lemma primary_elem H j : H ≠ [] → primary H j ∈ H ∧ H !! (Z.to_nat j mod length H)%nat = Some (primary H j).
Proof.
  intros Hne. unfold primary.
  destruct (lookup_lt_is_Some_2 H (Z.to_nat j mod length H)%nat) as [x Hx].
  { apply Nat.mod_upper_bound. by destruct H. }
  rewrite Hx. cbn. split; [by eapply list_elem_of_lookup_2|done].
Qed.

Lemma seqZ_snoc k : seqZ 0 (Z.of_nat (S k)) = seqZ 0 (Z.of_nat k) ++ [Z.of_nat k].
Proof.
  replace (Z.of_nat (S k)) with (Z.of_nat k + 1) by lia.
  rewrite seqZ_app by lia. done.
Qed.

Lemma shards_of_snoc H k id :
  H ≠ [] →
  shards_of H (Z.of_nat (S k)) id =
    shards_of H (Z.of_nat k) id ++ (if decide (primary H (Z.of_nat k) = id) then [Z.of_nat k] else []).
Proof.
  intros Hne. unfold shards_of. rewrite seqZ_snoc, filter_app. f_equal. rewrite filter_cons.
  repeat case_decide; naive_solver.
Qed.

(** The round-robin loop after [k] shards. *)
Lemma assign_loop H n f R k :
  H ≠ [] → (∀ id, id ∈ H → is_Some (R !! id)) → Z.of_nat k ≤ n →
  foldl (assign_primary H) (mkClusterState (mknodes (λ _, []) R) (mkshards n (λ j, with_Primary "" (f j))))
    (imap pair (seqZ 0 (Z.of_nat k)))
  = mkClusterState (mknodes (shards_of H (Z.of_nat k)) R)
      (mkshards n (λ j, with_Primary (if decide (j < Z.of_nat k) then primary H j else "") (f j))).
Proof.
  intros Hne Hreg. induction k as [|k IH]; intros Hk.
  - change (seqZ 0 (Z.of_nat 0)) with (@nil Z). cbn [foldl imap].
    change (shards_of H (Z.of_nat 0)) with (λ _ : string, @nil Z). f_equal. apply mkshards_ext. intros j Hj. by rewrite decide_False by lia.
  - rewrite seqZ_snoc, imap_app, foldl_app, IH by lia. cbn [imap foldl].
    rewrite length_seqZ, Nat2Z.id. unfold compose. rewrite Nat.add_0_r.
    destruct (primary_elem H (Z.of_nat k) Hne) as [Hin Hlook]. rewrite Nat2Z.id in Hlook.
    destruct (Hreg _ Hin) as [e He].
    unfold assign_primary. rewrite Hlook. cbn [from_option Nodes Shards]. unfold id.
    rewrite mkshards_lookup, decide_True by lia. rewrite mknodes_lookup, He.
    cbn [fmap option_fmap option_map from_option]. f_equal.
    + unfold with_Shards. cbn [n_ID n_Address n_Shards n_Status n_LastSeen]. rewrite mknodes_insert.
      rewrite insert_id by done. apply mknodes_ext. intros i _. rewrite shards_of_snoc by done.
      destruct (decide (i = primary H (Z.of_nat k))) as [->|Hd].
      * by rewrite decide_True.
      * rewrite decide_False by done. by rewrite app_nil_r.
    + rewrite mkshards_insert by lia. apply mkshards_ext. intros j Hj.
      destruct (decide (j = Z.of_nat k)) as [->|Hd].
      * rewrite (decide_True (P := Z.of_nat k < Z.of_nat (S k))) by lia. done.
      * destruct (decide (j < Z.of_nat k)); [by rewrite decide_True by lia|].
        by rewrite decide_False by lia.
Qed.

Lemma fmap_mknodes_clear ss R : with_Shards [] <$> mknodes ss R = mknodes (λ _, []) R.
Proof.
  apply map_eq. intros i. rewrite lookup_fmap, !mknodes_lookup. by destruct (R !! i).
Qed.

Lemma fmap_mknodes_sort ss R :
  (∀ id, StronglySorted Z.le (ss id)) →
  (λ n, with_Shards (sort_ints (n_Shards n)) n) <$> mknodes ss R = mknodes ss R.
Proof.
  intros Hs. apply map_eq. intros i. rewrite lookup_fmap, !mknodes_lookup.
  destruct (R !! i); cbn; [|done]. unfold with_Shards. cbn. by rewrite sort_ints_sorted.
Qed.

Lemma rebalance_spec ss n f R :
  healthy R ≠ [] →
  rebalancePrimary (mkClusterState (mknodes ss R) (mkshards n f))
  = mkClusterState (mknodes (shards_of (healthy R) n) R)
      (mkshards n (λ j, with_Primary (primary (healthy R) j) (f j))).
Proof.
  intros Hne. unfold rebalancePrimary. rewrite healthyIDs_mknodes.
  rewrite decide_False by (by destruct (healthy R)). cbn [Nodes Shards].
  rewrite mkshards_keys, mkshards_fmap, fmap_mknodes_clear.
  destruct (decide (0 ≤ n)).
  - replace (seqZ 0 n) with (seqZ 0 (Z.of_nat (Z.to_nat n))) by (f_equal; lia).
    rewrite assign_loop; [|done|by intros id (e & ? & _)%healthy_elem|lia].
    cbn [Nodes Shards]. rewrite Z2Nat.id by done. rewrite fmap_mknodes_sort.
    + f_equal. apply mkshards_ext. intros j Hj. by rewrite decide_True by lia.
    + intros id. apply StronglySorted_filter, seqZ_sorted.
  - assert (∀ g, mkshards n g = ∅) as Hemp.
    { intros g. unfold mkshards. by rewrite seqZ_nil by lia. }
    rewrite !Hemp, seqZ_nil by lia. cbn [imap foldl Nodes Shards].
    rewrite fmap_mknodes_sort by constructor. f_equal. apply mknodes_ext. intros id _.
    unfold shards_of. by rewrite seqZ_nil by lia.
Qed.

(** What every handler that rebalances ends with. *)
Lemma rebalance_layout ss n f R :
  (∀ j, 0 ≤ j < n → s_ShardID (f j) = j) →
  (healthy R = [] → (∀ id, is_Some (R !! id) → ss id = []) ∧
     ∀ j, 0 ≤ j < n → s_PrimaryNode (f j) = "") →
  assignReplicas (rebalancePrimary (mkClusterState (mknodes ss R) (mkshards n f))) = layout n R.
Proof.
  intros Hid Hempty. unfold layout, assignReplicas. destruct (decide (healthy R = [])) as [E|Hne].
  - destruct (Hempty E) as [Hss Hp].
    assert (rebalancePrimary (mkClusterState (mknodes ss R) (mkshards n f))
            = mkClusterState (mknodes ss R) (mkshards n f)) as ->.
    { unfold rebalancePrimary. rewrite healthyIDs_mknodes, E. by rewrite decide_True. }
    rewrite healthyIDs_mknodes. cbn [Nodes Shards]. rewrite E, mkshards_fmap. f_equal.
    + apply mknodes_ext. intros id Hi. rewrite Hss by done. unfold shards_of.
      induction (seqZ 0 n) as [|j l IH]; [done|]. rewrite filter_cons, decide_False by naive_solver. done.
    + apply mkshards_ext. intros j Hj. unfold layout_shard, with_Replica. cbn.
      by rewrite Hid, Hp.
  - rewrite rebalance_spec, healthyIDs_mknodes by done. cbn [Nodes Shards].
    rewrite mkshards_fmap. f_equal. apply mkshards_ext. intros j Hj.
    unfold layout_shard, with_Replica, with_Primary. cbn. by rewrite Hid.
Qed.

Lemma layout_heal n R R' :
  healthy R' = healthy R → layout n R' = mkClusterState (mknodes (shards_of (healthy R) n) R')
    (Shards (layout n R)).
Proof. intros Hh. unfold layout. by rewrite Hh. Qed.

(** Releasing the shards of a list. *)
Lemma release_loop n f l :
  (∀ j, j ∈ l → 0 ≤ j < n) →
  foldl release_primary (mkshards n f) l
  = mkshards n (λ j, if decide (j ∈ l) then with_Primary "" (f j) else f j).
Proof.
  revert f. induction l as [|a l IH]; intros f Hl; cbn [foldl].
  - apply mkshards_ext. intros j Hj. by rewrite decide_False by set_solver.
  - unfold release_primary at 2. rewrite mkshards_lookup, decide_True by (apply Hl; set_solver).
    cbn [default]. rewrite mkshards_insert by (apply Hl; set_solver). rewrite IH by set_solver.
    apply mkshards_ext. intros j Hj. unfold id.
    destruct (decide (j = a)) as [->|Hne].
    + rewrite (decide_True (P := a ∈ a :: l)) by set_solver. by case_decide.
    + destruct (decide (j ∈ l)); [by rewrite decide_True by set_solver|].
      by rewrite decide_False by set_solver.
Qed.

(** ** Lemmas: every command keeps the layout *)

Lemma healthy_same R R' :
  (∀ id, e_Status <$> R !! id = e_Status <$> R' !! id) → healthy R = healthy R'.
Proof. apply (ids_with_ext e_Status e_Status). Qed.

Lemma healthy_same_insert R id e e' :
  R !! id = Some e → e_Status e' = e_Status e → healthy (<[id := e']> R) = healthy R.
Proof.
  intros HR Hst. apply healthy_same. intros i. destruct (decide (i = id)) as [->|Hne].
  - rewrite lookup_insert_eq, HR. cbn. by rewrite Hst.
  - by rewrite lookup_insert_ne.
Qed.

(** A change that keeps all statuses keeps the layout of the shards. *)
Lemma layout_touch n R id e e' :
  R !! id = Some e → e_Status e' = e_Status e →
  mkClusterState
    (<[id := mkNodeRecord id (e_Address e') (shards_of (healthy R) n id) (e_Status e') (e_LastSeen e')]>
       (Nodes (layout n R))) (Shards (layout n R))
  = layout n (<[id := e']> R).
Proof.
  intros HR Hst. rewrite (layout_heal n R (<[id := e']> R)) by (by eapply healthy_same_insert).
  f_equal. cbn [Nodes layout]. rewrite mknodes_insert. apply mknodes_ext.
  intros i _. by case_decide; simplify_eq.
Qed.

Lemma register_layout n R id addr now :
  applyRegisterNode id addr now (layout n R) = (layout n (<[id := mkEntry addr NodeHealthy now]> R), Ok ()).
Proof.
  unfold applyRegisterNode.
  assert (assignReplicas (rebalancePrimary (mkClusterState
      (<[id := mkNodeRecord id addr [] NodeHealthy now]> (Nodes (layout n R))) (Shards (layout n R))))
    = layout n (<[id := mkEntry addr NodeHealthy now]> R)) as Hnew.
  { cbn [layout Nodes Shards]. rewrite (mknodes_insert _ R id (mkEntry addr NodeHealthy now) []).
    apply rebalance_layout; [done|]. intros E. exfalso.
    assert (id ∈ healthy (<[id := mkEntry addr NodeHealthy now]> R)) as Hin.
    { apply healthy_elem. rewrite lookup_insert_eq. eauto. }
    rewrite E in Hin. by apply not_elem_of_nil in Hin. }
  replace (Nodes (layout n R) !! id) with
    ((λ e, mkNodeRecord id (e_Address e) (shards_of (healthy R) n id) (e_Status e) (e_LastSeen e)) <$> R !! id)
    by (symmetry; apply mknodes_lookup).
  destruct (R !! id) as [e|] eqn:HR; cbn [fmap option_fmap option_map]; [|by rewrite Hnew].
  cbn [n_ID n_Address n_Shards n_Status n_LastSeen].
  destruct (decide (e_Status e = NodeHealthy)) as [Hst|]; [|by rewrite Hnew].
  f_equal. rewrite <- (layout_touch n R id e (mkEntry addr NodeHealthy now)) by done.
  cbn [e_Address e_Status e_LastSeen]. by rewrite Hst.
Qed.

Lemma heartbeat_layout n R id now :
  (applyUpdateHeartbeat id now (layout n R)).1
  = layout n (alter (λ e, mkEntry (e_Address e) (e_Status e) now) id R).
Proof.
  unfold applyUpdateHeartbeat. cbn [layout Nodes]. rewrite mknodes_lookup.
  destruct (R !! id) as [e|] eqn:HR; cbn [fmap option_fmap option_map fst].
  - rewrite alter_alt, HR.
    by rewrite <- (layout_touch n R id e (mkEntry (e_Address e) (e_Status e) now)).
  - by rewrite alter_id' by done.
Qed.

(** When the last healthy node goes, it owned every shard. *)
Lemma last_healthy R id e n :
  R !! id = Some e →
  healthy (<[id := mkEntry (e_Address e) NodeUnhealthy (e_LastSeen e)]> R) = [] →
  (∀ j, 0 ≤ j < n → j ∈ shards_of (healthy R) n id ∨ primary (healthy R) j = "") ∧
  (∀ i, i ≠ id → is_Some (R !! i) → shards_of (healthy R) n i = []).
Proof.
  intros HR Hnone.
  assert (∀ i, i ∈ healthy R → i = id) as Honly.
  { intros i (e' & Hi & Hst)%healthy_elem. destruct (decide (i = id)) as [|Hne]; [done|]. exfalso.
    apply (not_elem_of_nil i). rewrite <- Hnone. apply healthy_elem. exists e'.
    by rewrite lookup_insert_ne. }
  assert (∀ i, i ≠ id → ∀ j, healthy R ≠ [] → primary (healthy R) j ≠ i) as Hno.
  { intros i Hi j Hh. destruct (primary_elem (healthy R) j Hh) as [Hin%Honly _]. congruence. }
  split.
  - intros j Hj. destruct (decide (healthy R = [])) as [E|Hh]; [right; by rewrite E|left].
    apply list_elem_of_filter. split; [|apply elem_of_seqZ; lia]. split; [done|].
    by destruct (primary_elem (healthy R) j Hh) as [->%Honly _].
  - intros i Hi _. unfold shards_of. induction (seqZ 0 n) as [|j l IH]; [done|].
    rewrite filter_cons, decide_False; [done|]. intros [Hh Hp]. by eapply Hno.
Qed.

Lemma mark_layout n R id :
  (applyMarkUnhealthy id (layout n R)).1
  = layout n (alter (λ e, mkEntry (e_Address e) NodeUnhealthy (e_LastSeen e)) id R).
Proof.
  unfold applyMarkUnhealthy. cbn [layout Nodes Shards]. rewrite mknodes_lookup, alter_alt.
  destruct (R !! id) as [e|] eqn:HR; cbn [fmap option_fmap option_map fst]; [|done].
  cbn [n_ID n_Address n_Shards n_Status n_LastSeen].
  rewrite release_loop by (intros j [_ Hj%elem_of_seqZ]%list_elem_of_filter; lia).
  rewrite mkshards_fmap.
  rewrite (mknodes_insert _ R id (mkEntry (e_Address e) NodeUnhealthy (e_LastSeen e)) []).
  apply rebalance_layout.
  - intros j Hj. unfold clear_replica. by repeat case_decide.
  - intros Hnone. destruct (last_healthy R id e n HR Hnone) as [Hown Hothers]. split.
    + intros i Hi. case_decide as Hd; [done|]. apply Hothers; [done|].
      by rewrite lookup_insert_ne in Hi.
    + intros j Hj. unfold clear_replica.
      destruct (Hown j Hj) as [Hin|Hp].
      * rewrite (decide_True (P := j ∈ _)) by done. by case_decide.
      * repeat case_decide; done.
Qed.

Lemma apply_payload_layout n R p :
  (apply_payload p (layout n R)).1 = layout n (spec_payload p R).
Proof.
  destruct p as [id addr now|id now|id]; cbn [apply_payload spec_payload].
  - by rewrite register_layout.
  - apply heartbeat_layout.
  - apply mark_layout.
Qed.

Lemma NewFSM_layout n : state (NewFSM n) = layout n ∅.
Proof.
  unfold NewFSM, layout. cbn [state]. f_equal. apply map_eq. intros j. rewrite mkshards_lookup.
  assert (∀ l (m : gmap Z ShardRecord), foldl (λ m i, <[i := mkShardRecord i "" ""]> m) m l !! j
    = if decide (j ∈ l) then Some (mkShardRecord j "" "") else m !! j) as Hfold.
  { intros l. induction l as [|i l IH]; intros m; cbn [foldl]; [done|]. rewrite IH.
    destruct (decide (j ∈ l)); [by rewrite decide_True by set_solver|].
    destruct (decide (j = i)) as [->|Hne].
    - by rewrite lookup_insert_eq, decide_True by set_solver.
    - by rewrite lookup_insert_ne, decide_False by set_solver. }
  rewrite Hfold. destruct (decide (0 ≤ j < n)).
  - by rewrite decide_True by (apply elem_of_seqZ; lia).
  - by rewrite decide_False by (rewrite elem_of_seqZ; lia).
Qed.

Lemma apply_all_layout n ps R : apply_all ps (layout n R) = layout n (spec_all ps R).
Proof.
  revert R. induction ps as [|p ps IH]; intros R; cbn; [done|].
  unfold apply_all, spec_all in *. by rewrite apply_payload_layout, IH.
Qed.

(** ** Lemmas: the layout *)

Lemma primary_index H a i j :
  NoDup H → H !! i = Some a → (primary H j = a ↔ (Z.to_nat j mod length H)%nat = i).
Proof.
  intros Hnd Hi. assert (H ≠ []) as Hne by (by intros ->).
  destruct (primary_elem H j Hne) as [_ Hj]. split.
  - intros E. rewrite E in Hj. by eapply NoDup_lookup.
  - intros E. rewrite E in Hj. congruence.
Qed.

(** How many of the first [k] shards a node gets. *)
Lemma shards_of_count H a i k :
  NoDup H → H !! i = Some a →
  length (shards_of H (Z.of_nat k) a) =
    (k / length H + if decide (i < k mod length H) then 1 else 0)%nat.
Proof.
  intros Hnd Hi. assert (H ≠ []) as Hne by (by intros ->).
  pose proof (lookup_lt_Some _ _ _ Hi) as Hil. set (m := length H) in *.
  induction k as [|k IH].
  - rewrite Nat.Div0.div_0_l, Nat.Div0.mod_0_l. cbn. done.
  - rewrite shards_of_snoc, length_app, IH by done. clear IH.
    pose proof (primary_index H a i (Z.of_nat k) Hnd Hi) as Hp. rewrite Nat2Z.id in Hp. fold m in Hp.
    pose proof (Nat.div_mod_eq k m). pose proof (Nat.div_mod_eq (S k) m).
    pose proof (Nat.mod_upper_bound k m ltac:(lia)). pose proof (Nat.mod_upper_bound (S k) m ltac:(lia)).
    assert (length (if decide (primary H (Z.of_nat k) = a) then [Z.of_nat k] else [])
            = if decide (k mod m = i)%nat then 1%nat else 0%nat) as ->.
    { by repeat case_decide; naive_solver. }
    destruct (decide (S (k mod m) = m)) as [E|E].
    + destruct (Nat.div_mod_unique m (S k / m) (S (k / m)) (S k mod m) 0) as [-> ->]; [lia..|].
      repeat case_decide; lia.
    + destruct (Nat.div_mod_unique m (S k / m) (k / m) (S k mod m) (S (k mod m))) as [-> ->]; [lia..|].
      repeat case_decide; lia.
Qed.

Lemma first_other_spec p H :
  (first_other p H ∈ H ∧ first_other p H ≠ p) ∨ (first_other p H = "" ∧ ∀ x, x ∈ H → x = p).
Proof.
  induction H as [|x H IH]; cbn; [right; set_solver|].
  case_decide as E; [subst x|left; set_solver].
  destruct IH as [[? ?]|[-> Hall]]; [left; set_solver|right; set_solver].
Qed.

Lemma shards_of_elem H n id j :
  j ∈ shards_of H n id ↔ H ≠ [] ∧ primary H j = id ∧ 0 ≤ j < n.
Proof.
  unfold shards_of. rewrite list_elem_of_filter, elem_of_seqZ. intuition lia.
Qed.

(** ** Lemmas: reading a layout *)

Lemma layout_node_Some n R id nd :
  Nodes (layout n R) !! id = Some nd →
  ∃ e, R !! id = Some e ∧ n_Status nd = e_Status e ∧ n_Shards nd = shards_of (healthy R) n id.
Proof.
  cbn [layout Nodes]. rewrite mknodes_lookup. destruct (R !! id) as [e|]; cbn; [|done].
  intros [= <-]. by exists e.
Qed.

Lemma layout_healthy n R id :
  id ∈ healthy R ↔ ∃ nd, Nodes (layout n R) !! id = Some nd ∧ n_Status nd = NodeHealthy.
Proof.
  rewrite healthy_elem. cbn [layout Nodes]. rewrite mknodes_lookup.
  destruct (R !! id) as [e|]; cbn; naive_solver.
Qed.

Lemma run_layout n ps : apply_all ps (state (NewFSM n)) = layout n (spec_all ps ∅).
Proof. by rewrite NewFSM_layout, apply_all_layout. Qed.

(** The nodes of a layout carry their keys, and the shards theirs. *)
Lemma layout_keys n R :
  (∀ id nd, Nodes (layout n R) !! id = Some nd → n_ID nd = id) ∧
  (∀ j sr, Shards (layout n R) !! j = Some sr → s_ShardID sr = j ∧ 0 ≤ j < n).
Proof.
  split.
  - intros id nd. cbn [layout Nodes]. rewrite mknodes_lookup. by intros (e & _ & ->)%fmap_Some.
  - intros j sr. cbn [layout Shards]. rewrite mkshards_lookup. case_decide; [|done]. by intros [= <-].
Qed.

Lemma unhealthy_shards n R id e :
  R !! id = Some e → e_Status e ≠ NodeHealthy → shards_of (healthy R) n id = [].
Proof.
  intros HR Hst. unfold shards_of. induction (seqZ 0 n) as [|j l IH]; [done|].
  rewrite filter_cons, decide_False; [done|]. intros [Hh Hp].
  destruct (primary_elem (healthy R) j Hh) as [Hin _]. rewrite Hp in Hin.
  apply healthy_elem in Hin as (e' & ? & ?). congruence.
Qed.

(** The owner of a shard. *)
Lemma shard_owner (n : Z) (ps : list payload) (j : Z) :
  let s := apply_all ps (state (NewFSM n)) in
  0 ≤ j < n → (∃ id nd, Nodes s !! id = Some nd ∧ n_Status nd = NodeHealthy) →
  ∃ sr owner, Shards s !! j = Some sr ∧ s_ShardID sr = j ∧
    Nodes s !! s_PrimaryNode sr = Some owner ∧ n_Status owner = NodeHealthy ∧ j ∈ n_Shards owner ∧
    ∀ id nd, Nodes s !! id = Some nd → j ∈ n_Shards nd → id = s_PrimaryNode sr.
Proof.
  intros s Hj (id & nd & Hid & Hst). subst s. rewrite run_layout in *.
  set (R := spec_all ps ∅) in *.
  assert (id ∈ healthy R) as Hin by (apply (layout_healthy n); eauto).
  assert (healthy R ≠ []) as Hne by (intros E; rewrite E in Hin; by apply not_elem_of_nil in Hin).
  destruct (primary_elem (healthy R) j Hne) as [Hp _].
  apply (layout_healthy n) in Hp as (owner & Ho & Hos).
  exists (layout_shard (healthy R) j), owner. cbn [layout Shards]. rewrite mkshards_lookup, decide_True by done.
  split_and!; try done.
  - apply layout_node_Some in Ho as (e & _ & _ & ->). by apply shards_of_elem.
  - intros i nd' (e & _ & _ & Hs)%layout_node_Some Hjn. rewrite Hs in Hjn.
    by apply shards_of_elem in Hjn as (_ & <- & _).
Qed.

(** Without a registration, an unhealthy node stays unhealthy. *)
Lemma spec_all_unhealthy ps R id e :
  (∀ addr now, RegisterNodePayload id addr now ∉ ps) →
  R !! id = Some e → e_Status e = NodeUnhealthy →
  ∃ e', spec_all ps R !! id = Some e' ∧ e_Status e' = NodeUnhealthy.
Proof.
  revert R e. induction ps as [|p ps IH]; intros R e Hno HR Hst; [by eexists|].
  assert (∃ e', spec_payload p R !! id = Some e' ∧ e_Status e' = NodeUnhealthy) as (e' & HR' & Hst').
  { destruct p as [id' addr now|id' now|id']; cbn [spec_payload].
    - destruct (decide (id' = id)) as [->|Hne]; [exfalso; apply (Hno addr now); set_solver|].
      rewrite lookup_insert_ne by done. eauto.
    - destruct (decide (id' = id)) as [->|Hne].
      + rewrite lookup_alter_eq, HR. cbn. eauto.
      + rewrite lookup_alter_ne by done. eauto.
    - destruct (decide (id' = id)) as [->|Hne].
      + rewrite lookup_alter_eq, HR. cbn. eauto.
      + rewrite lookup_alter_ne by done. eauto. }
  apply (IH (spec_payload p R) e'); [|done..]. intros addr now Hin. apply (Hno addr now). set_solver.
Qed.

(** IDs and addresses come from registrations. *)
Lemma registered_Forall (P : string → string → Prop) ps R :
  (∀ id addr now, RegisterNodePayload id addr now ∈ ps → P id addr) →
  (∀ id e, R !! id = Some e → P id (e_Address e)) →
  ∀ id e, spec_all ps R !! id = Some e → P id (e_Address e).
Proof.
  revert R. induction ps as [|p ps IH]; intros R Hps HR; [done|].
  apply (IH (spec_payload p R)); [intros id addr now Hin; apply (Hps id addr now); set_solver|].
  intros id e. destruct p as [id' addr now|id' now|id']; cbn [spec_payload].
  - destruct (decide (id' = id)) as [->|Hne].
    + rewrite lookup_insert_eq. intros [= <-]. apply (Hps id addr now). set_solver.
    + rewrite lookup_insert_ne by done. apply HR.
  - destruct (decide (id' = id)) as [->|Hne].
    + rewrite lookup_alter_eq. intros (e' & ? & ->)%fmap_Some. cbn. by apply HR.
    + rewrite lookup_alter_ne by done. apply HR.
  - destruct (decide (id' = id)) as [->|Hne].
    + rewrite lookup_alter_eq. intros (e' & ? & ->)%fmap_Some. cbn. by apply HR.
    + rewrite lookup_alter_ne by done. apply HR.
Qed.

Lemma node_registered (P : string → string → Prop) n ps id nd :
  (∀ id addr now, RegisterNodePayload id addr now ∈ ps → P id addr) →
  Nodes (apply_all ps (state (NewFSM n))) !! id = Some nd → P id (n_Address nd).
Proof.
  intros Hps. rewrite run_layout. cbn [layout Nodes]. rewrite mknodes_lookup.
  intros (e & He & ->)%fmap_Some. cbn [n_Address].
  by apply (registered_Forall P ps ∅ Hps).
Qed.

(** ** Properties *)

(** C13. The cluster state is a function of the node registry: after any sequence of
    commands, the nodes and shards are the round-robin layout of all shards over the
    sorted healthy nodes, with the first other healthy node as replica, where the
    registry only follows registrations, heartbeats and failures. Incremental changes
    and the early returns of the handlers never leave this layout. *)
Theorem fsm_refines_layout (n : Z) (ps : list payload) :
  apply_all ps (state (NewFSM n)) = layout n (spec_all ps ∅).
Proof. apply run_layout. Qed.

(** C29. Every shard has exactly one owner as long as a node is healthy: the record of
    each shard names a registered healthy node that lists the shard, and no other node
    lists it. *)
Theorem shard_ownership (n : Z) (ps : list payload) (j : Z) :
  let s := apply_all ps (state (NewFSM n)) in
  0 ≤ j < n → (∃ id nd, Nodes s !! id = Some nd ∧ n_Status nd = NodeHealthy) →
  ∃ sr owner, Shards s !! j = Some sr ∧ s_ShardID sr = j ∧
    Nodes s !! s_PrimaryNode sr = Some owner ∧ n_Status owner = NodeHealthy ∧ j ∈ n_Shards owner ∧
    ∀ id nd, Nodes s !! id = Some nd → j ∈ n_Shards nd → id = s_PrimaryNode sr.
Proof. apply shard_owner. Qed.

(** C33. Shards are balanced: the numbers of shards of two healthy nodes differ by at
    most one. *)
Theorem shards_balanced (n : Z) (ps : list payload) (a b : string) (na nb : NodeRecord) :
  let s := apply_all ps (state (NewFSM n)) in
  Nodes s !! a = Some na → n_Status na = NodeHealthy →
  Nodes s !! b = Some nb → n_Status nb = NodeHealthy →
  (length (n_Shards na) ≤ S (length (n_Shards nb)))%nat.
Proof.
  intros s Ha Hsa Hb Hsb. subst s. rewrite run_layout in *. set (R := spec_all ps ∅) in *.
  assert (a ∈ healthy R ∧ b ∈ healthy R) as [Hina Hinb].
  { split; apply (layout_healthy n); eauto. }
  apply layout_node_Some in Ha as (_ & _ & _ & ->). apply layout_node_Some in Hb as (_ & _ & _ & ->).
  apply list_elem_of_lookup in Hina as [i Hi]. apply list_elem_of_lookup in Hinb as [k Hk].
  assert (∀ id, shards_of (healthy R) n id = shards_of (healthy R) (Z.of_nat (Z.to_nat n)) id) as Heq.
  { intros id. unfold shards_of. f_equal. unfold seqZ. by rewrite Nat2Z.id. }
  rewrite !Heq, (shards_of_count _ a i), (shards_of_count _ b k) by (done || apply healthy_NoDup).
  repeat case_decide; lia.
Qed.

(** Replicas are on another healthy node: when two nodes are healthy, every shard
    has a registered healthy replica different from its primary. *)
Theorem replica_distinct (n : Z) (ps : list payload) (j : Z) (a b : string) (na nb : NodeRecord) :
  let s := apply_all ps (state (NewFSM n)) in
  0 ≤ j < n → a ≠ b →
  Nodes s !! a = Some na → n_Status na = NodeHealthy →
  Nodes s !! b = Some nb → n_Status nb = NodeHealthy →
  ∃ sr replica, Shards s !! j = Some sr ∧ s_ReplicaNode sr ≠ s_PrimaryNode sr ∧
    Nodes s !! s_ReplicaNode sr = Some replica ∧ n_Status replica = NodeHealthy.
Proof.
  intros s Hj Hab Ha Hsa Hb Hsb. subst s. rewrite run_layout in *. set (R := spec_all ps ∅) in *.
  assert (a ∈ healthy R ∧ b ∈ healthy R) as [Hina Hinb].
  { split; apply (layout_healthy n); eauto. }
  destruct (first_other_spec (primary (healthy R) j) (healthy R)) as [[Hin Hne]|[_ Hall]].
  - apply (layout_healthy n) in Hin as (nd & Hnd & Hst).
    exists (layout_shard (healthy R) j), nd. cbn [layout Shards].
    by rewrite mkshards_lookup, decide_True.
  - exfalso. apply Hab. by rewrite (Hall a), (Hall b).
Qed.

(** Heartbeats do not revive a node: once marked unhealthy it stays unhealthy and
    owns no shard until it registers again, however many heartbeats it sends. *)
Theorem unhealthy_until_register (n : Z) (ps ps' : list payload) (id : string) (nd : NodeRecord) :
  Nodes (apply_all ps (state (NewFSM n))) !! id = Some nd → n_Status nd = NodeUnhealthy →
  (∀ addr now, RegisterNodePayload id addr now ∉ ps') →
  ∃ nd', Nodes (apply_all (ps ++ ps') (state (NewFSM n))) !! id = Some nd' ∧
    n_Status nd' = NodeUnhealthy ∧ n_Shards nd' = [].
Proof.
  rewrite !run_layout. intros Hid Hst Hno. apply layout_node_Some in Hid as (e & HR & Hse & _).
  unfold spec_all. rewrite foldl_app. fold (spec_all ps ∅) (spec_all ps' (spec_all ps ∅)).
  destruct (spec_all_unhealthy ps' (spec_all ps ∅) id e Hno HR) as (e' & HR' & Hst'); [congruence|].
  set (R' := spec_all ps' (spec_all ps ∅)) in *.
  exists (layout_node (healthy R') n id e'). cbn [layout Nodes]. rewrite mknodes_lookup, HR'.
  split; [done|]. split; [done|]. apply (unhealthy_shards n R' id e'); [done|]. by rewrite Hst'.
Qed.

(** Commands for unknown nodes are errors without effect, and registration never
    fails. *)
Theorem unknown_node_rejected (cs : ClusterState) (id addr : string) (now : Z) :
  (applyRegisterNode id addr now cs).2 = Ok () ∧
  ((applyUpdateHeartbeat id now cs).2 = Ok () ↔ is_Some (Nodes cs !! id)) ∧
  ((applyMarkUnhealthy id cs).2 = Ok () ↔ is_Some (Nodes cs !! id)) ∧
  (Nodes cs !! id = None →
     (applyUpdateHeartbeat id now cs).1 = cs ∧ (applyMarkUnhealthy id cs).1 = cs).
Proof.
  unfold applyRegisterNode, applyUpdateHeartbeat, applyMarkUnhealthy.
  destruct (Nodes cs !! id) as [nd|]; cbn; split_and!; try done; by case_decide.
Qed.

(** ** Witnesses *)

(** Three nodes, one of them failed. *)
Definition sample_log : list payload :=
  [RegisterNodePayload "a" "h:1" 1; RegisterNodePayload "b" "h:2" 2; RegisterNodePayload "c" "h:3" 3;
   MarkUnhealthyPayload "b"].

Lemma shard_ownership_witness :
  let s := apply_all sample_log (state (NewFSM 5)) in
  ∃ sr owner, Shards s !! 3 = Some sr ∧ s_ShardID sr = 3 ∧
    Nodes s !! s_PrimaryNode sr = Some owner ∧ n_Status owner = NodeHealthy ∧ 3 ∈ n_Shards owner ∧
    ∀ id nd, Nodes s !! id = Some nd → 3 ∈ n_Shards nd → id = s_PrimaryNode sr.
Proof.
  apply (shard_ownership 5 sample_log 3); [lia|]. exists "a". eexists.
  split; vm_compute; reflexivity.
Defined.

Lemma shards_balanced_witness :
  let s := apply_all sample_log (state (NewFSM 5)) in
  ∃ na nb, Nodes s !! "a" = Some na ∧ Nodes s !! "c" = Some nb ∧
    n_Shards na = [0; 2; 4] ∧ n_Shards nb = [1; 3] ∧
    (length (n_Shards na) ≤ S (length (n_Shards nb)))%nat.
Proof.
  intros s. eexists _, _. split; [vm_compute; reflexivity|]. split; [vm_compute; reflexivity|].
  split; [reflexivity|]. split; [reflexivity|].
  eapply (shards_balanced 5 sample_log "a" "c"); vm_compute; reflexivity.
Defined.

Lemma replica_distinct_witness :
  let s := apply_all sample_log (state (NewFSM 5)) in
  ∃ sr replica, Shards s !! 4 = Some sr ∧ s_ReplicaNode sr ≠ s_PrimaryNode sr ∧
    Nodes s !! s_ReplicaNode sr = Some replica ∧ n_Status replica = NodeHealthy.
Proof.
  eapply (replica_distinct 5 sample_log 4 "a" "c"); try (vm_compute; reflexivity); done.
Defined.

Lemma unhealthy_until_register_witness :
  ∃ nd', Nodes (apply_all (sample_log ++ [UpdateHeartbeatPayload "b" 10]) (state (NewFSM 5))) !! "b"
      = Some nd' ∧ n_Status nd' = NodeUnhealthy ∧ n_Shards nd' = [].
Proof.
  eapply (unhealthy_until_register 5 sample_log [UpdateHeartbeatPayload "b" 10] "b");
    [vm_compute; reflexivity|vm_compute; reflexivity|].
  intros addr now Hin. by apply list_elem_of_singleton in Hin.
Defined.

Lemma unknown_node_rejected_witness :
  let cs := state (NewFSM 2) in
  (applyUpdateHeartbeat "x" 1 cs).1 = cs ∧ (applyMarkUnhealthy "x" cs).1 = cs.
Proof.
  intros cs. apply (unknown_node_rejected cs "x" "h:1" 1). vm_compute. reflexivity.
Defined.
End Fsm.
