(* ===== verification/Snapshot.v ===== *)
(** * Commands and snapshots of the state machine as JSON ([internal/metadata/fsm.go],
      [state.go], [internal/metadata/server.go] where it marshals)

    The Raft log stores commands as JSON text and [FSM.Apply] decodes them; a snapshot is
    the JSON of the whole state. The encoder and decoder are those of [Json]. A snapshot
    sink is what raft makes of the calls on it: the text of a closed snapshot, or a
    cancelled one. *)

From S2P Require Import Prelude GoStrings Bloom Paths Strconv Json Fsm.

Module Snap.
Import Fsm.

(** ** Commands *)

Definition CmdRegisterNode : string := "register_node".
Definition CmdUpdateHeartbeat : string := "update_heartbeat".
Definition CmdMarkUnhealthy : string := "mark_unhealthy".

(** [Command]: the payload is raw JSON, absent when the document has none. *)
Record Command := mkCommand {
  c_Type : string;
  c_Payload : option json;
}.

Definition command_fields : list (string * (json → Command → option Command)) :=
  [("type", λ j c, t ← decode_string j (c_Type c); Some (mkCommand t (c_Payload c)));
   ("payload", λ j c, Some (mkCommand (c_Type c) (Some j)))].

(** The payload structs as records of their fields: node, address, time. *)
Definition register_fields : list (string * (json → string * string * Z → option (string * string * Z))) :=
  [("node_id", λ j '(id, addr, now), id ← decode_string j id; Some (id, addr, now));
   ("address", λ j '(id, addr, now), addr ← decode_string j addr; Some (id, addr, now));
   ("now_unix_ns", λ j '(id, addr, now), now ← decode_int64 j now; Some (id, addr, now))].
Definition heartbeat_fields : list (string * (json → string * Z → option (string * Z))) :=
  [("node_id", λ j '(id, now), id ← decode_string j id; Some (id, now));
   ("now_unix_ns", λ j '(id, now), now ← decode_int64 j now; Some (id, now))].
Definition mark_fields : list (string * (json → string → option string)) :=
  [("node_id", decode_string)].

Definition payload_json (p : payload) : json :=
  match p with
  | RegisterNodePayload id addr now =>
    JObject [("node_id", JString id); ("address", JString addr); ("now_unix_ns", json_int now)]
  | UpdateHeartbeatPayload id now => JObject [("node_id", JString id); ("now_unix_ns", json_int now)]
  | MarkUnhealthyPayload id => JObject [("node_id", JString id)]
  end.

Definition payload_type (p : payload) : string :=
  match p with
  | RegisterNodePayload _ _ _ => CmdRegisterNode
  | UpdateHeartbeatPayload _ _ => CmdUpdateHeartbeat
  | MarkUnhealthyPayload _ => CmdMarkUnhealthy
  end.

(** [json.Marshal] of a command. *)
Definition marshal_command (p : payload) : string :=
  print (JObject [("type", JString (payload_type p)); ("payload", payload_json p)]).

Definition json_error : GoError := ErrMsg "json".

(** [FSM.Apply] on the data of a log entry. *)
Definition Apply (data : string) (cs : ClusterState) : ClusterState * result () :=
  match (j ← parse data; decode_struct command_fields j (mkCommand "" None)) with
  | None => (cs, Err (ErrWrap "unmarshal command" json_error))
  | Some cmd =>
    if decide (c_Type cmd = CmdRegisterNode) then
      match (j ← c_Payload cmd; decode_struct register_fields j ("", "", 0)) with
      | None => (cs, Err json_error)
      | Some (id, addr, now) => applyRegisterNode id addr now cs
      end
    else if decide (c_Type cmd = CmdUpdateHeartbeat) then
      match (j ← c_Payload cmd; decode_struct heartbeat_fields j ("", 0)) with
      | None => (cs, Err json_error)
      | Some (id, now) => applyUpdateHeartbeat id now cs
      end
    else if decide (c_Type cmd = CmdMarkUnhealthy) then
      match (j ← c_Payload cmd; decode_struct mark_fields j "") with
      | None => (cs, Err json_error)
      | Some id => applyMarkUnhealthy id cs
      end
    else (cs, Err (ErrMsg ("unknown command type: " +:+ c_Type cmd)))
  end.

(** The machine after a log; responses go to whoever proposed the command. *)
Definition apply_log (log : list string) (f : FSM) : FSM :=
  mkFSM (foldl (λ cs data, (Apply data cs).1) (state f) log) (totalShards f).

(** ** Snapshots *)

(** [ClusterState.clone]: fresh maps, and a fresh slice for every node. *)
Definition clone (cs : ClusterState) : ClusterState :=
  mkClusterState
    (foldl (λ m kv, <[kv.1 := with_Shards (n_Shards kv.2) kv.2]> m) ∅ (map_to_list (Nodes cs)))
    (foldl (λ m kv, <[kv.1 := kv.2]> m) ∅ (map_to_list (Shards cs))).

(** [FSM.State] and [FSM.Snapshot]. *)
Definition State (f : FSM) : ClusterState := clone (state f).
Definition Snapshot (f : FSM) : ClusterState := clone (state f).

(** [json.Marshal] of the state. The members of a map are sorted by the text of
    their keys; the slices of a clone are never nil. *)
Definition node_json (n : NodeRecord) : json :=
  JObject [("ID", JString (n_ID n)); ("Address", JString (n_Address n));
           ("Shards", JArray (json_int <$> n_Shards n)); ("Status", JString (n_Status n));
           ("LastSeen", json_int (n_LastSeen n))].
Definition shard_json (s : ShardRecord) : json :=
  JObject [("ShardID", json_int (s_ShardID s)); ("PrimaryNode", JString (s_PrimaryNode s));
           ("ReplicaNode", JString (s_ReplicaNode s))].
Definition map_json {K} `{Countable K} {A} (text : K → string) (value : A → json) (m : gmap K A) : json :=
  JObject (merge_sort (λ x y, String.le x.1 y.1) ((λ kv, (text kv.1, value kv.2)) <$> map_to_list m)).
Definition cluster_json (cs : ClusterState) : json :=
  JObject [("Nodes", map_json (λ id, id) node_json (Nodes cs)); ("Shards", map_json FormatInt shard_json (Shards cs))].

(** The structs of [state.go] as decoding fills them. *)
Definition node_fields : list (string * (json → NodeRecord → option NodeRecord)) :=
  [("ID", λ j n, v ← decode_string j (n_ID n);
            Some (mkNodeRecord v (n_Address n) (n_Shards n) (n_Status n) (n_LastSeen n)));
   ("Address", λ j n, v ← decode_string j (n_Address n);
            Some (mkNodeRecord (n_ID n) v (n_Shards n) (n_Status n) (n_LastSeen n)));
   ("Shards", λ j n, v ← decode_ints j; Some (with_Shards v n));
   ("Status", λ j n, v ← decode_string j (n_Status n);
            Some (mkNodeRecord (n_ID n) (n_Address n) (n_Shards n) v (n_LastSeen n)));
   ("LastSeen", λ j n, v ← decode_int64 j (n_LastSeen n);
            Some (mkNodeRecord (n_ID n) (n_Address n) (n_Shards n) (n_Status n) v))].
Definition shard_fields : list (string * (json → ShardRecord → option ShardRecord)) :=
  [("ShardID", λ j s, v ← decode_int64 j (s_ShardID s);
            Some (mkShardRecord v (s_PrimaryNode s) (s_ReplicaNode s)));
   ("PrimaryNode", λ j s, v ← decode_string j (s_PrimaryNode s); Some (with_Primary v s));
   ("ReplicaNode", λ j s, v ← decode_string j (s_ReplicaNode s); Some (with_Replica v s))].
Definition decode_node (j : json) : option NodeRecord := decode_struct node_fields j zero_node.
Definition decode_shard (j : json) : option ShardRecord := decode_struct shard_fields j zero_shard.
Definition cluster_fields : list (string * (json → ClusterState → option ClusterState)) :=
  [("Nodes", λ j cs, m ← decode_map Some decode_node j (Nodes cs); Some (mkClusterState m (Shards cs)));
   ("Shards", λ j cs, m ← decode_map ParseInt decode_shard j (Shards cs); Some (mkClusterState (Nodes cs) m))].

(** What raft keeps of a snapshot: nothing, or the text written. *)
Inductive Sink :=
  | Cancelled
  | Persisted (text : string).

(** [fsmSnapshot.Persist] with the outcomes of [sink.Write] and [sink.Close]. *)
Definition Persist (write close : result ()) (snap : ClusterState) : Sink * result () :=
  match write with
  | Err e => (Cancelled, Err e)
  | Ok _ => (Persisted (print (cluster_json snap)), close)
  end.

(** Whether a decoded [ClusterState] has maps: a member that is absent or [null] leaves the map
    nil, which reads as an empty map and panics when it is written. *)
Definition set_map (j : json) : bool := match j with JNull => false | _ => true end.
Definition map_fields : list (string * (json → bool * bool → option (bool * bool))) :=
  [("Nodes", λ j b, Some (set_map j, b.2)); ("Shards", λ j b, Some (b.1, set_map j))].
Definition has_maps (j : json) : bool :=
  match decode_struct map_fields j (false, false) with Some (nodes, shards) => nodes && shards | None => false end.

(** [FSM.Restore] from the text a snapshot reader delivers. A restored machine comes with
    whether both its maps can be written: [false] is a state with a nil map, whose next
    registration panics. *)
Definition Restore (text : string) (f : FSM) : FSM * result bool :=
  match ('(j, _) ← parse_first text; cs ← decode_struct cluster_fields j (mkClusterState ∅ ∅); Some (cs, has_maps j)) with
  | None => (f, Err json_error)
  | Some (cs, writable) => (mkFSM cs (totalShards f), Ok writable)
  end.

(** Snapshots that [Persist] never writes. *)
Example restore_nil_maps :
  (Restore "{}" (NewFSM 2)).2 = Ok false ∧
  (Restore (concat_strings ["{"; dq "Nodes"; ":{},"; dq "Shards"; ":null}"]) (NewFSM 2)).2 = Ok false ∧
  (Restore (concat_strings ["{"; dq "Nodes"; ":{},"; dq "Shards"; ":{}}"]) (NewFSM 2)).2 = Ok true.
Proof. vm_compute. done. Qed.

Example snapshot_ex :
  let f := apply_log [marshal_command (RegisterNodePayload "a" "h:1" 7)] (NewFSM 2) in
  (Persist (Ok ()) (Ok ()) (Snapshot f)).1 = Persisted (concat_strings
    ["{"; dq "Nodes"; ":{"; dq "a"; ":{"; dq "ID"; ":"; dq "a"; ","; dq "Address"; ":"; dq "h:1"; ",";
     dq "Shards"; ":[0,1],"; dq "Status"; ":"; dq "healthy"; ","; dq "LastSeen"; ":7}},"; dq "Shards"; ":{";
     dq "0"; ":{"; dq "ShardID"; ":0,"; dq "PrimaryNode"; ":"; dq "a"; ","; dq "ReplicaNode"; ":"; dq ""; "},";
     dq "1"; ":{"; dq "ShardID"; ":1,"; dq "PrimaryNode"; ":"; dq "a"; ","; dq "ReplicaNode"; ":"; dq ""; "}}}"]).
Proof. vm_compute. reflexivity. Qed.

(** ** Lemmas: commands *)

(** The payloads that survive JSON: UTF-8 texts and an [int64] time. *)
Definition payload_ok (p : payload) : Prop :=
  match p with
  | RegisterNodePayload id addr now => valid_utf8 id = true ∧ valid_utf8 addr = true ∧ in_int64 now
  | UpdateHeartbeatPayload id now => valid_utf8 id = true ∧ in_int64 now
  | MarkUnhealthyPayload id => valid_utf8 id = true
  end.

Lemma json_int_ok d z : in_int64 z → json_ok d (json_int z) = true.
Proof. intros Hz. cbn. rewrite ParseInt_FormatInt by done. by apply bool_decide_true. Qed.

Lemma decode_json_int z cur : in_int64 z → decode_int64 (json_int z) cur = Some z.
Proof. apply ParseInt_FormatInt. Qed.

Lemma payload_json_ok p d : payload_ok p → d < 100 → json_ok d (payload_json p) = true.
Proof.
  intros Hp Hd. assert ((d <? maxNestingDepth) = true) as Hm by (unfold maxNestingDepth; lia).
  destruct p; cbn [payload_ok payload_json json_ok forallb fst snd] in *;
    rewrite Hm; destruct_and?; rewrite ?json_int_ok by done;
    repeat match goal with H : valid_utf8 _ = true |- _ => rewrite H; clear H end; done.
Qed.

(** A marshalled command is applied as the command. *)
Lemma Apply_marshal p cs : payload_ok p → Apply (marshal_command p) cs = apply_payload p cs.
Proof.
  intros Hp. unfold Apply, marshal_command.
  assert (parse (print (JObject [("type", JString (payload_type p)); ("payload", payload_json p)]))
          = Some (JObject [("type", JString (payload_type p)); ("payload", payload_json p)])) as ->.
  { apply parse_print_value. cbn [json_ok forallb fst snd]. rewrite payload_json_ok by (done || lia).
    by destruct p. }
  cbn [mbind option_bind].
  assert (decode_struct command_fields (JObject [("type", JString (payload_type p)); ("payload", payload_json p)])
     (mkCommand "" None) = Some (mkCommand (payload_type p) (Some (payload_json p)))) as -> by (by destruct p).
  cbn [c_Type c_Payload mbind option_bind].
  destruct p as [id addr now|id now|id]; cbn [payload_ok] in Hp; cbn [payload_type payload_json].
  - destruct Hp as (? & ? & Hn).
    assert (decode_struct register_fields
      (JObject [("node_id", JString id); ("address", JString addr); ("now_unix_ns", json_int now)]) ("", "", 0)
      = (now ← decode_int64 (json_int now) 0; Some (id, addr, now))) as -> by done.
    rewrite decode_json_int by done. done.
  - destruct Hp as (? & Hn).
    assert (decode_struct heartbeat_fields
      (JObject [("node_id", JString id); ("now_unix_ns", json_int now)]) ("", 0)
      = (now ← decode_int64 (json_int now) 0; Some (id, now))) as -> by done.
    rewrite decode_json_int by done. done.
  - done.
Qed.

Lemma decode_string_valid j cur s :
  strings_ok j = true → valid_utf8 cur = true → decode_string j cur = Some s → valid_utf8 s = true.
Proof. destruct j; naive_solver. Qed.

Lemma decode_int64_range j cur z : in_int64 cur → decode_int64 j cur = Some z → in_int64 z.
Proof. destruct j; try naive_solver. intros _. apply ParseInt_range. Qed.

(** Closes the obligation of [decode_struct_inv] for a payload struct. *)
Ltac field_inv Hs Ha Hf :=
  cbn in Hf, Ha |- *; bind_inv Hf; simplify_eq; cbn; destruct_and?; split_and?;
  first [done | eapply decode_string_valid; [exact Hs| |eassumption]; assumption
        | eapply decode_int64_range; [|eassumption]; assumption].

(** Whatever the bytes of a log entry, it is refused or is a command whose texts
    are UTF-8 and whose time is an [int64]. *)
Lemma Apply_cases data :
  (∀ cs, (Apply data cs).1 = cs) ∨ (∃ p, payload_ok p ∧ ∀ cs, Apply data cs = apply_payload p cs).
Proof.
  unfold Apply. destruct (parse data) as [j|] eqn:Hj; cbn [mbind option_bind]; [|by left].
  apply parse_valid in Hj.
  destruct (decode_struct command_fields j (mkCommand "" None)) as [[type raw]|] eqn:Hc; [|by left].
  cbn [c_Type c_Payload].
  assert (match raw with Some j => strings_ok j = true | None => True end) as Hraw.
  { apply (decode_struct_inv (λ c, match c_Payload c with Some j => strings_ok j = true | None => True end)) in Hc;
      [done| |done|done].
    apply Forall_cons. split; [|apply Forall_cons; split; [|constructor]];
      intros x c c' Hx Hcur Hd; cbn in Hd; [|by simplify_eq].
    bind_inv Hd. by simplify_eq. }
  destruct raw as [raw|]; cbn [mbind option_bind]; [|repeat case_decide; by left].
  case_decide; [|case_decide; [|case_decide; [|by left]]].
  - destruct (decode_struct register_fields raw ("", "", 0)) as [[[id addr] now]|] eqn:Hd; [right|by left].
    exists (RegisterNodePayload id addr now). split; [|done].
    apply (decode_struct_inv (λ x, payload_ok (RegisterNodePayload x.1.1 x.1.2 x.2))) in Hd; [done| |done|done].
    repeat first [apply Forall_nil_2 | apply Forall_cons_2]; intros ? [[? ?] ?] ? Hs Ha Hf; field_inv Hs Ha Hf.
  - destruct (decode_struct heartbeat_fields raw ("", 0)) as [[id now]|] eqn:Hd; [right|by left].
    exists (UpdateHeartbeatPayload id now). split; [|done].
    apply (decode_struct_inv (λ x, payload_ok (UpdateHeartbeatPayload x.1 x.2))) in Hd; [done| |done|done].
    repeat first [apply Forall_nil_2 | apply Forall_cons_2]; intros ? [? ?] ? Hs Ha Hf; field_inv Hs Ha Hf.
  - destruct (decode_struct mark_fields raw "") as [id|] eqn:Hd; [right|by left].
    exists (MarkUnhealthyPayload id). split; [|done].
    apply (decode_struct_inv (λ x, payload_ok (MarkUnhealthyPayload x))) in Hd; [done| |done|done].
    apply Forall_cons. split; [|constructor]. intros x a a' Hx Ha Hd'. by eapply decode_string_valid.
Qed.

(** A refused command changes nothing. *)
Lemma apply_payload_error p cs e : (apply_payload p cs).2 = Err e → (apply_payload p cs).1 = cs.
Proof.
  destruct p as [id addr now|id now|id]; cbn [apply_payload];
    unfold applyRegisterNode, applyUpdateHeartbeat, applyMarkUnhealthy;
    destruct (Nodes cs !! id); try (done); case_decide; done.
Qed.

(** A log of any bytes acts as a list of well-formed commands. *)
Lemma apply_log_commands log cs :
  ∃ ps, Forall payload_ok ps ∧ foldl (λ cs data, (Apply data cs).1) cs log = apply_all ps cs.
Proof.
  revert cs. induction log as [|data log IH]; intros cs; [by exists []|]. cbn [foldl].
  destruct (IH (Apply data cs).1) as (ps & Hps & ->).
  destruct (Apply_cases data) as [Hsame|(p & Hp & Happ)].
  - exists ps. by rewrite Hsame.
  - exists (p :: ps). split; [by constructor|]. by rewrite Happ.
Qed.

(** ** The type of the state *)

(** The invariant of [ClusterState] with [n] shards: nodes are stored under their IDs, their
    texts are UTF-8, times are [int64], the status is one of the two constants, shard lists
    are ascending and agree with the owners; there is exactly one record per shard number,
    and owners and replicas are registered nodes. *)
Record cluster_typed (n : Z) (cs : ClusterState) : Prop := {
  ct_node id nd : Nodes cs !! id = Some nd →
    n_ID nd = id ∧ valid_utf8 id = true ∧ valid_utf8 (n_Address nd) = true ∧
    (n_Status nd = NodeHealthy ∨ n_Status nd = NodeUnhealthy) ∧ in_int64 (n_LastSeen nd);
  ct_node_shards id nd : Nodes cs !! id = Some nd →
    StronglySorted Z.le (n_Shards nd) ∧ NoDup (n_Shards nd) ∧
    ∀ j, j ∈ n_Shards nd → 0 ≤ j < n ∧ n_Status nd = NodeHealthy ∧
                           ∃ sr, Shards cs !! j = Some sr ∧ s_PrimaryNode sr = id;
  ct_shards j : is_Some (Shards cs !! j) ↔ 0 ≤ j < n;
  ct_shard j sr : Shards cs !! j = Some sr →
    s_ShardID sr = j ∧
    (s_PrimaryNode sr = "" ∨ is_Some (Nodes cs !! s_PrimaryNode sr)) ∧
    (s_ReplicaNode sr = "" ∨ is_Some (Nodes cs !! s_ReplicaNode sr));
}.

Definition registry_typed (R : gmap string entry) : Prop :=
  ∀ id e, R !! id = Some e →
    valid_utf8 id = true ∧ valid_utf8 (e_Address e) = true ∧
    (e_Status e = NodeHealthy ∨ e_Status e = NodeUnhealthy) ∧ in_int64 (e_LastSeen e).

Lemma spec_payload_typed p R : payload_ok p → registry_typed R → registry_typed (spec_payload p R).
Proof.
  intros Hp HR id e. destruct p as [id' addr now|id' now|id']; cbn in Hp |- *;
    (destruct (decide (id' = id)) as [->|Hne];
      [rewrite ?lookup_insert_eq, ?lookup_alter_eq|
       rewrite ?lookup_insert_ne, ?lookup_alter_ne by done; apply HR]).
  - intros [= <-]. cbn. naive_solver.
  - intros (e' & He' & ->)%fmap_Some. apply HR in He'. cbn. naive_solver.
  - intros (e' & He' & ->)%fmap_Some. apply HR in He'. cbn. naive_solver.
Qed.

Lemma spec_all_typed ps R : Forall payload_ok ps → registry_typed R → registry_typed (spec_all ps R).
Proof.
  intros Hps. revert R. induction Hps as [|p ps Hp _ IH]; intros R HR; [done|].
  by apply IH, spec_payload_typed.
Qed.

Lemma layout_typed n R : registry_typed R → cluster_typed n (layout n R).
Proof.
  intros HR. destruct (layout_keys n R) as [HN HS]. split.
  - intros id nd Hid. pose proof (HN id nd Hid) as <-. cbn [layout Nodes] in Hid.
    rewrite mknodes_lookup in Hid. apply fmap_Some in Hid as (e & He & ->). cbn in *.
    by apply HR in He.
  - intros id nd Hid. pose proof (layout_node_Some n R id nd Hid) as (e & He & Hst & Hsh). rewrite Hsh.
    split_and!.
    + apply StronglySorted_filter, seqZ_sorted.
    + apply NoDup_filter, NoDup_seqZ.
    + intros j (Hh & Hp & Hj)%shards_of_elem. split; [done|]. split.
      * destruct (primary_elem (healthy R) j Hh) as [Hin _]. rewrite Hp in Hin.
        apply healthy_elem in Hin as (e' & ? & ?). congruence.
      * exists (layout_shard (healthy R) j). cbn [layout Shards]. by rewrite mkshards_lookup, decide_True.
  - intros j. cbn [layout Shards]. rewrite mkshards_lookup. case_decide; [by eauto|].
    split; [by intros []|done].
  - intros j sr Hj. destruct (HS j sr Hj) as [Hid Hr]. split; [done|].
    cbn [layout Shards] in Hj. rewrite mkshards_lookup, decide_True in Hj by done. injection Hj as <-.
    assert (∀ id, id ∈ healthy R → is_Some (Nodes (layout n R) !! id)) as Hreg.
    { intros id Hin. apply (layout_healthy n) in Hin as (nd & -> & _). eauto. }
    unfold layout_shard. cbn [s_PrimaryNode s_ReplicaNode]. split.
    + destruct (decide (healthy R = [])) as [E|Hne]; [left; by rewrite E|right]. by apply Hreg, primary_elem.
    + destruct (first_other_spec (primary (healthy R) j) (healthy R)) as [[Hin _]|[-> _]]; [right|by left].
      by apply Hreg.
Qed.

Lemma log_typed n log : cluster_typed n (state (apply_log log (NewFSM n))).
Proof.
  cbn [apply_log state]. destruct (apply_log_commands log (state (NewFSM n))) as (ps & Hps & ->).
  rewrite run_layout. apply layout_typed, spec_all_typed; [done|]. by intros ? ? ?%lookup_empty_Some.
Qed.

(** ** Lemmas: snapshots *)

Lemma clone_id cs : clone cs = cs.
Proof.
  unfold clone. rewrite (rebuild_map fst (λ kv, with_Shards (n_Shards kv.2) kv.2)) by done.
  rewrite (rebuild_map fst snd) by done. destruct cs as [N S]. cbn. f_equal; apply map_eq; intros k;
    rewrite map_lookup_imap; [destruct (N !! k) as [[]|]|destruct (S !! k)]; done.
Qed.

(** A map whose keys and values survive is decoded to itself, whatever the order of
    its members. *)
Lemma decode_map_json {K} `{Countable K} {A} (text : K → string) (key : string → option K)
    (js : A → json) (value : json → option A) (m : gmap K A) :
  (∀ k v, m !! k = Some v → key (text k) = Some k ∧ value (js v) = Some v) →
  decode_map key value (map_json text js m) ∅ = Some m.
Proof.
  intros Hm. unfold map_json. cbn [decode_map].
  pose proof (merge_sort_Permutation (λ x y : string * json, String.le x.1 y.1)
    ((λ kv, (text kv.1, js kv.2)) <$> map_to_list m)) as Hp.
  apply Permutation_map_inv in Hp as (l & Hl & Hperm). symmetry in Hperm.
  change (List.map (λ kv, (text kv.1, js kv.2)) l) with ((λ kv, (text kv.1, js kv.2)) <$> l) in Hl.
  rewrite Hl, foldl_fmap. cbn [fst snd].
  assert (∀ m0 : gmap K A, Forall (λ kv, m !! kv.1 = Some kv.2) l →
    foldl (λ acc kv, m ← acc; k ← key (text kv.1); v ← value (js kv.2); Some (<[k:=v]> m)) (Some m0) l
    = Some (foldl (λ m kv, <[kv.1 := kv.2]> m) m0 l)) as Hfold.
  { intros m0 Hal. clear Hl Hperm. revert m0. induction Hal as [|[k v] l Hk _ IH]; intros m0; [done|].
    cbn [foldl mbind option_bind fst snd] in *. destruct (Hm k v Hk) as [-> ->]. apply IH. }
  rewrite Hfold.
  - f_equal. destruct (fold_insert_lookup fst snd l (∅ : gmap K A)) as [H1 H2].
    { rewrite Hperm. apply NoDup_fst_map_to_list. }
    apply map_eq. intros k. destruct (m !! k) as [v|] eqn:E.
    + apply (H1 (k, v)). rewrite Hperm. by apply elem_of_map_to_list.
    + rewrite H2; [done|]. rewrite Hperm. intros ([k' v] & -> & Hin)%list_elem_of_fmap.
      apply elem_of_map_to_list in Hin. cbn in E. congruence.
  - rewrite Hperm. apply Forall_forall. intros [k v]. apply elem_of_map_to_list.
Qed.

Lemma map_json_ok {K} `{Countable K} {A} (text : K → string) (js : A → json) (m : gmap K A) d :
  d < 100 → (∀ k v, m !! k = Some v → valid_utf8 (text k) = true ∧ json_ok (d + 1) (js v) = true) →
  json_ok d (map_json text js m) = true.
Proof.
  intros Hd Hm. unfold map_json. cbn [json_ok].
  rewrite (proj2 (Z.ltb_lt d maxNestingDepth)) by (unfold maxNestingDepth; lia). cbn [andb].
  apply forallb_forall. intros [t j] Hin%list_elem_of_In. rewrite merge_sort_Permutation in Hin.
  apply list_elem_of_fmap in Hin as ([k v] & [= -> ->] & Hin%elem_of_map_to_list).
  cbn. destruct (Hm k v Hin) as [-> ->]. done.
Qed.

Lemma ints_ok d l : Forall in_int64 l → forallb (json_ok d) (json_int <$> l) = true.
Proof. induction 1 as [|z l Hz _ IH]; [done|]. cbn [fmap list_fmap forallb]. by rewrite json_int_ok, IH. Qed.

Lemma FormatInt_utf8 z : in_int64 z → valid_utf8 (FormatInt z) = true.
Proof.
  intros Hz. apply valid_utf8_ascii. unfold is_ascii.
  assert (∀ s, string_forallb is_digit s = true → string_forallb (λ c, code c <? RuneSelf) s = true) as Hd.
  { induction s as [|c s IH]; [done|]. cbn. intros [Hc%in_range_true Hs]%andb_true_iff.
    rewrite IH by done. rewrite (proj2 (Z.ltb_lt _ _)); [done|]. unfold RuneSelf. lia. }
  unfold FormatInt, in_int64 in *. destruct (Z.ltb_spec z 0); cbn [string_forallb]; rewrite Hd; try done; apply dec_go_digits; lia.
Qed.

Section typed.
Context (n : Z) (cs : ClusterState) (Hn : n ≤ 2 ^ 63) (Hcs : cluster_typed n cs).

Lemma shard_number j : 0 ≤ j < n → in_int64 j.
Proof. unfold in_int64. lia. Qed.

Lemma node_name_valid id : id = "" ∨ is_Some (Nodes cs !! id) → valid_utf8 id = true.
Proof. intros [->|[nd Hnd]]; [done|]. by destruct (ct_node _ _ Hcs id nd Hnd) as (_ & ? & _). Qed.

Lemma node_shards_int64 id nd : Nodes cs !! id = Some nd → Forall in_int64 (n_Shards nd).
Proof.
  intros Hid. destruct (ct_node_shards _ _ Hcs id nd Hid) as (_ & _ & Hj). apply Forall_forall.
  intros j Hin. by apply shard_number, Hj.
Qed.

Lemma node_reads id nd : Nodes cs !! id = Some nd → decode_node (node_json nd) = Some nd.
Proof.
  intros Hid. destruct (ct_node _ _ Hcs id nd Hid) as (_ & _ & _ & _ & Hseen).
  transitivity (a ← (a ← (v ← mapM (λ v, decode_int64 v 0) (json_int <$> n_Shards nd);
                          Some (mkNodeRecord (n_ID nd) (n_Address nd) v "" 0));
                     Some (mkNodeRecord (n_ID a) (n_Address a) (n_Shards a) (n_Status nd) (n_LastSeen a)));
                w ← decode_int64 (json_int (n_LastSeen nd)) (n_LastSeen a);
                Some (mkNodeRecord (n_ID a) (n_Address a) (n_Shards a) (n_Status a) w)); [done|].
  rewrite mapM_fmap_Some.
  - cbn [mbind option_bind]. rewrite decode_json_int by done. by destruct nd.
  - eapply Forall_impl; [by eapply node_shards_int64|]. intros z. apply decode_json_int.
Qed.

Lemma node_json_ok id nd d : Nodes cs !! id = Some nd → d < 100 → json_ok d (node_json nd) = true.
Proof.
  intros Hid Hd. destruct (ct_node _ _ Hcs id nd Hid) as (Hkey & Hv & Ha & Hst & Hseen).
  unfold node_json. rewrite Hkey. cbn [json_ok forallb fst snd].
  rewrite !(proj2 (Z.ltb_lt _ maxNestingDepth)) by (unfold maxNestingDepth; lia).
  rewrite Hv, Ha, ints_ok by (by eapply node_shards_int64).
  rewrite json_int_ok by done. by destruct Hst as [-> | ->].
Qed.

Lemma shard_reads j sr :
  Shards cs !! j = Some sr → decode_shard (shard_json sr) = Some sr ∧ in_int64 (s_ShardID sr).
Proof.
  intros Hj. assert (in_int64 (s_ShardID sr)) as Hi.
  { destruct (ct_shard _ _ Hcs j sr Hj) as (-> & _). apply shard_number. apply (ct_shards _ _ Hcs). eauto. }
  split; [|done].
  transitivity (a ← (a ← (v ← decode_int64 (json_int (s_ShardID sr)) 0; Some (mkShardRecord v "" ""));
                     Some (with_Primary (s_PrimaryNode sr) a)); Some (with_Replica (s_ReplicaNode sr) a)); [done|].
  rewrite decode_json_int by done. by destruct sr.
Qed.

Lemma shard_json_ok j sr d : Shards cs !! j = Some sr → d < 100 → json_ok d (shard_json sr) = true.
Proof.
  intros Hj Hd. destruct (shard_reads j sr Hj) as [_ Hi]. destruct (ct_shard _ _ Hcs j sr Hj) as (_ & Hp & Hr).
  unfold shard_json. cbn [json_ok forallb fst snd].
  rewrite (proj2 (Z.ltb_lt _ maxNestingDepth)) by (unfold maxNestingDepth; lia).
  rewrite json_int_ok by done. by rewrite (node_name_valid _ Hp), (node_name_valid _ Hr).
Qed.

(** The JSON of a typed state is decoded to the state. *)
Lemma cluster_reads :
  json_ok 0 (cluster_json cs) = true ∧
  decode_struct cluster_fields (cluster_json cs) (mkClusterState ∅ ∅) = Some cs.
Proof.
  split.
  - unfold cluster_json. cbn [json_ok forallb fst snd].
    rewrite !map_json_ok; [done|lia| |lia|].
    + intros j sr Hj. split; [|by eapply shard_json_ok]. apply FormatInt_utf8, shard_number.
      apply (ct_shards _ _ Hcs). eauto.
    + intros id nd Hid. split; [apply node_name_valid; eauto|by eapply node_json_ok].
  - transitivity (a ← (N ← decode_map Some decode_node (map_json (λ id, id) node_json (Nodes cs)) ∅;
                       Some (mkClusterState N ∅));
                  S ← decode_map ParseInt decode_shard (map_json FormatInt shard_json (Shards cs)) (Shards a);
                  Some (mkClusterState (Nodes a) S)); [done|].
    rewrite (decode_map_json (λ id, id)).
    + cbn [mbind option_bind Shards]. rewrite decode_map_json; [by destruct cs|].
      intros j sr Hj. split; [|by eapply shard_reads]. apply ParseInt_FormatInt, shard_number.
      apply (ct_shards _ _ Hcs). eauto.
    + intros id nd Hid. split; [done|by eapply node_reads].
Qed.
End typed.

(** What a restarted coordinator reads back from a persisted snapshot. *)
Lemma restore_persisted n log f :
  n ≤ 2 ^ 63 → totalShards f = n →
  ∃ text, Persist (Ok ()) (Ok ()) (Snapshot (apply_log log (NewFSM n))) = (Persisted text, Ok ()) ∧
    Restore text f = (apply_log log (NewFSM n), Ok true).
Proof.
  intros Hn Hf. unfold Snapshot. rewrite clone_id. cbn [Persist]. eexists. split; [done|].
  destruct (cluster_reads n (state (apply_log log (NewFSM n))) Hn (log_typed n log)) as [Hok Hd].
  unfold Restore. pose proof (parse_first_print _ "" Hok eq_refl) as Hp. rewrite string_app_nil_r in Hp.
  rewrite Hp. cbn [mbind option_bind]. rewrite Hd, Hf. done.
Qed.

(** ** Theorems *)

(** C28. The state has its type after any log, whatever bytes the log holds: nodes are keyed by
    their IDs, texts are UTF-8, times are [int64], statuses are the two constants, there is
    one record for every shard number below [n], shard lists are ascending and agree with the
    owners, and owners and replicas are registered. *)
Theorem fsm_typed (n : Z) (log : list string) : cluster_typed n (State (apply_log log (NewFSM n))).
Proof. unfold State. rewrite clone_id. apply log_typed. Qed.

(** Snapshots are faithful: a coordinator that restores the snapshot taken after [log1] and
    then replays [log2] is in the state of one that applied both logs; the JSON text carries
    the whole state, whatever bytes the logs hold. *)
Theorem snapshot_replay (n : Z) (log1 log2 : list string) :
  n ≤ 2 ^ 63 →
  ∃ text, Persist (Ok ()) (Ok ()) (Snapshot (apply_log log1 (NewFSM n))) = (Persisted text, Ok ()) ∧
    ∃ f, Restore text (NewFSM n) = (f, Ok true) ∧ apply_log log2 f = apply_log (log1 ++ log2) (NewFSM n).
Proof.
  intros Hn. destruct (restore_persisted n log1 (NewFSM n) Hn eq_refl) as (text & Hp & Hr).
  exists text. split; [done|]. eexists. split; [done|].
  unfold apply_log. cbn [state totalShards]. by rewrite foldl_app.
Qed.

(** Failures lose nothing: a snapshot whose write fails is cancelled and reported, and
    [Restore] of a text that does not decode reports an error and leaves the machine as it
    was. *)
Theorem snapshot_failures (e : GoError) (close : result ()) (cs : ClusterState) (text : string) (f : FSM) :
  Persist (Err e) close cs = (Cancelled, Err e) ∧
  (∀ f' e', Restore text f = (f', Err e') → f' = f) ∧
  (∀ data e', (Apply data cs).2 = Err e' → (Apply data cs).1 = cs).
Proof.
  split; [done|]. split.
  - unfold Restore. intros f' e'. repeat case_match; by intros [= <- ?].
  - intros data e'. destruct (Apply_cases data) as [Hs|(p & _ & ->)]; [by rewrite Hs|].
    by apply apply_payload_error.
Qed.

(** The command a coordinator marshals is the command its peers apply. *)
Theorem command_roundtrip (p : payload) (cs : ClusterState) :
  payload_ok p → Apply (marshal_command p) cs = apply_payload p cs.
Proof. apply Apply_marshal. Qed.

(** ** Witnesses *)

Definition sample_bytes : list string :=
  [marshal_command (RegisterNodePayload "a" "h:1" 1); "{not json"; marshal_command (RegisterNodePayload "b<1>" "h:2" 2);
   marshal_command (MarkUnhealthyPayload "a")].

Lemma snapshot_replay_witness :
  ∃ text, Persist (Ok ()) (Ok ()) (Snapshot (apply_log sample_bytes (NewFSM 3))) = (Persisted text, Ok ()) ∧
    ∃ f, Restore text (NewFSM 3) = (f, Ok true) ∧
         apply_log [marshal_command (UpdateHeartbeatPayload "a" 9)] f
         = apply_log (sample_bytes ++ [marshal_command (UpdateHeartbeatPayload "a" 9)]) (NewFSM 3).
Proof. apply (snapshot_replay 3 sample_bytes [marshal_command (UpdateHeartbeatPayload "a" 9)]). lia. Defined.

Lemma command_roundtrip_witness :
  Apply (marshal_command (RegisterNodePayload "a&b" "h:1" (-5))) (state (NewFSM 2))
  = apply_payload (RegisterNodePayload "a&b" "h:1" (-5)) (state (NewFSM 2)).
Proof.
  apply (command_roundtrip (RegisterNodePayload "a&b" "h:1" (-5))). cbn [payload_ok].
  split; [vm_compute; reflexivity|]. split; [vm_compute; reflexivity|]. unfold in_int64. lia.
Defined.
End Snap.
