(* ===== verification/Sha256.v ===== *)
(** * SHA-256 and hexadecimal printing ([crypto/sha256], [fmt])

    The standard-library functions behind [CacheKey], on 32-bit words as [Z]. *)

From S2P Require Import Prelude Record.

Definition word_add (a b : Z) : Z := uint32 (a + b).
Definition rotr (x n : Z) : Z := uint32 (Z.lor (Z.shiftr x n) (Z.shiftl x (32 - n))).
Definition word_not (x : Z) : Z := 2 ^ 32 - 1 - x.

(** The constants of the standard, from its definition: the first 32 fractional bits of
    the cube roots of the first 64 primes, and of the square roots of the first 8. *)
Fixpoint primes_from (fuel : nat) (found : list Z) (z : Z) : list Z :=
  match fuel with
  | O => found
  | S fuel =>
    primes_from fuel (if forallb (λ p, negb (z mod p =? 0)) found then found ++ [z] else found) (z + 1)
  end.
Definition primes : list Z := primes_from 310 [] 2.

(** The integer cube root below [2 ^ n], bit by bit from the top. *)
Fixpoint cube_root (n : nat) (root z : Z) : Z :=
  match n with
  | O => root
  | S n =>
    let r := root + 2 ^ Z.of_nat n in
    cube_root n (if r * r * r <=? z then r else root) z
  end.

Definition sha_K : list Z :=
  Eval vm_compute in (λ p, uint32 (cube_root 36 0 (Z.shiftl p 96))) <$> primes.
Definition sha_H0 : list Z :=
  Eval vm_compute in (λ p, uint32 (Z.sqrt (Z.shiftl p 64))) <$> take 8 primes.

Definition small_sigma0 (x : Z) : Z := Z.lxor (rotr x 7) (Z.lxor (rotr x 18) (Z.shiftr x 3)).
Definition small_sigma1 (x : Z) : Z := Z.lxor (rotr x 17) (Z.lxor (rotr x 19) (Z.shiftr x 10)).
Definition big_sigma0 (x : Z) : Z := Z.lxor (rotr x 2) (Z.lxor (rotr x 13) (rotr x 22)).
Definition big_sigma1 (x : Z) : Z := Z.lxor (rotr x 6) (Z.lxor (rotr x 11) (rotr x 25)).

(** The message schedule, newest word first: 16 words extended by [n]. *)
Fixpoint schedule (n : nat) (w : list Z) : list Z :=
  match n with
  | O => w
  | S n =>
    let at_ i := default 0 (w !! (i - 1)%nat) in
    schedule n (word_add (word_add (small_sigma1 (at_ 2%nat)) (at_ 7%nat))
                 (word_add (small_sigma0 (at_ 15%nat)) (at_ 16%nat)) :: w)
  end.

(** One round on the eight working variables. *)
Definition sha_round (s : list Z) (kw : Z * Z) : list Z :=
  match s with
  | [a; b; c; d; e; f; g; h] =>
    let ch := Z.lxor (Z.land e f) (Z.land (word_not e) g) in
    let maj := Z.lxor (Z.land a b) (Z.lxor (Z.land a c) (Z.land b c)) in
    let t1 := uint32 (h + big_sigma1 e + ch + kw.1 + kw.2) in
    let t2 := uint32 (big_sigma0 a + maj) in
    [word_add t1 t2; a; b; c; word_add d t1; e; f; g]
  | _ => s
  end.

Definition sha_block (s : list Z) (words : list Z) : list Z :=
  let w := reverse (schedule 48 (reverse words)) in
  zip_with word_add s (foldl sha_round s (zip sha_K w)).

(** The bytes in groups of four, and the words in blocks of sixteen. *)
Fixpoint words_of (l : list byte) : list Z :=
  match l with
  | b0 :: b1 :: b2 :: b3 :: l' => get_uint32 [b0; b1; b2; b3] :: words_of l'
  | _ => []
  end.
Fixpoint blocks (fuel : nat) (s : list Z) (w : list Z) : list Z :=
  match fuel, w with
  | S fuel, _ :: _ => blocks fuel (sha_block s (take 16 w)) (drop 16 w)
  | _, _ => s
  end.

Definition sha_pad (l : list byte) : list byte :=
  let n := len l in
  let zeros := (55 - n) mod 64 in
  l ++ x80 :: replicate (Z.to_nat zeros) x00
  ++ put_uint32 (Z.shiftr (8 * n) 32) ++ put_uint32 (8 * n).

Definition sha256 (l : list byte) : list byte :=
  let w := words_of (sha_pad l) in
  blocks (length w) sha_H0 w ≫= put_uint32.

Definition string_bytes (s : string) : list byte := byte_of_ascii <$> String.list_ascii_of_string s.

(** [fmt.Sprintf("%x", bytes)]. *)
Definition hex_digit (z : Z) : ascii :=
  ascii_of_N (Z.to_N (if z <? 10 then 48 + z else 87 + z)).
Definition hex (l : list byte) : string :=
  String.string_of_list_ascii (l ≫= λ b, [hex_digit (byte_to_Z b / 16); hex_digit (byte_to_Z b mod 16)]).

Example sha256_abc : hex (sha256 (string_bytes "abc")) =
  "ba7816bf8f01cfea414140de5dae2223b00361a396177a9cb410ff61f20015ad".
Proof. vm_compute. reflexivity. Qed.

(** A message of two blocks. *)
Example sha256_two_blocks : hex (sha256 (string_bytes
  "the quick brown fox jumps over the lazy dog, and then over all of the other dogs")) =
  "51a0c28c3c7ad25d27491a9cb45ced8c679642b1d48a07fa8db09c5b4c364788".
Proof. vm_compute. reflexivity. Qed.
