(* ===== verification/Cache.v ===== *)
(** * The query cache ([internal/coordinator/cache.go])

    The cache is a map from keys to the nodes of a doubly linked list between two
    sentinels, most recently used first. The model keeps the heap of nodes and
    the pointer assignments; the specification is a list of entries. A
    [time.Time] is a number of nanoseconds, and every operation is given the
    time [now] that its call of [time.Now] or [time.Since] sees. *)

From S2P Require Import Prelude GoStrings Types Record Sha256.

Module LRU.

Definition loc : Type := positive.

Record cacheEntry := mkCacheEntry {
  ce_key : string;
  ce_result : option QueryResult;
  ce_insertedAt : Z;
  ce_prev : option loc;
  ce_next : option loc;
}.

Notation heap := (gmap loc cacheEntry).

Record QueryCache := mkQueryCache {
  ttl : Z;
  maxSize : Z;
  items : gmap string loc;
  qc_head : loc;
  qc_tail : loc;
  nodes : heap;
}.

Definition with_items (it : gmap string loc) (c : QueryCache) : QueryCache :=
  mkQueryCache (ttl c) (maxSize c) it (qc_head c) (qc_tail c) (nodes c).
Definition with_nodes (h : heap) (c : QueryCache) : QueryCache :=
  mkQueryCache (ttl c) (maxSize c) (items c) (qc_head c) (qc_tail c) h.

(** Field assignments through a pointer; [None] is a nil dereference. *)
Definition update (f : cacheEntry → cacheEntry) (p : loc) (h : heap) : option heap :=
  n ← h !! p; Some (<[p := f n]> h).
Definition set_next (p : loc) (v : option loc) : heap → option heap :=
  update (λ n, mkCacheEntry (ce_key n) (ce_result n) (ce_insertedAt n) (ce_prev n) v) p.
Definition set_prev (p : loc) (v : option loc) : heap → option heap :=
  update (λ n, mkCacheEntry (ce_key n) (ce_result n) (ce_insertedAt n) v (ce_next n)) p.
Definition set_value (p : loc) (r : option QueryResult) (now : Z) : heap → option heap :=
  update (λ n, mkCacheEntry (ce_key n) r now (ce_prev n) (ce_next n)) p.

Definition get_next (h : heap) (p : loc) : option loc := h !! p ≫= ce_next.
Definition get_prev (h : heap) (p : loc) : option loc := h !! p ≫= ce_prev.

(** ** Operations *)

Definition NewQueryCache (ttl maxSize : Z) : QueryCache :=
  let h : loc := 1%positive in
  let t : loc := 2%positive in
  mkQueryCache ttl maxSize ∅ h t
    {[ h := mkCacheEntry "" None 0 None (Some t); t := mkCacheEntry "" None 0 (Some h) None ]}.

(** [e.prev.next = e.next; e.next.prev = e.prev]. *)
Definition unlink (e : loc) (h : heap) : option heap :=
  p ← get_prev h e;
  h ← set_next p (get_next h e) h;
  q ← get_next h e;
  set_prev q (get_prev h e) h.

Definition insertFront (hd e : loc) (h : heap) : option heap :=
  h ← set_next e (get_next h hd) h;
  h ← set_prev e (Some hd) h;
  f ← get_next h hd;
  h ← set_prev f (Some e) h;
  set_next hd (Some e) h.

Definition remove (c : QueryCache) (e : loc) : option QueryCache :=
  h ← unlink e (nodes c);
  n ← h !! e;
  Some (with_items (delete (ce_key n) (items c)) (with_nodes h c)).

Definition moveToFront (c : QueryCache) (e : loc) : option QueryCache :=
  h ← unlink e (nodes c);
  h ← insertFront (qc_head c) e h;
  Some (with_nodes h c).

Definition evictLRU (c : QueryCache) : option QueryCache :=
  lru ← get_prev (nodes c) (qc_tail c);
  if decide (lru = qc_head c) then Some c else remove c lru.

(** [Get]: the result, or nothing when the key is absent or expired. *)
Definition Get (now : Z) (key : string) (c : QueryCache)
    : option (option (option QueryResult) * QueryCache) :=
  match items c !! key with
  | None => Some (None, c)
  | Some e =>
    n ← nodes c !! e;
    if ttl c <? now - ce_insertedAt n then
      c ← remove c e; Some (None, c)
    else
      c ← moveToFront c e;
      n ← nodes c !! e;
      Some (Some (ce_result n), c)
  end.

Definition Put (now : Z) (key : string) (r : option QueryResult) (c : QueryCache) : option QueryCache :=
  match items c !! key with
  | Some e =>
    h ← set_value e r now (nodes c);
    moveToFront (with_nodes h c) e
  | None =>
    c ← (if maxSize c <=? Z.of_nat (size (items c)) then evictLRU c else Some c);
    let e := fresh (dom (nodes c) : gset loc) in
    let h := <[e := mkCacheEntry key r now None None]> (nodes c) in
    h ← insertFront (qc_head c) e h;
    Some (with_items (<[key := e]> (items c)) (with_nodes h c))
  end.

(** ** Specification: a list of entries, most recently used first *)

Record centry := mkCentry {
  c_key : string;
  c_result : option QueryResult;
  c_at : Z;
}.

Definition drop_key (k : string) (l : list centry) : list centry := filter (λ x, c_key x ≠ k) l.
Definition find_key (k : string) (l : list centry) : option centry :=
  snd <$> list_find (λ x, c_key x = k) l.

Definition spec_get (ttl now : Z) (k : string) (l : list centry)
    : option (option QueryResult) * list centry :=
  match find_key k l with
  | None => (None, l)
  | Some x => if ttl <? now - c_at x then (None, drop_key k l)
              else (Some (c_result x), x :: drop_key k l)
  end.

Definition spec_put (maxSize now : Z) (k : string) (r : option QueryResult) (l : list centry)
    : list centry :=
  match find_key k l with
  | Some _ => mkCentry k r now :: drop_key k l
  | None => mkCentry k r now :: (if maxSize <=? len l then removelast l else l)
  end.

(** Calls of the cache, and their results. *)
Inductive cache_op :=
  | OpGet (now : Z) (k : string)
  | OpPut (now : Z) (k : string) (r : option QueryResult).

Definition step (op : cache_op) (c : QueryCache)
    : option (option (option QueryResult) * QueryCache) :=
  match op with
  | OpGet now k => Get now k c
  | OpPut now k r => c ← Put now k r c; Some (None, c)
  end.

Definition spec_step (ttl maxSize : Z) (op : cache_op) (l : list centry)
    : option (option QueryResult) * list centry :=
  match op with
  | OpGet now k => spec_get ttl now k l
  | OpPut now k r => (None, spec_put maxSize now k r l)
  end.

Fixpoint run (ops : list cache_op) (c : QueryCache)
    : option (list (option (option QueryResult)) * QueryCache) :=
  match ops with
  | [] => Some ([], c)
  | op :: ops' => '(o, c) ← step op c; '(os, c) ← run ops' c; Some (o :: os, c)
  end.

Fixpoint spec_run (ttl maxSize : Z) (ops : list cache_op) (l : list centry)
    : list (option (option QueryResult)) * list centry :=
  match ops with
  | [] => ([], l)
  | op :: ops' =>
    let '(o, l') := spec_step ttl maxSize op l in
    let '(os, l'') := spec_run ttl maxSize ops' l' in (o :: os, l'')
  end.

(** The last value put under a key, with the time of the call. *)
Definition record_put (k : string) (acc : option (option QueryResult * Z)) (op : cache_op)
    : option (option QueryResult * Z) :=
  match op with
  | OpPut now k' r => if decide (k' = k) then Some (r, now) else acc
  | OpGet _ _ => acc
  end.
Definition last_put (k : string) (ops : list cache_op) : option (option QueryResult * Z) :=
  foldl (record_put k) None ops.

Definition op_key (op : cache_op) : string :=
  match op with OpGet _ k => k | OpPut _ k _ => k end.

(** The key [k] is in the list, behind keys of [S] only. *)
Definition kept (k : string) (r : option QueryResult) (t : Z) (S : gset string) (l : list centry) : Prop :=
  ∃ A B, l = A ++ mkCentry k r t :: B ∧ ∀ x, x ∈ A → c_key x ∈ S.

(** ** The representation of a list in the heap *)

Definition nexts (h : heap) : gmap loc loc := omap ce_next h.
Definition prevs (h : heap) : gmap loc loc := omap ce_prev h.
Definition node_data (n : cacheEntry) : centry := mkCentry (ce_key n) (ce_result n) (ce_insertedAt n).
Definition data (h : heap) : gmap loc centry := node_data <$> h.

(** Following [m] from the first of [L] visits [L]. *)
Fixpoint chain (m : gmap loc loc) (L : list loc) : Prop :=
  match L with
  | [] => True
  | x :: L' => match L' with [] => True | y :: _ => m !! x = Some y ∧ chain m L' end
  end.

(** The cache [c] represents the locations and entries [P]. *)
Definition all_locs (c : QueryCache) (P : list (loc * centry)) : list loc :=
  qc_head c :: P.*1 ++ [qc_tail c].

Definition keyed (P : list (loc * centry)) : list (string * loc) :=
  (λ p, (c_key p.2, p.1)) <$> P.

Record rep (c : QueryCache) (P : list (loc * centry)) : Prop := {
  rep_nodup : NoDup (all_locs c P);
  rep_next : chain (nexts (nodes c)) (all_locs c P);
  rep_prev : chain (prevs (nodes c)) (reverse (all_locs c P));
  rep_data : Forall (λ p, data (nodes c) !! p.1 = Some p.2) P;
  rep_keys : NoDup (c_key <$> P.*2);
  rep_items : items c = list_to_map (keyed P);
}.

(** ** Lemmas: heaps *)

Lemma nexts_lookup h p : nexts h !! p = get_next h p.
Proof. unfold nexts, get_next. by rewrite lookup_omap. Qed.
Lemma prevs_lookup h p : prevs h !! p = get_prev h p.
Proof. unfold prevs, get_prev. by rewrite lookup_omap. Qed.

Lemma set_next_Some h p q :
  is_Some (h !! p) →
  ∃ h', set_next p (Some q) h = Some h' ∧ nexts h' = <[p := q]> (nexts h) ∧
    prevs h' = prevs h ∧ data h' = data h.
Proof.
  intros [n Hn]. unfold set_next, update. rewrite Hn. cbn. eexists. split; [done|].
  unfold nexts, prevs, data. split_and!.
  - by rewrite (omap_insert_Some _ _ _ _ q).
  - apply map_eq. intros i. rewrite !lookup_omap. destruct (decide (i = p)) as [->|].
    + by rewrite lookup_insert_eq, Hn.
    + by rewrite lookup_insert_ne.
  - rewrite fmap_insert. apply insert_id. by rewrite lookup_fmap, Hn.
Qed.

Lemma set_prev_Some h p q :
  is_Some (h !! p) →
  ∃ h', set_prev p (Some q) h = Some h' ∧ prevs h' = <[p := q]> (prevs h) ∧
    nexts h' = nexts h ∧ data h' = data h.
Proof.
  intros [n Hn]. unfold set_prev, update. rewrite Hn. cbn. eexists. split; [done|].
  unfold nexts, prevs, data. split_and!.
  - by rewrite (omap_insert_Some _ _ _ _ q).
  - apply map_eq. intros i. rewrite !lookup_omap. destruct (decide (i = p)) as [->|].
    + by rewrite lookup_insert_eq, Hn.
    + by rewrite lookup_insert_ne.
  - rewrite fmap_insert. apply insert_id. by rewrite lookup_fmap, Hn.
Qed.

Lemma data_is_Some h h' p : data h' = data h → is_Some (h !! p) → is_Some (h' !! p).
Proof.
  intros Hd. rewrite <- (fmap_is_Some node_data), <- (fmap_is_Some node_data (h' !! p)).
  rewrite <- !lookup_fmap. unfold data in Hd. by rewrite Hd.
Qed.

Lemma next_is_Some h p q : nexts h !! p = Some q → is_Some (h !! p).
Proof. rewrite nexts_lookup. unfold get_next. destruct (h !! p); [eauto|done]. Qed.
Lemma prev_is_Some h p q : prevs h !! p = Some q → is_Some (h !! p).
Proof. rewrite prevs_lookup. unfold get_prev. destruct (h !! p); [eauto|done]. Qed.

(** ** Lemmas: chains *)

Lemma chain_app m A x B : chain m (A ++ x :: B) ↔ chain m (A ++ [x]) ∧ chain m (x :: B).
Proof.
  induction A as [|a A IH]; cbn [app]; [cbn; tauto|].
  destruct A as [|b A]; cbn [app chain] in *; tauto.
Qed.

Lemma chain_insert m p q L : p ∉ L → chain (<[p := q]> m) L ↔ chain m L.
Proof.
  induction L as [|a [|b L] IH]; intros Hp; [done..|]. cbn [chain] in *.
  rewrite IH by set_solver. by rewrite lookup_insert_ne by set_solver.
Qed.

Lemma chain_insert_last m p q A x :
  p ∉ A → chain (<[p := q]> m) (A ++ [x]) ↔ chain m (A ++ [x]).
Proof.
  induction A as [|a A IH]; intros Hp; [done|]. cbn [app].
  destruct A as [|b A]; cbn [app chain] in *.
  - by rewrite lookup_insert_ne by set_solver.
  - rewrite IH by set_solver. by rewrite lookup_insert_ne by set_solver.
Qed.

(** Bypassing an element. *)
Lemma chain_skip m A p e q B :
  NoDup (A ++ p :: e :: q :: B) → chain m (A ++ p :: e :: q :: B) →
  chain (<[p := q]> m) (A ++ p :: q :: B).
Proof.
  intros Hnd [H1 H2]%chain_app. apply chain_app.
  apply NoDup_app in Hnd as (_ & HA & Hnd). apply NoDup_cons in Hnd as [Hp _].
  rewrite chain_insert_last by (intros ?; eapply HA; [done|set_solver]). split; [done|].
  cbn [chain] in *. split; [by rewrite lookup_insert_eq|].
  destruct H2 as (_ & _ & H2). apply (chain_insert m p q (q :: B)); set_solver.
Qed.

(** Inserting an element after [p]. *)
Lemma chain_link m A p e q B :
  NoDup (A ++ p :: e :: q :: B) → chain m (A ++ p :: q :: B) →
  chain (<[p := e]> (<[e := q]> m)) (A ++ p :: e :: q :: B).
Proof.
  intros Hnd [H1 H2]%chain_app. apply chain_app.
  apply NoDup_app in Hnd as (_ & HA & Hnd). apply NoDup_cons in Hnd as [Hp [He _]%NoDup_cons].
  split.
  - rewrite !chain_insert_last by (intros ?; eapply HA; [done|set_solver]). done.
  - cbn [chain] in *. rewrite lookup_insert_eq. split; [done|].
    rewrite lookup_insert_ne by set_solver. rewrite lookup_insert_eq. split; [done|].
    destruct H2 as (_ & H2). apply (chain_insert _ p e (q :: B)); [set_solver|].
    apply (chain_insert m e q (q :: B)); [set_solver|done].
Qed.

Lemma chain_at m A x y B : chain m (A ++ x :: y :: B) → m !! x = Some y.
Proof. intros [_ [Hm _]]%chain_app. done. Qed.

Lemma reverse_mid {A} (X : list A) p e q Y :
  reverse (X ++ p :: e :: q :: Y) = reverse Y ++ q :: e :: p :: reverse X.
Proof. rewrite reverse_app, !reverse_cons, <- !app_assoc. done. Qed.

Lemma reverse_mid2 {A} (X : list A) p q Y :
  reverse (X ++ p :: q :: Y) = reverse Y ++ q :: p :: reverse X.
Proof. rewrite reverse_app, !reverse_cons, <- !app_assoc. done. Qed.

(** ** Lemmas: pointer surgery *)

Lemma unlink_spec h X p e q Y :
  NoDup (X ++ p :: e :: q :: Y) →
  chain (nexts h) (X ++ p :: e :: q :: Y) → chain (prevs h) (reverse (X ++ p :: e :: q :: Y)) →
  ∃ h', unlink e h = Some h' ∧ data h' = data h ∧
    chain (nexts h') (X ++ p :: q :: Y) ∧ chain (prevs h') (reverse (X ++ p :: q :: Y)).
Proof.
  intros Hnd Hf Hb.
  assert (p ≠ e ∧ p ≠ q ∧ e ≠ q) as (Hpe & Hpq & Heq).
  { apply NoDup_app in Hnd as (_ & _ & Hnd). rewrite !NoDup_cons in Hnd. set_solver. }
  pose proof (chain_at _ _ _ _ _ Hf) as Hnp.
  assert (nexts h !! e = Some q) as Hne.
  { apply (chain_at _ (X ++ [p]) _ _ Y). by rewrite <- app_assoc. }
  rewrite reverse_mid in Hb. pose proof (chain_at _ _ _ _ _ Hb) as Hpq'.
  assert (prevs h !! e = Some p) as Hpe'.
  { apply (chain_at _ (reverse Y ++ [q]) _ _ (reverse X)). by rewrite <- app_assoc. }
  unfold unlink. rewrite <- prevs_lookup, Hpe'. cbn [mbind option_bind].
  rewrite <- nexts_lookup, Hne.
  destruct (set_next_Some h p q) as (h1 & -> & Hn1 & Hp1 & Hd1); [by eapply next_is_Some|].
  cbn [mbind option_bind]. rewrite <- nexts_lookup, Hn1, lookup_insert_ne, Hne by done.
  cbn [mbind option_bind]. rewrite <- prevs_lookup, Hp1, Hpe'.
  destruct (set_prev_Some h1 q p) as (h2 & -> & Hp2 & Hn2 & Hd2).
  { eapply data_is_Some; [done|]. by eapply prev_is_Some. }
  eexists. split; [done|]. split; [congruence|].
  rewrite Hn2, Hn1, Hp2, Hp1. split; [by eapply chain_skip|].
  rewrite reverse_mid2. eapply chain_skip; [|done].
  rewrite <- reverse_mid. by rewrite reverse_Permutation.
Qed.

Lemma insertFront_spec h hd e f Y :
  NoDup (hd :: e :: f :: Y) → is_Some (h !! e) → is_Some (h !! f) →
  chain (nexts h) (hd :: f :: Y) → chain (prevs h) (reverse (hd :: f :: Y)) →
  ∃ h', insertFront hd e h = Some h' ∧ data h' = data h ∧
    chain (nexts h') (hd :: e :: f :: Y) ∧ chain (prevs h') (reverse (hd :: e :: f :: Y)).
Proof.
  intros Hnd He Hf Hfc Hbc.
  assert (hd ≠ e ∧ hd ≠ f ∧ e ≠ f) as (Hhe & Hhf & Hef).
  { rewrite !NoDup_cons in Hnd. set_solver. }
  pose proof (chain_at _ [] _ _ _ Hfc) as Hhd. unfold insertFront.
  rewrite <- nexts_lookup, Hhd.
  destruct (set_next_Some h e f He) as (h1 & -> & Hn1 & Hp1 & Hd1). cbn [mbind option_bind].
  destruct (set_prev_Some h1 e hd) as (h2 & -> & Hp2 & Hn2 & Hd2); [by eapply data_is_Some|].
  cbn [mbind option_bind]. rewrite <- nexts_lookup, Hn2, Hn1, lookup_insert_ne, Hhd by done.
  cbn [mbind option_bind].
  destruct (set_prev_Some h2 f e) as (h3 & -> & Hp3 & Hn3 & Hd3).
  { eapply data_is_Some; [exact Hd2|]. by eapply data_is_Some. }
  cbn [mbind option_bind].
  destruct (set_next_Some h3 hd e) as (h4 & -> & Hn4 & Hp4 & Hd4).
  { eapply data_is_Some; [exact Hd3|]. eapply data_is_Some; [exact Hd2|].
    eapply data_is_Some; [exact Hd1|]. by eapply next_is_Some. }
  eexists. split; [done|]. split; [congruence|].
  rewrite Hn4, Hn3, Hn2, Hn1, Hp4, Hp3, Hp2, Hp1. split.
  - by apply (chain_link _ []).
  - pose proof (reverse_mid [] hd e f Y) as E. cbn [app] in E. rewrite E. apply chain_link.
    + rewrite <- E. by rewrite reverse_Permutation.
    + pose proof (reverse_mid2 [] hd f Y) as E2. cbn [app] in E2. by rewrite <- E2.
Qed.

(** ** Lemmas: the operations refine the specification *)

Lemma keyed_app P Q : keyed (P ++ Q) = keyed P ++ keyed Q.
Proof. apply fmap_app. Qed.

Lemma keyed_keys P : (keyed P).*1 = c_key <$> P.*2.
Proof. unfold keyed. rewrite <- !list_fmap_compose. done. Qed.

Lemma rep_lookup c P k a :
  rep c P → items c !! k = Some a ↔ ∃ x, (a, x) ∈ P ∧ c_key x = k.
Proof.
  intros Hr. rewrite (rep_items _ _ Hr). rewrite <- elem_of_list_to_map.
  - unfold keyed. rewrite list_elem_of_fmap. split.
    + intros ([a' x] & [= -> ->] & Hin). eauto.
    + intros (x & Hin & <-). by exists (a, x).
  - rewrite keyed_keys. apply rep_keys with c. done.
Qed.

Lemma rep_size c P : rep c P → size (items c) = length P.
Proof.
  intros Hr. rewrite (rep_items _ _ Hr), map_size_list_to_map.
  - unfold keyed. by rewrite length_fmap.
  - rewrite keyed_keys. by apply rep_keys with c.
Qed.

Lemma find_key_mid A x B :
  NoDup (c_key <$> (A ++ x :: B)) → find_key (c_key x) (A ++ x :: B) = Some x.
Proof.
  intros Hnd. unfold find_key. rewrite list_find_app_r.
  - cbn [list_find]. by rewrite decide_True.
  - rewrite fmap_app, NoDup_app in Hnd. destruct Hnd as (_ & Hd & _).
    apply list_find_None, Forall_forall. intros y Hy E.
    apply (Hd (c_key y)); [by apply list_elem_of_fmap_2|]. rewrite E. set_solver.
Qed.

Lemma find_key_None k l : find_key k l = None ↔ k ∉ c_key <$> l.
Proof.
  unfold find_key. rewrite fmap_None, list_find_None, Forall_forall, list_elem_of_fmap. naive_solver.
Qed.

Lemma drop_key_notin k l : k ∉ c_key <$> l → drop_key k l = l.
Proof.
  intros Hk. unfold drop_key. induction l as [|y l IH]; [done|].
  rewrite filter_cons, decide_True by set_solver. f_equal. apply IH. set_solver.
Qed.

Lemma drop_key_mid A x B :
  NoDup (c_key <$> (A ++ x :: B)) → drop_key (c_key x) (A ++ x :: B) = A ++ B.
Proof.
  rewrite fmap_app, fmap_cons, NoDup_app, NoDup_cons. intros (_ & Hd & Hx & _).
  unfold drop_key. rewrite filter_app, filter_cons, decide_False by naive_solver.
  fold (drop_key (c_key x) A) (drop_key (c_key x) B).
  rewrite !drop_key_notin; [done|done|]. intros Ha. eapply Hd; [done|set_solver].
Qed.

(** The neighbours of an element of the list between the sentinels. *)
Lemma neighbours c A e (x : centry) B :
  ∃ X p q Y, all_locs c (A ++ (e, x) :: B) = X ++ p :: e :: q :: Y ∧
    all_locs c (A ++ B) = X ++ p :: q :: Y.
Proof.
  destruct (exists_last (l := qc_head c :: A.*1)) as (X & p & Hp); [done|].
  destruct (B.*1 ++ [qc_tail c]) as [|q Y] eqn:Hq; [by destruct (B.*1)|].
  exists X, p, q, Y. unfold all_locs. rewrite !fmap_app, fmap_cons, <- !app_assoc. cbn [app fst].
  rewrite Hq. change (qc_head c :: A.*1 ++ e :: q :: Y) with ((qc_head c :: A.*1) ++ e :: q :: Y).
  change (qc_head c :: A.*1 ++ q :: Y) with ((qc_head c :: A.*1) ++ q :: Y).
  rewrite Hp, <- !app_assoc. done.
Qed.

Lemma all_locs_nodes c P h : all_locs (with_nodes h c) P = all_locs c P.
Proof. done. Qed.

(** Unlinking an element of the list. *)
Lemma unlink_rep c A e x B :
  rep c (A ++ (e, x) :: B) →
  ∃ h, unlink e (nodes c) = Some h ∧ data h = data (nodes c) ∧
    chain (nexts h) (all_locs c (A ++ B)) ∧ chain (prevs h) (reverse (all_locs c (A ++ B))).
Proof.
  intros [Hnd Hf Hb _ _ _]. destruct (neighbours c A e x B) as (X & p & q & Y & E1 & E2).
  rewrite E1 in Hnd, Hf, Hb. rewrite E2. by apply unlink_spec.
Qed.

Lemma all_locs_sub c A e x B :
  NoDup (all_locs c (A ++ (e, x) :: B)) → NoDup (e :: all_locs c (A ++ B)).
Proof.
  unfold all_locs. rewrite !fmap_app, fmap_cons. cbn [fst]. intros Hnd.
  eapply NoDup_Permutation_proper; [|exact Hnd]. solve_Permutation.
Qed.

Lemma remove_rep c A e x B :
  rep c (A ++ (e, x) :: B) → ∃ c', remove c e = Some c' ∧ rep c' (A ++ B) ∧
    ttl c' = ttl c ∧ maxSize c' = maxSize c.
Proof.
  intros Hr. destruct (unlink_rep c A e x B Hr) as (h & Hu & Hd & Hf & Hb).
  destruct Hr as [Hnd _ _ Hdata Hk Hi]. apply Forall_app in Hdata as [HdA [He HdB]%Forall_cons].
  cbn [fst snd] in He. assert (∃ n, h !! e = Some n ∧ node_data n = x) as (n & Hn & <-).
  { rewrite <- Hd in He. unfold data in He. rewrite lookup_fmap in He.
    by apply fmap_Some in He as (n & ? & ->); eauto. }
  unfold remove. rewrite Hu. cbn [mbind option_bind]. rewrite Hn. cbn [mbind option_bind].
  eexists. split; [done|]. split; [|done].
  assert (NoDup (c_key <$> (A ++ B).*2) ∧ ce_key n ∉ c_key <$> (A ++ B).*2) as [Hk' Hn'].
  { rewrite !fmap_app in Hk |- *. rewrite !fmap_cons in Hk. cbn [snd] in Hk.
    rewrite <- Permutation_middle, NoDup_cons in Hk. naive_solver. }
  split; cbn [nodes items with_items with_nodes]; [|done|done| |done|].
  - apply all_locs_sub in Hnd. by apply NoDup_cons in Hnd as [_ ?].
  - rewrite Hd. by apply Forall_app.
  - rewrite Hi. rewrite !keyed_app. cbn [keyed fmap list_fmap fst snd].
    rewrite <- (list_to_map_proper ((ce_key n, e) :: keyed A ++ keyed B)).
    + cbn [list_to_map foldr uncurry]. rewrite delete_insert_id; [done|].
      apply not_elem_of_list_to_map. rewrite <- keyed_app, keyed_keys. done.
    + cbn [fmap list_fmap fst]. rewrite <- keyed_app, keyed_keys. by constructor.
    + apply Permutation_middle.
Qed.

Lemma link_front c P e (x : centry) h :
  NoDup (e :: all_locs c P) → chain (nexts h) (all_locs c P) →
  chain (prevs h) (reverse (all_locs c P)) → is_Some (h !! e) →
  ∃ h', insertFront (qc_head c) e h = Some h' ∧ data h' = data h ∧
    chain (nexts h') (all_locs c ((e, x) :: P)) ∧
    chain (prevs h') (reverse (all_locs c ((e, x) :: P))) ∧ NoDup (all_locs c ((e, x) :: P)).
Proof.
  unfold all_locs. rewrite fmap_cons. cbn [fst app].
  destruct (P.*1 ++ [qc_tail c]) as [|f Y] eqn:Hq; [by destruct (P.*1)|].
  intros Hnd Hf Hb He.
  assert (NoDup (qc_head c :: e :: f :: Y)) as Hnd'.
  { eapply NoDup_Permutation_proper; [|exact Hnd]. apply Permutation_swap. }
  destruct (insertFront_spec h (qc_head c) e f Y) as (h' & Hi & Hd & Hf' & Hb'); try done.
  { pose proof (reverse_mid2 [] (qc_head c) f Y) as E. cbn [app] in E. rewrite E in Hb.
    apply chain_at in Hb. by eapply prev_is_Some. }
  eauto 10.
Qed.

Lemma data_lookup h e x : data h !! e = Some x → is_Some (h !! e).
Proof. unfold data. rewrite lookup_fmap. destruct (h !! e); [eauto|done]. Qed.

Lemma moveToFront_rep c A e x B :
  rep c (A ++ (e, x) :: B) → ∃ c', moveToFront c e = Some c' ∧ rep c' ((e, x) :: A ++ B) ∧
    data (nodes c') = data (nodes c) ∧ ttl c' = ttl c ∧ maxSize c' = maxSize c.
Proof.
  intros Hr. destruct (unlink_rep c A e x B Hr) as (h & Hu & Hd & Hf & Hb).
  destruct Hr as [Hnd _ _ Hdata Hk Hi].
  assert (data h !! e = Some x) as He.
  { rewrite Hd. apply (proj1 (Forall_forall _ _) Hdata (e, x)). set_solver. }
  destruct (link_front c (A ++ B) e x h) as (h' & Hl & Hd' & Hf' & Hb' & Hnd');
    [by eapply all_locs_sub|done|done|by eapply data_lookup|].
  unfold moveToFront. rewrite Hu. cbn [mbind option_bind]. rewrite Hl. cbn [mbind option_bind].
  eexists. split; [done|].
  split; [|cbn [nodes with_nodes ttl maxSize]; split; [congruence|done]].
  split; cbn [nodes items with_nodes]; [done..| | |].
  - rewrite Hd', Hd. by rewrite Permutation_middle.
  - by rewrite Permutation_middle.
  - rewrite Hi. apply list_to_map_proper; [by rewrite keyed_keys|].
    unfold keyed. by rewrite Permutation_middle.
Qed.

Lemma removelast_snoc {A} (l : list A) x : removelast (l ++ [x]) = l.
Proof. rewrite removelast_app by done. cbn. by rewrite app_nil_r. Qed.

Lemma evictLRU_rep c P :
  rep c P → ∃ c', evictLRU c = Some c' ∧ rep c' (removelast P) ∧
    ttl c' = ttl c ∧ maxSize c' = maxSize c.
Proof.
  intros Hr. unfold evictLRU. rewrite <- prevs_lookup.
  destruct P as [|[e x] A _] using rev_ind.
  - pose proof (rep_prev _ _ Hr) as Hb. unfold all_locs in Hb. cbn in Hb.
    destruct Hb as [-> _]. cbn [mbind option_bind]. rewrite decide_True by done. eauto.
  - pose proof (rep_prev _ _ Hr) as Hb. pose proof (rep_nodup _ _ Hr) as Hnd. unfold all_locs in Hb, Hnd.
    rewrite fmap_app in Hb, Hnd. cbn [fmap list_fmap fst] in Hb, Hnd. rewrite <- app_assoc in Hb, Hnd.
    cbn [app] in Hb, Hnd.
    change (qc_head c :: A.*1 ++ [e; qc_tail c]) with ((qc_head c :: A.*1) ++ [e; qc_tail c]) in Hb.
    rewrite reverse_app in Hb. cbn [reverse rev_append app] in Hb. destruct Hb as [-> _].
    cbn [mbind option_bind]. rewrite decide_False.
    + destruct (remove_rep c A e x [] Hr) as (c' & -> & Hr' & Hc). rewrite app_nil_r in Hr'.
      rewrite removelast_snoc. eauto.
    + intros ->. apply NoDup_cons in Hnd as [Hn _]. set_solver.
Qed.

Lemma set_value_rep c A e x B r now :
  rep c (A ++ (e, x) :: B) →
  ∃ h, set_value e r now (nodes c) = Some h ∧
    rep (with_nodes h c) (A ++ (e, mkCentry (c_key x) r now) :: B).
Proof.
  intros [Hnd Hf Hb Hd Hk Hi].
  assert (data (nodes c) !! e = Some x) as He.
  { apply (proj1 (Forall_forall _ _) Hd (e, x)). set_solver. }
  destruct (data_lookup _ _ _ He) as [n Hn]. unfold set_value, update. rewrite Hn.
  cbn [mbind option_bind]. eexists. split; [done|].
  unfold data in He. rewrite lookup_fmap, Hn in He. injection He as <-.
  assert (∀ y, all_locs c (A ++ (e, y) :: B) = all_locs c (A ++ (e, node_data n) :: B)) as Hl.
  { intros y. unfold all_locs. by rewrite !fmap_app, !fmap_cons. }
  split; cbn [nodes items with_nodes]; rewrite ?all_locs_nodes, ?Hl.
  - done.
  - unfold nexts. rewrite omap_insert. cbn [ce_next]. destruct (ce_next n) as [q|] eqn:Eq.
    + rewrite insert_id; [done|]. by rewrite lookup_omap, Hn.
    + rewrite delete_id; [done|]. by rewrite lookup_omap, Hn.
  - unfold prevs. rewrite omap_insert. cbn [ce_prev]. destruct (ce_prev n) as [q|] eqn:Eq.
    + rewrite insert_id; [done|]. by rewrite lookup_omap, Hn.
    + rewrite delete_id; [done|]. by rewrite lookup_omap, Hn.
  - apply all_locs_sub, NoDup_cons in Hnd as [Hne _].
    apply Forall_app in Hd as [HA [_ HB]%Forall_cons]. unfold data. rewrite fmap_insert.
    apply Forall_app. split; [|constructor; [cbn [fst snd]; by rewrite lookup_insert_eq|]];
      apply Forall_forall; intros [a y] Hay; cbn [fst snd]; (rewrite lookup_insert_ne;
      [first [by apply (proj1 (Forall_forall _ _) HA (a, y)) | by apply (proj1 (Forall_forall _ _) HB (a, y))]|]);
      intros ->; apply Hne; unfold all_locs; rewrite fmap_app;
      apply (list_elem_of_fmap_2 fst) in Hay; set_solver.
  - rewrite !fmap_app, !fmap_cons in *. done.
  - rewrite Hi. unfold keyed. by rewrite !fmap_app, !fmap_cons.
Qed.

Lemma rep_allocated c P a : rep c P → a ∈ all_locs c P → is_Some (nodes c !! a).
Proof.
  intros [_ Hf Hb Hd _ _] Ha. unfold all_locs in *.
  apply elem_of_cons in Ha as [->|[Ha|Ha]%elem_of_app].
  - destruct (P.*1 ++ [qc_tail c]) as [|f Y] eqn:E; [by destruct (P.*1)|].
    destruct Hf as [Hf _]. by eapply next_is_Some.
  - apply list_elem_of_fmap in Ha as ([a' x] & -> & Hin).
    eapply data_lookup, (proj1 (Forall_forall _ _) Hd _ Hin).
  - apply list_elem_of_singleton in Ha as ->. rewrite app_comm_cons in Hb.
    rewrite reverse_snoc in Hb. destruct (reverse (qc_head c :: P.*1)) as [|f Y] eqn:E.
    + by rewrite reverse_cons in E; destruct (reverse P.*1).
    + destruct Hb as [Hb _]. by eapply prev_is_Some.
Qed.

Lemma keys_of_pairs (P : list (loc * centry)) A e x B :
  P = A ++ (e, x) :: B → P.*2 = A.*2 ++ x :: B.*2.
Proof. intros ->. by rewrite fmap_app, fmap_cons. Qed.

(** A key of the map is an element of the list, and conversely. *)
Lemma items_cases c P k :
  rep c P →
  (items c !! k = None ∧ find_key k P.*2 = None) ∨
  (∃ A e x B, P = A ++ (e, x) :: B ∧ c_key x = k ∧ items c !! k = Some e ∧
     find_key k P.*2 = Some x ∧ drop_key k P.*2 = (A ++ B).*2).
Proof.
  intros Hr. destruct (items c !! k) as [e|] eqn:E; [right|left].
  - apply (rep_lookup c P k e Hr) in E as (x & (A & B & ->)%list_elem_of_split & <-).
    exists A, e, x, B. pose proof (rep_keys _ _ Hr) as Hk.
    rewrite (keys_of_pairs _ A e x B eq_refl) in *.
    rewrite find_key_mid, drop_key_mid, fmap_app by done. done.
  - split; [done|]. apply find_key_None. intros (x & -> & ([e y] & Ey & Hin)%list_elem_of_fmap)%list_elem_of_fmap.
    cbn in Ey. subst y.
    assert (items c !! c_key x = Some e) as Hs by (apply (rep_lookup c P); eauto). congruence.
Qed.

Lemma Get_rep c P now k :
  rep c P → ∃ o c' P', Get now k c = Some (o, c') ∧ rep c' P' ∧
    spec_get (ttl c) now k P.*2 = (o, P'.*2) ∧ ttl c' = ttl c ∧ maxSize c' = maxSize c.
Proof.
  intros Hr. unfold Get, spec_get.
  destruct (items_cases c P k Hr) as [[-> ->]|(A & e & x & B & -> & Hk & -> & -> & ->)].
  { by eexists _, _, P. }
  assert (data (nodes c) !! e = Some x) as He.
  { apply (proj1 (Forall_forall _ _) (rep_data _ _ Hr) (e, x)). set_solver. }
  unfold data in He. rewrite lookup_fmap in He. apply fmap_Some in He as (n & Hn & ->).
  rewrite Hn. cbn [mbind option_bind node_data c_at]. destruct (ttl c <? now - ce_insertedAt n).
  - destruct (remove_rep c A e (node_data n) B Hr) as (c' & -> & Hr' & ? & ?).
    cbn [mbind option_bind]. by eexists _, _, _.
  - destruct (moveToFront_rep c A e (node_data n) B Hr) as (c' & -> & Hr' & Hd & ? & ?).
    cbn [mbind option_bind].
    assert (data (nodes c') !! e = Some (node_data n)) as He'.
    { rewrite Hd. unfold data. by rewrite lookup_fmap, Hn. }
    unfold data in He'. rewrite lookup_fmap in He'. apply fmap_Some in He' as (n' & Hn' & E).
    rewrite Hn'. cbn [mbind option_bind]. eexists _, _, _. split; [done|]. split; [done|].
    cbn [fmap list_fmap snd]. split; [|done]. do 3 f_equal. injection E as ???. done.
Qed.

Lemma nodes_insert_fresh c P n e :
  rep c P → nodes c !! e = None →
  ∃ h', insertFront (qc_head c) e (<[e := n]> (nodes c)) = Some h' ∧
    data h' = <[e := node_data n]> (data (nodes c)) ∧
    chain (nexts h') (all_locs c ((e, node_data n) :: P)) ∧
    chain (prevs h') (reverse (all_locs c ((e, node_data n) :: P))) ∧
    NoDup (all_locs c ((e, node_data n) :: P)).
Proof.
  intros Hr He.
  assert (e ∉ all_locs c P) as Hni.
  { intros Hin. destruct (rep_allocated c P e Hr Hin). congruence. }
  destruct Hr as [Hnd Hf Hb _ _ _].
  destruct (link_front c P e (node_data n) (<[e := n]> (nodes c))) as (h' & -> & Hd & Hrest).
  - by constructor.
  - unfold nexts. rewrite omap_insert. destruct (ce_next n).
    + by apply chain_insert.
    + rewrite delete_id; [done|]. by rewrite lookup_omap, He.
  - unfold prevs. rewrite omap_insert. destruct (ce_prev n).
    + apply chain_insert; [|done]. by rewrite elem_of_reverse.
    + rewrite delete_id; [done|]. by rewrite lookup_omap, He.
  - by rewrite lookup_insert_eq.
  - eexists. split; [done|]. split; [|done]. rewrite Hd. unfold data. by rewrite fmap_insert.
Qed.

(** The insertion of a new key. *)
Lemma insert_new_rep c P k r now :
  rep c P → k ∉ c_key <$> P.*2 →
  let e := fresh (dom (nodes c) : gset loc) in
  ∃ h', insertFront (qc_head c) e (<[e := mkCacheEntry k r now None None]> (nodes c)) = Some h' ∧
    rep (with_items (<[k := e]> (items c)) (with_nodes h' c)) ((e, mkCentry k r now) :: P).
Proof.
  intros Hr Hk e.
  assert (nodes c !! e = None) as He by (apply not_elem_of_dom, is_fresh).
  destruct (nodes_insert_fresh c P (mkCacheEntry k r now None None) e Hr He)
    as (h' & Hi & Hd & Hf & Hb & Hnd).
  exists h'. split; [done|]. split; cbn [nodes items with_items with_nodes]; [done..| | |].
  - rewrite Hd. constructor; [cbn [fst snd]; by rewrite lookup_insert_eq|].
    apply Forall_forall. intros [a x] Hin. cbn [fst snd]. rewrite lookup_insert_ne.
    + apply (proj1 (Forall_forall _ _) (rep_data _ _ Hr) (a, x) Hin).
    + intros ->. destruct (rep_allocated c P a Hr); [|congruence]. unfold all_locs.
      apply (list_elem_of_fmap_2 fst) in Hin. set_solver.
  - constructor; [done|]. by apply rep_keys with c.
  - by rewrite (rep_items _ _ Hr).
Qed.

Lemma removelast_fmap {A B} (f : A → B) l : f <$> removelast l = removelast (f <$> l).
Proof.
  destruct l as [|x l _] using rev_ind; [done|].
  rewrite fmap_app, removelast_snoc. change (f <$> [x]) with [f x]. by rewrite removelast_snoc.
Qed.

Lemma removelast_sub {A} (l : list A) x : x ∈ removelast l → x ∈ l.
Proof. destruct l as [|y l _] using rev_ind; [done|]. rewrite removelast_snoc. set_solver. Qed.

Lemma Put_rep c P now k r :
  rep c P → ∃ c' P', Put now k r c = Some c' ∧ rep c' P' ∧
    spec_put (maxSize c) now k r P.*2 = P'.*2 ∧ ttl c' = ttl c ∧ maxSize c' = maxSize c.
Proof.
  intros Hr. unfold Put, spec_put.
  destruct (items_cases c P k Hr) as [[-> Hk]|(A & e & x & B & -> & <- & -> & -> & ->)].
  - rewrite Hk, (rep_size c P Hr).
    replace (len P.*2) with (Z.of_nat (length P)) by (unfold len; by rewrite length_fmap).
    apply find_key_None in Hk.
    assert (∃ c1 P1, (if maxSize c <=? Z.of_nat (length P) then evictLRU c else Some c) = Some c1 ∧
      rep c1 P1 ∧ P1.*2 = (if maxSize c <=? Z.of_nat (length P) then removelast P.*2 else P.*2) ∧
      ttl c1 = ttl c ∧ maxSize c1 = maxSize c ∧ k ∉ c_key <$> P1.*2)
      as (c1 & P1 & -> & Hr1 & Heq & Ht & Hm & Hk1).
    { destruct (maxSize c <=? Z.of_nat (length P)).
      - destruct (evictLRU_rep c P Hr) as (c' & -> & Hr' & ? & ?). exists c', (removelast P).
        rewrite removelast_fmap. split_and!; try done. rewrite removelast_fmap.
        by intros ?%removelast_sub.
      - by exists c, P. }
    cbn [mbind option_bind]. cbv zeta.
    destruct (insert_new_rep c1 P1 k r now Hr1 Hk1) as (h' & -> & Hr').
    cbn [mbind option_bind]. eexists _, _. split; [done|]. split; [exact Hr'|].
    rewrite fmap_cons, Heq. done.
  - destruct (set_value_rep c A e x B r now Hr) as (h & -> & Hr1). cbn [mbind option_bind].
    destruct (moveToFront_rep _ A e _ B Hr1) as (c' & -> & Hr2 & _ & Ht & Hm).
    by eexists _, _.
Qed.

Lemma NewQueryCache_rep t n : rep (NewQueryCache t n) [].
Proof.
  split; cbn; [|by split..|done|constructor|done]. repeat constructor; set_solver.
Qed.

Lemma step_rep c P op :
  rep c P → ∃ o c' P', step op c = Some (o, c') ∧ rep c' P' ∧
    spec_step (ttl c) (maxSize c) op P.*2 = (o, P'.*2) ∧ ttl c' = ttl c ∧ maxSize c' = maxSize c.
Proof.
  intros Hr. destruct op as [now k|now k r]; cbn [step spec_step].
  - apply (Get_rep c P now k Hr).
  - destruct (Put_rep c P now k r Hr) as (c' & P' & -> & ? & -> & ? & ?). by eexists _, _, _.
Qed.

Lemma run_rep c P ops :
  rep c P → ∃ os c' P', run ops c = Some (os, c') ∧ rep c' P' ∧
    spec_run (ttl c) (maxSize c) ops P.*2 = (os, P'.*2) ∧ ttl c' = ttl c ∧ maxSize c' = maxSize c.
Proof.
  revert c P. induction ops as [|op ops IH]; intros c P Hr; [by eexists _, _, _|].
  cbn [run spec_run].
  destruct (step_rep c P op Hr) as (o & c1 & P1 & -> & Hr1 & -> & <- & <-).
  cbn [mbind option_bind]. destruct (IH c1 P1 Hr1) as (os & c2 & P2 & -> & Hr2 & -> & Ht & Hm).
  cbn [mbind option_bind]. by eexists _, _, _.
Qed.

(** ** Lemmas: the specification *)

Lemma spec_run_app t n a b l :
  spec_run t n (a ++ b) l =
    ((spec_run t n a l).1 ++ (spec_run t n b (spec_run t n a l).2).1,
     (spec_run t n b (spec_run t n a l).2).2).
Proof.
  revert l. induction a as [|op a IH]; intros l; cbn [app spec_run].
  - cbn [fst snd app]. apply surjective_pairing.
  - destruct (spec_step t n op l) as [o l']. rewrite IH.
    destruct (spec_run t n a l') as [oa la]. cbn [fst snd app]. done.
Qed.

Lemma find_key_Some k l x : find_key k l = Some x → x ∈ l ∧ c_key x = k.
Proof.
  unfold find_key. intros ([i y] & Hf & ->)%fmap_Some.
  apply list_find_Some in Hf as (Hy & Hk & _). split; [by eapply list_elem_of_lookup_2|done].
Qed.

Lemma drop_key_elem k l x : x ∈ drop_key k l ↔ x ∈ l ∧ c_key x ≠ k.
Proof. unfold drop_key. rewrite list_elem_of_filter. naive_solver. Qed.

(** Every entry of the list carries the last value put under its key. *)
Lemma spec_run_history t n ops x :
  x ∈ (spec_run t n ops []).2 → last_put (c_key x) ops = Some (c_result x, c_at x).
Proof.
  revert x. induction ops as [|op ops IH] using rev_ind; intros x; [cbn; set_solver|].
  rewrite spec_run_app. set (l := (spec_run t n ops []).2) in *.
  unfold last_put. rewrite foldl_snoc. fold (last_put (c_key x) ops).
  cbn [spec_run]. destruct op as [now k|now k r]; cbn [spec_step record_put].
  - unfold spec_get. destruct (find_key k l) as [y|] eqn:Hf; cbn [snd]; [|by apply IH].
    apply find_key_Some in Hf as [Hy _]. destruct (t <? now - c_at y); cbn [snd].
    + intros [? _]%drop_key_elem. by apply IH.
    + intros [->|[? _]%drop_key_elem]%elem_of_cons; by apply IH.
  - cbn [snd]. unfold spec_put. destruct (find_key k l) eqn:Hf.
    + intros [->|[Hx Hk]%drop_key_elem]%elem_of_cons; cbn [c_key c_result c_at].
      * by rewrite decide_True.
      * rewrite decide_False by done. by apply IH.
    + apply find_key_None in Hf. intros [->|Hx]%elem_of_cons; cbn [c_key c_result c_at].
      * by rewrite decide_True.
      * assert (x ∈ l) as Hxl by (destruct (n <=? len l); [by apply removelast_sub|done]).
        rewrite decide_False; [by apply IH|]. intros ->. apply Hf. by apply list_elem_of_fmap_2.
Qed.

Lemma spec_get_length t now k l :
  NoDup (c_key <$> l) → (length (spec_get t now k l).2 ≤ length l)%nat.
Proof.
  intros Hnd. unfold spec_get. destruct (find_key k l) as [x|] eqn:Hf; [|done].
  apply find_key_Some in Hf as [(A & B & ->)%list_elem_of_split <-].
  case_match; cbn [snd]; rewrite drop_key_mid by done; cbn [length]; rewrite !length_app; cbn; lia.
Qed.

Lemma spec_put_length n now k r l :
  NoDup (c_key <$> l) → len l ≤ Z.max 1 n → len (spec_put n now k r l) ≤ Z.max 1 n.
Proof.
  intros Hnd Hl. unfold spec_put, len in *. destruct (find_key k l) as [x|] eqn:Hf.
  - apply find_key_Some in Hf as [(A & B & ->)%list_elem_of_split <-].
    rewrite drop_key_mid by done. cbn [length]. rewrite !length_app in *. cbn [length] in *. lia.
  - cbn [length]. destruct (Z.leb_spec n (Z.of_nat (length l))); [|lia].
    destruct l as [|x l _] using rev_ind; [cbn; lia|]. rewrite removelast_snoc, length_app in *.
    cbn [length] in *. lia.
Qed.

Lemma step_length t n op c P :
  rep c P → ttl c = t → maxSize c = n → len P.*2 ≤ Z.max 1 n →
  len (spec_step t n op P.*2).2 ≤ Z.max 1 n.
Proof.
  intros Hr <- <- Hl. pose proof (rep_keys _ _ Hr) as Hk.
  destruct op as [now k|now k r]; cbn [spec_step snd]; [|by apply spec_put_length].
  pose proof (spec_get_length (ttl c) now k _ Hk). unfold len in *. lia.
Qed.

Lemma run_app a b c :
  run (a ++ b) c = ('(oa, c) ← run a c; '(ob, c) ← run b c; Some (oa ++ ob, c)).
Proof.
  revert c. induction a as [|op a IH]; intros c; cbn [app run].
  - cbn [mbind option_bind]. by destruct (run b c) as [[? ?]|].
  - destruct (step op c) as [[o c1]|]; [|done]. cbn [mbind option_bind]. rewrite IH.
    destruct (run a c1) as [[oa c2]|]; [|done]. cbn [mbind option_bind].
    by destruct (run b c2) as [[ob c3]|].
Qed.

(** The abstract list stays within the bound. *)
Lemma spec_run_bounded t n ops : len (spec_run t n ops []).2 ≤ Z.max 1 n.
Proof.
  induction ops as [|op ops IH] using rev_ind; [cbn [spec_run snd]; unfold len; cbn [length]; lia|].
  rewrite spec_run_app.
  destruct (run_rep (NewQueryCache t n) [] ops (NewQueryCache_rep t n))
    as (os & c & P & _ & Hr & Hs & Ht & Hm). cbn in Hs, Ht, Hm. rewrite Hs in IH |- *.
  cbn [snd spec_run]. pose proof (step_length t n op c P Hr Ht Hm IH) as Hl.
  by destruct (spec_step t n op P.*2).
Qed.

Lemma drop_key_kept k r t S k' l :
  k' ≠ k → kept k r t S l → kept k r t S (drop_key k' l).
Proof.
  intros Hk (A & B & -> & HA). exists (drop_key k' A), (drop_key k' B). split.
  - unfold drop_key. rewrite filter_app, filter_cons, decide_True by (by cbn). done.
  - intros x [? _]%drop_key_elem. auto.
Qed.

Lemma cons_kept k r t S x l : c_key x ∈ S → kept k r t S l → kept k r t S (x :: l).
Proof.
  intros Hx (A & B & -> & HA). exists (x :: A), B. split; [done|]. set_solver.
Qed.

(** The entries in front of [k] are fewer than the keys in use. *)
Lemma front_short (A : list centry) (S : gset string) (k' : string) :
  NoDup (c_key <$> A) → (∀ x, x ∈ A → c_key x ∈ S ∧ c_key x ≠ k') → k' ∈ S →
  (length A < size S)%nat.
Proof.
  intros Hnd HA Hk'.
  assert (size (list_to_set (c_key <$> A) : gset string) ≤ size (S ∖ {[k']}))%nat as Hle.
  { apply subseteq_size. intros y (x & -> & Hx)%elem_of_list_to_set%list_elem_of_fmap.
    specialize (HA x Hx). set_solver. }
  rewrite size_list_to_set, length_fmap, size_difference, size_singleton in Hle by set_solver.
  assert (size S ≠ 0%nat); [|lia]. intros E%size_empty_inv. set_solver.
Qed.

Lemma spec_step_kept t n op k r at_ S l :
  NoDup (c_key <$> l) → kept k r at_ S l → op_key op ∈ S → k ∉ S → Z.of_nat (size S) < n →
  kept k r at_ S (spec_step t n op l).2.
Proof.
  intros Hnd Hk Hop Hks Hn.
  assert (op_key op ≠ k) as Hne by set_solver.
  destruct op as [now k'|now k' r']; cbn [op_key spec_step snd] in *.
  - unfold spec_get. destruct (find_key k' l) as [x|] eqn:Hf; [|done].
    apply find_key_Some in Hf as [_ Hx]. destruct (t <? now - c_at x); cbn [snd].
    + by apply drop_key_kept.
    + apply cons_kept; [by rewrite Hx|]. by apply drop_key_kept.
  - unfold spec_put. destruct (find_key k' l) as [x|] eqn:Hf.
    + apply cons_kept; [done|]. by apply drop_key_kept.
    + apply cons_kept; [done|]. destruct (Z.leb_spec n (len l)) as [Hfull|]; [|done].
      destruct Hk as (A & B & -> & HA). apply find_key_None in Hf.
      destruct B as [|y B _] using rev_ind.
      * exfalso. rewrite fmap_app in Hnd, Hf. apply NoDup_app in Hnd as [Hnd _].
        assert (length A < size S)%nat as Hs.
        { apply (front_short A S k'); [done| |done]. intros x Hx. split; [auto|].
          intros E. apply Hf, elem_of_app. left. rewrite <- E. by apply list_elem_of_fmap_2. }
        unfold len in Hfull. rewrite length_app in Hfull. cbn [length] in Hfull. lia.
      * exists A, B. split; [|done]. rewrite app_comm_cons, app_assoc. by rewrite removelast_snoc.
Qed.

Lemma spec_run_kept c P ops k r at_ S :
  rep c P → kept k r at_ S P.*2 → (∀ op, op ∈ ops → op_key op ∈ S) → k ∉ S →
  Z.of_nat (size S) < maxSize c →
  kept k r at_ S (spec_run (ttl c) (maxSize c) ops P.*2).2.
Proof.
  revert c P. induction ops as [|op ops IH]; intros c P Hr Hk Hops Hks Hn; [done|].
  cbn [spec_run]. destruct (step_rep c P op Hr) as (o & c1 & P1 & _ & Hr1 & Hs & Ht & Hm).
  pose proof (spec_step_kept (ttl c) (maxSize c) op k r at_ S P.*2 (rep_keys _ _ Hr) Hk
    (Hops op ltac:(set_solver)) Hks Hn) as Hk1.
  rewrite Hs in Hk1 |- *. cbn [snd] in Hk1.
  rewrite <- Ht, <- Hm. pose proof (IH c1 P1 Hr1 Hk1 ltac:(set_solver) Hks ltac:(lia)) as Hfin.
  by destruct (spec_run (ttl c1) (maxSize c1) ops P1.*2).
Qed.

Lemma find_key_kept k r t S l : NoDup (c_key <$> l) → kept k r t S l → find_key k l = Some (mkCentry k r t).
Proof. intros Hnd (A & B & -> & _). by apply (find_key_mid A (mkCentry k r t) B). Qed.

Lemma spec_put_kept n now k r S l : kept k r now S (spec_put n now k r l).
Proof.
  unfold spec_put. destruct (find_key k l); eexists [], _; (split; [done|]); set_solver.
Qed.

(** ** Properties *)

(** C19. The linked list with its map is an LRU cache with expiry: for every sequence
    of [Get] and [Put] calls on a new cache, no pointer is nil, and the answers are
    those of the specification, a list of entries in order of use. *)
Theorem cache_refines_lru (t n : Z) (ops : list cache_op) :
  ∃ c, run ops (NewQueryCache t n) = Some ((spec_run t n ops []).1, c).
Proof.
  destruct (run_rep (NewQueryCache t n) [] ops (NewQueryCache_rep t n))
    as (os & c & P & -> & _ & Hs & _). cbn in Hs. rewrite Hs. by exists c.
Qed.

(** The cache never holds more than [maxSize] entries (one, if [maxSize] is not
    positive), and its map and its list have the same length. *)
Theorem cache_bounded (t n : Z) (ops : list cache_op) :
  ∃ os c P, run ops (NewQueryCache t n) = Some (os, c) ∧ rep c P ∧
    size (items c) = length P ∧ Z.of_nat (size (items c)) ≤ Z.max 1 n.
Proof.
  destruct (run_rep (NewQueryCache t n) [] ops (NewQueryCache_rep t n))
    as (os & c & P & Hrun & Hr & Hs & _). cbn in Hs.
  exists os, c, P. rewrite (rep_size c P Hr). split_and!; try done.
  pose proof (spec_run_bounded t n ops) as Hb. rewrite Hs in Hb. unfold len in Hb. cbn [snd] in Hb.
  by rewrite length_fmap in Hb.
Qed.

(** A hit is never stale and never another key's: if a [Get] answers [r], the last
    [Put] of that key stored [r], no longer than the time to live ago. *)
Theorem cache_get_sound (t n now : Z) (k : string) (r : option QueryResult) (ops : list cache_op)
    (os : list (option (option QueryResult))) (c : QueryCache) :
  run (ops ++ [OpGet now k]) (NewQueryCache t n) = Some (os ++ [Some r], c) →
  ∃ at_, last_put k ops = Some (r, at_) ∧ now - at_ ≤ t.
Proof.
  intros Hrun.
  destruct (run_rep (NewQueryCache t n) [] (ops ++ [OpGet now k]) (NewQueryCache_rep t n))
    as (os' & c' & P & Hrun' & _ & Hs & _). cbn [ttl maxSize NewQueryCache fmap list_fmap] in Hs.
  rewrite Hrun in Hrun'. injection Hrun' as <- <-. rewrite spec_run_app in Hs.
  set (l := (spec_run t n ops []).2) in *. cbn [spec_run spec_step] in Hs.
  unfold spec_get in Hs. destruct (find_key k l) as [x|] eqn:Hf; cbn [fst] in Hs.
  - destruct (Z.ltb_spec t (now - c_at x)); cbn [fst] in Hs;
      apply (f_equal fst) in Hs; cbn [fst] in Hs; apply app_inj_2 in Hs as [_ Hs]; try done.
    apply find_key_Some in Hf as [Hx <-]. apply spec_run_history in Hx.
    injection Hs as <-. by exists (c_at x).
  - apply (f_equal fst) in Hs. cbn [fst] in Hs. by apply app_inj_2 in Hs as [_ Hs].
Qed.

(** Recently used entries are retained: after a [Put], as long as the later calls
    use fewer than [maxSize] other keys, a [Get] within the time to live answers the
    stored result. *)
Theorem cache_retains (t n now at_ : Z) (k : string) (r : option QueryResult)
    (before after : list cache_op) (S : gset string) :
  (∀ op, op ∈ after → op_key op ∈ S) → k ∉ S → Z.of_nat (size S) < n → now - at_ ≤ t →
  ∃ os c, run (before ++ OpPut at_ k r :: after ++ [OpGet now k]) (NewQueryCache t n)
          = Some (os ++ [Some r], c).
Proof.
  intros Hafter Hk Hn Hnow.
  destruct (run_rep (NewQueryCache t n) [] (before ++ [OpPut at_ k r]) (NewQueryCache_rep t n))
    as (os1 & c1 & P1 & Hrun1 & Hr1 & Hs1 & Ht1 & Hm1). cbn in Ht1, Hm1.
  cbn [ttl maxSize NewQueryCache fmap list_fmap] in Hs1.
  assert (kept k r at_ S P1.*2) as Hk1.
  { rewrite spec_run_app in Hs1. cbn [spec_run spec_step snd] in Hs1. injection Hs1 as _ <-.
    apply spec_put_kept. }
  destruct (run_rep c1 P1 after Hr1) as (os2 & c2 & P2 & Hrun2 & Hr2 & Hs2 & Ht2 & Hm2).
  pose proof (spec_run_kept c1 P1 after k r at_ S Hr1 Hk1 Hafter Hk ltac:(lia)) as Hk2.
  rewrite Hs2 in Hk2. cbn [snd] in Hk2.
  destruct (Get_rep c2 P2 now k Hr2) as (o & c3 & P3 & Hg & _ & Hs3 & _).
  unfold spec_get in Hs3. rewrite (find_key_kept _ _ _ _ _ (rep_keys _ _ Hr2) Hk2) in Hs3.
  cbn [c_at c_result] in Hs3. rewrite (proj2 (Z.ltb_ge _ _)) in Hs3 by lia. injection Hs3 as <- _.
  exists (os1 ++ os2), c3. rewrite cons_middle, app_assoc, run_app, Hrun1. cbn [mbind option_bind].
  rewrite run_app, Hrun2. cbn [mbind option_bind run step]. rewrite Hg. cbn [mbind option_bind].
  by rewrite app_assoc.
Qed.
End LRU.

(** ** Cache keys *)

Module Key.

(** What [fmt.Fprintf] writes into the hash. *)
Definition preimage (queryString namespace service : string) (startTime endTime limit offset : Z)
    : string :=
  queryString +:+ "|" +:+ namespace +:+ "|" +:+ service +:+ "|" +:+ pretty startTime +:+ "|"
  +:+ pretty endTime +:+ "|" +:+ pretty limit +:+ "|" +:+ pretty offset.

Definition CacheKey (queryString namespace service : string) (startTime endTime limit offset : Z)
    : string :=
  hex (sha256 (string_bytes (preimage queryString namespace service startTime endTime limit offset))).

Lemma pretty_N_go_no_bar n s :
  string_elem "|" s = false → string_elem "|" (pretty_N_go n s) = false.
Proof.
  revert s. induction (N.lt_wf_0 n) as [n _ IH]; intros s Hs.
  assert (n = 0 ∨ 0 < n)%N as [->|?] by lia; [done|].
  rewrite pretty_N_go_step by done. apply IH; [by apply N.div_lt|].
  cbn. rewrite Hs, orb_false_r. unfold pretty_N_char. by repeat case_match.
Qed.

Lemma pretty_no_bar (z : Z) : string_elem "|" (pretty z) = false.
Proof.
  assert (∀ p : positive, string_elem "|" (pretty p) = false) as Hp.
  { intros p. unfold pretty, pretty_positive, pretty, pretty_N. case_decide; [done|].
    by apply pretty_N_go_no_bar. }
  destruct z as [|p|p]; [done|apply Hp|]. exact (Hp p).
Qed.

(** A field without the separator is determined by what follows it. *)
Lemma bar_inj a b s t :
  string_elem "|" a = false → string_elem "|" b = false →
  a +:+ "|" +:+ s = b +:+ "|" +:+ t → a = b ∧ s = t.
Proof.
  intros Ha Hb Heq.
  assert (Cut1 (a +:+ "|" +:+ s) "|" = Some (a, s)) as H1 by (by apply Cut1_Some).
  assert (Cut1 (b +:+ "|" +:+ t) "|" = Some (b, t)) as H2 by (by apply Cut1_Some).
  rewrite Heq, H2 in H1. by injection H1 as -> ->.
Qed.

(** Requests without the separator in their texts are hashed apart: if no query
    string, namespace or service contains [|], requests with the same hash input are
    the same request, so that a shared cache entry would be a collision of SHA-256. *)
Theorem preimage_injective (q1 q2 n1 n2 s1 s2 : string) (a1 a2 b1 b2 l1 l2 o1 o2 : Z) :
  Forall (λ s, string_elem "|" s = false) [q1; q2; n1; n2; s1; s2] →
  preimage q1 n1 s1 a1 b1 l1 o1 = preimage q2 n2 s2 a2 b2 l2 o2 →
  (q1, n1, s1, a1, b1, l1, o1) = (q2, n2, s2, a2, b2, l2, o2).
Proof.
  intros Hall. rewrite !Forall_cons in Hall.
  destruct Hall as (Hq1 & Hq2 & Hn1 & Hn2 & Hs1 & Hs2 & _). unfold preimage. intros Heq.
  apply bar_inj in Heq as [-> Heq]; [|done..]. apply bar_inj in Heq as [-> Heq]; [|done..].
  apply bar_inj in Heq as [-> Heq]; [|done..].
  apply bar_inj in Heq as [->%(inj pretty) Heq]; [|apply pretty_no_bar..].
  apply bar_inj in Heq as [->%(inj pretty) Heq]; [|apply pretty_no_bar..].
  apply bar_inj in Heq as [->%(inj pretty) ->%(inj pretty)]; [|apply pretty_no_bar..].
  done.
Qed.

(** Requests whose texts contain the separator can share a key: the query [a|b]
    in the namespace [c] and the query [a] in the namespace [b|c] have the same
    [CacheKey], for every service, time range and page, so that one is answered with
    the cached result of the other. *)
Theorem CacheKey_ambiguous (a b c service : string) (startTime endTime limit offset : Z) :
  CacheKey (a +:+ "|" +:+ b) c service startTime endTime limit offset
  = CacheKey a (b +:+ "|" +:+ c) service startTime endTime limit offset.
Proof. unfold CacheKey, preimage. by rewrite !string_app_assoc. Qed.
End Key.

(** ** Witnesses *)

Lemma cache_get_sound_witness :
  let r := Some (mkQueryResult [] 7 0 false) in
  let ops := [LRU.OpPut 0 "a" None; LRU.OpPut 5 "a" r; LRU.OpPut 6 "b" None] in
  (∃ os c, LRU.run (ops ++ [LRU.OpGet 9 "a"]) (LRU.NewQueryCache 10 2) = Some (os ++ [Some r], c)) ∧
  ∃ at_, LRU.last_put "a" ops = Some (r, at_) ∧ 9 - at_ ≤ 10.
Proof.
  intros r ops. split.
  - exists [None; None; None]. eexists. vm_compute. reflexivity.
  - eapply (LRU.cache_get_sound 10 2 9 "a" r ops [None; None; None]). vm_compute. reflexivity.
Defined.

Lemma cache_retains_witness :
  let r := Some (mkQueryResult [] 7 0 false) in
  ∃ os c, LRU.run ([LRU.OpPut 0 "x" None] ++ LRU.OpPut 1 "a" r :: [LRU.OpPut 2 "b" None] ++ [LRU.OpGet 9 "a"])
            (LRU.NewQueryCache 10 2) = Some (os ++ [Some r], c).
Proof.
  intros r. apply (LRU.cache_retains 10 2 9 1 "a" r [LRU.OpPut 0 "x" None] [LRU.OpPut 2 "b" None] {["b"]}).
  - intros op Hop. apply list_elem_of_singleton in Hop as ->. cbn. set_solver.
  - set_solver.
  - vm_compute. reflexivity.
  - lia.
Defined.

Lemma preimage_injective_witness :
  let q := "level:ERROR" in
  (q, "ns", "api", 0, 0, 10, 0) = (q, "ns", "api", 0, 0, 10, 0).
Proof.
  intros q. apply (Key.preimage_injective q q "ns" "ns" "api" "api" 0 0 0 0 10 10 0 0).
  - repeat constructor.
  - reflexivity.
Defined.
