(* ===== verification/Fanout.v ===== *)
(** * Distributed queries ([internal/query/server.go], [internal/coordinator/fanout.go],
    [query_server.go])

    The coordinator sends a query to every healthy node, merges what comes back
    and caches complete answers. A node answers with its local executor. The
    network between them is an argument: the response of each address to the
    request, and the order in which the responses arrive. *)

From S2P Require Import Prelude GoStrings Types Record Disk Segment Ranking Index Parser Bloom.
From S2P Require Import Paths Manager Executor Merge Fsm Sha256 Cache.

(** [logengine.QueryResponse]. *)
Record QueryResponse := mkQueryResponse {
  pb_Entries : list Pb.LogEntry;
  pb_Total : Z;
  pb_Partial : bool;
  pb_TookMs : Z;
}.

(** The checks both handlers start with. *)
Definition check_page (req : QueryRequest) : result () :=
  if Limit req <? 0 then Err (grpc_Status codes_InvalidArgument "limit must be non-negative")
  else if Offset req <? 0 then Err (grpc_Status codes_InvalidArgument "offset must be non-negative")
  else Ok ().

(** The status for an error of the executor. *)
Definition query_status (msg : string) (e : GoError) : GoError :=
  if errors_Is e context_Canceled then grpc_Status codes_Canceled "query canceled"
  else if errors_Is e context_DeadlineExceeded
  then grpc_Status codes_DeadlineExceeded "query deadline exceeded"
  else grpc_Status codes_Internal msg.

(** The response for a result. *)
Definition query_response (took : Z) (r : QueryResult) : QueryResponse :=
  mkQueryResponse (EntryToProto <$> Entries r) (Total r) (Partial r) took.

Module Server.
Section server.
Context `{GoUnicode} `{Protobuf} `{Bloom}.

(** [QueryServer.Query]. *)
Definition Query (idx : Index) (m : Manager) (err1 err2 : option GoError) (took took' : Z)
    (req : QueryRequest) : IO (result QueryResponse) :=
  match check_page req with
  | Err e => mret (Err e)
  | Ok _ =>
    r ← Execute idx m err1 err2 took req;
    mret match r with
         | Err e => Err (query_status "query failed" e)
         | Ok res => Ok (query_response took' res)
         end
  end.
End server.
End Server.

Module FanOut.

Definition cacheTTL : Z := 30 * 1000000000.
Definition cacheMaxItems : Z := 256.

(** The executor without its pool and logger. *)
Record FanOutExecutor := mkFanOutExecutor {
  fanOutLimit : Z;
  cache : LRU.QueryCache;
}.

Definition NewFanOutExecutor (fanOutLimit : Z) : FanOutExecutor :=
  mkFanOutExecutor fanOutLimit (LRU.NewQueryCache cacheTTL cacheMaxItems).

(** The healthy nodes with an address. *)
Definition targets (cs : Fsm.ClusterState) : list (string * string) :=
  omap (λ x, if decide (Fsm.n_Status x.2 = Fsm.NodeHealthy ∧ Fsm.n_Address x.2 ≠ "")
             then Some (x.1, Fsm.n_Address x.2) else None)
    (map_to_list (Fsm.Nodes cs)).

Definition clientLimit (req : QueryRequest) : Z := if Limit req =? 0 then 100 else Limit req.

(** The per-node limit, with the [int32] addition of the source. *)
Definition nodeLimit (e : FanOutExecutor) (req : QueryRequest) : Z :=
  Z.max (fanOutLimit e) (int32 (Offset req + clientLimit req)).

Definition fanReq (e : FanOutExecutor) (req : QueryRequest) : QueryRequest :=
  mkQueryRequest (QueryString req) (qNamespace req) (qService req) (StartTime req) (EndTime req)
    (nodeLimit e req) 0.

(** What the goroutine for one target sends on the channel; [call] is the
    connection and the RPC. *)
Definition node_result (call : string → QueryRequest → result QueryResponse) (q : QueryRequest)
    (t : string * string) : nodeResult :=
  match call t.2 q with
  | Err err => mkNodeResult t.1 [] 0 (Some err)
  | Ok resp => mkNodeResult t.1 (ProtoToEntry <$> pb_Entries resp) (pb_Total resp) None
  end.

Definition req_key (req : QueryRequest) : string :=
  Key.CacheKey (QueryString req) (qNamespace req) (qService req) (StartTime req) (EndTime req)
    (Limit req) (Offset req).

(** [FanOutExecutor.Execute]. [arrive] is the order in which the channel
    delivers the results, [ctxErr] is [ctx.Err()] after all nodes answered,
    [now1] and [now2] are the times of the cache calls. [None] is a run-time
    panic. *)
Definition Execute (call : string → QueryRequest → result QueryResponse)
    (arrive : list nodeResult → list nodeResult) (cs : Fsm.ClusterState) (ctxErr : option GoError)
    (now1 now2 took : Z) (req : QueryRequest) (e : FanOutExecutor)
    : option (FanOutExecutor * result QueryResult) :=
  let key := req_key req in
  '(hit, c) ← LRU.Get now1 key (cache e);
  match hit with
  | Some cached => r ← cached; Some (mkFanOutExecutor (fanOutLimit e) c, Ok r)
  | None =>
    let e := mkFanOutExecutor (fanOutLimit e) c in
    let parts := arrive (node_result call (fanReq e req) <$> targets cs) in
    match ctxErr with
    | Some err => Some (e, Err err)
    | None =>
      out ← MergeResults parts (Offset req) (clientLimit req);
      let res := mkQueryResult (mo_entries out) (mo_total out) took (mo_partial out) in
      if mo_partial out then Some (e, Ok res)
      else c ← LRU.Put now2 key (Some res) (cache e);
           Some (mkFanOutExecutor (fanOutLimit e) c, Ok res)
    end
  end.

(** [FanOutQueryServer.Query]. *)
Definition Query (call : string → QueryRequest → result QueryResponse)
    (arrive : list nodeResult → list nodeResult) (cs : Fsm.ClusterState) (ctxErr : option GoError)
    (now1 now2 took took' : Z) (req : QueryRequest) (e : FanOutExecutor)
    : option (FanOutExecutor * result QueryResponse) :=
  match check_page req with
  | Err err => Some (e, Err err)
  | Ok _ =>
    '(e, r) ← Execute call arrive cs ctxErr now1 now2 took req e;
    Some (e, match r with
             | Err err => Err (query_status "fan-out query failed" err)
             | Ok res => Ok (query_response took' res)
             end)
  end.

(** ** Specification *)

(** Only complete results are cached. *)
Definition complete (x : LRU.centry) : Prop :=
  ∃ r, LRU.c_result x = Some r ∧ Partial r = false.
Definition exec_ok (e : FanOutExecutor) : Prop :=
  ∃ P, LRU.rep (cache e) P ∧ Forall complete P.*2.

Section spec.
Context `{GoUnicode} `{Protobuf} `{Bloom}.

(** A storage node: its index, manager, disk and segments in step. *)
Record node_store := mkNodeStore {
  ns_index : Index;
  ns_manager : Manager;
  ns_disk : Disk;
  ns_segs : gmap string (list LogEntry);
}.

Definition node_ok (s : node_store) : Prop :=
  no_faults (ns_disk s) ∧ store_ok (ns_index s) (ns_manager s) (ns_disk s) (ns_segs s).

(** The bloom filters of a node are safe for the query. *)
Definition bloom_ok (ast : option Node) (s : node_store) : Prop :=
  blooms (ns_manager s) = ∅ ∨ (∀ n, ast = Some n → bloom_safe (entries_of (ns_segs s)) n).

(** The address is served by the node: a call runs its [QueryServer]. *)
Definition serves (call : string → QueryRequest → result QueryResponse) (addr : string)
    (s : node_store) : Prop :=
  ∀ q, ∃ took took',
    call addr q = (Server.Query (ns_index s) (ns_manager s) None None took took' q (ns_disk s)).1.

(** The stored entries of a list of nodes. *)
Definition all_entries (stores : list node_store) : list LogEntry :=
  stores ≫= λ s, entries_of (ns_segs s).

(** The cache holds a result under the key of the request that has not expired. *)
Definition cached (now : Z) (req : QueryRequest) (e : FanOutExecutor) (res : QueryResult) : Prop :=
  ∃ c, LRU.Get now (req_key req) (cache e) = Some (Some (Some res), c).
Definition not_cached (now : Z) (req : QueryRequest) (e : FanOutExecutor) : Prop :=
  ∃ c, LRU.Get now (req_key req) (cache e) = Some (None, c).

(** The requested page of the ranking of [all]. *)
Definition requested_page (req : QueryRequest) (ast : option Node) (all : list LogEntry) : list LogEntry :=
  take (Z.to_nat (clientLimit req)) (drop (Z.to_nat (Offset req)) (scan req ast all)).

(** What the coordinator promises of a query whose [offset+limit] is an [int32], the nodes
    storing [all] and their filters being [safe] for it: if the cache holds an unexpired
    result under the key of the request, that result; otherwise the page of [all], not partial,
    which a repeat within the time to live then finds in the cache. *)
Definition answers (call : string → QueryRequest → result QueryResponse) (cs : Fsm.ClusterState)
    (safe : option Node → Prop) (all : list LogEntry) : Prop :=
  ∀ arrive now1 now2 took took' req ast e,
    (∀ l, arrive l ≡ₚ l) → exec_ok e → Parse (QueryString req) = Ok ast → safe ast →
    0 ≤ Limit req → 0 ≤ Offset req → Offset req + clientLimit req < 2 ^ 31 →
    ∃ e' res, Query call arrive cs None now1 now2 took took' req e = Some (e', Ok (query_response took' res)) ∧
      exec_ok e' ∧
      (cached now1 req e res ∨
       not_cached now1 req e ∧ Entries res = requested_page req ast all ∧ Partial res = false ∧
       ∀ now3, now3 - now2 ≤ LRU.ttl (cache e) → cached now3 req e' res).
End spec.

(** ** Lemmas *)

Lemma clientLimit_pos req : 0 ≤ Limit req → 0 < clientLimit req.
Proof. intros. unfold clientLimit. destruct (Z.eqb_spec (Limit req) 0); lia. Qed.

Lemma proto_entries_id (l : list LogEntry) : ProtoToEntry <$> (EntryToProto <$> l) = l.
Proof.
  rewrite <- list_fmap_compose. rewrite <- (list_fmap_id l) at 2. apply list_fmap_ext.
  intros _ x _. apply ProtoToEntry_EntryToProto.
Qed.

Lemma filter_bind {A B} (P : B → Prop) `{∀ x, Decision (P x)} (f : A → list B) l :
  filter P (l ≫= f) = mjoin ((λ x, filter P (f x)) <$> l).
Proof. induction l as [|x l IH]; [done|]. cbn. by rewrite filter_app, IH. Qed.

Lemma Forall2_and_mem {A B} (P : A → B → Prop) (Q : B → Prop) l k :
  Forall2 P l k → (∀ y, y ∈ k → Q y) → Forall2 (λ x y, P x y ∧ Q y) l k.
Proof.
  induction 1 as [|x y l k HP _ IH]; intros HQ; constructor.
  - split; [done|]. apply HQ. by left.
  - apply IH. intros z Hz. apply HQ. by right.
Qed.

(** Cache calls keep the invariant. *)
Lemma Get_complete now k c P :
  LRU.rep c P → Forall complete P.*2 →
  ∃ o c' P', LRU.Get now k c = Some (o, c') ∧ LRU.rep c' P' ∧ Forall complete P'.*2 ∧
    (∀ x, o = Some x → ∃ r, x = Some r ∧ Partial r = false).
Proof.
  intros Hr Hc. destruct (LRU.Get_rep c P now k Hr) as (o & c' & P' & Hg & Hr' & Hs & _).
  exists o, c', P'. split; [done|]. split; [done|]. rewrite Forall_forall in Hc.
  unfold LRU.spec_get in Hs. destruct (LRU.find_key k P.*2) as [x|] eqn:Hf.
  - apply LRU.find_key_Some in Hf as [Hx _].
    destruct (_ <? _); injection Hs as <- HP; rewrite <- HP; (split; [apply Forall_forall; intros y|]).
    + intros [? _]%LRU.drop_key_elem. auto.
    + done.
    + intros [->|[? _]%LRU.drop_key_elem]%elem_of_cons; auto.
    + intros y [= <-]. by apply (Hc x Hx).
  - injection Hs as <- HP. rewrite <- HP. split; [by apply Forall_forall|done].
Qed.

Lemma Put_complete now k r c P :
  LRU.rep c P → Forall complete P.*2 → Partial r = false →
  ∃ c' P', LRU.Put now k (Some r) c = Some c' ∧ LRU.rep c' P' ∧ Forall complete P'.*2.
Proof.
  intros Hr Hc Hp. destruct (LRU.Put_rep c P now k (Some r) Hr) as (c' & P' & Hput & Hr' & Hs & _).
  exists c', P'. split; [done|]. split; [done|]. rewrite <- Hs. rewrite Forall_forall in Hc.
  apply Forall_forall. intros y. unfold LRU.spec_put.
  assert (complete (LRU.mkCentry k (Some r) now)) as Hnew by (by exists r).
  destruct (LRU.find_key k P.*2).
  - intros [->|[? _]%LRU.drop_key_elem]%elem_of_cons; auto.
  - intros [->|Hy]%elem_of_cons; [done|]. apply Hc.
    destruct (_ <=? _); [by apply LRU.removelast_sub|done].
Qed.

(** The executor always returns. *)
Lemma Execute_total (call : string → QueryRequest → result QueryResponse)
    (arrive : list nodeResult → list nodeResult) (cs : Fsm.ClusterState) (ctxErr : option GoError)
    (now1 now2 took : Z) (req : QueryRequest) (e : FanOutExecutor) :
  exec_ok e → 0 ≤ Offset req →
  ∃ e' r, Execute call arrive cs ctxErr now1 now2 took req e = Some (e', r) ∧ exec_ok e' ∧
    (∀ res, r = Ok res → Partial res = true →
       ∃ o, LRU.Get now1 (req_key req) (cache e) = Some (o, cache e')).
Proof.
  intros (P & Hr & Hc) Ho. unfold Execute.
  destruct (Get_complete now1 (req_key req) (cache e) P Hr Hc) as (o & c' & P' & -> & Hr' & Hc' & Hhit).
  cbn [mbind option_bind]. destruct o as [x|].
  { destruct (Hhit x eq_refl) as (r & -> & Hp). cbn [mbind option_bind]. eexists _, _.
    split; [done|]. split; [by exists P'|]. intros res [= <-]. congruence. }
  destruct ctxErr as [err|]; [eexists _, _; split; [done|]; split; [by exists P'|done]|].
  rewrite MergeResults_spec by done. cbv zeta. cbn [mbind option_bind mo_entries mo_total mo_partial].
  destruct (failed _) eqn:Hf.
  - eexists _, _. split; [done|]. split; [by exists P'|]. intros res _ _. by exists None.
  - cbn [cache]. destruct (Put_complete now2 (req_key req)
      (mkQueryResult (window (Offset req) (clientLimit req) (sort_entries (dedup (answered
        (arrive (node_result call (fanReq (mkFanOutExecutor (fanOutLimit e) c') req) <$> targets cs))))))
        (int32 (len (sort_entries (dedup (answered (arrive (node_result call
          (fanReq (mkFanOutExecutor (fanOutLimit e) c') req) <$> targets cs))))))) took false)
      c' P' Hr' Hc' eq_refl) as (c2 & P2 & -> & Hr2 & Hc2).
    cbn [mbind option_bind]. eexists _, _. split; [done|]. split; [by exists P2|].
    intros res [= <-]. done.
Qed.

(** ** Properties of the coordinator alone *)

(** C31. The coordinator's executor never panics on a valid request, whatever the nodes
    answer and in whatever order, and keeps the cache well-formed with complete results
    only; a partial result is never stored and never served from the cache. *)
Theorem fanout_cache_complete (call : string → QueryRequest → result QueryResponse)
    (arrive : list nodeResult → list nodeResult) (cs : Fsm.ClusterState) (ctxErr : option GoError)
    (now1 now2 took : Z) (req : QueryRequest) (e : FanOutExecutor) :
  exec_ok e → 0 ≤ Offset req →
  ∃ e' r, Execute call arrive cs ctxErr now1 now2 took req e = Some (e', r) ∧ exec_ok e' ∧
    (∀ res, r = Ok res → Partial res = true →
       ∃ o, LRU.Get now1 (req_key req) (cache e) = Some (o, cache e')).
Proof. apply Execute_total. Qed.

Section fanout.
Context `{GoUnicodeLaws} `{ProtobufLaws} `{BloomLaws}.

Lemma Query_answer s q ast took took' :
  node_ok s → bloom_ok ast s → id_consistent (entries_of (ns_segs s)) →
  0 ≤ Limit q → 0 ≤ Offset q → Parse (QueryString q) = Ok ast →
  (Server.Query (ns_index s) (ns_manager s) None None took took' q (ns_disk s)).1
  = Ok (query_response took' (answer q ast (entries_of (ns_segs s)) took)).
Proof.
  intros [Hn Hst] Hb Hc Hl Ho Hp. unfold Server.Query, check_page.
  rewrite (proj2 (Z.ltb_ge _ _)), (proj2 (Z.ltb_ge _ _)) by done. io.
  by rewrite (Execute_scan _ _ _ (ns_segs s) q ast).
Qed.

(** The first entries of a node, as the coordinator receives them. *)
Lemma answer_top e req ast all took :
  0 < nodeLimit e req →
  Entries (answer (fanReq e req) ast all took)
  = top (Z.to_nat (nodeLimit e req)) (filter (λ x, entry_matches req ast x = true) all).
Proof.
  intros Hl. unfold answer, top, scan, effective_limit. cbn [Entries Limit Offset fanReq].
  rewrite (proj2 (Z.eqb_neq _ 0)) by lia. done.
Qed.

(** The results of the goroutines: the first entries of every node. *)
Lemma answered_nodes call e req ast ts stores :
  Forall2 (λ t s, serves call t.2 s ∧ node_ok s ∧ bloom_ok ast s) ts stores →
  id_consistent (all_entries stores) → Parse (QueryString req) = Ok ast → 0 < nodeLimit e req →
  answered (node_result call (fanReq e req) <$> ts)
  = mjoin (top (Z.to_nat (nodeLimit e req)) <$>
      ((λ s, filter (λ x, entry_matches req ast x = true) (entries_of (ns_segs s))) <$> stores)) ∧
  failed (node_result call (fanReq e req) <$> ts) = false.
Proof.
  intros Hall Hc Hp Hl. induction Hall as [|t s ts stores (Hserve & Hok & Hb) Hall IH]; [done|].
  destruct IH as [IHa IHf].
  { intros x y Hx Hy. apply Hc; unfold all_entries; cbn; apply elem_of_app; by right. }
  destruct (Hserve (fanReq e req)) as (took & took' & Hcall).
  rewrite (Query_answer s (fanReq e req) ast took took') in Hcall; [|done|done| |cbn; lia|done|done].
  2: { intros x y Hx Hy. apply Hc; unfold all_entries; cbn; apply elem_of_app; by left. }
  rewrite !fmap_cons.
  assert (∃ tot, node_result call (fanReq e req) t = mkNodeResult t.1 (top (Z.to_nat (nodeLimit e req))
    (filter (λ x, entry_matches req ast x = true) (entries_of (ns_segs s)))) tot None) as [tot ->].
  { unfold node_result. rewrite Hcall. eexists. cbn [query_response pb_Entries pb_Total].
    by rewrite proto_entries_id, answer_top. }
  split; [exact (f_equal (app _) IHa)|exact IHf].
Qed.

(** Ranking the first entries of every node, in any order, agrees with the scan
    of everything on as many entries. *)
Lemma merged_ranking req ast stores n parts got :
  id_consistent (all_entries stores) →
  parts = mjoin (top n <$>
    ((λ s, filter (λ x, entry_matches req ast x = true) (entries_of (ns_segs s))) <$> stores)) →
  got ≡ₚ parts →
  take n (sort_entries (dedup got)) = take n (scan req ast (all_entries stores)).
Proof.
  intros Hc -> Hperm. unfold scan. unfold all_entries at 1. rewrite filter_bind.
  set (shards := _ <$> stores) in *.
  assert (id_consistent (mjoin shards)) as Hcm.
  { subst shards. rewrite <- filter_bind. fold (all_entries stores).
    intros x y [_ ?]%list_elem_of_filter [_ ?]%list_elem_of_filter. by apply Hc. }
  rewrite <- (ranked_topk shards n Hcm). f_equal. apply ranked_ext.
  - intros x y Hx Hy. rewrite Hperm in Hx, Hy. apply Hcm; by eapply join_top_elem.
  - intros x y Hx Hy. apply Hcm; by eapply join_top_elem.
  - intros x. by rewrite Hperm.
Qed.

(** What was put is found until it expires. *)
Lemma Put_Get now now3 k r c c' P :
  LRU.rep c P → LRU.Put now k r c = Some c' → now3 - now ≤ LRU.ttl c →
  ∃ c'', LRU.Get now3 k c' = Some (Some r, c'').
Proof.
  intros Hr Hput Ht. destruct (LRU.Put_rep c P now k r Hr) as (c1 & P1 & Hput1 & Hr1 & Hs & Httl & _).
  rewrite Hput in Hput1. injection Hput1 as <-.
  destruct (LRU.Get_rep c' P1 now3 k Hr1) as (o & c'' & P' & -> & _ & Hg & _). exists c''.
  rewrite Httl, <- Hs in Hg. unfold LRU.spec_get in Hg.
  assert (LRU.find_key k (LRU.spec_put (LRU.maxSize c) now k r P.*2) = Some (LRU.mkCentry k r now)) as E.
  { apply LRU.find_key_kept with (S := ∅).
    - rewrite Hs. apply (LRU.rep_keys _ _ Hr1).
    - apply LRU.spec_put_kept. }
  rewrite E in Hg. cbn [LRU.c_at LRU.c_result] in Hg. rewrite (proj2 (Z.ltb_ge _ _)) in Hg by done.
  by injection Hg as <- _.
Qed.

(** The answer of the coordinator when nothing is cached for the request. *)
Lemma Execute_miss (call : string → QueryRequest → result QueryResponse)
    (arrive : list nodeResult → list nodeResult) (cs : Fsm.ClusterState)
    (now1 now2 took : Z) (req : QueryRequest) (ast : option Node) (e : FanOutExecutor) (c : LRU.QueryCache)
    (stores : list node_store) :
  (∀ l, arrive l ≡ₚ l) → exec_ok e → LRU.Get now1 (req_key req) (cache e) = Some (None, c) →
  Forall2 (λ t s, serves call t.2 s ∧ node_ok s ∧ bloom_ok ast s) (targets cs) stores →
  id_consistent (all_entries stores) → Parse (QueryString req) = Ok ast →
  0 ≤ Limit req → 0 ≤ Offset req → Offset req + clientLimit req < 2 ^ 31 →
  ∃ c' total, let res := mkQueryResult (requested_page req ast (all_entries stores)) total took false in
    Execute call arrive cs None now1 now2 took req e = Some (mkFanOutExecutor (fanOutLimit e) c', Ok res) ∧
    LRU.Put now2 (req_key req) (Some res) c = Some c'.
Proof.
  intros Harr Hexec Hmiss Hall Hc Hp Hl Ho Hsmall.
  pose proof (clientLimit_pos req Hl) as Hcl.
  assert (int32 (Offset req + clientLimit req) = Offset req + clientLimit req) as Hw
    by (apply int32_small; unfold in_int32; lia).
  assert (Offset req + clientLimit req ≤ nodeLimit e req) as Hnl by (unfold nodeLimit; lia).
  destruct (answered_nodes call e req ast (targets cs) stores Hall Hc Hp ltac:(lia)) as [Ha Hf].
  destruct (Execute_total call arrive cs None now1 now2 took req e Hexec Ho) as (e' & r & Hrun & _).
  unfold Execute in Hrun |- *. rewrite Hmiss in Hrun |- *. cbn [mbind option_bind] in Hrun |- *.
  change (fanReq (mkFanOutExecutor (fanOutLimit e) c) req) with (fanReq e req) in Hrun |- *.
  rewrite MergeResults_spec in Hrun |- * by done. cbv zeta in Hrun |- *.
  cbn [mbind option_bind mo_entries mo_total mo_partial cache fanOutLimit] in Hrun |- *.
  rewrite (failed_perm _ _ (Harr _)), Hf in Hrun |- *.
  set (parts := answered (arrive _)) in *.
  assert (window (Offset req) (clientLimit req) (sort_entries (dedup parts))
    = requested_page req ast (all_entries stores)) as Hpage.
  { unfold window, requested_page. rewrite (proj2 (Z.ltb_lt 0 _)) by done.
    apply (window_take _ _ (Z.to_nat (nodeLimit e req))); [lia|].
    eapply merged_ranking; [done|exact Ha|apply answered_perm, Harr]. }
  rewrite Hpage in Hrun |- *. destruct (LRU.Put _ _ _ _) as [c'|] eqn:Hput; [|done]. by eexists c', _.
Qed.

(** The promise, from the stores of the healthy nodes. *)
Lemma stores_answer (call : string → QueryRequest → result QueryResponse) (cs : Fsm.ClusterState)
    (safe : option Node → Prop) (stores : list node_store) :
  Forall2 (λ t s, serves call t.2 s ∧ node_ok s) (targets cs) stores →
  (∀ ast s, safe ast → s ∈ stores → bloom_ok ast s) → id_consistent (all_entries stores) →
  answers call cs safe (all_entries stores).
Proof.
  intros Hall Hsafe Hc arrive now1 now2 took took' req ast e Harr He Hp Hs Hl Ho Hsmall.
  assert (check_page req = Ok ()) as Hpage
    by (unfold check_page; by rewrite (proj2 (Z.ltb_ge _ _)), (proj2 (Z.ltb_ge _ _))).
  destruct (Execute_total call arrive cs None now1 now2 took req e He Ho) as (e' & r & Hrun & He' & _).
  unfold Query. rewrite Hpage, Hrun. cbn [mbind option_bind].
  destruct He as (P & Hr & Hcomp).
  destruct (Get_complete now1 (req_key req) (cache e) P Hr Hcomp) as (o & c & P1 & Hget & Hr1 & _ & Hhit).
  destruct o as [x|].
  - destruct (Hhit x eq_refl) as (res & -> & _). unfold Execute in Hrun. rewrite Hget in Hrun.
    cbn [mbind option_bind] in Hrun. injection Hrun as <- <-.
    eexists _, res. split; [done|]. split; [done|]. left. by exists c.
  - destruct (Execute_miss call arrive cs now1 now2 took req ast e c stores) as (c' & total & Hrun' & Hput); try done.
    + by exists P.
    + eapply Forall2_impl; [exact (Forall2_and_mem _ _ _ _ Hall (λ s, Hsafe ast s Hs))|]. naive_solver.
    + rewrite Hrun in Hrun'. injection Hrun' as -> ->. eexists _, _. split; [done|]. split; [done|]. right.
      split; [by exists c|]. split; [done|]. split; [done|]. intros now3 Ht. unfold cached. cbn [cache].
      destruct (LRU.Get_rep (cache e) P now1 (req_key req) Hr) as (? & ? & ? & Hget' & _ & _ & Httl & _).
      rewrite Hget in Hget'. injection Hget' as <- <-.
      eapply Put_Get; [exact Hr1|exact Hput|lia].
Qed.

(** C6. Distributed queries are complete: when every healthy node answers from its own
    store, in any order, with filters that are off or safe for the query, and [offset+limit]
    is an [int32], [Query] returns the requested page of the ranking of all matching entries
    of all nodes, each entry once, not partial; this although every node is asked only for its
    first [max(fanOutLimit, offset+limit)] matches. The one exception is a request under
    whose key the cache holds an unexpired result, which is then returned. A page that was
    computed is left in the cache, where a repeat within the time to live finds it, whatever the
    nodes store meanwhile. *)
Theorem fanout_complete (call : string → QueryRequest → result QueryResponse) (cs : Fsm.ClusterState)
    (stores : list node_store) :
  Forall2 (λ t s, serves call t.2 s ∧ node_ok s) (targets cs) stores → id_consistent (all_entries stores) →
  answers call cs (λ ast, ∀ s, s ∈ stores → bloom_ok ast s) (all_entries stores).
Proof. intros Hall Hc. apply stores_answer; auto. Qed.
End fanout.
End FanOut.

(** ** Witnesses *)

(** Two healthy nodes that hold the same segment, and a failed one. *)
Definition sample_cluster : Fsm.ClusterState :=
  Fsm.apply_all [Fsm.RegisterNodePayload "a" "h:1" 1; Fsm.RegisterNodePayload "b" "h:2" 2;
                 Fsm.RegisterNodePayload "c" "h:3" 3; Fsm.MarkUnhealthyPayload "c"]
    (Fsm.state (Fsm.NewFSM 4)).

Definition sample_store : @FanOut.node_store exact_bloom :=
  @FanOut.mkNodeStore exact_bloom (@index_of ascii_tables (pairs_of sample_segs))
    (@manager_of ascii_tables exact_bloom true sample_segs) (@disk_of bit_codec sample_segs) sample_segs.

Definition sample_call (addr : string) (q : QueryRequest) : result QueryResponse :=
  (@Server.Query ascii_tables bit_codec exact_bloom (FanOut.ns_index sample_store)
     (FanOut.ns_manager sample_store) None None 1 2 q (FanOut.ns_disk sample_store)).1.

Lemma NewFanOutExecutor_ok n : FanOut.exec_ok (FanOut.NewFanOutExecutor n).
Proof. exists []. split; [apply LRU.NewQueryCache_rep|constructor]. Qed.

Lemma sample_store_ok :
  let H1 := ascii_tables in let H2 := bit_codec in let H3 := exact_bloom in
  FanOut.node_ok sample_store ∧
  FanOut.bloom_ok (Some (AndNode (TermNode "disk") (FieldNode "service" "api"))) sample_store.
Proof.
  intros H1 H2 H3. split; [split; [done|]|right; apply sample_bloom_safe].
  apply (@store_of_ok ascii_tables ascii_tables_laws bit_codec exact_bloom exact_bloom_laws).
  apply sample_segs_storable.
Qed.

Lemma sample_all_consistent :
  id_consistent (@FanOut.all_entries exact_bloom [sample_store; sample_store]).
Proof.
  intros x y Hx Hy. unfold FanOut.all_entries in Hx, Hy. cbn [mbind list_bind] in Hx, Hy.
  rewrite app_nil_r, elem_of_app in Hx, Hy. apply sample_segs_consistent; tauto.
Qed.

(** A query, and the same query again 29 seconds later, when the cache answers it. *)
Lemma fanout_complete_witness :
  let H1 := ascii_tables in let H2 := bit_codec in let H3 := exact_bloom in
  let req := mkQueryRequest "disk AND service:api" "" "" 0 0 1 1 in
  let e := FanOut.NewFanOutExecutor 2 in
  ∃ e' res, FanOut.Query sample_call reverse sample_cluster None 0 0 3 3 req e
    = Some (e', Ok (query_response 3 res)) ∧
    Entries res = [mkLogEntry "a" 1 1000 "" "api" "INFO" "disk full" {["user" := "alice"]}] ∧
    FanOut.cached (29 * 1000000000) req e' res.
Proof.
  intros H1 H2 H3 req e.
  set (ast := Some (AndNode (TermNode "disk") (FieldNode "service" "api"))).
  destruct (@FanOut.fanout_complete ascii_tables ascii_tables_laws bit_codec bit_codec_laws
    exact_bloom exact_bloom_laws sample_call sample_cluster [sample_store; sample_store])
    with (arrive := @reverse nodeResult) (now1 := 0) (now2 := 0) (took := 3) (took' := 3) (req := req) (ast := ast) (e := e)
    as (e' & res & Hrun & _ & [[c Hc]|(_ & Hpage & _ & Hrep)]).
  - replace (FanOut.targets sample_cluster) with [("a", "h:1"); ("b", "h:2")]
      by (vm_compute; reflexivity).
    assert (∀ addr, FanOut.serves sample_call addr sample_store) as Hs by (intros addr q; by exists 1, 2).
    destruct sample_store_ok as [Hok _].
    by repeat (apply Forall2_cons; split; [done|]).
  - apply sample_all_consistent.
  - intros l. apply reverse_Permutation.
  - apply NewFanOutExecutor_ok.
  - vm_compute. reflexivity.
  - destruct sample_store_ok as [_ Hb]. intros s [->|[->|[]%not_elem_of_nil]%elem_of_cons]%elem_of_cons; exact Hb.
  - cbn. lia.
  - cbn. lia.
  - vm_compute. reflexivity.
  - vm_compute in Hc. discriminate.
  - exists e', res. split; [exact Hrun|]. split; [rewrite Hpage; vm_compute; reflexivity|].
    apply Hrep. vm_compute. discriminate.
Defined.

Lemma fanout_cache_complete_witness :
  let req := mkQueryRequest "disk" "" "" 0 0 1 1 in
  let call := λ (_ : string) (_ : QueryRequest), Err context_DeadlineExceeded in
  let e := FanOut.NewFanOutExecutor 2 in
  ∃ e' r, FanOut.Execute call id sample_cluster None 0 0 3 req e = Some (e', r) ∧ FanOut.exec_ok e' ∧
    (∀ res, r = Ok res → Partial res = true →
       ∃ o, LRU.Get 0 (FanOut.req_key req) (FanOut.cache e) = Some (o, FanOut.cache e')).
Proof.
  intros req call e. apply (FanOut.fanout_cache_complete call id sample_cluster None 0 0 3 req e).
  - apply NewFanOutExecutor_ok.
  - cbn. lia.
Defined.
