(* ===== verification/Ingest.v ===== *)
(** * Ingest: routing, local writes and replication ([internal/ingest/router.go],
    [orchestrator.go], [server.go], [internal/replication/replicator.go],
    [internal/cluster/state_cache.go])

    A storage node routes an entry by the hash of namespace and service: the
    primary of the shard appends, indexes and enqueues a copy for the replica,
    any other node forwards. The answers of remote nodes are arguments. Here the
    replicator is its queues; [Replication] models the goroutines that empty them. *)

From S2P Require Import Prelude GoStrings Observability Types Record Disk Segment Ranking Index Parser Bloom.
From S2P Require Import Paths Strconv Manager Executor Fsm Sha256.

(** ** Shards *)

(** [fnv.New32a]. *)
Definition fnv32a (l : list byte) : Z :=
  foldl (λ h b, uint32 (Z.lxor h (byte_to_Z b) * 16777619)) 2166136261 l.

(** [ShardID]; the sum is a [uint32] and fits an [int]. *)
Definition ShardID (namespace service : string) (totalShards : Z) : Z :=
  if totalShards <=? 0 then 0
  else Z.rem (fnv32a (string_bytes (namespace +:+ ":" +:+ service))) totalShards.

Definition entry_shard (e : LogEntry) (totalShards : Z) : Z :=
  ShardID (Namespace e) (Service e) totalShards.

(** ** The cluster state a node routes by *)

(** The interface between routing and cluster state. *)
Class ClusterStateReader := {
  ShardOwners : Z → string * string;
  NodeAddress : string → string;
}.

(** [StateCache]: the last state fetched. *)
Module StateCache.
Definition ShardOwners (state : Fsm.ClusterState) (shardID : Z) : string * string :=
  match Fsm.Shards state !! shardID with
  | None => ("", "")
  | Some sr => (Fsm.s_PrimaryNode sr, Fsm.s_ReplicaNode sr)
  end.
Definition NodeAddress (state : Fsm.ClusterState) (nodeID : string) : string :=
  match Fsm.Nodes state !! nodeID with
  | None => ""
  | Some n => Fsm.n_Address n
  end.
(** [refresh]: a failed fetch keeps the last state. *)
Definition refresh (fetched : result Fsm.ClusterState) (state : Fsm.ClusterState) : Fsm.ClusterState :=
  match fetched with Err _ => state | Ok s => s end.
Definition reader (state : Fsm.ClusterState) : ClusterStateReader :=
  {| Ingest.ShardOwners := ShardOwners state; Ingest.NodeAddress := NodeAddress state |}.
End StateCache.

(** ** The replicator's queues *)

Module Replicator.
Definition channelCapacity : nat := 256.

Record replicaJob := mkReplicaJob {
  job_entry : LogEntry;
  job_shardID : Z;
  job_requestID : string;
}.

(** The buffered channel of each address, oldest job first. *)
Notation channels := (gmap string (list replicaJob)).

(** [Enqueue]: never blocks; a full channel drops the job. *)
Definition Enqueue (entry : LogEntry) (shardID : Z) (addr requestID : string) (chs : channels) : channels :=
  let ch := default [] (chs !! addr) in
  if decide (length ch < channelCapacity)%nat
  then <[addr := ch ++ [mkReplicaJob entry shardID requestID]]> chs
  else <[addr := ch]> chs.

(** The request [send] makes of a job. *)
Definition send_request (job : replicaJob) : Pb.LogEntry * Z :=
  (replication_entryToProto (job_entry job), int32 (job_shardID job)).
End Replicator.

(** ** The storage node *)

Section ingest.
Context `{GoUnicode} `{Protobuf} `{Bloom}.

(** What [Orchestrator] and [Server] share: the replicator is absent in local
    mode. *)
Record StorageNode := mkStorageNode {
  nd_id : string;
  nd_totalShards : Z;
  nd_manager : Manager;
  nd_index : Index;
  nd_replicator : option (gmap string (list Replicator.replicaJob));
}.

Definition with_store (m : Manager) (idx : Index) (nd : StorageNode) : StorageNode :=
  mkStorageNode (nd_id nd) (nd_totalShards nd) m idx (nd_replicator nd).
Definition with_replicator r (nd : StorageNode) : StorageNode :=
  mkStorageNode (nd_id nd) (nd_totalShards nd) (nd_manager nd) (nd_index nd) r.

Record IngestResponse := mkIngestResponse {
  resp_Id : string;
  resp_Ok : bool;
}.

(** [AppendWithPath] followed by [idx.Add], as every writer does it. *)
Definition append_and_index (msg : string) (entry : LogEntry) (nd : StorageNode)
    : IO (StorageNode * result ()) :=
  '(m, r) ← AppendWithPath (nd_manager nd) entry;
  mret match r with
       | Err _ => (with_store m (nd_index nd) nd, Err (grpc_Status codes_Internal msg))
       | Ok segPath => (with_store m (Add entry segPath (nd_index nd)) nd, Ok ())
       end.

(** [GenerateID] for the bytes drawn, or the clock when no random bytes can be had. *)
Definition GenerateID (rand : option (list byte)) (now : Z) : string :=
  match rand with
  | None => "auto-" +:+ FormatInt now
  | Some b => "auto-" +:+ hex b
  end.

(** The entry [writeLocal] stores: the receive time is stamped, a missing ID
    generated. *)
Definition stamp (now : Z) (newID : string) (pb : Pb.LogEntry) : LogEntry :=
  let entry := ProtoToEntry pb in
  mkLogEntry (if decide (ID entry = "") then newID else ID entry) (Timestamp entry) now
    (Namespace entry) (Service entry) (Level entry) (Message entry) (Fields entry).

(** The replication step of [writeLocal]. *)
Definition enqueue_replica (sr : option ClusterStateReader) (ctx : Context) (entry : LogEntry) (replicaNodeID : string)
    (nd : StorageNode) : StorageNode :=
  match nd_replicator nd, sr with
  | Some chs, Some reader =>
    if decide (replicaNodeID = "") then nd else
    let replicaAddr := @NodeAddress reader replicaNodeID in
    if decide (replicaAddr = "") then nd else
    let shardID := if 0 <? nd_totalShards nd then entry_shard entry (nd_totalShards nd) else 0 in
    with_replicator (Some (Replicator.Enqueue entry shardID replicaAddr (RequestIDFromContext ctx) chs)) nd
  | _, _ => nd
  end.

(** [Orchestrator.writeLocal]. *)
Definition writeLocal (sr : option ClusterStateReader) (ctx : Context) (now : Z) (newID : string) (pb : Pb.LogEntry)
    (replicaNodeID : string) (nd : StorageNode) : IO (StorageNode * result IngestResponse) :=
  let entry := stamp now newID pb in
  '(nd, r) ← append_and_index "append failed" entry nd;
  mret match r with
       | Err e => (nd, Err e)
       | Ok _ => (enqueue_replica sr ctx entry replicaNodeID nd, Ok (mkIngestResponse (ID entry) true))
       end.

(** What [HandleIngest] decides for a request. *)
Inductive route :=
  | Reject (e : GoError)
  | WriteLocal (pb : Pb.LogEntry) (replicaID : string)
  | Forward (pb : Pb.LogEntry) (addr : string).

Definition invalid (msg : string) : route := Reject (grpc_Status codes_InvalidArgument msg).
Definition unavailable (msg : string) : route := Reject (grpc_Status codes_Unavailable msg).

(** Validation, the shard's owners, and the address lookup of [forward]. A nil
    reader is only dereferenced with routing enabled; the constructors exclude
    it. *)
Definition HandleIngest_route (sr : option ClusterStateReader) (nodeID : string) (totalShards : Z)
    (req : option Pb.LogEntry) : route :=
  match req with
  | None => invalid "entry is required"
  | Some pb =>
    if decide (Pb.Service pb = "") then invalid "entry.service is required" else
    if decide (Pb.Message pb = "") then invalid "entry.message is required" else
    if totalShards =? 0 then WriteLocal pb "" else
    match sr with
    | None => Reject (ErrMsg "panic: nil state reader")
    | Some reader =>
      let shardID := ShardID (Pb.Namespace pb) (Pb.Service pb) totalShards in
      let '(primaryID, replicaID) := @ShardOwners reader shardID in
      if decide (primaryID = "") then unavailable "no primary for shard" else
      if decide (primaryID = nodeID) then WriteLocal pb replicaID else
      let addr := @NodeAddress reader primaryID in
      if decide (addr = "") then unavailable "primary node address unknown"
      else Forward pb addr
    end
  end.

(** The context [forward] calls the primary with: the request's identifier and the mark of
    a forwarded hop are added to the outgoing metadata. *)
Definition forward_context (ctx : Context) : Context :=
  let id := RequestIDFromContext ctx in
  let ctx := if decide (id = "") then ctx else OutgoingContextWithRequestID ctx id in
  OutgoingContextWithForwarded ctx.

(** [Orchestrator.HandleIngest]; [call] is the connection to another node and its
    [Ingest]. *)
Definition HandleIngest (sr : option ClusterStateReader)
    (call : string → Context → Pb.LogEntry → result IngestResponse) (ctx : Context) (now : Z) (newID : string)
    (req : option Pb.LogEntry) (nd : StorageNode) : IO (StorageNode * result IngestResponse) :=
  match HandleIngest_route sr (nd_id nd) (nd_totalShards nd) req with
  | Reject e => mret (nd, Err e)
  | WriteLocal pb replicaID => writeLocal sr ctx now newID pb replicaID nd
  | Forward pb addr => mret (nd, call addr (forward_context ctx) pb)
  end.

(** The identifier of a request: from the metadata of a forwarded hop, else the one
    [IngestBatch] put into the context, else a new one. *)
Definition ingest_request_id (ctx : Context) (rand : Z) : string :=
  let reqID := RequestIDFromIncomingContext ctx in
  let reqID := if decide (reqID = "") then RequestIDFromContext ctx else reqID in
  if decide (reqID = "") then NewRequestID rand else reqID.

(** [Server.Ingest]: the handler's answer is returned unchanged. *)
Definition Ingest (sr : option ClusterStateReader)
    (call : string → Context → Pb.LogEntry → result IngestResponse) (ctx : Context) (rand now : Z) (newID : string)
    (req : option Pb.LogEntry) (nd : StorageNode) : IO (StorageNode * result IngestResponse) :=
  HandleIngest sr call (WithRequestID ctx (ingest_request_id ctx rand)) now newID req nd.

(** The labels under which [Server.Ingest] counts a request. *)
Definition ingest_labels (nodeID : string) (ctx : Context) (r : result IngestResponse) : list string :=
  [nodeID; (match r with Ok _ => "ok" | Err _ => "error" end);
   if IsForwardedFromIncomingContext ctx then "forwarded" else "client"].

(** The code of a returned error; other errors are [codes.Unknown]. *)
Definition is_internal (e : GoError) : bool :=
  match e with grpc_Status codes_Internal _ => true | _ => false end.

(** The loop of [IngestBatch] with its counters; [i] counts the entries, for
    the clock and the generated IDs. *)
Fixpoint IngestBatch_loop (sr : option ClusterStateReader)
    (call : string → Context → Pb.LogEntry → result IngestResponse) (ctx : Context) (rand now : nat → Z)
    (newID : nat → string) (i : nat) (accepted rejected : Z) (entries : list (option Pb.LogEntry)) (nd : StorageNode)
    : IO (StorageNode * result (Z * Z)) :=
  match entries with
  | [] => mret (nd, Ok (accepted, rejected))
  | pb :: entries' =>
    '(nd, r) ← Ingest sr call ctx (rand i) (now i) (newID i) pb nd;
    match r with
    | Err e =>
      if is_internal e
      then mret (nd, Err (grpc_Status codes_Internal "storage failure during batch ingest"))
      else IngestBatch_loop sr call ctx rand now newID (S i) accepted (int32 (rejected + 1)) entries' nd
    | Ok _ => IngestBatch_loop sr call ctx rand now newID (S i) (int32 (accepted + 1)) rejected entries' nd
    end
  end.

(** [IngestBatch] of a request; [batchRand] draws the identifier of the batch. *)
Definition IngestBatch (sr : option ClusterStateReader)
    (call : string → Context → Pb.LogEntry → result IngestResponse) (ctx : Context) (batchRand : Z)
    (rand now : nat → Z) (newID : nat → string)
    (entries : list (option Pb.LogEntry)) (nd : StorageNode) : IO (StorageNode * result (Z * Z)) :=
  IngestBatch_loop sr call (WithRequestID ctx (NewRequestID batchRand)) rand now newID 0 0 0 entries nd.

(** The checks of [ReplicateEntry]. *)
Definition replica_accepts (sr : option ClusterStateReader) (nd : StorageNode) (pb : Pb.LogEntry)
    (shardId : Z) : result () :=
  if 0 <? nd_totalShards nd then
    if negb (ShardID (Pb.Namespace pb) (Pb.Service pb) (nd_totalShards nd) =? shardId)
    then Err (grpc_Status codes_FailedPrecondition "shard mismatch")
    else match sr with
         | Some reader =>
           let replica := (@ShardOwners reader shardId).2 in
           if decide (replica ≠ "" ∧ replica ≠ nd_id nd)
           then Err (grpc_Status codes_FailedPrecondition "not the replica")
           else Ok ()
         | None => Ok ()
         end
  else Ok ().

(** [Server.ReplicateEntry]. *)
Definition ReplicateEntry (sr : option ClusterStateReader) (req : option Pb.LogEntry) (shardId : Z)
    (nd : StorageNode) : IO (StorageNode * result ()) :=
  match req with
  | None => mret (nd, Err (grpc_Status codes_InvalidArgument "entry is required"))
  | Some pb =>
    match replica_accepts sr nd pb shardId with
    | Err e => mret (nd, Err e)
    | Ok _ => append_and_index "replicate append failed" (ProtoToEntry pb) nd
    end
  end.

(** Whether an entry counts for a shard; without sharding all do. *)
Definition in_shard (nd : StorageNode) (shardId : Z) (e : LogEntry) : bool :=
  if 0 <? nd_totalShards nd then entry_shard e (nd_totalShards nd) =? shardId else true.

(** [Server.ListSegments]: a segment that cannot be read is skipped. *)
Fixpoint ListSegments_loop (nd : StorageNode) (shardId : Z) (closed names : list string)
    : IO (list string) :=
  match closed with
  | [] => mret names
  | p :: closed' =>
    r ← ReadSegments [p];
    ListSegments_loop nd shardId closed'
      match r with
      | Err _ => names
      | Ok entries =>
        if existsb (λ e, (nd_totalShards nd =? 0) || (entry_shard e (nd_totalShards nd) =? shardId)) entries
        then names ++ [filepath_Base p] else names
      end
  end.
Definition ListSegments (nd : StorageNode) (shardId : Z) : IO (list string) :=
  ListSegments_loop nd shardId (ListClosedSegments (nd_manager nd)) [].

Definition transferChunkSize : Z := 64 * 1024.

(** [strings.Contains(name, "..")]. *)
Fixpoint has_dotdot (s : string) : bool :=
  match s with
  | String a s' =>
    match s' with
    | String b _ => (bool_decide (a = "."%char) && bool_decide (b = "."%char)) || has_dotdot s'
    | EmptyString => false
    end
  | EmptyString => false
  end.

Definition bad_segment_name (name : string) : bool :=
  string_elem "/" name || string_elem "\" name || has_dotdot name || negb (HasSuffix name ".seg").

(** The records of the entries of a shard, written one after the other. *)
Fixpoint filtered_segment (nd : StorageNode) (shardId : Z) (buf : list byte) (entries : list LogEntry)
    : result (list byte) :=
  match entries with
  | [] => Ok buf
  | e :: entries' =>
    if in_shard nd shardId e then
      match Marshal (EntryToProto e) with
      | None => Err (grpc_Status codes_Internal "marshal entry")
      | Some data =>
        match WriteRecord buf data with
        | Err _ => Err (grpc_Status codes_Internal "write record")
        | Ok buf' => filtered_segment nd shardId buf' entries'
        end
      end
    else filtered_segment nd shardId buf entries'
  end.

(** The streaming loop: the chunks sent before the first failing send, if any.
    A chunk is not empty, so the length of the payload is fuel enough. *)
Fixpoint send_chunks (fuel : nat) (send : nat → option GoError) (i : nat) (payload : list byte)
    : list (list byte) * result () :=
  match fuel, payload with
  | S fuel, _ :: _ =>
    let n := if len payload <? transferChunkSize then len payload else transferChunkSize in
    match send i with
    | Some e => ([], Err e)
    | None =>
      let '(chunks, r) := send_chunks fuel send (S i) (drop (Z.to_nat n) payload) in
      (take (Z.to_nat n) payload :: chunks, r)
    end
  | _, _ => ([], Ok ())
  end.

(** [Server.TransferSegment]. *)
Definition TransferSegment (nd : StorageNode) (send : nat → option GoError) (name : string) (shardId : Z)
    : IO (list (list byte) * result ()) :=
  if bad_segment_name name
  then mret ([], Err (grpc_Status codes_InvalidArgument "invalid segment name")) else
  if decide (name = ActiveSegmentName (nd_manager nd))
  then mret ([], Err (grpc_Status codes_FailedPrecondition "active segment")) else
  let path := filepath_Join (mdir (nd_manager nd)) name in
  r ← ReadSegments [path];
  mret match r with
       | Err _ => ([], Err (grpc_Status codes_NotFound "segment not found"))
       | Ok entries =>
         match filtered_segment nd shardId [] entries with
         | Err e => ([], Err e)
         | Ok payload =>
           if decide (length payload = 0%nat)
           then ([], Err (grpc_Status codes_NotFound "no entries for shard"))
           else send_chunks (length payload) send 0 payload
         end
       end.

(** [Server.FetchShardEntries]; the sort by receive time is one of the orders
    [sort.Slice] may give. *)
Definition received_le (a b : LogEntry) : Prop := ReceivedAt a ≤ ReceivedAt b.
#[global] Instance received_le_dec : RelDecision received_le.
Proof. intros a b. unfold received_le. apply _. Defined.

Definition FetchShardEntries (nd : StorageNode) (shardId since : Z) : IO (result (list Pb.LogEntry)) :=
  r ← ReadSegments (SegmentPaths (nd_manager nd));
  mret match r with
       | Err _ => Err (grpc_Status codes_Internal "read segments")
       | Ok all =>
         let result := filter (λ e, in_shard nd shardId e = true ∧ since ≤ ReceivedAt e) all in
         Ok (EntryToProto <$> merge_sort received_le result)
       end.

(** ** Specification *)

(** A storage node in step with its disk. *)
Definition node_inv (nd : StorageNode) (d : Disk) (segs : gmap string (list LogEntry)) : Prop :=
  store_inv (nd_manager nd) (nd_index nd) d segs.

(** The segments after an entry was appended to [p]. *)
Definition appended (p : string) (e : LogEntry) (segs : gmap string (list LogEntry))
    : gmap string (list LogEntry) :=
  <[p := default [] (segs !! p) ++ [e]]> segs.

(** Following forwards from node to node; [None] is out of fuel. The nodes by
    address: their IDs and the state they route by. *)
Fixpoint follow (fuel : nat) (cluster : gmap string (string * ClusterStateReader)) (totalShards : Z)
    (addr : string) (pb : Pb.LogEntry) : option (string * route) :=
  match fuel with
  | O => None
  | S fuel =>
    match cluster !! addr with
    | None => Some (addr, unavailable "unreachable")
    | Some (id, reader) =>
      match HandleIngest_route (Some reader) id totalShards (Some pb) with
      | Forward pb' addr' => follow fuel cluster totalShards addr' pb'
      | r => Some (addr, r)
      end
    end
  end.
End ingest.

(** ** Lemmas: shards *)

Lemma fnv32a_range l : 0 ≤ fnv32a l < 2 ^ 32.
Proof.
  unfold fnv32a. destruct l as [|b l _] using rev_ind; [cbn; lia|].
  rewrite foldl_snoc. apply uint32_range.
Qed.

Lemma ShardID_range ns svc n : 0 < n → 0 ≤ ShardID ns svc n < n.
Proof.
  intros Hn. unfold ShardID. rewrite (proj2 (Z.leb_gt _ _)) by done.
  pose proof (fnv32a_range (string_bytes (ns +:+ ":" +:+ svc))). apply Z.rem_bound_pos; lia.
Qed.

(** ** Lemmas: the node invariant *)

Section ingest_lemmas.
Context `{GoUnicodeLaws} `{ProtobufLaws} `{BloomLaws}.

Lemma entries_of_appended p e segs x :
  x ∈ entries_of (appended p e segs) ↔ x ∈ entries_of segs ∨ x = e.
Proof.
  rewrite !elem_of_entries_of. unfold appended. split.
  - intros (q & es & Hq & Hx). destruct (decide (q = p)) as [->|Hne].
    + rewrite lookup_insert_eq in Hq. injection Hq as <-.
      apply elem_of_app in Hx as [Hx|Hx%list_elem_of_singleton]; [left|by right].
      destruct (segs !! p) as [es|] eqn:Hp; cbn in Hx; [eauto|by apply not_elem_of_nil in Hx].
    + rewrite lookup_insert_ne in Hq by done. eauto.
  - intros [(q & es & Hq & Hx)| ->].
    + destruct (decide (q = p)) as [->|Hne].
      * exists p. eexists. rewrite lookup_insert_eq. split; [done|]. rewrite Hq. set_solver.
      * exists q, es. by rewrite lookup_insert_ne.
    + exists p. eexists. rewrite lookup_insert_eq. split; [done|]. set_solver.
Qed.

Lemma pairs_of_appended p e segs x :
  x ∈ pairs_of (appended p e segs) ↔ x ∈ pairs_of segs ++ [(e, p)].
Proof.
  destruct x as [y q]. rewrite elem_of_app, !elem_of_pairs_of, list_elem_of_singleton.
  unfold appended. destruct (decide (q = p)) as [->|Hne].
  - rewrite lookup_insert_eq. split.
    + intros (es & [= <-] & Hy). apply elem_of_app in Hy as [Hy|Hy%list_elem_of_singleton]; [left|right; congruence].
      destruct (segs !! p) as [es|]; cbn in Hy; [eauto|by apply not_elem_of_nil in Hy].
    + intros [(es & Hes & Hy)|[= ->]]; eexists; (split; [done|]); [rewrite Hes|]; set_solver.
  - rewrite lookup_insert_ne by done. split; [by left|]. intros [?|Heq]; [done|]. congruence.
Qed.

(** The content of the segment an append went to. *)
Lemma appended_segment m d m' d' es e p ps (segs : gmap string (list LogEntry)) :
  mgr_ok m' d' → stored m d es → stored m' d' (es ++ [e]) →
  paths m' = ps ++ [p] → paths m = ps ∨ paths m = ps ++ [p] →
  (∀ q, q ∈ ps → files d' !! q = files d !! q) →
  (∀ q, is_Some (segs !! q) ↔ q ∈ paths m) →
  (∀ q es, segs !! q = Some es → ∃ bytes, files d !! q = Some bytes ∧ holds bytes es) →
  ∃ bytes, files d' !! p = Some bytes ∧ holds bytes (default [] (segs !! p) ++ [e]).
Proof.
  intros Hok Hes Hes' Hp' Hp Hkeep Hdom Hsegs. unfold stored in *.
  assert (p ∉ ps) as Hnp.
  { pose proof (ok_nodup _ _ Hok) as Hnd. rewrite Hp' in Hnd. apply NoDup_app in Hnd. set_solver. }
  destruct (ok_files _ _ Hok p) as (bytes & es_p & Hf & Hh); [rewrite Hp'; set_solver|].
  rewrite Hp' in Hes'. destruct (holds_all_snoc_inv _ _ _ bytes es_p _ Hf Hh Hes') as (es1 & Heq & Hes1).
  apply (holds_all_ext (files d') (files d)) in Hes1; [|intros q Hq; by rewrite Hkeep].
  exists bytes. split; [done|]. destruct Hp as [Hp|Hp].
  - rewrite Hp in Hes. rewrite (holds_all_inj _ _ _ _ Hes Hes1) in Heq.
    apply app_inv_head in Heq as <-. destruct (segs !! p) eqn:E; [|done].
    exfalso. apply Hnp. rewrite <- Hp. apply Hdom. by eexists.
  - destruct (proj2 (Hdom p)) as [es_o Ho]; [rewrite Hp; set_solver|].
    destruct (Hsegs p es_o Ho) as (b_o & Hfo & Hho). rewrite Hp in Hes.
    destruct (holds_all_snoc_inv _ _ _ b_o es_o _ Hfo Hho Hes) as (es2 & -> & Hes2).
    rewrite (holds_all_inj _ _ _ _ Hes2 Hes1), <- app_assoc in Heq.
    apply app_inv_head in Heq as <-. by rewrite Ho.
Qed.

(** An append with its index update keeps the node in step. *)
Lemma append_and_index_ok nd d segs e data msg :
  no_faults d → node_inv nd d segs → can_append (nd_manager nd) e data →
  ∃ nd' d' p, append_and_index msg e nd d = ((nd', Ok ()), d') ∧ no_faults d' ∧
    node_inv nd' d' (appended p e segs) ∧
    nd_id nd' = nd_id nd ∧ nd_totalShards nd' = nd_totalShards nd ∧ nd_replicator nd' = nd_replicator nd.
Proof.
  intros Hn [Hm Hdom Hsegs Hi] Hcan. destruct (stored_exists _ _ Hm) as [es Hes].
  destruct (appendLocked_ok _ d es e data Hn Hm Hes Hcan)
    as (m' & d' & seg' & Heq & Hn' & Hok' & Hst & Ha & Hp & _ & Hkeep).
  destruct (mgr_ok_active m' d' seg' Hok' Ha) as [Hl _]. set (p := f_path (seg_file seg')) in *.
  destruct (last_Some (paths m') p) as [Hlast _]. destruct (Hlast Hl) as [ps Hps].
  assert (∀ q, q ∈ ps → q ≠ p) as Hpsp.
  { pose proof (ok_nodup _ _ Hok') as Hnd. rewrite Hps in Hnd. apply NoDup_app in Hnd. set_solver. }
  assert (paths (nd_manager nd) = ps ∨ paths (nd_manager nd) = ps ++ [p]) as Hcase.
  { destruct Hp as [Hp|Hp]; [right; congruence|left]. rewrite Hps in Hp. by apply app_inj_2 in Hp as [? _]. }
  assert (∀ q, q ∈ paths (nd_manager nd) → q ≠ p → files d' !! q = files d !! q) as Hkeep'.
  { intros q Hq Hne. apply Hkeep; [done|]. rewrite Hl. congruence. }
  exists (with_store m' (Add e p (nd_index nd)) nd), d', p. split.
  { unfold append_and_index, AppendWithPath. io. rewrite Heq. io. rewrite Hl. by io. }
  split; [done|]. split; [|done]. split; cbn [nd_manager nd_index with_store].
  - done.
  - intros q. unfold appended. rewrite Hps, elem_of_app, list_elem_of_singleton.
    destruct (decide (q = p)) as [->|Hne]; [rewrite lookup_insert_eq; naive_solver|].
    rewrite lookup_insert_ne, Hdom by done. destruct Hcase as [-> | ->]; set_solver.
  - intros q es' Hq. unfold appended in Hq. destruct (decide (q = p)) as [->|Hne].
    + rewrite lookup_insert_eq in Hq. injection Hq as <-.
      eapply (appended_segment (nd_manager nd) d m' d' es e p ps); try done.
      intros q Hq. apply Hkeep'; [destruct Hcase as [-> | ->]; set_solver|auto].
    + rewrite lookup_insert_ne in Hq by done. rewrite Hkeep'; [by apply Hsegs| |done].
      apply Hdom. eauto.
  - eapply Represents_ext; [|by apply Add_represents]. intros x. symmetry. apply pairs_of_appended.
Qed.

(** ** Lemmas: segment transfer *)

Lemma filtered_segment_done nd shardId buf es :
  Forall storable es →
  filtered_segment nd shardId buf es
  = Ok (buf ++ segment_bytes (filter (λ e, in_shard nd shardId e = true) es)).
Proof.
  intros Hs. revert buf. induction Hs as [|e es (data & Hm & Hl) Hs IH]; intros buf; cbn [filtered_segment].
  - by rewrite app_nil_r.
  - rewrite filter_cons. destruct (in_shard nd shardId e); [|apply IH].
    rewrite decide_True by done. rewrite (proj1 (marshalLogEntry_Ok e data) Hm).
    rewrite (segment_bytes_cons e _ data Hm).
    assert (WriteRecord buf data = Ok (buf ++ frame data)) as ->.
    { unfold WriteRecord, WriteRecord_chunks, maxRecordSize, MaxUint32 in *.
      rewrite (proj2 (Z.ltb_ge _ _)) by lia. cbn. unfold frame.
      rewrite uint32_small by (unfold len in *; lia). by rewrite app_nil_r. }
    by rewrite IH, app_assoc.
Qed.

Lemma send_chunks_done fuel i payload :
  (length payload ≤ fuel)%nat →
  ∃ chunks, send_chunks fuel (λ _, None) i payload = (chunks, Ok ()) ∧ mjoin chunks = payload ∧
    Forall (λ c, 0 < len c ≤ transferChunkSize) chunks.
Proof.
  revert i payload. induction fuel as [|fuel IH]; intros i payload Hl.
  - destruct payload; [|cbn in Hl; lia]. exists []. by split_and!.
  - destruct payload as [|b payload]; [exists []; by split_and!|]. cbn [send_chunks].
    set (p := b :: payload) in *. assert (0 < length p)%nat by (cbn; lia).
    set (n := if len p <? transferChunkSize then len p else transferChunkSize).
    assert (0 < n ≤ transferChunkSize ∧ n ≤ len p) as [Hn Hnp].
    { subst n. unfold transferChunkSize, len in *. destruct (Z.ltb_spec (Z.of_nat (length p)) (64 * 1024)); lia. }
    unfold len in *.
    destruct (IH (S i) (drop (Z.to_nat n) p)) as (chunks & -> & Hj & Hall); [rewrite length_drop; lia|].
    eexists. split; [done|]. split; [change (take (Z.to_nat n) p ++ mjoin chunks = p); rewrite Hj; apply take_drop|].
    constructor; [|done]. rewrite length_take. lia.
Qed.

Lemma transfer_done (nd : StorageNode) (name : string) (shardId : Z) (d : Disk)
    (bytes : list byte) (es : list LogEntry) :
  no_faults d → bad_segment_name name = false → name ≠ ActiveSegmentName (nd_manager nd) →
  files d !! filepath_Join (mdir (nd_manager nd)) name = Some bytes → holds bytes es →
  let mine := filter (λ e, in_shard nd shardId e = true) es in
  mine ≠ [] →
  ∃ chunks, TransferSegment nd (λ _, None) name shardId d = ((chunks, Ok ()), d) ∧
    Forall (λ c, 0 < len c ≤ transferChunkSize) chunks ∧ holds (mjoin chunks) mine.
Proof.
  intros Hn Hname Hact Hf Hh mine Hmine. unfold TransferSegment. rewrite Hname, decide_False by done. io.
  assert (holds_all (files d) [filepath_Join (mdir (nd_manager nd)) name] es) as Hone.
  { rewrite <- (app_nil_r es). eapply holds_all_cons; [done|done|constructor]. }
  rewrite (ReadSegments_holds_all d _ es) by done. io.
  apply holds_segment_bytes in Hh as [Hst _]. rewrite filtered_segment_done by done. cbn [app]. fold mine.
  assert (Forall storable mine) as Hsm.
  { apply Forall_forall. intros x [_ Hx]%list_elem_of_filter. by apply (proj1 (Forall_forall _ _) Hst). }
  assert (holds (segment_bytes mine) mine) as Hh' by (by apply holds_segment_bytes).
  rewrite decide_False.
  - destruct (send_chunks_done (length (segment_bytes mine)) 0 (segment_bytes mine)) as (chunks & -> & Hj & Hall);
      [done|]. exists chunks. rewrite Hj. by split_and!.
  - intros E%nil_length_inv. rewrite E in Hh'. apply Hmine, (holds_inj [] _ [] Hh'). constructor.
Qed.

(** ** Lemmas: batches *)

Lemma IngestBatch_loop_counts sr call ctx rand now newID i a r entries nd d nd' d' a' r' :
  0 ≤ a → 0 ≤ r → a + r + len entries < 2 ^ 31 →
  IngestBatch_loop sr call ctx rand now newID i a r entries nd d = ((nd', Ok (a', r')), d') →
  a' + r' = a + r + len entries ∧ a ≤ a' ∧ r ≤ r'.
Proof.
  revert i a r nd d. induction entries as [|pb entries IH]; intros i a r nd d Ha Hr Hsmall;
    cbn [IngestBatch_loop].
  - intros [= <- <- <- <-]. unfold len. cbn. lia.
  - unfold len in *. cbn [length] in *. rewrite bind_run.
    destruct (Ingest sr call ctx (rand i) (now i) (newID i) pb nd d) as [[nd1 r1] d1]. cbn [fst snd].
    destruct r1 as [resp|err].
    + intros Hrun. apply IH in Hrun; rewrite ?int32_small in * by (unfold in_int32; lia); lia.
    + destruct (is_internal err); [done|].
      intros Hrun. apply IH in Hrun; rewrite ?int32_small in * by (unfold in_int32; lia); lia.
Qed.

(** ** Properties *)

(** An acknowledged local write is durable, indexed and visible: when the node
    routes the request to itself, [HandleIngest] answers with the entry's ID; the entry
    is then on disk and in the index, and every query on the node afterwards is answered
    over the old entries and the new one. *)
Theorem ingest_visible (sr : option ClusterStateReader)
    (call : string → Context → Pb.LogEntry → result IngestResponse) (ctx : Context) (now : Z) (newID : string)
    (req : option Pb.LogEntry) (pb : Pb.LogEntry) (replica : string) (nd : StorageNode) (d : Disk)
    (segs : gmap string (list LogEntry)) (data : list byte) :
  let e := stamp now newID pb in
  no_faults d → node_inv nd d segs → can_append (nd_manager nd) e data →
  HandleIngest_route sr (nd_id nd) (nd_totalShards nd) req = WriteLocal pb replica →
  ∃ nd' d' segs', HandleIngest sr call ctx now newID req nd d
      = ((nd', Ok (mkIngestResponse (ID e) true)), d') ∧
    no_faults d' ∧ node_inv nd' d' segs' ∧
    (∀ x, x ∈ entries_of segs' ↔ x ∈ entries_of segs ∨ x = e) ∧
    ∀ q ast took, id_consistent (entries_of segs') → 0 ≤ Limit q → 0 ≤ Offset q →
      Parse (QueryString q) = Ok ast →
      blooms (nd_manager nd') = ∅ ∨ (∀ n, ast = Some n → bloom_safe (entries_of segs') n) →
      Execute (nd_index nd') (nd_manager nd') None None took q d'
      = (Ok (answer q ast (entries_of segs') took), d').
Proof.
  intros e Hn Hinv Hcan Hroute. unfold HandleIngest. rewrite Hroute. unfold writeLocal. fold e.
  destruct (append_and_index_ok nd d segs e data "append failed" Hn Hinv Hcan)
    as (nd1 & d' & p & Heq & Hn' & Hinv' & _).
  set (nd' := enqueue_replica sr ctx e replica nd1).
  assert (nd_manager nd' = nd_manager nd1 ∧ nd_index nd' = nd_index nd1) as [Hm Hi].
  { subst nd'. unfold enqueue_replica. by repeat case_match. }
  exists nd', d', (appended p e segs). io. rewrite Heq. io.
  assert (node_inv nd' d' (appended p e segs)) as Hinv''.
  { destruct Hinv' as [??? ?]. split; rewrite ?Hm, ?Hi; done. }
  split; [done|]. split; [done|]. split; [done|]. split; [apply entries_of_appended|].
  intros q ast took Hc Hl Ho Hp Hb. apply Execute_scan; try done. by apply store_inv_ok.
Qed.

(** A batch is counted completely: unless a storage failure aborts it, the accepted
    and the rejected entries add up to the batch, whatever the routes and the answers of
    other nodes. *)
Theorem batch_counts (sr : option ClusterStateReader)
    (call : string → Context → Pb.LogEntry → result IngestResponse) (ctx : Context) (batchRand : Z)
    (rand now : nat → Z) (newID : nat → string)
    (entries : list (option Pb.LogEntry)) (nd nd' : StorageNode) (d d' : Disk) (accepted rejected : Z) :
  len entries < 2 ^ 31 →
  IngestBatch sr call ctx batchRand rand now newID entries nd d = ((nd', Ok (accepted, rejected)), d') →
  accepted + rejected = len entries ∧ 0 ≤ accepted ∧ 0 ≤ rejected.
Proof. intros Hl Hrun. apply IngestBatch_loop_counts in Hrun; lia. Qed.

(** Segment transfer is exact: the chunks streamed for a segment are non-empty, at
    most 64 KiB each, and together they are a segment file that holds exactly the
    entries of the requested shard, in order. *)
Theorem transfer_roundtrip (nd : StorageNode) (name : string) (shardId : Z) (d : Disk)
    (bytes : list byte) (es : list LogEntry) :
  no_faults d → bad_segment_name name = false → name ≠ ActiveSegmentName (nd_manager nd) →
  files d !! filepath_Join (mdir (nd_manager nd)) name = Some bytes → holds bytes es →
  let mine := filter (λ e, in_shard nd shardId e = true) es in
  mine ≠ [] →
  ∃ chunks, TransferSegment nd (λ _, None) name shardId d = ((chunks, Ok ()), d) ∧
    Forall (λ c, 0 < len c ≤ transferChunkSize) chunks ∧
    holds (mjoin chunks) mine ∧ read_entries (mkReader (mjoin chunks) None) = Ok mine.
Proof.
  intros Hn Hname Hact Hf Hh mine Hmine.
  destruct (transfer_done nd name shardId d bytes es) as (chunks & Hrun & Hall & Hm); try done.
  exists chunks. split_and!; try done. by apply read_entries_holds.
Qed.

(** [FetchShardEntries] returns exactly the stored entries of the shard received at
    or after the given time, each as often as it is stored, in order of reception. *)
Theorem fetch_exact (nd : StorageNode) (shardId since : Z) (d : Disk) (es : list LogEntry) :
  no_faults d → stored (nd_manager nd) d es →
  ∃ out, FetchShardEntries nd shardId since d = (Ok (EntryToProto <$> out), d) ∧
    out ≡ₚ filter (λ e, in_shard nd shardId e = true ∧ since ≤ ReceivedAt e) es ∧
    StronglySorted received_le out.
Proof.
  intros Hn Hst. unfold FetchShardEntries. io.
  rewrite (ReadSegments_holds_all d _ es) by done. io. eexists. split; [done|].
  split; [apply merge_sort_Permutation|].
  apply StronglySorted_merge_sort.
  - intros a b c. unfold received_le. lia.
  - intros a b. unfold received_le. lia.
Qed.

(** Replication loses the namespace: [entryToProto] of the replicator does not copy
    it, so for an entry of a namespace that hashes to another shard than its service
    alone, the replica rejects the very request the primary sends for it, with its state
    unchanged. *)
Theorem replica_rejects_namespaced (sr : option ClusterStateReader) (e : LogEntry) (reqID : string)
    (nd : StorageNode) (d : Disk) :
  0 < nd_totalShards nd < 2 ^ 31 →
  ShardID "" (Service e) (nd_totalShards nd) ≠ entry_shard e (nd_totalShards nd) →
  let job := Replicator.mkReplicaJob e (entry_shard e (nd_totalShards nd)) reqID in
  let '(pb, shard) := Replicator.send_request job in
    ReplicateEntry sr (Some pb) shard nd d
      = ((nd, Err (grpc_Status codes_FailedPrecondition "shard mismatch")), d).
Proof.
  intros Hn Hne. pose proof (ShardID_range (Namespace e) (Service e) (nd_totalShards nd) ltac:(lia)) as Hr.
  cbn [Replicator.send_request].
  unfold ReplicateEntry, replica_accepts. rewrite (proj2 (Z.ltb_lt 0 _)) by lia.
  cbn [Replicator.send_request Replicator.job_shardID Replicator.job_entry replication_entryToProto Pb.Namespace Pb.Service].
  fold (entry_shard e (nd_totalShards nd)) in Hr. rewrite int32_small by (unfold in_int32; lia).
  by rewrite (proj2 (Z.eqb_neq _ _) Hne).
Qed.
End ingest_lemmas.

(** ** Routing across nodes *)

(** The queues of the replicator after a sequence of calls. *)
Definition enqueue_all (jobs : list (LogEntry * Z * string)) : gmap string (list Replicator.replicaJob) :=
  foldl (λ chs j, Replicator.Enqueue j.1.1 j.1.2 j.2 "" chs) ∅ jobs.

(** A reader that gives the owners and addresses of a state, such as one over a fetched copy. *)
Definition routes_by (r : ClusterStateReader) (cs : Fsm.ClusterState) : Prop :=
  (∀ j, @ShardOwners r j = StateCache.ShardOwners cs j) ∧ (∀ id, @NodeAddress r id = StateCache.NodeAddress cs id).

Lemma routes_by_route r cs id n req :
  routes_by r cs → HandleIngest_route (Some r) id n req = HandleIngest_route (Some (StateCache.reader cs)) id n req.
Proof.
  intros [Hs Ha]. unfold HandleIngest_route. destruct req as [pb|]; [|done]. do 2 (destruct (decide _); [done|]).
  destruct (n =? 0); [done|]. rewrite Hs. cbn [StateCache.reader ShardOwners NodeAddress].
  destruct (StateCache.ShardOwners _ _). by rewrite Ha.
Qed.

(** The healthy nodes of a state, by address, all routing by this state. *)
Definition in_sync (cs : Fsm.ClusterState) (cluster : gmap string (string * ClusterStateReader)) : Prop :=
  ∀ id nd, Fsm.Nodes cs !! id = Some nd → Fsm.n_Status nd = Fsm.NodeHealthy →
    ∃ r, cluster !! Fsm.n_Address nd = Some (id, r) ∧ routes_by r cs.

Lemma route_valid reader nodeID n pb :
  Pb.Service pb ≠ "" → Pb.Message pb ≠ "" → 0 < n →
  HandleIngest_route (Some reader) nodeID n (Some pb) =
    let '(primaryID, replicaID) := @ShardOwners reader (ShardID (Pb.Namespace pb) (Pb.Service pb) n) in
    if decide (primaryID = "") then unavailable "no primary for shard" else
    if decide (primaryID = nodeID) then WriteLocal pb replicaID else
    let addr := @NodeAddress reader primaryID in
    if decide (addr = "") then unavailable "primary node address unknown" else Forward pb addr.
Proof.
  intros Hs Hm Hn. unfold HandleIngest_route. rewrite !decide_False by done.
  by rewrite (proj2 (Z.eqb_neq n 0)) by lia.
Qed.

(** From any healthy node a valid entry reaches the owner of its shard. *)
Lemma one_hop (n : Z) (ps : list Fsm.payload) (cluster : gmap string (string * ClusterStateReader))
    (pb : Pb.LogEntry) (id0 : string) (nd0 : Fsm.NodeRecord) :
  let cs := Fsm.apply_all ps (Fsm.state (Fsm.NewFSM n)) in
  0 < n → Pb.Service pb ≠ "" → Pb.Message pb ≠ "" →
  (∀ id addr now, Fsm.RegisterNodePayload id addr now ∈ ps → id ≠ "" ∧ addr ≠ "") →
  in_sync cs cluster →
  Fsm.Nodes cs !! id0 = Some nd0 → Fsm.n_Status nd0 = Fsm.NodeHealthy →
  ∃ owner nd replica, Fsm.Nodes cs !! owner = Some nd ∧ Fsm.n_Status nd = Fsm.NodeHealthy ∧
    ShardID (Pb.Namespace pb) (Pb.Service pb) n ∈ Fsm.n_Shards nd ∧
    follow 2 cluster n (Fsm.n_Address nd0) pb = Some (Fsm.n_Address nd, WriteLocal pb replica).
Proof.
  intros cs Hn Hs Hm Hreg Hsync Hid0 Hst0.
  set (j := ShardID (Pb.Namespace pb) (Pb.Service pb) n).
  destruct (Fsm.shard_owner n ps j (ShardID_range _ _ n Hn)) as
    (sr & nd & Hsr & _ & Hnd & Hst & Hj & _); [by eauto|]. fold cs in Hsr, Hnd.
  destruct (Fsm.node_registered (λ id addr, id ≠ "" ∧ addr ≠ "") n ps _ nd Hreg Hnd) as [Hne Hane].
  exists (Fsm.s_PrimaryNode sr), nd, (Fsm.s_ReplicaNode sr).
  split; [done|]. split; [done|]. split; [done|].
  assert (∀ id, HandleIngest_route (Some (StateCache.reader cs)) id n (Some pb) =
    if decide (Fsm.s_PrimaryNode sr = id) then WriteLocal pb (Fsm.s_ReplicaNode sr)
    else Forward pb (Fsm.n_Address nd)) as Hroute.
  { intros id. rewrite route_valid by done. fold j. cbn [ShardOwners NodeAddress StateCache.reader].
    unfold StateCache.ShardOwners, StateCache.NodeAddress. rewrite Hsr, decide_False, Hnd by done.
    case_decide; [done|]. by rewrite decide_False. }
  cbn [follow]. destruct (Hsync id0 nd0 Hid0 Hst0) as (r0 & -> & Hr0). rewrite (routes_by_route r0 cs), Hroute by done.
  case_decide as E.
  - rewrite E in Hnd. rewrite Hid0 in Hnd. by injection Hnd as ->.
  - destruct (Hsync _ nd Hnd Hst) as (r & -> & Hr). rewrite (routes_by_route r cs), Hroute by done. by rewrite decide_True.
Qed.

(** A write reaches the primary in at most one hop when the nodes agree on the
    cluster state: from any healthy node, a valid entry is written by the healthy owner
    of its shard, after no or one forward. *)
Theorem forward_one_hop (n : Z) (ps : list Fsm.payload) (cluster : gmap string (string * ClusterStateReader))
    (pb : Pb.LogEntry) (id0 : string) (nd0 : Fsm.NodeRecord) :
  let cs := Fsm.apply_all ps (Fsm.state (Fsm.NewFSM n)) in
  0 < n → Pb.Service pb ≠ "" → Pb.Message pb ≠ "" →
  (∀ id addr now, Fsm.RegisterNodePayload id addr now ∈ ps → id ≠ "" ∧ addr ≠ "") →
  in_sync cs cluster →
  Fsm.Nodes cs !! id0 = Some nd0 → Fsm.n_Status nd0 = Fsm.NodeHealthy →
  ∃ owner nd replica, Fsm.Nodes cs !! owner = Some nd ∧ Fsm.n_Status nd = Fsm.NodeHealthy ∧
    ShardID (Pb.Namespace pb) (Pb.Service pb) n ∈ Fsm.n_Shards nd ∧
    follow 2 cluster n (Fsm.n_Address nd0) pb = Some (Fsm.n_Address nd, WriteLocal pb replica).
Proof. apply one_hop. Qed.

(** The replicator's queues stay within their capacity: however many entries are
    enqueued, no channel ever holds more than 256 jobs (further entries are dropped). *)
Theorem replicator_bounded (jobs : list (LogEntry * Z * string)) (addr : string) :
  (length (default [] (enqueue_all jobs !! addr)) ≤ Replicator.channelCapacity)%nat.
Proof.
  induction jobs as [|[[e sh] a] jobs IH] using rev_ind; [apply Nat.le_0_l|].
  unfold enqueue_all in *. rewrite foldl_snoc. cbn [fst snd]. unfold Replicator.Enqueue.
  set (chs := foldl _ _ _) in *.
  destruct (decide (length (default [] (chs !! a)) < Replicator.channelCapacity)%nat);
    (destruct (decide (a = addr)) as [->|Hne];
     [rewrite lookup_insert_eq; cbn [from_option] |by rewrite lookup_insert_ne]).
  - unfold id in *. rewrite length_app. cbn [length]. lia.
  - exact IH.
Qed.

(** ** Properties on samples *)

(** The state before and after a second node registered. *)
Definition stale_state : Fsm.ClusterState :=
  Fsm.apply_all [Fsm.RegisterNodePayload "a" "h:1" 1] (Fsm.state (Fsm.NewFSM 2)).
Definition fresh_state : Fsm.ClusterState :=
  Fsm.apply_all [Fsm.RegisterNodePayload "a" "h:1" 1; Fsm.RegisterNodePayload "b" "h:2" 2]
    (Fsm.state (Fsm.NewFSM 2)).
Definition sample_pb : Pb.LogEntry := EntryToProto (sample_entry "x" "disk full" 5).

Lemma hex_digit_inj x y : 0 ≤ x < 16 → 0 ≤ y < 16 → hex_digit x = hex_digit y → x = y.
Proof.
  intros Hx Hy. assert (Forall (λ x, Forall (λ y, hex_digit x = hex_digit y → x = y) (seqZ 0 16)) (seqZ 0 16)) as Hall.
  { apply (bool_decide_unpack _). vm_compute. exact I. }
  rewrite Forall_forall in Hall. specialize (Hall x). rewrite elem_of_seqZ, Forall_forall in Hall.
  apply Hall; [lia|apply elem_of_seqZ; lia].
Qed.

Lemma hex_inj l l' : hex l = hex l' → l = l'.
Proof.
  unfold hex. intros E. apply (f_equal String.list_ascii_of_string) in E.
  rewrite !String.list_ascii_of_string_of_list_ascii in E. revert l' E.
  induction l as [|a l IH]; intros [|b l'] E; [done..|]. rewrite !bind_cons in E. cbn [app] in E.
  injection E as E1 E2 E.
  pose proof (byte_to_Z_range a). pose proof (byte_to_Z_range b).
  apply hex_digit_inj in E1; [|split; [apply Z.div_pos|apply Z.div_lt_upper_bound]; lia..].
  apply hex_digit_inj in E2; [|apply Z.mod_pos_bound; lia..].
  f_equal; [|by apply IH]. rewrite <- (byte_of_to_Z a), <- (byte_of_to_Z b). f_equal.
  Z.div_mod_to_equations. lia.
Qed.

(** Identifiers drawn for entries that come without one are never empty, so the entry that is
    stored has one, and different draws give different identifiers: queries, which
    deduplicate by identifier, keep such entries apart. *)
Theorem generated_ids_distinct (b b' : list byte) (now : Z) (pb : Pb.LogEntry) (rand : option (list byte)) :
  (GenerateID (Some b) now = GenerateID (Some b') now ↔ b = b') ∧
  ID (stamp now (GenerateID rand now) pb) ≠ "".
Proof.
  split.
  - split; [|by intros ->]. cbn. intros [= E]. by apply hex_inj.
  - cbn. destruct (decide _) as [|]; [by destruct rand|done].
Qed.

(** The identifier of a request follows it: it is never empty, the node a write is forwarded
    to finds the same identifier and the mark of a forwarded hop in its metadata and nothing
    left over to forward, and so every hop, and with it the queued replication job, carries
    the identifier the first node chose. *)
Theorem request_id_follows (ctx : Context) (rand rand' : Z) :
  ctx_outgoing ctx = [] →
  let id := ingest_request_id ctx rand in
  let hop := handler_context (forward_context (WithRequestID ctx id)) in
  id ≠ "" ∧ ingest_request_id hop rand' = id ∧
  RequestIDFromContext (WithRequestID hop (ingest_request_id hop rand')) = id ∧
  IsForwardedFromIncomingContext hop = true ∧ ctx_outgoing hop = [].
Proof.
  intros Hout id hop.
  assert (id ≠ "") as Hid by (subst id; unfold ingest_request_id; by repeat case_decide).
  assert (RequestIDFromIncomingContext hop = id) as Hin.
  { subst hop. unfold forward_context. rewrite decide_False by done. cbn. by rewrite Hout. }
  assert (ingest_request_id hop rand' = id) as Heq.
  { unfold ingest_request_id at 1. rewrite Hin. by do 2 (destruct (decide (id = "")); [done|]). }
  split_and!; [done|done|by rewrite Heq| |done].
  subst hop. unfold forward_context. rewrite decide_False by done. cbn. by rewrite Hout.
Qed.

Lemma request_id_follows_witness :
  let id := ingest_request_id (mkContext None (Some []) []) 255 in
  let hop := handler_context (forward_context (WithRequestID (mkContext None (Some []) []) id)) in
  id ≠ "" ∧ ingest_request_id hop 7 = id ∧
  RequestIDFromContext (WithRequestID hop (ingest_request_id hop 7)) = id ∧
  IsForwardedFromIncomingContext hop = true ∧ ctx_outgoing hop = [].
Proof. apply (request_id_follows (mkContext None (Some []) []) 255 7). reflexivity. Defined.

(** Forwarding has no hop limit: while a node that just joined still routes by the
    state from before, the old and the new node each forward a write to the other, and
    it is never written, however many hops are allowed. *)
Theorem stale_forward_loop (fuel : nat) :
  let cluster := {[ "h:1" := ("a", StateCache.reader fresh_state);
                    "h:2" := ("b", StateCache.reader stale_state) ]} in
  follow fuel cluster 2 "h:1" sample_pb = None ∧ follow fuel cluster 2 "h:2" sample_pb = None.
Proof.
  intros cluster.
  assert (cluster !! "h:1" = Some ("a", StateCache.reader fresh_state)) as H1 by done.
  assert (cluster !! "h:2" = Some ("b", StateCache.reader stale_state)) as H2 by done.
  assert (HandleIngest_route (Some (StateCache.reader fresh_state)) "a" 2 (Some sample_pb)
          = Forward sample_pb "h:2") as R1 by (vm_compute; reflexivity).
  assert (HandleIngest_route (Some (StateCache.reader stale_state)) "b" 2 (Some sample_pb)
          = Forward sample_pb "h:1") as R2 by (vm_compute; reflexivity).
  clearbody cluster. induction fuel as [|fuel [IH1 IH2]]; [by split|].
  split; cbn [follow]; [rewrite H1, R1|rewrite H2, R2]; done.
Qed.

(** ** Witnesses *)

Definition sample_node : @StorageNode exact_bloom :=
  @mkStorageNode exact_bloom "a" 4 sample_manager NewIndex (Some ∅).

Lemma sample_node_inv :
  @node_inv ascii_tables bit_codec exact_bloom sample_node sample_disk {[sample_path := []]}.
Proof.
  split.
  - apply sample_manager_ok.
  - intros p. cbn [nd_manager sample_node paths sample_manager]. rewrite list_elem_of_singleton.
    destruct (decide (p = sample_path)) as [->|Hne].
    + rewrite lookup_singleton_eq. naive_solver.
    + rewrite lookup_singleton_ne by done. split; [by intros []|done].
  - intros p es [<- <-]%lookup_singleton_Some. exists []. cbn [files sample_disk].
    rewrite lookup_singleton_eq. split; [done|constructor].
  - replace (pairs_of {[sample_path := []]}) with (@nil (LogEntry * string)).
    + apply NewIndex_represents.
    + unfold pairs_of. by rewrite map_to_list_singleton.
Qed.

Lemma ingest_visible_witness :
  let H1 := ascii_tables in let H2 := bit_codec in let H3 := exact_bloom in
  let nd := @mkStorageNode exact_bloom "a" 0 sample_manager NewIndex (Some ∅) in
  let e := stamp 7 "auto-1" sample_pb in
  ∃ nd' d' segs', HandleIngest None (λ _ _ _, Err os_ErrIO) Background 7 "auto-1" (Some sample_pb) nd sample_disk
      = ((nd', Ok (mkIngestResponse (ID e) true)), d') ∧
    no_faults d' ∧ node_inv nd' d' segs' ∧
    (∀ x, x ∈ entries_of segs' ↔ x ∈ entries_of {[sample_path := []]} ∨ x = e) ∧
    ∀ q ast took, id_consistent (entries_of segs') → 0 ≤ Limit q → 0 ≤ Offset q →
      Parse (QueryString q) = Ok ast →
      blooms (nd_manager nd') = ∅ ∨ (∀ n, ast = Some n → bloom_safe (entries_of segs') n) →
      Execute (nd_index nd') (nd_manager nd') None None took q d'
      = (Ok (answer q ast (entries_of segs') took), d').
Proof.
  intros H1 H2 H3 nd e.
  eapply (@ingest_visible ascii_tables ascii_tables_laws bit_codec bit_codec_laws exact_bloom
    exact_bloom_laws None (λ _ _ _, Err os_ErrIO) Background 7 "auto-1" (Some sample_pb) sample_pb "" nd sample_disk
    {[sample_path := []]}).
  - done.
  - destruct sample_node_inv as [??? ?]. split; done.
  - split_and!; [reflexivity|vm_compute; discriminate|vm_compute; reflexivity|].
    intros seg [= <-]. vm_compute. reflexivity.
  - vm_compute. reflexivity.
Defined.

Lemma batch_counts_witness :
  let H1 := ascii_tables in let H2 := bit_codec in let H3 := exact_bloom in
  let nd := @mkStorageNode exact_bloom "a" 0 sample_manager NewIndex None in
  ∃ nd' d' a r, IngestBatch None (λ _ _ _, Err os_ErrIO) Background 3 (λ _, 4) (λ _, 7) (λ _, "auto-1") [Some sample_pb; None] nd
      sample_disk = ((nd', Ok (a, r)), d') ∧ a + r = len [Some sample_pb; None] ∧ 0 ≤ a ∧ 0 ≤ r.
Proof.
  intros H1 H2 H3 nd.
  assert ((IngestBatch None (λ _ _ _, Err os_ErrIO) Background 3 (λ _, 4) (λ _, 7) (λ _, "auto-1") [Some sample_pb; None] nd
    sample_disk).1.2 = Ok (1, 1)) as Hok by (vm_compute; reflexivity).
  destruct (IngestBatch None _ _ _ _ _ _ _ nd sample_disk) as [[nd' r] d'] eqn:E. cbn [fst snd] in Hok. subst r.
  exists nd', d', 1, 1. split; [done|].
  apply (@batch_counts ascii_tables bit_codec exact_bloom None (λ _ _ _, Err os_ErrIO) Background 3 (λ _, 4) (λ _, 7)
    (λ _, "auto-1") [Some sample_pb; None] nd nd' sample_disk d' 1 1); [reflexivity|exact E].
Defined.

(** A node with one closed segment of two entries, in different shards. *)
Definition transfer_entries : list LogEntry :=
  [sample_entry "x" "disk full" 5; mkLogEntry "y" 6 1000 "prod" "api" "INFO" "ok" ∅].
Definition transfer_disk : Disk :=
  mkDisk {[ filepath_Join "data" "1.seg" := @segment_bytes bit_codec transfer_entries ]} [].

Lemma transfer_roundtrip_witness :
  let H2 := bit_codec in let H3 := exact_bloom in
  let mine := filter (λ e, in_shard sample_node 3 e = true) transfer_entries in
  ID <$> mine = ["x"] ∧
  ∃ chunks, TransferSegment sample_node (λ _, None) "1.seg" 3 transfer_disk = ((chunks, Ok ()), transfer_disk) ∧
    Forall (λ c, 0 < len c ≤ transferChunkSize) chunks ∧
    holds (mjoin chunks) mine ∧ read_entries (mkReader (mjoin chunks) None) = Ok mine.
Proof.
  intros H2 H3 mine. split; [vm_compute; reflexivity|].
  apply (@transfer_roundtrip bit_codec bit_codec_laws exact_bloom sample_node "1.seg" 3 transfer_disk
    (segment_bytes transfer_entries) transfer_entries).
  - done.
  - vm_compute. reflexivity.
  - vm_compute. discriminate.
  - cbn [files transfer_disk mdir nd_manager sample_node sample_manager]. by rewrite lookup_singleton_eq.
  - apply holds_segment_bytes. split; [|done].
    repeat constructor; eexists; (split; [reflexivity|]); vm_compute; discriminate.
  - vm_compute. discriminate.
Defined.

Lemma fetch_exact_witness :
  let H2 := bit_codec in let H3 := exact_bloom in
  ∃ out, FetchShardEntries sample_node 1 0 sample_disk = (Ok (EntryToProto <$> out), sample_disk) ∧
    out ≡ₚ filter (λ e, in_shard sample_node 1 e = true ∧ 0 ≤ ReceivedAt e) [] ∧
    StronglySorted received_le out.
Proof.
  intros H2 H3. apply (@fetch_exact bit_codec bit_codec_laws exact_bloom sample_node 1 0 sample_disk []).
  - done.
  - apply sample_stored.
Defined.

Lemma replica_rejects_namespaced_witness :
  let H1 := ascii_tables in let H2 := bit_codec in let H3 := exact_bloom in
  let e := mkLogEntry "y" 6 1000 "prod" "api" "INFO" "ok" ∅ in
  let '(pb, shard) := Replicator.send_request (Replicator.mkReplicaJob e (entry_shard e 4) "req-1") in
    ReplicateEntry None (Some pb) shard sample_node sample_disk
      = ((sample_node, Err (grpc_Status codes_FailedPrecondition "shard mismatch")), sample_disk).
Proof.
  intros H1 H2 H3 e.
  apply (@replica_rejects_namespaced ascii_tables bit_codec exact_bloom None e "req-1" sample_node sample_disk).
  - cbn. lia.
  - vm_compute. discriminate.
Defined.

Lemma forward_one_hop_witness :
  let cs := fresh_state in
  let cluster := {[ "h:1" := ("a", StateCache.reader cs); "h:2" := ("b", StateCache.reader cs) ]} in
  ∃ owner nd replica, Fsm.Nodes cs !! owner = Some nd ∧ Fsm.n_Status nd = Fsm.NodeHealthy ∧
    ShardID (Pb.Namespace sample_pb) (Pb.Service sample_pb) 2 ∈ Fsm.n_Shards nd ∧
    follow 2 cluster 2 "h:1" sample_pb = Some (Fsm.n_Address nd, WriteLocal sample_pb replica).
Proof.
  intros cs cluster.
  eapply (forward_one_hop 2
    [Fsm.RegisterNodePayload "a" "h:1" 1; Fsm.RegisterNodePayload "b" "h:2" 2] cluster sample_pb "a"
    (Fsm.mkNodeRecord "a" "h:1" [0] Fsm.NodeHealthy 1)).
  - lia.
  - done.
  - done.
  - intros id addr now Hin. repeat (apply elem_of_cons in Hin as [[= -> -> ->]|Hin]; [done|]).
    by apply not_elem_of_nil in Hin.
  - intros id nd Hid _. fold fresh_state in Hid.
    assert (Fsm.Nodes fresh_state = {[ "a" := Fsm.mkNodeRecord "a" "h:1" [0] Fsm.NodeHealthy 1;
      "b" := Fsm.mkNodeRecord "b" "h:2" [1] Fsm.NodeHealthy 2 ]}) as E by (vm_compute; reflexivity).
    exists (StateCache.reader cs). split; [|done].
    rewrite E in Hid. apply lookup_insert_Some in Hid as [[<- <-]|[_ [<- <-]%lookup_singleton_Some]]; done.
  - vm_compute. reflexivity.
  - done.
Defined.
