(* ===== verification/Replication.v ===== *)
(** * The replicator as a concurrent program ([internal/replication/replicator.go])

    One buffered channel and one goroutine ([drain]) per replica address. The program is a
    machine whose steps are the points where goroutines interact: an [Enqueue], the end of a
    dial, a receive from a channel, the end of a [ReplicateEntry] call, the cancellation by
    [Stop], and the turns of the loop that drains what is left. A sequence of events is an
    interleaving; the outcome of a call (whether the replica got the entry) is part of
    the event. *)

From S2P Require Import Prelude GoStrings Observability Types Record Disk Segment Ranking Index Parser Bloom.
From S2P Require Import Paths Manager Executor Fsm Sha256 Ingest.

Module Replication.
Import Replicator.

(** Where the goroutine of an address is: dialling; at the outer [select]; in [send] with
    [r.ctx] ([live]: the context was not cancelled when the call started); in the loop
    after the cancellation; in [send] with the deadline; returned. *)
Inductive drain_state :=
  | Dialling
  | Selecting
  | Sending (job : replicaJob) (live : bool)
  | Draining
  | Flushing (job : replicaJob)
  | Returned.

(** The replicator, with the requests it has made and whether each arrived, and the gauge of
    [ReplicationLagEntries]. *)
Record Rep := mkRep {
  channels : gmap string (list replicaJob);
  drains : gmap string drain_state;
  cancelled : bool;
  sent : list (string * replicaJob * bool);
  lag : gmap string Z;
}.

Definition NewReplicator : Rep := mkRep ∅ ∅ false [] ∅.

Inductive event :=
  | EvEnqueue (entry : LogEntry) (shardID : Z) (addr requestID : string)
  | EvDial (addr : string) (ok : bool)
  | EvReceive (addr : string)
  | EvSent (addr : string) (delivered : bool)
  | EvCancel
  | EvDone (addr : string)
  | EvFlush (addr : string)
  | EvReturn (addr : string).

Definition queue (r : Rep) (addr : string) : list replicaJob := default [] (channels r !! addr).

Definition with_drain (addr : string) (s : drain_state) (r : Rep) : Rep :=
  mkRep (channels r) (<[addr := s]> (drains r)) (cancelled r) (sent r) (lag r).
Definition with_queue (addr : string) (q : list replicaJob) (r : Rep) : Rep :=
  mkRep (<[addr := q]> (channels r)) (drains r) (cancelled r) (sent r) (lag r).
Definition with_lag (addr : string) (z : Z) (r : Rep) : Rep :=
  mkRep (channels r) (drains r) (cancelled r) (sent r) (<[addr := z]> (lag r)).

(** [getOrCreateChannel]: the first use of an address starts its goroutine. *)
Definition getOrCreateChannel (addr : string) (r : Rep) : Rep :=
  match channels r !! addr with
  | Some _ => r
  | None => with_drain addr Dialling (with_queue addr [] r)
  end.

(** [Enqueue]: a full channel drops the job. *)
Definition Enqueue (job : replicaJob) (addr : string) (r : Rep) : Rep :=
  let r := getOrCreateChannel addr r in
  let q := queue r addr in
  if decide (length q < channelCapacity)%nat
  then with_lag addr (Z.of_nat (length q) + 1) (with_queue addr (q ++ [job]) r)
  else r.

(** The end of a [send]: the outcome is recorded, the gauge set. *)
Definition after_send (addr : string) (job : replicaJob) (delivered : bool) (next : drain_state) (r : Rep) : Rep :=
  let r := mkRep (channels r) (drains r) (cancelled r) (sent r ++ [(addr, job, delivered)]) (lag r) in
  with_lag addr (Z.of_nat (length (queue r addr))) (with_drain addr next r).

(** One step; [None] where the event cannot happen. A call whose context is already
    cancelled fails without reaching the replica. *)
Definition step (ev : event) (r : Rep) : option Rep :=
  match ev with
  | EvEnqueue entry shardID addr requestID => Some (Enqueue (mkReplicaJob entry shardID requestID) addr r)
  | EvCancel => Some (mkRep (channels r) (drains r) true (sent r) (lag r))
  | EvDial addr ok =>
    match drains r !! addr with
    | Some Dialling => Some (with_drain addr (if ok then Selecting else Returned) r)
    | _ => None
    end
  | EvReceive addr =>
    match drains r !! addr, queue r addr with
    | Some Selecting, job :: q => Some (with_drain addr (Sending job (negb (cancelled r))) (with_queue addr q r))
    | _, _ => None
    end
  | EvDone addr =>
    match drains r !! addr with
    | Some Selecting => if cancelled r then Some (with_drain addr Draining r) else None
    | _ => None
    end
  | EvFlush addr =>
    match drains r !! addr, queue r addr with
    | Some Draining, job :: q => Some (with_drain addr (Flushing job) (with_queue addr q r))
    | _, _ => None
    end
  | EvSent addr delivered =>
    match drains r !! addr with
    | Some (Sending job live) =>
      if delivered && negb live then None else Some (after_send addr job delivered Selecting r)
    | Some (Flushing job) => Some (after_send addr job delivered Draining r)
    | _ => None
    end
  | EvReturn addr =>
    match drains r !! addr, queue r addr with
    | Some Draining, [] => Some (with_lag addr 0 (with_drain addr Returned r))
    | _, _ => None
    end
  end.

Fixpoint run (evs : list event) (r : Rep) : option Rep :=
  match evs with
  | [] => Some r
  | ev :: evs => r ← step ev r; run evs r
  end.

(** ** What is expected *)

(** The job an event puts into the channel of an address. *)
Definition accepts (addr : string) (r : Rep) (ev : event) : list replicaJob :=
  match ev with
  | EvEnqueue entry shardID a requestID =>
    if decide (a = addr ∧ (length (queue r addr) < channelCapacity)%nat)
    then [mkReplicaJob entry shardID requestID] else []
  | _ => []
  end.

Fixpoint accepted (addr : string) (evs : list event) (r : Rep) : list replicaJob :=
  match evs with
  | [] => []
  | ev :: evs => accepts addr r ev ++ match step ev r with Some r => accepted addr evs r | None => [] end
  end.

Definition in_flight (r : Rep) (addr : string) : list replicaJob :=
  match drains r !! addr with
  | Some (Sending job _) | Some (Flushing job) => [job]
  | _ => []
  end.

(** The requests made to an address, and those that arrived. *)
Definition sent_to (addr : string) (r : Rep) : list replicaJob :=
  (filter (λ x, x.1.1 = addr) (sent r)).*1.*2.
Definition delivered_to (addr : string) (r : Rep) : list replicaJob :=
  (filter (λ x, x.1.1 = addr ∧ x.2 = true) (sent r)).*1.*2.

(** The address whose goroutine an event is a step of. *)
Definition drain_of (ev : event) : option string :=
  match ev with
  | EvDial a _ | EvReceive a | EvSent a _ | EvDone a | EvFlush a | EvReturn a => Some a
  | EvEnqueue _ _ _ _ | EvCancel => None
  end.

(** ** Lemmas: one step *)

(** The queues a storage node keeps of its replicator are the channels of the machine. *)
Lemma Enqueue_channels entry shardID addr requestID r :
  channels (Enqueue (mkReplicaJob entry shardID requestID) addr r)
  = Replicator.Enqueue entry shardID addr requestID (channels r).
Proof.
  unfold Enqueue, Replicator.Enqueue, getOrCreateChannel, queue.
  destruct (channels r !! addr) as [q|] eqn:E; cbn; rewrite ?lookup_insert_eq, ?E; cbn.
  - case_decide; cbn; [done|]. by rewrite insert_id.
  - case_decide as Hc; [cbn; by rewrite insert_insert_eq|]. unfold channelCapacity in Hc. cbn in Hc. lia.
Qed.

(** Everything accepted for an address is sent, in flight or waiting, in order. *)
Definition progress (r : Rep) (addr : string) : list replicaJob :=
  sent_to addr r ++ in_flight r addr ++ queue r addr.

Lemma sent_to_snoc addr a job b r s :
  sent s = sent r ++ [(a, job, b)] → sent_to addr s = sent_to addr r ++ (if decide (a = addr) then [job] else []).
Proof.
  intros Hs. unfold sent_to. rewrite Hs, filter_app, !fmap_app. f_equal.
  rewrite filter_cons. cbn. by case_decide.
Qed.

Ltac at_addr addr a :=
  destruct (decide (a = addr)) as [->|?];
  [rewrite ?lookup_insert_eq|rewrite ?lookup_insert_ne by done]; cbn.

Lemma Enqueue_progress job a addr r :
  (∀ b, channels r !! b = None → drains r !! b = None) →
  progress (Enqueue job a r) addr =
    progress r addr ++ (if decide (a = addr ∧ (length (queue r addr) < channelCapacity)%nat) then [job] else []).
Proof.
  intros Hd. unfold Enqueue, getOrCreateChannel.
  assert (∀ r', queue r' a = queue r a → (∀ b, queue r' b = queue r b) → (∀ b, in_flight r' b = in_flight r b) →
    sent r' = sent r →
    progress (if decide (length (queue r' a) < channelCapacity)%nat
              then with_lag a (Z.of_nat (length (queue r' a)) + 1) (with_queue a (queue r' a ++ [job]) r') else r') addr
    = progress r addr ++ (if decide (a = addr ∧ (length (queue r addr) < channelCapacity)%nat) then [job] else [])) as Hgo.
  { intros r' Ha Hq Hf Hs. rewrite Ha. unfold progress, sent_to.
    destruct (decide (length (queue r a) < channelCapacity)%nat) as [Hl|Hl].
    - cbn [sent with_lag with_queue]. rewrite Hs. unfold in_flight in *. cbn [drains with_lag with_queue]. rewrite Hf.
      unfold queue at 1. cbn [channels with_lag with_queue]. at_addr addr a.
      + rewrite decide_True by done. by rewrite !app_assoc.
      + rewrite decide_False by naive_solver. rewrite app_nil_r. fold (queue r' addr). by rewrite Hq.
    - rewrite decide_False by (intros [-> ?]; done). by rewrite Hs, Hf, Hq, app_nil_r. }
  destruct (channels r !! a) as [q|] eqn:E; [by apply Hgo|].
  apply Hgo; try done; unfold queue, in_flight; cbn [channels drains with_drain with_queue].
  - by rewrite lookup_insert_eq, E.
  - intros b. at_addr b a; [by rewrite E|done].
  - intros b. at_addr b a; [by rewrite (Hd _ E)|done].
Qed.

(** Goroutines exist only for addresses with a channel, and conversely. *)
Definition paired (r : Rep) : Prop := ∀ b, channels r !! b = None ↔ drains r !! b = None.
Definition bounded (r : Rep) : Prop := ∀ b, (length (queue r b) ≤ channelCapacity)%nat.

Lemma queue_channel r addr job q : queue r addr = job :: q → channels r !! addr = Some (job :: q).
Proof. unfold queue. destruct (channels r !! addr); cbn; [by intros ->|done]. Qed.

(** A step of the goroutine of [a] moves the head of what is pending. *)
Lemma step_cases ev r r' :
  step ev r = Some r' →
  match ev with
  | EvEnqueue entry shardID addr requestID => r' = Enqueue (mkReplicaJob entry shardID requestID) addr r
  | EvCancel => r' = mkRep (channels r) (drains r) true (sent r) (lag r)
  | EvDial a ok => drains r !! a = Some Dialling ∧ r' = with_drain a (if ok then Selecting else Returned) r
  | EvReceive a => ∃ job q, drains r !! a = Some Selecting ∧ channels r !! a = Some (job :: q) ∧
                     r' = with_drain a (Sending job (negb (cancelled r))) (with_queue a q r)
  | EvSent a b => ∃ job next, in_flight r a = [job] ∧ (next = Selecting ∨ next = Draining) ∧
                     (drains r !! a = Some (Sending job false) → b = false) ∧
                     (next = Selecting ↔ ∃ live, drains r !! a = Some (Sending job live)) ∧
                     is_Some (drains r !! a) ∧ r' = after_send a job b next r
  | EvDone a => drains r !! a = Some Selecting ∧ cancelled r = true ∧ r' = with_drain a Draining r
  | EvFlush a => ∃ job q, drains r !! a = Some Draining ∧ channels r !! a = Some (job :: q) ∧
                     r' = with_drain a (Flushing job) (with_queue a q r)
  | EvReturn a => drains r !! a = Some Draining ∧ queue r a = [] ∧ r' = with_lag a 0 (with_drain a Returned r)
  end.
Proof.
  destruct ev as [e sh a rq|a ok|a|a b| |a|a|a]; cbn [step]; intros H; try by simplify_eq.
  - destruct (drains r !! a) as [[]|] eqn:E; simplify_eq. done.
  - destruct (drains r !! a) as [[]|] eqn:E; simplify_eq.
    destruct (queue r a) as [|job q] eqn:Eq; simplify_eq. apply queue_channel in Eq. eauto 6.
  - unfold in_flight. destruct (drains r !! a) as [[| |job live| |job|]|] eqn:E; simplify_eq.
    + destruct (b && negb live) eqn:Eb; simplify_eq. exists job, Selecting.
      split_and!; [done|by left| |split; eauto|eauto|done].
      intros [= ->]. by destruct b.
    + exists job, Draining. split_and!; [done|by right|done| |eauto|done].
      split; [done|]. by intros [? ?].
  - destruct (drains r !! a) as [[]|] eqn:E; simplify_eq. destruct (cancelled r); by simplify_eq.
  - destruct (drains r !! a) as [[]|] eqn:E; simplify_eq.
    destruct (queue r a) as [|job q] eqn:Eq; simplify_eq. apply queue_channel in Eq. eauto 6.
  - destruct (drains r !! a) as [[]|] eqn:E; simplify_eq.
    destruct (queue r a) as [|job q] eqn:Eq; by simplify_eq.
Qed.

Lemma Enqueue_paired job a r : paired r → paired (Enqueue job a r).
Proof.
  intros Hp b. unfold Enqueue, getOrCreateChannel.
  destruct (channels r !! a) as [q|] eqn:E.
  - assert (drains r !! a ≠ None) as Hd by (intros Hn; apply Hp in Hn; congruence).
    case_decide; [|apply Hp]. cbn. at_addr b a; [split; done|apply Hp].
  - case_decide; cbn.
    + rewrite insert_insert_eq. at_addr b a; [split; done|apply Hp].
    + at_addr b a; [split; done|apply Hp].
Qed.

Lemma step_paired ev r r' : paired r → step ev r = Some r' → paired r'.
Proof.
  intros Hp Hs. apply step_cases in Hs. destruct ev as [e sh a rq|a ok|a|a x| |a|a|a].
  - subst r'. by apply Enqueue_paired.
  - destruct Hs as [Hd ->]. intros b. cbn. at_addr b a; [|apply Hp].
    split; [|done]. intros Hn%Hp. congruence.
  - destruct Hs as (job & q & Hd & Hc & ->). intros b. cbn. at_addr b a; [split; done|apply Hp].
  - destruct Hs as (job & next & _ & _ & _ & _ & [s Hd] & ->). intros b. cbn. at_addr b a; [|apply Hp].
    split; [|done]. intros Hn%Hp. congruence.
  - subst r'. exact Hp.
  - destruct Hs as (Hd & _ & ->). intros b. cbn. at_addr b a; [|apply Hp].
    split; [|done]. intros Hn%Hp. congruence.
  - destruct Hs as (job & q & Hd & Hc & ->). intros b. cbn. at_addr b a; [split; done|apply Hp].
  - destruct Hs as (Hd & _ & ->). intros b. cbn. at_addr b a; [|apply Hp].
    split; [|done]. intros Hn%Hp. congruence.
Qed.

Lemma queue_with_queue r a q b : queue (with_queue a q r) b = if decide (a = b) then q else queue r b.
Proof. unfold queue. cbn. case_decide; subst; [by rewrite lookup_insert_eq|by rewrite lookup_insert_ne]. Qed.

Lemma step_bounded ev r r' : bounded r → step ev r = Some r' → bounded r'.
Proof.
  intros Hb Hs. apply step_cases in Hs.
  assert (∀ a q job, channels r !! a = Some (job :: q) → bounded (with_queue a q r)) as Hpop.
  { intros a q job Hc b. rewrite queue_with_queue. case_decide as E; [|apply Hb]. subst b.
    specialize (Hb a). unfold queue in Hb. rewrite Hc in Hb. cbn in Hb. lia. }
  destruct ev as [e sh a rq|a ok|a|a x| |a|a|a];
    [subst r'|destruct Hs as [_ ->]|destruct Hs as (job & q & _ & Hc & ->)|
     destruct Hs as (job & next & _ & _ & _ & _ & _ & ->)|subst r'|destruct Hs as (_ & _ & ->)|
     destruct Hs as (job & q & _ & Hc & ->)|destruct Hs as (_ & _ & ->)];
    try exact Hb; try (by eapply Hpop).
  unfold Enqueue. set (r1 := getOrCreateChannel a r).
    assert (bounded r1) as Hb1.
    { subst r1. unfold getOrCreateChannel. case_match; [done|]. intros b.
      change (queue (with_drain a Dialling (with_queue a [] r)) b) with (queue (with_queue a [] r) b).
      rewrite queue_with_queue. case_decide; [cbn; lia|apply Hb]. }
    case_decide as Hl; [|done]. intros b.
    match goal with |- context [queue (with_lag a ?z ?x) b] => change (queue (with_lag a z x) b) with (queue x b) end.
    rewrite queue_with_queue. case_decide; [|apply Hb1]. rewrite length_app. cbn. lia.
Qed.

Lemma in_flight_with_drain r a s b :
  in_flight (with_drain a s r) b =
    if decide (a = b) then match s with Sending job _ | Flushing job => [job] | _ => [] end else in_flight r b.
Proof.
  unfold in_flight. cbn. case_decide; subst; [by rewrite lookup_insert_eq|by rewrite lookup_insert_ne].
Qed.

Lemma take_progress r a job q s addr :
  (∃ s0, drains r !! a = Some s0 ∧ (s0 = Selecting ∨ s0 = Draining)) →
  channels r !! a = Some (job :: q) → (s = Flushing job ∨ ∃ live, s = Sending job live) →
  progress (with_drain a s (with_queue a q r)) addr = progress r addr.
Proof.
  intros (s0 & Hd & Hs0) Hc Hs. unfold progress.
  change (sent_to addr (with_drain a s (with_queue a q r))) with (sent_to addr r).
  change (queue (with_drain a s (with_queue a q r)) addr) with (queue (with_queue a q r) addr).
  rewrite in_flight_with_drain, queue_with_queue. case_decide as E; [|done]. subst addr. f_equal.
  unfold in_flight, queue. rewrite Hd, Hc. destruct Hs0 as [-> | ->], Hs as [->|[? ->]]; done.
Qed.

Lemma park_progress r a s s0 addr :
  drains r !! a = Some s0 → s0 ∈ [Dialling; Selecting; Draining] → s ∈ [Selecting; Draining; Returned] →
  progress (with_drain a s r) addr = progress r addr.
Proof.
  intros Hd Hs0 Hs. unfold progress. change (sent_to addr (with_drain a s r)) with (sent_to addr r).
  change (queue (with_drain a s r) addr) with (queue r addr). f_equal. f_equal.
  rewrite in_flight_with_drain. case_decide as E; [|done]. subst addr. unfold in_flight. rewrite Hd.
  rewrite !elem_of_cons, elem_of_nil in Hs0, Hs. by destruct Hs0 as [->|[->|[->|[]]]], Hs as [->|[->|[->|[]]]].
Qed.

Lemma step_progress ev r r' addr :
  paired r → step ev r = Some r' → progress r' addr = progress r addr ++ accepts addr r ev.
Proof.
  intros Hp Hs. apply step_cases in Hs. destruct ev as [e sh a rq|a ok|a|a x| |a|a|a]; cbn [accepts]; rewrite ?app_nil_r.
  - subst r'. apply Enqueue_progress. intros b. apply Hp.
  - destruct Hs as [Hd ->]. eapply park_progress; [done|set_solver|destruct ok; set_solver].
  - destruct Hs as (job & q & Hd & Hc & ->). eapply take_progress; eauto.
  - destruct Hs as (job & next & Hf & Hnext & _ & _ & _ & ->). unfold progress.
    rewrite (sent_to_snoc addr a job x r (after_send a job x next r)) by done.
    change (queue (after_send a job x next r) addr) with (queue r addr).
    assert (in_flight (after_send a job x next r) addr = if decide (a = addr) then [] else in_flight r addr) as ->.
    { transitivity (in_flight (with_drain a next r) addr); [done|]. rewrite in_flight_with_drain.
      case_decide; [by destruct Hnext as [-> | ->]|done]. }
    case_decide as E; [|by rewrite app_nil_r]. subst addr. by rewrite Hf, <- app_assoc.
  - by subst r'.
  - destruct Hs as (Hd & _ & ->). eapply park_progress; [done|set_solver|set_solver].
  - destruct Hs as (job & q & Hd & Hc & ->). eapply take_progress; eauto.
  - destruct Hs as (Hd & _ & ->). transitivity (progress (with_drain a Returned r) addr); [done|].
    eapply park_progress; [done|set_solver|set_solver].
Qed.

(** ** Lemmas: runs *)

Lemma NewReplicator_inv : paired NewReplicator ∧ bounded NewReplicator.
Proof. split; intros b; [done|]. apply Nat.le_0_l. Qed.

Lemma run_events_app evs1 evs2 r : run (evs1 ++ evs2) r = r ← run evs1 r; run evs2 r.
Proof. revert r. induction evs1 as [|ev evs IH]; intros r; [done|]. cbn. destruct (step ev r); cbn; [apply IH|done]. Qed.

Lemma run_inv evs r r' : run evs r = Some r' → paired r ∧ bounded r → paired r' ∧ bounded r'.
Proof.
  revert r. induction evs as [|ev evs IH]; cbn; intros r Hrun [Hp Hb]; [by simplify_eq|].
  destruct (step ev r) as [r1|] eqn:E; [|done]. apply (IH r1); [done|].
  split; [by eapply step_paired|by eapply step_bounded].
Qed.

Lemma run_progress evs r r' addr :
  paired r → run evs r = Some r' → progress r' addr = progress r addr ++ accepted addr evs r.
Proof.
  revert r. induction evs as [|ev evs IH]; cbn; intros r Hp Hrun; [by simplify_eq; rewrite app_nil_r|].
  destruct (step ev r) as [r1|] eqn:E; [|done]. cbn in Hrun.
  rewrite (IH r1); [|by eapply step_paired|done]. by rewrite (step_progress ev r r1), app_assoc.
Qed.

Lemma delivered_sublist addr r : delivered_to addr r `sublist_of` sent_to addr r.
Proof.
  unfold delivered_to, sent_to.
  rewrite <- (list_filter_filter_l (λ x, x.1.1 = addr ∧ x.2 = true) (λ x, x.1.1 = addr)) by naive_solver.
  by do 2 apply fmap_sublist; apply sublist_filter.
Qed.

Lemma sublist_take {A} (l1 l2 l3 : list A) : l1 `sublist_of` l2 → l1 `sublist_of` l2 ++ l3.
Proof. intros H. etrans; [done|]. by apply sublist_inserts_r. Qed.

(** ** Lemmas: delivery and termination *)

(** Without a cancellation or a failed call, what was sent has arrived. *)
Definition no_loss (ev : event) : bool :=
  match ev with EvCancel | EvSent _ false | EvDial _ false => false | _ => true end.

Lemma step_no_loss ev r r' :
  no_loss ev = true → Forall (λ x, x.2 = true) (sent r) → step ev r = Some r' → Forall (λ x, x.2 = true) (sent r').
Proof.
  intros Hno Hal Hs. apply step_cases in Hs. destruct ev as [e sh a rq|a ok|a|a x| |a|a|a]; try done.
  - subst r'. unfold Enqueue, getOrCreateChannel. repeat case_match; done.
  - by destruct Hs as [_ ->].
  - by destruct Hs as (job & q & _ & _ & ->).
  - destruct Hs as (job & next & _ & _ & _ & _ & _ & ->). destruct x; [|done].
    apply Forall_app. split; [done|by constructor].
  - by destruct Hs as (_ & _ & ->).
  - by destruct Hs as (job & q & _ & _ & ->).
  - by destruct Hs as (_ & _ & ->).
Qed.

Lemma run_no_loss evs r r' :
  forallb no_loss evs = true → Forall (λ x, x.2 = true) (sent r) → run evs r = Some r' →
  Forall (λ x, x.2 = true) (sent r').
Proof.
  revert r. induction evs as [|ev evs IH]; cbn; intros r Hno Hal Hrun; [by simplify_eq|].
  apply andb_true_iff in Hno as [H1 H2]. destruct (step ev r) as [r1|] eqn:E; [|done].
  eapply IH; [done| |done]. by eapply step_no_loss.
Qed.

Lemma delivered_all addr r : Forall (λ x, x.2 = true) (sent r) → delivered_to addr r = sent_to addr r.
Proof.
  unfold delivered_to, sent_to. intros Hal. do 2 f_equal.
  induction Hal as [|x l Hx _ IH]; [done|]. rewrite !filter_cons, IH. repeat case_decide; naive_solver.
Qed.

(** How many steps the goroutine of an address can still make after a cancellation. *)
Definition steps_left (r : Rep) (addr : string) : nat :=
  match drains r !! addr with
  | None | Some Returned => 0
  | Some Draining => 2 * length (queue r addr) + 1
  | Some (Flushing _) | Some Selecting => 2 * length (queue r addr) + 2
  | Some (Sending _ _) | Some Dialling => 2 * length (queue r addr) + 3
  end.

Definition is_enqueue (ev : event) : bool := match ev with EvEnqueue _ _ _ _ => true | _ => false end.

Lemma steps_left_with_drain r a s b :
  b ≠ a → steps_left (with_drain a s r) b = steps_left r b.
Proof. intros Hne. unfold steps_left. cbn. by rewrite lookup_insert_ne by done. Qed.

Lemma steps_left_with_queue r a q b :
  b ≠ a → steps_left (with_queue a q r) b = steps_left r b.
Proof. intros Hne. unfold steps_left. rewrite queue_with_queue. cbn. by rewrite decide_False by done. Qed.

Lemma steps_left_at r addr s q :
  drains r !! addr = Some s → queue r addr = q →
  steps_left r addr = (2 * length q + match s with
                                      | Returned => 0 | Draining => 1 | Flushing _ | Selecting => 2
                                      | Sending _ _ | Dialling => 3
                                      end - match s with Returned => 2 * length q | _ => 0 end)%nat.
Proof. intros Hs <-. unfold steps_left. rewrite Hs. destruct s; lia. Qed.

(** Every step but an [Enqueue] uses up one of the steps left of its goroutine. *)
Lemma step_decreases ev r r' addr :
  is_enqueue ev = false → step ev r = Some r' →
  (steps_left r' addr + (if decide (drain_of ev = Some addr) then 1 else 0) ≤ steps_left r addr)%nat.
Proof.
  intros Hne Hs. apply step_cases in Hs.
  destruct ev as [e sh a rq|a ok|a|a x| |a|a|a]; try done; cbn [drain_of].
  4: { subst r'. rewrite decide_False by done. unfold steps_left, queue. cbn. lia. }
  all: destruct (decide (a = addr)) as [->|Ha];
    [rewrite decide_True by done|rewrite decide_False by congruence].
  - destruct Hs as [Hd ->]. rewrite (steps_left_at r addr _ _ Hd eq_refl).
    erewrite steps_left_at; [|cbn; apply lookup_insert_eq|done].
    change (queue (with_drain addr _ r) addr) with (queue r addr). destruct ok; lia.
  - destruct Hs as [Hd ->]. rewrite steps_left_with_drain by done. lia.
  - destruct Hs as (job & q & Hd & Hc & ->). rewrite (steps_left_at r addr _ (job :: q) Hd) by (unfold queue; by rewrite Hc).
    erewrite steps_left_at; [|cbn; apply lookup_insert_eq|apply (queue_with_queue r addr q addr)].
    rewrite decide_True by done. cbn. lia.
  - destruct Hs as (job & q & Hd & Hc & ->). rewrite steps_left_with_drain, steps_left_with_queue by done. lia.
  - destruct Hs as (job & next & Hf & Hnext & _ & Hiff & _ & ->). unfold in_flight in Hf.
    erewrite steps_left_at; [|cbn; apply lookup_insert_eq|done].
    change (queue (after_send addr job x next r) addr) with (queue r addr).
    destruct (drains r !! addr) as [[| |j live| |j|]|] eqn:Hd; try done.
    + rewrite (steps_left_at r addr _ _ Hd eq_refl). destruct Hnext as [-> | ->]; lia.
    + rewrite (steps_left_at r addr _ _ Hd eq_refl). destruct Hnext as [-> | ->]; [|lia].
      exfalso. destruct (proj1 Hiff eq_refl) as [? [=]].
  - destruct Hs as (job & next & _ & _ & _ & _ & _ & ->).
    transitivity (steps_left (with_drain a next r) addr + 0)%nat; [done|].
    rewrite steps_left_with_drain by done. lia.
  - destruct Hs as (Hd & _ & ->). rewrite (steps_left_at r addr _ _ Hd eq_refl).
    erewrite steps_left_at; [|cbn; apply lookup_insert_eq|done].
    change (queue (with_drain addr Draining r) addr) with (queue r addr). cbn. lia.
  - destruct Hs as (Hd & _ & ->). rewrite steps_left_with_drain by done. lia.
  - destruct Hs as (job & q & Hd & Hc & ->). rewrite (steps_left_at r addr _ (job :: q) Hd) by (unfold queue; by rewrite Hc).
    erewrite steps_left_at; [|cbn; apply lookup_insert_eq|apply (queue_with_queue r addr q addr)].
    rewrite decide_True by done. cbn. lia.
  - destruct Hs as (job & q & Hd & Hc & ->). rewrite steps_left_with_drain, steps_left_with_queue by done. lia.
  - destruct Hs as (Hd & Hq & ->). rewrite (steps_left_at r addr _ _ Hd eq_refl), Hq.
    transitivity (steps_left (with_drain addr Returned r) addr + 1)%nat; [done|].
    erewrite steps_left_at; [|cbn; apply lookup_insert_eq|done]. cbn. lia.
  - destruct Hs as (Hd & _ & ->).
    transitivity (steps_left (with_drain a Returned r) addr + 0)%nat; [done|].
    rewrite steps_left_with_drain by done. lia.
Qed.

Lemma run_decreases evs r r' addr :
  forallb (negb ∘ is_enqueue) evs = true → run evs r = Some r' →
  (steps_left r' addr + length (filter (λ ev, drain_of ev = Some addr) evs) ≤ steps_left r addr)%nat.
Proof.
  revert r. induction evs as [|ev evs IH]; cbn [forallb run]; intros r Hno Hrun.
  { simplify_eq. cbn. lia. }
  apply andb_true_iff in Hno as [Hev%negb_true_iff Hno]. destruct (step ev r) as [r1|] eqn:E; [|done].
  cbn in Hrun. specialize (IH r1 Hno Hrun). pose proof (step_decreases ev r r1 addr Hev E) as Hd.
  rewrite filter_cons. destruct (decide (drain_of ev = Some addr)); cbn [length]; lia.
Qed.

Lemma step_cancelled ev r r' : cancelled r = true → step ev r = Some r' → cancelled r' = true.
Proof.
  intros Hc Hs. apply step_cases in Hs. destruct ev as [e sh a rq|a ok|a|a x| |a|a|a].
  - subst r'. unfold Enqueue, getOrCreateChannel. repeat case_match; done.
  - by destruct Hs as [_ ->].
  - by destruct Hs as (job & q & _ & _ & ->).
  - by destruct Hs as (job & next & _ & _ & _ & _ & _ & ->).
  - by subst r'.
  - by destruct Hs as (_ & _ & ->).
  - by destruct Hs as (job & q & _ & _ & ->).
  - by destruct Hs as (_ & _ & ->).
Qed.

(** After a cancellation a goroutine that has not returned can always make a step. *)
Lemma drain_enabled r addr s :
  cancelled r = true → drains r !! addr = Some s → s ≠ Returned →
  ∃ ev r', drain_of ev = Some addr ∧ is_enqueue ev = false ∧ step ev r = Some r'.
Proof.
  intros Hc Hd Hs. destruct s as [| |job live| |job|]; try done.
  - exists (EvDial addr true). cbn. rewrite Hd. eauto.
  - exists (EvDone addr). cbn. rewrite Hd, Hc. eauto.
  - exists (EvSent addr false). cbn. rewrite Hd. eauto.
  - destruct (queue r addr) as [|job q] eqn:Hq.
    + exists (EvReturn addr). cbn. rewrite Hd, Hq. eauto.
    + exists (EvFlush addr). cbn. rewrite Hd, Hq. eauto.
  - exists (EvSent addr false). cbn. rewrite Hd. eauto.
Qed.

(** A goroutine that has returned sends nothing more. *)
Lemma step_returned ev r r' addr :
  drains r !! addr = Some Returned → is_Some (channels r !! addr) → step ev r = Some r' →
  drains r' !! addr = Some Returned ∧ is_Some (channels r' !! addr) ∧ sent_to addr r' = sent_to addr r.
Proof.
  intros Hd [q0 Hch] Hs. apply step_cases in Hs.
  assert (∀ a s r1, r1 = with_drain a s r → a ≠ addr →
    drains r1 !! addr = Some Returned ∧ is_Some (channels r1 !! addr) ∧ sent_to addr r1 = sent_to addr r) as Hother.
  { intros a s r1 -> Ha. cbn. rewrite lookup_insert_ne by done. eauto. }
  destruct ev as [e sh a rq|a ok|a|a x| |a|a|a].
  - subst r'. unfold Enqueue, getOrCreateChannel. destruct (decide (a = addr)) as [->|Ha].
    + rewrite Hch. case_decide; cbn; [rewrite lookup_insert_eq|]; eauto.
    + destruct (channels r !! a); case_decide; cbn; rewrite ?lookup_insert_ne by done; eauto.
  - destruct Hs as [Hd' ->]. eapply Hother; [done|]. congruence.
  - destruct Hs as (job & q & Hd' & Hc & ->). assert (a ≠ addr) by congruence.
    cbn. rewrite !lookup_insert_ne by done. eauto.
  - destruct Hs as (job & next & Hf & _ & _ & _ & _ & ->).
    assert (a ≠ addr) by (intros ->; unfold in_flight in Hf; by rewrite Hd in Hf).
    rewrite (sent_to_snoc addr a job x r (after_send a job x next r)) by done. rewrite decide_False, app_nil_r by done.
    cbn. rewrite lookup_insert_ne by done. eauto.
  - subst r'. eauto.
  - destruct Hs as (Hd' & _ & ->). eapply Hother; [done|]. congruence.
  - destruct Hs as (job & q & Hd' & Hc & ->). assert (a ≠ addr) by congruence.
    cbn. rewrite !lookup_insert_ne by done. eauto.
  - destruct Hs as (Hd' & _ & ->). assert (a ≠ addr) by congruence. cbn. rewrite lookup_insert_ne by done. eauto.
Qed.

Lemma run_returned evs r r' addr :
  drains r !! addr = Some Returned → is_Some (channels r !! addr) → run evs r = Some r' →
  drains r' !! addr = Some Returned ∧ sent_to addr r' = sent_to addr r.
Proof.
  revert r. induction evs as [|ev evs IH]; cbn; intros r Hd Hc Hrun; [by simplify_eq|].
  destruct (step ev r) as [r1|] eqn:E; [|done].
  destruct (step_returned ev r r1 addr Hd Hc E) as (Hd1 & Hc1 & <-). by apply IH.
Qed.

(** Nothing is sent before the dial has succeeded. *)
Definition unsent (r : Rep) : Prop :=
  ∀ addr, drains r !! addr = None ∨ drains r !! addr = Some Dialling → sent_to addr r = [].

Lemma step_unsent ev r r' : paired r → unsent r → step ev r = Some r' → unsent r'.
Proof.
  intros Hp Hu Hs addr Hd. apply step_cases in Hs.
  assert (∀ a s r1, drains r1 = <[a := s]> (drains r) → sent_to addr r1 = sent_to addr r → s ≠ Dialling →
    drains r1 !! addr = None ∨ drains r1 !! addr = Some Dialling → sent_to addr r1 = []) as Hgo.
  { intros a s r1 -> -> Hs1. at_addr addr a; [naive_solver|by intros; apply Hu]. }
  destruct ev as [e sh a rq|a ok|a|a x| |a|a|a].
  - subst r'. assert (sent_to addr (Enqueue (mkReplicaJob e sh rq) a r) = sent_to addr r) as ->.
    { unfold Enqueue, getOrCreateChannel. by repeat case_match. }
    apply Hu. revert Hd. unfold Enqueue, getOrCreateChannel.
    destruct (channels r !! a) eqn:E; case_decide; cbn; try done; apply Hp in E;
      (at_addr addr a; [by left|done]).
  - destruct Hs as [_ ->]. by eapply (Hgo a (if ok then Selecting else Returned)); [..|destruct ok|].
  - destruct Hs as (job & q & _ & _ & ->). by eapply (Hgo a (Sending job (negb (cancelled r)))).
  - destruct Hs as (job & next & Hf & Hn & _ & _ & _ & ->). rewrite (sent_to_snoc addr a job x r) by done.
    revert Hd. cbn. at_addr addr a; [destruct Hn; naive_solver|]. rewrite app_nil_r. apply Hu.
  - subst r'. by apply Hu.
  - destruct Hs as (_ & _ & ->). by eapply (Hgo a Draining).
  - destruct Hs as (job & q & _ & _ & ->). by eapply (Hgo a (Flushing job)).
  - destruct Hs as (_ & _ & ->). by eapply (Hgo a Returned).
Qed.

Lemma run_unsent evs r r' : paired r → unsent r → run evs r = Some r' → unsent r'.
Proof.
  revert r. induction evs as [|ev evs IH]; cbn; intros r Hp Hu Hrun; [by simplify_eq|].
  destruct (step ev r) as [r1|] eqn:E; [|done].
  apply (IH r1); [by eapply step_paired|by eapply step_unsent|done].
Qed.

(** The calls made to an address. *)
Definition calls_to (addr : string) (r : Rep) : list (string * replicaJob * bool) :=
  filter (λ x, x.1.1 = addr) (sent r).

Lemma delivered_calls addr r : delivered_to addr r = (filter (λ x, x.2 = true) (calls_to addr r)).*1.*2.
Proof.
  unfold delivered_to, calls_to. do 2 f_equal. rewrite list_filter_filter. apply list_filter_iff. naive_solver.
Qed.

(** Calls are only added. *)
Lemma step_calls ev r r' addr : step ev r = Some r' → ∃ tail, calls_to addr r' = calls_to addr r ++ tail.
Proof.
  intros Hs. apply step_cases in Hs. destruct ev as [e sh a rq|a ok|a|a x| |a|a|a];
    try (exists []; rewrite app_nil_r; unfold calls_to; naive_solver).
  - exists []. subst r'. rewrite app_nil_r. unfold Enqueue, getOrCreateChannel. by repeat case_match.
  - destruct Hs as (job & next & _ & _ & _ & _ & _ & ->). unfold calls_to. cbn. rewrite filter_app. by eexists.
Qed.

Lemma run_calls evs r r' addr : run evs r = Some r' → ∃ tail, calls_to addr r' = calls_to addr r ++ tail.
Proof.
  revert r. induction evs as [|ev evs IH]; cbn; intros r Hrun.
  { injection Hrun as ->. exists []. by rewrite app_nil_r. }
  destruct (step ev r) as [r1|] eqn:E; [|done]. destruct (step_calls ev r r1 addr E) as [t1 Ht1].
  destruct (IH r1 Hrun) as [t2 Ht2]. exists (t1 ++ t2). by rewrite Ht2, Ht1, app_assoc.
Qed.

(** A call that started with a cancelled context is still going on, or it has failed. *)
Lemma run_doomed evs r r' addr job :
  paired r → drains r !! addr = Some (Sending job false) → run evs r = Some r' →
  (drains r' !! addr = Some (Sending job false) ∧ calls_to addr r' = calls_to addr r) ∨
  ∃ tail, calls_to addr r' = calls_to addr r ++ (addr, job, false) :: tail.
Proof.
  revert r. induction evs as [|ev evs IH]; cbn; intros r Hp Hd Hrun; [injection Hrun as ->; by left|].
  destruct (step ev r) as [r1|] eqn:E; [|done]. pose proof (step_paired ev r r1 Hp E) as Hp1.
  assert ((drains r1 !! addr = Some (Sending job false) ∧ calls_to addr r1 = calls_to addr r) ∨
          calls_to addr r1 = calls_to addr r ++ [(addr, job, false)]) as [[Hd1 Hc1]|Hc1].
  { apply step_cases in E. destruct ev as [e sh a rq|a ok|a|a x| |a|a|a].
    - left. subst r1. assert (is_Some (channels r !! a) ∨ a ≠ addr) as Ha.
      { destruct (decide (a = addr)) as [->|]; [left|by right]. destruct (channels r !! addr) eqn:Ec; [by eexists|].
        apply Hp in Ec. congruence. }
      unfold Enqueue, getOrCreateChannel. destruct (channels r !! a) eqn:Ec; case_decide; cbn; try done;
        (destruct Ha as [[? ?]|Ha]; [done|]; by rewrite lookup_insert_ne).
    - destruct E as [Hda ->]. left. assert (a ≠ addr) by congruence. split; [|done]. cbn. by rewrite lookup_insert_ne.
    - destruct E as (job' & q & Hda & _ & ->). left. assert (a ≠ addr) by congruence. split; [|done].
      cbn. by rewrite lookup_insert_ne.
    - destruct E as (job' & next & Hf & _ & Hx & _ & _ & ->). unfold calls_to. cbn.
      destruct (decide (a = addr)) as [->|Hne].
      + right. unfold in_flight in Hf. rewrite Hd in Hf. injection Hf as <-. rewrite (Hx Hd), filter_app.
        by rewrite filter_cons_True, filter_nil.
      + left. rewrite lookup_insert_ne, filter_app, filter_cons_False, filter_nil, app_nil_r by done. done.
    - subst r1. by left.
    - destruct E as (Hda & _ & ->). left. assert (a ≠ addr) by congruence. split; [|done]. cbn. by rewrite lookup_insert_ne.
    - destruct E as (job' & q & Hda & _ & ->). left. assert (a ≠ addr) by congruence. split; [|done].
      cbn. by rewrite lookup_insert_ne.
    - destruct E as (Hda & _ & ->). left. assert (a ≠ addr) by congruence. split; [|done]. cbn. by rewrite lookup_insert_ne. }
  - rewrite <- Hc1. by apply IH.
  - right. destruct (run_calls evs r1 r' addr Hrun) as [tail ->]. exists tail. by rewrite Hc1, <- app_assoc.
Qed.

(** ** Theorems *)

(** C21. Replication is first in, first out and at most once: in every interleaving, what was
    accepted for an address is exactly what has been sent to it, then the entry in flight,
    then the queue, in order; so what the replica received is a subsequence of what was
    accepted. No queue exceeds its capacity. *)
Theorem replication_fifo (evs : list event) (r : Rep) (addr : string) :
  run evs NewReplicator = Some r →
  accepted addr evs NewReplicator = sent_to addr r ++ in_flight r addr ++ queue r addr ∧
  delivered_to addr r `sublist_of` accepted addr evs NewReplicator ∧
  (length (queue r addr) ≤ channelCapacity)%nat.
Proof.
  intros Hrun. destruct NewReplicator_inv as [Hp Hb].
  pose proof (run_progress evs _ r addr Hp Hrun) as Hpr.
  destruct (run_inv evs _ r Hrun (conj Hp Hb)) as [_ Hb']. change (progress NewReplicator addr) with (@nil replicaJob) in Hpr.
  cbn [app] in Hpr. rewrite <- Hpr. split; [done|]. split; [|apply Hb'].
  apply sublist_take, delivered_sublist.
Qed.

(** Nothing is lost while the replicator runs: if no call and no dial fails and [Stop] is
    not called, then whenever the queue of an address is empty and its goroutine is back at the
    [select], the replica has received exactly what was accepted, in order. *)
Theorem replication_lossless (evs : list event) (r : Rep) (addr : string) :
  run evs NewReplicator = Some r → forallb no_loss evs = true →
  in_flight r addr = [] → queue r addr = [] →
  delivered_to addr r = accepted addr evs NewReplicator.
Proof.
  intros Hrun Hno Hf Hq. destruct NewReplicator_inv as [Hp _].
  pose proof (run_progress evs _ r addr Hp Hrun) as Hpr. unfold progress in Hpr.
  rewrite Hf, Hq, app_nil_r in Hpr. rewrite delivered_all by exact (run_no_loss evs NewReplicator r Hno (Forall_nil_2 _) Hrun). exact Hpr.
Qed.

(** C23. [Stop] returns: once the context is cancelled and no one enqueues, the goroutine of an
    address makes at most [2 * queue + 3] more steps, whatever the interleaving and the
    outcomes of its calls, and as long as it has not returned a step of it is possible. *)
Theorem stop_terminates (r : Rep) (evs : list event) (r' : Rep) (addr : string) :
  cancelled r = true → run evs r = Some r' → forallb (negb ∘ is_enqueue) evs = true →
  (length (filter (λ ev, drain_of ev = Some addr) evs) ≤ 2 * length (queue r addr) + 3)%nat ∧
  (drains r' !! addr = None ∨ drains r' !! addr = Some Returned ∨
   ∃ ev r'', drain_of ev = Some addr ∧ is_enqueue ev = false ∧ step ev r' = Some r'').
Proof.
  intros Hc Hrun Hno. split.
  - pose proof (run_decreases evs r r' addr Hno Hrun).
    assert (steps_left r addr ≤ 2 * length (queue r addr) + 3)%nat
      by (unfold steps_left; destruct (drains r !! addr) as [[]|]; lia).
    lia.
  - assert (cancelled r' = true) as Hc'.
    { clear Hno. revert r Hc Hrun. induction evs as [|ev evs IH]; cbn; intros r Hc Hrun; [by simplify_eq|].
      destruct (step ev r) as [r1|] eqn:E; [|done]. eapply IH; [|done]. by eapply step_cancelled. }
    destruct (drains r' !! addr) as [s|] eqn:Hd; [right|by left].
    assert (s = Returned ∨ s ≠ Returned) as [->|Hs] by (destruct s; by auto); [by left|right].
    by eapply drain_enabled.
Qed.

(** C40. [Stop] does not finish the entries it promises to finish: in any reachable state after the
    cancellation in which the goroutine of an address is at the [select] and an entry waits,
    the [select] may take the entry from the channel, and then, whatever follows, this entry
    never arrives: it is sent with the cancelled context, and what the replica receives from
    then on comes from the entries behind it. *)
Theorem stop_loses_entry (evs : list event) (r : Rep) (addr : string) (job : replicaJob) (q : list replicaJob) :
  run evs NewReplicator = Some r → cancelled r = true → drains r !! addr = Some Selecting →
  queue r addr = job :: q →
  ∃ r1, step (EvReceive addr) r = Some r1 ∧
    ∀ evs2 r2, run evs2 r1 = Some r2 →
      ∃ rest, delivered_to addr r2 = delivered_to addr r ++ rest ∧ rest `sublist_of` q ++ accepted addr evs2 r1.
Proof.
  intros Hrun Hc Hd Hq. destruct NewReplicator_inv as [Hp0 Hb0].
  destruct (run_inv evs _ r Hrun (conj Hp0 Hb0)) as [Hp _].
  set (r1 := with_drain addr (Sending job false) (with_queue addr q r)).
  assert (step (EvReceive addr) r = Some r1) as Hstep by (cbn; by rewrite Hd, Hq, Hc).
  exists r1. split; [done|]. intros evs2 r2 Hrun2. pose proof (step_paired _ _ _ Hp Hstep) as Hp1.
  assert (progress r1 addr = sent_to addr r ++ job :: q) as Hpr1.
  { unfold progress. change (sent_to addr r1) with (sent_to addr r). f_equal.
    unfold in_flight, queue, r1. cbn. by rewrite !lookup_insert_eq. }
  pose proof (run_progress evs2 r1 r2 addr Hp1 Hrun2) as Hpr. rewrite Hpr1 in Hpr.
  rewrite !delivered_calls. change (calls_to addr r) with (calls_to addr r1).
  destruct (run_doomed evs2 r1 r2 addr job Hp1) as [[_ ->]|[tail Ht]]; [cbn; apply lookup_insert_eq|done| |].
  { exists []. rewrite app_nil_r. split; [done|apply sublist_nil_l]. }
  exists (filter (λ x, x.2 = true) tail).*1.*2. rewrite Ht, filter_app, filter_cons_False by done.
  rewrite !fmap_app. split; [done|].
  assert (sent_to addr r2 = sent_to addr r ++ job :: tail.*1.*2) as Hs
    by (unfold sent_to; fold (calls_to addr r2); by rewrite Ht, !fmap_app).
  unfold progress in Hpr. rewrite Hs, <- !app_assoc in Hpr. apply app_inv_head in Hpr. injection Hpr as Hpr.
  rewrite <- Hpr. apply sublist_inserts_r. do 2 apply fmap_sublist. apply sublist_filter.
Qed.

(** A failed dial silently ends replication to an address: its channel stays and goes on
    accepting entries until it is full, but in no continuation is anything sent to it. *)
Theorem failed_dial_strands (evs1 evs2 : list event) (r r' : Rep) (addr : string) :
  run evs1 NewReplicator = Some r → drains r !! addr = Some Dialling →
  run (EvDial addr false :: evs2) r = Some r' →
  sent_to addr r' = [] ∧ queue r' addr = accepted addr (evs1 ++ EvDial addr false :: evs2) NewReplicator.
Proof.
  intros Hrun1 Hd Hrun2. destruct NewReplicator_inv as [Hp Hb].
  assert (run (evs1 ++ EvDial addr false :: evs2) NewReplicator = Some r') as Hrun by (by rewrite run_events_app, Hrun1).
  pose proof (run_progress _ _ r' addr Hp Hrun) as Hpr. change (progress NewReplicator addr) with (@nil replicaJob) in Hpr.
  cbn [app] in Hpr. rewrite <- Hpr. unfold progress.
  destruct (run_inv _ _ r Hrun1 (conj Hp Hb)) as [Hp1 _].
  cbn [run step] in Hrun2. rewrite Hd in Hrun2. cbn [mbind option_bind] in Hrun2.
  assert (is_Some (channels r !! addr)) as Hc.
  { destruct (channels r !! addr) eqn:E; [by eauto|]. apply Hp1 in E. congruence. }
  destruct (run_returned evs2 (with_drain addr Returned r) r' addr) as [Hret Hs]; [cbn; apply lookup_insert_eq|done|done|].
  assert (sent_to addr r' = []) as ->.
  { rewrite Hs. apply (run_unsent evs1 NewReplicator r Hp); [done|done|by right]. }
  unfold in_flight. by rewrite Hret.
Qed.

(** ** Witnesses *)

Definition sample_run : list event :=
  [EvEnqueue (sample_entry "x" "disk full" 5) 0 "h:2" "req-1"; EvDial "h:2" true; EvReceive "h:2";
   EvEnqueue (sample_entry "y" "disk ok" 6) 1 "h:2" "req-2"; EvSent "h:2" true; EvReceive "h:2"; EvSent "h:2" true].

Lemma replication_fifo_witness :
  ∃ r, run sample_run NewReplicator = Some r ∧
    accepted "h:2" sample_run NewReplicator = sent_to "h:2" r ++ in_flight r "h:2" ++ queue r "h:2" ∧
    delivered_to "h:2" r `sublist_of` accepted "h:2" sample_run NewReplicator ∧
    (length (queue r "h:2") ≤ channelCapacity)%nat.
Proof.
  destruct (run sample_run NewReplicator) as [r|] eqn:E; [|by vm_compute in E].
  exists r. split; [reflexivity|]. exact (replication_fifo sample_run r "h:2" E).
Defined.

Lemma replication_lossless_witness :
  ∃ r, run sample_run NewReplicator = Some r ∧
    delivered_to "h:2" r = accepted "h:2" sample_run NewReplicator.
Proof.
  destruct (run sample_run NewReplicator) as [r|] eqn:E; [|by vm_compute in E].
  exists r. split; [reflexivity|].
  apply (replication_lossless sample_run r "h:2" E); vm_compute in E; by injection E as <-.
Defined.

Lemma stop_terminates_witness :
  let start := [EvEnqueue (sample_entry "x" "disk full" 5) 0 "h:2" "req-1"; EvDial "h:2" true; EvCancel] in
  let evs := [EvDone "h:2"; EvFlush "h:2"; EvSent "h:2" false; EvReturn "h:2"] in
  ∃ r r', run start NewReplicator = Some r ∧ run evs r = Some r' ∧
    (length (filter (λ ev, drain_of ev = Some "h:2") evs) ≤ 2 * length (queue r "h:2") + 3)%nat ∧
    (drains r' !! "h:2" = None ∨ drains r' !! "h:2" = Some Returned ∨
     ∃ ev r'', drain_of ev = Some "h:2" ∧ is_enqueue ev = false ∧ step ev r' = Some r'').
Proof.
  intros start evs. destruct (run start NewReplicator) as [r|] eqn:E; [|by vm_compute in E].
  destruct (run evs r) as [r'|] eqn:E'; [|vm_compute in E; injection E as <-; by vm_compute in E'].
  exists r, r'. split; [reflexivity|]. split; [exact E'|]. apply (stop_terminates r evs r' "h:2").
  - vm_compute in E. by injection E as <-.
  - exact E'.
  - reflexivity.
Defined.

(** [Stop] is called while two entries wait; the first is taken and lost, the second arrives. *)
Lemma stop_loses_entry_witness :
  let e1 := sample_entry "x" "disk full" 5 in let e2 := sample_entry "y" "disk ok" 6 in
  let evs := [EvEnqueue e1 0 "h:2" "req-1"; EvEnqueue e2 0 "h:2" "req-2"; EvDial "h:2" true; EvCancel] in
  let evs2 := [EvSent "h:2" false; EvDone "h:2"; EvFlush "h:2"; EvSent "h:2" true; EvReturn "h:2"] in
  let q := [mkReplicaJob e2 0 "req-2"] in
  ∃ r r1, run evs NewReplicator = Some r ∧ step (EvReceive "h:2") r = Some r1 ∧
    (∃ r2, run evs2 r1 = Some r2 ∧ delivered_to "h:2" r2 = q) ∧
    ∀ evs2 r2, run evs2 r1 = Some r2 →
      ∃ rest, delivered_to "h:2" r2 = delivered_to "h:2" r ++ rest ∧
        rest `sublist_of` q ++ accepted "h:2" evs2 r1.
Proof.
  intros e1 e2 evs evs2 q. destruct (run evs NewReplicator) as [r|] eqn:E; [|by vm_compute in E].
  destruct (stop_loses_entry evs r "h:2" (mkReplicaJob e1 0 "req-1") q E) as (r1 & Hs & Hall);
    [vm_compute in E; by injection E as <-..|].
  exists r, r1. split; [reflexivity|]. split; [exact Hs|]. split; [|exact Hall].
  vm_compute in E. injection E as <-. vm_compute in Hs. injection Hs as <-.
  eexists. split; [vm_compute; reflexivity|]. vm_compute. reflexivity.
Defined.

Lemma failed_dial_strands_witness :
  let ev e := EvEnqueue e 0 "h:2" "req-1" in
  let evs1 := [ev (sample_entry "x" "disk full" 5)] in let evs2 := [ev (sample_entry "y" "disk ok" 6)] in
  ∃ r r', run evs1 NewReplicator = Some r ∧ run (EvDial "h:2" false :: evs2) r = Some r' ∧
    sent_to "h:2" r' = [] ∧
    queue r' "h:2" = accepted "h:2" (evs1 ++ EvDial "h:2" false :: evs2) NewReplicator.
Proof.
  intros ev evs1 evs2. destruct (run evs1 NewReplicator) as [r|] eqn:E; [|by vm_compute in E].
  destruct (run (EvDial "h:2" false :: evs2) r) as [r'|] eqn:E'; [|vm_compute in E; injection E as <-; by vm_compute in E'].
  exists r, r'. split; [reflexivity|]. split; [exact E'|].
  apply (failed_dial_strands evs1 evs2 r r' "h:2"); [exact E| |exact E'].
  vm_compute in E. by injection E as <-.
Defined.
End Replication.
