(* ===== verification/Compaction.v ===== *)
(** * Compaction and retention ([internal/storage/compaction.go])

    The compactor merges runs of small closed segments into the first of each
    run and deletes segments past retention. It works on the manager, the index
    and the disk of a node; every system call may fail. *)

From S2P Require Import Prelude GoStrings Types Record Disk Segment Ranking Index Parser Bloom.
From S2P Require Import Paths Manager Executor Recovery.

Section compaction.
Context `{GoUnicode} `{Protobuf} `{Bloom}.

Record CompactorConfig := mkCompactorConfig {
  MergeThresholdBytes : Z;
  RetentionDays : Z;
  IntervalSeconds : Z;
}.

Definition DefaultCompactorConfig : CompactorConfig :=
  mkCompactorConfig (32 * 1024 * 1024) 7 300.

(** The compactor's view of the node; the index is absent without
    [NewCompactorWithIndex]. *)
Record Compactor := mkCompactor {
  c_manager : Manager;
  c_idx : option Index;
  c_cfg : CompactorConfig;
}.

Definition with_idx (f : Index → Index) (c : Compactor) : Compactor :=
  mkCompactor (c_manager c) (f <$> c_idx c) (c_cfg c).
Definition with_manager (m : Manager) (c : Compactor) : Compactor :=
  mkCompactor m (c_idx c) (c_cfg c).

(** The append loop: the segment, the tokens, and whether all entries were
    written. *)
Fixpoint merge_append (bloomEnabled : bool) (seg : Segment) (tokens : list string) (all : list LogEntry)
    : IO (Segment * list string * bool) :=
  match all with
  | [] => mret (seg, tokens, true)
  | e :: all' =>
    match marshalLogEntry e with
    | Err _ => mret (seg, tokens, false)
    | Ok pb =>
      '(seg, r) ← Segment_Append seg pb;
      match r with
      | Err _ => mret (seg, tokens, false)
      | Ok _ =>
        merge_append bloomEnabled seg (if bloomEnabled then tokens ++ tokenizeEntry e else tokens) all'
      end
    end
  end.

Definition remove_segments (ps : list string) (idx : Index) : Index :=
  foldl (λ idx p, RemoveSegment p idx) idx ps.

(** The index is rebuilt from the files that are still there. *)
Fixpoint restore_index (ps : list string) (c : Compactor) : IO Compactor :=
  match ps with
  | [] => mret c
  | op :: ps' =>
    r ← ReadSegments [op];
    restore_index ps'
      match r with Err _ => c | Ok restored => with_idx (add_entries op restored) c end
  end.

(** The manager's path list and filters after a merge. *)
Definition merged_manager (newPath : string) (others : list string) (loaded : option BloomFilter)
    (m : Manager) : Manager :=
  let m := with_paths (filter (λ p, p ∉ others) (paths m)) m in
  if bloomEnabled m then
    let bl := foldl (λ b op, delete op b) (blooms m) others in
    let bl := delete newPath bl in
    with_blooms (match loaded with Some bf => <[newPath := bf]> bl | None => bl end) m
  else m.

Fixpoint delete_files (ps : list string) : IO () :=
  match ps with
  | [] => mret ()
  | op :: ps' => _ ← os_Remove op; _ ← os_Remove (BloomPath op); delete_files ps'
  end.

(** From the successful rename on. *)
Definition finish_merge (newPath : string) (others : list string) (all : list LogEntry)
    (tokens : list string) (c : Compactor) : IO Compactor :=
  let m := c_manager c in
  _ ← (if bloomEnabled m && negb (bool_decide (tokens = []))
       then WriteBloom (BloomPath newPath) (BuildBloom tokens (len tokens))
       else mret (Ok ()));
  let c := with_idx (add_entries newPath all) c in
  loaded ← (if bloomEnabled m
            then r ← ReadBloom (BloomPath newPath);
                 mret match r with Ok bf => Some bf | Err _ => None end
            else mret None);
  let c := with_manager (merged_manager newPath others loaded m) c in
  delete_files others ;;
  mret c.

(** [Compactor.mergeRun] on a non-empty run. *)
Definition mergeRun (newPath : string) (others : list string) (c : Compactor) : IO Compactor :=
  let ps := newPath :: others in
  r ← ReadSegments ps;
  match r with
  | Err _ => mret c
  | Ok all =>
    let tmpPath := newPath +:+ ".tmp" in
    _ ← os_Remove tmpPath;
    r ← OpenSegment tmpPath;
    match r with
    | Err _ => mret c
    | Ok seg =>
      '(seg, tokens, ok) ← merge_append (bloomEnabled (c_manager c)) seg [] all;
      _ ← Segment_Close seg;
      if negb ok then _ ← os_Remove tmpPath; mret c else
      let c := with_idx (remove_segments ps) c in
      r ← os_Rename tmpPath newPath;
      match r with
      | Err _ =>
        _ ← os_Remove tmpPath;
        match c_idx c with Some _ => restore_index ps c | None => mret c end
      | Ok _ => finish_merge newPath others all tokens c
      end
    end
  end.

(** The closure [flush]. *)
Definition flush (run : list string) (c : Compactor) : IO Compactor :=
  match run with
  | newPath :: other :: others => mergeRun newPath (other :: others) c
  | _ => mret c
  end.

(** The loop of [runMergePass] with the run collected so far. *)
Fixpoint merge_loop (run : list string) (closed : list string) (c : Compactor) : IO Compactor :=
  match closed with
  | [] => flush run c
  | path :: closed' =>
    info ← os_Stat path;
    match info with
    | Err _ => c ← flush run c; merge_loop [] closed' c
    | Ok size =>
      if size <? MergeThresholdBytes (c_cfg c) then merge_loop (run ++ [path]) closed' c
      else c ← flush run c; merge_loop [] closed' c
    end
  end.

(** [Compactor.runMergePass]. *)
Definition runMergePass (c : Compactor) : IO Compactor :=
  if MergeThresholdBytes (c_cfg c) <=? 0 then mret c else
  let closed := ListClosedSegments (c_manager c) in
  if decide (length closed < 2)%nat then mret c else merge_loop [] closed c.

(** The newest timestamp of a segment, at least 0. *)
Definition max_timestamp (es : list LogEntry) : Z :=
  foldl (λ maxTS e, if maxTS <? Timestamp e then Timestamp e else maxTS) 0 es.

(** The loop of [runRetentionPass]. *)
Fixpoint retention_loop (cutoff : Z) (closed : list string) (c : Compactor) : IO Compactor :=
  match closed with
  | [] => mret c
  | path :: closed' =>
    r ← ReadSegments [path];
    match r with
    | Err _ => retention_loop cutoff closed' c
    | Ok entries =>
      let maxTS := max_timestamp entries in
      if (0 <? maxTS) && (maxTS <? cutoff) then
        let c := with_manager (DeleteSegment (c_manager c) path) c in
        let c := with_idx (RemoveSegment path) c in
        _ ← os_Remove path;
        _ ← os_Remove (BloomPath path);
        retention_loop cutoff closed' c
      else retention_loop cutoff closed' c
    end
  end.

(** [Compactor.runRetentionPass]; [now] is the time of the call, in nanoseconds. *)
Definition runRetentionPass (now : Z) (c : Compactor) : IO Compactor :=
  if RetentionDays (c_cfg c) <=? 0 then mret c else
  let cutoff := int64 (now + int64 (- RetentionDays (c_cfg c) * 24 * 3600 * 1000000000)) in
  retention_loop cutoff (ListClosedSegments (c_manager c)) c.

(** ** Specification *)

(** The compactor's node in step with the disk. *)
Definition comp_inv (c : Compactor) (d : Disk) (segs : gmap string (list LogEntry)) : Prop :=
  match c_idx c with
  | Some idx => store_inv (c_manager c) idx d segs
  | None => False
  end.

(** The segments after merging [others] into [newPath]. *)
Definition merged_segs (newPath : string) (others : list string) (all : list LogEntry)
    (segs : gmap string (list LogEntry)) : gmap string (list LogEntry) :=
  <[newPath := all]> (filter (λ x, x.1 ∉ others) segs).

(** The files after a merge, temporary files apart. *)
Definition merged_file (newPath : string) (others : list string) (all : list LogEntry) (filters : bool)
    (fs : gmap string (list byte)) (q : string) : option (list byte) :=
  if decide (q ∈ others ∨ q ∈ BloomPath <$> others) then None
  else if decide (q = newPath) then Some (segment_bytes all)
  else if decide (q = BloomPath newPath ∧ filters = true ∧ all ≠ [])
  then Some (WriteTo (segment_bloom all))
  else fs !! q.
End compaction.

(** ** Lemmas: the disk *)

Section compaction_lemmas.
Context `{GoUnicodeLaws} `{ProtobufLaws} `{BloomLaws}.

Lemma os_Remove_done d p :
  no_faults d → ∃ r, os_Remove p d = (r, mkDisk (delete p (files d)) (sched d)).
Proof.
  intros Hn. unfold os_Remove. io. destruct (files d !! p) eqn:Hp; io; eexists; [done|].
  rewrite delete_id by done. by destruct d.
Qed.

Lemma ReadBloom_quiet d p : no_faults d → ∃ r, ReadBloom p d = (r, d).
Proof.
  intros Hn. unfold ReadBloom, os_Open. io. destruct (files d !! p); io; by eexists.
Qed.

Lemma delete_files_done others d :
  no_faults d → ∃ d', delete_files others d = ((), d') ∧ no_faults d' ∧
    ∀ q, files d' !! q = if decide (q ∈ others ∨ q ∈ BloomPath <$> others) then None else files d !! q.
Proof.
  revert d. induction others as [|op others IH]; intros d Hn; cbn [delete_files].
  { exists d. by split_and!. }
  io. destruct (os_Remove_done d op Hn) as (r & ->). io.
  destruct (os_Remove_done (mkDisk (delete op (files d)) (sched d)) (BloomPath op) Hn) as (r' & ->). io.
  destruct (IH (mkDisk (delete (BloomPath op) (delete op (files d))) (sched d)) Hn) as (d' & -> & Hn' & Hf).
  exists d'. split_and!; [done..|]. intros q. rewrite Hf. cbn [files]. rewrite fmap_cons.
  destruct (decide (q ∈ others ∨ q ∈ BloomPath <$> others)); [by rewrite decide_True by set_solver|].
  destruct (decide (q = BloomPath op)) as [->|Hb]; [by rewrite lookup_delete_eq, decide_True by set_solver|].
  rewrite lookup_delete_ne by done. destruct (decide (q = op)) as [->|Ho].
  - by rewrite lookup_delete_eq, decide_True by set_solver.
  - rewrite lookup_delete_ne, decide_False by set_solver. done.
Qed.

Lemma merge_append_done b es d s bytes tokens :
  no_faults d → seg_at d s bytes → Forall storable es → len (bytes ++ segment_bytes es) < 2 ^ 63 →
  ∃ s', merge_append b s tokens es d =
    ((s', if b then tokens ++ segment_tokens es else tokens, true),
     mkDisk (<[f_path (seg_file s) := bytes ++ segment_bytes es]> (files d)) (sched d)) ∧
    is_Some (f_off (seg_file s')).
Proof.
  intros Hn Hat Hs. revert d s bytes tokens Hn Hat.
  induction Hs as [|e es (data & Hm & Hl) Hs IH]; intros d s bytes tokens Hn Hat Hbig.
  - destruct Hat as (Hf & Hoff & _). exists s. cbn. rewrite !app_nil_r, insert_id, Hoff by done.
    destruct b, d; split; eauto.
  - rewrite (segment_bytes_cons e es data Hm), app_assoc in Hbig |- *. cbn [merge_append].
    rewrite Hm. destruct (Segment_Append_done d s data bytes) as (s' & Heq & Hp & Hat');
      [done..|unfold maxRecordSize, MaxUint32 in *; lia| |].
    { unfold len in *. rewrite length_app in Hbig. lia. }
    destruct (IH (mkDisk (<[f_path (seg_file s) := bytes ++ frame data]> (files d)) (sched d)) s' _
      (if b then tokens ++ tokenizeEntry e else tokens) Hn Hat' Hbig) as (s'' & Heq' & Hoff').
    exists s''. split; [|done]. io. rewrite Heq. cbn [fst snd]. rewrite Heq', Hp. io.
    rewrite insert_insert_eq. do 3 f_equal. destruct b; [|done].
    unfold segment_tokens. cbn. by rewrite <- app_assoc.
Qed.

Lemma segment_tokens_nil es : segment_tokens es = [] → es = [].
Proof.
  destruct es as [|e es]; [done|]. unfold segment_tokens, tokenizeEntry. cbn.
  intros E. by apply app_eq_nil in E as [[_ ?]%app_eq_nil _].
Qed.

Lemma segment_tokens_nonempty es : segment_tokens es = [] ↔ es = [].
Proof. split; [apply segment_tokens_nil|by intros ->]. Qed.

Lemma bloom_tmp_eq p q : HasSuffix q ".tmp" = false → p +:+ ".tmp" ≠ q.
Proof. intros Hq <-. by rewrite HasSuffix_app in Hq. Qed.

(** What the filter step of a merge leaves in the manager and on the disk. *)
Lemma finish_merge_done newPath others all c d :
  no_faults d →
  let m := c_manager c in
  let tokens := if bloomEnabled m then segment_tokens all else [] in
  ∃ loaded d', finish_merge newPath others all tokens c d =
      (with_manager (merged_manager newPath others loaded m) (with_idx (add_entries newPath all) c), d') ∧
    no_faults d' ∧ (∀ bf, loaded = Some bf → covers bf all) ∧
    ∀ q, HasSuffix q ".tmp" = false → files d' !! q =
      if decide (q ∈ others ∨ q ∈ BloomPath <$> others) then None
      else if decide (q = BloomPath newPath ∧ bloomEnabled m = true ∧ all ≠ [])
      then Some (WriteTo (segment_bloom all)) else files d !! q.
Proof.
  intros Hn m tokens. unfold finish_merge. fold m.
  assert (∃ r d1 loaded, (if bloomEnabled m && negb (bool_decide (tokens = []))
       then WriteBloom (BloomPath newPath) (BuildBloom tokens (len tokens)) else mret (Ok ())) d = (r, d1) ∧
     (if bloomEnabled m then r ← ReadBloom (BloomPath newPath);
                 mret match r with Ok bf => Some bf | Err _ => None end else mret None) d1 = (loaded, d1) ∧
     no_faults d1 ∧ (∀ bf, loaded = Some bf → covers bf all) ∧
     ∀ q, HasSuffix q ".tmp" = false → files d1 !! q =
       if decide (q = BloomPath newPath ∧ bloomEnabled m = true ∧ all ≠ [])
       then Some (WriteTo (segment_bloom all)) else files d !! q)
    as (r & d1 & loaded & Hw & Hr & Hn1 & Hcov & Hf1).
  { subst tokens. destruct (bloomEnabled m); cbn [andb].
    - case_bool_decide as E; cbn [negb].
      + apply segment_tokens_nil in E as ->. destruct (ReadBloom_quiet d (BloomPath newPath) Hn) as [r Hr].
        eexists _, d, _. split; [done|]. io. rewrite Hr. io. split_and!; try done.
        * intros bf _ e tok He. by apply not_elem_of_nil in He.
        * intros q _. rewrite decide_False; [done|]. tauto.
      + rewrite segment_tokens_nonempty in E.
        rewrite WriteBloom_done by done. eexists _, _, (Some (segment_bloom all)). split; [done|]. io.
        rewrite (ReadBloom_done _ _ (segment_bloom all)) by (done || (cbn [files]; by rewrite lookup_insert_eq)). io.
        split_and!; try done.
        * intros bf [= <-]. apply segment_bloom_covers.
        * intros q Hq. destruct (decide (q = BloomPath newPath)) as [->|Hne].
          -- by rewrite lookup_insert_eq, decide_True.
          -- rewrite lookup_insert_ne, lookup_delete_ne, decide_False; [done|tauto|by apply bloom_tmp_eq|done].
    - eexists _, d, None. split_and!; try done. intros q _. rewrite decide_False; [done|]. naive_solver. }
  io. rewrite Hw. io. rewrite Hr. io.
  destruct (delete_files_done others d1 Hn1) as (d' & -> & Hn' & Hf). io.
  exists loaded, d'. split_and!; try done. intros q Hq. rewrite Hf.
  destruct (decide (q ∈ others ∨ _)); [done|]. by apply Hf1.
Qed.

Lemma tmp_not_seg p : HasSuffix (p +:+ ".tmp") ".seg" = false.
Proof. rewrite HasSuffix_skip by (cbn; lia). done. Qed.

Lemma seg_not_tmp q : HasSuffix q ".seg" = true → HasSuffix q ".tmp" = false.
Proof.
  intros Hq. destruct (HasSuffix q ".tmp") eqn:E; [|done].
  rewrite <- (TrimSuffix_HasSuffix q ".tmp" E), tmp_not_seg in Hq. done.
Qed.

(** The segment files among them. *)
Lemma merged_file_seg newPath others all filters fs q :
  HasSuffix q ".seg" = true →
  merged_file newPath others all filters fs q =
    if decide (q ∈ others) then None
    else if decide (q = newPath) then Some (segment_bytes all) else fs !! q.
Proof.
  intros Hq. assert (∀ p, BloomPath p ≠ q) as Hb by (intros p; by apply bloom_ne_seg).
  unfold merged_file. destruct (decide (q ∈ others)).
  - by rewrite decide_True by tauto.
  - rewrite decide_False by (intros [?|(p & -> & _)%list_elem_of_fmap]; [done|]; by apply (Hb p)).
    destruct (decide (q = newPath)); [done|]. rewrite decide_False; [done|]. intros (-> & _). by eapply Hb.
Qed.

(** A fault-free merge, up to the state it leaves. *)
Lemma mergeRun_done newPath others c d idx all :
  no_faults d → c_idx c = Some idx → holds_all (files d) (newPath :: others) all →
  (∀ p, p ∈ newPath :: others → HasSuffix p ".seg" = true) → len (segment_bytes all) < 2 ^ 63 →
  Forall storable all →
  ∃ loaded d', mergeRun newPath others c d =
      (mkCompactor (merged_manager newPath others loaded (c_manager c))
         (Some (add_entries newPath all (remove_segments (newPath :: others) idx))) (c_cfg c), d') ∧
    no_faults d' ∧ (∀ bf, loaded = Some bf → covers bf all) ∧
    ∀ q, HasSuffix q ".tmp" = false →
      files d' !! q = merged_file newPath others all (bloomEnabled (c_manager c)) (files d) q.
Proof.
  intros Hn Hidx Hall Hseg Hbig Hst. unfold mergeRun. io.
  rewrite (ReadSegments_holds_all d _ all) by done. io. set (tmp := newPath +:+ ".tmp").
  destruct (os_Remove_done d tmp Hn) as (r & ->). io.
  rewrite (OpenSegment_done (mkDisk (delete tmp (files d)) (sched d)) tmp Hn). cbn [files sched].
  rewrite lookup_delete_eq. cbn [from_option]. unfold id. io.
  destruct (merge_append_done (bloomEnabled (c_manager c)) all
    (mkDisk (<[tmp := []]> (delete tmp (files d))) (sched d)) (mkSegment (mkFile tmp 0) 0) [] [])
    as (s' & Happ & [off Hoff]); [done|by split; [cbn; by rewrite lookup_insert_eq|]|done|done|].
  change (len (@nil byte)) with 0 in *. change (length (@nil byte)) with 0%nat in *.
  rewrite Happ. io. rewrite (Segment_Close_done _ s' off) by done. io. cbn [negb].
  unfold os_Rename. io. cbn [seg_file f_path]. rewrite lookup_insert_eq. io.
  set (d4 := mkDisk (<[newPath := _]> _) _).
  destruct (finish_merge_done newPath others all (with_idx (remove_segments (newPath :: others)) c) d4 Hn)
    as (loaded & d' & Hfin & Hn' & Hcov & Hf).
  exists loaded, d'. cbn [c_manager with_idx] in Hfin. cbn [app]. rewrite Hfin. split.
  { unfold with_manager, with_idx. cbn [c_manager c_idx c_cfg]. by rewrite Hidx. }
  split; [done|]. split; [done|]. intros q Hq. rewrite Hf by done. unfold merged_file.
  destruct (decide (q ∈ others ∨ _)); [done|]. subst d4. cbn [files app c_manager with_idx]. destruct (decide (q = newPath)) as [->|Hne].
  - rewrite decide_False by (intros (E & _); assert (newPath ∈ newPath :: others) as Hin by set_solver;
      apply Hseg in Hin; rewrite E in Hin; by rewrite bloom_path_not_seg in Hin).
    by rewrite lookup_insert_eq.
  - destruct (decide (_ ∧ _ ∧ _)); [done|]. rewrite lookup_insert_ne by done.
    rewrite lookup_delete_ne by (by apply bloom_tmp_eq). rewrite !lookup_insert_ne by (by apply bloom_tmp_eq).
    by rewrite lookup_delete_ne by (by apply bloom_tmp_eq).
Qed.

(** ** Lemmas: the invariant *)

Lemma closed_iff m d p :
  mgr_ok m d → p ∈ ListClosedSegments m ↔ p ∈ paths m ∧ last (paths m) ≠ Some p.
Proof.
  intros Hok. destruct (ok_active _ _ Hok) as (seg & b & _ & Hl & _). pose proof (ok_nodup _ _ Hok) as Hnd.
  unfold ListClosedSegments. apply last_Some in Hl as Hps. destruct Hps as [ps Hps]. rewrite Hl, Hps in *.
  rewrite length_app. cbn [length]. replace (length ps + 1 - 1)%nat with (length ps) by lia.
  rewrite take_app_length. apply NoDup_app in Hnd as (_ & Hd & _).
  destruct ps as [|q ps]; cbn [app length].
  - rewrite decide_True by lia. set_solver.
  - rewrite decide_False by lia. set_solver.
Qed.

Lemma closed_spec m d p :
  mgr_ok m d → p ∈ ListClosedSegments m → p ∈ paths m ∧ last (paths m) ≠ Some p.
Proof. intros Hok. by apply closed_iff with d. Qed.

Lemma fold_delete_lookup {A} (others : list string) (b : gmap string A) p :
  foldl (λ b op, delete op b) b others !! p = if decide (p ∈ others) then None else b !! p.
Proof.
  revert b. induction others as [|o others IH]; intros b; cbn [foldl]; [done|]. rewrite IH.
  destruct (decide (p ∈ others)); [by rewrite decide_True by set_solver|].
  destruct (decide (p = o)) as [->|Hne].
  - by rewrite lookup_delete_eq, decide_True by set_solver.
  - by rewrite lookup_delete_ne, decide_False by set_solver.
Qed.

Lemma remove_segments_represents idx l ps :
  Represents idx l → Represents (remove_segments ps idx) (filter (λ x, x.2 ∉ ps) l).
Proof.
  revert idx l. induction ps as [|p ps IH]; intros idx l Hr; cbn [remove_segments foldl].
  - eapply Represents_ext; [|exact Hr]. intros x. rewrite list_elem_of_filter. set_solver.
  - eapply Represents_ext; [|apply IH, RemoveSegment_represents, Hr]. intros x.
    rewrite !list_elem_of_filter. set_solver.
Qed.

Lemma merged_manager_fields newPath others loaded m :
  let m' := merged_manager newPath others loaded m in
  active m' = active m ∧ paths m' = filter (λ p, p ∉ others) (paths m) ∧
  mdir m' = mdir m ∧ nextSeq m' = nextSeq m ∧ bloomEnabled m' = bloomEnabled m ∧
  blooms m' = if bloomEnabled m then
    let bl := delete newPath (foldl (λ b op, delete op b) (blooms m) others) in
    match loaded with Some bf => <[newPath := bf]> bl | None => bl end
  else blooms m.
Proof. unfold merged_manager. cbn [bloomEnabled with_paths]. destruct (bloomEnabled m) eqn:E; cbn; by rewrite ?E. Qed.

Lemma last_filter_keep {A} (P : A → Prop) `{∀ x, Decision (P x)} (l : list A) a :
  last l = Some a → P a → last (filter P l) = Some a.
Proof.
  intros [l' ->]%last_Some Ha. rewrite filter_app, filter_cons, decide_True by done. apply last_snoc.
Qed.

(** The disk facts a merge establishes, and what follows from them. *)
Section merged.
Context (m : Manager) (idx : Index) (d d' : Disk) (segs : gmap string (list LogEntry)).
Context (newPath : string) (others : list string) (all : list LogEntry) (loaded : option BloomFilter).
Context (Hinv : store_inv m idx d segs).
Context (Hnd : NoDup (newPath :: others)).
Context (Hclosed : ∀ p, p ∈ newPath :: others → p ∈ ListClosedSegments m).
Context (Hall : holds_all (files d) (newPath :: others) all) (Hst : Forall storable all).
Context (Hcov : ∀ bf, loaded = Some bf → covers bf all).
Context (Hbl : bloomEnabled m = true ∨ blooms m = ∅).
Context (Hmerged : ∀ q, HasSuffix q ".tmp" = false →
  files d' !! q = merged_file newPath others all (bloomEnabled m) (files d) q).

Lemma merged_segment_files q : HasSuffix q ".seg" = true → files d' !! q =
  if decide (q ∈ others) then None
  else if decide (q = newPath) then Some (segment_bytes all) else files d !! q.
Proof. intros Hq. rewrite Hmerged by (by apply seg_not_tmp). by apply merged_file_seg. Qed.

Lemma merged_mgr_ok : mgr_ok (merged_manager newPath others loaded m) d'.
Proof.
  pose proof (si_mgr _ _ _ _ Hinv) as Hok. pose proof Hok as [(seg & b & Ha & Hl & Hat) Hnp Hf Hfr Hsq Hnm Hb].
  destruct (merged_manager_fields newPath others loaded m) as (Ea & Ep & Ed & En & _ & Eb).
  assert (∀ p, p ∈ newPath :: others → p ∈ paths m ∧ last (paths m) ≠ Some p) as Hcl
    by (intros p Hp; eapply closed_spec; eauto).
  apply NoDup_cons in Hnd as [Hnew _].
  assert (holds (segment_bytes all) all) as Hh by (by apply holds_segment_bytes).
  assert (newPath ∈ paths m ∧ last (paths m) ≠ Some newPath) as [Hnewp Hnewl] by (apply Hcl; set_solver).
  assert (∀ q, q ∉ newPath :: others → HasSuffix q ".seg" = true → files d' !! q = files d !! q) as Hsame.
  { intros q Hq Hseg. rewrite merged_segment_files by done. by rewrite !decide_False by set_solver. }
  assert (files d' !! newPath = Some (segment_bytes all)) as Hnewf.
  { rewrite merged_segment_files by auto. by rewrite decide_False, decide_True. }
  split; rewrite ?Ea, ?Ep, ?Ed, ?En.
  - assert (f_path (seg_file seg) ∉ newPath :: others) as Hact by (intros Hin%Hcl; naive_solver).
    exists seg, b. split; [done|]. split; [apply last_filter_keep; [done|set_solver]|].
    destruct Hat as (Hfile & Hrest). split; [|done]. rewrite Hsame; [done..|]. apply Hnm. by apply last_Some_elem_of.
  - by apply NoDup_filter.
  - intros p [Hpo Hp]%list_elem_of_filter. destruct (decide (p = newPath)) as [->|Hne]; [eauto|].
    rewrite Hsame; [by apply Hf|set_solver|by apply Hnm].
  - intros n Hn. destruct (Hfr n Hn) as [Hfr1 Hfr2].
    split; [by intros [_ ?]%list_elem_of_filter|]. rewrite Hsame; [done| |apply seq_path_seg].
    intros Hin%Hcl. by destruct Hin.
  - done.
  - intros p [_ Hp]%list_elem_of_filter. by apply Hnm.
  - intros p bf Hbf. rewrite Eb in Hbf.
    assert (blooms m !! p = Some bf → p ∉ newPath :: others → p ∈ filter (λ p, p ∉ others) (paths m) ∧
      last (filter (λ p, p ∉ others) (paths m)) ≠ Some p ∧
      ∃ bytes es, files d' !! p = Some bytes ∧ holds bytes es ∧ covers bf es) as Hold.
    { intros Hm Hp. destruct (Hb p bf Hm) as (Hpp & Hlast & Hc).
      split; [apply list_elem_of_filter; set_solver|]. split.
      - rewrite (last_filter_keep _ _ (f_path (seg_file seg)) Hl); [congruence|].
        intros Hin. destruct (Hcl (f_path (seg_file seg))); [set_solver|done].
      - rewrite Hsame; [done..|by apply Hnm]. }
    destruct (bloomEnabled m) eqn:Ebe.
    + destruct (decide (p = newPath)) as [->|Hne].
      * destruct loaded as [bf'|]; [|by rewrite lookup_delete_eq in Hbf].
        rewrite lookup_insert_eq in Hbf. injection Hbf as ->.
        split; [by apply list_elem_of_filter|].
        split; [|exists (segment_bytes all), all; split_and!; auto].
        rewrite (last_filter_keep _ _ (f_path (seg_file seg)) Hl); [congruence|].
        intros Hin. destruct (Hcl (f_path (seg_file seg))); [set_solver|done].
      * assert (foldl (λ b op, delete op b) (blooms m) others !! p = Some bf) as Hlook.
        { destruct loaded; rewrite ?lookup_insert_ne, lookup_delete_ne in Hbf by done; done. }
        rewrite fold_delete_lookup in Hlook. case_decide as Hpo; [done|].
        apply Hold; [done|set_solver].
    + destruct Hbl as [?|Hempty]; [done|]. by rewrite Hempty, lookup_empty in Hbf.
Qed.

Lemma merged_segs_lookup p :
  merged_segs newPath others all segs !! p =
    if decide (p = newPath) then Some all else if decide (p ∈ others) then None else segs !! p.
Proof.
  unfold merged_segs. destruct (decide (p = newPath)) as [->|Hne]; [by rewrite lookup_insert_eq|].
  rewrite lookup_insert_ne by done. destruct (decide (p ∈ others)).
  - apply map_lookup_filter_None. right. intros x _. cbn. by intros ?.
  - destruct (segs !! p) as [es|] eqn:E.
    + by apply map_lookup_filter_Some.
    + apply map_lookup_filter_None. by left.
Qed.

(** The entries merged are those of the run. *)
Lemma merged_elem x :
  x ∈ all ↔ ∃ p es, p ∈ newPath :: others ∧ segs !! p = Some es ∧ x ∈ es.
Proof.
  destruct (pruned_holds idx m d segs (newPath :: others)) as (raw & Hraw & Helem).
  - by apply store_inv_ok.
  - intros p Hp. apply (si_dom _ _ _ _ Hinv). by eapply closed_spec; [apply (si_mgr _ _ _ _ Hinv)|apply Hclosed].
  - by rewrite (holds_all_inj _ _ _ _ Hall Hraw).
Qed.

Lemma merged_entries x :
  x ∈ entries_of (merged_segs newPath others all segs) ↔ x ∈ entries_of segs.
Proof.
  rewrite !elem_of_entries_of. setoid_rewrite merged_segs_lookup. split.
  - intros (p & es & Hp & Hx). destruct (decide (p = newPath)).
    + injection Hp as <-. apply merged_elem in Hx as (q & es & _ & ? & ?). eauto.
    + destruct (decide (p ∈ others)); [done|]. eauto.
  - intros (p & es & Hp & Hx). destruct (decide (p ∈ newPath :: others)) as [Hin|Hin].
    + exists newPath, all. rewrite decide_True by done. split; [done|]. apply merged_elem. eauto.
    + exists p, es. by rewrite !decide_False by set_solver.
Qed.

Lemma merged_inv :
  store_inv (merged_manager newPath others loaded m)
    (add_entries newPath all (remove_segments (newPath :: others) idx)) d'
    (merged_segs newPath others all segs).
Proof.
  pose proof (si_mgr _ _ _ _ Hinv) as Hok.
  destruct (merged_manager_fields newPath others loaded m) as (_ & Ep & _).
  assert (newPath ∈ paths m) as Hnewp by (eapply closed_spec; [done|]; apply Hclosed; set_solver).
  assert (newPath ∉ others) as Hnew by (by apply NoDup_cons in Hnd as [? _]).
  split.
  - apply merged_mgr_ok.
  - intros p. rewrite Ep, merged_segs_lookup, list_elem_of_filter, <- (si_dom _ _ _ _ Hinv).
    destruct (decide (p = newPath)) as [->|Hne].
    + split; [|by eauto]. intros _. split; [done|]. by apply (si_dom _ _ _ _ Hinv).
    + destruct (decide (p ∈ others)); [|naive_solver]. split; [by intros []|naive_solver].
  - intros p es. rewrite merged_segs_lookup. intros Hp.
    destruct (decide (p = newPath)) as [->|Hne].
    + injection Hp as <-. exists (segment_bytes all). split; [|by apply holds_segment_bytes].
      rewrite merged_segment_files by (by apply (ok_names _ _ Hok)). by rewrite decide_False, decide_True.
    + destruct (decide (p ∈ others)) as [|Hpo]; [done|].
      rewrite merged_segment_files; [rewrite !decide_False by done; by apply (si_files _ _ _ _ Hinv)|].
      apply (ok_names _ _ Hok). apply (si_dom _ _ _ _ Hinv). eauto.
  - eapply Represents_ext;
      [|apply add_entries_represents, remove_segments_represents, (si_index _ _ _ _ Hinv)].
    intros [x p]. rewrite elem_of_app, list_elem_of_filter, !elem_of_pairs_of.
    unfold tagged. rewrite list_elem_of_fmap, merged_segs_lookup. cbn [snd].
    destruct (decide (p = newPath)) as [->|Hne].
    + split.
      * intros [[Hn _]|(y & [= <-] & Hy)]; [set_solver|]. eauto.
      * intros (es & [= <-] & Hx). right. eauto.
    + destruct (decide (p ∈ others)); [|naive_solver set_solver].
      split; [|by intros (? & ? & _)]. intros [[Hn _]|(y & [= ? ?] & _)]; [set_solver|done].
Qed.

(** The directory stays in step as well. *)
Lemma merged_dir : dir_ok m d → dir_ok (merged_manager newPath others loaded m) d'.
Proof.
  intros [Dp (n & Dn & Dl & Dm) Ds Dsd Db]. pose proof (si_mgr _ _ _ _ Hinv) as Hok.
  destruct (merged_manager_fields newPath others loaded m) as (_ & Ep & Ed & _ & Ee & Eb).
  assert (∀ p, p ∈ newPath :: others → p ∈ paths m ∧ last (paths m) ≠ Some p) as Hcl
    by (intros p Hp; eapply closed_spec; eauto).
  assert (∀ p, p ∈ newPath :: others → HasSuffix p ".seg" = true) as Hseg.
  { intros p Hp. apply (ok_names _ _ Hok). by apply Hcl. }
  assert (newPath ∉ others) as Hnew by (by apply NoDup_cons in Hnd as [? _]).
  assert (last (filter (λ p, p ∉ others) (paths m)) = Some (seq_path (mdir m) n)) as Hlast.
  { apply last_filter_keep; [done|]. intros Hin. destruct (Hcl (seq_path (mdir m) n)); [set_solver|done]. }
  assert (∀ q, HasSuffix q ".seg" = false → HasSuffix q ".tmp" = false → (∀ p, BloomPath p ≠ q) →
    files d' !! q = files d !! q) as Hother.
  { intros q Hq1 Hq2 Hq3. rewrite Hmerged by done. unfold merged_file.
    rewrite decide_False by (intros [Hin|(p & -> & _)%list_elem_of_fmap];
      [rewrite Hseg in Hq1 by set_solver; done|by apply (Hq3 p)]).
    rewrite decide_False by (intros ->; rewrite Hseg in Hq1 by set_solver; done).
    rewrite decide_False; [done|]. intros (-> & _). by apply (Hq3 newPath). }
  assert (∀ p, HasSuffix p ".seg" = true → files d' !! BloomPath p =
    if decide (p ∈ others) then None
    else if decide (p = newPath ∧ bloomEnabled m = true ∧ all ≠ [])
    then Some (WriteTo (segment_bloom all)) else files d !! BloomPath p) as Hside.
  { intros p Hp. rewrite Hmerged.
    2: { unfold BloomPath. by rewrite HasSuffix_skip by (cbn; lia). }
    assert (∀ q, q ∈ newPath :: others → BloomPath p ≠ q) as Hnb by (intros q Hq; apply bloom_ne_seg; auto).
    unfold merged_file. destruct (decide (p ∈ others)).
    { rewrite decide_True by (right; by apply list_elem_of_fmap_2). done. }
    rewrite decide_False.
    2: { intros [Hin|(q & E & Hq)%list_elem_of_fmap]; [apply (Hnb (BloomPath p)); set_solver|].
         apply BloomPath_inj in E; [|done|apply Hseg; set_solver]. by subst. }
    rewrite decide_False by (apply Hnb; set_solver).
    destruct (decide (p = newPath ∧ _)) as [(-> & ?)|Hno]; [by rewrite decide_True|].
    rewrite decide_False; [done|]. intros (E & ?). apply Hno. split; [|done].
    apply BloomPath_inj; [done|apply Hseg; set_solver|done]. }
  split; rewrite ?Ep, ?Ed, ?Ee.
  - intros p. rewrite list_elem_of_filter, Dp. split.
    + intros (Hp & Hin & Hex). split; [done|]. rewrite merged_segment_files by (by eapply in_dir_seg_suffix).
      rewrite decide_False by done. destruct (decide (p = newPath)); [by eexists|done].
    + intros (Hin & Hex). rewrite merged_segment_files in Hex by (by eapply in_dir_seg_suffix).
      destruct (decide (p ∈ others)); [by destruct Hex|]. split; [done|]. split; [done|].
      destruct (decide (p = newPath)) as [->|]; [|done]. apply Dp, Hcl. set_solver.
  - exists n. split; [done|]. split; [done|]. rewrite Hother; [done|..].
    + unfold marker_path. by rewrite marker_not_seg.
    + apply marker_suffix.
    + intros p. apply not_eq_sym, marker_not_bloom.
  - intros p k [_ Hp]%list_elem_of_filter. by apply Ds.
  - intros p fb bf Hp. rewrite Hside by (by eapply in_dir_seg_suffix). rewrite Hlast, list_elem_of_filter.
    destruct (decide (p ∈ others)); [done|]. intros Hfb Hr.
    rewrite merged_segment_files by (by eapply in_dir_seg_suffix). rewrite decide_False by done.
    destruct (decide (p = newPath)) as [->|Hne].
    + destruct (Hcl newPath) as [Hin Hl]; [set_solver|]. split; [done|]. split; [congruence|].
      exists (segment_bytes all), all. split; [done|]. split; [by apply holds_segment_bytes|].
      destruct (decide (all = [])) as [->|Hall0]; [by intros e tok He%not_elem_of_nil|].
      destruct Db as [Hbt|[_ Hnone]].
      * rewrite decide_True in Hfb by done. injection Hfb as <-. rewrite ReadFrom_WriteTo in Hr.
        injection Hr as <-. apply segment_bloom_covers.
      * destruct (decide (_ ∧ _)) in Hfb; [|rewrite Hnone in Hfb; done].
        injection Hfb as <-. rewrite ReadFrom_WriteTo in Hr. injection Hr as <-. apply segment_bloom_covers.
    + rewrite decide_False in Hfb by naive_solver. destruct (Dsd p fb bf Hp Hfb Hr) as (Hin & Hl & Hc).
      split; [done|]. split; [congruence|done].
  - destruct Db as [?|[Hb0 Hnone]]; [by left|]. destruct (bloomEnabled m) eqn:Hbe; [by left|right].
    split; [by rewrite Eb|]. intros p Hp. rewrite Hside by (by eapply in_dir_seg_suffix).
    destruct (decide (p ∈ others)); [done|]. rewrite decide_False by naive_solver. by apply Hnone.
Qed.
End merged.

Lemma holds_all_storable fs ps all : holds_all fs ps all → Forall storable all.
Proof.
  induction 1 as [|p ps es Hp Hh IH|p ps bytes es es' Hp Hb Hh IH]; [done|done|].
  apply Forall_app. split; [|done]. by apply holds_segment_bytes in Hb as [? _].
Qed.

(** Answers depend only on which entries are stored. *)
Lemma answer_ext q ast all all' took :
  id_consistent all → (∀ x, x ∈ all' ↔ x ∈ all) → answer q ast all' took = answer q ast all took.
Proof.
  intros Hc Heq. unfold answer, scan.
  rewrite (ranked_ext (filter _ all') (filter (λ e, entry_matches q ast e = true) all)); [done| | |].
  - intros a b [_ ?]%list_elem_of_filter [_ ?]%list_elem_of_filter. apply Hc; by apply Heq.
  - intros a b [_ ?]%list_elem_of_filter [_ ?]%list_elem_of_filter. by apply Hc.
  - intros x. by rewrite !list_elem_of_filter, Heq.
Qed.

(** ** Lemmas: deleting a segment *)

Lemma DeleteSegment_inv m idx d segs path d' :
  store_inv m idx d segs → path ∈ paths m → last (paths m) ≠ Some path →
  (∀ q, HasSuffix q ".seg" = true → files d' !! q = if decide (q = path) then None else files d !! q) →
  store_inv (DeleteSegment m path) (RemoveSegment path idx) d' (delete path segs).
Proof.
  intros [Hok Hdom Hsf Hi] Hin Hlast Hf. pose proof Hok as [(seg & b & Ha & Hl & Hat) Hnd Hfl Hfr Hsq Hnm Hb].
  assert (∀ q, q ≠ path → HasSuffix q ".seg" = true → files d' !! q = files d !! q) as Hsame.
  { intros q Hq Hseg. by rewrite Hf, decide_False. }
  split.
  - split; cbn [active paths nextSeq mdir blooms DeleteSegment with_blooms with_paths].
    + exists seg, b. split; [done|]. split; [apply last_filter_keep; [done|]; congruence|].
      destruct Hat as (Hfile & Hrest). split; [|done].
      rewrite Hsame; [done|congruence|]. apply Hnm. by apply last_Some_elem_of.
    + by apply NoDup_filter.
    + intros p [Hp Hpp]%list_elem_of_filter. rewrite Hsame; [by apply Hfl|done|by apply Hnm].
    + intros n Hn. destruct (Hfr n Hn) as [H1' H2']. split; [by intros [_ ?]%list_elem_of_filter|].
      rewrite Hsame; [done| |apply seq_path_seg]. intros E. apply H1'. by rewrite E.
    + done.
    + intros p [_ Hp]%list_elem_of_filter. by apply Hnm.
    + intros p bf [Hne Hbf]%lookup_delete_Some. destruct (Hb p bf Hbf) as (Hp & Hpl & Hc).
      split; [by apply list_elem_of_filter|]. split.
      * rewrite (last_filter_keep _ _ _ Hl) by congruence. congruence.
      * rewrite Hsame; [done|done|by apply Hnm].
  - intros p. cbn [paths DeleteSegment with_blooms with_paths]. rewrite list_elem_of_filter, <- Hdom.
    destruct (decide (p = path)) as [->|Hne].
    + rewrite lookup_delete_eq. split; [by intros []|naive_solver].
    + rewrite lookup_delete_ne by done. naive_solver.
  - intros p es [Hne Hp]%lookup_delete_Some. rewrite Hsame; [by apply Hsf|done|].
    apply Hnm, Hdom. eauto.
  - eapply Represents_ext; [|by apply RemoveSegment_represents]. intros [x p].
    rewrite list_elem_of_filter, !elem_of_pairs_of. cbn [snd]. setoid_rewrite lookup_delete_Some. naive_solver.
Qed.

Lemma DeleteSegment_dir m d path :
  mgr_ok m d → dir_ok m d → path ∈ paths m → last (paths m) ≠ Some path →
  dir_ok (DeleteSegment m path) (mkDisk (delete (BloomPath path) (delete path (files d))) (sched d)).
Proof.
  intros Hok [Dp (n & Dn & Dl & Dm) Ds Dsd Db] Hin Hl.
  pose proof (ok_names _ _ Hok path Hin) as Hseg.
  assert (last (filter (λ p, p ≠ path) (paths m)) = Some (seq_path (mdir m) n)) as Hlast.
  { apply last_filter_keep; [done|]. congruence. }
  assert (∀ p, HasSuffix p ".seg" = true →
    delete (BloomPath path) (delete path (files d)) !! p
    = if decide (p = path) then None else files d !! p) as Hsegs.
  { intros p Hp. rewrite lookup_delete_ne by (by apply bloom_ne_seg).
    destruct (decide (p = path)) as [->|]; [apply lookup_delete_eq|by rewrite lookup_delete_ne]. }
  assert (∀ p, HasSuffix p ".seg" = true →
    delete (BloomPath path) (delete path (files d)) !! BloomPath p
    = if decide (p = path) then None else files d !! BloomPath p) as Hside.
  { intros p Hp. destruct (decide (p = path)) as [->|Hne]; [apply lookup_delete_eq|].
    rewrite lookup_delete_ne by (intros E%BloomPath_inj; by auto).
    by rewrite lookup_delete_ne by (by apply not_eq_sym, bloom_ne_seg). }
  split; cbn [paths mdir bloomEnabled blooms files DeleteSegment with_blooms with_paths].
  - intros p. rewrite list_elem_of_filter, Dp. split.
    + intros (Hp & Hp1 & Hp2). split; [done|]. rewrite Hsegs by (by eapply in_dir_seg_suffix).
      by rewrite decide_False.
    + intros [Hp1 Hp2]. rewrite Hsegs in Hp2 by (by eapply in_dir_seg_suffix).
      destruct (decide (p = path)); [by destruct Hp2|done].
  - exists n. split; [done|]. split; [done|]. rewrite lookup_delete_ne by (apply not_eq_sym, marker_not_bloom).
    by rewrite lookup_delete_ne by (by apply not_eq_sym, marker_ne_seg).
  - intros p k [_ Hp]%list_elem_of_filter. by apply Ds.
  - intros p fb bf Hp. rewrite Hside, Hsegs by (by eapply in_dir_seg_suffix).
    rewrite Hlast, <- Dl, list_elem_of_filter. destruct (decide (p = path)); [done|].
    intros Hfb Hr. destruct (Dsd p fb bf Hp Hfb Hr) as (? & ? & ?). done.
  - destruct Db as [?|[Hb0 Hno]]; [by left|right]. split; [by rewrite Hb0, delete_empty|].
    intros p Hp. rewrite Hside by (by eapply in_dir_seg_suffix). destruct (decide (p = path)); [done|by apply Hno].
Qed.

Lemma max_timestamp_ge es acc e :
  acc ≤ foldl (λ maxTS e, if maxTS <? Timestamp e then Timestamp e else maxTS) acc es ∧
  (e ∈ es → Timestamp e ≤ foldl (λ maxTS e, if maxTS <? Timestamp e then Timestamp e else maxTS) acc es).
Proof.
  revert acc. induction es as [|x es IH]; intros acc; cbn [foldl]; [split; [done|by intros ?%not_elem_of_nil]|].
  destruct (IH (if acc <? Timestamp x then Timestamp x else acc)) as [H1' H2'].
  destruct (Z.ltb_spec acc (Timestamp x)); (split; [lia|]); intros [->|Hx]%elem_of_cons; auto; lia.
Qed.

(** The retention loop keeps the store in step and everything recent. *)
Lemma retention_loop_inv cutoff closed c d idx segs :
  no_faults d → c_idx c = Some idx → store_inv (c_manager c) idx d segs → NoDup closed →
  (∀ p, p ∈ closed → p ∈ paths (c_manager c) ∧ last (paths (c_manager c)) ≠ Some p) →
  ∃ c' d' idx' segs', retention_loop cutoff closed c d = (c', d') ∧ no_faults d' ∧ c_idx c' = Some idx' ∧
    store_inv (c_manager c') idx' d' segs' ∧ segs' ⊆ segs ∧
    (dir_ok (c_manager c) d → dir_ok (c_manager c') d') ∧
    bloomEnabled (c_manager c') = bloomEnabled (c_manager c) ∧ mdir (c_manager c') = mdir (c_manager c) ∧
    ∀ p es, segs !! p = Some es → segs' !! p = None → ∀ e, e ∈ es → Timestamp e < cutoff.
Proof.
  revert c d idx segs. induction closed as [|path closed IH]; intros c d idx segs Hn Hidx Hinv Hnd Hcl;
    cbn [retention_loop].
  { exists c, d, idx, segs. split_and!; try done. intros p es Hp Hp'. congruence. }
  apply NoDup_cons in Hnd as [Hnp Hnd].
  destruct (Hcl path) as [Hpath Hlast]; [set_solver|].
  destruct (proj2 (si_dom _ _ _ _ Hinv path) Hpath) as [es Hes].
  destruct (si_files _ _ _ _ Hinv path es Hes) as (bytes & Hf & Hh).
  assert (holds_all (files d) [path] es) as Hone.
  { rewrite <- (app_nil_r es). eapply holds_all_cons; [done|done|constructor]. }
  io. rewrite (ReadSegments_holds_all d _ es) by done. io.
  destruct ((0 <? max_timestamp es) && (max_timestamp es <? cutoff)) eqn:Hold.
  2: { apply (IH c d idx segs); try done. intros p Hp. apply Hcl. set_solver. }
  apply andb_true_iff in Hold as [_ Hold%Z.ltb_lt]. io.
  destruct (os_Remove_done d path Hn) as (r & ->). io.
  destruct (os_Remove_done (mkDisk (delete path (files d)) (sched d)) (BloomPath path) Hn) as (r' & ->). io.
  set (d1 := mkDisk (delete (BloomPath path) (delete path (files d))) (sched d)).
  assert (store_inv (DeleteSegment (c_manager c) path) (RemoveSegment path idx) d1 (delete path segs)) as Hinv1.
  { apply (DeleteSegment_inv _ _ d); try done. intros q Hq. subst d1. cbn [files].
    rewrite lookup_delete_ne by (intros <-; by rewrite bloom_path_not_seg in Hq).
    destruct (decide (q = path)) as [->|Hne]; [by rewrite lookup_delete_eq|by rewrite lookup_delete_ne]. }
  destruct (IH (with_idx (RemoveSegment path) (with_manager (DeleteSegment (c_manager c) path) c)) d1
    (RemoveSegment path idx) (delete path segs)) as (c' & d' & idx' & segs' & Hrun & Hn' & Hi' & Hinv' & Hsub & Hdir & Hbe & Hmd & Hdel).
  - done.
  - cbn [c_idx with_idx with_manager]. by rewrite Hidx.
  - done.
  - done.
  - intros p Hp. destruct (Hcl p) as [Hp1 Hp2]; [set_solver|].
    cbn [c_manager with_idx with_manager paths DeleteSegment with_blooms with_paths].
    split; [apply list_elem_of_filter; set_solver|].
    destruct (last (paths (c_manager c))) as [a|] eqn:Hla.
    + rewrite (last_filter_keep _ _ a); [congruence|done|congruence].
    + apply last_None in Hla. rewrite Hla in Hpath. by apply not_elem_of_nil in Hpath.
  - exists c', d', idx', segs'. split_and!; try done.
    + etrans; [exact Hsub|]. apply delete_subseteq.
    + intros Hd. apply Hdir. subst d1. cbn [c_manager with_idx with_manager].
      apply DeleteSegment_dir; try done. apply (si_mgr _ _ _ _ Hinv).
    + intros p es' Hp Hgone e He. destruct (decide (p = path)) as [->|Hne].
      * rewrite Hes in Hp. injection Hp as <-. destruct (max_timestamp_ge es 0 e) as [_ Hge].
        specialize (Hge He). unfold max_timestamp in Hold. lia.
      * apply (Hdel p es'); [by rewrite lookup_delete_ne|done|done].
Qed.

(** ** Lemmas: a merge pass *)

(** One merge with everything that a pass needs of it. *)
Lemma mergeRun_ok newPath others c d idx segs :
  no_faults d → c_idx c = Some idx → store_inv (c_manager c) idx d segs → dir_ok (c_manager c) d →
  NoDup (newPath :: others) → (∀ p, p ∈ newPath :: others → p ∈ ListClosedSegments (c_manager c)) →
  (∀ all, holds_all (files d) (newPath :: others) all → len (segment_bytes all) < 2 ^ 63) →
  ∃ c' d' idx' segs', mergeRun newPath others c d = (c', d') ∧ no_faults d' ∧ c_idx c' = Some idx' ∧
    store_inv (c_manager c') idx' d' segs' ∧ dir_ok (c_manager c') d' ∧ c_cfg c' = c_cfg c ∧
    (∀ x, x ∈ entries_of segs' ↔ x ∈ entries_of segs) ∧
    paths (c_manager c') = filter (λ p, p ∉ others) (paths (c_manager c)) ∧
    mdir (c_manager c') = mdir (c_manager c) ∧
    bloomEnabled (c_manager c') = bloomEnabled (c_manager c).
Proof.
  intros Hn Hidx Hinv Hd Hnd Hcl Hsize. pose proof (si_mgr _ _ _ _ Hinv) as Hok.
  destruct (pruned_holds idx (c_manager c) d segs (newPath :: others)) as (all & Hall & _).
  { by apply store_inv_ok. }
  { intros p Hp. apply (si_dom _ _ _ _ Hinv). eapply closed_spec; eauto. }
  assert (∀ p, p ∈ newPath :: others → HasSuffix p ".seg" = true) as Hseg.
  { intros p Hp. apply (ok_names _ _ Hok). eapply closed_spec; eauto. }
  pose proof (holds_all_storable _ _ _ Hall) as Hst.
  assert (bloomEnabled (c_manager c) = true ∨ blooms (c_manager c) = ∅) as Hbl
    by (destruct (dir_bloom _ _ Hd) as [?|[? _]]; auto).
  destruct (mergeRun_done newPath others c d idx all Hn Hidx Hall Hseg (Hsize all Hall) Hst)
    as (loaded & d' & Hrun & Hn' & Hcov & Hf).
  destruct (merged_manager_fields newPath others loaded (c_manager c)) as (_ & Ep & Ed & _ & Ee & _).
  eexists _, d', _, (merged_segs newPath others all segs). split; [exact Hrun|].
  split_and!; try done.
  - by eapply merged_inv.
  - by eapply merged_dir.
  - intros x. by eapply merged_entries.
Qed.

(** The size of merged content. *)
Lemma merged_size fs ps all thr :
  holds_all fs ps all → (∀ p, p ∈ ps → ∃ bytes, fs !! p = Some bytes ∧ len bytes < thr) → 0 ≤ thr →
  len (segment_bytes all) ≤ Z.of_nat (length ps) * thr.
Proof.
  intros Hall. induction Hall as [|p ps es Hp _ _|p ps bytes es es' Hp Hh _ IH]; intros Hb Hthr.
  - unfold len. cbn. lia.
  - destruct (Hb p) as (b & Hp' & _); [set_solver|]. congruence.
  - destruct (Hb p) as (b & Hp' & Hlt); [set_solver|]. rewrite Hp in Hp'. injection Hp' as <-.
    apply holds_segment_bytes in Hh as [_ ->].
    specialize (IH ltac:(intros; apply Hb; set_solver) Hthr).
    unfold segment_bytes in *. rewrite bind_app. unfold len in *. rewrite length_app.
    cbn [length]. lia.
Qed.

(** A state of the pass: what has been collected in [run], what is left in [closed]. *)
Definition pass_state (thr : Z) (run closed : list string) (m : Manager) (d : Disk) : Prop :=
  NoDup (run ++ closed) ∧
  (∀ p, p ∈ run ++ closed → p ∈ paths m ∧ last (paths m) ≠ Some p) ∧
  (∀ p, p ∈ run → ∃ bytes, files d !! p = Some bytes ∧ len bytes < thr) ∧
  0 ≤ thr ∧ Z.of_nat (length (run ++ closed)) * thr < 2 ^ 63.

Lemma flush_ok run closed c d idx segs thr :
  no_faults d → c_idx c = Some idx → store_inv (c_manager c) idx d segs → dir_ok (c_manager c) d →
  pass_state thr run closed (c_manager c) d →
  ∃ c' d' idx' segs', flush run c d = (c', d') ∧ no_faults d' ∧ c_idx c' = Some idx' ∧
    store_inv (c_manager c') idx' d' segs' ∧ dir_ok (c_manager c') d' ∧ c_cfg c' = c_cfg c ∧
    (∀ x, x ∈ entries_of segs' ↔ x ∈ entries_of segs) ∧
    pass_state thr [] closed (c_manager c') d' ∧ mdir (c_manager c') = mdir (c_manager c) ∧
    bloomEnabled (c_manager c') = bloomEnabled (c_manager c).
Proof.
  intros Hn Hidx Hinv Hd (Hnd & Hcl & Hsz & Hthr & Hbound). rewrite length_app in Hbound.
  assert (NoDup closed) as Hndc by (by apply NoDup_app in Hnd as (_ & _ & ?)).
  assert (pass_state thr [] closed (c_manager c) d) as Hsame.
  { split; [done|]. split; [intros; apply Hcl; set_solver|]. split; [by intros ? ?%not_elem_of_nil|].
    split; [done|]. cbn [app]. nia. }
  destruct run as [|newPath [|other others]]; cbn [flush]; [by exists c, d, idx, segs..|].
  pose proof (si_mgr _ _ _ _ Hinv) as Hok. set (os := other :: others) in *.
  apply NoDup_app in Hnd as (Hndr & Hdisj & _).
  destruct (mergeRun_ok newPath os c d idx segs) as (c' & d' & idx' & segs' & Hrun & Hn' & Hi' & Hinv' & Hd' & Hcfg & Hent & Hps & Hdir & Hbe);
    try done.
  - intros p Hp. apply (closed_iff _ d); [done|]. apply Hcl. set_solver.
  - intros all Hall. pose proof (merged_size _ _ _ thr Hall Hsz Hthr). nia.
  - exists c', d', idx', segs'. split_and!; try done. destruct Hsame as (_ & Hcl' & _ & _ & Hb').
    split; [done|]. split.
    + intros p Hp. destruct (Hcl' p Hp) as [Hp1 Hp2]. rewrite Hps.
      assert (p ∉ os) as Hpo by (intros Hin; apply (Hdisj p); set_solver).
      split; [by apply list_elem_of_filter|].
      destruct (ok_active _ _ Hok) as (seg & b & _ & Hl & _). rewrite Hl in Hp2.
      rewrite (last_filter_keep _ _ (f_path (seg_file seg))); [done|done|].
      intros Hin. destruct (Hcl (f_path (seg_file seg))) as [_ Hne]; [set_solver|]. by rewrite Hl in Hne.
    + split; [by intros ? ?%not_elem_of_nil|]. by split.
Qed.

Lemma merge_loop_ok run closed c d idx segs :
  no_faults d → c_idx c = Some idx → store_inv (c_manager c) idx d segs → dir_ok (c_manager c) d →
  pass_state (MergeThresholdBytes (c_cfg c)) run closed (c_manager c) d →
  ∃ c' d' idx' segs', merge_loop run closed c d = (c', d') ∧ no_faults d' ∧ c_idx c' = Some idx' ∧
    store_inv (c_manager c') idx' d' segs' ∧ dir_ok (c_manager c') d' ∧
    (∀ x, x ∈ entries_of segs' ↔ x ∈ entries_of segs) ∧ mdir (c_manager c') = mdir (c_manager c) ∧
    bloomEnabled (c_manager c') = bloomEnabled (c_manager c).
Proof.
  revert run c d idx segs. induction closed as [|path closed IH]; intros run c d idx segs Hn Hidx Hinv Hd Hps;
    cbn [merge_loop].
  - destruct (flush_ok run [] c d idx segs (MergeThresholdBytes (c_cfg c)) Hn Hidx Hinv Hd Hps)
      as (c' & d' & idx' & segs' & Hrun & ? & ? & ? & ? & _ & ? & _ & ? & ?).
    exists c', d', idx', segs'. by split_and!.
  - pose proof Hps as (Hnd & Hcl & Hsz & Hthr & Hbound).
    destruct (Hcl path) as [Hin Hl]; [set_solver|].
    destruct (ok_files _ _ (si_mgr _ _ _ _ Hinv) path Hin) as (bytes & es & Hf & _).
    io. unfold os_Stat. io. rewrite Hf. io.
    destruct (Z.ltb_spec (len bytes) (MergeThresholdBytes (c_cfg c))) as [Hlt|Hge].
    + apply (IH (run ++ [path]) c d idx segs); try done.
      replace (run ++ path :: closed) with ((run ++ [path]) ++ closed) in * by (by rewrite <- app_assoc).
      split; [done|]. split; [done|]. split; [|done].
      intros p [Hp| ->%list_elem_of_singleton]%elem_of_app; [by apply Hsz|eauto].
    + io. destruct (flush_ok run (path :: closed) c d idx segs _ Hn Hidx Hinv Hd Hps)
        as (c1 & d1 & idx1 & segs1 & -> & Hn1 & Hi1 & Hinv1 & Hd1 & Hcfg & Hent & Hps1 & Hdir & Hbe). io.
      destruct (IH [] c1 d1 idx1 segs1) as (c' & d' & idx' & segs' & -> & ? & ? & ? & ? & Hent' & Hdir' & Hbe'); try done.
      { rewrite Hcfg. destruct Hps1 as (Hnd1 & Hcl1 & Hsz1 & _ & Hb1). cbn [app] in *.
        split; [by apply NoDup_cons in Hnd1 as [_ ?]|]. split; [intros; apply Hcl1; by right|].
        split; [done|]. split; [done|]. cbn [length app] in *. nia. }
      exists c', d', idx', segs'. split_and!; try done; [|congruence..].
      intros x. by rewrite Hent', Hent.
Qed.

Lemma runMergePass_ok c d idx segs :
  no_faults d → c_idx c = Some idx → store_inv (c_manager c) idx d segs → dir_ok (c_manager c) d →
  Z.of_nat (length (paths (c_manager c))) * MergeThresholdBytes (c_cfg c) < 2 ^ 63 →
  ∃ c' d' idx' segs', runMergePass c d = (c', d') ∧ no_faults d' ∧ c_idx c' = Some idx' ∧
    store_inv (c_manager c') idx' d' segs' ∧ dir_ok (c_manager c') d' ∧
    (∀ x, x ∈ entries_of segs' ↔ x ∈ entries_of segs) ∧ mdir (c_manager c') = mdir (c_manager c) ∧
    bloomEnabled (c_manager c') = bloomEnabled (c_manager c).
Proof.
  intros Hn Hidx Hinv Hd Hbound. pose proof (si_mgr _ _ _ _ Hinv) as Hok. unfold runMergePass.
  destruct (Z.leb_spec (MergeThresholdBytes (c_cfg c)) 0); [by exists c, d, idx, segs|].
  case_decide; [by exists c, d, idx, segs|]. apply (merge_loop_ok [] _ c d idx segs); try done.
  assert (sublist (ListClosedSegments (c_manager c)) (paths (c_manager c))) as Hsub.
  { unfold ListClosedSegments. case_decide; [apply sublist_nil_l|apply sublist_take]. }
  split; [eapply sublist_NoDup; [apply (ok_nodup _ _ Hok)|done]|].
  split; [intros p Hp; by apply (closed_iff _ d)|]. split; [by intros ? ?%not_elem_of_nil|].
  split; [lia|]. cbn [app]. apply sublist_length in Hsub. nia.
Qed.

(** The retention pass as a whole. *)
Lemma runRetentionPass_inv (c : Compactor) (d : Disk) (idx : Index)
    (segs : gmap string (list LogEntry)) (now : Z) :
  no_faults d → c_idx c = Some idx → store_inv (c_manager c) idx d segs →
  ∃ c' d' idx' segs', runRetentionPass now c d = (c', d') ∧ no_faults d' ∧ c_idx c' = Some idx' ∧
    store_inv (c_manager c') idx' d' segs' ∧ segs' ⊆ segs ∧
    (dir_ok (c_manager c) d → dir_ok (c_manager c') d') ∧
    bloomEnabled (c_manager c') = bloomEnabled (c_manager c) ∧ mdir (c_manager c') = mdir (c_manager c) ∧
    ∀ p es, segs !! p = Some es → segs' !! p = None → ∀ e, e ∈ es →
      Timestamp e < int64 (now + int64 (- RetentionDays (c_cfg c) * 24 * 3600 * 1000000000)).
Proof.
  intros Hn Hidx Hinv. unfold runRetentionPass. destruct (RetentionDays (c_cfg c) <=? 0).
  - exists c, d, idx, segs. split_and!; try done. intros p es Hp Hp'. congruence.
  - pose proof (si_mgr _ _ _ _ Hinv) as Hok. apply (retention_loop_inv _ _ c d idx segs); try done.
    + unfold ListClosedSegments. case_decide; [constructor|].
      eapply sublist_NoDup; [apply (ok_nodup _ _ Hok)|apply sublist_take].
    + intros p Hp. by eapply closed_spec.
Qed.

(** ** Properties *)

(** C18. Merging segments changes no answer: on a disk without faults, [mergeRun] of
    distinct closed segments keeps manager, index and disk in step and stores exactly
    the same entries, the files of the merged segments are gone, and every query is
    answered as before, where entries of one ID are one entry and the filters are off or
    safe for the query. *)
Theorem merge_preserves_answers (c : Compactor) (d : Disk) (idx : Index)
    (segs : gmap string (list LogEntry)) (newPath : string) (others : list string) :
  no_faults d → c_idx c = Some idx → store_inv (c_manager c) idx d segs →
  NoDup (newPath :: others) → (∀ p, p ∈ newPath :: others → p ∈ ListClosedSegments (c_manager c)) →
  bloomEnabled (c_manager c) = true ∨ blooms (c_manager c) = ∅ →
  (∀ all, holds_all (files d) (newPath :: others) all → len (segment_bytes all) < 2 ^ 63) →
  id_consistent (entries_of segs) →
  ∃ c' d' idx' segs', mergeRun newPath others c d = (c', d') ∧ no_faults d' ∧ c_idx c' = Some idx' ∧
    store_inv (c_manager c') idx' d' segs' ∧
    (∀ x, x ∈ entries_of segs' ↔ x ∈ entries_of segs) ∧
    (∀ p, p ∈ others → files d' !! p = None ∧ p ∉ paths (c_manager c')) ∧
    ∀ q ast took, 0 ≤ Limit q → 0 ≤ Offset q → Parse (QueryString q) = Ok ast →
      bloomEnabled (c_manager c) = false ∨ (∀ n, ast = Some n → bloom_safe (entries_of segs) n) →
      (Execute idx' (c_manager c') None None took q d').1
      = (Execute idx (c_manager c) None None took q d).1.
Proof.
  intros Hn Hidx Hinv Hnd Hcl Hbl Hsize Hc. pose proof (si_mgr _ _ _ _ Hinv) as Hok.
  destruct (pruned_holds idx (c_manager c) d segs (newPath :: others)) as (all & Hall & _).
  { by apply store_inv_ok. }
  { intros p Hp. apply (si_dom _ _ _ _ Hinv). eapply closed_spec; eauto. }
  assert (∀ p, p ∈ newPath :: others → HasSuffix p ".seg" = true) as Hseg.
  { intros p Hp. apply (ok_names _ _ Hok). eapply closed_spec; eauto. }
  pose proof (holds_all_storable _ _ _ Hall) as Hst.
  destruct (mergeRun_done newPath others c d idx all Hn Hidx Hall Hseg (Hsize all Hall) Hst)
    as (loaded & d' & Hrun & Hn' & Hcov & Hf).
  pose proof (merged_inv (c_manager c) idx d d' segs newPath others all loaded
    Hinv Hnd Hcl Hall Hst Hcov Hbl Hf) as Hinv'.
  assert (∀ x, x ∈ entries_of (merged_segs newPath others all segs) ↔ x ∈ entries_of segs) as Hent
    by (intros x; eapply merged_entries; eauto).
  eexists _, d', _, _. split; [exact Hrun|]. split; [done|]. split; [done|]. split; [exact Hinv'|].
  split; [exact Hent|]. split.
  - intros p Hp. rewrite Hf, merged_file_seg by (try apply seg_not_tmp; apply Hseg; set_solver).
    rewrite decide_True by done. split; [done|].
    cbn [c_manager]. destruct (merged_manager_fields newPath others loaded (c_manager c)) as (_ & -> & _).
    by intros [? _]%list_elem_of_filter.
  - intros q ast took Hl Ho Hp Hs.
    pose proof (store_inv_ok _ _ _ _ Hinv) as Hso.
    destruct (merged_manager_fields newPath others loaded (c_manager c)) as (_ & _ & _ & _ & _ & Eb).
    assert (blooms (c_manager c) = ∅ ∧ blooms (merged_manager newPath others loaded (c_manager c)) = ∅ ∨
            (∀ n, ast = Some n → bloom_safe (entries_of segs) n)) as Hb.
    { destruct Hs as [Hoff|?]; [left|by right]. rewrite Eb, Hoff. destruct Hbl; [congruence|done]. }
    rewrite (Execute_scan idx (c_manager c) d segs q ast took) by (try done; tauto).
    rewrite (Execute_scan _ _ d' (merged_segs newPath others all segs) q ast took); try done.
    + cbn [fst]. f_equal. by apply answer_ext.
    + by apply store_inv_ok.
    + intros a b Ha Hb'. apply Hc; by apply Hent.
    + destruct Hb as [[_ ?]|Hb]; [by left|right]. intros n Hast. eapply bloom_safe_subset; [|by apply Hb].
      intros x. by rewrite Hent.
Qed.

(** Retention deletes only what is old: on a disk without faults, after
    [runRetentionPass] manager, index and disk are in step, the directory is too, the remaining
    segments are unchanged, and every entry of a deleted segment is older than the cutoff. *)
Theorem retention_keeps_recent (c : Compactor) (d : Disk) (idx : Index)
    (segs : gmap string (list LogEntry)) (now : Z) :
  no_faults d → c_idx c = Some idx → store_inv (c_manager c) idx d segs →
  ∃ c' d' idx' segs', runRetentionPass now c d = (c', d') ∧ no_faults d' ∧ c_idx c' = Some idx' ∧
    store_inv (c_manager c') idx' d' segs' ∧ segs' ⊆ segs ∧
    (dir_ok (c_manager c) d → dir_ok (c_manager c') d') ∧
    bloomEnabled (c_manager c') = bloomEnabled (c_manager c) ∧ mdir (c_manager c') = mdir (c_manager c) ∧
    ∀ p es, segs !! p = Some es → segs' !! p = None → ∀ e, e ∈ es →
      Timestamp e < int64 (now + int64 (- RetentionDays (c_cfg c) * 24 * 3600 * 1000000000)).
Proof. apply runRetentionPass_inv. Qed.
End compaction_lemmas.

(** ** Properties on a sample store *)

(** Two closed segments and an empty active one. *)
Definition cp (n : Z) : string := seq_path "data" n.
Definition comp_e1 : LogEntry := sample_entry "a" "disk full" 1.
Definition comp_e2 : LogEntry := sample_entry "b" "net down" 2.
Definition comp_segs : gmap string (list LogEntry) :=
  {[ cp 1 := [comp_e1]; cp 2 := [comp_e2]; cp 3 := [] ]}.

Definition comp_index : Index := @index_of ascii_tables (pairs_of comp_segs).

Definition comp_manager (filters : bool) : @Manager exact_bloom :=
  @mkManager exact_bloom "data" 1000 (Some (mkSegment (mkFile (cp 3) 0) 0)) 4 [cp 1; cp 2; cp 3] "n1" filters
    (if filters
     then {[ cp 1 := @segment_bloom ascii_tables exact_bloom [comp_e1];
             cp 2 := @segment_bloom ascii_tables exact_bloom [comp_e2] ]} else ∅).

Definition sidecar (p : string) (es : list LogEntry) (fs : gmap string (list byte)) : gmap string (list byte) :=
  <[BloomPath p := @WriteTo exact_bloom (@segment_bloom ascii_tables exact_bloom es)]> fs.

Definition comp_files : gmap string (list byte) := @segment_bytes bit_codec <$> comp_segs.

Definition comp_state (filters : bool) : @Compactor exact_bloom :=
  @mkCompactor exact_bloom (comp_manager filters) (Some comp_index) DefaultCompactorConfig.

(** A failed filter write can lose results: when writing the sidecar of a merged
    segment fails, the old sidecar of its first part is still on disk and [mergeRun]
    loads it for the merged segment. The merge succeeds, both entries are in the merged
    file, and the query [down] that found its entry before the merge finds nothing. *)
Theorem merge_stale_bloom :
  let H1 := ascii_tables in let H2 := bit_codec in let H3 := exact_bloom in
  let d := mkDisk (sidecar (cp 1) [comp_e1] (sidecar (cp 2) [comp_e2] comp_files))
             (replicate 16 Done ++ [Fault 0]) in
  let q := sample_query "down" in
  let '(c', d') := mergeRun (cp 1) [cp 2] (comp_state true) d in
  (Execute comp_index (comp_manager true) None None 0 q (mkDisk (files d) [])).1
    = Ok (mkQueryResult [comp_e2] 1 0 false) ∧
  (ReadSegments (paths (c_manager c')) d').1 = Ok [comp_e1; comp_e2] ∧
  (Execute (default NewIndex (c_idx c')) (c_manager c') None None 0 q d').1
    = Ok (mkQueryResult [] 0 0 false).
Proof. vm_compute. split_and!; reflexivity. Qed.

(** ** Witnesses *)

Lemma cp_inj a b : 0 ≤ a < 2 ^ 64 → 0 ≤ b < 2 ^ 64 → cp a = cp b → a = b.
Proof. apply segment_path_inj. Qed.

Lemma cp_lookup {A} (x y z : A) p v :
  ({[ cp 1 := x; cp 2 := y; cp 3 := z ]} : gmap string A) !! p = Some v →
  (p = cp 1 ∧ v = x) ∨ (p = cp 2 ∧ v = y) ∨ (p = cp 3 ∧ v = z).
Proof.
  intros [[<- <-]|[_ Hp]]%lookup_insert_Some; [by left|].
  apply lookup_insert_Some in Hp as [[<- <-]|[_ [<- <-]%lookup_singleton_Some]]; auto.
Qed.

Lemma comp_entries_storable e :
  e = comp_e1 ∨ e = comp_e2 → @storable bit_codec e.
Proof. intros [-> | ->]; eexists; (split; [reflexivity|]); vm_compute; discriminate. Qed.

Lemma comp_files_hold p es :
  comp_segs !! p = Some es → ∃ bytes, comp_files !! p = Some bytes ∧ @holds bit_codec bytes es.
Proof.
  intros Hp. exists (@segment_bytes bit_codec es). unfold comp_files. rewrite lookup_fmap, Hp.
  split; [done|]. apply holds_segment_bytes. split; [|done].
  apply cp_lookup in Hp as [[_ ->]|[[_ ->]|[_ ->]]]; repeat constructor; apply comp_entries_storable; auto.
Qed.

Lemma comp_paths p : is_Some (comp_segs !! p) ↔ p ∈ [cp 1; cp 2; cp 3].
Proof.
  split.
  - intros [es [[-> _]|[[-> _]|[-> _]]]%cp_lookup]; set_solver.
  - rewrite !elem_of_cons. intros [->|[->|[->|[]%not_elem_of_nil]]]; vm_compute; by eexists.
Qed.

Lemma comp_inv_sample :
  let H1 := ascii_tables in let H2 := bit_codec in let H3 := exact_bloom in
  store_inv (comp_manager false) comp_index (mkDisk comp_files []) comp_segs.
Proof.
  intros H1 H2 H3. split.
  - split; cbn [active paths nextSeq mdir blooms comp_manager files].
    + exists (mkSegment (mkFile (cp 3) 0) 0), []. split; [done|]. split; [done|].
      split; [vm_compute; reflexivity|done].
    + repeat constructor; rewrite ?not_elem_of_cons; split_and?; try apply not_elem_of_nil;
        intros E%cp_inj; lia.
    + intros p [es Hes]%comp_paths. destruct (comp_files_hold p es Hes) as (b & ? & ?). eauto.
    + intros n Hn. change (seq_path "data" n) with (cp n).
      assert (cp n ∉ [cp 1; cp 2; cp 3]) as Hnot.
      { rewrite !not_elem_of_cons. split_and!; [intros E%cp_inj; lia..|apply not_elem_of_nil]. }
      split; [done|]. unfold comp_files. rewrite lookup_fmap.
      destruct (comp_segs !! cp n) eqn:E; [|done]. exfalso. apply Hnot, comp_paths. eauto.
    + done.
    + intros p. rewrite !elem_of_cons. intros [->|[->|[->|[]%not_elem_of_nil]]]; apply seq_path_seg.
    + intros p bf Hbf. by rewrite lookup_empty in Hbf.
  - apply comp_paths.
  - apply comp_files_hold.
  - apply index_of_represents.
Qed.

Lemma comp_consistent : id_consistent (entries_of comp_segs).
Proof.
  intros a b (p & es & Hp & Ha)%elem_of_entries_of (p' & es' & Hp' & Hb)%elem_of_entries_of.
  apply cp_lookup in Hp as [[_ ->]|[[_ ->]|[_ ->]]]; [| |by apply not_elem_of_nil in Ha];
  (apply cp_lookup in Hp' as [[_ ->]|[[_ ->]|[_ ->]]]; [| |by apply not_elem_of_nil in Hb]);
  apply list_elem_of_singleton in Ha as ->; apply list_elem_of_singleton in Hb as ->; done.
Qed.

Lemma merge_preserves_answers_witness :
  let H1 := ascii_tables in let H2 := bit_codec in let H3 := exact_bloom in
  ∃ c' d' idx' segs', mergeRun (cp 1) [cp 2] (comp_state false) (mkDisk comp_files []) = (c', d') ∧
    no_faults d' ∧ c_idx c' = Some idx' ∧ store_inv (c_manager c') idx' d' segs' ∧
    (∀ x, x ∈ entries_of segs' ↔ x ∈ entries_of comp_segs) ∧
    (∀ p, p ∈ [cp 2] → files d' !! p = None ∧ p ∉ paths (c_manager c')) ∧
    ∀ q ast took, 0 ≤ Limit q → 0 ≤ Offset q → Parse (QueryString q) = Ok ast →
      bloomEnabled (comp_manager false) = false ∨ (∀ n, ast = Some n → bloom_safe (entries_of comp_segs) n) →
      (Execute idx' (c_manager c') None None took q d').1
      = (Execute comp_index (comp_manager false) None None took q (mkDisk comp_files [])).1.
Proof.
  intros H1 H2 H3.
  assert (∀ p, p ∈ [cp 1; cp 2] → p ∈ ListClosedSegments (comp_manager false)) as Hcl by done.
  apply (@merge_preserves_answers ascii_tables ascii_tables_laws bit_codec bit_codec_laws exact_bloom
    exact_bloom_laws (comp_state false) (mkDisk comp_files []) comp_index comp_segs (cp 1) [cp 2]).
  - done.
  - done.
  - apply comp_inv_sample.
  - repeat constructor; rewrite ?not_elem_of_cons; split_and?; try apply not_elem_of_nil;
      intros E%cp_inj; lia.
  - exact Hcl.
  - by right.
  - intros all Hall.
    assert (holds_all comp_files [cp 1; cp 2] [comp_e1; comp_e2]) as Hknown.
    { destruct (comp_files_hold (cp 1) [comp_e1]) as (b1 & Hf1 & Hh1); [vm_compute; reflexivity|].
      destruct (comp_files_hold (cp 2) [comp_e2]) as (b2 & Hf2 & Hh2); [vm_compute; reflexivity|].
      apply (holds_all_cons _ _ _ b1 [comp_e1] [comp_e2]); [done|done|].
      apply (holds_all_cons _ _ _ b2 [comp_e2] []); [done|done|constructor]. }
    assert (all = [comp_e1; comp_e2]) as ->.
    { eapply (@holds_all_inj bit_codec bit_codec_laws); [exact Hall|exact Hknown]. }
    vm_compute. reflexivity.
  - apply comp_consistent.
Defined.

Lemma retention_keeps_recent_witness :
  let H1 := ascii_tables in let H2 := bit_codec in let H3 := exact_bloom in
  ∃ c' d' idx' segs', runRetentionPass 1000 (comp_state false) (mkDisk comp_files []) = (c', d') ∧
    no_faults d' ∧ c_idx c' = Some idx' ∧ store_inv (c_manager c') idx' d' segs' ∧ segs' ⊆ comp_segs ∧
    (dir_ok (comp_manager false) (mkDisk comp_files []) → dir_ok (c_manager c') d') ∧
    bloomEnabled (c_manager c') = false ∧ mdir (c_manager c') = "data" ∧
    ∀ p es, comp_segs !! p = Some es → segs' !! p = None → ∀ e, e ∈ es →
      Timestamp e < int64 (1000 + int64 (- 7 * 24 * 3600 * 1000000000)).
Proof.
  intros H1 H2 H3.
  apply (@retention_keeps_recent ascii_tables ascii_tables_laws bit_codec bit_codec_laws exact_bloom
    exact_bloom_laws (comp_state false) (mkDisk comp_files []) comp_index comp_segs 1000).
  - done.
  - done.
  - apply comp_inv_sample.
Defined.
