(* ===== verification/Threads.v ===== *)
(** * Goroutines over a shared state

    The manager, the index and the data directory of a node are shared by the
    goroutines of the gRPC server, of the query handlers and of the compactor.
    A goroutine is a [prog]: a tree of atomic actions on the shared state; an
    action may be blocked (a mutex held by another goroutine). A pool of
    goroutines runs under a schedule, the list of the goroutines that are given
    a turn.

    [spec] is the rely-guarantee judgement for one goroutine: whatever the
    others do between its actions within the rely [R], its own actions keep the
    invariant [I], stay within the guarantee [G] and are not blocked in states
    of [E], and its result satisfies [Q]. [config_ok_run] composes the
    judgements of the goroutines of a pool over every schedule. The invariant
    is indexed by a number of turns still to come, for resources (sequence
    numbers, file sizes) that every turn may use up. *)

From S2P Require Import Prelude.

(** ** Programs *)

Section programs.
Context {St : Type}.

(** An action: [None] when it is blocked. *)
Definition action (X : Type) : Type := St → option (X * St).

Inductive prog (A : Type) : Type :=
  | Ret (a : A)
  | Act (X : Type) (f : action X) (k : X → prog A).

#[global] Arguments Ret {_} _.
#[global] Arguments Act {_ _} _ _.

Fixpoint prog_bind {A B} (k : A → prog B) (p : prog A) : prog B :=
  match p with
  | Ret a => k a
  | Act f k' => Act f (λ x, prog_bind k (k' x))
  end.

#[global] Instance prog_ret : MRet prog := λ A a, Ret a.
#[global] Instance prog_mbind : MBind prog := λ A B k p, prog_bind k p.

(** One action as a program. *)
Definition atomically {X} (f : action X) : prog X := Act f (λ x, Ret x).

(** A goroutine that runs with nobody else around: [None] if it blocks. *)
Fixpoint run_alone {A} (p : prog A) (s : St) : option (A * St) :=
  match p with
  | Ret a => Some (a, s)
  | Act f k => match f s with Some (x, s') => run_alone (k x) s' | None => None end
  end.

(** One turn of a goroutine: nothing happens if it has returned or is blocked. *)
Definition turn {A} (p : prog A) (s : St) : prog A * St :=
  match p with
  | Ret a => (p, s)
  | Act f k => match f s with Some (x, s') => (k x, s') | None => (p, s) end
  end.

(** A goroutine that has returned, and one whose next action is blocked. *)
Definition returned {A} (p : prog A) : option A :=
  match p with Ret a => Some a | Act _ _ => None end.
Definition can_step {A} (p : prog A) (s : St) : bool :=
  match p with
  | Ret _ => false
  | Act f _ => match f s with Some _ => true | None => false end
  end.

(** ** Pools *)

Definition pool_step {A} (i : nat) (c : list (prog A) * St) : list (prog A) * St :=
  match c.1 !! i with
  | None => c
  | Some p => let '(p', s') := turn p c.2 in (<[i := p']> c.1, s')
  end.

Definition pool_run {A} (turns : list nat) (c : list (prog A) * St) : list (prog A) * St :=
  foldl (λ c i, pool_step i c) c turns.

(** ** The rely-guarantee judgement *)

Section judgement.
Context (I : nat → St → Prop).

Section thread.
Context (R G : relation St) (E : St → Prop).

Fixpoint spec {A} (p : prog A) (Q : A → St → Prop) (s : St) : Prop :=
  match p with
  | Ret a => Q a s
  | Act f k => ∀ n s1, R s s1 → I (S n) s1 →
      (E s1 → is_Some (f s1)) ∧
      ∀ x s2, f s1 = Some (x, s2) → I n s2 ∧ G s1 s2 ∧ spec (k x) Q s2
  end.
End thread.

(** A configuration reached from [base]: the invariant with [n] turns to come,
    and each goroutine keeps its judgement from a state in its past. *)
Definition config_ok {A} (R G : nat → relation St) (E : nat → St → Prop) (C : relation St)
    (Q : nat → A → St → Prop) (base : St) (n : nat) (c : list (prog A) * St) : Prop :=
  I n c.2 ∧ C base c.2 ∧
  ∀ i p, c.1 !! i = Some p → ∃ s0, R i s0 c.2 ∧ spec (R i) (G i) (E i) p (Q i) s0.
End judgement.
End programs.

#[global] Arguments prog St A : clear implicits.
#[global] Arguments action St X : clear implicits.

(** ** Lemmas *)

Section run_lemmas.
Context {St : Type}.

Lemma run_alone_bind {A B} (p : prog St A) (k : A → prog St B) s :
  run_alone (p ≫= k) s = '(a, s') ← run_alone p s; run_alone (k a) s'.
Proof.
  change (p ≫= k) with (prog_bind k p).
  revert s. induction p as [a|X f k' IH]; intros s; cbn; [done|].
  destruct (f s) as [[x s']|]; [apply IH|done].
Qed.

Lemma run_alone_ret {A} (a : A) (s : St) : run_alone (mret a) s = Some (a, s).
Proof. done. Qed.

Lemma run_alone_atomically {A} (f : action St A) s : run_alone (atomically f) s = f s.
Proof. unfold atomically. cbn. by destruct (f s) as [[]|]. Qed.

Lemma pool_run_cons {A} j turns (c : list (prog St A) * St) :
  pool_run (j :: turns) c = pool_run turns (pool_step j c).
Proof. done. Qed.

(** A goroutine that is given no turn stays where it is. *)
Lemma pool_run_unscheduled {A} turns (c : list (prog St A) * St) i :
  i ∉ turns → (pool_run turns c).1 !! i = c.1 !! i.
Proof.
  revert c. induction turns as [|j turns IH]; intros c Hi; [done|].
  apply not_elem_of_cons in Hi as [Hij Hi]. rewrite pool_run_cons, IH by done. unfold pool_step.
  destruct (c.1 !! j); [|done]. destruct (turn _ _). cbn. by rewrite list_lookup_insert_ne.
Qed.

Lemma pool_run_length {A} turns (c : list (prog St A) * St) :
  length (pool_run turns c).1 = length c.1.
Proof.
  revert c. induction turns as [|j turns IH]; intros c; [done|].
  rewrite pool_run_cons, IH. unfold pool_step.
  destruct (c.1 !! j); [|done]. destruct (turn _ _). cbn. apply length_insert.
Qed.

End run_lemmas.

Section spec_lemmas.
Context {St : Type} (I : nat → St → Prop).

Section thread.
Context (R G : relation St) `{!PreOrder R} (E : St → Prop).
Notation "'judge'" := (spec I R G E).

Lemma spec_mono {A} (p : prog St A) (Q Q' : A → St → Prop) s :
  (∀ a s', Q a s' → Q' a s') → judge p Q s → judge p Q' s.
Proof.
  intros HQ. revert s. induction p as [a|X f k IH]; cbn; intros s; [apply HQ|].
  intros Hp n s1 HR HI. destruct (Hp n s1 HR HI) as [He Hs]. split; [done|].
  intros x s2 Hf. destruct (Hs x s2 Hf) as (? & ? & ?). auto.
Qed.

(** Two postconditions, the second under a hypothesis. *)
Lemma spec_when {A} (C : Prop) (p : prog St A) (Q Q' : A → St → Prop) s :
  judge p Q s → (C → judge p Q' s) → judge p (λ a s', Q a s' ∧ (C → Q' a s')) s.
Proof.
  revert s. induction p as [a|X f k IH]; cbn; intros s; [done|].
  intros Hp Hp' n s1 HR HI. destruct (Hp n s1 HR HI) as [He Hs]. split; [done|].
  intros x s2 Hf. destruct (Hs x s2 Hf) as (? & ? & ?). split_and!; [done..|]. apply IH; [done|].
  intros HC. by destruct (Hp' HC n s1 HR HI) as [_ Hs']; destruct (Hs' x s2 Hf) as (_ & _ & ?).
Qed.

Lemma spec_bind {A B} (p : prog St A) (k : A → prog St B) Q s :
  judge p (λ a s', judge (k a) Q s') s → judge (p ≫= k) Q s.
Proof.
  change (p ≫= k) with (prog_bind k p).
  revert s. induction p as [a|X f k' IH]; cbn; intros s; [done|].
  intros Hp n s1 HR HI. destruct (Hp n s1 HR HI) as [He Hs]. split; [done|].
  intros x s2 Hf. destruct (Hs x s2 Hf) as (? & ? & ?). auto.
Qed.

Lemma spec_atomically {X} (f : action St X) (Q : X → St → Prop) s :
  (∀ n s1, R s s1 → I (S n) s1 → (E s1 → is_Some (f s1)) ∧
     ∀ x s2, f s1 = Some (x, s2) → I n s2 ∧ G s1 s2 ∧ Q x s2) →
  judge (atomically f) Q s.
Proof. done. Qed.

End thread.

(** The judgements of the goroutines of a pool compose: if what each guarantees
    is within what the others rely on, the invariant holds after any schedule,
    and each goroutine still keeps its judgement. *)
Section composition.
Context {A : Type} (R G : nat → relation St) (E : nat → St → Prop) (C : relation St).
Context (Q : nat → A → St → Prop).
Context `{!∀ i, PreOrder (R i)} `{!PreOrder C}.
Context (I_weaken : ∀ n s, I (S n) s → I n s).
Context (G_R : ∀ i j s s', i ≠ j → G j s s' → R i s s') (G_C : ∀ j s s', G j s s' → C s s').

Lemma config_ok_step base n c i :
  config_ok I R G E C Q base (S n) c → config_ok I R G E C Q base n (pool_step i c).
Proof.
  destruct c as [pool s]. intros (HI & HC & Hpool). cbn in HI, HC, Hpool.
  assert (config_ok I R G E C Q base n (pool, s)) as Hsame by (split_and!; eauto).
  unfold pool_step. cbn. destruct (pool !! i) as [p|] eqn:Hp; [|done].
  unfold turn. destruct p as [a|X f k].
  { by rewrite list_insert_id. }
  destruct (f s) as [[x s2]|] eqn:Hf; [|by rewrite list_insert_id].
  destruct (Hpool i _ Hp) as (s0 & HR & Hspec). destruct (Hspec n s HR HI) as [_ Hs].
  destruct (Hs x s2 Hf) as (HI2 & HG & Hk). split_and!; cbn; [done|by etrans; eauto|].
  intros j p Hj. destruct (decide (i = j)) as [<-|Hne].
  - rewrite list_lookup_insert_eq in Hj by (by eapply lookup_lt_Some). simplify_eq. by exists s2.
  - rewrite list_lookup_insert_ne in Hj by done. destruct (Hpool j p Hj) as (s1 & HR1 & Hs1).
    exists s1. split; [|done]. etrans; [done|]. by apply (G_R j i).
Qed.

Lemma config_ok_run base turns n c :
  config_ok I R G E C Q base (length turns + n) c → config_ok I R G E C Q base n (pool_run turns c).
Proof.
  revert c. induction turns as [|i turns IH]; intros c Hc; [done|].
  rewrite pool_run_cons. apply IH. by apply config_ok_step.
Qed.

(** A goroutine that has returned left its postcondition in a past state. *)
Lemma config_ok_returned base n c i p a :
  config_ok I R G E C Q base n c → c.1 !! i = Some p → returned p = Some a →
  ∃ s0, Q i a s0 ∧ R i s0 c.2.
Proof.
  intros (_ & _ & Hpool) Hi Hp. destruct (Hpool i p Hi) as (s0 & HR & Hs).
  destruct p; [|done]. injection Hp as ->. eauto.
Qed.

(** A goroutine that has not returned is not blocked in a state of [E]. *)
Lemma config_ok_enabled base n c i p :
  config_ok I R G E C Q base (S n) c → c.1 !! i = Some p → returned p = None → E i c.2 →
  can_step p c.2 = true.
Proof.
  intros (HI & _ & Hpool) Hi Hp HE. destruct (Hpool i p Hi) as (s0 & HR & Hs).
  destruct p as [|X f k]; [done|]. destruct (Hs n c.2 HR HI) as [He _]. cbn.
  by destruct (He HE) as [x ->].
Qed.
End composition.
End spec_lemmas.
