(* ===== verification/Goroutines.v ===== *)
(** * The goroutines of a node

    The operations of the storage manager, of the query executor and of the
    compactor as programs of atomic actions ([Threads]) on the state they share:
    the manager with its mutex, the index, and the disk. What is an action
    follows the locks of the code: a section under [m.mu] without file access is
    one action, enabled when the mutex is free; an operation of the index is one
    action, since it runs under the index's own mutex; file operations are
    actions of their own, also under [m.mu], since the goroutines that read
    segments and the compactor's file operations do not take it. A record is
    written by two writes, so a reader can see a segment between them.
    [ReadSegment] of one file is one action: [read_while_growing] of [Races]
    shows that reading record by record a file that grows meanwhile gives what
    reading it at once at the last read gives.

    The theorems of this file tie each program to the definition of the
    sequential model: run with nobody else around, it does exactly the same, on
    every disk, failures included. *)

From S2P Require Import Prelude GoStrings Types Record Disk Segment Ranking Index Parser Bloom.
From S2P Require Import Paths Manager Executor Recovery Fanout Ingest Compaction Threads.

Section goroutines.
Context `{GoUnicode} `{Protobuf} `{Bloom}.

(** What the goroutines of a node share; [sh_mu] is the holder of [Manager.mu]. *)
Record Shared := mkShared {
  sh_manager : Manager;
  sh_mu : option nat;
  sh_index : Index;
  sh_disk : Disk;
}.

Definition put_manager (m : Manager) (s : Shared) : Shared :=
  mkShared m (sh_mu s) (sh_index s) (sh_disk s).
Definition put_mu (o : option nat) (s : Shared) : Shared :=
  mkShared (sh_manager s) o (sh_index s) (sh_disk s).
Definition put_index (idx : Index) (s : Shared) : Shared :=
  mkShared (sh_manager s) (sh_mu s) idx (sh_disk s).
Definition put_disk (d : Disk) (s : Shared) : Shared :=
  mkShared (sh_manager s) (sh_mu s) (sh_index s) d.

(** ** Actions *)

(** [m.mu.Lock()] and [m.mu.Unlock()]. *)
Definition lock (me : nat) : action Shared () := λ s,
  match sh_mu s with None => Some ((), put_mu (Some me) s) | Some _ => None end.
Definition unlock : action Shared () := λ s, Some ((), put_mu None s).

(** A look at the manager and an update of it, by the holder of the mutex. *)
Definition get_manager : action Shared Manager := λ s, Some (sh_manager s, s).
Definition set_manager (f : Manager → Manager) : action Shared () := λ s,
  Some ((), put_manager (f (sh_manager s)) s).

(** A file operation. *)
Definition do_io {A} (c : IO A) : action Shared A := λ s,
  let '(a, d) := c (sh_disk s) in Some (a, put_disk d s).

(** A file operation that also updates the manager, by the holder of the mutex. *)
Definition do_manager {A} (c : Manager → IO (Manager * A)) : action Shared A := λ s,
  let '((m, a), d) := c (sh_manager s) (sh_disk s) in Some (a, put_manager m (put_disk d s)).

(** A critical section of its own: lock, [c], unlock. *)
Definition critical {A} (c : Manager → IO (Manager * A)) : action Shared A := λ s,
  match sh_mu s with None => do_manager c s | Some _ => None end.

(** An operation of the index. *)
Definition do_index (f : Index → Index) : action Shared () := λ s,
  Some ((), put_index (f (sh_index s)) s).

(** ** Writers *)

(** [WriteRecord] on the active segment's file: two writes. *)
Definition WriteRecord_go (f : File) (data : list byte) : prog Shared (File * result ()) :=
  match WriteRecord_chunks data with
  | Ok [hdr; payload] =>
    '(f, r) ← atomically (do_io (file_Write f hdr));
    match r with
    | Err e => mret (f, Err (ErrWrap "write record length" e))
    | Ok _ =>
      '(f, r) ← atomically (do_io (file_Write f payload));
      match r with
      | Err e => mret (f, Err (ErrWrap "write record data" e))
      | Ok _ => mret (f, Ok ())
      end
    end
  | Ok _ => mret (f, Ok ())
  | Err e => mret (f, Err e)
  end.

(** [Segment.Append] on the active segment. *)
Definition append_active_go (data : list byte) : prog Shared (result ()) :=
  m ← atomically get_manager;
  match active m with
  | None => mret (Err panic_index)
  | Some seg =>
    '(f, r) ← WriteRecord_go (seg_file seg) data;
    match r with
    | Err e =>
      _ ← atomically (set_manager (with_active (Some (mkSegment f (seg_size seg)))));
      mret (Err (ErrWrap "segment append" e))
    | Ok _ =>
      r ← atomically (do_io (file_Sync f));
      match r with
      | Err e =>
        _ ← atomically (set_manager (with_active (Some (mkSegment f (seg_size seg)))));
        mret (Err (ErrWrap "segment sync" e))
      | Ok _ =>
        _ ← atomically (set_manager
              (with_active (Some (mkSegment f (int64 (seg_size seg + int64 (4 + len data)))))));
        mret (Ok ())
      end
    end
  end.

(** [os.WriteFile]: the file is truncated before it is written. *)
Definition os_WriteFile_go (path : string) (data : list byte) : prog Shared (result ()) :=
  r ← atomically (do_io (os_Create path));
  match r with
  | Err e => mret (Err e)
  | Ok f =>
    '(f, r) ← atomically (do_io (file_Write f data));
    _ ← atomically (do_io (file_Close f));
    mret r
  end.

(** [Manager.openNewSegment]. *)
Definition openNewSegment_go : prog Shared (result ()) :=
  m ← atomically get_manager;
  let name := segment_name (nextSeq m) in
  let path := filepath_Join (mdir m) name in
  r ← atomically (do_io (OpenSegment path));
  match r with
  | Err e => mret (Err (ErrWrap "open new segment" e))
  | Ok seg =>
    _ ← atomically (set_manager (λ m,
          with_nextSeq (uint64 (nextSeq m + 1)) (with_paths (paths m ++ [path]) (with_active (Some seg) m))));
    _ ← os_WriteFile_go (filepath_Join (mdir m) activeMarkerFile) (String.list_byte_of_string name);
    mret (Ok ())
  end.

(** [Manager.rotate]. *)
Definition rotate_go : prog Shared (result ()) :=
  m ← atomically get_manager;
  match last (paths m), active m with
  | Some closingPath, Some seg =>
    r ← atomically (do_manager (λ m,
          r ← Segment_Close seg; mret (with_active (Some (closed_segment seg)) m, r)));
    match r with
    | Err e => mret (Err (ErrWrap "close active segment before rotation" e))
    | Ok _ =>
      _ ← (if bloomEnabled m
           then atomically (do_manager (λ m, m' ← write_segment_bloom m closingPath; mret (m', ())))
           else mret ());
      openNewSegment_go
    end
  | _, _ => mret (Err panic_index)
  end.

(** [Manager.appendLocked]. *)
Definition appendLocked_go (entry : LogEntry) : prog Shared (result ()) :=
  m ← atomically get_manager;
  match active m with
  | None => mret (Err (ErrMsg "append to closed manager"))
  | Some seg =>
    match marshalLogEntry entry with
    | Err e => mret (Err e)
    | Ok data =>
      if must_rotate m seg data then
        r ← rotate_go;
        match r with
        | Err e => mret (Err (ErrWrap "rotate segment" e))
        | Ok _ => append_active_go data
        end
      else append_active_go data
    end
  end.

(** [Manager.AppendWithPath]: the path is taken before the mutex is released. *)
Definition AppendWithPath_go (me : nat) (entry : LogEntry) : prog Shared (result string) :=
  _ ← atomically (lock me);
  r ← appendLocked_go entry;
  m ← atomically get_manager;
  _ ← atomically unlock;
  mret match r with
       | Err e => Err e
       | Ok _ => match last (paths m) with Some p => Ok p | None => Err panic_index end
       end.

(** A write as the ingest server, the orchestrator and the replica do it: append,
    then index. *)
Definition write_go (me : nat) (msg : string) (entry : LogEntry) : prog Shared (result ()) :=
  r ← AppendWithPath_go me entry;
  match r with
  | Err _ => mret (Err (grpc_Status codes_Internal msg))
  | Ok segPath => _ ← atomically (do_index (Add entry segPath)); mret (Ok ())
  end.

(** ** Queries *)

(** The bloom-pruning loop of [Execute] with the paths kept so far; every
    [BloomFor] takes the mutex. *)
Fixpoint prune_go (ast : option Node) (kept ps : list string) : prog Shared (list string) :=
  match ps with
  | [] => mret kept
  | p :: ps' =>
    bf ← atomically (critical (λ m, mret (m, BloomFor m p)));
    prune_go ast
      (if (match bf, ast with Some bf, Some n => bloomDefiniteMiss bf n | _, _ => false end)
       then kept else kept ++ [p]) ps'
  end.

(** [Manager.ReadSegments]: no mutex, one file after the other. *)
Fixpoint ReadSegments_go (all : list LogEntry) (ps : list string) : prog Shared (result (list LogEntry)) :=
  match ps with
  | [] => mret (Ok all)
  | path :: ps' =>
    r ← atomically (do_io (ReadSegment path));
    match r with
    | Err e =>
      if errors_Is e os_ErrNotExist then ReadSegments_go all ps'
      else mret (Err (ErrWrap "read segments" e))
    | Ok entries => ReadSegments_go (all ++ entries) ps'
    end
  end.

(** [LocalExecutor.Execute]. *)
Definition Execute_go (err1 err2 : option GoError) (took : Z) (req : QueryRequest)
    : prog Shared (result QueryResult) :=
  if Limit req <? 0 then mret (Err (ErrMsg "limit must be non-negative")) else
  if Offset req <? 0 then mret (Err (ErrMsg "offset must be non-negative")) else
  match err1 with
  | Some e => mret (Err (ErrWrap "query canceled" e))
  | None =>
    match Parse (QueryString req) with
    | Err e => mret (Err (ErrWrap "parse query" e))
    | Ok ast =>
      let indexTokens := match ast with Some n => collectTermTokens n | None => [] end in
      ps ← atomically (λ s, Some (Resolve (sh_index s) indexTokens (qNamespace req) (qService req)
                                    (StartTime req) (EndTime req), s));
      pruned ← prune_go ast [] ps;
      if bool_decide (pruned = []) then mret (Ok (finish req ast took [])) else
      match err2 with
      | Some e => mret (Err (ErrWrap "query canceled before disk read" e))
      | None =>
        r ← ReadSegments_go [] pruned;
        mret match r with
             | Err e => Err (ErrWrap "execute query" e)
             | Ok raw => Ok (finish req ast took raw)
             end
      end
    end
  end.

(** ** The compactor *)

(** The append loop of [mergeRun]; the temporary file is this goroutine's own. *)
Fixpoint merge_append_go (bloomEnabled : bool) (seg : Segment) (tokens : list string) (all : list LogEntry)
    : prog Shared (Segment * list string * bool) :=
  match all with
  | [] => mret (seg, tokens, true)
  | e :: all' =>
    match marshalLogEntry e with
    | Err _ => mret (seg, tokens, false)
    | Ok pb =>
      '(seg, r) ← atomically (do_io (Segment_Append seg pb));
      match r with
      | Err _ => mret (seg, tokens, false)
      | Ok _ =>
        merge_append_go bloomEnabled seg (if bloomEnabled then tokens ++ tokenizeEntry e else tokens) all'
      end
    end
  end.

Fixpoint RemoveSegments_go (ps : list string) : prog Shared () :=
  match ps with
  | [] => mret ()
  | p :: ps' => _ ← atomically (do_index (RemoveSegment p)); RemoveSegments_go ps'
  end.

Fixpoint Add_all_go (path : string) (es : list LogEntry) : prog Shared () :=
  match es with
  | [] => mret ()
  | e :: es' => _ ← atomically (do_index (Add e path)); Add_all_go path es'
  end.

Fixpoint restore_index_go (ps : list string) : prog Shared () :=
  match ps with
  | [] => mret ()
  | op :: ps' =>
    r ← ReadSegments_go [] [op];
    _ ← match r with Err _ => mret () | Ok restored => Add_all_go op restored end;
    restore_index_go ps'
  end.

Fixpoint delete_files_go (ps : list string) : prog Shared () :=
  match ps with
  | [] => mret ()
  | op :: ps' =>
    _ ← atomically (do_io (os_Remove op));
    _ ← atomically (do_io (os_Remove (BloomPath op)));
    delete_files_go ps'
  end.

(** The update of the manager after a merge, in one critical section. *)
Definition install_merged (newPath : string) (others : list string) (m : Manager) : IO (Manager * ()) :=
  loaded ← (if bloomEnabled m
            then r ← ReadBloom (BloomPath newPath);
                 mret match r with Ok bf => Some bf | Err _ => None end
            else mret None);
  mret (merged_manager newPath others loaded m, ()).

(** [Compactor.mergeRun]. *)
Definition mergeRun_go (newPath : string) (others : list string) : prog Shared () :=
  let ps := newPath :: others in
  r ← ReadSegments_go [] ps;
  match r with
  | Err _ => mret ()
  | Ok all =>
    let tmpPath := newPath +:+ ".tmp" in
    _ ← atomically (do_io (os_Remove tmpPath));
    r ← atomically (do_io (OpenSegment tmpPath));
    match r with
    | Err _ => mret ()
    | Ok seg =>
      m ← atomically get_manager;
      '(seg, tokens, ok) ← merge_append_go (bloomEnabled m) seg [] all;
      _ ← atomically (do_io (Segment_Close seg));
      if negb ok then _ ← atomically (do_io (os_Remove tmpPath)); mret () else
      _ ← RemoveSegments_go ps;
      r ← atomically (do_io (os_Rename tmpPath newPath));
      match r with
      | Err _ => _ ← atomically (do_io (os_Remove tmpPath)); restore_index_go ps
      | Ok _ =>
        _ ← (if bloomEnabled m && negb (bool_decide (tokens = []))
             then atomically (do_io (WriteBloom (BloomPath newPath) (BuildBloom tokens (len tokens))))
             else mret (Ok ()));
        _ ← Add_all_go newPath all;
        _ ← atomically (critical (install_merged newPath others));
        delete_files_go others
      end
    end
  end.

(** The closure [flush] and the loop of [runMergePass], from the list of closed segments that
    [ListClosedSegments] returned: taking the list is a section of its own before the loop, and
    a program starts after it. *)
Definition flush_go (run : list string) : prog Shared () :=
  match run with
  | newPath :: other :: others => mergeRun_go newPath (other :: others)
  | _ => mret ()
  end.

Fixpoint merge_loop_go (threshold : Z) (run closed : list string) : prog Shared () :=
  match closed with
  | [] => flush_go run
  | path :: closed' =>
    info ← atomically (do_io (os_Stat path));
    match info with
    | Err _ => _ ← flush_go run; merge_loop_go threshold [] closed'
    | Ok size =>
      if size <? threshold then merge_loop_go threshold (run ++ [path]) closed'
      else _ ← flush_go run; merge_loop_go threshold [] closed'
    end
  end.

(** The loop of [runRetentionPass]. *)
Fixpoint retention_loop_go (cutoff : Z) (closed : list string) : prog Shared () :=
  match closed with
  | [] => mret ()
  | path :: closed' =>
    r ← ReadSegments_go [] [path];
    match r with
    | Err _ => retention_loop_go cutoff closed'
    | Ok entries =>
      let maxTS := max_timestamp entries in
      if (0 <? maxTS) && (maxTS <? cutoff) then
        _ ← atomically (critical (λ m, mret (DeleteSegment m path, ())));
        _ ← atomically (do_index (RemoveSegment path));
        _ ← atomically (do_io (os_Remove path));
        _ ← atomically (do_io (os_Remove (BloomPath path)));
        retention_loop_go cutoff closed'
      else retention_loop_go cutoff closed'
    end
  end.
End goroutines.

(** ** Lemmas: running alone *)

Section alone.
Context `{GoUnicode} `{Protobuf} `{Bloom}.
Implicit Types (m : Manager) (d : Disk) (idx : Index).

Lemma alone_io {A B} (c : IO A) (k : A → prog Shared B) m mu idx d :
  run_alone (atomically (do_io c) ≫= k) (mkShared m mu idx d)
  = run_alone (k (c d).1) (mkShared m mu idx (c d).2).
Proof. rewrite run_alone_bind, run_alone_atomically. unfold do_io. cbn. by destruct (c d). Qed.

Lemma alone_manager {A B} (c : Manager → IO (Manager * A)) (k : A → prog Shared B) m mu idx d :
  run_alone (atomically (do_manager c) ≫= k) (mkShared m mu idx d)
  = run_alone (k (c m d).1.2) (mkShared (c m d).1.1 mu idx (c m d).2).
Proof. rewrite run_alone_bind, run_alone_atomically. unfold do_manager. cbn. by destruct (c m d) as [[]]. Qed.

Lemma alone_critical {A B} (c : Manager → IO (Manager * A)) (k : A → prog Shared B) m idx d :
  run_alone (atomically (critical c) ≫= k) (mkShared m None idx d)
  = run_alone (k (c m d).1.2) (mkShared (c m d).1.1 None idx (c m d).2).
Proof. rewrite <- alone_manager. done. Qed.

Lemma alone_index {B} f (k : () → prog Shared B) m mu idx d :
  run_alone (atomically (do_index f) ≫= k) (mkShared m mu idx d)
  = run_alone (k ()) (mkShared m mu (f idx) d).
Proof. done. Qed.

Lemma alone_get {B} (k : Manager → prog Shared B) m mu idx d :
  run_alone (atomically get_manager ≫= k) (mkShared m mu idx d) = run_alone (k m) (mkShared m mu idx d).
Proof. done. Qed.

Lemma alone_set {B} f (k : () → prog Shared B) m mu idx d :
  run_alone (atomically (set_manager f) ≫= k) (mkShared m mu idx d)
  = run_alone (k ()) (mkShared (f m) mu idx d).
Proof. done. Qed.

(** A program that runs alone to the result and the state of a pair. *)
Lemma alone_then {A B} (p : prog Shared A) (k : A → prog Shared B) s a s' :
  run_alone p s = Some (a, s') → run_alone (p ≫= k) s = run_alone (k a) s'.
Proof. intros Hp. by rewrite run_alone_bind, Hp. Qed.
End alone.

(** [alone] runs the actions of a program one after the other. *)
Ltac alone :=
  repeat first
    [ rewrite alone_io | rewrite alone_manager | rewrite alone_critical | rewrite alone_index
    | rewrite alone_get | rewrite alone_set | rewrite run_alone_ret
    | progress io ].

Section sequential.
Context `{GoUnicode} `{Protobuf} `{Bloom}.
Implicit Types (m : Manager) (d : Disk) (idx : Index).

Lemma WriteRecord_alone f data m mu idx d :
  run_alone (WriteRecord_go f data) (mkShared m mu idx d)
  = let '(x, d') := file_WriteRecord f data d in Some (x, mkShared m mu idx d').
Proof.
  unfold WriteRecord_go, file_WriteRecord.
  destruct (WriteRecord_chunks data) as [[|hdr [|payload [|? ?]]]|e]; try done.
  alone. destruct (file_Write f hdr d) as [[f1 [[]|e]] d1]; alone; [|done].
  destruct (file_Write f1 payload d1) as [[f2 [[]|e]] d2]; by alone.
Qed.

Lemma append_active_alone data m mu idx d :
  run_alone (append_active_go data) (mkShared m mu idx d)
  = let '((m', r), d') := append_active m data d in Some (r, mkShared m' mu idx d').
Proof.
  unfold append_active_go, append_active. alone. destruct (active m) as [seg|]; [|done].
  unfold Segment_Append. io. pose proof (WriteRecord_alone (seg_file seg) data m mu idx d) as Hw.
  destruct (file_WriteRecord (seg_file seg) data d) as [[f [[]|e]] d1]; rewrite (alone_then _ _ _ _ _ Hw);
    alone; [|done].
  destruct (file_Sync f d1) as [[[]|e] d2]; by alone.
Qed.

Lemma os_WriteFile_alone path data m mu idx d :
  run_alone (os_WriteFile_go path data) (mkShared m mu idx d)
  = let '(r, d') := os_WriteFile path data d in Some (r, mkShared m mu idx d').
Proof.
  unfold os_WriteFile_go, os_WriteFile. alone. destruct (os_Create path d) as [[f|e] d1]; alone; [|done].
  destruct (file_Write f data d1) as [[f2 r] d2]. by alone.
Qed.

Lemma openNewSegment_alone m mu idx d :
  run_alone openNewSegment_go (mkShared m mu idx d)
  = let '((m', r), d') := openNewSegment m d in Some (r, mkShared m' mu idx d').
Proof.
  unfold openNewSegment_go, openNewSegment. alone.
  destruct (OpenSegment _ d) as [[seg|e] d1]; alone; [|done].
  set (m' := with_nextSeq (uint64 (nextSeq m + 1)) _). change (with_nextSeq _ _) with m'.
  change (mdir m') with (mdir m).
  match goal with |- context [os_WriteFile_go ?p ?data] =>
    pose proof (os_WriteFile_alone p data m' mu idx d1) as Hw;
    destruct (os_WriteFile p data d1) as [r2 d2] end.
  by rewrite (alone_then _ _ _ _ _ Hw).
Qed.

Lemma rotate_alone m mu idx d :
  run_alone rotate_go (mkShared m mu idx d)
  = let '((m', r), d') := rotate m d in Some (r, mkShared m' mu idx d').
Proof.
  unfold rotate_go, rotate. alone. destruct (last (paths m)) as [cp|], (active m) as [seg|]; try done.
  alone. destruct (Segment_Close seg d) as [[[]|e] d1]; alone; [|done].
  set (mc := with_active _ m). change (bloomEnabled mc) with (bloomEnabled m). destruct (bloomEnabled m); alone.
  - destruct (write_segment_bloom mc cp d1) as [m2 d2]. alone. apply openNewSegment_alone.
  - rewrite (alone_then _ _ _ () (mkShared mc mu idx d1)) by done. apply openNewSegment_alone.
Qed.

Lemma appendLocked_alone e m mu idx d :
  run_alone (appendLocked_go e) (mkShared m mu idx d)
  = let '((m', r), d') := appendLocked m e d in Some (r, mkShared m' mu idx d').
Proof.
  unfold appendLocked_go, appendLocked. alone. destruct (active m) as [seg|]; [|done].
  destruct (marshalLogEntry e) as [data|err]; [|done]. destruct (must_rotate m seg data).
  - pose proof (rotate_alone m mu idx d) as Hr. io. destruct (rotate m d) as [[m1 [[]|err]] d1];
      rewrite (alone_then _ _ _ _ _ Hr); [apply append_active_alone|done].
  - apply append_active_alone.
Qed.

Lemma AppendWithPath_alone me e m idx d :
  run_alone (AppendWithPath_go me e) (mkShared m None idx d)
  = let '((m', r), d') := AppendWithPath m e d in Some (r, mkShared m' None idx d').
Proof.
  unfold AppendWithPath_go, AppendWithPath.
  rewrite (alone_then _ _ _ () (mkShared m (Some me) idx d)) by done.
  pose proof (appendLocked_alone e m (Some me) idx d) as Hr. io.
  destruct (appendLocked m e d) as [[m1 [[]|err]] d1]; rewrite (alone_then _ _ _ _ _ Hr); alone;
    rewrite (alone_then _ _ _ () (mkShared m1 None idx d1)) by done; by destruct (last (paths m1)).
Qed.

Lemma prune_alone ast kept ps m idx d :
  run_alone (prune_go ast kept ps) (mkShared m None idx d)
  = Some (kept ++ filter (λ p, keep_path m ast p = true) ps, mkShared m None idx d).
Proof.
  revert kept. induction ps as [|p ps IH]; intros kept; cbn [prune_go].
  - by rewrite app_nil_r.
  - alone. rewrite IH. rewrite filter_cons.
    replace (match BloomFor m p, ast with Some bf, Some n => bloomDefiniteMiss bf n | _, _ => false end)
      with (negb (keep_path m ast p))
      by (unfold keep_path; destruct (BloomFor m p), ast; try done; by rewrite negb_involutive).
    destruct (keep_path m ast p); cbn [negb]; [|done]. by rewrite decide_True, <- app_assoc by done.
Qed.

Lemma ReadSegments_alone all ps m mu idx d :
  run_alone (ReadSegments_go all ps) (mkShared m mu idx d)
  = let '(r, d') := ReadSegments_from all ps d in Some (r, mkShared m mu idx d').
Proof.
  revert all d. induction ps as [|p ps IH]; intros all d; cbn [ReadSegments_go ReadSegments_from]; [done|].
  alone. destruct (ReadSegment p d) as [[es|e] d1]; cbn [fst snd]; [apply IH|].
  destruct (errors_Is e os_ErrNotExist); [apply IH|done].
Qed.

Lemma Execute_alone err1 err2 took req m idx d :
  run_alone (Execute_go err1 err2 took req) (mkShared m None idx d)
  = let '(r, d') := Execute idx m err1 err2 took req d in Some (r, mkShared m None idx d').
Proof.
  unfold Execute_go, Execute. destruct (Limit req <? 0); [done|]. destruct (Offset req <? 0); [done|].
  destruct err1 as [e|]; [done|]. destruct (Parse (QueryString req)) as [ast|e]; [|done].
  set (ps := Resolve idx match ast with Some n => collectTermTokens n | None => [] end
               (qNamespace req) (qService req) (StartTime req) (EndTime req)).
  rewrite (alone_then _ _ _ ps (mkShared m None idx d)) by done.
  rewrite (alone_then _ _ _ _ _ (prune_alone ast [] ps m idx d)). cbn [app].
  change (filter _ ps) with (pruned_paths idx m req ast). unfold read_pruned. io. case_bool_decide; [done|].
  destruct err2 as [e|]; [done|]. io. unfold ReadSegments.
  pose proof (ReadSegments_alone [] (pruned_paths idx m req ast) m None idx d) as Hr.
  destruct (ReadSegments_from [] _ d) as [[raw|e] d1]; by rewrite (alone_then _ _ _ _ _ Hr).
Qed.

(** ** Lemmas: the compactor alone *)

Lemma merge_append_alone b seg tokens all m mu idx d :
  run_alone (merge_append_go b seg tokens all) (mkShared m mu idx d)
  = let '(x, d') := merge_append b seg tokens all d in Some (x, mkShared m mu idx d').
Proof.
  revert seg tokens d. induction all as [|e all IH]; intros seg tokens d; cbn [merge_append_go merge_append];
    [done|].
  destruct (marshalLogEntry e) as [pb|err]; [|done]. alone.
  destruct (Segment_Append seg pb d) as [[seg1 [[]|err]] d1]; cbn [fst snd]; [apply IH|done].
Qed.

Lemma RemoveSegments_alone ps m mu idx d :
  run_alone (RemoveSegments_go ps) (mkShared m mu idx d)
  = Some ((), mkShared m mu (remove_segments ps idx) d).
Proof. revert idx. induction ps as [|p ps IH]; intros idx; [done|]. apply IH. Qed.

Lemma Add_all_alone path es m mu idx d :
  run_alone (Add_all_go path es) (mkShared m mu idx d)
  = Some ((), mkShared m mu (add_entries path es idx) d).
Proof. revert idx. induction es as [|e es IH]; intros idx; [done|]. apply IH. Qed.

Lemma delete_files_alone ps m mu idx d :
  run_alone (delete_files_go ps) (mkShared m mu idx d)
  = let '(_, d') := delete_files ps d in Some ((), mkShared m mu idx d').
Proof.
  revert d. induction ps as [|op ps IH]; intros d; cbn [delete_files_go delete_files]; [done|].
  alone. apply IH.
Qed.

Lemma restore_index_alone ps m mu idx cfg d :
  ∃ idx', (restore_index ps (mkCompactor m (Some idx) cfg) d).1 = mkCompactor m (Some idx') cfg ∧
    run_alone (restore_index_go ps) (mkShared m mu idx d)
    = Some ((), mkShared m mu idx' (restore_index ps (mkCompactor m (Some idx) cfg) d).2).
Proof.
  revert idx d. induction ps as [|op ps IH]; intros idx d; cbn [restore_index_go restore_index]; [by exists idx|].
  io. pose proof (ReadSegments_alone [] [op] m mu idx d) as Hr. unfold ReadSegments.
  destruct (ReadSegments_from [] [op] d) as [[es|e] d1]; rewrite (alone_then _ _ _ _ _ Hr); cbn [fst snd].
  - rewrite (alone_then _ _ _ _ _ (Add_all_alone op es m mu idx d1)). apply IH.
  - rewrite (alone_then _ _ _ () (mkShared m mu idx d1)) by done. apply IH.
Qed.

Lemma mergeRun_alone newPath others m idx cfg d :
  ∃ m' idx', (mergeRun newPath others (mkCompactor m (Some idx) cfg) d).1 = mkCompactor m' (Some idx') cfg ∧
    run_alone (mergeRun_go newPath others) (mkShared m None idx d)
    = Some ((), mkShared m' None idx' (mergeRun newPath others (mkCompactor m (Some idx) cfg) d).2).
Proof.
  unfold mergeRun_go, mergeRun. io. unfold ReadSegments.
  pose proof (ReadSegments_alone [] (newPath :: others) m None idx d) as Hr.
  destruct (ReadSegments_from [] (newPath :: others) d) as [[all|e] d1]; rewrite (alone_then _ _ _ _ _ Hr);
    cbn [fst snd]; [|by eexists _, _].
  alone. destruct (os_Remove _ d1) as [r2 d2]. alone.
  destruct (OpenSegment _ d2) as [[seg|e] d3]; cbn [fst snd]; [|by eexists _, _]. alone. cbn [c_manager].
  pose proof (merge_append_alone (bloomEnabled m) seg [] all m None idx d3) as Ha.
  destruct (merge_append _ seg [] all d3) as [[[seg1 tokens] ok] d4].
  rewrite (alone_then _ _ _ _ _ Ha). alone. destruct (Segment_Close seg1 d4) as [r5 d5]. cbn [fst snd].
  destruct ok; cbn [negb]; alone; [|by eexists _, _].
  rewrite (alone_then _ _ _ _ _ (RemoveSegments_alone (newPath :: others) m None idx d5)). alone.
  change (with_idx (remove_segments (newPath :: others)) (mkCompactor m (Some idx) cfg))
    with (mkCompactor m (Some (remove_segments (newPath :: others) idx)) cfg).
  destruct (os_Rename _ newPath d5) as [[[]|e] d6]; cbn [fst snd].
  - unfold finish_merge. cbn [c_manager]. io.
    set (write := if bloomEnabled m && _ then _ else _).
    assert (∃ r7 d7, write d6 = (r7, d7)) as (r7 & d7 & Hw) by (destruct (write d6); eauto).
    rewrite Hw. cbn [fst snd].
    rewrite (alone_then _ _ _ r7 (mkShared m None (remove_segments (newPath :: others) idx) d7)).
    2: { subst write. destruct (bloomEnabled m && _).
         - rewrite run_alone_atomically. unfold do_io. cbn [sh_disk]. by rewrite Hw.
         - by injection Hw as <- <-. }
    rewrite (alone_then _ _ _ _ _ (Add_all_alone _ _ _ _ _ _)). alone.
    unfold install_merged. io. rewrite delete_files_alone.
    match goal with |- context [(if bloomEnabled m then ?c else ?c') d7] =>
      destruct ((if bloomEnabled m then c else c') d7) as [loaded d8] end. cbn [fst snd].
    destruct (delete_files others d8) as [[] d9]. cbn [fst snd]. by eexists _, _.
  - alone. destruct (os_Remove _ d6) as [r7 d7]. cbn [fst snd c_idx].
    destruct (restore_index_alone (newPath :: others) m None (remove_segments (newPath :: others) idx) cfg d7)
      as (idx' & Hc & ->). by exists m, idx'.
Qed.

Lemma flush_alone run m idx cfg d :
  ∃ m' idx', (flush run (mkCompactor m (Some idx) cfg) d).1 = mkCompactor m' (Some idx') cfg ∧
    run_alone (flush_go run) (mkShared m None idx d)
    = Some ((), mkShared m' None idx' (flush run (mkCompactor m (Some idx) cfg) d).2).
Proof. destruct run as [|p [|q run]]; cbn [flush flush_go]; [by eexists _, _..|]. apply mergeRun_alone. Qed.

Lemma merge_loop_alone run closed m idx cfg d :
  ∃ m' idx', (merge_loop run closed (mkCompactor m (Some idx) cfg) d).1 = mkCompactor m' (Some idx') cfg ∧
    run_alone (merge_loop_go (MergeThresholdBytes cfg) run closed) (mkShared m None idx d)
    = Some ((), mkShared m' None idx' (merge_loop run closed (mkCompactor m (Some idx) cfg) d).2).
Proof.
  revert run m idx d. induction closed as [|p closed IH]; intros run m idx d;
    cbn [merge_loop merge_loop_go]; [apply flush_alone|].
  assert (∀ d1, ∃ m' idx',
    ((c ← flush run (mkCompactor m (Some idx) cfg); merge_loop [] closed c) d1).1
      = mkCompactor m' (Some idx') cfg ∧
    run_alone (_ ← flush_go run; merge_loop_go (MergeThresholdBytes cfg) [] closed) (mkShared m None idx d1)
    = Some ((), mkShared m' None idx'
        ((c ← flush run (mkCompactor m (Some idx) cfg); merge_loop [] closed c) d1).2)) as Hflush.
  { intros d1. destruct (flush_alone run m idx cfg d1) as (m1 & idx1 & Hc & Hr).
    rewrite (alone_then _ _ _ _ _ Hr). io. rewrite Hc. apply IH. }
  alone. destruct (os_Stat p d) as [[size|e] d1]; cbn [fst snd c_cfg]; [|apply Hflush].
  destruct (size <? _); [apply IH|apply Hflush].
Qed.

Lemma retention_loop_alone cutoff closed m idx cfg d :
  ∃ m' idx', (retention_loop cutoff closed (mkCompactor m (Some idx) cfg) d).1 = mkCompactor m' (Some idx') cfg ∧
    run_alone (retention_loop_go cutoff closed) (mkShared m None idx d)
    = Some ((), mkShared m' None idx' (retention_loop cutoff closed (mkCompactor m (Some idx) cfg) d).2).
Proof.
  revert m idx d. induction closed as [|p closed IH]; intros m idx d;
    cbn [retention_loop retention_loop_go]; [by eexists _, _|].
  io. pose proof (ReadSegments_alone [] [p] m None idx d) as Hr. unfold ReadSegments.
  destruct (ReadSegments_from [] [p] d) as [[es|e] d1]; rewrite (alone_then _ _ _ _ _ Hr); cbn [fst snd];
    [|apply IH].
  destruct (_ && _); [|apply IH]. alone. cbn [c_manager c_idx c_cfg with_manager with_idx]. apply IH.
Qed.

(** ** Properties *)

(** Each goroutine program is the operation of the sequential model cut into atomic
    actions: run with nobody else around, from a state where the mutex is free, a write
    does what [AppendWithPath] and [Add] do, a query what [Execute] does, and the two
    passes of the compactor what their loops do, with the same result and the same
    manager, index and disk at the end, whichever system calls fail; and the mutex is
    released. *)
Theorem goroutines_alone (m : Manager) (idx : Index) (d : Disk) :
  (∀ me msg e,
     run_alone (write_go me msg e) (mkShared m None idx d)
     = let '((m', r), d') := AppendWithPath m e d in
       Some (match r with
             | Ok p => (Ok (), mkShared m' None (Add e p idx) d')
             | Err _ => (Err (grpc_Status codes_Internal msg), mkShared m' None idx d')
             end)) ∧
  (∀ err1 err2 took req,
     run_alone (Execute_go err1 err2 took req) (mkShared m None idx d)
     = let '(r, d') := Execute idx m err1 err2 took req d in Some (r, mkShared m None idx d')) ∧
  (∀ cfg run closed, ∃ m' idx' d',
     merge_loop run closed (mkCompactor m (Some idx) cfg) d = (mkCompactor m' (Some idx') cfg, d') ∧
     run_alone (merge_loop_go (MergeThresholdBytes cfg) run closed) (mkShared m None idx d)
     = Some ((), mkShared m' None idx' d')) ∧
  (∀ cfg cutoff closed, ∃ m' idx' d',
     retention_loop cutoff closed (mkCompactor m (Some idx) cfg) d = (mkCompactor m' (Some idx') cfg, d') ∧
     run_alone (retention_loop_go cutoff closed) (mkShared m None idx d)
     = Some ((), mkShared m' None idx' d')).
Proof.
  split_and!.
  - intros me msg e. unfold write_go. pose proof (AppendWithPath_alone me e m idx d) as Hr.
    destruct (AppendWithPath m e d) as [[m' [p|err]] d']; by rewrite (alone_then _ _ _ _ _ Hr).
  - intros err1 err2 took req. apply Execute_alone.
  - intros cfg run closed. destruct (merge_loop_alone run closed m idx cfg d) as (m' & idx' & Hc & Hr).
    destruct (merge_loop _ _ _ _) as [c d']. cbn in Hc, Hr. subst c. eauto 6.
  - intros cfg cutoff closed. destruct (retention_loop_alone cutoff closed m idx cfg d) as (m' & idx' & Hc & Hr).
    destruct (retention_loop _ _ _ _) as [c d']. cbn in Hc, Hr. subst c. eauto 6.
Qed.
End sequential.
