(* ===== verification/Rely.v ===== *)
(** * What the goroutines of a node rely on and guarantee

    A [setting] fixes the data directory, the closed segments a compaction pass
    may merge or delete, the entries that exist or are being written, the
    goroutines that write, the one that compacts, the entries the compactor must
    keep, and whether filters are on. The invariant [inv] holds between any two
    actions: every segment file holds whole records of known entries, followed by
    a part of a record only while a writer holds the mutex; whenever the mutex is
    free the manager is in step with the disk, the marker names the active segment
    and the filters, in memory and in the sidecar files, cover the segments that
    are not compacted. [Requests] and [Compacting] prove the judgements of the
    programs of [Goroutines]; [Races] and [Crash] compose them. *)

From S2P Require Import Prelude GoStrings Types Record Disk Segment Ranking Index Parser Bloom.
From S2P Require Import Paths Manager Executor Recovery Fanout Ingest Compaction Threads Goroutines.

Record setting := mkSetting {
  data_dir : string;
  compacted : list string;
  known : list LogEntry;
  writer : nat → Prop;
  compactor : option nat;
  must_keep : LogEntry → Prop;
  filtering : bool;
}.

(** A segment file of the data directory. *)
Definition is_seg (W : setting) (p : string) : Prop := in_dir_seg (data_dir W) p = true.

(** ** Specification *)

Section rely.
Context `{GoUnicode} `{Protobuf} `{Bloom}.
Context (W : setting).
Notation T := (compacted W).
Notation U := (known W).
Notation dir := (data_dir W).
Notation is_seg := (is_seg W).

(** Whole records of known entries, then a strict part of one more record, empty
    unless [torn]. *)
Definition file_ok (torn : Prop) (content : list byte) : Prop :=
  ∃ bytes es data k, content = bytes ++ take k (frame data) ∧ holds bytes es ∧ (∀ e, e ∈ es → e ∈ U) ∧
    len data ≤ maxRecordSize ∧ (k < length (frame data))%nat ∧ ((0 < k)%nat → torn).

(** A record of the entry is in the file. *)
Definition in_file (d : Disk) (p : string) (e : LogEntry) : Prop :=
  ∃ bytes es rest, files d !! p = Some (bytes ++ rest) ∧ holds bytes es ∧ e ∈ es.

(** The sidecar of a segment, if it can be read, is a filter that covers [es]. *)
Definition side_covers (d : Disk) (p : string) (es : list LogEntry) : Prop :=
  ∀ fb bf, files d !! BloomPath p = Some fb → ReadFrom fb = Some bf → covers bf es.

(** The entry is on disk where a restart will find it. *)
Definition shelved (d : Disk) (p : string) (e : LogEntry) : Prop :=
  in_file d p e ∧ side_covers d p [e].

Definition indexed (idx : Index) (e : LogEntry) (p : string) : Prop :=
  ∃ l, Represents idx l ∧ (e, p) ∈ l.

(** The entry is on disk and in the index, in a segment no compaction touches. *)
Definition visible (s : Shared) (e : LogEntry) (p : string) : Prop :=
  p ∉ T ∧ is_seg p ∧ indexed (sh_index s) e p ∧ in_file (sh_disk s) p e.

(** The manager in step with the disk, the segments of [T] aside. *)
Record mgr_inv (m : Manager) (d : Disk) : Prop := {
  mi_dir : mdir m = dir;
  mi_active : ∃ seg bytes es, active m = Some seg ∧ last (paths m) = Some (f_path (seg_file seg)) ∧
    seg_at d seg bytes ∧ holds bytes es ∧ (∀ e, e ∈ es → e ∈ U) ∧ f_path (seg_file seg) ∉ T;
  mi_marker : ∃ n, 0 ≤ n < 2 ^ 64 ∧ last (paths m) = Some (seq_path dir n) ∧
    files d !! marker_path dir = Some (String.list_byte_of_string (segment_name n));
  mi_fresh : ∀ n, nextSeq m ≤ n < 2 ^ 64 →
    seq_path dir n ∉ T ∧ files d !! seq_path dir n = None;
  mi_seq : 0 ≤ nextSeq m < 2 ^ 64;
  mi_blooms : ∀ p bf, p ∉ T → blooms m !! p = Some bf →
    is_seg p ∧ last (paths m) ≠ Some p ∧
    ∃ bytes es, files d !! p = Some bytes ∧ holds bytes es ∧ covers bf es;
  mi_sides : ∀ p fb bf, is_seg p → p ∉ T → files d !! BloomPath p = Some fb → ReadFrom fb = Some bf →
    last (paths m) ≠ Some p ∧
    ∃ bytes es, files d !! p = Some bytes ∧ holds bytes es ∧ covers bf es;
}.

(** Sequence numbers and segment sizes for [n] more turns. *)
Definition room (n : nat) (m : Manager) : Prop :=
  nextSeq m + Z.of_nat n + 1 < 2 ^ 64 ∧ 2 ^ 27 * (Z.of_nat n + 1) < 2 ^ 63 ∧
  ∀ seg, active m = Some seg → seg_size seg + 2 ^ 27 * (Z.of_nat n + 1) < 2 ^ 63.

(** Where a part of a record may be: in the active segment, under the mutex. *)
Definition torn_at (s : Shared) (p : string) : Prop :=
  is_Some (sh_mu s) ∧ last (paths (sh_manager s)) = Some p.

Record inv (n : nat) (s : Shared) : Prop := {
  inv_faults : no_faults (sh_disk s);
  inv_room : room n (sh_manager s);
  inv_files : ∀ p content, is_seg p → files (sh_disk s) !! p = Some content →
    file_ok (torn_at s p) content;
  inv_index : ∃ l, Represents (sh_index s) l ∧ ∀ e p, (e, p) ∈ l → is_seg p;
  inv_holder : ∀ i, sh_mu s = Some i → writer W i;
  inv_filters : bloomEnabled (sh_manager s) = filtering W;
  inv_sides : filtering W = false → ∀ p, p ∈ T → files (sh_disk s) !! BloomPath p = None;
  inv_manager : sh_mu s = None → mgr_inv (sh_manager s) (sh_disk s);
}.

(** The files only the holder of the mutex writes: segments outside [T], their
    sidecars and the marker. They are the same in two disks. *)
Record agree (d d' : Disk) : Prop := {
  agree_seg : ∀ p, is_seg p → p ∉ T → files d' !! p = files d !! p;
  agree_side : ∀ p, is_seg p → p ∉ T → files d' !! BloomPath p = files d !! BloomPath p;
  agree_marker : files d' !! marker_path dir = files d !! marker_path dir;
}.

(** Segment files outside [T] are the same or longer. *)
Definition grows (d d' : Disk) : Prop :=
  ∀ p b, is_seg p → p ∉ T → files d !! p = Some b → ∃ b', files d' !! p = Some (b ++ b').

(** The segments being compacted, their sidecars and their temporary files belong
    to the compactor. *)
Definition leaves_compacted (d d' : Disk) : Prop :=
  ∀ p, p ∈ T → files d' !! p = files d !! p ∧ files d' !! BloomPath p = files d !! BloomPath p ∧
    files d' !! (p +:+ ".tmp") = files d !! (p +:+ ".tmp").

(** The compactor keeps the entries it must keep on the shelves of [T]. *)
Definition retains (d d' : Disk) : Prop :=
  ∀ e p, must_keep W e → p ∈ T → shelved d p e → ∃ q, q ∈ T ∧ shelved d' q e.

(** What every goroutine does for every other: files grow, postings stay, entries are
    kept. *)
Definition common (s s' : Shared) : Prop :=
  grows (sh_disk s) (sh_disk s') ∧
  (∀ e p, p ∉ T → indexed (sh_index s) e p → indexed (sh_index s') e p) ∧
  retains (sh_disk s) (sh_disk s').

(** The mutex protects its holder [i]; nobody locks or unlocks for another. *)
Definition protects (i : nat) (s s' : Shared) : Prop :=
  (sh_mu s = Some i → sh_mu s' = Some i ∧ sh_manager s' = sh_manager s ∧ agree (sh_disk s) (sh_disk s')) ∧
  (sh_mu s ≠ Some i → sh_mu s' ≠ Some i).

Definition relies (i : nat) (s s' : Shared) : Prop :=
  common s s' ∧ protects i s s' ∧ (compactor W = Some i → leaves_compacted (sh_disk s) (sh_disk s')).
Definition guarantees (i : nat) (s s' : Shared) : Prop :=
  common s s' ∧ (∀ j, j ≠ i → protects j s s') ∧
  (compactor W ≠ Some i → leaves_compacted (sh_disk s) (sh_disk s')).

(** The states in which goroutine [i] is not blocked. *)
Definition free_for (i : nat) (s : Shared) : Prop := sh_mu s = None ∨ sh_mu s = Some i.

Definition judge {A} (i : nat) : prog Shared A → (A → Shared → Prop) → Shared → Prop :=
  spec inv (relies i) (guarantees i) (free_for i).
End rely.

#[global] Arguments judge {_ _ _} _ {_} _ _ _ _ : simpl never.

(** ** Lemmas: the relations *)

Lemma is_seg_suffix W p : is_seg W p → HasSuffix p ".seg" = true.
Proof. apply in_dir_seg_suffix. Qed.

Lemma seq_path_is_seg W n : 0 ≤ n → is_seg W (seq_path (data_dir W) n).
Proof. apply seq_path_in_dir. Qed.

Section relations.
Context `{GoUnicodeLaws} `{ProtobufLaws} `{BloomLaws}.
Context (W : setting).
Notation T := (compacted W).
Notation U := (known W).

Lemma leaves_refl d : leaves_compacted W d d.
Proof. by intros p. Qed.

Lemma leaves_trans d1 d2 d3 :
  leaves_compacted W d1 d2 → leaves_compacted W d2 d3 → leaves_compacted W d1 d3.
Proof.
  intros Ha Hb p Hp. destruct (Ha p Hp) as (? & ? & ?), (Hb p Hp) as (? & ? & ?). split_and!; congruence.
Qed.

Lemma leaves_shelved d d' p e : leaves_compacted W d d' → p ∈ T → shelved d p e → shelved d' p e.
Proof.
  intros Hl Hp [(b & es & rest & Hf & Hin) Hs]. destruct (Hl p Hp) as (Hp1 & Hp2 & _). split.
  - exists b, es, rest. by rewrite Hp1.
  - intros fb bf. rewrite Hp2. apply Hs.
Qed.

Lemma leaves_retains d d' : leaves_compacted W d d' → retains W d d'.
Proof. intros Hl e p _ Hp Hs. exists p. split; [done|]. by eapply leaves_shelved. Qed.

Lemma agree_refl d : agree W d d.
Proof. by split. Qed.

Lemma agree_trans d1 d2 d3 : agree W d1 d2 → agree W d2 d3 → agree W d1 d3.
Proof. intros [A1 A2 A3] [B1 B2 B3]. split; [intros; by rewrite B1, A1..|intros; by rewrite B2, A2|congruence]. Qed.

Lemma agree_grows d d' : agree W d d' → grows W d d'.
Proof. intros [Ha _ _] p b Hs Hp Hb. exists []. rewrite app_nil_r. by rewrite Ha. Qed.

#[export] Instance common_preorder : PreOrder (common W).
Proof.
  split.
  - intros s. split_and!; [apply agree_grows, agree_refl|done|apply leaves_retains, leaves_refl].
  - intros s1 s2 s3 (Hg1 & Hi1 & Hr1) (Hg2 & Hi2 & Hr2). split_and!; [|by auto|].
    + intros p b Hs Hp Hb.
      destruct (Hg1 p b Hs Hp Hb) as [b1 Hb1]. destruct (Hg2 p _ Hs Hp Hb1) as [b2 Hb2].
      exists (b1 ++ b2). by rewrite app_assoc.
    + intros e p He Hp Hs. destruct (Hr1 e p He Hp Hs) as (q & Hq & Hs'). by eapply Hr2.
Qed.

#[export] Instance relies_preorder i : PreOrder (relies W i).
Proof.
  split.
  - intros s. split_and!; [done| |intros _; apply leaves_refl].
    split; [|done]. intros Hmu. split_and!; [done..|apply agree_refl].
  - intros s1 s2 s3 (Hc1 & [Hp1 Hq1] & Hl1) (Hc2 & [Hp2 Hq2] & Hl2). split_and!.
    + by etrans.
    + split; [|by auto]. intros (Hm & Hmm & Ha)%Hp1. destruct (Hp2 Hm) as (? & ? & Ha2).
      split_and!; [done|congruence|by eapply agree_trans].
    + intros Hc. eapply leaves_trans; auto.
Qed.

Lemma guarantees_relies i j s s' : i ≠ j → guarantees W j s s' → relies W i s s'.
Proof.
  intros Hij (Hc & Hp & Hl). split_and!; [done|by apply Hp|]. intros Hi. apply Hl. congruence.
Qed.

Lemma guarantees_common j s s' : guarantees W j s s' → common W s s'.
Proof. by intros [? _]. Qed.

(** The common part when the disk does not change. *)
Lemma common_disk s s' :
  sh_disk s' = sh_disk s →
  (∀ e p, p ∉ T → indexed (sh_index s) e p → indexed (sh_index s') e p) → common W s s'.
Proof.
  intros Hd Hi. unfold common. rewrite Hd.
  split_and!; [apply agree_grows, agree_refl|done|apply leaves_retains, leaves_refl].
Qed.

Lemma protects_free i s s' : sh_mu s = None → sh_mu s' = None → protects W i s s'.
Proof. intros H1' H2'. split; rewrite ?H1', ?H2'; done. Qed.

Lemma relies_mu i s s' : relies W i s s' → sh_mu s ≠ Some i → sh_mu s' ≠ Some i.
Proof. intros (_ & [_ Hp] & _). apply Hp. Qed.

Lemma relies_held i s s' :
  relies W i s s' → sh_mu s = Some i →
  sh_mu s' = Some i ∧ sh_manager s' = sh_manager s ∧ agree W (sh_disk s) (sh_disk s').
Proof. intros (_ & [Hp _] & _). apply Hp. Qed.

Lemma guarantees_refl i s : guarantees W i s s.
Proof.
  split_and!; [done| |intros _; apply leaves_refl].
  intros j _. split; [|done]. intros Hmu. split_and!; [done..|apply agree_refl].
Qed.

Lemma room_weaken n m : room (S n) m → room n m.
Proof. intros (? & ? & Hr). split_and!; [lia|lia|]. intros seg Hs%Hr. lia. Qed.

Lemma file_ok_weaken (P Q : Prop) content : (P → Q) → file_ok W P content → file_ok W Q content.
Proof.
  intros HPQ (bytes & es & data & k & ? & ? & ? & ? & ? & Hk). exists bytes, es, data, k.
  split_and!; [done..|]. intros ?. by apply HPQ, Hk.
Qed.

Lemma file_ok_holds P bytes es :
  holds bytes es → (∀ e, e ∈ es → e ∈ U) → file_ok W P bytes.
Proof.
  intros Hh Hu. exists bytes, es, [], 0%nat. rewrite app_nil_r. split_and!; try done; [|lia].
  rewrite frame_length. lia.
Qed.

(** A file that is not torn holds its records. *)
Lemma file_ok_whole (P : Prop) content :
  ¬ P → file_ok W P content → ∃ es, holds content es ∧ ∀ e, e ∈ es → e ∈ U.
Proof.
  intros HP (bytes & es & data & k & -> & Hh & Hu & _ & _ & Hk). exists es. split; [|done].
  destruct k; [by rewrite take_0, app_nil_r|]. destruct HP. apply Hk. lia.
Qed.

(** A file between two writes of a record, or after the second. *)
Lemma file_ok_append (P : Prop) bytes es e data k :
  P → holds bytes es → (∀ e, e ∈ es → e ∈ U) → e ∈ U → marshalLogEntry e = Ok data →
  len data ≤ maxRecordSize → file_ok W P (bytes ++ take k (frame data)).
Proof.
  intros HP Hh Hu He Hm Hl. destruct (decide (k < length (frame data))%nat) as [Hk|Hk].
  - exists bytes, es, data, k. split_and!; done.
  - rewrite take_ge by lia. apply (file_ok_holds _ _ (es ++ [e])); [by apply holds_snoc|].
    intros x [?| ->%list_elem_of_singleton]%elem_of_app; auto.
Qed.

Lemma mi_active_seg m d seg :
  mgr_inv W m d → last (paths m) = Some (f_path (seg_file seg)) → is_seg W (f_path (seg_file seg)).
Proof.
  intros Hm Hl. destruct (mi_marker _ _ _ Hm) as (n & Hn & Hl' & _). rewrite Hl in Hl'.
  injection Hl' as ->. apply seq_path_is_seg. lia.
Qed.

Lemma mgr_inv_agree m d d' : mgr_inv W m d → agree W d d' → mgr_inv W m d'.
Proof.
  intros Hm Hag. pose proof (mi_active_seg m d) as Hseg. specialize (λ seg, Hseg seg Hm).
  destruct Hm as [Hd (seg & bytes & es & Ha & Hl & (Hf & Hat) & Hh & Hu & HT) (n & Hn & Hln & Hmk) Hfr Hsq Hb Hsd].
  specialize (Hseg seg Hl). destruct Hag as [A1 A2 A3]. split; [done|..].
  - exists seg, bytes, es. split_and!; try done. split; [by rewrite A1|done].
  - exists n. by rewrite A3.
  - intros k Hk. destruct (Hfr k Hk) as [Hk1 Hk2]. split; [done|]. rewrite A1; [done| |done].
    apply seq_path_is_seg. lia.
  - done.
  - intros p bf Hp Hbf. destruct (Hb p bf Hp Hbf) as (? & ? & ?). by rewrite A1.
  - intros p fb bf Hs Hp. rewrite A2, A1 by done. by apply Hsd.
Qed.

Lemma inv_weaken n s : inv W (S n) s → inv W n s.
Proof. intros [? ? ? ? ? ? ? ?]. split; auto using room_weaken. Qed.

(** ** Lemmas: the indexed entries *)

Lemma indexed_Add idx e p e' p' : indexed idx e p → indexed (Add e' p' idx) e p.
Proof. intros (l & Hr & Hin). eexists. split; [by apply Add_represents|]. set_solver. Qed.

Lemma indexed_RemoveSegment idx e p p' : p ≠ p' → indexed idx e p → indexed (RemoveSegment p' idx) e p.
Proof.
  intros Hne (l & Hr & Hin). eexists. split; [by apply RemoveSegment_represents|].
  apply list_elem_of_filter. by split.
Qed.

Lemma inv_index_Add idx e p :
  (∃ l, Represents idx l ∧ ∀ e p, (e, p) ∈ l → is_seg W p) → is_seg W p →
  (∃ l, Represents (Add e p idx) l ∧ ∀ e p, (e, p) ∈ l → is_seg W p) ∧ indexed (Add e p idx) e p.
Proof.
  intros (l & Hr & Hl) Hp. apply (Add_represents idx l e p) in Hr. split.
  - eexists. split; [done|]. set_solver.
  - eexists. split; [done|]. set_solver.
Qed.

(** A matching entry of the index is in a segment that is resolved. *)
Lemma indexed_resolved idx e p req ast :
  indexed idx e p → entry_matches req ast e = true →
  p ∈ Resolve idx (match ast with Some n => collectTermTokens n | None => [] end)
        (qNamespace req) (qService req) (StartTime req) (EndTime req).
Proof.
  intros (l & Hr & Hin) Hm. apply (Resolve_elem idx l); [done|].
  apply entry_matches_spec in Hm as (Hns & Hsv & Hma & Hts & Hte).
  unfold may_hold. split_and!; [naive_solver| |naive_solver..].
  intros tok Htok. exists e. split; [done|].
  destruct ast as [n|]; [|set_solver]. by eapply collectTermTokens_sound.
Qed.

Lemma resolved_seg n s req tokens p :
  inv W n s → p ∈ Resolve (sh_index s) tokens (qNamespace req) (qService req) (StartTime req) (EndTime req) →
  is_seg W p.
Proof.
  intros [_ _ _ (l & Hr & Hl) _ _ _ _] Hp.
  apply (Resolve_elem _ l) in Hp as ((e & He) & _); [|done]. eauto.
Qed.

(** ** Lemmas: what is on disk *)

Lemma in_file_grows d d' p e : is_seg W p → p ∉ T → grows W d d' → in_file d p e → in_file d' p e.
Proof.
  intros Hs Hp Hg (bytes & es & rest & Hf & Hh & He). destruct (Hg p _ Hs Hp Hf) as [b' Hb'].
  exists bytes, es, (rest ++ b'). by rewrite app_assoc.
Qed.

Lemma visible_common s s' e p : common W s s' → visible W s e p → visible W s' e p.
Proof.
  intros (Hg & Hi & _) (Hp & Hs & Hidx & Hf). split_and!; [done..|by apply Hi|].
  by eapply in_file_grows.
Qed.

(** Whole records at the start of a file that is whole are among its entries. *)
Lemma holds_prefix_elem bytes es rest es' e :
  holds bytes es → holds (bytes ++ rest) es' → e ∈ es → e ∈ es'.
Proof.
  intros Hh. revert es'. induction Hh as [|e0 data bytes es Hm Hl Hh IH]; intros es' Hh' He; [set_solver|].
  rewrite <- app_assoc in Hh'. remember (frame data ++ bytes ++ rest) as c eqn:E in Hh'.
  destruct Hh' as [|e1 data1 b1 es1 Hm1 Hl1 Hh1].
  { apply (f_equal length) in E. rewrite !length_app, frame_length in E. cbn in E. lia. }
  pose proof (ReadRecord_frame data (bytes ++ rest) None Hl) as R1.
  pose proof (ReadRecord_frame data1 b1 None Hl1) as R2. rewrite E, R1 in R2. simplify_eq.
  assert (e1 = e0) as ->.
  { pose proof (unmarshal_entry e0 data1 Hm). pose proof (unmarshal_entry e1 data1 Hm1). congruence. }
  apply elem_of_cons in He as [->|He]; [set_solver|]. apply elem_of_cons. right. by apply IH.
Qed.

Lemma in_file_whole d p bytes es e : files d !! p = Some bytes → holds bytes es → in_file d p e → e ∈ es.
Proof.
  intros Hf Hh (b & es' & rest & Hf' & Hh' & He). rewrite Hf in Hf'. simplify_eq. by eapply holds_prefix_elem.
Qed.

Lemma covers_sub bf es es' : (∀ e, e ∈ es' → e ∈ es) → covers bf es → covers bf es'.
Proof. intros Hsub Hc e tok He. apply Hc. auto. Qed.
End relations.

(** ** Lemmas: the judgement, action by action *)

Section actions.
Context `{GoUnicodeLaws} `{ProtobufLaws} `{BloomLaws}.
Context (W : setting).
Notation T := (compacted W).
Notation inv := (inv W).
Notation relies := (relies W).
Notation guarantees := (guarantees W).
Notation judge := (judge W).

Lemma judge_bind {A B} i (p : prog Shared A) (k : A → prog Shared B) Q s :
  judge i p (λ a s', judge i (k a) Q s') s → judge i (p ≫= k) Q s.
Proof. apply spec_bind. Qed.

Lemma judge_ret {A} i (a : A) (Q : A → Shared → Prop) s : Q a s → judge i (mret a) Q s.
Proof. done. Qed.

Lemma judge_mono {A} i (p : prog Shared A) (Q Q' : A → Shared → Prop) s :
  (∀ a s', Q a s' → Q' a s') → judge i p Q s → judge i p Q' s.
Proof. apply spec_mono. Qed.

Lemma judge_act {A} i (f : action Shared A) Q s :
  (∀ n s1, relies i s s1 → inv (S n) s1 → (free_for i s1 → is_Some (f s1)) ∧
     ∀ x s2, f s1 = Some (x, s2) → inv n s2 ∧ guarantees i s1 s2 ∧ Q x s2) →
  judge i (atomically f) Q s.
Proof. apply spec_atomically. Qed.

(** A look at the shared state. *)
Lemma judge_look {A} i (f : Shared → A) Q s :
  (∀ n s1, relies i s s1 → inv (S n) s1 → Q (f s1) s1) →
  judge i (atomically (λ s, Some (f s, s))) Q s.
Proof.
  intros HQ. apply judge_act. intros n s1 HR Hinv. split; [by eexists|].
  intros x s2 [= <- <-]. split_and!; [by apply inv_weaken|apply guarantees_refl|by eapply HQ].
Qed.

Lemma judge_get i Q s :
  (∀ n s1, relies i s s1 → inv (S n) s1 → Q (sh_manager s1) s1) → judge i (atomically get_manager) Q s.
Proof. apply (judge_look i sh_manager). Qed.

Lemma judge_io {A} i (c : IO A) Q s :
  (∀ n s1, relies i s s1 → inv (S n) s1 → let d' := (c (sh_disk s1)).2 in
     inv n (put_disk d' s1) ∧ guarantees i s1 (put_disk d' s1) ∧ Q (c (sh_disk s1)).1 (put_disk d' s1)) →
  judge i (atomically (do_io c)) Q s.
Proof.
  intros HQ. apply judge_act. intros n s1 HR Hinv. unfold do_io. specialize (HQ n s1 HR Hinv).
  destruct (c (sh_disk s1)) as [a d']. split; [by eexists|]. by intros x s2 [= <- <-].
Qed.

Lemma put_disk_id s : put_disk (sh_disk s) s = s.
Proof. by destruct s. Qed.

(** A file operation that only reads. *)
Lemma judge_io_read {A} i (c : IO A) Q s :
  (∀ d, no_faults d → (c d).2 = d) →
  (∀ n s1, relies i s s1 → inv (S n) s1 → Q (c (sh_disk s1)).1 s1) →
  judge i (atomically (do_io c)) Q s.
Proof.
  intros Hc HQ. apply judge_io. intros n s1 HR Hinv. cbn zeta.
  rewrite Hc, put_disk_id by (by destruct Hinv).
  split_and!; [by apply inv_weaken|apply guarantees_refl|by eapply HQ].
Qed.

(** A file operation of the compactor: it leaves alone what the mutex protects, keeps
    all segments whole and the entries it must keep shelved, and writes no filters
    when they are off. *)
Record compactor_step (s : Shared) (d' : Disk) : Prop := {
  cs_faults : no_faults d';
  cs_agree : agree W (sh_disk s) d';
  cs_files : ∀ p x, is_seg W p → files d' !! p = Some x →
    files (sh_disk s) !! p = Some x ∨ file_ok W (torn_at s p) x;
  cs_retains : retains W (sh_disk s) d';
  cs_sides : filtering W = false → ∀ p, p ∈ T → files (sh_disk s) !! BloomPath p = None →
    files d' !! BloomPath p = None;
}.

Lemma judge_compactor {A} i (c : IO A) Q s :
  compactor W = Some i →
  (∀ n s1, relies i s s1 → inv (S n) s1 → let d' := (c (sh_disk s1)).2 in
     compactor_step s1 d' ∧ Q (c (sh_disk s1)).1 (put_disk d' s1)) →
  judge i (atomically (do_io c)) Q s.
Proof.
  intros Hi HQ. apply judge_io. intros n s1 HR Hinv. cbn zeta.
  destruct (HQ n s1 HR Hinv) as ([Hn Ha Hf Hr Hs] & HQ'). split_and!; [| |done].
  - apply inv_weaken in Hinv as [_ ? Hf1 ? ? ? Hs1 Hm]. split; cbn; try done.
    + intros p x Hp Hx. destruct (Hf p x Hp Hx) as [?|?]; [by eapply Hf1|done].
    + intros Hoff p Hp. apply Hs; auto.
    + intros Hmu. eapply mgr_inv_agree; auto.
  - split_and!; [split_and!; [by apply agree_grows|done|done]| |done].
    intros j _. split; [|done]. by intros Hmu.
Qed.

(** An operation of the index. *)
Lemma judge_index i f Q s :
  (∀ n s1, relies i s s1 → inv (S n) s1 →
     (∃ l, Represents (f (sh_index s1)) l ∧ ∀ e p, (e, p) ∈ l → is_seg W p) ∧
     (∀ e p, p ∉ T → indexed (sh_index s1) e p → indexed (f (sh_index s1)) e p) ∧
     Q () (put_index (f (sh_index s1)) s1)) →
  judge i (atomically (do_index f)) Q s.
Proof.
  intros HQ. apply judge_act. intros n s1 HR Hinv. split; [by eexists|].
  intros x s2 [= <- <-]. destruct (HQ n s1 HR Hinv) as (Hi & Hmono & HQ'). split_and!; [| |done].
  - apply inv_weaken in Hinv as [? ? ? _ ? ? ? ?]. by split.
  - split_and!; [by apply common_disk| |intros _; apply leaves_refl].
    intros j _. split; [|done]. intros Hmu. split_and!; [done..|apply agree_refl].
Qed.

Lemma judge_Add i e p Q s :
  is_seg W p → (∀ s1, relies i s s1 → indexed (Add e p (sh_index s1)) e p →
     Q () (put_index (Add e p (sh_index s1)) s1)) →
  judge i (atomically (do_index (Add e p))) Q s.
Proof.
  intros Hp HQ. apply judge_index. intros n s1 HR Hinv.
  destruct (inv_index_Add W (sh_index s1) e p) as [Hi Hnew]; [by destruct Hinv|done|].
  split_and!; [done| |by apply HQ]. intros e' p' _. apply indexed_Add.
Qed.

Lemma judge_RemoveSegment i p Q s :
  p ∈ T → (∀ s1, relies i s s1 → Q () (put_index (RemoveSegment p (sh_index s1)) s1)) →
  judge i (atomically (do_index (RemoveSegment p))) Q s.
Proof.
  intros Hp HQ. apply judge_index. intros n s1 HR [_ _ _ (l & Hr & Hl) _ _ _ _]. split_and!; [| |by apply HQ].
  - eexists. split; [by apply RemoveSegment_represents|]. intros e q [_ Hin]%list_elem_of_filter. eauto.
  - intros e q Hq. apply indexed_RemoveSegment. by intros ->.
Qed.

(** A critical section of the manager: the mutex is free before and after. *)
Lemma judge_critical {A} i (c : Manager → IO (Manager * A)) Q s :
  sh_mu s ≠ Some i →
  (∀ m d, no_faults d → (c m d).2 = d ∧ active (c m d).1.1 = active m ∧ nextSeq (c m d).1.1 = nextSeq m ∧
     bloomEnabled (c m d).1.1 = bloomEnabled m) →
  (∀ n s1, relies i s s1 → inv (S n) s1 → sh_mu s1 = None → mgr_inv W (sh_manager s1) (sh_disk s1) →
     let m' := (c (sh_manager s1) (sh_disk s1)).1.1 in
     mgr_inv W m' (sh_disk s1) ∧ Q (c (sh_manager s1) (sh_disk s1)).1.2 (put_manager m' s1)) →
  judge i (atomically (critical c)) Q s.
Proof.
  intros Hmu Hc HQ. apply judge_act. intros n s1 HR Hinv.
  assert (sh_mu s1 ≠ Some i) as Hmu1 by (by eapply relies_mu).
  unfold critical, do_manager. split.
  { intros [Hf|Hf]; [rewrite Hf|congruence]. destruct (c _ _) as [[? ?] ?]. by eexists. }
  destruct (sh_mu s1) as [j|] eqn:Hs1; [done|]. intros x s2.
  pose proof (inv_faults _ _ _ Hinv) as Hn.
  destruct (Hc (sh_manager s1) (sh_disk s1) Hn) as (Hd & Ha & Hsq & Hbe).
  destruct (HQ n s1 HR Hinv Hs1 (inv_manager _ _ _ Hinv Hs1)) as [Hm HQ'].
  destruct (c (sh_manager s1) (sh_disk s1)) as [[m' a] d']. cbn [fst snd] in *. subst d'.
  rewrite put_disk_id. intros [= <- <-]. split_and!; [| |done].
  - apply inv_weaken in Hinv as [? (? & ? & Hr) Hf ? ? ? ? ?].
    split; cbn; [done| | |done|done|congruence|done|by intros].
    + split_and!; [by rewrite Hsq|done|by rewrite Ha].
    + intros p x Hp Hx. apply (file_ok_weaken W (torn_at s1 p)); [|by eapply Hf].
      intros [[j Hj] _]. congruence.
  - split_and!; [by apply common_disk|by intros; apply protects_free|intros _; apply leaves_refl].
Qed.
End actions.
