(* ===== verification/Requests.v ===== *)
(** * Queries and writers among other goroutines

    The judgements ([Rely]) for the programs of a request: a query reads the
    records of the segments it resolved whatever the others do meanwhile; a write
    takes the mutex, rotates if it must, appends and indexes, and its entry is then
    visible and on disk. *)

From S2P Require Import Prelude GoStrings Types Record Disk Segment Ranking Index Parser Bloom.
From S2P Require Import Paths Manager Executor Recovery Fanout Ingest Compaction Threads Goroutines Rely.

(** ** Queries *)

(** A failed read of whole files is never "does not exist". *)
Lemma read_loop_not_missing `{Protobuf} fuel bytes acc e :
  read_loop fuel (mkReader bytes None) acc = Some (Err e) → errors_Is e os_ErrNotExist = false.
Proof.
  revert bytes acc. induction fuel as [|fuel IH]; intros bytes acc; cbn [read_loop]; [done|].
  destruct (ReadRecord (mkReader bytes None)) as [[data r']|e'] eqn:Hr.
  - apply ReadRecord_Ok in Hr as (_ & Hend & _). destruct r' as [b' fin]. cbn in Hend. subst fin.
    destruct (Unmarshal data); [apply IH|]. by intros [= <-].
  - case_bool_decide; [done|]. intros [= <-]. rewrite errors_Is_wrap. cbn [orb].
    rewrite bool_decide_false by done. cbn [orb]. unfold ReadRecord, ReadFull in Hr.
    cbn [rd_bytes rd_end] in Hr. repeat (case_decide || case_bool_decide || case_match); simplify_eq; done.
Qed.

Section queries.
Context `{GoUnicodeLaws} `{ProtobufLaws} `{BloomLaws}.
Context (W : setting).
Notation T := (compacted W).
Notation U := (known W).
Notation is_seg := (is_seg W).
Notation inv := (inv W).
Notation relies := (relies W).
Notation judge := (judge W).

(** The error of a reader that meets a record being written. *)
Definition torn_read (r : result (list LogEntry)) : Prop :=
  (∃ e, r = Err (ErrWrap "read record from segment" e)) ∧ ∃ j, writer W j.

(** What reading one segment gives at any moment. *)
Lemma ReadSegment_inv n s p :
  inv n s → is_seg p →
  (∃ r, ReadSegment p (sh_disk s) = (r, sh_disk s) ∧
    ((r = Err (ErrWrap "open segment" os_ErrNotExist) ∧ files (sh_disk s) !! p = None) ∨
     (∃ es, r = Ok es ∧ (∀ e, e ∈ es → e ∈ U) ∧ Forall storable es ∧ ∀ e, in_file (sh_disk s) p e → e ∈ es) ∨
     (torn_read r ∧ ∃ e, r = Err e ∧ errors_Is e os_ErrNotExist = false))).
Proof.
  intros [Hn _ Hf _ Hw _ _ _] Hp. destruct (files (sh_disk s) !! p) as [content|] eqn:Hc.
  2: { eexists. split; [by apply ReadSegment_missing|]. by left. }
  unfold ReadSegment. io. rewrite (os_Open_done _ p content) by done. io.
  eexists. split; [done|]. right. destruct (Hf p content Hp Hc) as (bytes & es & data & k & -> & Hh & Hu & Hl & Hk & Ht).
  destruct k as [|k].
  - left. exists es. rewrite take_0, app_nil_r in *. split_and!; [by apply read_entries_holds|done| |].
    + clear -Hh. induction Hh; constructor; [by eexists|done].
    + intros e (b' & es' & rest & Hf' & Hh' & He). rewrite Hc in Hf'. simplify_eq.
      by eapply holds_prefix_elem.
  - right. destruct (read_entries_torn bytes es data (S k) Hh Hl ltac:(lia)) as [e He]. rewrite He. split.
    + split; [by eexists|]. destruct (Ht ltac:(lia)) as [[j Hj] _]. eauto.
    + eexists. split; [done|]. unfold read_entries in He.
      destruct (read_loop _ _ _) as [r|] eqn:Hr; [|done]. cbn in He. unfold id in He. subst r.
      by eapply read_loop_not_missing.
Qed.

Lemma ReadSegment_quiet p d : no_faults d → (ReadSegment p d).2 = d.
Proof.
  intros Hn. unfold ReadSegment, os_Open. io. by destruct (files d !! p); io.
Qed.

(** Reading segments while others write and compact: [want e p] are entries that
    must be found. *)
Lemma judge_ReadSegments i (want : LogEntry → string → Prop) all ps s :
  sh_mu s ≠ Some i → Forall is_seg ps → (∀ e, e ∈ all → e ∈ U) → Forall storable all →
  (∀ s' e p, relies i s s' → want e p → in_file (sh_disk s') p e) →
  judge i (ReadSegments_go all ps) (λ r s', sh_mu s' ≠ Some i ∧ relies i s s' ∧
    ((∃ r0 e, torn_read r0 ∧ r0 = Err e ∧ r = Err (ErrWrap "read segments" e)) ∨
     ∃ raw, r = Ok raw ∧ (∀ e, e ∈ raw → e ∈ U) ∧ Forall storable raw ∧
       ∀ e, e ∈ all ∨ (∃ p, p ∈ ps ∧ want e p) → e ∈ raw)) s.
Proof.
  revert all s. induction ps as [|p ps IH]; intros all s Hmu Hps Hall Hst Hwant; cbn [ReadSegments_go].
  - apply judge_ret. split_and!; [done..|]. right. exists all. split_and!; [done..|]. set_solver.
  - apply Forall_cons in Hps as [Hp Hps]. apply judge_bind, judge_io_read; [apply ReadSegment_quiet|].
    intros n s1 HR Hinv. destruct (ReadSegment_inv _ s1 p Hinv Hp) as (r & -> & Hr). cbn [fst].
    assert (sh_mu s1 ≠ Some i) as Hmu1 by (by eapply relies_mu).
    assert (∀ s2 e q, relies i s1 s2 → want e q → in_file (sh_disk s2) q e) as Hwant1.
    { intros s2 e q HR2. apply Hwant. by etrans. }
    assert (∀ all',
      (∀ e, e ∈ all' → e ∈ U) → Forall storable all' →
      (∀ e, (e ∈ all ∨ ∃ q, q ∈ p :: ps ∧ want e q) → e ∈ all' ∨ ∃ q, q ∈ ps ∧ want e q) →
      judge i (ReadSegments_go all' ps) (λ r s', sh_mu s' ≠ Some i ∧ relies i s s' ∧
        ((∃ r0 e, torn_read r0 ∧ r0 = Err e ∧ r = Err (ErrWrap "read segments" e)) ∨
         ∃ raw, r = Ok raw ∧ (∀ e, e ∈ raw → e ∈ U) ∧ Forall storable raw ∧
           ∀ e, e ∈ all ∨ (∃ q, q ∈ p :: ps ∧ want e q) → e ∈ raw)) s1) as Hgo.
    { intros all' Hu' Hst' Hsub. eapply judge_mono, IH; [|done..].
      intros r' s' (? & HR' & Hcase). split_and!; [done|by etrans|].
      destruct Hcase as [?|(raw & ? & ? & ? & Hraw)]; [by left|right]. exists raw. naive_solver. }
    destruct Hr as [[-> Hnone]|[(es & -> & Hes & Hse & Hin)|[Htorn (e & -> & Hne)]]].
    + rewrite errors_Is_wrap, errors_Is_refl, orb_true_r. apply Hgo; [done..|].
      intros e [?|(q & [->|Hq]%elem_of_cons & Hw)]; [by left| |right; eauto].
      destruct (Hwant s1 e p HR Hw) as (b & es & rest & Hf & _). congruence.
    + apply Hgo; [|by apply Forall_app|].
      { intros x [?|?]%elem_of_app; auto. }
      intros e [?|(q & [->|Hq]%elem_of_cons & Hw)]; [left; apply elem_of_app; by left| |right; eauto].
      left. apply elem_of_app. right. apply Hin. by apply Hwant.
    + rewrite Hne. apply judge_ret. split_and!; [done..|]. left. eexists _, _. split_and!; done.
Qed.

Lemma if_kept_elem (b : bool) (kept : list string) p q :
  q ∈ (if b then kept else kept ++ [p]) → q ∈ kept ∨ q = p.
Proof. destruct b; [by left|]. intros [?| ->%list_elem_of_singleton]%elem_of_app; auto. Qed.

Lemma kept_elem_if (b : bool) (kept : list string) p q : q ∈ kept → q ∈ (if b then kept else kept ++ [p]).
Proof. destruct b; [done|]. intros. apply elem_of_app. by left. Qed.

(** Pruning with filters that are replaced meanwhile. *)
Lemma judge_prune i (want : LogEntry → string → Prop) ast kept ps s :
  sh_mu s ≠ Some i → (∀ e p n, want e p → ast = Some n → bloom_safe U n) →
  (∀ e p, want e p → is_seg p ∧ p ∉ T ∧ in_file (sh_disk s) p e ∧ matches e ast = true) →
  judge i (prune_go ast kept ps) (λ pruned s', sh_mu s' ≠ Some i ∧ relies i s s' ∧
    (∀ p, p ∈ pruned → p ∈ kept ∨ p ∈ ps) ∧
    ∀ e p, want e p → p ∈ kept ∨ p ∈ ps → p ∈ pruned) s.
Proof.
  intros Hmu Hsafe. revert kept s Hmu. induction ps as [|p ps IH]; intros kept s Hmu Hwant; cbn [prune_go].
  - apply judge_ret. split_and!; [done..|by left|]. intros e p _ [?|?]; [done|set_solver].
  - apply judge_bind, judge_critical; [done|done|]. intros n s1 HR Hinv Hfree Hm.
    rewrite !ret_run. cbn [fst snd].
    split; [done|]. replace (put_manager (sh_manager s1) s1) with s1 by (by destruct s1).
    assert (sh_mu s1 ≠ Some i) as Hmu1 by congruence.
    assert (∀ e q, want e q → is_seg q ∧ q ∉ T ∧ in_file (sh_disk s1) q e ∧ matches e ast = true) as Hwant1.
    { intros e q (? & ? & ? & ?)%Hwant. split_and!; [done..| |done].
      eapply in_file_grows; [done..| |done]. apply HR. }
    eapply judge_mono, IH; [|done..].
    intros pruned s' (Hmu' & HR' & Hsub & Hin). split_and!; [done|by etrans| |].
    + intros q [Hq|Hq]%Hsub; [|right; by apply elem_of_cons; right].
      rewrite elem_of_cons. destruct (if_kept_elem _ _ _ _ Hq); auto.
    + intros e q Hw Hq. apply (Hin e q Hw). destruct Hq as [Hq|[->|Hq]%elem_of_cons]; [left|left|by right].
      { by apply kept_elem_if. }
      destruct (Hwant1 e p Hw) as (_ & HpT & (b & es & rest & Hf & Hh & He) & Hma).
      destruct (BloomFor (sh_manager s1) p) as [bf|] eqn:Hbf; [|apply elem_of_app; right; by left].
      destruct ast as [nd|]; [|apply elem_of_app; right; by left].
      destruct (mi_blooms _ _ _ Hm p bf HpT Hbf) as (Hps & _ & b' & es' & Hf' & Hh' & Hcov).
      rewrite Hf in Hf'. simplify_eq.
      assert (∀ x, x ∈ es' → x ∈ U) as Hes'.
      { intros x Hx. destruct (inv_files _ _ _ Hinv p _ Hps Hf) as (b1 & es1 & data & k & Heq & Hh1 & Hu1 & _ & _ & Hk).
        destruct k as [|k]; [|destruct (Hk ltac:(lia)) as [[] _]; congruence].
        rewrite take_0, app_nil_r in Heq. rewrite Heq in Hh'. rewrite (holds_inj _ _ _ Hh' Hh1) in Hx. auto. }
      rewrite (no_definite_miss bf es' e nd); [apply elem_of_app; right; by left|done|by apply (holds_prefix_elem b es rest es')| |done].
      eapply bloom_safe_subset; [done|]. by eapply Hsafe.
Qed.

(** What a query returns that starts in state [s0]. *)
Definition query_post (req : QueryRequest) (ast : option Node) (took : Z) (s0 : Shared)
    (r : result QueryResult) : Prop :=
  (∃ e, r = Err (ErrWrap "execute query" (ErrWrap "read segments" (ErrWrap "read record from segment" e))) ∧
     ∃ j, writer W j) ∨
  ∃ raw, r = Ok (answer req ast raw took) ∧ (∀ e, e ∈ raw → e ∈ U) ∧
    ∀ e p, visible W s0 e p → entry_matches req ast e = true → e ∈ raw.

Lemma finish_answer req ast raw took :
  id_consistent U → (∀ e, e ∈ raw → e ∈ U) → 0 ≤ Limit req → 0 ≤ Offset req →
  finish req ast took raw = answer req ast raw took.
Proof.
  intros Hc Hu Hl Ho. unfold finish, answer, effective_limit, defaultLimit.
  rewrite (reads_enough_scan req ast raw raw), page_spec; [done|lia| | |by split].
  - destruct (Limit req =? 0); lia.
  - intros a b ???. apply Hc; auto.
Qed.

Lemma judge_Execute i req ast took s0 :
  sh_mu s0 ≠ Some i → id_consistent U → 0 ≤ Limit req → 0 ≤ Offset req →
  Parse (QueryString req) = Ok ast → (∀ n, ast = Some n → bloom_safe U n) →
  judge i (Execute_go None None took req) (λ r s', sh_mu s' ≠ Some i ∧ query_post req ast took s0 r) s0.
Proof.
  intros Hmu Hc Hl Ho Hparse Hsafe. unfold Execute_go.
  rewrite (proj2 (Z.ltb_ge _ _)), (proj2 (Z.ltb_ge _ _)), Hparse by done.
  set (want s e p := visible W s e p ∧ entry_matches req ast e = true).
  assert (∀ s s' e p, relies i s s' → want s e p → want s' e p) as Hkeep.
  { intros s s' e p [HR _] [Hv Hm]. split; [by eapply visible_common|done]. }
  apply judge_bind, judge_look. intros n s1 HR1 Hinv. set (ps := Resolve _ _ _ _ _ _).
  assert (Forall is_seg ps) as Hseg by (apply Forall_forall; intros p; by eapply resolved_seg).
  assert (sh_mu s1 ≠ Some i) as Hmu1 by (by eapply relies_mu).
  apply judge_bind. eapply judge_mono, (judge_prune i (want s1)); [|done|by eauto|].
  2: { intros e p ((? & ? & _ & ?) & Hm). apply entry_matches_spec in Hm as (_ & _ & ? & _). done. }
  intros pruned s2 (Hmu2 & HR2 & Hsub & Hin).
  assert (∀ e p, want s0 e p → p ∈ pruned) as Hwant.
  { intros e p Hw%(Hkeep _ _ _ _ HR1). apply (Hin e p Hw). right.
    destruct Hw as [(_ & _ & Hi & _) Hm]. by apply indexed_resolved with e. }
  case_bool_decide as Hnil.
  { subst pruned. apply judge_ret. split; [done|]. right. exists [].
    split_and!; [by rewrite finish_answer by set_solver|set_solver|].
    intros e p Hv Hm. exfalso. eapply not_elem_of_nil, Hwant. by split. }
  apply judge_bind. eapply judge_mono, (judge_ReadSegments i (want s2)); [|done| |set_solver|done|].
  - intros r s3 (Hmu3 & _ & Hr). apply judge_ret. split; [done|].
    destruct Hr as [(r0 & e & [[e1 ->] Hw] & [= <-] & ->)|(raw & -> & Hu & _ & Hraw)]; [left; eauto|right].
    exists raw. split_and!; [by rewrite finish_answer|done|]. intros e p Hv Hm. apply Hraw. right. exists p.
    assert (want s0 e p) as Hw by by split.
    split; [by eapply Hwant|]. eapply Hkeep, Hkeep, Hw; done.
  - apply Forall_forall. intros p Hp. rewrite Forall_forall in Hseg. apply Hseg. destruct (Hsub p Hp); set_solver.
  - intros s' e p [[Hg _] _] ((? & ? & _ & ?) & _). by eapply in_file_grows.
Qed.

(** Any query, valid or not, keeps the invariant and the guarantees. *)
Lemma judge_Execute_any i err1 err2 took req s :
  sh_mu s ≠ Some i →
  judge i (Execute_go err1 err2 took req) (λ _ s', sh_mu s' ≠ Some i) s.
Proof.
  intros Hmu. unfold Execute_go. destruct (Limit req <? 0), (Offset req <? 0), err1; try by apply judge_ret.
  destruct (Parse (QueryString req)) as [ast|]; [|by apply judge_ret].
  apply judge_bind, judge_look. intros n s1 HR1 Hinv. set (ps := Resolve _ _ _ _ _ _).
  assert (Forall is_seg ps) as Hseg by (apply Forall_forall; intros p; by eapply resolved_seg).
  assert (sh_mu s1 ≠ Some i) as Hmu1 by (by eapply relies_mu).
  apply judge_bind. eapply judge_mono, (judge_prune i (λ _ _, False)); [|done..].
  intros pruned s2 (Hmu2 & _ & Hsub & _). case_bool_decide; [by apply judge_ret|].
  destruct err2; [by apply judge_ret|]. apply judge_bind.
  eapply judge_mono, (judge_ReadSegments i (λ _ _, False)); [|done| |by intros e ?%not_elem_of_nil|done..].
  - intros r s3 [? _]. by apply judge_ret.
  - apply Forall_forall. intros p Hp. rewrite Forall_forall in Hseg. apply Hseg.
    destruct (Hsub p Hp) as [?%not_elem_of_nil|]; done.
Qed.
End queries.

(** ** Writers *)

(** Syncing and closing write nothing. *)
Lemma file_Close_quiet f d : no_faults d → (file_Close f d).2 = d.
Proof. intros Hn. unfold file_Close, on_open. destruct (f_off f); by io. Qed.

Lemma Segment_Close_quiet seg d : no_faults d → (Segment_Close seg d).2 = d.
Proof. intros Hn. unfold Segment_Close. io. by rewrite file_Close_quiet. Qed.

Lemma file_Sync_done f pos d : no_faults d → f_off f = Some pos → file_Sync f d = (Ok (), d).
Proof. intros Hn Hf. unfold file_Sync, on_open. rewrite Hf. by io. Qed.

(** A disk with one file more, or another content of it. *)
Definition put_file (q : string) (x : list byte) (d : Disk) : Disk := mkDisk (<[q := x]> (files d)) (sched d).

Lemma os_Create_done q d : no_faults d → os_Create q d = (Ok (mkFile q 0), put_file q [] d).
Proof. intros Hn. unfold os_Create. by io. Qed.

Lemma put_file_put q x y d : put_file q y (put_file q x d) = put_file q y d.
Proof. unfold put_file. cbn. by rewrite insert_insert_eq. Qed.

Section holder.
Context `{GoUnicodeLaws} `{ProtobufLaws} `{BloomLaws}.
Context (W : setting).
Notation T := (compacted W).
Notation is_seg := (is_seg W).
Notation inv := (inv W).
Notation relies := (relies W).
Notation guarantees := (guarantees W).
Notation judge := (judge W).

(** The effect of an action of the holder on manager and files. *)
Record holder_step (n : nat) (s : Shared) (m' : Manager) (d' : Disk) : Prop := {
  hs_faults : no_faults d';
  hs_room : room n m';
  hs_enabled : bloomEnabled m' = bloomEnabled (sh_manager s);
  hs_grows : grows W (sh_disk s) d';
  hs_files : ∀ p c, is_seg p → files d' !! p = Some c →
    (files (sh_disk s) !! p = Some c ∧ last (paths m') = last (paths (sh_manager s))) ∨
    file_ok W (last (paths m') = Some p) c;
  hs_compacted : leaves_compacted W (sh_disk s) d';
}.

Lemma holder_step_ok i n s m' d' :
  sh_mu s = Some i → inv (S n) s → holder_step n s m' d' →
  inv n (put_manager m' (put_disk d' s)) ∧ guarantees i s (put_manager m' (put_disk d' s)).
Proof.
  intros Hmu [Hn Hr Hf Hi Hw He Hsd Hm] [Hn' Hr' He' Hg Hf' Hl]. split.
  - split; cbn; [done|done| |done|done|congruence| |by rewrite Hmu].
    + intros p c Hp Hc. unfold torn_at. cbn. destruct (Hf' p c Hp Hc) as [[? ->]|?]; [by eapply Hf|].
      apply (file_ok_weaken W (last (paths m') = Some p)); [|done]. intros ?. by rewrite Hmu.
    + intros Hoff p Hp. destruct (Hl p Hp) as (_ & -> & _). by apply Hsd.
  - split_and!; [|intros j Hj; split; cbn; rewrite Hmu; congruence|done].
    split_and!; [done|done|by apply leaves_retains].
Qed.

Lemma judge_holder {A} i (c : Manager → IO (Manager * A)) Q s :
  sh_mu s = Some i →
  (∀ n s1, relies i s s1 → inv (S n) s1 → sh_mu s1 = Some i →
     ∃ m' a d', c (sh_manager s1) (sh_disk s1) = ((m', a), d') ∧ holder_step n s1 m' d' ∧
       Q a (put_manager m' (put_disk d' s1))) →
  judge i (atomically (do_manager c)) Q s.
Proof.
  intros Hmu HQ. apply judge_act. intros n s1 HR Hinv.
  destruct (relies_held _ _ _ _ HR Hmu) as (Hmu1 & _).
  destruct (HQ n s1 HR Hinv Hmu1) as (m' & a & d' & Hc & Hs & HQ'). unfold do_manager. rewrite Hc.
  split; [by eexists|]. intros x s2 [= <- <-]. destruct (holder_step_ok i n s1 m' d'); done.
Qed.

Lemma judge_holder_io {A} i (c : IO A) Q s :
  sh_mu s = Some i →
  (∀ n s1, relies i s s1 → inv (S n) s1 → sh_mu s1 = Some i →
     ∃ a d', c (sh_disk s1) = (a, d') ∧ holder_step n s1 (sh_manager s1) d' ∧ Q a (put_disk d' s1)) →
  judge i (atomically (do_io c)) Q s.
Proof.
  intros Hmu HQ. apply judge_act. intros n s1 HR Hinv.
  destruct (relies_held _ _ _ _ HR Hmu) as (Hmu1 & _).
  destruct (HQ n s1 HR Hinv Hmu1) as (a & d' & Hc & Hs & HQ'). unfold do_io. rewrite Hc.
  split; [by eexists|]. intros x s2 [= <- <-]. by destruct (holder_step_ok i n s1 (sh_manager s1) d').
Qed.

Lemma judge_holder_set i f Q s :
  sh_mu s = Some i →
  (∀ n s1, relies i s s1 → inv (S n) s1 → sh_mu s1 = Some i →
     holder_step n s1 (f (sh_manager s1)) (sh_disk s1) ∧ Q () (put_manager (f (sh_manager s1)) s1)) →
  judge i (atomically (set_manager f)) Q s.
Proof.
  intros Hmu HQ. apply judge_act. intros n s1 HR Hinv.
  destruct (relies_held _ _ _ _ HR Hmu) as (Hmu1 & _).
  destruct (HQ n s1 HR Hinv Hmu1) as (Hs & HQ'). split; [by eexists|].
  intros x s2 [= <- <-].
  by destruct (holder_step_ok i n s1 (f (sh_manager s1)) (sh_disk s1)) as [? ?].
Qed.

Lemma holder_step_manager n s m' :
  inv (S n) s → room n m' → bloomEnabled m' = bloomEnabled (sh_manager s) →
  paths m' = paths (sh_manager s) → holder_step n s m' (sh_disk s).
Proof.
  intros [Hn _ _ _ _ _ _ _] Hr He Hp.
  split; [done..| |left; by rewrite Hp|apply leaves_refl]. apply agree_grows, agree_refl.
Qed.

(** ** The files of the holder *)

(** A file that is none of the compactor's. *)
Definition apart (q : string) : Prop :=
  ∀ p, p ∈ T → q ≠ p ∧ q ≠ BloomPath p ∧ q ≠ p +:+ ".tmp".

Lemma leaves_put q x d : apart q → leaves_compacted W d (put_file q x d).
Proof. intros Hq p Hp. destruct (Hq p Hp) as (? & ? & ?). cbn. by rewrite !lookup_insert_ne. Qed.

Lemma leaves_delete q d : apart q → leaves_compacted W d (mkDisk (delete q (files d)) (sched d)).
Proof. intros Hq p Hp. destruct (Hq p Hp) as (? & ? & ?). cbn. by rewrite !lookup_delete_ne. Qed.

Lemma agree_put q x d d' : agree W d d' → agree W (put_file q x d) (put_file q x d').
Proof.
  intros [A1 A2 A3].
  assert (∀ p, files d' !! p = files d !! p → <[q:=x]> (files d') !! p = <[q:=x]> (files d) !! p) as Hput.
  { intros p Hp. destruct (decide (q = p)) as [->|?]; [by rewrite !lookup_insert_eq|by rewrite !lookup_insert_ne]. }
  split; cbn; auto.
Qed.

Context (T_seg : ∀ p, p ∈ T → is_seg p).

Lemma apart_seg q : is_seg q → q ∉ T → apart q.
Proof.
  intros Hq HT p Hp. apply is_seg_suffix in Hq. split_and!.
  - by intros ->.
  - intros E. by apply (bloom_ne_seg p q Hq).
  - intros ->. by rewrite tmp_not_seg in Hq.
Qed.

Lemma apart_bloom q : is_seg q → q ∉ T → apart (BloomPath q).
Proof.
  intros Hq HT p Hp. pose proof (T_seg p Hp) as Hs. apply is_seg_suffix in Hq, Hs. split_and!.
  - by apply bloom_ne_seg.
  - intros E. apply HT. by rewrite (BloomPath_inj q p).
  - apply bloom_not_tmp.
Qed.

Lemma bloom_tmp_not_seg_tmp a p : is_seg p → BloomPath a +:+ ".tmp" ≠ p +:+ ".tmp".
Proof.
  intros Hp%is_seg_suffix E%string_app_inj_l. by rewrite <- E, bloom_path_not_seg in Hp.
Qed.

Lemma apart_bloom_tmp q : apart (BloomPath q +:+ ".tmp").
Proof.
  intros p Hp. pose proof (T_seg p Hp) as Hs. split_and!.
  - intros <-. apply is_seg_suffix in Hs. by rewrite bloom_tmp_not_seg in Hs.
  - apply not_eq_sym, bloom_not_tmp.
  - by apply bloom_tmp_not_seg_tmp.
Qed.

Lemma apart_marker dir : apart (marker_path dir).
Proof.
  intros p Hp. split_and!; [|apply marker_not_bloom|apply marker_not_tmp].
  by apply marker_ne_seg, (is_seg_suffix W), T_seg.
Qed.

(** Writing one file: if it is a segment, it grows by at most a part of a record. *)
Lemma holder_put n s q x :
  inv (S n) s → apart q →
  (is_seg q → file_ok W (last (paths (sh_manager s)) = Some q) x ∧
     ∀ b, files (sh_disk s) !! q = Some b → ∃ b', x = b ++ b') →
  holder_step n s (sh_manager s) (put_file q x (sh_disk s)).
Proof.
  intros [Hn Hr _ _ _ _ _ _] Hq Hx. split; [done|by apply room_weaken|done| | |by apply leaves_put].
  - intros p b Hp _ Hb. cbn. destruct (decide (q = p)) as [->|Hne].
    + rewrite lookup_insert_eq. destruct (Hx Hp) as [_ Hpre]. destruct (Hpre b Hb) as [b' ->]. by exists b'.
    + rewrite lookup_insert_ne by done. exists []. by rewrite app_nil_r.
  - intros p c Hp Hc. cbn in Hc. destruct (decide (q = p)) as [->|Hne].
    + rewrite lookup_insert_eq in Hc. injection Hc as <-. right. by apply Hx.
    + rewrite lookup_insert_ne in Hc by done. by left.
Qed.

(** The sidecar of a closed segment. *)
Lemma holder_sidecar n s a data m' :
  inv (S n) s → is_seg a → a ∉ T → room n m' → bloomEnabled m' = bloomEnabled (sh_manager s) →
  paths m' = paths (sh_manager s) →
  holder_step n s m' (mkDisk (<[BloomPath a := data]> (delete (BloomPath a +:+ ".tmp") (files (sh_disk s))))
                        (sched (sh_disk s))).
Proof.
  intros [Hn _ _ _ _ _ _ _] Ha HaT Hr He Hps. pose proof (sidecar_agree (sh_disk s) a data) as Hag.
  split; [done..| | |].
  - intros p b Hp _ Hb. exists []. rewrite app_nil_r, Hag; [done|by eapply is_seg_suffix].
  - intros p c Hp Hc. left. rewrite Hps. rewrite <- Hag; [done|by eapply is_seg_suffix].
  - eapply leaves_trans; [apply leaves_delete, (apart_bloom_tmp a)|].
    apply (leaves_put (BloomPath a) data (mkDisk _ _)). by apply apart_bloom.
Qed.
End holder.

(** ** Writers: the rotation *)

Section rotation.
Context `{GoUnicodeLaws} `{ProtobufLaws} `{BloomLaws}.
Context (W : setting).
Notation T := (compacted W).
Notation U := (known W).
Notation dir := (data_dir W).
Notation is_seg := (is_seg W).
Notation inv := (inv W).
Notation relies := (relies W).
Notation judge := (judge W).
Notation mgr_inv := (mgr_inv W).
Context (T_seg : ∀ p, p ∈ T → is_seg p).

(** Goroutine [i] holds the mutex of a manager that is in step with the disk. *)
Definition held (i : nat) (m : Manager) (s : Shared) : Prop :=
  sh_mu s = Some i ∧ sh_manager s = m ∧ mgr_inv m (sh_disk s).

Lemma held_stable i m s s' : relies i s s' → held i m s → held i m s'.
Proof.
  intros HR (Hmu & Hm & Hi). destruct (relies_held _ _ _ _ HR Hmu) as (? & ? & ?).
  split_and!; [done|congruence|]. by eapply mgr_inv_agree.
Qed.

(** The last segment of the list is closed: whole, and it may have a filter. *)
Record mgr_closed (m : Manager) (d : Disk) : Prop := {
  mc_dir : mdir m = dir;
  mc_last : ∃ ap bytes es, last (paths m) = Some ap ∧ is_seg ap ∧ ap ∉ T ∧
    files d !! ap = Some bytes ∧ holds bytes es ∧ ∀ e, e ∈ es → e ∈ U;
  mc_fresh : ∀ n, nextSeq m ≤ n < 2 ^ 64 → seq_path dir n ∉ T ∧ files d !! seq_path dir n = None;
  mc_seq : 0 ≤ nextSeq m < 2 ^ 64;
  mc_blooms : ∀ p bf, p ∉ T → blooms m !! p = Some bf →
    is_seg p ∧ ∃ bytes es, files d !! p = Some bytes ∧ holds bytes es ∧ covers bf es;
  mc_sides : ∀ p fb bf, is_seg p → p ∉ T → files d !! BloomPath p = Some fb → ReadFrom fb = Some bf →
    ∃ bytes es, files d !! p = Some bytes ∧ holds bytes es ∧ covers bf es;
}.

Lemma mgr_inv_closed m d : mgr_inv m d → mgr_closed m d.
Proof.
  intros Hm. pose proof (mi_active_seg W m d) as Hseg. specialize (λ seg, Hseg seg Hm).
  destruct Hm as [Hd (seg & bytes & es & _ & Hl & (Hf & _) & Hh & Hu & HT) _ Hfr Hsq Hb Hsd]. split; try done.
  - exists (f_path (seg_file seg)), bytes, es. split_and!; auto.
  - intros p bf Hp Hbf. by destruct (Hb p bf Hp Hbf) as (? & _ & ?).
  - intros p fb bf Hs Hp Hfb Hr. by destruct (Hsd p fb bf Hs Hp Hfb Hr) as (_ & ?).
Qed.

(** Which handle is the active one does not matter. *)
Lemma mgr_closed_active a m d : mgr_closed m d → mgr_closed (with_active a m) d.
Proof. by destruct 1; split. Qed.

(** After the sidecar of the active segment is written. *)
Lemma mgr_closed_sidecar m d seg bytes es :
  mgr_inv m d → active m = Some seg → seg_at d seg bytes → holds bytes es →
  let ap := f_path (seg_file seg) in
  last (paths m) = Some ap → ap ∉ T → is_seg ap →
  mgr_closed (with_blooms (<[ap := segment_bloom es]> (blooms m)) m)
    (mkDisk (<[BloomPath ap := WriteTo (segment_bloom es)]> (delete (BloomPath ap +:+ ".tmp") (files d))) (sched d)).
Proof.
  intros Hm Ha (Hf & _) Hh ap Hl HT Hs. apply mgr_inv_closed in Hm as [Hd Hlast Hfr Hsq Hb Hsd].
  pose proof (sidecar_agree d ap (WriteTo (segment_bloom es))) as Hag.
  set (d' := mkDisk _ _) in *. assert (∀ p, is_seg p → files d' !! p = files d !! p) as Hseg.
  { intros p Hp. apply Hag. by eapply is_seg_suffix. }
  assert (∀ p, is_seg p → p ≠ ap → files d' !! BloomPath p = files d !! BloomPath p) as Hside.
  { intros p Hp Hne. cbn. rewrite lookup_insert_ne, lookup_delete_ne; [done| |].
    - apply not_eq_sym, bloom_not_tmp.
    - intros E. apply is_seg_suffix in Hp, Hs. by apply Hne, eq_sym, BloomPath_inj. }
  assert (covers (segment_bloom es) es) as Hcov by apply segment_bloom_covers. split; cbn [mdir paths nextSeq blooms with_blooms].
  - done.
  - destruct Hlast as (ap' & b' & es' & Hl' & _ & _ & Hf' & ?). rewrite Hl in Hl'. injection Hl' as <-.
    exists ap, b', es'. by rewrite Hseg.
  - intros n Hn. destruct (Hfr n Hn) as [? ?]. split; [done|]. rewrite Hseg; [done|]. apply seq_path_is_seg. lia.
  - done.
  - intros p bf HpT Hbf. destruct (decide (p = ap)) as [->|Hne].
    + rewrite lookup_insert_eq in Hbf. injection Hbf as <-. split; [done|]. exists bytes, es. by rewrite Hseg.
    + rewrite lookup_insert_ne in Hbf by done. destruct (Hb p bf HpT Hbf) as [Hps ?]. split; [done|]. by rewrite Hseg.
  - intros p fb bf Hps HpT Hfb Hr. rewrite Hseg by done. destruct (decide (p = ap)) as [->|Hne].
    + cbn in Hfb. rewrite lookup_insert_eq in Hfb. injection Hfb as <-. rewrite ReadFrom_WriteTo in Hr.
      injection Hr as <-. by exists bytes, es.
    + rewrite Hside in Hfb by done. by eapply Hsd.
Qed.

(** With the last segment whole, all segments are. *)
Lemma quiet_files n s :
  inv n s → (∃ ap bytes es, last (paths (sh_manager s)) = Some ap ∧ files (sh_disk s) !! ap = Some bytes ∧
    holds bytes es ∧ ∀ e, e ∈ es → e ∈ U) →
  ∀ (P : Prop) p c, is_seg p → files (sh_disk s) !! p = Some c → file_ok W P c.
Proof.
  intros Hinv (ap & bytes & es & Hl & Hf & Hh & Hu) P p c Hp Hc.
  destruct (decide (p = ap)) as [->|Hne].
  - rewrite Hf in Hc. injection Hc as <-. by eapply file_ok_holds.
  - apply (file_ok_weaken W (torn_at s p)); [|by eapply inv_files]. intros [_ E]. congruence.
Qed.

(** The manager after [openNewSegment] opened its file. *)
Definition opened (m : Manager) : Manager :=
  let path := seq_path (mdir m) (nextSeq m) in
  with_nextSeq (uint64 (nextSeq m + 1)) (with_paths (paths m ++ [path])
    (with_active (Some (mkSegment (mkFile path 0) 0)) m)).

Lemma opened_inv m d :
  mgr_closed m d → nextSeq m + 1 < 2 ^ 64 →
  mgr_inv (opened m) (put_file (marker_path dir) (String.list_byte_of_string (segment_name (nextSeq m)))
                       (put_file (seq_path dir (nextSeq m)) [] d)).
Proof.
  intros [Hd _ Hfr Hsq Hb Hsd] Hmax. destruct (Hfr (nextSeq m)) as [HT Hnone]; [lia|].
  unfold opened. rewrite Hd. set (path := seq_path dir (nextSeq m)) in *. set (d' := put_file _ _ _).
  assert (is_seg path) as Hpath by (apply seq_path_is_seg; lia).
  assert (files d' !! path = Some []) as Hnew.
  { cbn. rewrite lookup_insert_ne, lookup_insert_eq; [done|]. by eapply marker_ne_seg, is_seg_suffix. }
  assert (∀ p, is_seg p → p ≠ path → files d' !! p = files d !! p) as Hold.
  { intros p Hp Hne. cbn. rewrite !lookup_insert_ne; [done..|]. by eapply marker_ne_seg, is_seg_suffix. }
  assert (∀ p, files d' !! BloomPath p = files d !! BloomPath p) as Hside.
  { intros p. cbn. rewrite !lookup_insert_ne; [done| |apply marker_not_bloom].
    apply not_eq_sym. by eapply bloom_ne_seg, is_seg_suffix. }
  assert (uint64 (nextSeq m + 1) = nextSeq m + 1) as Hns by (unfold uint64, wrap_unsigned; apply Z.mod_small; lia).
  split; cbn [mdir active paths nextSeq blooms with_nextSeq with_paths with_active]; rewrite ?last_snoc, ?Hns.
  - done.
  - exists (mkSegment (mkFile path 0) 0), [], []. cbn [f_path seg_file].
    split_and!; [done..|constructor| |done]. set_solver.
  - exists (nextSeq m). split_and!; [lia|lia|done|]. apply lookup_insert_eq.
  - intros k Hk. destruct (Hfr k) as [Hk1 Hk2]; [lia|]. split; [done|].
    rewrite Hold; [done|apply seq_path_is_seg; lia|]. intros E. apply segment_path_inj in E; lia.
  - lia.
  - intros p bf HpT Hbf. destruct (Hb p bf HpT Hbf) as (Hps & bytes & es & Hf & ?).
    assert (p ≠ path) as Hne by congruence. split_and!; [done|congruence|]. exists bytes, es. by rewrite Hold.
  - intros p fb bf Hps HpT. rewrite Hside. intros Hfb Hr. destruct (Hsd p fb bf Hps HpT Hfb Hr) as (bytes & es & Hf & ?).
    assert (p ≠ path) as Hne by congruence. split; [congruence|]. exists bytes, es. by rewrite Hold.
Qed.

(** The holder's manager, and the files of the holder as on the disk [d]. *)
Definition stage (i : nat) (m : Manager) (d : Disk) (s : Shared) : Prop :=
  sh_mu s = Some i ∧ sh_manager s = m ∧ agree W d (sh_disk s).

Lemma stage_stable i m d s s' : relies i s s' → stage i m d s → stage i m d s'.
Proof.
  intros HR (Hmu & Hm & Ha). destruct (relies_held _ _ _ _ HR Hmu) as (? & ? & ?).
  split_and!; [done|congruence|]. by eapply agree_trans.
Qed.

Lemma stage_held i m d s : mgr_inv m d → stage i m d s → held i m s.
Proof. intros Hm (? & ? & ?). split_and!; [done..|]. by eapply mgr_inv_agree. Qed.

(** One write of a whole file that is no segment, in a stage. *)
Lemma judge_stage_put {A} i m d (c : IO A) q x (a : A) Q s :
  apart W q → ¬ is_seg q → stage i m d s →
  (∀ s1, stage i m d s1 → no_faults (sh_disk s1) → c (sh_disk s1) = (a, put_file q x (sh_disk s1))) →
  (∀ s1, stage i m (put_file q x d) s1 → Q a s1) →
  judge i (atomically (do_io c)) Q s.
Proof.
  intros Hq Hns Hst Hc HQ. apply judge_holder_io; [by destruct Hst|]. intros n s1 HR Hinv Hmu.
  apply (stage_stable _ _ _ _ _ HR) in Hst. exists a, (put_file q x (sh_disk s1)).
  split_and!; [apply Hc; [done|by destruct Hinv]|by apply holder_put|].
  apply HQ. destruct Hst as (_ & ? & ?). split_and!; [done..|]. by apply agree_put.
Qed.

(** The marker is truncated, written and closed. *)
Lemma judge_marker i m d x Q s :
  stage i m d s → (∀ s1, stage i m (put_file (marker_path dir) x d) s1 → Q (Ok ()) s1) →
  judge i (os_WriteFile_go (marker_path dir) x) Q s.
Proof.
  intros Hst HQ. unfold os_WriteFile_go. set (mk := marker_path dir) in *.
  assert (apart W mk) as Hap by by apply apart_marker.
  assert (¬ is_seg mk) as Hns by (intros Hs%is_seg_suffix; by apply (marker_ne_seg dir mk Hs)).
  apply judge_bind. eapply (judge_stage_put i m d _ mk []); [done..|by intros; rewrite os_Create_done|].
  intros s1 Hst1. apply judge_bind.
  eapply (judge_stage_put i m _ _ mk x (mkFile mk (length x), Ok ())); [done..| |].
  { intros s2 (_ & _ & Hag) Hn. apply (file_Write_done (sh_disk s2) (mkFile mk 0) x []); [done| |done].
    cbn [f_path]. unfold mk. rewrite (agree_marker _ _ _ Hag). apply lookup_insert_eq. }
  intros s2 Hst2. apply judge_bind, judge_io_read; [by apply file_Close_quiet|].
  intros n s3 HR _. apply judge_ret, HQ. rewrite <- (put_file_put mk [] x d). by eapply stage_stable.
Qed.

(** [openNewSegment] once the last segment is closed. *)
Lemma judge_openNewSegment i m d s :
  mgr_closed m d → stage i m d s →
  judge i openNewSegment_go (λ r s', r = Ok () ∧ ∃ m', held i m' s') s.
Proof.
  intros Hcl Hst. unfold openNewSegment_go. apply judge_bind, judge_get. intros n1 s1 HR1 _.
  apply (stage_stable _ _ _ _ _ HR1) in Hst. pose proof Hst as (Hmu1 & -> & _).
  destruct (mc_fresh _ _ Hcl (nextSeq m)) as [HT Hnone]; [pose proof (mc_seq _ _ Hcl); lia|].
  rewrite (mc_dir _ _ Hcl). fold (seq_path dir (nextSeq m)) (marker_path dir).
  set (path := seq_path dir (nextSeq m)) in *.
  assert (is_seg path) as Hpath by (apply seq_path_is_seg; apply (mc_seq _ _ Hcl)).
  apply judge_bind, judge_holder_io; [done|]. intros n2 s2 HR2 Hinv2 Hmu2.
  apply (stage_stable _ _ _ _ _ HR2) in Hst as (_ & Hm2 & Hag2).
  pose proof (OpenSegment_done (sh_disk s2) path (inv_faults _ _ _ Hinv2)) as Ho.
  assert (files (sh_disk s2) !! path = None) as Hnone2 by (by rewrite (agree_seg _ _ _ Hag2)).
  rewrite Hnone2 in Ho. eexists _, _. split; [exact Ho|]. split.
  { apply holder_put; [done|by apply apart_seg|]. intros _. split; [|by rewrite Hnone2].
    apply (file_ok_holds _ _ _ []); [constructor|set_solver]. }
  change (mkDisk _ _) with (put_file path [] (sh_disk s2)). cbn [default length].
  assert (stage i m (put_file path [] d) (put_disk (put_file path [] (sh_disk s2)) s2)) as Hst2.
  { split_and!; [done..|]. by apply agree_put. }
  apply judge_bind, judge_holder_set; [done|]. intros n3 s3 HR3 Hinv3 Hmu3.
  apply (stage_stable _ _ _ _ _ HR3) in Hst2 as (_ & Hm3 & Hag3). rewrite Hm3.
  pose proof (inv_room _ _ _ Hinv3) as (Hr1 & Hr2 & Hr3). rewrite Hm3 in Hr1, Hr3.
  pose proof (mc_seq _ _ Hcl) as Hsq.
  assert (uint64 (nextSeq m + 1) = nextSeq m + 1) as Hns by (unfold uint64, wrap_unsigned; apply Z.mod_small; lia).
  assert (∀ (P : Prop) p c, is_seg p → files (sh_disk s3) !! p = Some c → file_ok W P c) as Hquiet.
  { apply (quiet_files (S n3)); [done|]. destruct (mc_last _ _ Hcl) as (ap & b & es & Hl & Hs & HaT & Hf & Hh & Hu).
    exists ap, b, es. rewrite Hm3. split_and!; [done| |done..].
    rewrite (agree_seg _ _ _ Hag3) by done. cbn. rewrite lookup_insert_ne; [done|congruence]. }
  change (with_nextSeq _ _) with (with_nextSeq (uint64 (nextSeq m + 1)) (with_paths (paths m ++ [path])
    (with_active (Some (mkSegment (mkFile path 0) 0)) m))).
  assert (with_nextSeq (uint64 (nextSeq m + 1)) (with_paths (paths m ++ [path])
    (with_active (Some (mkSegment (mkFile path 0) 0)) m)) = opened m) as ->
    by (unfold opened, path; by rewrite (mc_dir _ _ Hcl)).
  split.
  { split; [by destruct Hinv3| |by rewrite Hm3|apply agree_grows, agree_refl| |apply leaves_refl].
    - unfold room, opened. cbn. rewrite Hns. split_and!; [lia|lia|]. intros seg [= <-]. cbn. lia.
    - intros p c Hp Hc. right. by eapply Hquiet. }
  apply judge_bind. eapply (judge_marker i (opened m)); [by split_and!|].
  intros s4 Hst4. apply judge_ret. split; [done|]. exists (opened m). eapply stage_held; [|done].
  apply opened_inv; [done|lia].
Qed.

Lemma judge_rotate i m s :
  held i m s →
  judge i rotate_go (λ r s', r = Ok () ∧ ∃ m', held i m' s') s.
Proof.
  intros Hheld. unfold rotate_go. apply judge_bind, judge_get. intros n1 s1 HR1 _.
  apply (held_stable _ _ _ _ HR1) in Hheld as (Hmu1 & Hmm1 & Hm1). rewrite Hmm1.
  pose proof (mi_active _ _ _ Hm1) as (seg & bytes & es & Ha & Hl & Hat & Hh & Hu & HT).
  pose proof (mi_active_seg _ _ _ _ Hm1 Hl) as Hs.
  rewrite Hl, Ha. set (ap := f_path (seg_file seg)) in *.
  apply judge_bind, judge_holder; [done|].
  intros n2 s2 HR2 Hinv2 Hmu2. assert (held i m s1) as Hh2 by done.
  apply (held_stable _ _ _ _ HR2) in Hh2 as (_ & Hmm2 & Hm2). pose proof (inv_room _ _ _ Hinv2) as Hr2.
  pose proof (inv_faults _ _ _ Hinv2) as Hn2. io.
  rewrite (Segment_Close_done _ seg (length bytes)) by (done || by destruct Hat as (_ & ? & _)). io.
  rewrite Hmm2 in Hr2 |- *. set (mc := with_active _ m).
  assert (∀ n, room n m → room n mc) as Hroom.
  { intros n (? & ? & Hr). split_and!; [done..|]. intros ? [= <-]. exact (Hr seg Ha). }
  eexists _, _, _. split; [done|]. split.
  { apply holder_step_manager; [done|apply Hroom, room_weaken, Hr2| |]; rewrite Hmm2; reflexivity. }
  set (s2' := put_manager mc _). assert (stage i mc (sh_disk s2) s2') as Hst by (split_and!; [done..|apply agree_refl]).
  destruct (bloomEnabled m).
  - apply judge_bind, judge_holder; [done|]. intros n3 s3 HR3 Hinv3 Hmu3.
    apply (stage_stable _ _ _ _ _ HR3) in Hst as (_ & Hmm3 & Hag3).
    pose proof (mgr_inv_agree _ _ _ _ Hm2 Hag3) as Hm3.
    pose proof (inv_faults _ _ _ Hinv3) as Hn3. rewrite Hmm3.
    destruct (mi_active _ _ _ Hm3) as (seg' & b3 & es3 & Ha3 & _ & Hat3 & Hh3 & _).
    rewrite Ha in Ha3. injection Ha3 as <-. pose proof Hat3 as [Hf3 _]. fold ap in Hf3.
    io. rewrite (write_segment_bloom_done mc (sh_disk s3) ap b3 es3) by done. io.
    eexists _, _, _. split; [done|]. split.
    { apply holder_sidecar; [done..| |by rewrite Hmm3|by rewrite Hmm3].
      apply room_weaken. pose proof (inv_room _ _ _ Hinv3) as Hr. by rewrite Hmm3 in Hr. }
    eapply judge_openNewSegment; [by apply mgr_closed_active, (mgr_closed_sidecar m (sh_disk s3) seg b3 es3)|].
    split_and!; [done..|apply agree_refl].
  - apply judge_bind, judge_ret. eapply judge_openNewSegment; [by apply mgr_closed_active, mgr_inv_closed|done].
Qed.
End rotation.

(** ** Writers: the append *)

#[local] Arguments frame : simpl never.

Section appends.
Context `{GoUnicodeLaws} `{ProtobufLaws} `{BloomLaws}.
Context (W : setting).
Notation T := (compacted W).
Notation U := (known W).
Notation is_seg := (is_seg W).
Notation inv := (inv W).
Notation relies := (relies W).
Notation judge := (judge W).
Notation mgr_inv := (mgr_inv W).
Notation held := (held W).
Context (T_seg : ∀ p, p ∈ T → is_seg p).
Context (i : nat) (e : LogEntry) (data : list byte).
Context (He : e ∈ U) (Hm : marshalLogEntry e = Ok data) (Hlen : len data ≤ maxRecordSize).

(** One write at the end of the active segment. *)
Lemma judge_write m ap d0 bytes es k k' chunk f Q s :
  is_seg ap → ap ∉ T → last (paths m) = Some ap → holds bytes es → (∀ x, x ∈ es → x ∈ U) →
  f_path f = ap → f_off f = Some (length (bytes ++ take k (frame data))) →
  take k (frame data) ++ chunk = take k' (frame data) →
  stage W i m (put_file ap (bytes ++ take k (frame data)) d0) s →
  (∀ s', stage W i m (put_file ap (bytes ++ take k' (frame data)) d0) s' →
     Q (mkFile ap (length (bytes ++ take k' (frame data))), Ok ()) s') →
  judge i (atomically (do_io (file_Write f chunk))) Q s.
Proof.
  intros Hs HT Hl Hh Hu Hf Hpos Hchunk Hst HQ. apply judge_holder_io; [by destruct Hst|].
  intros n s1 HR Hinv Hmu. apply (stage_stable _ _ _ _ _ _ HR) in Hst as (_ & Hmm & Hag).
  assert (files (sh_disk s1) !! f_path f = Some (bytes ++ take k (frame data))) as Hfile.
  { rewrite Hf, (agree_seg _ _ _ Hag) by done. apply lookup_insert_eq. }
  rewrite (file_Write_done _ _ _ _ (inv_faults _ _ _ Hinv) Hfile Hpos), <- app_assoc, Hchunk, Hf.
  eexists _, _. split; [done|]. split.
  - apply holder_put; [done|by apply apart_seg|]. intros _. rewrite Hmm, <- Hf, Hfile. split.
    + apply (file_ok_append _ _ _ es e); [by rewrite Hf|done..].
    + intros b [= <-]. exists chunk. by rewrite <- app_assoc, Hchunk.
  - apply HQ. split_and!; [done..|]. rewrite <- (put_file_put ap (bytes ++ take k (frame data))). by apply agree_put.
Qed.

(** The manager after the append. *)
Lemma appended_inv m d0 seg bytes es n :
  mgr_inv m d0 → active m = Some seg → holds bytes es → (∀ x, x ∈ es → x ∈ U) → seg_size seg = len bytes →
  let ap := f_path (seg_file seg) in let d := put_file ap (bytes ++ frame data) d0 in
  last (paths m) = Some ap → files d0 !! ap = Some bytes → is_seg ap → ap ∉ T → room (S n) m →
  let m' := with_active (Some (mkSegment (mkFile ap (length (bytes ++ frame data)))
              (int64 (seg_size seg + int64 (4 + len data))))) m in
  room n m' ∧ mgr_inv m' d.
Proof.
  intros [Hd _ (k & Hk & Hlk & Hmk) Hfr Hsq Hb Hsd] Ha Hh Hu Hsz ap d Hl Hf0 Hs HT (Hr1 & Hr2 & Hr3) m'.
  specialize (Hr3 seg Ha). assert (0 ≤ len data) as Hd0 by (unfold len; lia).
  assert (0 ≤ len bytes) as Hb0 by (unfold len; lia). unfold maxRecordSize in *.
  assert (int64 (seg_size seg + int64 (4 + len data)) = len (bytes ++ frame data)) as Hsize.
  { rewrite (int64_small (4 + len data)) by (unfold in_int64; lia).
    rewrite int64_small by (unfold in_int64; lia). rewrite Hsz. unfold len. rewrite length_app, frame_length. lia. }
  assert (len (bytes ++ frame data) = seg_size seg + 4 + len data) as Hsize'.
  { rewrite Hsz. unfold len. rewrite length_app, frame_length. lia. }
  pose proof (holds_snoc bytes es e data Hh Hm Hlen) as Hh'.
  assert (∀ p, p ≠ ap → files d !! p = files d0 !! p) as Hrest by (intros p Hp; cbn; by rewrite lookup_insert_ne).
  assert (∀ p, BloomPath p ≠ ap) as Hbp by (intros p; by eapply bloom_ne_seg, is_seg_suffix).
  split; [split_and!|split]; cbn [mdir active paths nextSeq blooms with_active m'].
  - cbn. lia.
  - lia.
  - intros seg' [= <-]. cbn. rewrite Hsize, Hsize'. lia.
  - done.
  - eexists _, _, (es ++ [e]). split; [done|]. split; [done|]. split_and!; [|done| |done].
    + split; [apply lookup_insert_eq|]. split; [done|]. exact Hsize.
    + intros x [?| ->%list_elem_of_singleton]%elem_of_app; auto.
  - exists k. split_and!; [lia|lia|done|]. rewrite Hrest; [done|]. by eapply marker_ne_seg, is_seg_suffix.
  - intros j Hj. destruct (Hfr j Hj) as [Hj1 Hj2]. split; [done|]. rewrite Hrest; [done|congruence].
  - done.
  - intros p bf HpT Hbf. destruct (Hb p bf HpT Hbf) as (Hps & Hlast & Hex). split_and!; [done..|].
    rewrite Hrest; [done|]. intros ->. by apply Hlast.
  - intros p fb bf Hps HpT. rewrite Hrest by done. intros Hfb Hr.
    destruct (Hsd p fb bf Hps HpT Hfb Hr) as (Hlast & Hex). split; [done|]. rewrite Hrest; [done|congruence].
Qed.

(** [Segment.Append] by the holder. *)
Lemma judge_append_active m s :
  held i m s →
  judge i (append_active_go data) (λ r s', r = Ok () ∧ ∃ m' ap, held i m' s' ∧
    last (paths m') = Some ap ∧ is_seg ap ∧ ap ∉ T ∧ in_file (sh_disk s') ap e) s.
Proof.
  intros Hheld. unfold append_active_go. apply judge_bind, judge_get. intros n1 s1 HR1 _.
  apply (held_stable _ _ _ _ _ HR1) in Hheld as (Hmu1 & Hmm1 & Hm1). rewrite Hmm1.
  pose proof (mi_active _ _ _ Hm1) as (seg & bytes & es & Ha & Hl & (Hf & Hpos & Hsz) & Hh & Hu & HT).
  pose proof (mi_active_seg _ _ _ _ Hm1 Hl) as Hs.
  rewrite Ha. set (ap := f_path (seg_file seg)) in *.
  unfold WriteRecord_go, WriteRecord_chunks.
  assert (0 ≤ len data) as Hd0 by (unfold len; lia). unfold maxRecordSize in Hlen.
  rewrite (proj2 (Z.ltb_ge _ _)) by (unfold MaxUint32; lia).
  assert (uint32 (len data) = len data) as -> by (unfold uint32, wrap_unsigned; rewrite Z.mod_small; lia).
  assert (take 4 (frame data) = put_uint32 (len data)) as Hhdr.
  { unfold frame. by rewrite take_app_le, take_ge by (rewrite put_uint32_length; lia). }
  assert (stage W i m (put_file ap (bytes ++ take 0 (frame data)) (sh_disk s1)) s1) as Hst.
  { split_and!; [done..|]. rewrite take_0, app_nil_r. unfold put_file. rewrite insert_id by done. by split. }
  apply judge_bind, judge_bind.
  eapply (judge_write m ap _ bytes es 0 4); try done.
  { by rewrite take_0, app_nil_r. }
  intros s2 Hst2. apply judge_bind.
  eapply (judge_write m ap _ bytes es 4 (length (frame data))); try done.
  { rewrite Hhdr, take_ge by lia. done. }
  intros s3 Hst3. apply judge_ret. rewrite (take_ge (frame data)) in Hst3 |- * by lia.
  apply judge_bind, judge_io_read; [by intros; erewrite file_Sync_done|].
  intros n4 s4 HR4 Hinv4. apply (stage_stable _ _ _ _ _ _ HR4) in Hst3.
  erewrite file_Sync_done by (done || by destruct Hinv4). cbn [fst].
  apply judge_bind, judge_holder_set; [by destruct Hst3|].
  intros n5 s5 HR5 Hinv5 Hmu5.
  apply (stage_stable _ _ _ _ _ _ HR5) in Hst3 as (_ & Hmm5 & Hag5).
  pose proof (inv_room _ _ _ Hinv5) as Hr5. rewrite Hmm5 in Hr5 |- *.
  destruct (appended_inv m (sh_disk s1) seg bytes es n5) as (Hroom & Hinv'); try done.
  split; [apply holder_step_manager; by rewrite ?Hmm5|]. apply judge_ret. split; [done|]. eexists _, ap.
  split; [split_and!; [exact Hmu5|reflexivity|by eapply mgr_inv_agree]|]. split_and!; [done..|].
  exists (bytes ++ frame data), (es ++ [e]), []. rewrite app_nil_r. split_and!; [|by apply holds_snoc|set_solver].
  cbn. rewrite (agree_seg _ _ _ Hag5) by done. apply lookup_insert_eq.
Qed.

(** [appendLocked] by the holder, and the whole write. *)
Lemma judge_appendLocked m s :
  held i m s →
  judge i (appendLocked_go e) (λ r s', r = Ok () ∧ ∃ m' ap, held i m' s' ∧
    last (paths m') = Some ap ∧ is_seg ap ∧ ap ∉ T ∧ in_file (sh_disk s') ap e) s.
Proof.
  intros Hheld. unfold appendLocked_go. apply judge_bind, judge_get. intros n1 s1 HR1 _.
  apply (held_stable _ _ _ _ _ HR1) in Hheld as Hheld1. pose proof Hheld1 as (Hmu1 & Hmm1 & Hm1).
  rewrite Hmm1, Hm.
  pose proof (mi_active _ _ _ Hm1) as (seg & bytes & es & Ha & _). rewrite Ha.
  destruct (must_rotate m seg data); [|by apply judge_append_active with m].
  apply judge_bind. eapply judge_mono, judge_rotate; [|done..].
  intros r s2 (-> & m2 & Hheld2). by apply judge_append_active with m2.
Qed.

Lemma judge_unlock {A} (a : A) (Q : A → Shared → Prop) m s :
  held i m s → (∀ s1, relies i s s1 → Q a (put_mu None s1)) →
  judge i (_ ← atomically unlock; mret a) Q s.
Proof.
  intros Hheld HQ. apply judge_bind, judge_act. intros n s1 HR Hinv. split; [by eexists|].
  intros x s2 [= <- <-]. apply (held_stable _ _ _ _ _ HR) in Hheld as (Hmu1 & Hmm & Hmi).
  split_and!; [| |by apply HQ].
  - pose proof (mc_last _ _ _ (mgr_inv_closed _ _ _ Hmi)) as (ap & b & es & Hl & _ & _ & Hlast).
    rewrite <- Hmm in Hl, Hmi. assert (∀ (P : Prop) p c, is_seg p → files (sh_disk s1) !! p = Some c → file_ok W P c) as Hquiet.
    { apply (quiet_files _ (S n)); [done|]. by exists ap, b, es. }
    apply inv_weaken in Hinv as [? ? _ ? ? ? ? ?]. by split; cbn; eauto.
  - split_and!; [by apply common_disk|intros j Hj; split; cbn; congruence|intros _; apply leaves_refl].
Qed.

Lemma judge_lock Q s :
  writer W i → sh_mu s ≠ Some i →
  (∀ s1, relies i s s1 → held i (sh_manager s1) (put_mu (Some i) s1) → Q () (put_mu (Some i) s1)) →
  judge i (atomically (lock i)) Q s.
Proof.
  intros Hw Hmu HQ. apply judge_act. intros n s1 HR Hinv.
  assert (sh_mu s1 ≠ Some i) as Hmu1 by (by eapply relies_mu).
  unfold lock. split; [intros [->|?]; [by eexists|done]|].
  destruct (sh_mu s1) as [j|] eqn:Hs1; [done|]. intros x s2 [= <- <-].
  pose proof (inv_manager _ _ _ Hinv Hs1) as Hmi. split_and!; [| |by apply HQ].
  - apply inv_weaken in Hinv as [? ? Hf ? ? ? ? ?]. split; cbn; [done|done| |done|by intros j [= <-]|done..].
    intros p c Hp Hc. apply (file_ok_weaken W (torn_at s1 p)); [|by eapply Hf]. intros [[? ?] _]. congruence.
  - split_and!; [by apply common_disk|intros j Hj; split; cbn; rewrite ?Hs1; congruence|intros _; apply leaves_refl].
Qed.

Lemma judge_AppendWithPath s :
  writer W i → sh_mu s ≠ Some i →
  judge i (AppendWithPath_go i e) (λ r s', sh_mu s' ≠ Some i ∧ ∃ p, r = Ok p ∧
    is_seg p ∧ p ∉ T ∧ in_file (sh_disk s') p e) s.
Proof.
  intros Hw Hmu. unfold AppendWithPath_go. apply judge_bind, judge_lock; [done..|]. intros s1 _ Hheld.
  apply judge_bind. eapply judge_mono, judge_appendLocked; [|done].
  intros r s2 (-> & m2 & ap & Hheld2 & Hl & Hs & HT & Hin).
  apply judge_bind, judge_get. intros n3 s3 HR3 _.
  assert (in_file (sh_disk s3) ap e) as Hin3 by (eapply in_file_grows; [done..|apply HR3|done]).
  apply (held_stable _ _ _ _ _ HR3) in Hheld2 as Hheld3. pose proof Hheld3 as (Hmu3 & -> & _). rewrite Hl.
  eapply judge_unlock; [done|]. intros s4 HR4. split; [done|]. exists ap. split_and!; [done..|].
  eapply in_file_grows; [done..|apply HR4|done].
Qed.

(** A write succeeds, and its entry is then visible. *)
Lemma judge_write_go msg s :
  writer W i → sh_mu s ≠ Some i →
  judge i (write_go i msg e) (λ r s', sh_mu s' ≠ Some i ∧ r = Ok () ∧ ∃ p, visible W s' e p) s.
Proof.
  intros Hw Hmu. unfold write_go. apply judge_bind.
  eapply judge_mono, judge_AppendWithPath; [|done..]. intros r s1 (Hmu1 & p & -> & Hs & HT & Hin).
  apply judge_bind, judge_Add; [done|]. intros s2 HR2 Hidx. apply judge_ret. split_and!; [|done|].
  - exact (relies_mu _ _ _ _ HR2 Hmu1).
  - exists p. split_and!; [done..|]. eapply in_file_grows; [done..|apply HR2|done].
Qed.
End appends.
