(* ===== verification/Compacting.v ===== *)
(** * The compactor among other goroutines

    The judgements ([Rely]) for the compactor's programs: a merge pass and a
    retention pass over the closed segments of the setting keep the invariant and
    the guarantees while writers and queries run. Between any two steps of a pass
    every entry the setting says must be kept is on disk in one of those segments,
    with a sidecar that does not hide it: the merged file replaces its first part
    only by a superset, its filter covers it before the other parts are removed,
    and a file before its filter. *)

From S2P Require Import Prelude GoStrings Types Record Disk Segment Ranking Index Parser Bloom.
From S2P Require Import Paths Manager Executor Recovery Fanout Ingest Compaction Threads Goroutines Rely Requests.

#[local] Arguments frame : simpl never.

(** ** Lemmas: file operations *)

Section file_lemmas.
Context `{ProtobufLaws}.

Lemma Segment_Append_file d s data bytes :
  no_faults d → files d !! f_path (seg_file s) = Some bytes → f_off (seg_file s) = Some (length bytes) →
  len data ≤ MaxUint32 →
  ∃ s', Segment_Append s data d = ((s', Ok ()), put_file (f_path (seg_file s)) (bytes ++ frame data) d) ∧
    f_path (seg_file s') = f_path (seg_file s) ∧ f_off (seg_file s') = Some (length (bytes ++ frame data)).
Proof.
  intros Hn Hf Hp Hl. assert (0 ≤ len data) as Hd0 by (unfold len; lia).
  unfold Segment_Append, file_WriteRecord, WriteRecord_chunks.
  rewrite (proj2 (Z.ltb_ge _ _)) by done. io.
  rewrite (file_Write_done d _ _ bytes) by done. cbn [fst snd]. io.
  rewrite (file_Write_done _ _ _ (bytes ++ put_uint32 (uint32 (len data))))
    by (cbn; rewrite ?lookup_insert_eq; done). cbn [fst snd]. io.
  unfold file_Sync. io. rewrite insert_insert_eq, <- app_assoc.
  assert (uint32 (len data) = len data) as ->
    by (unfold len, MaxUint32 in *; apply uint32_small; lia).
  fold (frame data). eexists. split; [done|]. split; [done|]. done.
Qed.

Lemma os_Rename_done d old new bytes :
  no_faults d → files d !! old = Some bytes →
  os_Rename old new d = (Ok (), mkDisk (<[new := bytes]> (delete old (files d))) (sched d)).
Proof. intros Hn Hf. unfold os_Rename. io. rewrite Hf. by io. Qed.
End file_lemmas.

(** ** The compactor's steps *)

Section compacting.
Context `{GoUnicodeLaws} `{ProtobufLaws} `{BloomLaws}.
Context (W : setting) (i : nat).
Notation T := (compacted W).
Notation U := (known W).
Notation is_seg := (is_seg W).
Notation inv := (inv W).
Notation relies := (relies W i).
Notation mgr_inv := (mgr_inv W).
Notation judge := (judge W i).
Context (me : compactor W = Some i) (T_seg : ∀ p, p ∈ T → is_seg p).

Lemma T_suffix p : p ∈ T → HasSuffix p ".seg" = true.
Proof. intros Hp. by eapply is_seg_suffix, T_seg. Qed.

(** The segments being compacted and their sidecars are the same. *)
Definition same_shelf (s s' : Shared) : Prop :=
  ∀ p, p ∈ T → files (sh_disk s') !! p = files (sh_disk s) !! p ∧
    files (sh_disk s') !! BloomPath p = files (sh_disk s) !! BloomPath p.

Lemma relies_same s s' : relies s s' → same_shelf s s'.
Proof. intros (_ & _ & Hl) p Hp. by destruct (Hl me p Hp) as (? & ? & _). Qed.

Lemma same_trans s1 s2 s3 : same_shelf s1 s2 → same_shelf s2 s3 → same_shelf s1 s3.
Proof. intros H1' H2' p Hp. destruct (H1' p Hp), (H2' p Hp). split; congruence. Qed.

Lemma relies_tmp s s' p :
  relies s s' → p ∈ T → files (sh_disk s') !! (p +:+ ".tmp") = files (sh_disk s) !! (p +:+ ".tmp").
Proof. intros (_ & _ & Hl) Hp. by apply Hl. Qed.

Lemma same_in_file s s' p e : same_shelf s s' → p ∈ T → in_file (sh_disk s) p e ↔ in_file (sh_disk s') p e.
Proof. intros Hs Hp. unfold in_file. by destruct (Hs p Hp) as [-> _]. Qed.

(** A step that changes temporary files only. *)
Lemma tmp_step s d' :
  no_faults d' → (∀ p, HasSuffix p ".tmp" = false → files d' !! p = files (sh_disk s) !! p) →
  compactor_step W s d'.
Proof.
  intros Hn Hf.
  assert (∀ p, is_seg p → files d' !! p = files (sh_disk s) !! p) as Hseg.
  { intros p Hp. by eapply Hf, seg_not_tmp, is_seg_suffix. }
  assert (∀ p, files d' !! BloomPath p = files (sh_disk s) !! BloomPath p) as Hside by auto using bloom_suffix.
  split; [done| | | |].
  - split; auto using marker_suffix.
  - intros p x Hp Hx. left. by rewrite <- Hseg.
  - intros e p _ Hp [(b & es & rest & Hfile & He) Hs]. exists p. split; [done|]. split.
    + exists b, es, rest. by rewrite Hseg by auto.
    + intros fb bf. rewrite Hside. apply Hs.
  - intros _ p Hp. by rewrite Hside.
Qed.

Lemma judge_aside {A} (c : IO A) Q s :
  (∀ d, no_faults d → no_faults (c d).2 ∧ ∀ p, HasSuffix p ".tmp" = false → files (c d).2 !! p = files d !! p) →
  (∀ s1, relies s s1 → no_faults (sh_disk s1) →
     same_shelf s (put_disk (c (sh_disk s1)).2 s1) →
     Q (c (sh_disk s1)).1 (put_disk (c (sh_disk s1)).2 s1)) →
  judge (atomically (do_io c)) Q s.
Proof.
  intros Hc HQ. apply judge_compactor; [done|]. intros n s1 HR Hinv. cbn zeta.
  pose proof (inv_faults _ _ _ Hinv) as Hn. destruct (Hc (sh_disk s1) Hn) as [Hn' Hf].
  split; [by apply tmp_step|]. apply HQ; [done..|]. apply (same_trans _ s1); [by apply relies_same|].
  intros p Hp. cbn. split; apply Hf; [by apply seg_not_tmp, T_suffix|apply bloom_suffix].
Qed.

Lemma judge_Remove_tmp p Q s :
  p ∈ T →
  (∀ s1 r, relies s s1 →
     Q r (put_disk (mkDisk (delete (p +:+ ".tmp") (files (sh_disk s1))) (sched (sh_disk s1))) s1)) →
  judge (atomically (do_io (os_Remove (p +:+ ".tmp")))) Q s.
Proof.
  intros Hp HQ. apply judge_compactor; [done|]. intros n s1 HR Hinv. cbn zeta.
  pose proof (inv_faults _ _ _ Hinv) as Hn. destruct (os_Remove_done (sh_disk s1) (p +:+ ".tmp") Hn) as [r ->].
  cbn [fst snd]. split; [|by apply HQ]. apply tmp_step; [done|]. intros q Hq. cbn.
  rewrite lookup_delete_ne; [done|]. by apply bloom_tmp_eq.
Qed.

(** A step that changes one segment of the compactor: the content is whole, and what
    must be kept of the old one is shelved somewhere. *)
Lemma segment_step s path (x : option (list byte)) d' :
  path ∈ T → no_faults d' → files d' !! path = x →
  (∀ p, p ≠ path → HasSuffix p ".tmp" = false → files d' !! p = files (sh_disk s) !! p) →
  (∀ b, x = Some b → ∃ es, holds b es ∧ ∀ e, e ∈ es → e ∈ U) →
  (∀ e, must_keep W e → shelved (sh_disk s) path e → ∃ q, q ∈ T ∧ shelved d' q e) →
  compactor_step W s d'.
Proof.
  intros HT Hn Hx Hf Hwhole Hkeep.
  assert (∀ p, BloomPath p ≠ path) as Hbp by (intros p; by apply bloom_ne_seg, T_suffix).
  assert (∀ p, is_seg p → p ≠ path → files d' !! p = files (sh_disk s) !! p) as Hseg.
  { intros p Hp Hne. eapply Hf, seg_not_tmp, is_seg_suffix; done. }
  assert (∀ p, files d' !! BloomPath p = files (sh_disk s) !! BloomPath p) as Hside by auto using bloom_suffix.
  split; [done| | | |].
  - split; [|done|].
    + intros p Hp HpT. apply Hseg; [done|]. by intros ->.
    + apply Hf; [by apply marker_ne_seg, T_suffix|apply marker_suffix].
  - intros p b Hp Hb. destruct (decide (p = path)) as [->|Hne].
    + right. rewrite Hx in Hb. destruct (Hwhole b Hb) as (es & ? & ?). by apply (file_ok_holds _ _ _ es).
    + left. by rewrite <- Hseg.
  - intros e p He Hp Hs. destruct (decide (p = path)) as [->|Hne]; [by apply Hkeep|]. exists p. split; [done|].
    destruct Hs as [(b & es & rest & Hfile & ?) Hs]. split.
    + exists b, es, rest. by rewrite Hseg by auto.
    + intros fb bf. rewrite Hside. apply Hs.
  - intros _ p Hp. by rewrite Hside.
Qed.

(** A step that changes one sidecar of the compactor, which still covers what must be
    kept of its segment. *)
Lemma sidecar_step s path d' :
  path ∈ T → no_faults d' →
  (∀ p, p ≠ BloomPath path → HasSuffix p ".tmp" = false → files d' !! p = files (sh_disk s) !! p) →
  (∀ e, must_keep W e → in_file (sh_disk s) path e → side_covers d' path [e]) →
  (filtering W = false → files d' !! BloomPath path = None) →
  compactor_step W s d'.
Proof.
  intros HT Hn Hf Hkeep Hoff.
  assert (∀ p, is_seg p → files d' !! p = files (sh_disk s) !! p) as Hseg.
  { intros p Hp%is_seg_suffix. apply Hf; [by apply not_eq_sym, bloom_ne_seg|by apply seg_not_tmp]. }
  assert (∀ p, is_seg p → p ≠ path → files d' !! BloomPath p = files (sh_disk s) !! BloomPath p) as Hside.
  { intros p Hp%is_seg_suffix Hne. apply Hf; [|apply bloom_suffix].
    intros E%BloomPath_inj; [done..|by apply T_suffix]. }
  split; [done| | | |].
  - split; [auto| |].
    + intros p Hp HpT. apply Hside; [done|]. by intros ->.
    + apply Hf; [apply marker_not_bloom|apply marker_suffix].
  - intros p b Hp Hb. left. by rewrite <- Hseg.
  - intros e p He Hp [Hin Hs]. exists p. split; [done|]. split.
    + destruct Hin as (b & es & rest & Hfile & ?). exists b, es, rest. by rewrite Hseg by auto.
    + destruct (decide (p = path)) as [->|Hne]; [by apply Hkeep|]. intros fb bf. rewrite Hside by auto. apply Hs.
  - intros Hfl p Hp Hnone. destruct (decide (p = path)) as [->|Hne]; [auto|]. rewrite Hside; auto.
Qed.

(** Removing a segment whose entries need not be kept, or are kept elsewhere. *)
Lemma judge_Remove path Q s :
  path ∈ T →
  (∀ n s1 e, relies s s1 → inv (S n) s1 → must_keep W e → shelved (sh_disk s1) path e →
     ∃ q, q ∈ T ∧ q ≠ path ∧ shelved (sh_disk s1) q e) →
  (∀ s1 r, relies s s1 →
     Q r (put_disk (mkDisk (delete path (files (sh_disk s1))) (sched (sh_disk s1))) s1)) →
  judge (atomically (do_io (os_Remove path))) Q s.
Proof.
  intros HT Hkeep HQ. apply judge_compactor; [done|]. intros n s1 HR Hinv. cbn zeta.
  pose proof (inv_faults _ _ _ Hinv) as Hn. destruct (os_Remove_done (sh_disk s1) path Hn) as [r ->].
  cbn [fst snd]. split; [|by apply HQ].
  eapply (segment_step s1 path None); [done|done|apply lookup_delete_eq| |done|].
  - intros p Hne _. cbn. by rewrite lookup_delete_ne.
  - intros e He Hs. destruct (Hkeep n s1 e HR Hinv He Hs) as (q & Hq & Hne & (b & es & rest & Hf & ?) & Hsc).
    exists q. split; [done|]. split.
    + exists b, es, rest. cbn. by rewrite lookup_delete_ne.
    + intros fb bf. cbn. rewrite lookup_delete_ne; [apply Hsc|]. by apply not_eq_sym, bloom_ne_seg, T_suffix.
Qed.

(** Removing a sidecar hides nothing. *)
Lemma judge_Remove_sidecar path Q s :
  path ∈ T →
  (∀ s1 r, relies s s1 →
     Q r (put_disk (mkDisk (delete (BloomPath path) (files (sh_disk s1))) (sched (sh_disk s1))) s1)) →
  judge (atomically (do_io (os_Remove (BloomPath path)))) Q s.
Proof.
  intros HT HQ. apply judge_compactor; [done|]. intros n s1 HR Hinv. cbn zeta.
  pose proof (inv_faults _ _ _ Hinv) as Hn. destruct (os_Remove_done (sh_disk s1) (BloomPath path) Hn) as [r ->].
  cbn [fst snd]. split; [|by apply HQ]. apply (sidecar_step s1 path); [done|done| | |].
  - intros p Hne _. cbn. by rewrite lookup_delete_ne.
  - intros e _ _ fb bf. cbn. by rewrite lookup_delete_eq.
  - intros _. apply lookup_delete_eq.
Qed.

(** ** The merged file *)

(** Writing the merged records to the temporary file. *)
Lemma judge_merge_append b newPath seg tokens all bytes s :
  newPath ∈ T → Forall storable all → sh_mu s ≠ Some i →
  f_path (seg_file seg) = newPath +:+ ".tmp" → f_off (seg_file seg) = Some (length bytes) →
  files (sh_disk s) !! (newPath +:+ ".tmp") = Some bytes →
  judge (merge_append_go b seg tokens all) (λ x s', x.2 = true ∧
    x.1.2 = (if b then tokens ++ segment_tokens all else tokens) ∧ sh_mu s' ≠ Some i ∧
    same_shelf s s' ∧ files (sh_disk s') !! (newPath +:+ ".tmp") = Some (bytes ++ segment_bytes all)) s.
Proof.
  intros HT. revert seg tokens bytes s. induction all as [|e all IH]; intros seg tokens bytes s Hst Hmu Hp Hpos Hf;
    cbn [merge_append_go].
  - apply judge_ret. split_and!; try done; [|by rewrite app_nil_r]. cbn. rewrite app_nil_r. by destruct b.
  - apply Forall_cons in Hst as [(data & Hm & Hl) Hst]. rewrite Hm. apply judge_bind.
    set (tmp := newPath +:+ ".tmp") in *.
    assert (len data ≤ MaxUint32) as Hl' by (unfold maxRecordSize, MaxUint32 in *; lia).
    apply judge_compactor; [done|]. intros n s1 HR Hinv. cbn zeta. pose proof (inv_faults _ _ _ Hinv) as Hn.
    assert (files (sh_disk s1) !! f_path (seg_file seg) = Some bytes) as Hf1
      by (rewrite Hp; unfold tmp; by rewrite (relies_tmp s s1)).
    destruct (Segment_Append_file (sh_disk s1) seg data bytes Hn Hf1 Hpos Hl') as (seg' & -> & Hp' & Hpos').
    cbn [fst snd]. rewrite Hp in *.
    assert (∀ p, HasSuffix p ".tmp" = false → files (put_file tmp (bytes ++ frame data) (sh_disk s1)) !! p
      = files (sh_disk s1) !! p) as Hne.
    { intros p Hps. cbn. rewrite lookup_insert_ne; [done|]. by apply bloom_tmp_eq. }
    split; [by apply tmp_step|].
    eapply judge_mono, IH; [|done|by apply (relies_mu _ _ _ _ HR)|done|done|cbn; apply lookup_insert_eq].
    intros x s' (? & Htok & ? & Hsame & Hfile). split_and!; [done| |done| |].
    + rewrite Htok. destruct b; [|done]. by rewrite <- app_assoc.
    + apply (same_trans _ s1); [by apply relies_same|]. eapply same_trans; [|done]. intros p HpT. cbn.
      split; apply Hne; [by apply seg_not_tmp, T_suffix|apply bloom_suffix].
    + rewrite Hfile, (segment_bytes_cons e all data Hm). by rewrite app_assoc.
Qed.

Lemma judge_RemoveSegments ps s :
  (∀ p, p ∈ ps → p ∈ T) → sh_mu s ≠ Some i →
  judge (RemoveSegments_go ps) (λ _ s', sh_mu s' ≠ Some i ∧ same_shelf s s' ∧
    ∀ p, p ∈ T → files (sh_disk s') !! (p +:+ ".tmp") = files (sh_disk s) !! (p +:+ ".tmp")) s.
Proof.
  revert s. induction ps as [|p ps IH]; intros s Hps Hmu; cbn [RemoveSegments_go]; [done|].
  apply judge_bind, judge_RemoveSegment; [apply Hps; by left|]. intros s1 HR.
  eapply judge_mono, IH; [|intros q ?; apply Hps; by right|by apply (relies_mu _ _ _ _ HR)].
  intros _ s' (? & Hsame & Htmp). split_and!; [done| |].
  - apply (same_trans _ s1); [by apply relies_same|exact Hsame].
  - intros q Hq. rewrite Htmp by done. by apply (relies_tmp s s1).
Qed.

Lemma judge_Add_all path es s :
  is_seg path → sh_mu s ≠ Some i →
  judge (Add_all_go path es) (λ _ s', sh_mu s' ≠ Some i ∧ same_shelf s s') s.
Proof.
  intros Hp. revert s. induction es as [|e es IH]; intros s Hmu; cbn [Add_all_go]; [done|].
  apply judge_bind, judge_Add; [done|]. intros s1 HR _.
  eapply judge_mono, IH; [|by apply (relies_mu _ _ _ _ HR)]. intros _ s' [? Hsame]. split; [done|].
  apply (same_trans _ s1); [by apply relies_same|exact Hsame].
Qed.

(** The merged file is in place and its filter, if filters are on, covers it. *)
Definition merged (newPath : string) (all : list LogEntry) (s : Shared) : Prop :=
  files (sh_disk s) !! newPath = Some (segment_bytes all) ∧
  (filtering W = true → side_covers (sh_disk s) newPath all).

Lemma merged_same newPath all s s' :
  newPath ∈ T → same_shelf s s' → merged newPath all s → merged newPath all s'.
Proof.
  intros HT Hs [Hf Hc]. destruct (Hs newPath HT) as [Hs1 Hs2]. split; [by rewrite Hs1|].
  intros Hon fb bf. rewrite Hs2. by apply Hc.
Qed.

Lemma merged_shelved n newPath all s e :
  newPath ∈ T → Forall storable all → inv n s → merged newPath all s → e ∈ all → shelved (sh_disk s) newPath e.
Proof.
  intros HT Hst Hinv [Hf Hc] He. split.
  - exists (segment_bytes all), all, []. rewrite app_nil_r. split_and!; [done|by apply holds_segment_bytes|done].
  - intros fb bf Hfb Hr. destruct (filtering W) eqn:Hfl.
    + apply (covers_sub bf all); [by intros x ->%list_elem_of_singleton|]. by eapply Hc.
    + by rewrite (inv_sides _ _ _ Hinv Hfl newPath HT) in Hfb.
Qed.

(** The other parts are removed, each file before its filter. *)
Lemma judge_delete_files newPath all ps s :
  newPath ∈ T → Forall storable all → (∀ p, p ∈ ps → p ∈ T ∧ p ≠ newPath) → sh_mu s ≠ Some i →
  merged newPath all s → (∀ p e, p ∈ ps → in_file (sh_disk s) p e → e ∈ all) →
  judge (delete_files_go ps) (λ _ s', sh_mu s' ≠ Some i) s.
Proof.
  intros HT Hst. revert s. induction ps as [|op ps IH]; intros s Hps Hmu Hmer Hall; cbn [delete_files_go]; [done|].
  destruct (Hps op) as [HopT Hopn]; [by left|].
  apply judge_bind, judge_Remove; [done| |].
  { intros n s1 e HR Hinv _ [Hin _]. exists newPath. split_and!; [done|done|].
    eapply merged_shelved; [done..| |].
    - eapply merged_same; [done|by apply relies_same|done].
    - apply (Hall op); [by left|]. by apply (same_in_file s s1); [apply relies_same|..]. }
  intros s1 r1 HR1. set (s1' := put_disk _ s1).
  apply judge_bind, judge_Remove_sidecar; [done|]. intros s2 r2 HR2.
  apply relies_same in HR1 as Hs1. apply relies_same in HR2 as Hs2. apply IH.
  - intros p Hp. apply Hps. by right.
  - exact (relies_mu _ _ _ _ HR2 (relies_mu _ _ _ _ HR1 Hmu)).
  - destruct (merged_same newPath all s s1 HT Hs1 Hmer) as [Hf Hc].
    assert (merged newPath all s1') as Hmer1.
    { split.
      - cbn. by rewrite lookup_delete_ne.
      - intros Hon fb bf. cbn. rewrite lookup_delete_ne; [by apply Hc|]. by apply not_eq_sym, bloom_ne_seg, T_suffix. }
    destruct (merged_same newPath all s1' s2 HT Hs2 Hmer1) as [Hf2 Hc2]. split.
    + cbn. rewrite lookup_delete_ne; [done|]. by apply bloom_ne_seg, T_suffix.
    + intros Hon fb bf. cbn. rewrite lookup_delete_ne; [by apply Hc2|].
      intros E. apply Hopn. by apply BloomPath_inj; [apply T_suffix..|].
  - intros p e Hp (b & es & rest & Hf & Hx). destruct (Hps p) as [HpT _]; [by right|].
    apply (Hall p); [by right|]. exists b, es, rest. split; [|done].
    cbn in Hf. rewrite lookup_delete_ne in Hf by (by apply bloom_ne_seg, T_suffix).
    rewrite (proj1 (Hs2 p HpT)) in Hf. cbn in Hf. apply lookup_delete_Some in Hf as [_ Hf].
    by rewrite (proj1 (Hs1 p HpT)) in Hf.
Qed.

(** ** The manager's updates *)

(** Dropping paths and filters of the compacted segments only. *)
Lemma mgr_inv_drop m m' d (P : string → Prop) `{∀ p, Decision (P p)} :
  mgr_inv m d → mdir m' = mdir m → active m' = active m → nextSeq m' = nextSeq m →
  paths m' = filter P (paths m) → (∀ p, ¬ P p → p ∈ T) →
  (∀ p, p ∉ T → blooms m' !! p = blooms m !! p) → mgr_inv m' d.
Proof.
  intros [Hd (seg & bytes & es & Ha & Hl & Hrest) (k & Hk & Hlk & Hmk) Hfr Hsq Hb Hsd] Hdir Hact Hns Hps HP Hbl.
  assert (last (paths m') = last (paths m)) as Hl'.
  { rewrite Hl, Hps. apply last_filter_keep; [done|]. destruct Hrest as (_ & _ & _ & HT).
    destruct (decide (P (f_path (seg_file seg)))) as [?|?%HP]; done. }
  split.
  - congruence.
  - exists seg, bytes, es. by rewrite Hact, Hl'.
  - exists k. by rewrite Hl'.
  - intros n Hn. apply Hfr. by rewrite <- Hns.
  - by rewrite Hns.
  - intros p bf HpT Hbf. rewrite Hbl in Hbf by done. rewrite Hl'. by apply Hb.
  - intros p fb bf Hps' HpT. rewrite Hl'. by apply Hsd.
Qed.

Lemma install_merged_done newPath others m d :
  no_faults d → ∃ loaded, install_merged newPath others m d = ((merged_manager newPath others loaded m, ()), d).
Proof.
  intros Hn. unfold install_merged. io. destruct (bloomEnabled m); [|by eexists].
  destruct (ReadBloom_quiet d (BloomPath newPath) Hn) as [r Hr]. io. rewrite Hr. io. by eexists.
Qed.

Lemma judge_install newPath others s :
  newPath ∈ T → (∀ p, p ∈ others → p ∈ T) → sh_mu s ≠ Some i →
  judge (atomically (critical (install_merged newPath others)))
    (λ _ s', sh_mu s' ≠ Some i ∧ same_shelf s s') s.
Proof.
  intros HnT HoT Hmu. apply judge_critical; [done| |].
  - intros m d Hn. destruct (install_merged_done newPath others m d Hn) as [loaded ->]. cbn [fst snd].
    destruct (merged_manager_fields newPath others loaded m) as (? & _ & _ & ? & ? & _). done.
  - intros n s1 HR Hinv Hfree Hm. cbn zeta.
    destruct (install_merged_done newPath others (sh_manager s1) (sh_disk s1)) as [loaded ->];
      [by destruct Hinv|]. cbn [fst snd].
    destruct (merged_manager_fields newPath others loaded (sh_manager s1)) as (Ha & Hp & Hd & Hs & _ & Hb).
    split; [|split; [by apply (relies_mu _ _ _ _ HR)|exact (relies_same s s1 HR)]].
    apply (mgr_inv_drop (sh_manager s1) _ _ (λ p, p ∉ others)); try done.
    + intros p Hp'. destruct (decide (p ∈ others)); [auto|done].
    + intros p HpT. rewrite Hb. destruct (bloomEnabled _); [|done]. cbn zeta.
      assert (newPath ≠ p) by congruence.
      assert (p ∉ others) by auto.
      destruct loaded; rewrite ?lookup_insert_ne, lookup_delete_ne, fold_delete_lookup, decide_False by done; done.
Qed.

(** ** The merge pass *)

(** Reading segments of the compactor. *)
Lemma judge_read_T ps s :
  (∀ p, p ∈ ps → p ∈ T) → sh_mu s ≠ Some i →
  judge (ReadSegments_go [] ps) (λ r s', sh_mu s' ≠ Some i ∧ same_shelf s s' ∧
    ((∃ e, r = Err e) ∨ ∃ raw, r = Ok raw ∧ (∀ e, e ∈ raw → e ∈ U) ∧ Forall storable raw ∧
       ∀ p e, p ∈ ps → in_file (sh_disk s) p e → e ∈ raw)) s.
Proof.
  intros Hps Hmu.
  eapply judge_mono, (judge_ReadSegments _ i (λ e p, p ∈ ps ∧ in_file (sh_disk s) p e)).
  - intros r s' (? & HR & Hcase). split_and!; [done|by apply relies_same|].
    destruct Hcase as [(? & ? & _ & _ & ->)|(raw & -> & ? & ? & Hraw)]; [left; eauto|right].
    exists raw. split_and!; [done..|]. intros p e Hp Hin. apply Hraw. right. eauto.
  - done.
  - apply Forall_forall. auto.
  - intros e He. by apply not_elem_of_nil in He.
  - done.
  - intros s' e p HR [Hp Hin]. by apply (same_in_file s s'); [apply relies_same|apply Hps|].
Qed.

(** The filter of the merged segment. *)
Lemma judge_merge_bloom newPath all (b : bool) tokens s :
  newPath ∈ T → Forall storable all → b = filtering W → tokens = (if b then segment_tokens all else []) →
  sh_mu s ≠ Some i → files (sh_disk s) !! newPath = Some (segment_bytes all) →
  judge (if b && negb (bool_decide (tokens = []))
         then atomically (do_io (WriteBloom (BloomPath newPath) (BuildBloom tokens (len tokens))))
         else mret (Ok ()))
    (λ _ s', sh_mu s' ≠ Some i ∧ merged newPath all s' ∧
       ∀ p, p ∈ T → files (sh_disk s') !! p = files (sh_disk s) !! p) s.
Proof.
  intros HT Hst Hb Htok Hmu Hf. destruct (b && _) eqn:Hcond.
  - apply andb_true_iff in Hcond as [-> _]. subst tokens. fold (segment_bloom all).
    apply judge_compactor; [done|]. intros n s1 HR Hinv. cbn zeta.
    rewrite WriteBloom_done by by destruct Hinv. cbn [fst snd].
    assert (files (sh_disk s1) !! newPath = Some (segment_bytes all)) as Hf1.
    { by rewrite (proj1 (relies_same _ _ HR newPath HT)). }
    assert (∀ es, (∀ e, e ∈ es → e ∈ all) → side_covers (mkDisk (<[BloomPath newPath:=WriteTo (segment_bloom all)]>
      (delete (BloomPath newPath +:+ ".tmp") (files (sh_disk s1)))) (sched (sh_disk s1))) newPath es) as Hcov.
    { intros es Hes fb bf. cbn. rewrite lookup_insert_eq. intros [= <-]. rewrite ReadFrom_WriteTo. intros [= <-].
      eapply covers_sub; [done|]. apply segment_bloom_covers. }
    assert (∀ p, is_seg p → <[BloomPath newPath:=WriteTo (segment_bloom all)]>
      (delete (BloomPath newPath +:+ ".tmp") (files (sh_disk s1))) !! p = files (sh_disk s1) !! p) as Hseg.
    { intros p Hp. apply (sidecar_agree (sh_disk s1)). by eapply is_seg_suffix. }
    split; [|split_and!].
    + apply (sidecar_step s1 newPath); [done|by destruct Hinv| | |by rewrite <- Hb].
      * intros p Hne Hp. cbn. rewrite lookup_insert_ne, lookup_delete_ne; [done|by apply bloom_tmp_eq|done].
      * intros e _ Hin. apply Hcov. intros x ->%list_elem_of_singleton.
        eapply in_file_whole; [exact Hf1|by apply holds_segment_bytes|done].
    + exact (relies_mu _ _ _ _ HR Hmu).
    + split; [|intros _; by apply Hcov]. cbn. by rewrite Hseg by auto.
    + intros p Hp. cbn. rewrite Hseg by auto. by apply (relies_same _ _ HR).
  - apply judge_ret. split_and!; [done| |done]. split; [done|]. intros Hon fb bf _ _.
    rewrite Hon in Hb. subst b. subst tokens. cbn in Hcond. apply negb_false_iff, bool_decide_eq_true in Hcond.
    apply segment_tokens_nil in Hcond as ->. intros e tok He. by apply not_elem_of_nil in He.
Qed.

(** The rename installs the merged records. *)
Lemma judge_Rename newPath all Q s :
  newPath ∈ T → (∀ e, e ∈ all → e ∈ U) → Forall storable all →
  files (sh_disk s) !! (newPath +:+ ".tmp") = Some (segment_bytes all) →
  (∀ e, in_file (sh_disk s) newPath e → e ∈ all) →
  (∀ s1, relies s s1 →
     Q (Ok ()) (put_disk (mkDisk (<[newPath := segment_bytes all]>
       (delete (newPath +:+ ".tmp") (files (sh_disk s1)))) (sched (sh_disk s1))) s1)) →
  judge (atomically (do_io (os_Rename (newPath +:+ ".tmp") newPath))) Q s.
Proof.
  intros HnT Hu Hst Htmp Hall HQ. apply judge_compactor; [done|]. intros n s1 HR Hinv. cbn zeta.
  rewrite <- (relies_tmp s s1 newPath HR HnT) in Htmp.
  rewrite (os_Rename_done (sh_disk s1) _ newPath _ ltac:(by destruct Hinv) Htmp). cbn [fst snd].
  assert (holds (segment_bytes all) all) as Hh by (by apply holds_segment_bytes). split; [|by apply HQ].
  eapply (segment_step s1 newPath (Some (segment_bytes all))); [done|by destruct Hinv|apply lookup_insert_eq| | |].
  - intros p Hne Hp. cbn. rewrite lookup_insert_ne, lookup_delete_ne; [done|by apply bloom_tmp_eq|done].
  - intros b [= <-]. by exists all.
  - intros e _ [Hin Hs]. exists newPath. split; [done|]. split.
    + exists (segment_bytes all), all, []. rewrite app_nil_r. split_and!; [apply lookup_insert_eq|done|].
      apply Hall. by apply (same_in_file s s1); [apply relies_same|..].
    + intros fb bf. cbn. rewrite lookup_insert_ne by (by apply not_eq_sym, bloom_ne_seg, T_suffix).
      rewrite lookup_delete_ne by (by apply bloom_tmp_eq, bloom_suffix). apply Hs.
Qed.

(** What follows the rename. *)
Lemma judge_merge_finish newPath others all (b : bool) tokens s :
  newPath ∈ T → (∀ p, p ∈ others → p ∈ T ∧ p ≠ newPath) → Forall storable all → sh_mu s ≠ Some i →
  b = filtering W → tokens = (if b then segment_tokens all else []) →
  files (sh_disk s) !! newPath = Some (segment_bytes all) →
  (∀ p e, p ∈ others → in_file (sh_disk s) p e → e ∈ all) →
  judge (_ ← (if b && negb (bool_decide (tokens = []))
              then atomically (do_io (WriteBloom (BloomPath newPath) (BuildBloom tokens (len tokens))))
              else mret (Ok ()));
         _ ← Add_all_go newPath all;
         _ ← atomically (critical (install_merged newPath others));
         delete_files_go others)
    (λ _ s', sh_mu s' ≠ Some i) s.
Proof.
  intros HnT HoT Hst Hmu Hb Htok Hf Hothers.
  apply judge_bind. eapply judge_mono, (judge_merge_bloom newPath all); [|done..].
  intros _ s1 (Hmu1 & Hmer1 & Hs1).
  apply judge_bind. eapply judge_mono, judge_Add_all; [|by auto|done]. intros _ s2 [Hmu2 Hs2].
  apply judge_bind. eapply judge_mono, judge_install; [|done|by apply HoT|done]. intros _ s3 [Hmu3 Hs3].
  pose proof (same_trans _ _ _ Hs2 Hs3) as Hs13.
  apply (judge_delete_files newPath all); [done..| |].
  - by eapply merged_same.
  - intros p e Hp (x & es & rest & Hfile & ?). destruct (HoT p Hp) as [HpT _]. apply (Hothers p e Hp).
    exists x, es, rest. rewrite (proj1 (Hs13 p HpT)), (Hs1 p HpT) in Hfile. done.
Qed.

Lemma judge_mergeRun newPath others s :
  newPath ∈ T → (∀ p, p ∈ others → p ∈ T ∧ p ≠ newPath) → sh_mu s ≠ Some i →
  judge (mergeRun_go newPath others) (λ _ s', sh_mu s' ≠ Some i) s.
Proof.
  intros HnT HoT Hmu. unfold mergeRun_go. set (tmp := newPath +:+ ".tmp").
  assert (∀ p, p ∈ newPath :: others → p ∈ T) as HT by (intros p [->|?%HoT]%elem_of_cons; tauto).
  apply judge_bind. eapply judge_mono, judge_read_T; [|done..].
  intros r s1 (Hmu1 & Hs1 & Hr). destruct Hr as [[e ->]|(all & -> & Hu & Hst & Hall)]; [by apply judge_ret|].
  apply judge_bind, judge_Remove_tmp; [done|]. intros s2 r2 HR2. set (s2' := put_disk _ s2).
  apply judge_bind, judge_aside.
  { intros d Hn. rewrite OpenSegment_done by done. cbn [snd]. split; [done|]. intros p Hp. cbn.
    rewrite lookup_insert_ne; [done|]. by apply bloom_tmp_eq. }
  intros s3 HR3 Hn3 Hs3. assert (files (sh_disk s3) !! tmp = None) as Hnone.
  { unfold tmp. rewrite (relies_tmp _ _ _ HR3 HnT). cbn. apply lookup_delete_eq. }
  rewrite (OpenSegment_done (sh_disk s3) tmp Hn3), Hnone in Hs3 |- *. cbn [fst snd default].
  set (s3' := put_disk _ s3) in *. assert (files (sh_disk s3') !! tmp = Some []) as Htmp3 by (cbn; apply lookup_insert_eq).
  apply judge_bind, judge_get. intros n4 s4 HR4 Hinv4.
  assert (sh_mu s4 ≠ Some i) as Hmu4.
  { exact (relies_mu _ _ _ _ HR4 (relies_mu _ _ _ _ HR3 (relies_mu _ _ _ _ HR2 Hmu1))). }
  apply judge_bind. eapply judge_mono, (judge_merge_append _ newPath _ _ _ []); [|done..|].
  2: { rewrite (relies_tmp _ _ _ HR4 HnT). exact Htmp3. }
  intros [[seg5 tokens] ok] s5 (Hok & Htok & Hmu5 & Hs5 & Htmp5). cbn [fst snd app] in Hok, Htok. subst ok.
  apply judge_bind, judge_io_read; [by apply Segment_Close_quiet|]. intros n6 s6 HR6 _.
  apply judge_bind. eapply judge_mono, judge_RemoveSegments; [|done|by apply (relies_mu _ _ _ _ HR6)].
  intros _ s7 (Hmu7 & Hs7 & Htmp7).
  assert (same_shelf s1 s2') as Hs2.
  { intros p Hp. cbn. rewrite !lookup_delete_ne; [by apply relies_same|..];
      [by apply bloom_tmp_eq, bloom_suffix|by apply bloom_tmp_eq, seg_not_tmp, T_suffix]. }
  assert (same_shelf s s7) as Hs.
  { apply (same_trans _ s1), (same_trans _ s2'), (same_trans _ s3'), (same_trans _ s4), (same_trans _ s5),
      (same_trans _ s6); auto using relies_same. }
  apply judge_bind, (judge_Rename _ all); [done..| | |].
  { rewrite Htmp7, (relies_tmp _ _ _ HR6 HnT) by done. exact Htmp5. }
  { intros e Hin. apply (Hall newPath); [by left|]. by apply (same_in_file s s7). }
  intros s8 HR8. apply (judge_merge_finish newPath others all); [done..|by apply (relies_mu _ _ _ _ HR8)| |done| |].
  - apply (inv_filters _ _ _ Hinv4).
  - cbn. apply lookup_insert_eq.
  - intros p e Hp (x & es & rest & Hf & Hx). destruct (HoT p Hp) as [HpT Hne].
    apply (Hall p e); [by right|]. apply (same_in_file s s7); [done..|]. exists x, es, rest. split; [|done].
    cbn in Hf. rewrite lookup_insert_ne, lookup_delete_ne in Hf;
      [|by apply bloom_tmp_eq, seg_not_tmp, T_suffix|done].
    by rewrite <- (proj1 (relies_same _ _ HR8 p HpT)).
Qed.

Lemma judge_flush run s :
  NoDup run → (∀ p, p ∈ run → p ∈ T) → sh_mu s ≠ Some i →
  judge (flush_go run) (λ _ s', sh_mu s' ≠ Some i) s.
Proof.
  intros Hnd HT Hmu. destruct run as [|newPath [|other others]]; cbn [flush_go]; [by apply judge_ret..|].
  apply NoDup_cons in Hnd as [Hnew _]. apply judge_mergeRun; [apply HT; by left| |done].
  intros p Hp. split; [apply HT; by right|]. by intros ->.
Qed.

Lemma os_Stat_quiet p d : no_faults d → (os_Stat p d).2 = d.
Proof. intros Hn. unfold os_Stat. by io. Qed.

Lemma judge_merge_loop threshold run closed s :
  NoDup (run ++ closed) → (∀ p, p ∈ run ++ closed → p ∈ T) → sh_mu s ≠ Some i →
  judge (merge_loop_go threshold run closed) (λ _ s', sh_mu s' ≠ Some i) s.
Proof.
  revert run s. induction closed as [|p closed IH]; intros run s Hnd HT Hmu; cbn [merge_loop_go].
  { rewrite app_nil_r in Hnd, HT. by apply judge_flush. }
  apply judge_bind, judge_io_read; [apply os_Stat_quiet|]. intros n s1 HR _.
  assert (sh_mu s1 ≠ Some i) as Hmu1 by (by apply (relies_mu _ _ _ _ HR)).
  assert (judge (_ ← flush_go run; merge_loop_go threshold [] closed) (λ _ s', sh_mu s' ≠ Some i) s1) as Hflush.
  { apply NoDup_app in Hnd as (Hrun & _ & [_ Hc]%NoDup_cons). apply judge_bind.
    eapply judge_mono, judge_flush; [|done|intros q ?; apply HT, elem_of_app; by left|done].
    intros ? s2 Hmu2. apply IH; [done|intros q ?; apply HT, elem_of_app; right; by right|done]. }
  destruct (os_Stat p (sh_disk s1)).1 as [size|]; [|done]. destruct (size <? threshold); [|done].
  rewrite cons_middle, app_assoc in Hnd, HT. by apply IH.
Qed.

(** ** The retention pass *)

(** Deleting a segment with nothing that must be kept. *)
Lemma judge_delete {A} path (k : prog Shared A) Q s :
  path ∈ T → sh_mu s ≠ Some i → (∀ e, must_keep W e → ¬ in_file (sh_disk s) path e) →
  (∀ s', sh_mu s' ≠ Some i → judge k Q s') →
  judge (_ ← atomically (critical (λ m, mret (DeleteSegment m path, ())));
         _ ← atomically (do_index (RemoveSegment path));
         _ ← atomically (do_io (os_Remove path));
         _ ← atomically (do_io (os_Remove (BloomPath path)));
         k) Q s.
Proof.
  intros HT Hmu Hold HQ. apply judge_bind, judge_critical; [done|done|]. intros n s1 HR1 Hinv1 Hfree Hm.
  rewrite !ret_run. cbn [fst snd]. split.
  { apply (mgr_inv_drop (sh_manager s1) _ _ (λ p, p ≠ path)); try done.
    - intros p Hp. destruct (decide (p = path)) as [->|?]; done.
    - intros p HpT. cbn. rewrite lookup_delete_ne by congruence. done. }
  apply judge_bind, judge_RemoveSegment; [done|]. intros s2 HR2.
  apply judge_bind, judge_Remove; [done| |].
  { intros n3 s3 e HR3 _ He [Hin _]. destruct (Hold e He).
    apply (same_in_file s s3); [|done..]. apply (same_trans _ s1); [by apply relies_same|].
    apply (same_trans _ s2); [exact (relies_same _ _ HR2)|exact (relies_same _ _ HR3)]. }
  intros s3 r3 HR3. apply judge_bind, judge_Remove_sidecar; [done|]. intros s4 r4 HR4. apply HQ.
  exact (relies_mu _ _ _ _ HR4 (relies_mu _ _ _ _ HR3 (relies_mu _ _ _ _ HR2 (relies_mu _ _ _ _ HR1 Hmu)))).
Qed.

Lemma judge_retention_loop cutoff closed s :
  (∀ e, must_keep W e → cutoff ≤ Timestamp e) → (∀ p, p ∈ closed → p ∈ T) → sh_mu s ≠ Some i →
  judge (retention_loop_go cutoff closed) (λ _ s', sh_mu s' ≠ Some i) s.
Proof.
  intros Hcut. revert s. induction closed as [|path closed IH]; intros s HT Hmu; cbn [retention_loop_go]; [done|].
  assert (path ∈ T) as HpT by (apply HT; by left).
  assert (∀ p, p ∈ closed → p ∈ T) as HT' by (intros p ?; apply HT; by right).
  apply judge_bind. eapply judge_mono, judge_read_T; [|by intros p ->%list_elem_of_singleton|done].
  intros r s1 (Hmu1 & Hs1 & [[e ->]|(es & -> & _ & _ & Hall)]); [by apply IH|].
  destruct ((0 <? max_timestamp es) && (max_timestamp es <? cutoff)) eqn:Hold; [|by apply IH].
  apply andb_true_iff in Hold as [_ Hold%Z.ltb_lt]. apply judge_delete; [done..| |by auto].
  intros e He Hin. apply (same_in_file s s1) in Hin; [|done..].
  specialize (Hcut e He). assert (Timestamp e ≤ max_timestamp es); [|lia].
  apply (max_timestamp_ge es 0 e), (Hall path); [by left|done].
Qed.
End compacting.
