(* ===== verification/Races.v ===== *)
(** * Interleavings of writers, queries and the compactor

    Pools of the goroutines of [Goroutines] under every schedule. The judgements
    of [Requests] and [Compacting] compose to the theorems of this file: a query is
    complete whatever runs beside it, nothing acknowledged is lost, and the pool
    does not deadlock. The hypothesis [pool_ok] fixes the jobs: any number of
    writes and queries, at most one compaction pass, over closed segments
    [touched], which it listed before the pool starts: writers and queries may start at any
    later moment, and a segment they close in the meantime is left to the next pass. What the theorems leave open for those segments is shown to happen
    by concrete schedules. *)

From S2P Require Import Prelude GoStrings Types Record Disk Segment Ranking Index Parser Bloom.
From S2P Require Import Paths Manager Executor Recovery Fanout Ingest Compaction Threads Goroutines Rely Requests Compacting.

(** ** Reading a file that grows *)

Section growing.
Context `{Protobuf}.

(** [ReadRecord] from offset [pos] of a file whose content at the [k]-th read is
    [content k]: the length is read first, the payload by the next read. Also
    returns the number of the last read. *)
Definition ReadRecord_live (content : nat → list byte) (k pos : nat) : result (list byte) * nat :=
  match ReadFull (mkReader (drop pos (content k)) None) 4 with
  | Err e =>
    (if bool_decide (e = io_EOF) then Err io_EOF else Err (ErrWrap "read record length" e), k)
  | Ok (hdr, _) =>
    let length := get_uint32 hdr in
    if maxRecordSize <? length
    then (Err (ErrMsg "read record: payload length exceeds maximum"), k)
    else match ReadFull (mkReader (drop (pos + 4) (content (S k))) None) (Z.to_nat length) with
         | Err e => (Err (ErrWrap "read record data" e), S k)
         | Ok (data, _) => (Ok data, S k)
         end
  end.

(** The loop of [ReadSegment] on such a file. *)
Fixpoint read_live (fuel : nat) (content : nat → list byte) (k pos : nat) (entries : list LogEntry)
    : option (result (list LogEntry) * nat) :=
  match fuel with
  | O => None
  | S fuel =>
    match ReadRecord_live content k pos with
    | (Err e, k') =>
      Some (if bool_decide (e = io_EOF) then Ok entries
            else Err (ErrWrap "read record from segment" e), k')
    | (Ok data, k') =>
      match Unmarshal data with
      | None => Some (Err (ErrWrap "unmarshal record from segment" (ErrMsg "proto")), k')
      | Some pb => read_live fuel content (S k') (pos + 4 + length data) (entries ++ [storageProtoToEntry pb])
      end
    end
  end.

Lemma read_loop_mono fuel fuel' r acc res :
  (fuel ≤ fuel')%nat → read_loop fuel r acc = Some res → read_loop fuel' r acc = Some res.
Proof.
  revert fuel' r acc. induction fuel as [|fuel IH]; intros fuel' r acc Hle; [done|].
  destruct fuel' as [|fuel']; [lia|]. cbn [read_loop].
  destruct (ReadRecord r) as [[data r']|e]; [|done]. destruct (Unmarshal data); [|done].
  apply IH. lia.
Qed.

(** What a read got is still there in a longer file. *)
Lemma ReadFull_prefix (a b : list byte) pos n x r :
  a `prefix_of` b → ReadFull (mkReader (drop pos a) None) n = Ok (x, r) →
  ReadFull (mkReader (drop pos b) None) n = Ok (x, mkReader (drop (pos + n) b) None) ∧
  length x = n ∧ (n = 0%nat ∨ pos + n ≤ length a)%nat.
Proof.
  intros [c ->]. unfold ReadFull. cbn [rd_bytes rd_end]. rewrite !length_drop.
  case_decide as Hn; [|by case_decide]. intros [= <- <-].
  rewrite decide_True by (rewrite length_app; lia). rewrite drop_drop, length_take, length_drop.
  split; [|lia]. do 2 f_equal. destruct (decide (n = 0%nat)) as [->|Hn0]; [done|].
  rewrite drop_app_le by lia. by rewrite take_app_le by (rewrite length_drop; lia).
Qed.

Context (content : nat → list byte) (grow : ∀ k, content k `prefix_of` content (S k)).

Lemma content_mono k k' : (k ≤ k')%nat → content k `prefix_of` content k'.
Proof. induction 1; [done|]. by etrans. Qed.

(** A record read by two reads of a growing file is the record of its content at
    any later time; a failure is the failure on the content at the last read. *)
Lemma ReadRecord_live_spec k pos :
  match ReadRecord_live content k pos with
  | (Err e, k') => (k ≤ k')%nat ∧ ReadRecord (mkReader (drop pos (content k')) None) = Err e
  | (Ok data, k') => (k ≤ k')%nat ∧ ∀ K, (k' ≤ K)%nat →
      ReadRecord (mkReader (drop pos (content K)) None)
      = Ok (data, mkReader (drop (pos + 4 + length data) (content K)) None)
  end.
Proof.
  unfold ReadRecord_live, ReadRecord.
  destruct (ReadFull (mkReader (drop pos (content k)) None) 4) as [[hdr r1]|e] eqn:E1; cycle 1.
  { case_bool_decide; (split; [done|]); rewrite E1; [by rewrite bool_decide_true|by rewrite bool_decide_false]. }
  assert (∀ K, (k ≤ K)%nat → ReadFull (mkReader (drop pos (content K)) None) 4
    = Ok (hdr, mkReader (drop (pos + 4) (content K)) None)) as Hhdr.
  { intros K HK. by destruct (ReadFull_prefix _ (content K) _ _ _ _ (content_mono k K HK) E1) as (-> & _). }
  destruct (Z.ltb_spec maxRecordSize (get_uint32 hdr)) as [Hbig|Hok].
  { split; [done|]. rewrite Hhdr by done. by rewrite (proj2 (Z.ltb_lt _ _)) by lia. }
  destruct (ReadFull (mkReader (drop (pos + 4) (content (S k))) None) _) as [[data r2]|e] eqn:E2.
  - split; [lia|]. intros K HK. rewrite Hhdr by lia. rewrite (proj2 (Z.ltb_ge _ _)) by lia.
    destruct (ReadFull_prefix _ (content K) _ _ _ _ (content_mono (S k) K HK) E2) as (-> & -> & _). done.
  - split; [lia|]. rewrite Hhdr by lia. rewrite (proj2 (Z.ltb_ge _ _)) by lia. by rewrite E2.
Qed.

Lemma read_live_spec fuel k pos acc res K :
  read_live fuel content k pos acc = Some (res, K) →
  (k ≤ K)%nat ∧ read_loop fuel (mkReader (drop pos (content K)) None) acc = Some res.
Proof.
  revert k pos acc. induction fuel as [|fuel IH]; intros k pos acc; cbn [read_live read_loop]; [done|].
  pose proof (ReadRecord_live_spec k pos) as Hr.
  destruct (ReadRecord_live content k pos) as [[data|e] k'].
  - destruct Hr as [Hk Hr]. destruct (Unmarshal data) as [pb|] eqn:Hu.
    + intros [HK Hl]%IH. split; [lia|]. by rewrite Hr, Hu by lia.
    + intros [= <- <-]. split; [done|]. by rewrite Hr, Hu.
  - destruct Hr as [Hk Hr]. intros [= <- <-]. split; [done|]. rewrite Hr. by case_bool_decide.
Qed.

Lemma read_live_total final fuel k pos acc :
  (∀ k, content k `prefix_of` final) → (length final < fuel + pos)%nat → (0 < fuel)%nat →
  is_Some (read_live fuel content k pos acc).
Proof.
  intros Hfin. revert k pos acc. induction fuel as [|fuel IH]; intros k pos acc Hf H0; [lia|].
  cbn [read_live]. unfold ReadRecord_live.
  destruct (ReadFull (mkReader (drop pos (content k)) None) 4) as [[hdr r1]|e] eqn:E1;
    [|by case_bool_decide; eexists].
  destruct (ReadFull_prefix _ final _ _ _ _ (Hfin k) E1) as (_ & _ & [?|Hpos]); [done|].
  destruct (maxRecordSize <? get_uint32 hdr); [eauto|].
  destruct (ReadFull (mkReader (drop (pos + 4) (content (S k))) None) _) as [[data r2]|e]; [|eauto].
  destruct (Unmarshal data); [|eauto].
  pose proof (prefix_length _ _ (Hfin k)). apply IH; lia.
Qed.
End growing.

(** Reading a segment while it grows: the reads that [ReadSegment] issues, two per
    record, may each see a longer file. The result is nevertheless the result of reading
    at once the content at the last read, and the loop ends if the file stops growing. *)
Theorem read_while_growing `{Protobuf} (content : nat → list byte) (final : list byte) :
  (∀ k, content k `prefix_of` content (S k)) → (∀ k, content k `prefix_of` final) →
  ∃ res K, read_live (S (length final)) content 0 0 [] = Some (res, K) ∧
    res = read_entries (mkReader (content K) None).
Proof.
  intros Hg Hfin.
  destruct (read_live_total content final (S (length final)) 0 0 []) as [[res K] Hr]; [done|lia|lia|].
  exists res, K. split; [done|]. apply read_live_spec in Hr as [_ Hl]; [|done].
  rewrite drop_0 in Hl. unfold read_entries. cbn [rd_bytes].
  destruct (read_loop_total (S (length (content K))) (mkReader (content K) None) []) as [res' Hr'];
    [cbn; lia|].
  rewrite Hr'. cbn. pose proof (prefix_length _ _ (Hfin K)).
  apply (read_loop_mono _ (S (length final))) in Hr'; [|lia]. congruence.
Qed.

(** ** Pools of goroutines on a node *)

Section pools.
Context `{GoUnicode} `{Protobuf} `{Bloom}.

(** What a goroutine of the node is doing: a write of the ingest server or of the
    replica, a query, a merge pass or a retention pass over the closed segments the
    compactor listed. *)
Inductive job :=
  | Write (msg : string) (entry : LogEntry)
  | Ask (err1 err2 : option GoError) (took : Z) (req : QueryRequest)
  | Merge (threshold : Z) (closed : list string)
  | Retain (cutoff : Z) (closed : list string).

Inductive reply :=
  | Wrote (r : result ())
  | Answered (r : result QueryResult)
  | Compacted.

Definition spawn (me : nat) (j : job) : prog Shared reply :=
  match j with
  | Write msg entry => r ← write_go me msg entry; mret (Wrote r)
  | Ask err1 err2 took req => r ← Execute_go err1 err2 took req; mret (Answered r)
  | Merge threshold closed => _ ← merge_loop_go threshold [] closed; mret Compacted
  | Retain cutoff closed => _ ← retention_loop_go cutoff closed; mret Compacted
  end.

(** The goroutines of the jobs, with the mutex free. *)
Definition start (m : Manager) (idx : Index) (d : Disk) (jobs : list job) : list (prog Shared reply) * Shared :=
  (imap spawn jobs, mkShared m None idx d).

(** What the goroutine has returned, if it has. *)
Definition reply_of (c : list (prog Shared reply) * Shared) (i : nat) : option reply :=
  c.1 !! i ≫= returned.

(** The entries being written, the segments being compacted, and who does it. *)
Definition written (jobs : list job) : list LogEntry :=
  omap (λ j, match j with Write _ e => Some e | _ => None end) jobs.
Definition compacted_by (j : job) : list string :=
  match j with Merge _ closed | Retain _ closed => closed | _ => [] end.
Definition touched (jobs : list job) : list string := jobs ≫= compacted_by.
Definition is_compaction (j : job) : bool :=
  match j with Merge _ _ | Retain _ _ => true | _ => false end.
Definition compactor_of (jobs : list job) : option nat :=
  fst <$> list_find (λ j, is_compaction j = true) jobs.
Definition is_writer (jobs : list job) (i : nat) : Prop := ∃ msg e, jobs !! i = Some (Write msg e).

(** All entries that exist or are being written. *)
Definition universe (segs : gmap string (list LogEntry)) (jobs : list job) : list LogEntry :=
  entries_of segs ++ written jobs.

(** The entries that no retention pass among the jobs may delete. *)
Definition spared (jobs : list job) (e : LogEntry) : Prop :=
  ∀ cutoff closed, Retain cutoff closed ∈ jobs → cutoff ≤ Timestamp e.

(** What the judgements of the jobs are about. *)
Definition setting_of (m : Manager) (segs : gmap string (list LogEntry)) (jobs : list job) : setting :=
  mkSetting (mdir m) (touched jobs) (universe segs jobs) (is_writer jobs) (compactor_of jobs) (spared jobs)
    (bloomEnabled m).

(** A node at rest and jobs for it: one compactor, which listed closed segments;
    entries that fit a record; room for the given number of turns. *)
Record pool_ok (turns : nat) (m : Manager) (idx : Index) (d : Disk) (segs : gmap string (list LogEntry))
    (jobs : list job) : Prop := {
  po_faults : no_faults d;
  po_store : store_inv m idx d segs;
  po_dir : dir_ok m d;
  po_room : room turns m;
  po_writes : Forall storable (written jobs);
  po_one : ∀ i j a b, jobs !! i = Some a → jobs !! j = Some b →
    is_compaction a = true → is_compaction b = true → i = j;
  po_closed : ∀ p, p ∈ touched jobs → p ∈ ListClosedSegments m;
  po_nodup : ∀ i j, jobs !! i = Some j → NoDup (compacted_by j);
}.
End pools.

(** ** Lemmas: the pool *)

Section pool_lemmas.
Context `{GoUnicodeLaws} `{ProtobufLaws} `{BloomLaws}.
Context (turns : nat) (m : Manager) (idx : Index) (d : Disk) (segs : gmap string (list LogEntry)).
Context (jobs : list job) (Hok : pool_ok turns m idx d segs jobs).
Notation T := (touched jobs).
Notation U := (universe segs jobs).
Notation W := (setting_of m segs jobs).
Notation s0 := (mkShared m None idx d).

Lemma touched_path p : p ∈ T → p ∈ paths m ∧ last (paths m) ≠ Some p.
Proof. intros Hp. eapply closed_spec; [apply (si_mgr _ _ _ _ (po_store _ _ _ _ _ _ Hok))|]. by apply Hok. Qed.

Lemma path_seg p : p ∈ paths m → is_seg W p.
Proof. intros Hp. by apply (dir_paths _ _ (po_dir _ _ _ _ _ _ Hok)) in Hp as [? _]. Qed.

Lemma touched_seg p : p ∈ T → is_seg W p.
Proof. intros [Hp _]%touched_path. by apply path_seg. Qed.

Lemma in_universe p es e : segs !! p = Some es → e ∈ es → e ∈ U.
Proof. intros. apply elem_of_app. left. apply elem_of_entries_of. eauto. Qed.

Lemma start_file p content :
  is_seg W p → files d !! p = Some content → ∃ es, segs !! p = Some es ∧ holds content es.
Proof.
  destruct Hok as [_ [_ Hdom Hf _] Hd _ _ _ _ _]. intros Hp Hc.
  destruct (proj2 (Hdom p)) as [es Hes]; [by apply (dir_paths _ _ Hd)|]. exists es. split; [done|].
  destruct (Hf p es Hes) as (b & Hb & Hh). congruence.
Qed.

Lemma start_manager : mgr_inv W m d.
Proof.
  pose proof path_seg as Hseg.
  destruct Hok as [_ [[(seg & b & Ha & Hl & Hat) Hnd Hfs Hfr Hsq Hnm Hb] Hdom Hf _] Hd _ _ _ _ _].
  assert (f_path (seg_file seg) ∈ paths m) as Hin by by apply last_Some_elem_of.
  destruct (start_file (f_path (seg_file seg)) b) as (es & Hes & Hh); [by apply Hseg|by destruct Hat|]. split.
  - done.
  - exists seg, b, es. split_and!; try done.
    + intros e He. by eapply in_universe.
    + by intros [_ ?]%touched_path.
  - apply (dir_marker _ _ Hd).
  - intros n Hn. destruct (Hfr n Hn) as [Hn1 Hn2]. split; [|done]. by intros [? _]%touched_path.
  - done.
  - intros p bf _ Hbf. destruct (Hb p bf Hbf) as (Hp & Hlast & Hex). split_and!; [by apply Hseg|done..].
  - intros p fb bf Hp _ Hfb Hr. by destruct (dir_side _ _ Hd p fb bf Hp Hfb Hr) as (_ & ? & ?).
Qed.

Lemma start_inv : inv W turns s0.
Proof.
  pose proof start_manager as Hm. pose proof Hok as [Hn [Hmok Hdom Hf Hi] Hd Hr _ _ _ _].
  split; cbn; [done..| | |done|done| |done].
  - intros p c Hp Hc. destruct (start_file p c Hp Hc) as (es & Hes & Hh).
    apply (file_ok_holds _ _ _ es); [done|]. intros e He. by eapply in_universe.
  - exists (pairs_of segs). split; [done|]. intros e p (es & Hes & _)%elem_of_pairs_of.
    apply path_seg, Hdom. eauto.
  - intros Hoff p Hp%touched_seg. destruct (dir_bloom _ _ Hd) as [?|[_ Hnone]]; [congruence|]. by apply Hnone.
Qed.

(** The stored entries of segments that are not compacted are visible. *)
Lemma start_visible p es e : segs !! p = Some es → p ∉ T → e ∈ es → visible W s0 e p.
Proof.
  pose proof path_seg as Hseg. destruct Hok as [_ [Hmok Hdom Hf Hi] _ _ _ _ _ _]. intros Hp HT He. split_and!; [done| | |].
  - apply Hseg, Hdom. eauto.
  - exists (pairs_of segs). split; [done|]. apply elem_of_pairs_of. eauto.
  - destruct (Hf p es Hp) as (b & Hb & Hh). exists b, es, []. by rewrite app_nil_r.
Qed.

(** All stored entries are on disk, and no sidecar hides them. *)
Lemma start_shelved p es e : segs !! p = Some es → e ∈ es → shelved d p e.
Proof.
  pose proof path_seg as Hseg. destruct Hok as [_ [Hmok Hdom Hf Hi] Hd _ _ _ _ _]. intros Hp He.
  destruct (Hf p es Hp) as (b & Hb & Hh). split.
  - exists b, es, []. by rewrite app_nil_r.
  - intros fb bf Hfb Hr. destruct (dir_side _ _ Hd p fb bf) as (_ & _ & b' & es' & Hb' & Hh' & Hc); [|done..|].
    + apply Hseg, Hdom. eauto.
    + rewrite Hb in Hb'. injection Hb' as <-. rewrite (holds_inj _ _ _ Hh Hh') in He.
      apply (covers_sub _ es'); [|done]. by intros x ->%list_elem_of_singleton.
Qed.

Lemma touched_job i j : jobs !! i = Some j → ∀ p, p ∈ compacted_by j → p ∈ T.
Proof. intros Hj p Hp. apply list_elem_of_bind. exists j. split; [done|]. by eapply list_elem_of_lookup_2. Qed.

Lemma written_job i msg e : jobs !! i = Some (Write msg e) → e ∈ written jobs.
Proof.
  intros Hj. apply list_elem_of_omap. exists (Write msg e). split; [|done]. by eapply list_elem_of_lookup_2.
Qed.

Lemma compactor_job i j : jobs !! i = Some j → is_compaction j = true → compactor_of jobs = Some i.
Proof.
  intros Hj Hc. unfold compactor_of. destruct (list_find _ jobs) as [[k x]|] eqn:Hfind; cbn.
  - apply list_find_Some in Hfind as (Hk & Hx & _). f_equal. by eapply (po_one _ _ _ _ _ _ Hok).
  - apply list_find_None in Hfind. rewrite Forall_forall in Hfind. exfalso.
    by apply (Hfind j); [eapply list_elem_of_lookup_2|].
Qed.

(** What each job leaves behind when it started in state [s]. *)
Definition job_post (j : job) (i : nat) (s : Shared) (x : reply) (s' : Shared) : Prop :=
  sh_mu s' ≠ Some i ∧
  match j with
  | Write _ e => x = Wrote (Ok ()) ∧ ∃ p, visible W s' e p
  | Ask err1 err2 took req => ∃ r, x = Answered r ∧
      ∀ ast, err1 = None → err2 = None → id_consistent U → 0 ≤ Limit req → 0 ≤ Offset req →
        Parse (QueryString req) = Ok ast → (∀ n, ast = Some n → bloom_safe U n) →
        query_post W req ast took s r
  | Merge _ _ | Retain _ _ => x = Compacted
  end.

Lemma judge_query i err1 err2 took req s :
  sh_mu s ≠ Some i →
  judge W i (Execute_go err1 err2 took req) (λ r s', sh_mu s' ≠ Some i ∧
    ∀ ast, err1 = None → err2 = None → id_consistent U → 0 ≤ Limit req → 0 ≤ Offset req →
      Parse (QueryString req) = Ok ast → (∀ n, ast = Some n → bloom_safe U n) →
      query_post W req ast took s r) s.
Proof.
  intros Hmu. destruct (Parse (QueryString req)) as [ast|] eqn:Hparse.
  - eapply judge_mono, (spec_when _ _ _ _ (err1 = None ∧ err2 = None ∧ id_consistent U ∧ 0 ≤ Limit req ∧
      0 ≤ Offset req ∧ ∀ n, ast = Some n → bloom_safe U n) _ _
      (λ r _, query_post W req ast took s r)); [|by apply judge_Execute_any|].
    + intros r s' [? Hq]. split; [done|]. intros ast' -> -> ??? [= <-] ?. by apply Hq.
    + intros (-> & -> & ? & ? & ? & ?). eapply judge_mono, judge_Execute; [|done..]. by intros r s' [_ ?].
  - eapply judge_mono, judge_Execute_any; [|done]. by intros.
Qed.

(** Every job, started in a state where it does not hold the mutex. *)
Lemma judge_job i j s :
  jobs !! i = Some j → sh_mu s ≠ Some i →
  judge W i (spawn i j) (job_post j i s) s.
Proof.
  intros Hj Hmu. pose proof touched_seg as HT. pose proof (touched_job i j Hj) as Hclosed.
  destruct j as [msg e|err1 err2 took req|thr closed|cutoff closed]; cbn [spawn compacted_by] in *; apply judge_bind.
  - pose proof (written_job i msg e Hj) as He. pose proof (po_writes _ _ _ _ _ _ Hok) as Hw.
    rewrite Forall_forall in Hw. destruct (Hw e He) as (data & Hm & Hl).
    eapply judge_mono, (judge_write_go W HT i e data); [|by apply elem_of_app; right|done..|by eexists _, _|done].
    intros r s' (? & -> & ?). apply judge_ret. by split.
  - eapply judge_mono, judge_query; [|done]. intros r s' [? ?]. apply judge_ret. split; [done|]. by exists r.
  - eapply judge_mono, judge_merge_loop; [|by eapply compactor_job|done|apply (po_nodup _ _ _ _ _ _ Hok _ _ Hj)|done..].
    intros ? s' ?. apply judge_ret. by split.
  - eapply judge_mono, judge_retention_loop; [|by eapply compactor_job|done| |done..].
    + intros ? s' ?. apply judge_ret. by split.
    + intros e He. eapply He, list_elem_of_lookup_2. done.
Qed.

(** The configuration after any schedule. *)
Notation config base Q n c :=
  (config_ok (inv W) (relies W) (guarantees W) free_for (common W) Q base n c).

Definition start_post (i : nat) (x : reply) (s' : Shared) : Prop :=
  ∃ j, jobs !! i = Some j ∧ job_post j i s0 x s'.

Lemma start_config : config s0 start_post turns (start m idx d jobs).
Proof.
  split; [apply start_inv|]. split; [done|]. intros i p Hp. unfold start in Hp. cbn in Hp.
  rewrite list_lookup_imap in Hp. destruct (jobs !! i) as [j|] eqn:Hj; [|done]. injection Hp as <-.
  exists s0. split; [done|]. eapply spec_mono, (judge_job i j); [|done..]. intros x s' Hx. by exists j.
Qed.

Lemma config_run base (Q : nat → reply → Shared → Prop) n (c : list (prog Shared reply) * Shared) sched :
  config base Q (length sched + n) c → config base Q n (pool_run sched c).
Proof.
  apply config_ok_run; try apply _.
  - intros k s. apply inv_weaken.
  - intros i j s s'. apply guarantees_relies.
  - intros j s s'. apply guarantees_common.
Qed.

(** A query that is given no turn before [after] may be judged from the state it
    then starts in. *)
Lemma config_query n c i err1 err2 took req :
  config s0 start_post n c → jobs !! i = Some (Ask err1 err2 took req) →
  c.1 !! i = Some (spawn i (Ask err1 err2 took req)) →
  config s0 (λ k x s', if decide (k = i) then job_post (Ask err1 err2 took req) i c.2 x s' else start_post k x s')
    n c.
Proof.
  intros (HI & HC & Hpool) Hj Hi. split; [done|]. split; [done|]. intros k p Hp.
  destruct (Hpool k p Hp) as (s & HR & Hs). destruct (decide (k = i)) as [->|Hne]; [|eauto].
  rewrite Hi in Hp. injection Hp as <-. exists c.2. split; [done|].
  refine (judge_job i (Ask err1 err2 took req) c.2 Hj _). intros Hmu.
  destruct (inv_holder _ _ _ HI i Hmu) as (msg & e & Hw). congruence.
Qed.

(** A job that has returned, with its postcondition in a past state. *)
Lemma reply_post base Q n c i x :
  config base Q n c → reply_of c i = Some x → ∃ s, Q i x s ∧ relies W i s c.2.
Proof.
  intros Hc Hx. unfold reply_of in Hx. destruct (c.1 !! i) as [p|] eqn:Hp; [|done].
  by eapply config_ok_returned.
Qed.
End pool_lemmas.

(** ** Properties *)

Section properties.
Context `{GoUnicodeLaws} `{ProtobufLaws} `{BloomLaws}.

(** C3. A query that runs among writers and a compaction pass is complete, whatever the
    interleaving of their file, index and manager accesses: on a disk without faults,
    when it returns, it returns the page of all matching entries of some collection
    [raw] of stored entries; [raw] contains every matching entry of a segment that is
    not being compacted and every matching entry whose write had returned before the
    query took its first step. The one error possible is the report of a record that
    a writer had not finished, so without writers there is none. *)
Theorem concurrent_query_complete (m : Manager) (idx : Index) (d : Disk)
    (segs : gmap string (list LogEntry)) (jobs : list job) (before after : list nat) (i : nat)
    (took : Z) (req : QueryRequest) (ast : option Node) (r : result QueryResult) :
  pool_ok (length before + length after) m idx d segs jobs →
  jobs !! i = Some (Ask None None took req) → i ∉ before →
  id_consistent (universe segs jobs) → 0 ≤ Limit req → 0 ≤ Offset req →
  Parse (QueryString req) = Ok ast → (∀ n, ast = Some n → bloom_safe (universe segs jobs) n) →
  let c1 := pool_run before (start m idx d jobs) in
  reply_of (pool_run after c1) i = Some (Answered r) →
  ((∃ e, r = Err (ErrWrap "execute query" (ErrWrap "read segments" (ErrWrap "read record from segment" e)))) ∧
   ∃ j, is_writer jobs j) ∨
  ∃ raw, r = Ok (answer req ast raw took) ∧ (∀ e, e ∈ raw → e ∈ universe segs jobs) ∧
    (∀ p es e, segs !! p = Some es → p ∉ touched jobs → e ∈ es → entry_matches req ast e = true → e ∈ raw) ∧
    (∀ j msg e x, jobs !! j = Some (Write msg e) → reply_of c1 j = Some x →
       entry_matches req ast e = true → e ∈ raw).
Proof.
  intros Hok Hi Hbefore Hc Hl Ho Hparse Hsafe c1 Hr.
  pose proof (start_config _ _ _ _ _ _ Hok) as Hc1. apply config_run in Hc1. fold c1 in Hc1.
  assert (c1.1 !! i = Some (spawn i (Ask None None took req))) as Hspawn.
  { unfold c1. rewrite pool_run_unscheduled by done. unfold start. cbn [fst]. by rewrite list_lookup_imap, Hi. }
  pose proof (config_query _ _ _ _ _ _ Hok _ _ _ _ _ _ _ Hc1 Hi Hspawn) as Hc2.
  rewrite <- (Nat.add_0_r (length after)) in Hc2. apply config_run in Hc2.
  destruct (reply_post _ _ _ _ _ _ _ _ _ Hc2 Hr) as (s & Hpost & _). rewrite decide_True in Hpost by done.
  destruct Hpost as (_ & r' & [= <-] & Hpost).
  destruct (Hpost ast eq_refl eq_refl Hc Hl Ho Hparse Hsafe) as [(e & -> & Hw)|(raw & -> & Hu & Hraw)]; [left; eauto|].
  right. exists raw. split_and!; [done..| |].
  - intros p es e Hp HT He Hm. apply (Hraw e p); [|done]. destruct Hc1 as (_ & Hcom & _).
    eapply visible_common; [exact Hcom|]. by eapply start_visible.
  - intros j msg e x Hj Hx Hm. destruct (reply_post _ _ _ _ _ _ _ _ _ Hc1 Hx) as (s1 & (j' & Hj' & _ & Hq) & HR).
    rewrite Hj in Hj'. injection Hj' as <-. destruct Hq as (_ & p & Hv). apply (Hraw e p); [|done].
    eapply visible_common; [apply HR|done].
Qed.

(** C10. Nothing that was acknowledged or stored is lost to an interleaving: after any
    schedule of writes, queries and a compaction pass on a disk without faults, every
    write that has returned has succeeded and its entry is in the index and on disk;
    the entries stored before are still in the index and on disk where they were,
    compacted segments aside; and at every moment of the compaction pass the entries of
    the segments it works on are on disk in one of them, except for those a retention
    pass may delete. *)
Theorem concurrent_writes_kept (m : Manager) (idx : Index) (d : Disk)
    (segs : gmap string (list LogEntry)) (jobs : list job) (sched : list nat) :
  pool_ok (length sched) m idx d segs jobs →
  let c := pool_run sched (start m idx d jobs) in
  let on_disk e p := in_file (sh_disk c.2) p e in
  (∀ i msg e x, jobs !! i = Some (Write msg e) → reply_of c i = Some x →
     x = Wrote (Ok ()) ∧ ∃ p, indexed (sh_index c.2) e p ∧ on_disk e p) ∧
  (∀ p es e, segs !! p = Some es → p ∉ touched jobs → e ∈ es →
     indexed (sh_index c.2) e p ∧ on_disk e p) ∧
  (∀ p es e, segs !! p = Some es → p ∈ touched jobs → e ∈ es → spared jobs e →
     ∃ q, q ∈ touched jobs ∧ on_disk e q).
Proof.
  intros Hok c on_disk. pose proof (start_config _ _ _ _ _ _ Hok) as Hc.
  rewrite <- (Nat.add_0_r (length sched)) in Hc at 1. apply config_run in Hc. fold c in Hc. split_and!.
  - intros i msg e x Hi Hx. destruct (reply_post _ _ _ _ _ _ _ _ _ Hc Hx) as (s & (j & Hj & _ & Hq) & HR).
    rewrite Hi in Hj. injection Hj as <-. destruct Hq as (-> & p & Hv). split; [done|]. exists p.
    by destruct (visible_common _ _ _ _ _ (proj1 HR) Hv) as (_ & _ & ? & ?).
  - intros p es e Hp HT He. destruct Hc as (_ & Hcom & _).
    by destruct (visible_common _ _ _ _ _ Hcom (start_visible _ _ _ _ _ _ Hok p es e Hp HT He)) as (_ & _ & ? & ?).
  - intros p es e Hp HT He Hsp. destruct Hc as (_ & (_ & _ & Hret) & _).
    destruct (Hret e p Hsp HT (start_shelved _ _ _ _ _ _ Hok p es e Hp He)) as (q & Hq & Hin & _). by exists q.
Qed.

(** C22. The goroutines of a node cannot deadlock: after any schedule, as long as one of
    them has not returned, one can take its next step; the mutex is only held by a
    write that is not blocked. *)
Theorem no_deadlock (m : Manager) (idx : Index) (d : Disk) (segs : gmap string (list LogEntry))
    (jobs : list job) (sched : list nat) (i : nat) :
  pool_ok (S (length sched)) m idx d segs jobs →
  let c := pool_run sched (start m idx d jobs) in
  (i < length jobs)%nat → reply_of c i = None →
  ∃ k p, c.1 !! k = Some p ∧ can_step p c.2 = true ∧
    ∀ holder, sh_mu c.2 = Some holder → k = holder ∧ is_writer jobs holder.
Proof.
  intros Hok c Hi Hrun. pose proof (start_config _ _ _ _ _ _ Hok) as Hc.
  rewrite <- Nat.add_1_r in Hc. apply config_run in Hc. fold c in Hc.
  assert (∀ k, (k < length jobs)%nat → ∃ p, c.1 !! k = Some p) as Hlook.
  { intros k Hk. apply lookup_lt_is_Some. unfold c. rewrite pool_run_length. unfold start. cbn.
    by rewrite length_imap. }
  assert (∀ k, (k < length jobs)%nat → reply_of c k = None → free_for k c.2 →
    ∃ p, c.1 !! k = Some p ∧ can_step p c.2 = true) as Hstep.
  { intros k Hk Hr Hfree. destruct (Hlook k Hk) as [p Hp]. exists p. split; [done|].
    eapply config_ok_enabled; [exact Hc|done| |done]. unfold reply_of in Hr. by rewrite Hp in Hr. }
  destruct (sh_mu c.2) as [h|] eqn:Hmu; [|destruct (Hstep i Hi Hrun ltac:(by left)) as (p & ? & ?); by exists i, p].
  assert (is_writer jobs h) as Hw by (destruct Hc as [[_ _ _ _ Hh _ _ _] _]; by apply Hh).
  assert (h < length jobs)%nat as Hh by (destruct Hw as (? & ? & Hw); by eapply lookup_lt_Some).
  assert (reply_of c h = None) as Hrh.
  { destruct (reply_of c h) as [x|] eqn:Hx; [|done]. exfalso.
    destruct (reply_post _ _ _ _ _ _ _ _ _ Hc Hx) as (s & (j & _ & Hne & _) & _ & [_ HR] & _). by apply HR. }
  destruct (Hstep h Hh Hrh ltac:(by right)) as (p & ? & ?). exists h, p. split_and!; [done..|].
  by intros holder [= <-].
Qed.
End properties.

(** ** A node with two closed segments *)

(** The sample store with room for several records in the active segment. *)
Definition race_manager (filters : bool) : @Manager exact_bloom :=
  let m := comp_manager filters in
  @mkManager exact_bloom (mdir m) 100000 (active m) (nextSeq m) (paths m) (nodeID m) (bloomEnabled m) (blooms m).
Definition race_disk : Disk :=
  mkDisk (sidecar (cp 1) [comp_e1] (sidecar (cp 2) [comp_e2]
    (<[marker_path "data" := String.list_byte_of_string (segment_name 3)]> comp_files))) [].
Definition race_e3 : LogEntry := sample_entry "c" "disk hot" 3.
Definition race_e4 : LogEntry := sample_entry "d" "disk cold" 4.

Definition ask (q : string) : job := Ask None None 0 (sample_query q).
Definition write_e3 : job := Write "append failed" race_e3.
Definition write_e4 : job := Write "append failed" race_e4.
Definition merge_12 : job := Merge (MergeThresholdBytes DefaultCompactorConfig) [cp 1; cp 2].

(** [turns i n]: goroutine [i] is given [n] turns in a row. *)
Definition turns (i n : nat) : list nat := replicate n i.

Definition race (filters : bool) (jobs : list job) (sched : list nat)
    : list (@prog (@Shared exact_bloom) reply) * @Shared exact_bloom :=
  let H1 := ascii_tables in let H2 := bit_codec in let H3 := exact_bloom in
  pool_run sched (start (race_manager filters) comp_index race_disk jobs).

(** What an interleaving can do to a query of a segment that is being compacted, or
    of the segment being written. (1) A query that has read the first of two segments
    and then loses its turn to a merge of the two finds the second one deleted, which
    [ReadSegments] skips: it answers without the entries of the second segment, though
    they are on disk in the merged one. (2) Between the re-indexing and the update of
    the filters by [mergeRun], the filter of the merged path is the one of its first
    part: a query for an entry of the second part is answered with nothing. (3) A query
    that reads the active segment between the two writes of a record fails. The same
    queries with nobody else around find everything. *)
Theorem interleaving_anomalies :
  let H1 := ascii_tables in let H2 := bit_codec in let H3 := exact_bloom in
  let both := mkQueryResult [comp_e2; comp_e1] 2 0 false in
  let alone q := (Execute comp_index (race_manager true) None None 0 (sample_query q) race_disk).1 in
  (let c := race true [ask ""; merge_12] (turns 0 4 ++ turns 1 30 ++ turns 0 1) in
   alone "" = Ok both ∧ reply_of c 1 = Some Compacted ∧
   reply_of c 0 = Some (Answered (Ok (mkQueryResult [comp_e1] 1 0 false))) ∧
   (ReadSegments (paths (sh_manager c.2)) (sh_disk c.2)).1 = Ok [comp_e1; comp_e2]) ∧
  (let c := race true [ask "down"; merge_12] (turns 1 16 ++ turns 0 2) in
   alone "down" = Ok (mkQueryResult [comp_e2] 1 0 false) ∧
   Resolve (sh_index c.2) ["down"] "" "" 0 0 = [cp 1] ∧
   reply_of c 0 = Some (Answered (Ok (mkQueryResult [] 0 0 false)))) ∧
  (let c := race true [ask ""; write_e3; write_e4] (turns 1 10 ++ turns 0 4 ++ turns 2 4 ++ turns 0 3) in
   reply_of c 1 = Some (Wrote (Ok ())) ∧
   ∃ e, reply_of c 0 = Some (Answered (Err (ErrWrap "execute query" (ErrWrap "read segments"
          (ErrWrap "read record from segment" e)))))).
Proof. cbv zeta. split_and!; [vm_compute; reflexivity..|]. eexists. vm_compute. reflexivity. Qed.

(** ** Witnesses *)

Definition race_jobs : list job := [ask ""; write_e3; merge_12].

Lemma race_segments p : HasSuffix p ".seg" = true → files race_disk !! p = comp_files !! p.
Proof.
  intros Hp. cbn. unfold sidecar. rewrite !lookup_insert_ne; [done|..];
    [by apply marker_ne_seg|by apply bloom_ne_seg|by apply bloom_ne_seg].
Qed.

Lemma race_sidecar p fb :
  HasSuffix p ".seg" = true → files race_disk !! BloomPath p = Some fb →
  ∃ e, ((p = cp 1 ∧ e = comp_e1) ∨ (p = cp 2 ∧ e = comp_e2)) ∧
    fb = @WriteTo exact_bloom (@segment_bloom ascii_tables exact_bloom [e]).
Proof.
  intros Hp. cbn. unfold sidecar.
  intros [[E <-]|[_ Hs]]%lookup_insert_Some.
  { exists comp_e1. apply BloomPath_inj in E; [auto|apply seq_path_seg|done]. }
  apply lookup_insert_Some in Hs as [[E <-]|[_ Hs]].
  { exists comp_e2. apply BloomPath_inj in E; [auto|apply seq_path_seg|done]. }
  rewrite lookup_insert_ne in Hs by apply marker_not_bloom. unfold comp_files in Hs. rewrite lookup_fmap in Hs.
  destruct (comp_segs !! BloomPath p) as [es|] eqn:E; [|done].
  apply cp_lookup in E as [[E _]|[[E _]|[E _]]]; by apply bloom_ne_seg in E; [|apply seq_path_seg].
Qed.

(** The filter of a closed sample segment covers its entries. *)
Lemma race_covers p bf e :
  let H1 := ascii_tables in let H2 := bit_codec in let H3 := exact_bloom in
  (p = cp 1 ∧ e = comp_e1) ∨ (p = cp 2 ∧ e = comp_e2) → bf = segment_bloom [e] →
  p ∈ paths (race_manager true) ∧ last (paths (race_manager true)) ≠ Some p ∧
  ∃ bytes es, files race_disk !! p = Some bytes ∧ holds bytes es ∧ covers bf es.
Proof.
  intros H1 H2 H3 Hp ->. assert (comp_segs !! p = Some [e]) as Hes.
  { destruct Hp as [[-> ->]|[-> ->]]; vm_compute; reflexivity. }
  split_and!.
  - apply comp_paths. eauto.
  - cbn. intros [= E]. destruct Hp as [[-> _]|[-> _]]; apply cp_inj in E; lia.
  - destruct (comp_files_hold p [e] Hes) as (b & Hb & Hh). exists b, [e]. split_and!; [|done|].
    2: { apply (@segment_bloom_covers _ ascii_tables_laws _ exact_bloom_laws). }
    rewrite race_segments; [done|]. destruct Hp as [[-> _]|[-> _]]; apply seq_path_seg.
Qed.

Lemma race_store :
  let H1 := ascii_tables in let H2 := bit_codec in let H3 := exact_bloom in
  store_inv (race_manager true) comp_index race_disk comp_segs.
Proof.
  intros H1 H2 H3. destruct comp_inv_sample as [Hm Hdom Hfs Hi].
  apply (mgr_ok_agree _ _ race_disk) in Hm as [Ha Hnd Hf Hfr Hsq Hnm _]; [|exact race_segments].
  split; [split|..]; try assumption.
  - intros p bf Hbf. cbn in Hbf. apply lookup_insert_Some in Hbf as [[<- <-]|[_ [<- <-]%lookup_singleton_Some]];
      eapply race_covers; eauto.
  - intros p es Hes. rewrite race_segments; [by apply Hfs|]. apply Hnm, Hdom. eauto.
Qed.

Lemma race_dir :
  let H1 := ascii_tables in let H2 := bit_codec in let H3 := exact_bloom in
  dir_ok (race_manager true) race_disk.
Proof.
  intros H1 H2 H3. split.
  - intros p. cbn [paths race_manager comp_manager mdir]. rewrite <- comp_paths. split.
    + intros [es Hes]. pose proof Hes as Hp. apply cp_lookup in Hp.
      assert (in_dir_seg "data" p = true) as Hin
        by (destruct Hp as [[-> _]|[[-> _]|[-> _]]]; apply seq_path_in_dir; lia).
      split; [done|]. rewrite race_segments by (by eapply in_dir_seg_suffix). unfold comp_files.
      rewrite lookup_fmap, Hes. by eexists.
    + intros [Hin Hex]. rewrite race_segments in Hex by (by eapply in_dir_seg_suffix). unfold comp_files in Hex.
      rewrite lookup_fmap in Hex. by destruct (comp_segs !! p); [eexists|destruct Hex].
  - exists 3. split; [lia|]. split; [done|]. vm_compute. reflexivity.
  - intros p n. cbn [paths race_manager comp_manager]. rewrite <- comp_paths. intros [es Hes] Hn.
    apply cp_lookup in Hes as [[-> _]|[[-> _]|[-> _]]]; unfold cp in Hn; rewrite path_seq_seq_path in Hn by lia;
      injection Hn as <-; lia.
  - intros p fb bf Hp Hfb Hr. destruct (race_sidecar p fb) as (e & He & ->); [by eapply in_dir_seg_suffix|done|].
    eapply race_covers; [exact He|]. rewrite (@ReadFrom_WriteTo _ exact_bloom_laws) in Hr. by injection Hr as <-.
  - by left.
Qed.

Lemma race_jobs_lookup i j :
  race_jobs !! i = Some j → (i = 0%nat ∧ j = ask "") ∨ (i = 1%nat ∧ j = write_e3) ∨ (i = 2%nat ∧ j = merge_12).
Proof. destruct i as [|[|[|i]]]; cbn; intros [= <-]; auto. Qed.

Lemma race_ok (n : nat) :
  let H1 := ascii_tables in let H2 := bit_codec in let H3 := exact_bloom in
  (n ≤ 100)%nat → pool_ok n (race_manager true) comp_index race_disk comp_segs race_jobs.
Proof.
  intros H1 H2 H3 Hn. split.
  - done.
  - apply race_store.
  - apply race_dir.
  - unfold room. cbn. split_and!; [lia|lia|]. intros seg [= <-]. cbn. lia.
  - repeat constructor. eexists. split; [reflexivity|]. vm_compute. discriminate.
  - intros i j a b [[-> ->]|[[-> ->]|[-> ->]]]%race_jobs_lookup [[-> ->]|[[-> ->]|[-> ->]]]%race_jobs_lookup; done.
  - intros p Hp. exact Hp.
  - intros i j [[-> ->]|[[-> ->]|[-> ->]]]%race_jobs_lookup; cbn [compacted_by ask write_e3 merge_12]; [constructor..|].
    apply NoDup_cons. split; [|apply NoDup_singleton]. rewrite list_elem_of_singleton. intros E%cp_inj; lia.
Qed.

Lemma race_universe e :
  e ∈ universe comp_segs race_jobs → e = comp_e1 ∨ e = comp_e2 ∨ e = race_e3.
Proof.
  intros [(p & es & Hp & He)%elem_of_entries_of|He]%elem_of_app.
  - apply cp_lookup in Hp as [[_ ->]|[[_ ->]|[_ ->]]]; [| |by apply not_elem_of_nil in He];
      apply list_elem_of_singleton in He; auto.
  - apply list_elem_of_singleton in He. auto.
Qed.

Lemma race_consistent : id_consistent (universe comp_segs race_jobs).
Proof.
  intros a b [->|[->| ->]]%race_universe [->|[->| ->]]%race_universe; done.
Qed.

Definition race_before : list nat := turns 1 10.
Definition race_after : list nat := turns 0 5 ++ turns 2 30 ++ turns 0 3.

Lemma concurrent_query_complete_witness :
  let H1 := ascii_tables in let H2 := bit_codec in let H3 := exact_bloom in
  let req := sample_query "" in let r := Ok (mkQueryResult [race_e3; comp_e1] 2 0 false) in
  let c1 := pool_run race_before (start (race_manager true) comp_index race_disk race_jobs) in
  ((∃ e, r = Err (ErrWrap "execute query" (ErrWrap "read segments" (ErrWrap "read record from segment" e)))) ∧
   ∃ j, is_writer race_jobs j) ∨
  ∃ raw, r = Ok (answer req None raw 0) ∧ (∀ e, e ∈ raw → e ∈ universe comp_segs race_jobs) ∧
    (∀ p es e, comp_segs !! p = Some es → p ∉ touched race_jobs → e ∈ es → entry_matches req None e = true → e ∈ raw) ∧
    (∀ j msg e x, race_jobs !! j = Some (Write msg e) → reply_of c1 j = Some x →
       entry_matches req None e = true → e ∈ raw).
Proof.
  intros H1 H2 H3 req r c1.
  apply (@concurrent_query_complete ascii_tables ascii_tables_laws bit_codec bit_codec_laws exact_bloom
    exact_bloom_laws (race_manager true) comp_index race_disk comp_segs race_jobs
    race_before race_after 0 0 req None r).
  - apply race_ok. vm_compute. lia.
  - reflexivity.
  - unfold race_before, turns. rewrite elem_of_replicate. lia.
  - apply race_consistent.
  - done.
  - done.
  - vm_compute. reflexivity.
  - done.
  - vm_compute. reflexivity.
Defined.

Lemma concurrent_writes_kept_witness :
  let H1 := ascii_tables in let H2 := bit_codec in let H3 := exact_bloom in
  let sched := race_before ++ race_after in
  let c := pool_run sched (start (race_manager true) comp_index race_disk race_jobs) in
  let on_disk e p := in_file (sh_disk c.2) p e in
  (∀ i msg e x, race_jobs !! i = Some (Write msg e) → reply_of c i = Some x →
     x = Wrote (Ok ()) ∧ ∃ p, indexed (sh_index c.2) e p ∧ on_disk e p) ∧
  (∀ p es e, comp_segs !! p = Some es → p ∉ touched race_jobs → e ∈ es →
     indexed (sh_index c.2) e p ∧ on_disk e p) ∧
  (∀ p es e, comp_segs !! p = Some es → p ∈ touched race_jobs → e ∈ es → spared race_jobs e →
     ∃ q, q ∈ touched race_jobs ∧ on_disk e q).
Proof.
  intros H1 H2 H3 sched c on_disk.
  apply (@concurrent_writes_kept ascii_tables ascii_tables_laws bit_codec bit_codec_laws exact_bloom
    exact_bloom_laws (race_manager true) comp_index race_disk comp_segs race_jobs sched).
  apply race_ok. vm_compute. lia.
Defined.

(** The writer holds the mutex and the query is blocked: the writer can go on. *)
Lemma no_deadlock_witness :
  let H1 := ascii_tables in let H2 := bit_codec in let H3 := exact_bloom in
  let sched := turns 1 4 ++ turns 0 3 in
  let c := pool_run sched (start (race_manager true) comp_index race_disk race_jobs) in
  ∃ k p, c.1 !! k = Some p ∧ can_step p c.2 = true ∧
    ∀ holder, sh_mu c.2 = Some holder → k = holder ∧ is_writer race_jobs holder.
Proof.
  intros H1 H2 H3 sched c.
  apply (@no_deadlock ascii_tables ascii_tables_laws bit_codec bit_codec_laws exact_bloom
    exact_bloom_laws (race_manager true) comp_index race_disk comp_segs race_jobs sched 0).
  - apply race_ok. vm_compute. lia.
  - cbn. lia.
  - vm_compute. reflexivity.
Defined.

Lemma read_while_growing_witness :
  let H2 := bit_codec in
  let whole := segment_bytes [comp_e1; comp_e2] in
  let content k := take (600 * k) whole in
  ∃ res K, read_live (S (length whole)) content 0 0 [] = Some (res, K) ∧
    res = read_entries (mkReader (content K) None).
Proof.
  intros H2 whole content. apply (@read_while_growing bit_codec content whole).
  - intros k. unfold content. exists (take 600 (drop (600 * k) whole)).
    replace (600 * S k)%nat with (600 * k + 600)%nat by lia. by rewrite take_take_drop.
  - intros k. apply prefix_take.
Defined.
