(* ===== verification/Crash.v ===== *)
(** * A node killed among its goroutines, and its restart

    The process is killed after any schedule of writers, queries and a compaction
    pass; only the disk survives. If no writer was inside the manager's critical
    section, startup succeeds on what is left of the directory, half-finished
    compactions included, and every query finds every acknowledged entry. Inside
    the critical section there are moments after which the node does not start
    again: two of them are shown by concrete schedules. *)

From S2P Require Import Prelude GoStrings Types Record Disk Segment Ranking Index Parser Bloom.
From S2P Require Import Paths Manager Executor Recovery Fanout Ingest Compaction Threads Goroutines Rely Requests Compacting Races.

(** ** The segments of a directory *)

Section directory.
Context `{GoUnicodeLaws} `{ProtobufLaws} `{BloomLaws}.

(** The entries of a segment file. *)
Definition entries_in (content : list byte) : list LogEntry :=
  match read_entries (mkReader content None) with Ok es => es | Err _ => [] end.

(** The segment files of a directory with their entries. *)
Definition segments_in (dir : string) (d : Disk) : gmap string (list LogEntry) :=
  entries_in <$> filter (λ x, in_dir_seg dir x.1 = true) (files d).

Lemma segments_in_lookup dir d p es :
  segments_in dir d !! p = Some es ↔
  ∃ content, files d !! p = Some content ∧ in_dir_seg dir p = true ∧ es = entries_in content.
Proof.
  unfold segments_in. rewrite lookup_fmap_Some. setoid_rewrite map_lookup_filter_Some. cbn. naive_solver.
Qed.

Lemma entries_in_holds content es : holds content es → entries_in content = es.
Proof. intros Hh. unfold entries_in. by rewrite (read_entries_holds _ es). Qed.

(** A query of an index over all segments finds every entry that the filter of its
    segment, if it has one, does not hide. *)
Lemma Execute_finds idx m d segs req ast took :
  no_faults d → Represents idx (pairs_of segs) →
  (∀ p es, segs !! p = Some es → ∃ bytes, files d !! p = Some bytes ∧ holds bytes es) →
  id_consistent (entries_of segs) → 0 ≤ Limit req → 0 ≤ Offset req → Parse (QueryString req) = Ok ast →
  (∀ n, ast = Some n → bloom_safe (entries_of segs) n) →
  ∃ raw, Execute idx m None None took req d = (Ok (answer req ast raw took), d) ∧
    (∀ e, e ∈ raw → e ∈ entries_of segs) ∧
    ∀ p es e, segs !! p = Some es → e ∈ es → entry_matches req ast e = true →
      (∀ bf, BloomFor m p = Some bf → covers bf [e]) → e ∈ raw.
Proof.
  intros Hn Hi Hf Hc Hl Ho Hparse Hsafe.
  assert (store_ok idx (with_blooms ∅ m) d segs) as Hst.
  { split; [done..|]. intros p bf es Hbf. unfold BloomFor in Hbf. cbn in Hbf. by rewrite lookup_empty in Hbf. }
  destruct (pruned_holds idx _ d segs (pruned_paths idx m req ast) Hst) as (raw & Hraw & Helem).
  { intros p [_ Hp]%list_elem_of_filter. apply (Resolve_elem _ (pairs_of segs)) in Hp as ((e & He) & _); [|done].
    apply elem_of_pairs_of in He as (es & Hes & _). eauto. }
  assert (∀ e, e ∈ raw → e ∈ entries_of segs) as Hsub.
  { intros e (p & es & _ & Hp & He)%Helem. apply elem_of_entries_of. eauto. }
  exists raw. split_and!; [|done|].
  - unfold Execute. rewrite (proj2 (Z.ltb_ge _ _)), (proj2 (Z.ltb_ge _ _)), Hparse by done.
    assert (read_pruned (pruned_paths idx m req ast) None d = (Ok raw, d)) as Hread.
    { unfold read_pruned. case_bool_decide as E.
      - rewrite E in Hraw. inversion Hraw; subst. done.
      - io. by rewrite (ReadSegments_holds_all d _ raw) by done. }
    io. rewrite Hread. io.
    rewrite (finish_answer (mkSetting "" [] (entries_of segs) (λ _, False) None (λ _, True) true)) by done. done.
  - intros p es e Hp He Hm Hbf. apply Helem. exists p, es. split_and!; [|done..].
    apply list_elem_of_filter. split.
    + unfold keep_path. destruct (BloomFor m p) as [bf|]; [|done]. destruct ast as [nd|]; [|done].
      apply entry_matches_spec in Hm as (_ & _ & Hma & _). apply negb_true_iff.
      apply (no_definite_miss bf [e] e nd); [by apply Hbf|by left| |done].
      eapply bloom_safe_subset; [|by apply Hsafe]. intros x ->%list_elem_of_singleton.
      apply elem_of_entries_of. eauto.
    + apply (indexed_resolved _ e); [|done]. exists (pairs_of segs). split; [done|]. apply elem_of_pairs_of. eauto.
Qed.
End directory.

(** ** The disk a killed node leaves *)

Section crash.
Context `{GoUnicodeLaws} `{ProtobufLaws} `{BloomLaws}.
Context (W : setting).

(** With the mutex free, every segment on disk is whole. *)
Lemma quiet_segments n s p es :
  inv W n s → sh_mu s = None → segments_in (data_dir W) (sh_disk s) !! p = Some es →
  (∃ bytes, files (sh_disk s) !! p = Some bytes ∧ holds bytes es) ∧ ∀ e, e ∈ es → e ∈ known W.
Proof.
  intros Hinv Hmu (content & Hf & Hp & ->)%segments_in_lookup.
  destruct (file_ok_whole W (torn_at s p) content) as (es & Hh & Hu).
  { intros [[j Hj] _]. congruence. }
  { by apply (inv_files _ _ _ Hinv p content). }
  rewrite (entries_in_holds content es Hh). eauto.
Qed.

(** Startup on the disk of a node that was killed with the mutex free; every entry that
    is in a segment of the directory and that no sidecar hides is found. *)
Lemma restart_finds n s mb node env :
  inv W n s → sh_mu s = None →
  let d := sh_disk s in
  ∃ m' idx', start_node (data_dir W) mb node env d = (Ok (m', idx'), d) ∧
    ∀ req ast took, id_consistent (known W) → 0 ≤ Limit req → 0 ≤ Offset req →
      Parse (QueryString req) = Ok ast → (∀ nd, ast = Some nd → bloom_safe (known W) nd) →
      ∃ raw, Execute idx' m' None None took req d = (Ok (answer req ast raw took), d) ∧
        (∀ e, e ∈ raw → e ∈ known W) ∧
        ∀ p e, is_seg W p → shelved d p e → entry_matches req ast e = true → e ∈ raw.
Proof.
  intros Hinv Hmu d. pose proof (inv_faults _ _ _ Hinv) as Hn. fold d in Hn.
  pose proof (inv_manager _ _ _ Hinv Hmu) as Hm. fold d in Hm.
  destruct (mi_marker _ _ _ Hm) as (k & Hk & Hlast & Hmk).
  destruct (mi_active _ _ _ Hm) as (seg & bytes & es & _ & Hl & (Hf & _) & _). rewrite Hlast in Hl. injection Hl as Hseg.
  rewrite <- Hseg in Hf.
  destruct (NewManager_reopens (data_dir W) d k mb node env Hn) as (m' & ps & Hrun & _ & _ & Hdp & _ & _ & _ & _ & _ & Hbl);
    [lia|by eexists|done|].
  set (segs := segments_in (data_dir W) d).
  assert (∀ p es, segs !! p = Some es → (∃ bytes, files d !! p = Some bytes ∧ holds bytes es) ∧
    ∀ e, e ∈ es → e ∈ known W) as Hsegs by (intros p es'; by apply (quiet_segments n)).
  destruct (rebuild_segments d (paths m') segs Hn) as (idx' & Hreb & Hi).
  { intros p. rewrite Hdp. split.
    - intros [es' (c & Hc & ? & _)%segments_in_lookup]. split; [done|]. by eexists.
    - intros [? [c Hc]]. exists (entries_in c). apply segments_in_lookup. eauto. }
  { intros p es' Hes. by apply Hsegs. }
  assert (∀ e, e ∈ entries_of segs → e ∈ known W) as Hsub.
  { intros e (p & es' & Hp & He)%elem_of_entries_of. by apply (Hsegs p es'). }
  exists m', idx'. split.
  { unfold start_node. io. rewrite Hrun. io. unfold SegmentPaths. rewrite Hreb. by io. }
  intros req ast took Hc Hlim Hoff Hparse Hsafe.
  destruct (Execute_finds idx' m' d segs req ast took) as (raw & Hex & Hraw & Hall); [done|done| |..].
  { intros p es' Hes. by apply Hsegs. }
  { intros a b ???. apply Hc; auto. }
  { done. }
  { done. }
  { done. }
  { intros nd ->. eapply bloom_safe_subset; [exact Hsub|]. by apply Hsafe. }
  exists raw. split_and!; [done|auto|]. intros p e Hp [(b & es' & rest & Hb & Hrest) Hside] Hma.
  assert (segs !! p = Some (entries_in (b ++ rest))) as Hes by (apply segments_in_lookup; eauto).
  destruct (Hsegs p _ Hes) as [(b' & Hb' & Hh) _]. apply (Hall p _ e Hes); [|done|].
  - apply (in_file_whole d p b'); [done..|]. by exists b, es', rest.
  - intros bf Hbf. destruct (Hbl p bf Hbf) as (_ & fb & Hfb & Hr). by eapply Hside.
Qed.

(** Entries outside the compacted segments are not hidden. *)
Lemma visible_shelved n s e p : inv W n s → sh_mu s = None → visible W s e p → shelved (sh_disk s) p e.
Proof.
  intros Hinv Hmu (HpT & Hs & _ & Hin). split; [done|]. intros fb bf Hfb Hr.
  destruct (mi_sides _ _ _ (inv_manager _ _ _ Hinv Hmu) p fb bf Hs HpT Hfb Hr) as (_ & b & es & Hf & Hh & Hc).
  apply (covers_sub _ es); [|done]. intros x ->%list_elem_of_singleton. by eapply in_file_whole.
Qed.
End crash.

(** ** Properties *)

Section properties.
Context `{GoUnicodeLaws} `{ProtobufLaws} `{BloomLaws}.

(** What a node killed in the configuration [c] owes on its next start: startup succeeds on
    the disk that is left, and a valid query returns the page of all matching entries of a
    collection that has every entry stored before, those aside that a retention pass may
    delete, and every entry whose write has returned. *)
Definition comes_back (dir : string) (segs : gmap string (list LogEntry)) (jobs : list job)
    (c : list (prog Shared reply) * Shared) (maxBytes : Z) (node : string) (bloom_env : bool) : Prop :=
  let left := sh_disk c.2 in
  ∃ m' idx', start_node dir maxBytes node bloom_env left = (Ok (m', idx'), left) ∧
    ∀ req ast took, id_consistent (universe segs jobs) → 0 ≤ Limit req → 0 ≤ Offset req →
      Parse (QueryString req) = Ok ast → (∀ n, ast = Some n → bloom_safe (universe segs jobs) n) →
      ∃ raw, Execute idx' m' None None took req left = (Ok (answer req ast raw took), left) ∧
        (∀ e, e ∈ raw → e ∈ universe segs jobs) ∧
        (∀ p es e, segs !! p = Some es → e ∈ es → p ∉ touched jobs ∨ spared jobs e →
           entry_matches req ast e = true → e ∈ raw) ∧
        (∀ i msg e x, jobs !! i = Some (Write msg e) → reply_of c i = Some x →
           entry_matches req ast e = true → e ∈ raw).

Lemma killed_comes_back m idx d segs jobs sched maxBytes node bloom_env :
  pool_ok (length sched) m idx d segs jobs →
  let c := pool_run sched (start m idx d jobs) in
  sh_mu c.2 = None → comes_back (mdir m) segs jobs c maxBytes node bloom_env.
Proof.
  intros Hok c Hmu. unfold comes_back. cbn zeta. pose proof (start_config _ _ _ _ _ _ Hok) as Hc.
  rewrite <- (Nat.add_0_r (length sched)) in Hc at 1. apply config_run in Hc. fold c in Hc.
  pose proof Hc as (Hinv & Hcom & _). set (W := setting_of m segs jobs) in *.
  destruct (restart_finds W 0 c.2 maxBytes node bloom_env Hinv Hmu) as (m' & idx' & Hrun & Hask).
  exists m', idx'. split; [done|]. intros req ast took Hcons Hl Ho Hparse Hsafe.
  destruct (Hask req ast took Hcons Hl Ho Hparse Hsafe) as (raw & Hex & Hsub & Hall).
  exists raw. split_and!; [done..| |].
  - intros p es e Hp He Hkeep Hma. destruct (decide (p ∈ touched jobs)) as [HT|HT].
    + destruct Hkeep as [|Hsp]; [done|]. destruct Hcom as (_ & _ & Hret).
      destruct (Hret e p Hsp HT (start_shelved _ _ _ _ _ _ Hok p es e Hp He)) as (q & Hq & Hs).
      apply (Hall q e); [|done..]. by eapply touched_seg.
    + pose proof (start_visible _ _ _ _ _ _ Hok p es e Hp HT He) as Hv.
      apply (visible_common _ _ _ _ _ Hcom) in Hv. apply (Hall p e); [by destruct Hv as (_ & ? & _)| |done].
      by eapply visible_shelved.
  - intros i msg e x Hi Hx Hma. destruct (reply_post _ _ _ _ _ _ _ _ _ Hc Hx) as (s & (j & Hj & _ & Hq) & HR).
    rewrite Hi in Hj. injection Hj as <-. destruct Hq as (_ & p & Hv).
    apply (visible_common _ _ _ _ _ (proj1 HR)) in Hv. apply (Hall p e); [by destruct Hv as (_ & ? & _)| |done].
    by eapply visible_shelved.
Qed.

(** C4. A node that is killed among its goroutines recovers: after any schedule of
    writes, queries and a compaction pass, if nobody is inside the manager's critical
    section when the process dies, startup on the disk it leaves succeeds, and every
    valid query of the restarted node returns the page of all matching entries of a
    collection [raw] of entries stored or written. It has every entry whose write had
    returned and every entry stored before, except those a retention pass may delete:
    no step of a merge leaves a moment in which an entry is on no segment, or only on
    one whose sidecar filter hides it. *)
Theorem crash_recovers (m : Manager) (idx : Index) (d : Disk) (segs : gmap string (list LogEntry))
    (jobs : list job) (sched : list nat) (maxBytes : Z) (node : string) (bloom_env : bool) :
  pool_ok (length sched) m idx d segs jobs →
  let c := pool_run sched (start m idx d jobs) in
  let left := sh_disk c.2 in
  sh_mu c.2 = None →
  ∃ m' idx', start_node (mdir m) maxBytes node bloom_env left = (Ok (m', idx'), left) ∧
    ∀ req ast took, id_consistent (universe segs jobs) → 0 ≤ Limit req → 0 ≤ Offset req →
      Parse (QueryString req) = Ok ast → (∀ n, ast = Some n → bloom_safe (universe segs jobs) n) →
      ∃ raw, Execute idx' m' None None took req left = (Ok (answer req ast raw took), left) ∧
        (∀ e, e ∈ raw → e ∈ universe segs jobs) ∧
        (∀ p es e, segs !! p = Some es → e ∈ es → p ∉ touched jobs ∨ spared jobs e →
           entry_matches req ast e = true → e ∈ raw) ∧
        (∀ i msg e x, jobs !! i = Some (Write msg e) → reply_of c i = Some x →
           entry_matches req ast e = true → e ∈ raw).
Proof. intros Hok c left Hmu. by apply killed_comes_back. Qed.
End properties.

(** ** Killed inside the critical section *)

(** The disk after a schedule on the sample node with segments of at most [maxBytes]. *)
Definition killed (maxBytes : Z) (jobs : list job) (sched : list nat) : Disk :=
  let H1 := ascii_tables in let H2 := bit_codec in let H3 := exact_bloom in
  let m := comp_manager true in
  let m := @mkManager exact_bloom (mdir m) maxBytes (active m) (nextSeq m) (paths m) (nodeID m)
             (bloomEnabled m) (blooms m) in
  sh_disk (pool_run sched (start m comp_index race_disk jobs)).2.

Definition reboot (d : Disk) : result (@Manager exact_bloom * Index) :=
  let H1 := ascii_tables in let H2 := bit_codec in let H3 := exact_bloom in
  (start_node "data" 1000 "n1" true d).1.

(** A node can be killed so that it does not start again. (1) Killed between the two
    writes of a record, it leaves a segment that ends in a length without its data:
    [ReadSegment] fails on it and the index cannot be rebuilt. (2) Killed while a
    rotation has truncated the marker file and not yet written it, it leaves an empty
    marker, which [NewManager] resolves to the data directory itself and then fails to
    open as a segment. One step earlier and one step later the node starts in both
    cases. *)
Theorem crash_anomalies :
  let started d := match reboot d with Ok _ => true | Err _ => false end in
  let append k := killed 100000 [write_e3] (turns 0 k) in
  let rotation k := killed 1000 [write_e3] (turns 0 k) in
  (started (append 3%nat) = true ∧
   (∃ e, reboot (append 4%nat) = Err (ErrWrap "index rebuild" e)) ∧ started (append 5%nat) = true) ∧
  (started (rotation 8%nat) = true ∧
   reboot (rotation 9%nat) = Err (ErrWrap "storage.NewManager" (ErrWrap "reopen active segment"
     (ErrWrap "open segment" (ErrMsg "is a directory")))) ∧ started (rotation 10%nat) = true).
Proof. cbv zeta. split_and!; try (vm_compute; reflexivity). eexists. vm_compute. reflexivity. Qed.

(** ** Witnesses *)

(** Killed after a write has returned, in the middle of a merge: the merged file is in
    place under the filter of its first part. *)
Lemma crash_recovers_witness :
  let H1 := ascii_tables in let H2 := bit_codec in let H3 := exact_bloom in
  let c := pool_run (race_before ++ turns 2 13) (start (race_manager true) comp_index race_disk race_jobs) in
  let left := sh_disk c.2 in
  ∃ m' idx', start_node "data" 1000 "n1" true left = (Ok (m', idx'), left) ∧
    ∀ req ast took, id_consistent (universe comp_segs race_jobs) → 0 ≤ Limit req → 0 ≤ Offset req →
      Parse (QueryString req) = Ok ast →
      (∀ n, ast = Some n → bloom_safe (universe comp_segs race_jobs) n) →
      ∃ raw, Execute idx' m' None None took req left = (Ok (answer req ast raw took), left) ∧
        (∀ e, e ∈ raw → e ∈ universe comp_segs race_jobs) ∧
        (∀ p es e, comp_segs !! p = Some es → e ∈ es → p ∉ touched race_jobs ∨ spared race_jobs e →
           entry_matches req ast e = true → e ∈ raw) ∧
        (∀ i msg e x, race_jobs !! i = Some (Write msg e) → reply_of c i = Some x →
           entry_matches req ast e = true → e ∈ raw).
Proof.
  intros H1 H2 H3 c left.
  apply (@crash_recovers ascii_tables ascii_tables_laws bit_codec bit_codec_laws exact_bloom exact_bloom_laws
    (race_manager true) comp_index race_disk comp_segs race_jobs (race_before ++ turns 2 13) 1000 "n1" true).
  - apply race_ok. vm_compute. lia.
  - vm_compute. reflexivity.
Defined.
