(* ===== verification/Node.v ===== *)
(** * A storage node over its lifetime

    The components of a node put together: it boots on an empty directory and then
    serves writes and replicated entries, compacts, applies retention and restarts, in
    any order. Its promise to clients is the whole point of the engine: what it
    acknowledged it answers, across all of this, until retention removes it. *)

From S2P Require Import Prelude GoStrings Observability Types Record Disk Segment Ranking Index Parser Bloom.
From S2P Require Import Paths Manager Executor Recovery Fsm Ingest Compaction.

Section node.
Context `{GoUnicode} `{Protobuf} `{Bloom}.

(** What happens to a node between queries. *)
Inductive node_op :=
  | OpIngest (sr : option ClusterStateReader) (call : string → Context → Pb.LogEntry → result IngestResponse) (ctx : Context)
      (now : Z) (newID : string) (req : option Pb.LogEntry)
  | OpReplicate (sr : option ClusterStateReader) (req : option Pb.LogEntry) (shardId : Z)
  | OpMerge
  | OpRetain (now : Z)
  | OpRestart.

(** The compactor of a node works on its manager and index. *)
Definition compactor_of (cfg : CompactorConfig) (nd : StorageNode) : Compactor :=
  mkCompactor (nd_manager nd) (Some (nd_index nd)) cfg.
Definition after_compaction (nd : StorageNode) (c : Compactor) : StorageNode :=
  with_store (c_manager c) (default NewIndex (c_idx c)) nd.

(** A restart loses the replication queues; a failed start leaves no node, and the old
    one stands for it. *)
Definition restarted (nd : StorageNode) (r : result (Manager * Index)) : StorageNode :=
  match r with
  | Ok (m, idx) => with_store m idx (with_replicator ((λ _, ∅) <$> nd_replicator nd) nd)
  | Err _ => nd
  end.

Definition run_node_op (cfg : CompactorConfig) (op : node_op) (nd : StorageNode) : IO StorageNode :=
  match op with
  | OpIngest sr call ctx now newID req => '(nd, _) ← HandleIngest sr call ctx now newID req nd; mret nd
  | OpReplicate sr req shardId => '(nd, _) ← ReplicateEntry sr req shardId nd; mret nd
  | OpMerge => c ← runMergePass (compactor_of cfg nd); mret (after_compaction nd c)
  | OpRetain now => c ← runRetentionPass now (compactor_of cfg nd); mret (after_compaction nd c)
  | OpRestart =>
    let m := nd_manager nd in
    r ← start_node (mdir m) (maxSegmentBytes m) (nodeID m) (bloomEnabled m);
    mret (restarted nd r)
  end.

Fixpoint run_node (cfg : CompactorConfig) (ops : list node_op) (nd : StorageNode) : IO StorageNode :=
  match ops with
  | [] => mret nd
  | op :: ops => nd ← run_node_op cfg op nd; run_node cfg ops nd
  end.

(** The node after its first start. *)
Definition boot (dir : string) (maxBytes : Z) (id : string) (bloom_env : bool) (totalShards : Z)
    (repl : option (gmap string (list Replicator.replicaJob))) : IO (result StorageNode) :=
  r ← start_node dir maxBytes id bloom_env;
  mret match r with
       | Err e => Err e
       | Ok (m, idx) => Ok (mkStorageNode id totalShards m idx repl)
       end.

(** ** Specification *)

(** The entry an operation makes the node responsible for. *)
Definition op_entry (nd : StorageNode) (op : node_op) : option LogEntry :=
  match op with
  | OpIngest sr _ _ now newID req =>
    match HandleIngest_route sr (nd_id nd) (nd_totalShards nd) req with
    | WriteLocal pb _ => Some (stamp now newID pb)
    | _ => None
    end
  | OpReplicate sr req shardId =>
    pb ← req;
    match replica_accepts sr nd pb shardId with Ok _ => Some (ProtoToEntry pb) | Err _ => None end
  | _ => None
  end.

Definition accepted (nd : StorageNode) (ops : list node_op) : list LogEntry := omap (op_entry nd) ops.

Definition cutoff (cfg : CompactorConfig) (now : Z) : Z :=
  int64 (now + int64 (- RetentionDays cfg * 24 * 3600 * 1000000000)).

(** The entry was there when a retention pass ran whose cutoff it had passed. *)
Definition expired (cfg : CompactorConfig) (nd : StorageNode) (ops : list node_op) (e : LogEntry) : Prop :=
  ∃ before now after, ops = before ++ OpRetain now :: after ∧ e ∈ accepted nd before ∧
    Timestamp e < cutoff cfg now.

(** The limits of the machine integers: entries fit a record, segment sizes an [int64],
    sequence numbers a [uint64]. *)
Definition entry_fits (m : Manager) (e : LogEntry) : bool :=
  match marshalLogEntry e, active m with
  | Ok data, Some seg =>
    (len data <=? maxRecordSize) && (nextSeq m + 1 <? 2 ^ 64) && (seg_size seg + 4 + len data <? 2 ^ 63)
  | _, _ => false
  end.

Definition op_fits (cfg : CompactorConfig) (nd : StorageNode) (op : node_op) : bool :=
  match op with
  | OpMerge => Z.of_nat (length (paths (nd_manager nd))) * MergeThresholdBytes cfg <? 2 ^ 63
  | _ => match op_entry nd op with Some e => entry_fits (nd_manager nd) e | None => true end
  end.

Fixpoint within_limits (cfg : CompactorConfig) (ops : list node_op) (nd : StorageNode) (d : Disk) : bool :=
  match ops with
  | [] => true
  | op :: ops =>
    op_fits cfg nd op && (let '(nd', d') := run_node_op cfg op nd d in within_limits cfg ops nd' d')
  end.

(** A node in step with its directory. *)
Definition live (nd : StorageNode) (d : Disk) (segs : gmap string (list LogEntry)) : Prop :=
  no_faults d ∧ node_inv nd d segs ∧ dir_ok (nd_manager nd) d.

Definition same_node (nd nd' : StorageNode) : Prop :=
  nd_id nd' = nd_id nd ∧ nd_totalShards nd' = nd_totalShards nd ∧
  bloomEnabled (nd_manager nd') = bloomEnabled (nd_manager nd) ∧ mdir (nd_manager nd') = mdir (nd_manager nd).
End node.

(** ** Lemmas *)

Section node_lemmas.
Context `{GoUnicodeLaws} `{ProtobufLaws} `{BloomLaws}.
Implicit Types (nd : StorageNode) (d : Disk).

Lemma op_entry_same nd nd' op : same_node nd nd' → op_entry nd' op = op_entry nd op.
Proof. intros (Hid & Ht & _). destruct op; cbn; rewrite ?Hid, ?Ht; try done. unfold replica_accepts. by rewrite Hid, Ht. Qed.

Lemma accepted_same nd nd' ops : same_node nd nd' → accepted nd' ops = accepted nd ops.
Proof.
  intros Hs. unfold accepted. induction ops as [|op ops IH]; cbn; [done|]. by rewrite (op_entry_same nd nd'), IH.
Qed.

(** The invariant looks at no temporary file. *)
Lemma live_ext nd d d' segs :
  node_inv nd d segs → dir_ok (nd_manager nd) d →
  (∀ q, HasSuffix q ".tmp" = false → files d' !! q = files d !! q) →
  node_inv nd d' segs ∧ dir_ok (nd_manager nd) d'.
Proof.
  intros [Hok Hdom Hsf Hi] [Dp (n & Dn & Dl & Dm) Ds Dsd Db] Hsame.
  assert (∀ q, HasSuffix q ".seg" = true → files d' !! q = files d !! q) as Hseg
    by (intros q Hq; apply Hsame; by apply seg_not_tmp).
  assert (∀ p, files d' !! BloomPath p = files d !! BloomPath p) as Hb
    by (intros p; apply Hsame, bloom_suffix).
  split; split.
  - by apply mgr_ok_agree with d.
  - done.
  - intros p es Hp. rewrite Hseg; [by apply Hsf|]. apply (ok_names _ _ Hok), Hdom. eauto.
  - done.
  - intros p. rewrite Dp. split; intros [H1' H2']; (split; [done|]);
      [rewrite Hseg|rewrite <- Hseg]; by eauto using in_dir_seg_suffix.
  - exists n. rewrite Hsame; [done|]. apply marker_suffix.
  - done.
  - intros p fb bf Hp. rewrite Hb, Hseg by (by eapply in_dir_seg_suffix). by apply Dsd.
  - destruct Db as [?|[? Hno]]; [by left|right]. split; [done|]. intros p Hp. rewrite Hb. by apply Hno.
Qed.

Lemma entry_fits_can m e : entry_fits m e = true → ∃ data, can_append m e data.
Proof.
  unfold entry_fits, can_append. destruct (marshalLogEntry e) as [data|]; [|done].
  destruct (active m) as [seg|]; [|done].
  intros [[H1'%Z.leb_le H2'%Z.ltb_lt]%andb_true_iff H3'%Z.ltb_lt]%andb_true_iff. exists data.
  split_and!; [done..|]. by intros ? [= <-].
Qed.

Lemma append_and_index_live nd d segs e data msg :
  live nd d segs → can_append (nd_manager nd) e data →
  ∃ nd' d' p, append_and_index msg e nd d = ((nd', Ok ()), d') ∧ live nd' d' (appended p e segs) ∧
    same_node nd nd'.
Proof.
  intros (Hn & Hinv & Hd) Hcan.
  destruct (append_and_index_ok nd d segs e data msg Hn Hinv Hcan)
    as (nd' & d' & p & Heq & Hn' & Hinv' & Hid & Ht & _).
  exists nd', d', p. split; [done|].
  assert (dir_ok (nd_manager nd') d' ∧ bloomEnabled (nd_manager nd') = bloomEnabled (nd_manager nd) ∧
    mdir (nd_manager nd') = mdir (nd_manager nd)) as (Hd' & Hbe & Hmd); [|done].
  revert Heq. unfold append_and_index, AppendWithPath. rewrite !bind_run.
  destruct (appendLocked (nd_manager nd) e d) as [[m' r] d1] eqn:Happ. cbn [fst snd].
  assert (mgr_ok (nd_manager nd) d) as Hok by apply (si_mgr _ _ _ _ Hinv).
  destruct (stored_exists _ _ Hok) as [es Hes].
  destruct (appendLocked_ok _ d es e data Hn Hok Hes Hcan) as (m2 & d2 & ? & Heq2 & _).
  rewrite Happ in Heq2. injection Heq2 as -> -> ->.
  pose proof (appendLocked_dir _ d e data m2 d2 Hn Hok Hd Hcan Happ) as Hd2.
  pose proof (appendLocked_fixed _ _ _ _ _ _ Happ) as [Hbe Hmd].
  destruct (last (paths m2)); cbn; intros [= <- <-]; done.
Qed.

(** A local write on a live node is acknowledged and leaves it live. *)
Lemma writeLocal_live sr ctx now newID pb replica nd d segs data (e := stamp now newID pb) :
  live nd d segs → can_append (nd_manager nd) e data →
  ∃ nd' d' p, writeLocal sr ctx now newID pb replica nd d = ((nd', Ok (mkIngestResponse (ID e) true)), d') ∧
    live nd' d' (appended p e segs) ∧ same_node nd nd'.
Proof.
  intros Hlive Hcan. unfold writeLocal. fold e.
  destruct (append_and_index_live nd d segs e data "append failed" Hlive Hcan)
    as (nd1 & d' & p & Heq & Hl1 & Hs1).
  set (nd' := enqueue_replica sr ctx e replica nd1).
  assert (nd_manager nd' = nd_manager nd1 ∧ nd_index nd' = nd_index nd1 ∧ same_node nd1 nd') as (Hm & Hi & Hs).
  { subst nd'. unfold enqueue_replica, same_node. by repeat case_match. }
  exists nd', d', p. split; [io; rewrite Heq; by io|].
  destruct Hl1 as (Hn1 & [????] & Hd1). destruct Hs1 as (? & ? & ? & ?), Hs as (? & ? & ? & ?). split.
  - split_and!; [done| |by rewrite Hm]. split; rewrite ?Hm, ?Hi; done.
  - by split_and!; congruence.
Qed.

(** One operation: what was stored stays, what was accepted is added, only a retention
    pass removes, and only what it may. *)
Lemma run_node_op_live cfg op nd d segs :
  live nd d segs → op_fits cfg nd op = true →
  ∃ nd' d' segs', run_node_op cfg op nd d = (nd', d') ∧ live nd' d' segs' ∧ same_node nd nd' ∧
    (∀ x, x ∈ entries_of segs' → x ∈ entries_of segs ∨ op_entry nd op = Some x) ∧
    (∀ x, op_entry nd op = Some x → x ∈ entries_of segs') ∧
    (∀ x, x ∈ entries_of segs → x ∈ entries_of segs' ∨
       ∃ now, op = OpRetain now ∧ Timestamp x < cutoff cfg now).
Proof.
  intros Hlive Hfit.
  assert (∀ nd', nd_manager nd' = nd_manager nd → nd_index nd' = nd_index nd → live nd' d segs) as Hkeep.
  { intros nd' Hm Hi. destruct Hlive as (? & [????] & ?). split_and!; [done| |by rewrite Hm].
    split; rewrite ?Hm, ?Hi; done. }
  assert (∀ e p x, x ∈ entries_of (appended p e segs) ↔ x ∈ entries_of segs ∨ x = e) as Hadd
    by (intros; apply entries_of_appended).
  destruct op as [sr call ctx now newID req|sr req shardId| |now|]; cbn [run_node_op op_entry].
  - unfold HandleIngest. cbn [op_fits op_entry] in Hfit.
    destruct (HandleIngest_route sr (nd_id nd) (nd_totalShards nd) req) as [e|pb replica|pb addr].
    + exists nd, d, segs. split; [by io|]. split_and!; try done; auto.
    + destruct (entry_fits_can _ _ Hfit) as [data Hcan].
      destruct (writeLocal_live sr ctx now newID pb replica nd d segs data Hlive Hcan)
        as (nd' & d' & p & Heq & Hl & Hs).
      exists nd', d', (appended p (stamp now newID pb) segs). split; [io; rewrite Heq; by io|].
      split_and!; [done|done|..].
      * intros x. rewrite Hadd. naive_solver.
      * intros x [= <-]. rewrite Hadd. by right.
      * intros x Hx. left. rewrite Hadd. by left.
    + exists nd, d, segs. split; [by io|]. split_and!; try done; auto.
  - cbn [op_fits op_entry] in Hfit. destruct req as [pb|]; cbn [ReplicateEntry mbind option_bind] in *.
    2: { exists nd, d, segs. split; [by io|]. split_and!; try done; auto. }
    destruct (replica_accepts sr nd pb shardId) as [u|err].
    2: { exists nd, d, segs. split; [by io|]. split_and!; try done; auto. }
    destruct (entry_fits_can _ _ Hfit) as [data Hcan].
    destruct (append_and_index_live nd d segs _ data "replicate append failed" Hlive Hcan)
      as (nd' & d' & p & Heq & Hl' & Hs').
    exists nd', d', (appended p (ProtoToEntry pb) segs). split; [io; rewrite Heq; by io|].
    split_and!; try done; [intros x; rewrite Hadd; naive_solver|..].
    + intros x [= <-]. rewrite Hadd. by right.
    + intros x Hx. left. rewrite Hadd. by left.
  - destruct Hlive as (Hn & Hinv & Hd).
    destruct (runMergePass_ok (compactor_of cfg nd) d (nd_index nd) segs)
      as (c' & d' & idx' & segs' & Hrun & Hn' & Hi' & Hinv' & Hd' & Hent & Hmd & Hbe); try done; [by apply Z.ltb_lt|].
    exists (after_compaction nd c'), d', segs'. split; [io; rewrite Hrun; by io|].
    unfold after_compaction. rewrite Hi'. split_and!; try done.
    + intros x Hx. left. by apply Hent.
    + intros x Hx. left. by apply Hent.
  - destruct Hlive as (Hn & Hinv & Hd).
    destruct (runRetentionPass_inv (compactor_of cfg nd) d (nd_index nd) segs now)
      as (c' & d' & idx' & segs' & Hrun & Hn' & Hi' & Hinv' & Hsub & Hd' & Hbe & Hmd & Hold); try done.
    exists (after_compaction nd c'), d', segs'. split; [io; rewrite Hrun; by io|].
    unfold after_compaction. rewrite Hi'. split_and!; try done; [by split_and!; auto|..].
    + intros x (p & es & Hp & Hx)%elem_of_entries_of. left. apply elem_of_entries_of.
      exists p, es. split; [|done]. by eapply lookup_weaken.
    + intros x (p & es & Hp & Hx)%elem_of_entries_of. destruct (segs' !! p) as [es'|] eqn:Hp'.
      * left. apply elem_of_entries_of. exists p, es'. split; [done|].
        pose proof (lookup_weaken _ _ _ _ Hp' Hsub) as Hw. congruence.
      * right. exists now. split; [done|]. by apply (Hold p es).
  - destruct Hlive as (Hn & Hinv & Hd).
    destruct (start_node_ok (nd_manager nd) (nd_index nd) d segs (maxSegmentBytes (nd_manager nd))
      (nodeID (nd_manager nd)) (bloomEnabled (nd_manager nd))) as (m' & Hrun & Hinv' & Hd' & Hbe & Hmd); try done.
    eexists _, d, segs. split; [io; rewrite Hrun; by io|]. split_and!; try done; auto.
Qed.

Lemma accepted_cons nd op ops x :
  x ∈ accepted nd (op :: ops) ↔ op_entry nd op = Some x ∨ x ∈ accepted nd ops.
Proof.
  unfold accepted. cbn. destruct (op_entry nd op) as [e|]; [|naive_solver].
  rewrite elem_of_cons. naive_solver.
Qed.

Lemma run_node_live cfg ops nd d segs :
  live nd d segs → within_limits cfg ops nd d = true →
  ∃ nd' d' segs', run_node cfg ops nd d = (nd', d') ∧ live nd' d' segs' ∧ same_node nd nd' ∧
    (∀ x, x ∈ entries_of segs' → x ∈ entries_of segs ∨ x ∈ accepted nd ops) ∧
    (∀ x, x ∈ entries_of segs → x ∈ entries_of segs' ∨
       ∃ before now after, ops = before ++ OpRetain now :: after ∧ Timestamp x < cutoff cfg now) ∧
    (∀ x, x ∈ accepted nd ops → x ∈ entries_of segs' ∨ expired cfg nd ops x).
Proof.
  revert nd d segs. induction ops as [|op ops IH]; intros nd d segs Hlive Hlim; cbn [run_node].
  { exists nd, d, segs. split; [done|]. split; [done|]. split; [done|]. split; [auto|]. split; [auto|].
    intros x Hx. by apply not_elem_of_nil in Hx. }
  cbn [within_limits] in Hlim. apply andb_true_iff in Hlim as [Hfit Hlim].
  destruct (run_node_op_live cfg op nd d segs Hlive Hfit)
    as (nd1 & d1 & segs1 & Hrun & Hl1 & Hs1 & Hsub1 & Hnew1 & Hkeep1).
  rewrite Hrun in Hlim.
  destruct (IH nd1 d1 segs1 Hl1 Hlim) as (nd' & d' & segs' & Hrun' & Hl' & Hs' & Hsub' & Hkeep' & Hacc').
  pose proof (accepted_same nd nd1 ops Hs1) as Ha.
  exists nd', d', segs'. split; [io; by rewrite Hrun|]. split; [done|].
  split; [destruct Hs1 as (? & ? & ? & ?), Hs' as (? & ? & ? & ?); split_and!; congruence|]. split_and!.
  - intros x Hx. rewrite accepted_cons. destruct (Hsub' x Hx) as [Hx1|Hx1]; [|rewrite Ha in Hx1; auto].
    destruct (Hsub1 x Hx1); auto.
  - intros x Hx. destruct (Hkeep1 x Hx) as [Hx1|(now & -> & Hold)].
    + destruct (Hkeep' x Hx1) as [?|(b & now & a & -> & Hold)]; [by left|right]. by exists (op :: b), now, a.
    + right. by exists [], now, ops.
  - intros x [Hx|Hx]%accepted_cons.
    + destruct (Hkeep' x (Hnew1 x Hx)) as [?|(b & now & a & -> & Hold)]; [by left|right].
      exists (op :: b), now, a. split; [done|]. split; [|done]. apply accepted_cons. by left.
    + rewrite <- Ha in Hx. destruct (Hacc' x Hx) as [?|(b & now & a & -> & Hb & Hold)]; [by left|right].
      exists (op :: b), now, a. split; [done|]. split; [|done].
      rewrite (accepted_same nd nd1 b Hs1) in Hb. apply accepted_cons. by right.
Qed.

Lemma boot_live dir mb id env total repl d :
  no_faults d → empty_dir dir d →
  ∃ nd d', boot dir mb id env total repl d = (Ok nd, d') ∧ live nd d' {[ seq_path dir 1 := [] ]} ∧
    nd_id nd = id ∧ nd_totalShards nd = total ∧ bloomEnabled (nd_manager nd) = env.
Proof.
  intros Hn He.
  destruct (start_empty dir mb id env d Hn He) as (m & idx & d' & Hrun & Hn' & _ & Hbe & _ & Hinv & Hd).
  exists (mkStorageNode id total m idx repl), d'. split; [unfold boot; io; rewrite Hrun; by io|]. done.
Qed.

(** A node in step with its directory answers from what is stored. *)
Lemma store_answers m idx d segs acc q ast took :
  no_faults d → store_inv m idx d segs → dir_ok m d → (∀ x, x ∈ entries_of segs → x ∈ acc) →
  id_consistent acc → 0 ≤ Limit q → 0 ≤ Offset q → Parse (QueryString q) = Ok ast →
  bloomEnabled m = false ∨ (∀ n, ast = Some n → bloom_safe acc n) →
  Execute idx m None None took q d = (Ok (answer q ast (entries_of segs) took), d).
Proof.
  intros Hn Hinv Hd Hin Hc Hl Ho Hp Hb. apply Execute_scan; try done.
  - by apply store_inv_ok.
  - intros x y Hx Hy. apply Hc; auto.
  - destruct Hb as [Hb|Hb]; [left|right].
    + destruct (dir_bloom _ _ Hd) as [Hbt|[Hb0 _]]; [congruence|done].
    + intros n Hn0. eapply bloom_safe_subset; [|by apply Hb]. done.
Qed.

(** Nothing is stored in a fresh directory. *)
Lemma only_accepted (p : string) (acc : list LogEntry) x :
  x ∈ entries_of {[ p := [] ]} ∨ x ∈ acc → x ∈ acc.
Proof.
  intros [(p' & es & [_ <-]%lookup_singleton_Some & Hx)%elem_of_entries_of|]; [|done]. by apply not_elem_of_nil in Hx.
Qed.

(** A node that has just started on an empty directory. *)
Lemma run_node_answers cfg ops nd0 d0 p :
  live nd0 d0 {[ p := [] ]} → within_limits cfg ops nd0 d0 = true →
  ∃ nd d' kept, run_node cfg ops nd0 d0 = (nd, d') ∧
    (∀ x, x ∈ kept → x ∈ accepted nd0 ops) ∧
    (∀ x, x ∈ accepted nd0 ops → x ∈ kept ∨ expired cfg nd0 ops x) ∧
    ∀ q ast took, id_consistent (accepted nd0 ops) → 0 ≤ Limit q → 0 ≤ Offset q →
      Parse (QueryString q) = Ok ast →
      bloomEnabled (nd_manager nd0) = false ∨ (∀ n, ast = Some n → bloom_safe (accepted nd0 ops) n) →
      Execute (nd_index nd) (nd_manager nd) None None took q d' = (Ok (answer q ast kept took), d').
Proof.
  intros Hlive Hlim. destruct (run_node_live cfg ops nd0 d0 _ Hlive Hlim)
    as (nd & d' & segs & Hrun & (Hn' & Hinv & Hd) & (_ & _ & Hbe' & _) & Hsub & _ & Hacc).
  assert (∀ x, x ∈ entries_of segs → x ∈ accepted nd0 ops) as Hin.
  { intros x Hx. by eapply only_accepted, Hsub. }
  exists nd, d', (entries_of segs). split_and!; try done.
  intros q ast took Hc Hl Ho Hp Hb. apply (store_answers _ _ _ _ (accepted nd0 ops)); try done. by rewrite Hbe'.
Qed.

(** ** Properties *)

(** C7. A node keeps its promises for life: on a disk without faults, booted on an empty
    directory it starts; after any sequence of writes, replicated entries, merge passes,
    retention passes and restarts within the integer limits, the entries it answers from are
    all accepted ones, an accepted entry is missing only if a later retention pass had it past
    the cutoff, and, where entries of one ID are one entry, every query for which the filters
    are off or safe returns exactly the page and total of a scan of them. *)
Theorem node_keeps_accepted (dir : string) (maxBytes : Z) (id : string) (bloom_env : bool)
    (totalShards : Z) (repl : option (gmap string (list Replicator.replicaJob)))
    (cfg : CompactorConfig) (ops : list node_op) (d : Disk) :
  no_faults d → empty_dir dir d →
  ∃ nd0 d0, boot dir maxBytes id bloom_env totalShards repl d = (Ok nd0, d0) ∧
  (within_limits cfg ops nd0 d0 = true →
   ∃ nd d' kept, run_node cfg ops nd0 d0 = (nd, d') ∧
    (∀ x, x ∈ kept → x ∈ accepted nd0 ops) ∧
    (∀ x, x ∈ accepted nd0 ops → x ∈ kept ∨ expired cfg nd0 ops x) ∧
    ∀ q ast took, id_consistent (accepted nd0 ops) → 0 ≤ Limit q → 0 ≤ Offset q →
      Parse (QueryString q) = Ok ast →
      bloom_env = false ∨ (∀ n, ast = Some n → bloom_safe (accepted nd0 ops) n) →
      Execute (nd_index nd) (nd_manager nd) None None took q d' = (Ok (answer q ast kept took), d')).
Proof.
  intros Hn He. destruct (boot_live dir maxBytes id bloom_env totalShards repl d Hn He)
    as (nd0 & d0 & Hboot & Hlive & _ & _ & Hbe).
  exists nd0, d0. split; [done|]. rewrite <- Hbe. by apply run_node_answers with (seq_path dir 1).
Qed.
End node_lemmas.

(** ** Witnesses *)

Definition life_pb (id msg : string) (ts : Z) : Pb.LogEntry :=
  Pb.mkLogEntry id ts 0 "api" "INFO" msg ∅ "".
Definition no_call (addr : string) (ctx : Context) (pb : Pb.LogEntry) : result IngestResponse :=
  Err (grpc_Status codes_Unavailable "unreachable").

(** Two writes with a small threshold so that the second rotates, a restart, a third
    write, a merge pass and another restart. *)
Definition life : list node_op :=
  [ OpIngest None no_call Background 10 "g1" (Some (life_pb "a" "disk full" 1));
    OpIngest None no_call Background 20 "g2" (Some (life_pb "" "disk ok" 2));
    OpRestart;
    OpReplicate None (Some (life_pb "c" "net down" 3)) 0;
    OpMerge;
    OpRestart ].

(** Switching filters off and on again can lose results: with filters disabled a merge
    leaves the sidecar of its first segment as it was, and when filters are enabled again
    startup loads it for the merged segment. Both entries are on disk, and the query
    [down] finds nothing. *)
Theorem bloom_toggle_loses :
  let H1 := ascii_tables in let H2 := bit_codec in let H3 := exact_bloom in
  let write pb := OpIngest None no_call Background 10 "g" (Some pb) in
  match boot "data" 1000 "n1" true 0 None (mkDisk ∅ []) with
  | (Ok nd, d) =>
    let '(nd, d) := run_node DefaultCompactorConfig
      [write (life_pb "a" "disk full" 1); write (life_pb "b" "net down" 2); write (life_pb "c" "ok" 3)] nd d in
    let '(r, d) := start_node "data" 1000 "n1" false d in
    let '(nd, d) := run_node_op DefaultCompactorConfig OpMerge (restarted nd r) d in
    let '(r, d) := start_node "data" 1000 "n1" true d in
    let nd := restarted nd r in
    (ID <$> match (ReadSegments (paths (nd_manager nd)) d).1 with Ok es => es | Err _ => [] end)
      = ["a"; "b"; "c"] ∧
    (Execute (nd_index nd) (nd_manager nd) None None 0 (sample_query "down") d).1
      = Ok (mkQueryResult [] 0 0 false)
  | _ => False
  end.
Proof. vm_compute. split; reflexivity. Qed.

Lemma node_keeps_accepted_witness :
  let H1 := ascii_tables in let H2 := bit_codec in let H3 := exact_bloom in
  ∃ nd0 d0, boot "data" 1000 "n1" true 0 None (mkDisk ∅ []) = (Ok nd0, d0) ∧
    within_limits DefaultCompactorConfig life nd0 d0 = true ∧
    ∃ nd d' kept, run_node DefaultCompactorConfig life nd0 d0 = (nd, d') ∧
      (∀ x, x ∈ kept → x ∈ accepted nd0 life) ∧
      (∀ x, x ∈ accepted nd0 life → x ∈ kept ∨ expired DefaultCompactorConfig nd0 life x) ∧
      Execute (nd_index nd) (nd_manager nd) None None 0 (sample_query "") d'
      = (Ok (answer (sample_query "") None kept 0), d').
Proof.
  intros H1 H2 H3.
  destruct (@node_keeps_accepted ascii_tables ascii_tables_laws bit_codec bit_codec_laws exact_bloom
    exact_bloom_laws "data" 1000 "n1" true 0 None DefaultCompactorConfig life (mkDisk ∅ []))
    as (nd0 & d0 & Hboot & Hlife); [done|by split|].
  exists nd0, d0. split; [exact Hboot|].
  assert (match @boot ascii_tables bit_codec exact_bloom "data" 1000 "n1" true 0 None (mkDisk ∅ []) with
          | (Ok nd, d) => @within_limits ascii_tables bit_codec exact_bloom DefaultCompactorConfig life nd d
          | _ => false end = true) as Hlim by (vm_compute; reflexivity).
  rewrite Hboot in Hlim. split; [exact Hlim|].
  destruct (Hlife Hlim) as (nd & d' & kept & Hrun & Hsub & Hall & Hq).
  exists nd, d', kept. split; [exact Hrun|]. split; [exact Hsub|]. split; [exact Hall|].
  assert (nd_id nd0 = "n1" ∧ nd_totalShards nd0 = 0) as [Hid Ht].
  { revert Hboot. unfold boot. rewrite bind_run. destruct (start_node _ _ _ _ _) as [[[m idx]|e] d1]; cbn; [|done].
    by intros [= <- _]. }
  apply Hq; [|done|done|done|right; done].
  assert (accepted nd0 life = [stamp 10 "g1" (life_pb "a" "disk full" 1); stamp 20 "g2" (life_pb "" "disk ok" 2);
    ProtoToEntry (life_pb "c" "net down" 3)]) as ->.
  { unfold accepted, life. cbn. unfold replica_accepts. by rewrite Ht. }
  intros x y Hx Hy. rewrite !elem_of_cons in Hx, Hy.
  destruct Hx as [->|[->|[->|[]%not_elem_of_nil]]], Hy as [->|[->|[->|[]%not_elem_of_nil]]]; vm_compute; congruence.
Defined.
