(* ===== verification/Catchup.v ===== *)
(** * Catch-up of a restarted replica ([internal/ingest/catchup.go])

    A node that joins fetches, for every shard it replicates, first the closed segments
    of the primary it does not have and then the entries received since its newest one.
    The primary's answers are arguments; the theorems instantiate them with the
    handlers of [Ingest]. *)

From S2P Require Import Prelude GoStrings Observability Types Record Disk Segment Ranking Index Parser Bloom.
From S2P Require Import Paths Manager Executor Recovery Fsm Ingest Compaction Node.

Section catchup.
Context `{GoUnicode} `{Protobuf} `{Bloom}.

(** A server stream as [Recv] sees it: the chunks, then [io.EOF] or an error. *)
Record stream := mkStream {
  st_chunks : list (list byte);
  st_err : option GoError;
}.

(** The connection to the primary: the calls by the fields of their requests, in which the
    shard is an [int32]. *)
Record ingest_client := mkClient {
  cl_ListSegments : Z → result (list string);
  cl_TransferSegment : string → Z → result stream;
  cl_FetchShardEntries : Z → Z → result (list Pb.LogEntry);
}.

(** [LatestReceivedAtForShard]. *)
Definition LatestReceivedAtForShard (shardID : Z) (nd : StorageNode) : IO Z :=
  r ← ReadSegments (SegmentPaths (nd_manager nd));
  mret match r with
       | Err _ => 0
       | Ok entries =>
         foldl (λ latest e, if in_shard nd shardID e && (latest <? ReceivedAt e) then ReceivedAt e else latest)
           0 entries
       end.

(** [localIDsAtOrAfterNs]; a nil map has no keys. *)
Definition localIDsAtOrAfterNs (shardID sinceNs : Z) (nd : StorageNode) : IO (gset string) :=
  r ← ReadSegments (SegmentPaths (nd_manager nd));
  mret match r with
       | Err _ => ∅
       | Ok entries =>
         list_to_set (ID <$> filter (λ e, in_shard nd shardID e = true ∧ sinceNs ≤ ReceivedAt e) entries)
       end.

(** The names of local closed segments that hold an entry of the shard. *)
Fixpoint covered_names (shardID : Z) (nd : StorageNode) (closed : list string) (local : gset string)
    : IO (gset string) :=
  match closed with
  | [] => mret local
  | p :: closed' =>
    r ← ReadSegments [p];
    covered_names shardID nd closed'
      match r with
      | Err _ => local
      | Ok entries =>
        if existsb (λ e, (nd_totalShards nd =? 0) || (entry_shard e (nd_totalShards nd) =? shardID)) entries
        then {[ filepath_Base p ]} ∪ local else local
      end
  end.

(** The receive loop: every chunk is written; whether all went well. *)
Fixpoint recv_loop (f : File) (chunks : list (list byte)) (err : option GoError) : IO (File * bool) :=
  match chunks with
  | [] => mret (f, match err with None => true | Some _ => false end)
  | chunk :: chunks' =>
    '(f, r) ← file_Write f chunk;
    match r with
    | Err _ => mret (f, false)
    | Ok _ => recv_loop f chunks' err
    end
  end.

(** One segment of the list: the node and the number of entries it indexed; [shardID] is the
    shard of the request. *)
Definition transfer_one (client : ingest_client) (shardID : Z) (name : string) (nd : StorageNode)
    : IO (StorageNode * nat) :=
  match cl_TransferSegment client name shardID with
  | Err _ => mret (nd, 0%nat)
  | Ok st =>
    let destPath := filepath_Join (mdir (nd_manager nd)) name in
    let tmp := destPath +:+ ".tmp" in
    r ← os_Create tmp;
    match r with
    | Err _ => mret (nd, 0%nat)
    | Ok f =>
      '(f, ok) ← recv_loop f (st_chunks st) (st_err st);
      s ← file_Sync f;
      _ ← file_Close f;
      if negb (ok && is_ok s) then _ ← os_Remove tmp; mret (nd, 0%nat) else
      r ← os_Rename tmp destPath;
      match r with
      | Err _ => _ ← os_Remove tmp; mret (nd, 0%nat)
      | Ok _ =>
        '(m, r) ← LoadSegment (nd_manager nd) destPath;
        let nd := with_store m (nd_index nd) nd in
        match r with
        | Err _ => mret (nd, 0%nat)
        | Ok _ =>
          r ← ReadSegments [destPath];
          mret match r with
               | Err _ => (nd, 0%nat)
               | Ok entries => (with_store m (add_entries destPath entries (nd_index nd)) nd, length entries)
               end
        end
      end
    end
  end.

Fixpoint transfer_loop (client : ingest_client) (shardID : Z) (activeName : string) (local : gset string)
    (names : list string) (appended : nat) (nd : StorageNode) : IO (StorageNode * nat) :=
  match names with
  | [] => mret (nd, appended)
  | name :: names' =>
    if decide (name ∈ local) then transfer_loop client shardID activeName local names' appended nd else
    if decide (name = activeName) then transfer_loop client shardID activeName local names' appended nd else
    '(nd, n) ← transfer_one client (int32 shardID) name nd;
    transfer_loop client shardID activeName local names' (appended + n) nd
  end.

(** [transferMissingSegments]. *)
Definition transferMissingSegments (client : ingest_client) (shardID : Z) (nd : StorageNode)
    : IO (StorageNode * nat) :=
  match cl_ListSegments client (int32 shardID) with
  | Err _ => mret (nd, 0%nat)
  | Ok names =>
    let activeName := ActiveSegmentName (nd_manager nd) in
    local ← covered_names shardID nd (ListClosedSegments (nd_manager nd)) ∅;
    transfer_loop client shardID activeName local names 0 nd
  end.

(** The entries of the response that are not known are appended; a failed append is
    skipped. *)
Fixpoint append_fetched (knownIDs : gset string) (pbs : list Pb.LogEntry) (appended : nat) (nd : StorageNode)
    : IO (StorageNode * nat) :=
  match pbs with
  | [] => mret (nd, appended)
  | pb :: pbs' =>
    if decide (Pb.Id pb ∈ knownIDs) then append_fetched knownIDs pbs' appended nd else
    '(nd, r) ← append_and_index "catch-up" (ProtoToEntry pb) nd;
    append_fetched knownIDs pbs' (match r with Ok _ => S appended | Err _ => appended end) nd
  end.

(** Phase 2 of [CatchUp] for one shard. *)
Definition catch_tail (client : ingest_client) (shardID : Z) (nd : StorageNode) : IO (StorageNode * nat) :=
  sinceNs ← LatestReceivedAtForShard shardID nd;
  knownIDs ← localIDsAtOrAfterNs shardID sinceNs nd;
  match cl_FetchShardEntries client (int32 shardID) sinceNs with
  | Err _ => mret (nd, 0%nat)
  | Ok pbs => append_fetched knownIDs pbs 0 nd
  end.

(** [CatchUp]; [shards] is the shard map in the order its iteration takes, [dial] the
    connection to an address. *)
Fixpoint CatchUp (dial : string → result ingest_client) (nodes : gmap string Fsm.NodeRecord)
    (shards : list (Z * Fsm.ShardRecord)) (appended : nat) (nd : StorageNode) : IO (StorageNode * nat) :=
  match shards with
  | [] => mret (nd, appended)
  | (shardID, sr) :: shards' =>
    if decide (Fsm.s_ReplicaNode sr ≠ nd_id nd) then CatchUp dial nodes shards' appended nd else
    let primaryAddr := match nodes !! Fsm.s_PrimaryNode sr with
                       | Some n => Fsm.n_Address n | None => "" end in
    if decide (primaryAddr = "") then CatchUp dial nodes shards' appended nd else
    match dial primaryAddr with
    | Err _ => CatchUp dial nodes shards' appended nd
    | Ok client =>
      '(nd, n1) ← transferMissingSegments client shardID nd;
      '(nd, n2) ← catch_tail client shardID nd;
      CatchUp dial nodes shards' (appended + n1 + n2) nd
    end
  end.

(** ** Specification *)

(** The handlers of a running node as a client sees them. *)
Definition serve (pnd : StorageNode) (pd : Disk) : ingest_client :=
  mkClient
    (λ shardID, Ok (ListSegments pnd shardID pd).1)
    (λ name shardID,
       let '(chunks, r) := (TransferSegment pnd (λ _, None) name shardID pd).1 in
       Ok (mkStream chunks match r with Ok _ => None | Err e => Some e end))
    (λ shardID since, (FetchShardEntries pnd shardID since pd).1).

(** Every fetched entry fits. *)
Fixpoint fetched_fit (knownIDs : gset string) (pbs : list Pb.LogEntry) (nd : StorageNode) (d : Disk) : bool :=
  match pbs with
  | [] => true
  | pb :: pbs' =>
    if decide (Pb.Id pb ∈ knownIDs) then fetched_fit knownIDs pbs' nd d
    else entry_fits (nd_manager nd) (ProtoToEntry pb)
         && (let '((nd', _), d') := append_and_index "catch-up" (ProtoToEntry pb) nd d in
             fetched_fit knownIDs pbs' nd' d')
  end.
End catchup.

(** ** Lemmas: catch-up touches only the store *)

Section wiring.
Context `{GoUnicode} `{Protobuf} `{Bloom}.
Implicit Types (nd : StorageNode).

Definition same_wiring nd nd' : Prop :=
  nd_id nd' = nd_id nd ∧ nd_totalShards nd' = nd_totalShards nd ∧ nd_replicator nd' = nd_replicator nd.
Definition rewires_nothing {A} (m : IO (StorageNode * A)) nd : Prop := ∀ d, same_wiring nd (m d).1.1.

Lemma wiring_refl nd : same_wiring nd nd.
Proof. done. Qed.
Lemma wiring_ret {A} nd nd' (a : A) : same_wiring nd nd' → rewires_nothing (mret (nd', a)) nd.
Proof. by intros ? d. Qed.
Lemma wiring_any {A B} (m : IO B) (k : B → IO (StorageNode * A)) nd :
  (∀ x, rewires_nothing (k x) nd) → rewires_nothing (m ≫= k) nd.
Proof. intros Hk d. rewrite bind_run. apply Hk. Qed.
Lemma wiring_bind {A B} (m : IO (StorageNode * B)) (k : StorageNode * B → IO (StorageNode * A)) nd :
  rewires_nothing m nd → (∀ nd' b, rewires_nothing (k (nd', b)) nd') → rewires_nothing (m ≫= k) nd.
Proof.
  intros Hm Hk d. rewrite bind_run. specialize (Hm d). destruct (m d) as [[nd' b] d']. cbn [fst snd] in *.
  specialize (Hk nd' b d'). destruct Hm as (? & ? & ?), Hk as (? & ? & ?). split_and!; congruence.
Qed.

Lemma transfer_one_wiring client shardID name nd : rewires_nothing (transfer_one client shardID name nd) nd.
Proof.
  unfold transfer_one. destruct (cl_TransferSegment _ _ _) as [st|e]; [|by apply wiring_ret].
  apply wiring_any. intros [f|e]; [|by apply wiring_ret]. apply wiring_any. intros [f' ok].
  do 2 (apply wiring_any; intros ?). destruct (negb _); [apply wiring_any; intros ?; by apply wiring_ret|].
  apply wiring_any. intros [[]|e]; [|apply wiring_any; intros ?; by apply wiring_ret].
  apply wiring_any. intros [m [u|e]]; [|by apply wiring_ret].
  apply wiring_any. intros [es|e]; by apply wiring_ret.
Qed.

Lemma transfer_loop_wiring client shardID active local names appended nd :
  rewires_nothing (transfer_loop client shardID active local names appended nd) nd.
Proof.
  revert appended nd. induction names as [|name names IH]; intros appended nd; [by apply wiring_ret|].
  cbn [transfer_loop]. do 2 (destruct (decide _) as [_|_]; [apply IH|]).
  apply wiring_bind; [apply transfer_one_wiring|]. intros nd' n. apply IH.
Qed.

Lemma append_fetched_wiring known pbs appended nd : rewires_nothing (append_fetched known pbs appended nd) nd.
Proof.
  revert appended nd. induction pbs as [|pb pbs IH]; intros appended nd; [by apply wiring_ret|].
  cbn [append_fetched]. destruct (decide _); [apply IH|]. apply wiring_bind; [|intros nd' r; apply IH].
  unfold append_and_index. apply wiring_any. intros [m [p|e]]; by apply wiring_ret.
Qed.

Lemma CatchUp_wiring dial nodes shards appended nd : rewires_nothing (CatchUp dial nodes shards appended nd) nd.
Proof.
  revert appended nd. induction shards as [|[j sr] shards IH]; intros appended nd; [by apply wiring_ret|].
  cbn [CatchUp]. do 2 (destruct (decide _) as [_|_]; [apply IH|]). destruct (dial _) as [client|e]; [|apply IH].
  apply wiring_bind; [|intros nd1 n1; apply wiring_bind; [|intros nd2 n2; apply IH]].
  - unfold transferMissingSegments. destruct (cl_ListSegments _ _) as [names|e]; [|by apply wiring_ret].
    apply wiring_any. intros local. apply transfer_loop_wiring.
  - unfold catch_tail. do 2 (apply wiring_any; intros ?).
    destruct (cl_FetchShardEntries _ _ _) as [pbs|e]; [apply append_fetched_wiring|by apply wiring_ret].
Qed.
End wiring.

(** ** Lemmas *)

Section catchup_lemmas.
Context `{GoUnicodeLaws} `{ProtobufLaws} `{BloomLaws}.
Implicit Types (nd : StorageNode) (d : Disk).

(** What a node reads from all its segments is what it stores. *)
Lemma read_all nd d segs :
  live nd d segs → ∃ es, ReadSegments (SegmentPaths (nd_manager nd)) d = (Ok es, d) ∧
    ∀ x, x ∈ es ↔ x ∈ entries_of segs.
Proof.
  intros (Hn & Hinv & _).
  destruct (pruned_holds (nd_index nd) (nd_manager nd) d segs (paths (nd_manager nd))) as (es & Hes & Hin).
  { by apply store_inv_ok. }
  { intros p Hp. by apply (si_dom _ _ _ _ Hinv). }
  exists es. split; [by apply ReadSegments_holds_all|]. intros x. rewrite Hin, elem_of_entries_of.
  split; [naive_solver|]. intros (p & es' & Hp & Hx). exists p, es'. split; [|done].
  apply (si_dom _ _ _ _ Hinv). eauto.
Qed.

(** The watermark is 0 or the receive time of a local entry, and no entry is newer. *)
Lemma latest_spec (f : LogEntry → bool) es acc :
  let latest := foldl (λ l e, if f e && (l <? ReceivedAt e) then ReceivedAt e else l) acc es in
  (latest = acc ∨ ∃ y, y ∈ es ∧ f y = true ∧ ReceivedAt y = latest) ∧ acc ≤ latest ∧
  ∀ y, y ∈ es → f y = true → ReceivedAt y ≤ latest.
Proof.
  revert acc. induction es as [|e es IH]; intros acc; cbn [foldl].
  { split_and!; [by left|lia|]. by intros y ?%not_elem_of_nil. }
  set (acc' := if f e && (acc <? ReceivedAt e) then ReceivedAt e else acc).
  assert (acc ≤ acc' ∧ (f e = true → ReceivedAt e ≤ acc') ∧
    (acc' = acc ∨ (f e = true ∧ acc' = ReceivedAt e))) as (A1 & A2 & A3).
  { subst acc'. destruct (f e); cbn [andb]; [|split_and!; [lia|done|by left]].
    destruct (Z.ltb_spec acc (ReceivedAt e)); split_and!; auto; lia. }
  destruct (IH acc') as (I1 & I2 & I3). split_and!.
  - destruct I1 as [I1|(y & Hy & Hf & Hr)]; [|right; exists y; split; [by right|done]].
    destruct A3 as [A3|[Hf A3]]; [left; congruence|right]. exists e. split; [by left|]. split; [done|congruence].
  - lia.
  - intros y [->|Hy]%elem_of_cons Hf; [|by apply I3]. specialize (A2 Hf). lia.
Qed.

Lemma append_fetched_live known pbs n nd d segs :
  live nd d segs → fetched_fit known pbs nd d = true →
  ∃ nd' d' segs', append_fetched known pbs n nd d
      = ((nd', (n + length (filter (λ pb, Pb.Id pb ∉ known) pbs))%nat), d') ∧
    live nd' d' segs' ∧ same_node nd nd' ∧
    ∀ x, x ∈ entries_of segs' ↔ x ∈ entries_of segs ∨
      ∃ pb, pb ∈ pbs ∧ Pb.Id pb ∉ known ∧ x = ProtoToEntry pb.
Proof.
  revert n nd d segs. induction pbs as [|pb pbs IH]; intros n nd d segs Hlive Hfit; cbn [append_fetched].
  { exists nd, d, segs. cbn. rewrite Nat.add_0_r. split_and!; try done. intros x. split; [by left|].
    intros [?|(? & ?%not_elem_of_nil & _)]; done. }
  cbn [fetched_fit] in Hfit. rewrite filter_cons. destruct (decide (Pb.Id pb ∈ known)) as [Hk|Hk].
  - rewrite decide_False by (by intros ?). destruct (IH n nd d segs Hlive Hfit) as (nd' & d' & segs' & -> & ? & ? & Hin).
    exists nd', d', segs'. split_and!; try done. intros x. rewrite Hin. setoid_rewrite elem_of_cons. naive_solver.
  - rewrite decide_True by done. apply andb_true_iff in Hfit as [[data Hcan]%entry_fits_can Hfit].
    destruct (append_and_index_live nd d segs _ data "catch-up" Hlive Hcan)
      as (nd1 & d1 & p & Heq & Hl1 & (Hs1 & Hs2 & Hs3 & Hs4)). rewrite Heq in Hfit.
    destruct (IH (S n) nd1 d1 (appended p (ProtoToEntry pb) segs) Hl1 Hfit)
      as (nd' & d' & segs' & Hrun & Hl' & (? & ? & ? & ?) & Hin).
    exists nd', d', segs'. split; [io; rewrite Heq; io; rewrite Hrun; cbn [length]; by rewrite Nat.add_succ_comm|].
    split; [done|]. split; [split_and!; congruence|].
    intros x. rewrite Hin, entries_of_appended. setoid_rewrite elem_of_cons. naive_solver.
Qed.

(** ** Lemmas: transferred segments *)

Lemma recv_loop_done f chunks content d :
  no_faults d → files d !! f_path f = Some content → f_off f = Some (length content) →
  ∃ f', recv_loop f chunks None d
    = ((f', true), mkDisk (<[f_path f := content ++ mjoin chunks]> (files d)) (sched d)) ∧ is_Some (f_off f').
Proof.
  revert f content d. induction chunks as [|c chunks IH]; intros f content d Hn Hf Hpos; cbn [recv_loop].
  { exists f. cbn. rewrite app_nil_r, insert_id by done. destruct d. eauto. }
  unfold file_Write. rewrite Hpos. io. rewrite Hf. cbn [default from_option id]. rewrite write_at_end.
  destruct (IH (mkFile (f_path f) (length content + length c)) (content ++ c)
    (mkDisk (<[f_path f := content ++ c]> (files d)) (sched d))) as (f' & Hrun & Hoff).
  { done. }
  { cbn. by rewrite lookup_insert_eq. }
  { cbn. by rewrite length_app. }
  exists f'. split; [|done]. rewrite Hrun. cbn. by rewrite insert_insert_eq, <- app_assoc.
Qed.

(** A transfer up to the loading of the new file. *)
Lemma transfer_one_done nd pnd name shardID d pd bytes es :
  let dest := filepath_Join (mdir (nd_manager nd)) name in
  let mine := filter (λ e, in_shard pnd shardID e = true) es in
  no_faults d → no_faults pd → bad_segment_name name = false →
  name ≠ ActiveSegmentName (nd_manager pnd) →
  files pd !! filepath_Join (mdir (nd_manager pnd)) name = Some bytes → holds bytes es → mine ≠ [] →
  ∃ content, holds content mine ∧
    let d' := mkDisk (<[dest := content]> (delete (dest +:+ ".tmp") (files d))) (sched d) in
    ∀ m', LoadSegment (nd_manager nd) dest d' = ((m', Ok ()), d') →
      transfer_one (serve pnd pd) shardID name nd d
      = ((with_store m' (add_entries dest mine (nd_index nd)) nd, length mine), d').
Proof.
  intros dest mine Hn Hnp Hname Hact Hf Hh Hmine.
  destruct (transfer_done pnd name shardID pd bytes es) as (chunks & Htr & _ & Hholds); try done. fold mine in Hholds.
  exists (mjoin chunks). split; [done|]. intros d' m' Hload. set (tmp := dest +:+ ".tmp").
  set (d1 := mkDisk (delete tmp (files d)) (sched d)).
  unfold transfer_one. cbn [serve cl_TransferSegment]. rewrite Htr. cbn [fst st_chunks st_err]. fold dest tmp.
  unfold os_Create. io.
  destruct (recv_loop_done (mkFile tmp 0) chunks [] (mkDisk (<[tmp := []]> (files d)) (sched d))) as (f' & Hrecv & [off Hoff]);
    [done|cbn; by rewrite lookup_insert_eq|done|].
  rewrite Hrecv. io. unfold file_Sync, file_Close, on_open. rewrite Hoff. io. cbn [is_ok andb negb]. unfold os_Rename. io.
  rewrite lookup_insert_eq. io. cbn [app]. rewrite !insert_insert_eq, delete_insert_eq. fold d1.
  change (delete tmp (files d)) with (files d1). change (sched d) with (sched d1). change (LoadSegment _ _ _) with (LoadSegment (nd_manager nd) dest d'). rewrite Hload. io.
  rewrite (ReadSegments_holds_all _ [dest] mine) by (done || (rewrite <- (app_nil_r mine);
    eapply holds_all_cons; [cbn; by rewrite lookup_insert_eq|done|constructor])).
  by io.
Qed.

(** Loading a file that no later segment can collide with. *)
Lemma LoadSegment_live nd d segs path bytes es :
  live nd d segs → in_dir_seg (mdir (nd_manager nd)) path = true → files d !! path = None →
  files d !! BloomPath path = None → holds bytes es →
  (∀ n, path_seq path = Some n → n < nextSeq (nd_manager nd)) →
  let d' := mkDisk (<[path := bytes]> (files d)) (sched d) in
  ∃ m', LoadSegment (nd_manager nd) path d' = ((m', Ok ()), d') ∧
    live (with_store m' (add_entries path es (nd_index nd)) nd) d' (<[path := es]> segs).
Proof.
  intros (Hn & [Hok Hdom Hsf Hi] & Hd) Hdir Hnew Hside Hh Hseq d'. set (m := nd_manager nd) in *.
  pose proof Hok as [(seg & b & Ha & Hl & Hat) Hnd Hf Hfr Hsq Hnm Hb].
  pose proof Hd as [Dp (k & Dk & Dl & Dm) Ds Dsd Db].
  destruct (proj1 (last_Some _ _) Hl) as [ps Hps]. set (act := f_path (seg_file seg)) in *.
  pose proof (in_dir_seg_suffix _ _ Hdir) as Hseg.
  assert (path ∉ paths m) as Hnot.
  { intros Hin. apply Dp in Hin as [_ [? E]]. by rewrite Hnew in E. }
  assert (∀ q, q ≠ path → files d' !! q = files d !! q) as Hsame by (intros q Hq; cbn; by rewrite lookup_insert_ne).
  assert (files d' !! path = Some bytes) as Hpath by (cbn; by rewrite lookup_insert_eq).
  set (m' := with_paths (ps ++ [path] ++ [act]) m).
  assert (LoadSegment m path d' = ((m', Ok ()), d')) as Hload.
  { unfold LoadSegment. rewrite Hl, Hps, length_app. cbn [length].
    replace (length ps + 1 - 1)%nat with (length ps) by lia. rewrite take_app_length. fold m'.
    cbn [bloomEnabled with_paths m']. destruct (bloomEnabled m); [|done]. io.
    unfold ReadBloom, os_Open. io. rewrite Hsame by (by apply bloom_ne_seg). rewrite Hside. by io. }
  assert (∀ p, p ∈ ps ++ [path] ++ [act] ↔ p = path ∨ p ∈ paths m) as Hin by (intros p; rewrite Hps; set_solver).
  assert (last (ps ++ [path] ++ [act]) = last (paths m)) as Hlast by (rewrite Hl, app_assoc; apply last_snoc).
  assert (seq_path (mdir m) k ≠ path) as Hkp by (intros <-; apply Hnot; by apply last_Some_elem_of).
  exists m'. split; [done|]. split; [done|]. split; [split|].
  - split; cbn [active paths nextSeq mdir blooms m' with_paths nd_manager with_store].
    + exists seg, b. rewrite Hlast. split; [done|]. split; [done|]. destruct Hat as (Hfile & Hrest).
      split; [|done]. rewrite Hsame; [done|]. fold act. intros E. apply Hnot. rewrite <- E. by apply last_Some_elem_of.
    + rewrite Hps in Hnd, Hnot. apply NoDup_app in Hnd as (Hn1 & Hn2 & _).
      apply NoDup_app. split; [done|]. split; [|apply NoDup_cons; split; [set_solver|apply NoDup_singleton]].
      intros x Hx. specialize (Hn2 x Hx). set_solver.
    + intros p [->|Hp]%Hin; [eauto|]. rewrite Hsame by (by intros ->). by apply Hf.
    + intros n Hr. destruct (Hfr n Hr) as [Hn1 Hn2].
      assert (seq_path (mdir m) n ≠ path) as Hne.
      { intros <-. specialize (Hseq n). rewrite path_seq_seq_path in Hseq by lia. specialize (Hseq eq_refl). lia. }
      split; [rewrite Hin; naive_solver|]. by rewrite Hsame.
    + done.
    + intros p [->|Hp]%Hin; [done|by apply Hnm].
    + intros p bf Hp. destruct (Hb p bf Hp) as (H1' & H2' & H3'). rewrite Hin, Hlast.
      split; [by right|]. split; [done|]. rewrite Hsame; [done|]. by intros ->.
  - intros p. cbn [paths m' with_paths nd_manager with_store]. rewrite Hin, <- Hdom.
    destruct (decide (p = path)) as [->|Hne]; [rewrite lookup_insert_eq; naive_solver|].
    rewrite lookup_insert_ne by done. naive_solver.
  - intros p es' Hp. destruct (decide (p = path)) as [->|Hne].
    + rewrite lookup_insert_eq in Hp. injection Hp as <-. eauto.
    + rewrite lookup_insert_ne in Hp by done. rewrite Hsame by done. by apply Hsf.
  - cbn [nd_index with_store]. eapply Represents_ext; [|by apply add_entries_represents]. intros [x p].
    rewrite elem_of_app, !elem_of_pairs_of. unfold tagged. rewrite list_elem_of_fmap.
    destruct (decide (p = path)) as [->|Hne].
    + rewrite lookup_insert_eq. assert (segs !! path = None) as Hnone.
      { destruct (segs !! path) eqn:E; [|done]. exfalso. apply Hnot, Hdom. eauto. }
      rewrite Hnone. naive_solver.
    + rewrite lookup_insert_ne by done. naive_solver.
  - cbn [nd_manager with_store]. split; cbn [paths mdir bloomEnabled blooms m' with_paths].
    + intros p. rewrite Hin, Dp. destruct (decide (p = path)) as [->|Hne]; [rewrite Hpath; naive_solver|].
      rewrite Hsame by done. naive_solver.
    + exists k. rewrite Hlast. split; [done|]. split; [done|]. rewrite Hsame; [done|]. by apply marker_ne_seg.
    + intros p n [->|Hp]%Hin Hpn; [|by eapply Ds]. specialize (Hseq n Hpn). lia.
    + intros p fb bf Hp Hfb Hr. rewrite Hsame in Hfb by (by apply bloom_ne_seg).
      assert (p ≠ path) as Hne by (intros ->; congruence).
      destruct (Dsd p fb bf Hp Hfb Hr) as (H1' & H2' & H3'). rewrite Hin, Hlast, Hsame by done. auto.
    + destruct Db as [?|[? Hno]]; [by left|right]. split; [done|]. intros p Hp.
      rewrite Hsame by (by apply bloom_ne_seg). by apply Hno.
Qed.

Lemma good_name_join dir name :
  bad_segment_name name = false →
  in_dir_seg dir (filepath_Join dir name) = true ∧ filepath_Base (filepath_Join dir name) = name.
Proof.
  unfold bad_segment_name. intros [[[Hs _]%orb_false_iff _]%orb_false_iff Hsuf%negb_false_iff]%orb_false_iff.
  assert (plain_name name) as Hp by (split_and!; try (by intros ->); done).
  assert (filepath_Base (filepath_Join dir name) = name) as Hbase by (by apply Base_Join).
  split; [|done]. unfold in_dir_seg. rewrite Hbase, bool_decide_true, andb_true_r by done.
  rewrite Join_plain, HasSuffix_skip; [done| |done].
  unfold HasSuffix in Hsuf. by apply andb_true_iff in Hsuf as [Hl%bool_decide_eq_true _].
Qed.

(** ** Properties *)

(** C30. A missing segment is transferred exactly: for a closed segment of the primary with
    entries of the shard, whose name is free at the replica and below its next sequence
    number, phase 1 of catch-up stores exactly the shard's entries under that name and
    indexes them, and the replica stays in step with its directory. *)
Theorem catchup_segment_exact (nd pnd : StorageNode) (d pd : Disk) (segs : gmap string (list LogEntry))
    (name : string) (shardID : Z) (bytes : list byte) (es : list LogEntry) :
  let dest := filepath_Join (mdir (nd_manager nd)) name in
  let mine := filter (λ e, in_shard pnd shardID e = true) es in
  live nd d segs → no_faults pd → bad_segment_name name = false →
  name ≠ ActiveSegmentName (nd_manager pnd) →
  files pd !! filepath_Join (mdir (nd_manager pnd)) name = Some bytes → holds bytes es → mine ≠ [] →
  files d !! dest = None → files d !! BloomPath dest = None →
  (∀ n, path_seq dest = Some n → n < nextSeq (nd_manager nd)) →
  ∃ nd' d', transfer_one (serve pnd pd) shardID name nd d = ((nd', length mine), d') ∧
    live nd' d' (<[dest := mine]> segs).
Proof.
  intros dest mine Hlive Hnp Hname Hact Hf Hh Hmine Hfree Hside Hseq. pose proof Hlive as (Hn & _).
  destruct (transfer_one_done nd pnd name shardID d pd bytes es) as (content & Hholds & Htr); try done.
  fold dest mine in Hholds, Htr. cbv zeta in Htr.
  destruct (good_name_join (mdir (nd_manager nd)) name Hname) as [Hdir _]. fold dest in Hdir.
  pose proof (in_dir_seg_suffix _ _ Hdir) as Hseg.
  set (tmp := dest +:+ ".tmp"). set (d1 := mkDisk (delete tmp (files d)) (sched d)).
  assert (∀ q, HasSuffix q ".tmp" = false → files d1 !! q = files d !! q) as Hd1.
  { intros q Hq. cbn. apply lookup_delete_ne. by apply bloom_tmp_eq. }
  assert (live nd d1 segs) as Hlive1.
  { destruct Hlive as (_ & Hinv & Hd). split; [done|]. by apply live_ext with d. }
  destruct (LoadSegment_live nd d1 segs dest content mine Hlive1 Hdir) as (m' & Hload & Hlive'); try done.
  { rewrite Hd1; [done|by apply seg_not_tmp]. }
  { rewrite Hd1; [done|apply bloom_suffix]. }
  eexists _, _. split; [by apply Htr|exact Hlive'].
Qed.

(** The tail of a replica is caught up: when the primary serves the shard from its
    segments, phase 2 of catch-up keeps the replica in step, adds only entries of the
    primary's shard, and, provided the replica lacked no entry received before its newest
    one, leaves it with an entry of every ID the primary has for the shard. *)
Theorem catchup_tail_complete (nd pnd : StorageNode) (d pd : Disk) (segs : gmap string (list LogEntry))
    (pes : list LogEntry) (shardID since : Z) (known : gset string) (pbs : list Pb.LogEntry) :
  live nd d segs → no_faults pd → stored (nd_manager pnd) pd pes → in_int32 shardID →
  nd_totalShards pnd = nd_totalShards nd → (∀ x, x ∈ pes → 0 ≤ ReceivedAt x) →
  LatestReceivedAtForShard shardID nd d = (since, d) →
  localIDsAtOrAfterNs shardID since nd d = (known, d) →
  cl_FetchShardEntries (serve pnd pd) shardID since = Ok pbs → fetched_fit known pbs nd d = true →
  ∃ nd' d' segs' n, catch_tail (serve pnd pd) shardID nd d = ((nd', n), d') ∧ live nd' d' segs' ∧
    (∀ x, x ∈ entries_of segs → x ∈ entries_of segs') ∧
    (∀ x, x ∈ entries_of segs' → x ∈ entries_of segs ∨ (x ∈ pes ∧ in_shard nd shardID x = true)) ∧
    ((∀ x y, x ∈ pes → in_shard nd shardID x = true → y ∈ entries_of segs → in_shard nd shardID y = true →
        ReceivedAt x < ReceivedAt y → ID x ∈ ID <$> entries_of segs) →
     ∀ x, x ∈ pes → in_shard nd shardID x = true → ID x ∈ ID <$> entries_of segs').
Proof.
  intros Hlive Hnp Hst Hint Htot Hpos Hlat Hloc Hfetch Hfit.
  destruct (append_fetched_live known pbs 0 nd d segs Hlive Hfit) as (nd' & d' & segs' & Hrun & Hl' & _ & Hin).
  exists nd', d', segs'. eexists. split.
  { unfold catch_tail. io. rewrite Hlat. io. rewrite Hloc. io. rewrite int32_small, Hfetch by done. exact Hrun. }
  assert (∀ e, in_shard pnd shardID e = in_shard nd shardID e) as Hsh by (intros e; unfold in_shard; by rewrite Htot).
  assert (∀ pb, pb ∈ pbs ↔ ∃ e, pb = EntryToProto e ∧ e ∈ pes ∧ in_shard nd shardID e = true ∧ since ≤ ReceivedAt e) as Hpbs.
  { revert Hfetch. unfold serve, cl_FetchShardEntries, FetchShardEntries. io.
    rewrite (ReadSegments_holds_all pd _ pes) by done. io. intros [= <-] pb. rewrite list_elem_of_fmap.
    setoid_rewrite merge_sort_Permutation. setoid_rewrite list_elem_of_filter. setoid_rewrite Hsh. naive_solver. }
  destruct (read_all nd d segs Hlive) as (es & Hread & Hes).
  unfold LatestReceivedAtForShard in Hlat. rewrite bind_run, Hread in Hlat. cbn in Hlat. injection Hlat as Hlat.
  pose proof (latest_spec (in_shard nd shardID) es 0) as Hspec. cbn zeta in Hspec. rewrite Hlat in Hspec.
  unfold localIDsAtOrAfterNs in Hloc. rewrite bind_run, Hread in Hloc. cbn in Hloc. injection Hloc as Hloc.
  split; [done|]. split; [intros x Hx; apply Hin; by left|]. split.
  - intros x Hx. apply Hin in Hx as [Hx|(pb & Hpb & _ & ->)]; [by left|right].
    apply Hpbs in Hpb as (e & -> & He & Hs & _). by rewrite ProtoToEntry_EntryToProto.
  - intros Hold x Hx Hs. destruct (Z.le_gt_cases since (ReceivedAt x)) as [Hle|Hgt].
    + destruct (decide (ID x ∈ known)) as [Hk|Hk].
      * rewrite <- Hloc in Hk. apply elem_of_list_to_set, list_elem_of_fmap in Hk as (y & -> & Hy).
        apply list_elem_of_filter in Hy as [_ Hy]. apply list_elem_of_fmap. exists y. split; [done|].
        apply Hin. left. by apply Hes.
      * apply list_elem_of_fmap. exists x. split; [done|]. apply Hin. right. exists (EntryToProto x).
        split; [apply Hpbs; eauto|]. split; [done|]. by rewrite ProtoToEntry_EntryToProto.
    + specialize (Hpos x Hx). destruct Hspec as ([->|(y & Hy & Hfy & Hr)] & _); [lia|].
      destruct (proj1 (list_elem_of_fmap _ _ _) (Hold x y Hx Hs (proj1 (Hes y) Hy) Hfy ltac:(lia))) as (z & -> & Hz).
      apply list_elem_of_fmap. exists z. split; [done|]. apply Hin. by left.
Qed.
(** A local segment of the same name with no entry of the shard does not count. *)
Lemma covered_names_misses shardID nd d segs name closed local :
  live nd d segs → 0 < nd_totalShards nd → (∀ p, p ∈ closed → p ∈ paths (nd_manager nd)) →
  (∀ es x, segs !! filepath_Join (mdir (nd_manager nd)) name = Some es → x ∈ es → in_shard nd shardID x = false) →
  name ∉ local → ∃ local', covered_names shardID nd closed local d = (local', d) ∧ name ∉ local'.
Proof.
  intros Hlive Htot Hsub Hno. pose proof Hlive as (Hn & Hinv & Hd). revert local Hsub.
  induction closed as [|p closed IH]; intros local Hsub Hloc; cbn [covered_names]; [by eexists|].
  assert (p ∈ paths (nd_manager nd)) as Hp by (apply Hsub; by left).
  destruct (proj2 (si_dom _ _ _ _ Hinv p) Hp) as [es Hes].
  destruct (si_files _ _ _ _ Hinv p es Hes) as (b & Hf & Hh).
  io. rewrite (ReadSegments_holds_all d [p] es) by (done || (rewrite <- (app_nil_r es);
    eapply holds_all_cons; [done|done|constructor])). io.
  apply IH; [intros q ?; apply Hsub; by right|]. destruct (existsb _ es) eqn:Hex; [|done].
  apply not_elem_of_union. split; [|done]. apply not_elem_of_singleton. intros ->.
  apply (dir_paths _ _ Hd) in Hp as [[_ Hp%bool_decide_eq_true]%andb_true_iff _]. rewrite Hp in Hno.
  apply existsb_exists in Hex as (x & Hx%list_elem_of_In & Hsh). specialize (Hno es x Hes Hx).
  unfold in_shard in Hno. rewrite (proj2 (Z.ltb_lt _ _)) in Hno by done.
  rewrite Hno, (proj2 (Z.eqb_neq _ _)) in Hsh by lia. done.
Qed.

Lemma LoadSegment_paths m path d :
  no_faults d → is_Some (last (paths m)) →
  ∃ m', LoadSegment m path d = ((m', Ok ()), d) ∧ ∀ p, p ∈ paths m' ↔ p = path ∨ p ∈ paths m.
Proof.
  intros Hn [act Hl]. unfold LoadSegment. rewrite Hl.
  assert (∀ p, p ∈ take (length (paths m) - 1) (paths m) ++ [path] ++ [act] ↔ p = path ∨ p ∈ paths m) as Hin.
  { apply last_Some in Hl as [ps ->]. intros p. rewrite length_app. cbn [length].
    replace (length ps + 1 - 1)%nat with (length ps) by lia. rewrite take_app_length. set_solver. }
  cbn [bloomEnabled with_paths]. destruct (bloomEnabled m); [|by eexists].
  destruct (ReadBloom_quiet d (BloomPath path) Hn) as [[bf|e] Hr]; io; rewrite Hr; io; by eexists.
Qed.

(** C38. Catch-up can destroy data: every node numbers its segment files for itself, a local file
    counts as the primary's segment of that name only if it has an entry of the shard, and a
    transferred file replaces the local one of the same name. So when the name of the
    primary's segment is that of a closed segment of the replica which holds other shards
    only, the transfer succeeds, and what the replica can read afterwards is the entries of
    the shard in the transferred segment and those of its other segments: nothing is left of
    the replaced one. *)
Theorem catchup_overwrites (nd pnd : StorageNode) (d pd : Disk) (segs : gmap string (list LogEntry))
    (name : string) (shardID : Z) (bytes : list byte) (es old : list LogEntry) :
  let dest := filepath_Join (mdir (nd_manager nd)) name in
  let mine := filter (λ e, in_shard pnd shardID e = true) es in
  live nd d segs → no_faults pd → bad_segment_name name = false → in_int32 shardID →
  (ListSegments pnd shardID pd).1 = [name] → name ≠ ActiveSegmentName (nd_manager pnd) →
  files pd !! filepath_Join (mdir (nd_manager pnd)) name = Some bytes → holds bytes es → mine ≠ [] →
  segs !! dest = Some old → name ≠ ActiveSegmentName (nd_manager nd) →
  0 < nd_totalShards nd → (∀ x, x ∈ old → in_shard nd shardID x = false) →
  ∃ nd' d' all, transferMissingSegments (serve pnd pd) shardID nd d = ((nd', length mine), d') ∧
    ReadSegments (SegmentPaths (nd_manager nd')) d' = (Ok all, d') ∧
    ∀ x, x ∈ all ↔ x ∈ mine ∨ ∃ p es', p ≠ dest ∧ segs !! p = Some es' ∧ x ∈ es'.
Proof.
  intros dest mine Hlive Hnp Hname Hint Hlist Hact Hf Hh Hmine Hold Hact' Htot Hno.
  pose proof Hlive as (Hn & Hinv & Hd).
  destruct (covered_names_misses shardID nd d segs name (ListClosedSegments (nd_manager nd)) ∅) as (local & Hcov & Hloc);
    [done|done| |by intros es' x; fold dest; rewrite Hold; intros [= <-]; apply Hno|set_solver|].
  { intros p Hp. by apply (closed_spec _ _ _ (si_mgr _ _ _ _ Hinv)) in Hp as [? _]. }
  destruct (transfer_one_done nd pnd name shardID d pd bytes es) as (content & Hholds & Htr); try done.
  fold dest mine in Hholds, Htr. cbv zeta in Htr. set (d' := mkDisk _ _) in Htr.
  destruct (ok_active _ _ (si_mgr _ _ _ _ Hinv)) as (seg & b & _ & Hl & _).
  destruct (LoadSegment_paths (nd_manager nd) dest d') as (m' & Hload & Hpaths); [done|by eexists|].
  destruct (files_hold (files d') (<[dest := mine]> segs) (paths m')) as (all & Hall & Hin).
  { intros p Hp. destruct (decide (p = dest)) as [->|Hne].
    - exists content, mine. cbn. by rewrite !lookup_insert_eq.
    - apply Hpaths in Hp as [?|Hp]; [done|]. destruct (proj2 (si_dom _ _ _ _ Hinv p) Hp) as [es' Hes'].
      destruct (si_files _ _ _ _ Hinv p es' Hes') as (b' & Hf' & Hh'). exists b', es'. cbn.
      pose proof (ok_names _ _ (si_mgr _ _ _ _ Hinv) p Hp) as Hseg.
      rewrite !lookup_insert_ne, lookup_delete_ne by (done || by apply bloom_tmp_eq, seg_not_tmp). done. }
  exists (with_store m' (add_entries dest mine (nd_index nd)) nd), d', all.
  split; [|split; [by apply ReadSegments_holds_all|]].
  - unfold transferMissingSegments. cbn [serve cl_ListSegments]. rewrite int32_small, Hlist by done. io.
    rewrite Hcov. io. cbn [transfer_loop]. rewrite !decide_False by done. io. rewrite int32_small by done.
    rewrite (Htr m' Hload). by io.
  - intros x. rewrite Hin. split.
    + intros (p & es' & Hp & Hes & Hx). destruct (decide (p = dest)) as [->|Hne].
      * rewrite lookup_insert_eq in Hes. injection Hes as <-. by left.
      * rewrite lookup_insert_ne in Hes by done. right. by exists p, es'.
    + intros [Hx|(p & es' & Hne & Hes & Hx)].
      * exists dest, mine. rewrite lookup_insert_eq. split_and!; [|done..]. apply Hpaths. by left.
      * exists p, es'. rewrite lookup_insert_ne by done. split_and!; [|done..]. apply Hpaths. right.
        apply (si_dom _ _ _ _ Hinv). eauto.
Qed.
End catchup_lemmas.

(** ** Properties on sample nodes *)

(** Two nodes of a cluster with two shards: [api] is in shard 1, [app] in shard 0. Segments
    are so small that every write starts a new one. *)
Definition tail_pb (id svc : string) (received : Z) : Pb.LogEntry :=
  Pb.mkLogEntry id 1 received svc "INFO" "hello" ∅ "".
Definition shard_pb (svc : string) : Z := ShardID "" svc 2.
Definition writes (pbs : list Pb.LogEntry) : list node_op :=
  (λ pb, OpReplicate None (Some pb) (shard_pb (Pb.Service pb))) <$> pbs.
Definition node_after (name : string) (ops : list node_op) : @StorageNode exact_bloom * Disk :=
  match @boot ascii_tables bit_codec exact_bloom "data" 1 name false 2 None (mkDisk ∅ []) with
  | (Ok nd, d) => @run_node ascii_tables bit_codec exact_bloom DefaultCompactorConfig ops nd d
  | (Err _, d) => (@mkStorageNode exact_bloom name 2 (@manager_of ascii_tables exact_bloom false ∅) NewIndex None, d)
  end.
Definition holding (name : string) (pbs : list Pb.LogEntry) : @StorageNode exact_bloom * Disk :=
  node_after name (writes pbs).
Definition ids_on (nd : @StorageNode exact_bloom) (d : Disk) : list string :=
  ID <$> match (@ReadSegments bit_codec (paths (nd_manager nd)) d).1 with Ok es => es | Err _ => [] end.

(** The state of the cluster: shard 1 has its primary on [a] and its replica on [b]. *)
Definition cu_nodes : gmap string Fsm.NodeRecord :=
  {[ "a" := Fsm.mkNodeRecord "a" "h:1" [1] Fsm.NodeHealthy 0 ]}.
Definition cu_shards : list (Z * Fsm.ShardRecord) := [(1, Fsm.mkShardRecord 1 "a" "b")].
Definition caught_up (primary replica : @StorageNode exact_bloom * Disk) : @StorageNode exact_bloom * nat * Disk :=
  @CatchUp ascii_tables bit_codec exact_bloom
    (λ _, Ok (@serve bit_codec exact_bloom primary.1 primary.2)) cu_nodes cu_shards 0 replica.1 replica.2.

(** Catch-up can skip what is missing: a local segment that happens to have the name of
    a primary's segment counts as that segment if it holds any entry of the shard. The
    replica has the newest entry only, the primary's older ones are never fetched, and
    catch-up reports success with nothing appended. *)
Theorem catchup_incomplete :
  let primary := holding "a" [tail_pb "p1" "api" 10; tail_pb "p2" "api" 20; tail_pb "p3" "api" 30] in
  let replica := holding "b" [tail_pb "p3" "api" 30; tail_pb "r2" "app" 6] in
  let '(nd, n, d) := caught_up primary replica in
  ids_on primary.1 primary.2 = ["p1"; "p2"; "p3"] ∧ ids_on nd d = ["p3"; "r2"] ∧ n = 0%nat.
Proof. vm_compute. split_and!; reflexivity. Qed.

(** ** Witnesses *)

Definition fits_all (name : string) (ops : list node_op) : bool :=
  match @boot ascii_tables bit_codec exact_bloom "data" 1 name false 2 None (mkDisk ∅ []) with
  | (Ok nd, d) => @within_limits ascii_tables bit_codec exact_bloom DefaultCompactorConfig ops nd d
  | _ => false
  end.

Lemma node_after_live name ops :
  fits_all name ops = true →
  ∃ segs, @live ascii_tables bit_codec exact_bloom (node_after name ops).1 (node_after name ops).2 segs.
Proof.
  unfold fits_all, node_after. intros Hfit.
  destruct (@boot_live ascii_tables ascii_tables_laws bit_codec bit_codec_laws exact_bloom exact_bloom_laws
    "data" 1 name false 2 None (mkDisk ∅ [])) as (nd0 & d0 & Hboot & Hlive & _); [done|apply empty_disk_dir|].
  rewrite Hboot in Hfit |- *.
  destruct (@run_node_live ascii_tables ascii_tables_laws bit_codec bit_codec_laws exact_bloom exact_bloom_laws
    DefaultCompactorConfig _ nd0 d0 _ Hlive Hfit) as (nd & d & segs & -> & Hl & _).
  by exists segs.
Qed.

(** The log of a sample node is what reading it gives. *)
Lemma holding_stored name pbs es :
  fits_all name (writes pbs) = true →
  (@ReadSegments bit_codec (paths (nd_manager (holding name pbs).1)) (holding name pbs).2).1 = Ok es →
  @stored bit_codec exact_bloom (nd_manager (holding name pbs).1) (holding name pbs).2 es.
Proof.
  intros (segs & Hn & Hinv & _)%node_after_live Hread. fold (holding name pbs) in Hn, Hinv.
  destruct (@stored_exists ascii_tables ascii_tables_laws bit_codec bit_codec_laws exact_bloom exact_bloom_laws
    _ _ (si_mgr _ _ _ _ Hinv)) as [es' Hes].
  rewrite (@ReadSegments_holds_all bit_codec bit_codec_laws _ _ es' Hn Hes) in Hread. injection Hread as ->. done.
Qed.

Definition tail_primary := holding "a" [tail_pb "p1" "api" 10; tail_pb "p2" "api" 20].
Definition tail_replica := holding "b" [tail_pb "p1" "api" 10; tail_pb "r1" "app" 30].
Definition tail_entries : list LogEntry := ProtoToEntry <$> [tail_pb "p1" "api" 10; tail_pb "p2" "api" 20].

Lemma catchup_tail_complete_witness :
  let H1 := ascii_tables in let H2 := bit_codec in let H3 := exact_bloom in
  ∃ segs, live tail_replica.1 tail_replica.2 segs ∧
  ∃ nd' d' segs' n, catch_tail (serve tail_primary.1 tail_primary.2) 1 tail_replica.1 tail_replica.2 = ((nd', n), d') ∧
    live nd' d' segs' ∧
    (∀ x, x ∈ entries_of segs → x ∈ entries_of segs') ∧
    (∀ x, x ∈ entries_of segs' → x ∈ entries_of segs ∨ (x ∈ tail_entries ∧ in_shard tail_replica.1 1 x = true)) ∧
    ((∀ x y, x ∈ tail_entries → in_shard tail_replica.1 1 x = true → y ∈ entries_of segs →
        in_shard tail_replica.1 1 y = true → ReceivedAt x < ReceivedAt y → ID x ∈ ID <$> entries_of segs) →
     ∀ x, x ∈ tail_entries → in_shard tail_replica.1 1 x = true → ID x ∈ ID <$> entries_of segs').
Proof.
  intros H1 H2 H3.
  destruct (node_after_live "b" (writes [tail_pb "p1" "api" 10; tail_pb "r1" "app" 30])) as [segs Hlive];
    [vm_compute; reflexivity|].
  exists segs. split; [exact Hlive|].
  eapply (@catchup_tail_complete ascii_tables ascii_tables_laws bit_codec bit_codec_laws exact_bloom exact_bloom_laws
    tail_replica.1 tail_primary.1 tail_replica.2 tail_primary.2 segs tail_entries 1 10 {[ "p1" ]}
    [tail_pb "p1" "api" 10; tail_pb "p2" "api" 20]).
  - exact Hlive.
  - vm_compute. reflexivity.
  - apply holding_stored; vm_compute; reflexivity.
  - unfold in_int32. lia.
  - vm_compute. reflexivity.
  - intros x (pb & -> & Hpb)%list_elem_of_fmap. rewrite !elem_of_cons in Hpb.
    destruct Hpb as [->|[->|[]%not_elem_of_nil]]; cbn; lia.
  - vm_compute. reflexivity.
  - vm_compute. reflexivity.
  - vm_compute. reflexivity.
  - vm_compute. reflexivity.
Defined.

(** The replica has merged its first segments, so that the name of the second is free. *)
Definition merged_replica :=
  node_after "b" (writes [tail_pb "r1" "app" 5; tail_pb "r2" "app" 6] ++ [OpMerge]).

Lemma catchup_segment_exact_witness :
  let H1 := ascii_tables in let H2 := bit_codec in let H3 := exact_bloom in
  let mine := [ProtoToEntry (tail_pb "p1" "api" 10)] in
  ∃ segs, live merged_replica.1 merged_replica.2 segs ∧
  ∃ nd' d', transfer_one (serve tail_primary.1 tail_primary.2) 1 (segment_name 2) merged_replica.1 merged_replica.2
      = ((nd', length mine), d') ∧
    live nd' d' (<[filepath_Join "data" (segment_name 2) := mine]> segs).
Proof.
  intros H1 H2 H3 mine.
  destruct (node_after_live "b" (writes [tail_pb "r1" "app" 5; tail_pb "r2" "app" 6] ++ [OpMerge])) as [segs Hlive];
    [vm_compute; reflexivity|].
  exists segs. split; [exact Hlive|].
  assert (mdir (nd_manager merged_replica.1) = "data") as Hdir by (vm_compute; reflexivity).
  assert (filter (λ e, in_shard tail_primary.1 1 e = true) mine = mine) as Hmine by (vm_compute; reflexivity).
  rewrite <- Hdir. rewrite <- Hmine.
  apply (@catchup_segment_exact ascii_tables ascii_tables_laws bit_codec bit_codec_laws exact_bloom exact_bloom_laws
    merged_replica.1 tail_primary.1 merged_replica.2 tail_primary.2 segs (segment_name 2) 1
    (@segment_bytes bit_codec mine) mine).
  - exact Hlive.
  - vm_compute. reflexivity.
  - vm_compute. reflexivity.
  - vm_compute. discriminate.
  - vm_compute. reflexivity.
  - apply holds_segment_bytes. split; [|done]. repeat constructor; eexists; (split; [reflexivity|]).
    vm_compute. discriminate.
  - rewrite Hmine. discriminate.
  - vm_compute. reflexivity.
  - vm_compute. reflexivity.
  - intros n. rewrite Hdir. fold (seq_path "data" 2). rewrite path_seq_seq_path by lia. intros [= <-].
    vm_compute. reflexivity.
Defined.


(** The second segment of the replica has the name of the primary's and another shard. *)
Definition other_replica := holding "b" [tail_pb "r1" "app" 5; tail_pb "r2" "app" 6].

Lemma catchup_overwrites_witness :
  let H1 := ascii_tables in let H2 := bit_codec in let H3 := exact_bloom in
  let dest := filepath_Join "data" (segment_name 2) in
  let mine := [ProtoToEntry (tail_pb "p1" "api" 10)] in
  ∃ segs, live other_replica.1 other_replica.2 segs ∧ segs !! dest = Some [ProtoToEntry (tail_pb "r1" "app" 5)] ∧
  ∃ nd' d' all, transferMissingSegments (serve tail_primary.1 tail_primary.2) 1 other_replica.1 other_replica.2
      = ((nd', length mine), d') ∧
    ReadSegments (SegmentPaths (nd_manager nd')) d' = (Ok all, d') ∧
    ∀ x, x ∈ all ↔ x ∈ mine ∨ ∃ p es', p ≠ dest ∧ segs !! p = Some es' ∧ x ∈ es'.
Proof.
  intros H1 H2 H3 dest mine.
  destruct (node_after_live "b" (writes [tail_pb "r1" "app" 5; tail_pb "r2" "app" 6])) as [segs Hlive];
    [vm_compute; reflexivity|].
  assert (mdir (nd_manager other_replica.1) = "data") as Hdir by (vm_compute; reflexivity).
  assert (filter (λ e, in_shard tail_primary.1 1 e = true) mine = mine) as Hmine by (vm_compute; reflexivity).
  set (old := [ProtoToEntry (tail_pb "r1" "app" 5)]).
  assert (∀ es : list LogEntry, es = mine ∨ es = old → holds (@segment_bytes bit_codec es) es) as Hholds.
  { intros es Hes. apply holds_segment_bytes. split; [|done].
    destruct Hes as [-> | ->]; repeat constructor; eexists; (split; [reflexivity|]); vm_compute; discriminate. }
  assert (segs !! dest = Some old) as Hold.
  { destruct Hlive as (_ & [_ Hdom Hfs _] & _). destruct (proj2 (Hdom dest)) as [es Hes].
    { assert (bool_decide (dest ∈ paths (nd_manager other_replica.1)) = true) as Hb by (vm_compute; reflexivity).
      by apply bool_decide_eq_true in Hb. }
    destruct (Hfs dest es Hes) as (b & Hb & Hh).
    assert (files other_replica.2 !! dest = Some (@segment_bytes bit_codec old)) as Hb' by (vm_compute; reflexivity).
    assert (b = @segment_bytes bit_codec old) as -> by (unfold other_replica, holding in Hb'; congruence).
    by rewrite Hes, (@holds_inj bit_codec bit_codec_laws _ _ _ Hh (Hholds old (or_intror eq_refl))). }
  exists segs. split; [exact Hlive|]. split; [exact Hold|]. unfold dest. rewrite <- Hdir. rewrite <- Hmine.
  apply (@catchup_overwrites ascii_tables ascii_tables_laws bit_codec bit_codec_laws exact_bloom exact_bloom_laws
    other_replica.1 tail_primary.1 other_replica.2 tail_primary.2 segs (segment_name 2) 1
    (@segment_bytes bit_codec mine) mine old).
  - exact Hlive.
  - vm_compute. reflexivity.
  - vm_compute. reflexivity.
  - unfold in_int32. lia.
  - vm_compute. reflexivity.
  - vm_compute. discriminate.
  - vm_compute. reflexivity.
  - apply Hholds. by left.
  - rewrite Hmine. discriminate.
  - rewrite Hdir. exact Hold.
  - vm_compute. discriminate.
  - vm_compute. reflexivity.
  - intros x ->%list_elem_of_singleton. vm_compute. reflexivity.
Defined.
