(* ===== verification/Metadata.v ===== *)
(** * The coordinator's cluster service and its clients ([internal/metadata/fsm.go]
    [Apply], [server.go], [liveness.go])

    Commands travel to the state machine through the Raft log as JSON text ([Snapshot]). The
    log is an argument: for every command, whether this coordinator leads and what becomes
    of the command. *)

From S2P Require Import Prelude GoStrings Bloom Paths Strconv Json Fsm Snapshot.

Module Meta.
Import Fsm Snap.

(** ** Raft *)

(** What becomes of a proposed command: committed and applied, or failed, in
    which case it may have been applied nevertheless. *)
Inductive raft_outcome :=
  | Committed
  | RaftFailed (notLeader applied : bool).

(** [raft.Apply]: the future's error and the response of the state machine. *)
Definition raft_Apply (o : raft_outcome) (data : string) (cs : ClusterState)
    : ClusterState * (option bool * result ()) :=
  match o with
  | Committed => let '(cs', r) := Apply data cs in (cs', (None, r))
  | RaftFailed nl applied => ((if applied then (Apply data cs).1 else cs), (Some nl, Ok ()))
  end.

(** [Server.applyCommand]. *)
Definition applyCommand (leader : bool) (o : raft_outcome) (p : payload) (cs : ClusterState)
    : ClusterState * result () :=
  if negb leader then (cs, Err (grpc_Status codes_FailedPrecondition "not the raft leader")) else
  let '(cs, (err, resp)) := raft_Apply o (marshal_command p) cs in
  (cs, match err with
       | Some true => Err (grpc_Status codes_FailedPrecondition "lost leadership during apply")
       | Some false => Err (grpc_Status codes_Internal "raft apply")
       | None => match resp with
                 | Err _ => Err (grpc_Status codes_Internal "fsm apply")
                 | Ok _ => Ok ()
                 end
       end).

(** [Server.RegisterNode]: the shards assigned. *)
Definition RegisterNode (leader : bool) (o : raft_outcome) (now : Z) (NodeId GrpcAddress : string)
    (cs : ClusterState) : ClusterState * result (list Z) :=
  if bool_decide (NodeId = "") || bool_decide (GrpcAddress = "")
  then (cs, Err (grpc_Status codes_InvalidArgument "node_id and grpc_address are required")) else
  let '(cs, r) := applyCommand leader o (RegisterNodePayload NodeId GrpcAddress now) cs in
  (cs, match r with
       | Err e => Err e
       | Ok _ =>
         match Nodes cs !! NodeId with
         | None => Err (grpc_Status codes_Internal "node not found after registration")
         | Some node => Ok (int32 <$> n_Shards node)
         end
       end).

(** [Server.Heartbeat]. *)
Definition Heartbeat (leader : bool) (o : raft_outcome) (now : Z) (NodeId : string) (cs : ClusterState)
    : ClusterState * result () :=
  if bool_decide (NodeId = "") then (cs, Err (grpc_Status codes_InvalidArgument "node_id is required"))
  else applyCommand leader o (UpdateHeartbeatPayload NodeId now) cs.

(** The messages of [GetClusterState]. *)
Record NodeInfo := mkNodeInfo {
  ni_Id : string;
  ni_Address : string;
  ni_Shards : list Z;
  ni_Status : string;
  ni_LastSeenUnixNs : Z;
}.
Record ShardInfo := mkShardInfo {
  si_ShardId : Z;
  si_PrimaryNode : string;
  si_ReplicaNode : string;
}.

(** [Server.GetClusterState]. *)
Definition GetClusterState (cs : ClusterState) : list NodeInfo * list ShardInfo :=
  ((λ x, mkNodeInfo (n_ID x.2) (n_Address x.2) (int32 <$> n_Shards x.2) (n_Status x.2) (n_LastSeen x.2))
     <$> map_to_list (Nodes cs),
   (λ x, mkShardInfo (int32 (s_ShardID x.2)) (s_PrimaryNode x.2) (s_ReplicaNode x.2))
     <$> map_to_list (Shards cs)).

(** ** Liveness *)

(** [applyMarkUnhealthy] of [liveness.go]. *)
Definition mark_unhealthy (o : raft_outcome) (nodeID : string) (cs : ClusterState)
    : ClusterState * result () :=
  let '(cs, (err, resp)) := raft_Apply o (marshal_command (MarkUnhealthyPayload nodeID)) cs in
  (cs, match err with Some _ => Err (ErrMsg "raft") | None => resp end).

(** A node of the snapshot that the checker marks. *)
Definition is_stale (now timeoutNs : Z) (n : NodeRecord) : bool :=
  negb (bool_decide (n_Status n = NodeUnhealthy)) && (timeoutNs <? int64 (now - n_LastSeen n)).

(** [checkLiveness]: over a snapshot of the nodes; errors are only logged. *)
Definition checkLiveness (outcome : string → raft_outcome) (now timeoutNs : Z) (cs : ClusterState)
    : ClusterState :=
  foldl (λ cs n, if is_stale now timeoutNs n then (mark_unhealthy (outcome (n_ID n)) (n_ID n) cs).1 else cs)
    cs (map_to_list (Nodes cs)).*2.

(** ** What storage nodes fetch *)

(** [protoToClusterState]: later duplicates win, times are not copied. *)
Definition protoToClusterState (resp : list NodeInfo * list ShardInfo) : ClusterState :=
  mkClusterState
    (foldl (λ m n, <[ni_Id n := mkNodeRecord (ni_Id n) (ni_Address n) (ni_Shards n) (ni_Status n) 0]> m)
       ∅ resp.1)
    (foldl (λ m s, <[si_ShardId s := mkShardRecord (si_ShardId s) (si_PrimaryNode s) (si_ReplicaNode s)]> m)
       ∅ resp.2).

(** ** Lemmas *)

Lemma committed_ok p cs cs' :
  payload_ok p → apply_payload p cs = (cs', Ok ()) → applyCommand true Committed p cs = (cs', Ok ()).
Proof. intros Hok Hp. unfold applyCommand, raft_Apply. cbn [negb]. by rewrite Apply_marshal, Hp. Qed.

Lemma int32_shards n R id nd :
  n < 2 ^ 31 → Nodes (layout n R) !! id = Some nd → int32 <$> n_Shards nd = n_Shards nd.
Proof.
  intros Hn (e & _ & _ & ->)%layout_node_Some. rewrite <- (list_fmap_id (shards_of _ _ _)) at 2.
  apply list_fmap_ext. intros i j Hj. apply list_elem_of_lookup_2, shards_of_elem in Hj as (_ & _ & Hj).
  unfold Datatypes.id. apply int32_small. unfold in_int32. lia.
Qed.

(** ** Lemmas: liveness *)

Lemma mark_committed id cs :
  valid_utf8 id = true →
  (mark_unhealthy Committed id cs).1 = (apply_payload (MarkUnhealthyPayload id) cs).1.
Proof.
  intros Hid. unfold mark_unhealthy, raft_Apply. rewrite Apply_marshal by done.
  by destruct (apply_payload (MarkUnhealthyPayload id) cs).
Qed.

Lemma checkLiveness_apply now t cs :
  (∀ id nd, Nodes cs !! id = Some nd → valid_utf8 (n_ID nd) = true) →
  checkLiveness (λ _, Committed) now t cs =
  apply_all (MarkUnhealthyPayload <$> (n_ID <$> filter (λ n, is_stale now t n = true) (map_to_list (Nodes cs)).*2)) cs.
Proof.
  intros Hv. unfold checkLiveness, apply_all.
  assert (Forall (λ n, valid_utf8 (n_ID n) = true) (map_to_list (Nodes cs)).*2) as Hl.
  { apply Forall_forall. intros nd ([id ?] & -> & Hin%elem_of_map_to_list)%list_elem_of_fmap. by eapply Hv. }
  clear Hv. revert Hl. generalize ((map_to_list (Nodes cs)).*2) as l. intros l Hl. revert cs.
  induction Hl as [|x l Hx _ IH]; intros cs; [done|]. rewrite filter_cons. cbn [foldl].
  destruct (is_stale now t x).
  - rewrite decide_True by done. rewrite !fmap_cons. cbn [foldl]. by rewrite mark_committed, IH.
  - by rewrite decide_False, IH.
Qed.

(** Marking over a registry. *)
Definition marked (e : entry) : entry := mkEntry (e_Address e) NodeUnhealthy (e_LastSeen e).
Definition mark_stale (now timeoutNs : Z) (e : entry) : entry :=
  if negb (bool_decide (e_Status e = NodeUnhealthy)) && (timeoutNs <? int64 (now - e_LastSeen e))
  then marked e else e.

Lemma spec_all_marks ids R id :
  spec_all (MarkUnhealthyPayload <$> ids) R !! id = (λ e, if decide (id ∈ ids) then marked e else e) <$> R !! id.
Proof.
  revert R. induction ids as [|a ids IH]; intros R.
  - cbn. by destruct (R !! id).
  - rewrite fmap_cons. unfold spec_all. cbn [foldl spec_payload]. fold (spec_all (MarkUnhealthyPayload <$> ids)).
    fold marked. unfold spec_all in IH. rewrite IH. destruct (decide (id = a)) as [->|Hne].
    + rewrite lookup_alter_eq. destruct (R !! a); cbn; [|done].
      rewrite (decide_True (P := a ∈ a :: ids)) by set_solver. by case_decide.
    + rewrite lookup_alter_ne by done. destruct (R !! id); cbn; [|done].
      destruct (decide (id ∈ ids)); [by rewrite decide_True by set_solver|by rewrite decide_False by set_solver].
Qed.

(** The pass of the checker over a layout marks the stale entries of its registry. *)
Lemma checkLiveness_layout now t n R :
  (∀ id e, R !! id = Some e → valid_utf8 id = true) →
  checkLiveness (λ _, Committed) now t (layout n R) = layout n (mark_stale now t <$> R).
Proof.
  intros Hv. destruct (layout_keys n R) as [HN _]. rewrite checkLiveness_apply.
  2: { intros id nd Hid. rewrite (HN id nd Hid).
       destruct (layout_node_Some n R id nd Hid) as (e & He & _). by eapply Hv. }
  rewrite apply_all_layout. f_equal. apply map_eq. intros id. rewrite spec_all_marks, lookup_fmap.
  destruct (R !! id) as [e|] eqn:He; [|done]. cbn. f_equal.
  set (nd := layout_node (healthy R) n id e).
  assert (Nodes (layout n R) !! id = Some nd) as Hid by (cbn [layout Nodes]; by rewrite mknodes_lookup, He).
  set (ids := n_ID <$> _).
  assert (id ∈ ids ↔ is_stale now t nd = true) as Hin.
  { subst ids. rewrite list_elem_of_fmap. split.
    - intros (x & -> & [Hx ([k v] & -> & Hkv%elem_of_map_to_list)%list_elem_of_fmap]%list_elem_of_filter).
      cbn in *. rewrite (HN k v Hkv) in *. congruence.
    - intros Hs. exists nd. split; [done|]. apply list_elem_of_filter. split; [done|].
      apply list_elem_of_fmap. exists (id, nd). split; [done|]. by apply elem_of_map_to_list. }
  unfold mark_stale. change (negb _ && _) with (is_stale now t nd).
  destruct (is_stale now t nd); [by rewrite decide_True by naive_solver|by rewrite decide_False by naive_solver].
Qed.

(** The identifiers of a typed state are UTF-8. *)
Lemma typed_ids n R : cluster_typed n (layout n R) → ∀ id e, R !! id = Some e → valid_utf8 id = true.
Proof.
  intros Hty id e He. destruct (ct_node _ _ Hty id (layout_node (healthy R) n id e)) as (_ & ? & _); [|done].
  cbn [layout Nodes]. by rewrite mknodes_lookup, He.
Qed.

(** What a node decodes of a layout. *)
Lemma fetched_layout n R :
  n < 2 ^ 31 →
  protoToClusterState (GetClusterState (layout n R)) =
    mkClusterState
      ((λ nd, mkNodeRecord (n_ID nd) (n_Address nd) (n_Shards nd) (n_Status nd) 0) <$> Nodes (layout n R))
      (Shards (layout n R)).
Proof.
  intros Hn.
  destruct (layout_keys n R) as [HN HS]. unfold protoToClusterState, GetClusterState. cbn [fst snd].
  rewrite !foldl_fmap. cbn [ni_Id ni_Address ni_Shards ni_Status si_ShardId si_PrimaryNode si_ReplicaNode].
  rewrite (rebuild_map (λ x, n_ID x.2) _ (Nodes (layout n R))) by (intros k v; apply HN).
  rewrite (rebuild_map (λ x, int32 (s_ShardID x.2)) _ (Shards (layout n R))).
  2: { intros k v Hv. cbn. destruct (HS k v Hv) as [-> ?]. apply int32_small. unfold in_int32. lia. }
  f_equal; apply map_eq; intros k; rewrite map_lookup_imap, ?lookup_fmap.
  - destruct (Nodes (layout n R) !! k) as [nd|] eqn:E; cbn; [|done].
    by rewrite (int32_shards n R k nd Hn E).
  - destruct (Shards (layout n R) !! k) as [sr|] eqn:E; cbn; [|done].
    destruct (HS k sr E) as [Hid Hk]. rewrite int32_small by (unfold in_int32; lia). by destruct sr.
Qed.

(** ** Properties *)

(** The state that storage nodes fetch is the coordinator's state: for every state
    the machine reaches with less than [2^31] shards, encoding it for [GetClusterState]
    and decoding it on the client restores all nodes and shards, except the times of the
    last heartbeats, which the client does not keep. *)
Theorem cluster_state_roundtrip (n : Z) (ps : list payload) :
  let cs := apply_all ps (state (NewFSM n)) in
  n < 2 ^ 31 →
  protoToClusterState (GetClusterState cs) =
    mkClusterState
      ((λ nd, mkNodeRecord (n_ID nd) (n_Address nd) (n_Shards nd) (n_Status nd) 0) <$> Nodes cs)
      (Shards cs).
Proof. intros cs Hn. subst cs. rewrite run_layout. by apply fetched_layout. Qed.

(** The liveness check marks exactly the silent nodes: when its commands commit, a
    node is unhealthy afterwards if it was unhealthy or has not been seen for longer
    than the timeout, and keeps its status otherwise. *)
Theorem liveness_exact (n : Z) (log : list string) (now timeout : Z) (id : string) (nd : NodeRecord) :
  let cs := state (apply_log log (NewFSM n)) in
  Nodes cs !! id = Some nd →
  ∃ nd', Nodes (checkLiveness (λ _, Committed) now timeout cs) !! id = Some nd' ∧
    n_Status nd' = if is_stale now timeout nd then NodeUnhealthy else n_Status nd.
Proof.
  intros cs. subst cs. pose proof (log_typed n log) as Hty. revert Hty. cbn [apply_log state].
  destruct (apply_log_commands log (state (NewFSM n))) as (ps & _ & ->).
  rewrite run_layout. set (R := spec_all ps ∅). intros Hty Hid.
  rewrite checkLiveness_layout by (by apply typed_ids with n).
  cbn [layout Nodes] in *. rewrite mknodes_lookup, lookup_fmap. rewrite mknodes_lookup in Hid.
  destruct (R !! id) as [e|]; cbn in *; [|done]. injection Hid as <-. eexists. split; [done|]. cbn.
  unfold mark_stale, is_stale. cbn [n_Status n_LastSeen]. by case_match.
Qed.

(** Registration through the leader assigns shards: with a committed command,
    [RegisterNode] returns the node's shards and leaves the node registered, healthy and
    at the given address; on a coordinator that does not lead it fails and changes
    nothing. *)
Theorem register_assigns (n : Z) (ps : list payload) (now : Z) (id addr : string) :
  let cs := apply_all ps (state (NewFSM n)) in
  n < 2 ^ 31 → id ≠ "" → addr ≠ "" → valid_utf8 id = true → valid_utf8 addr = true → in_int64 now →
  (∃ cs' nd, RegisterNode true Committed now id addr cs = (cs', Ok (n_Shards nd)) ∧
     cs' = apply_all (ps ++ [RegisterNodePayload id addr now]) (state (NewFSM n)) ∧
     Nodes cs' !! id = Some nd ∧ n_Status nd = NodeHealthy ∧ n_Address nd = addr) ∧
  RegisterNode false Committed now id addr cs
    = (cs, Err (grpc_Status codes_FailedPrecondition "not the raft leader")).
Proof.
  intros cs Hn Hid Haddr Hvi Hva Hnow. unfold RegisterNode. rewrite !bool_decide_false by done. cbn [orb].
  split; [|done]. subst cs. rewrite !run_layout. unfold spec_all. rewrite foldl_app. cbn [foldl spec_payload].
  fold (spec_all ps ∅). set (R := spec_all ps ∅).
  rewrite (committed_ok _ _ (layout n (<[id := mkEntry addr NodeHealthy now]> R)))
    by (done || (cbn [apply_payload]; apply register_layout)).
  set (R' := <[id := mkEntry addr NodeHealthy now]> R).
  assert (Nodes (layout n R') !! id = Some (layout_node (healthy R') n id (mkEntry addr NodeHealthy now))) as Hnd.
  { cbn [layout Nodes]. rewrite mknodes_lookup. unfold R' at 2. by rewrite lookup_insert_eq. }
  eexists _, _. rewrite Hnd. rewrite (int32_shards n R' id _ Hn Hnd). by split_and!.
Qed.

(** ** Witnesses *)

Lemma cluster_state_roundtrip_witness :
  let cs := apply_all sample_log (state (NewFSM 5)) in
  protoToClusterState (GetClusterState cs) =
    mkClusterState
      ((λ nd, mkNodeRecord (n_ID nd) (n_Address nd) (n_Shards nd) (n_Status nd) 0) <$> Nodes cs)
      (Shards cs).
Proof. apply (cluster_state_roundtrip 5 sample_log). lia. Defined.

Lemma liveness_exact_witness :
  ∃ nd', Nodes (checkLiveness (λ _, Committed) 20 10 (state (apply_log sample_bytes (NewFSM 5)))) !! "b<1>"
      = Some nd' ∧ n_Status nd' = NodeUnhealthy.
Proof.
  apply (liveness_exact 5 sample_bytes 20 10 "b<1>" (mkNodeRecord "b<1>" "h:2" [0; 1; 2; 3; 4] NodeHealthy 2)).
  vm_compute. reflexivity.
Defined.

Lemma register_assigns_witness :
  let cs := apply_all sample_log (state (NewFSM 5)) in
  (∃ cs' nd, RegisterNode true Committed 9 "d" "h:4" cs = (cs', Ok (n_Shards nd)) ∧
     cs' = apply_all (sample_log ++ [RegisterNodePayload "d" "h:4" 9]) (state (NewFSM 5)) ∧
     Nodes cs' !! "d" = Some nd ∧ n_Status nd = NodeHealthy ∧ n_Address nd = "h:4") ∧
  RegisterNode false Committed 9 "d" "h:4" cs
    = (cs, Err (grpc_Status codes_FailedPrecondition "not the raft leader")).
Proof. apply (register_assigns 5 sample_log 9 "d" "h:4"); try done; unfold in_int64; lia. Defined.

End Meta.
