(* ===== verification/Client.v ===== *)
(** * The storage node's client of the coordinators ([internal/cluster/client.go])

    A client holds the list of coordinator addresses and one connection. It moves to the
    next address when the current coordinator does not lead or is unreachable. The calls
    are arguments: what the coordinator at an address answers. *)

From S2P Require Import Prelude GoStrings Bloom Paths Strconv Json Recovery Fsm Snapshot Metadata.

Module Client.
Import Fsm Meta.

(** [strings.Split(s, ",")] and [ParseAddrs]. *)
Fixpoint split_comma (cur : string) (s : string) : list string :=
  match s with
  | EmptyString => [cur]
  | String c s' =>
    if decide (c = ","%char) then cur :: split_comma "" s'
    else split_comma (cur +:+ String c "") s'
  end.
Definition ParseAddrs (s : string) : list string :=
  filter (λ a, a ≠ "") (TrimSpace <$> split_comma "" s).

(** A connection: its address and whether it is open. *)
Record conn := mkConn {
  conn_addr : string;
  conn_open : bool;
}.

(** The addresses, the index of the current one and the connection, nil before the first. *)
Record ClusterClient := mkClusterClient {
  addrs : list string;
  c_index : nat;
  c_conn : option conn;
  c_nodeID : string;
}.

Definition with_conn (cn : option conn) (c : ClusterClient) : ClusterClient :=
  mkClusterClient (addrs c) (c_index c) cn (c_nodeID c).
Definition close_conn (cn : conn) : conn := mkConn (conn_addr cn) false.

Definition retryable (e : GoError) : bool :=
  match e with
  | grpc_Status codes_Unavailable _ | grpc_Status codes_FailedPrecondition _ => true
  | _ => false
  end.

Section client.
(** [grpc.NewClient], and the error of a call on a closed connection. *)
Context (dial : string → result ()) (closing : GoError).

(** [connectTo]: the old connection is closed first and stays, closed, if the new
    address cannot be dialled. *)
Definition connectTo (addr : string) (c : ClusterClient) : ClusterClient * result () :=
  match dial addr with
  | Err e => (with_conn (close_conn <$> c_conn c) c, Err (ErrWrap "grpc dial" e))
  | Ok _ => (with_conn (Some (mkConn addr true)) c, Ok ())
  end.

(** [NewClusterClient]. *)
Definition NewClusterClient (addrs : list string) (nodeID : string) : result ClusterClient :=
  match addrs with
  | [] => Err (ErrMsg "at least one coordinator address required")
  | a :: _ =>
    let '(c, r) := connectTo a (mkClusterClient addrs 0 None nodeID) in
    match r with Err e => Err e | Ok _ => Ok c end
  end.

(** [advanceAndReconnect]. *)
Definition advanceAndReconnect (c : ClusterClient) : ClusterClient * result () :=
  let i := ((c_index c + 1) mod length (addrs c))%nat in
  connectTo (default "" (addrs c !! i)) (mkClusterClient (addrs c) i (c_conn c) (c_nodeID c)).

(** A call through [currentClient]; [call] is the answer of the coordinator. *)
Definition currentClient {A} (call : string → result A) (c : ClusterClient) : result A :=
  match c_conn c with
  | None => Err (ErrMsg "panic: nil client")
  | Some cn => if conn_open cn then call (conn_addr cn) else Err closing
  end.

(** The loop of [SendHeartbeat]; [call] is the [Heartbeat] of an address at an
    attempt. *)
Fixpoint heartbeat_loop (call : nat → string → result ()) (remaining attempt : nat)
    (c : ClusterClient) : ClusterClient * result () :=
  match remaining with
  | O => (c, Err (ErrMsg "heartbeat failed after retries: no reachable leader"))
  | S remaining =>
    match currentClient (call attempt) c with
    | Ok _ => (c, Ok ())
    | Err e =>
      if retryable e then
        let '(c, r) := advanceAndReconnect c in
        match r with
        | Err e => (c, Err e)
        | Ok _ => heartbeat_loop call remaining (S attempt) c
        end
      else (c, Err e)
    end
  end.

Definition SendHeartbeat (call : nat → string → result ()) (c : ClusterClient)
    : ClusterClient * result () :=
  heartbeat_loop call (length (addrs c) * 2) 0 c.

(** The loop of [Register]; the context expires in the wait after attempt
    [expires], if at all; [None] is out of fuel. *)
Fixpoint Register (fuel : nat) (call : nat → string → result (list Z))
    (expires : option nat) (attempt : nat) (c : ClusterClient)
    : option (ClusterClient * result (list Z)) :=
  match fuel with
  | O => None
  | S fuel =>
    match currentClient (call attempt) c with
    | Ok shards => Some (c, Ok shards)
    | Err e =>
      if retryable e then
        let '(c, r) := advanceAndReconnect c in
        match r with
        | Err e => Some (c, Err e)
        | Ok _ =>
          if bool_decide (expires = Some attempt)
          then Some (c, Err (ErrWrap "register" context_DeadlineExceeded))
          else Register fuel call expires (S attempt) c
        end
      else Some (c, Err e)
    end
  end.

(** [GetClusterState] of the client. *)
Definition fetchState (call : string → result (list NodeInfo * list ShardInfo)) (c : ClusterClient)
    : result ClusterState :=
  match currentClient call c with
  | Err e => Err e
  | Ok resp => Ok (protoToClusterState resp)
  end.
End client.

(** [Close]. *)
Definition Close (c : ClusterClient) : ClusterClient := with_conn (close_conn <$> c_conn c) c.

(** ** Invariant *)

(** The connection is the one to the current address, and open. *)
Definition connected (c : ClusterClient) : Prop :=
  (c_index c < length (addrs c))%nat ∧
  c_conn c = Some (mkConn (default "" (addrs c !! c_index c)) true).

(** ** Lemmas *)

Section client_lemmas.
Context (dial : string → result ()) (closing : GoError).
Implicit Types (c : ClusterClient).

Lemma NewClusterClient_connected l nodeID c :
  NewClusterClient dial l nodeID = Ok c → connected c ∧ addrs c = l ∧ c_nodeID c = nodeID.
Proof.
  unfold NewClusterClient, connectTo. destruct l as [|a l]; [done|].
  destruct (dial a); [|done]. intros [= <-]. unfold connected. cbn. split_and!; [lia|done..].
Qed.

Lemma call_connected {A} (call : string → result A) c :
  connected c → currentClient closing call c = call (default "" (addrs c !! c_index c)).
Proof. intros [_ E]. unfold currentClient. by rewrite E. Qed.

Lemma advance_connected c c' :
  (0 < length (addrs c))%nat → advanceAndReconnect dial c = (c', Ok ()) →
  connected c' ∧ addrs c' = addrs c ∧ c_index c' = ((c_index c + 1) mod length (addrs c))%nat.
Proof.
  intros Hl. unfold advanceAndReconnect, connectTo. destruct (dial _); [|done].
  intros [= <-]. unfold connected. cbn. split_and!; [|done..]. apply Nat.mod_upper_bound. lia.
Qed.

Lemma advance_dialled c :
  (∀ a, dial a = Ok ()) → ∃ c', advanceAndReconnect dial c = (c', Ok ()).
Proof. intros Hd. unfold advanceAndReconnect, connectTo. rewrite Hd. by eexists. Qed.

Lemma advance_next len i k :
  (0 < len → i < len → k < len → i ≠ k →
   ((k + len - (i + 1) mod len) mod len < (k + len - i) mod len))%nat.
Proof.
  intros Hl Hi Hk Hne. destruct (decide (i + 1 = len)%nat) as [E|E].
  - rewrite E, Nat.Div0.mod_same. rewrite (Nat.mod_small (k + len - i)) by lia.
    replace (k + len - 0)%nat with (k + 1 * len)%nat by lia. rewrite Nat.Div0.mod_add, Nat.mod_small by lia. lia.
  - rewrite (Nat.mod_small (i + 1)) by lia. destruct (decide (i < k)%nat).
    + replace (k + len - (i + 1))%nat with (k - (i + 1) + 1 * len)%nat by lia.
      replace (k + len - i)%nat with (k - i + 1 * len)%nat by lia.
      rewrite !Nat.Div0.mod_add, !Nat.mod_small by lia. lia.
    + rewrite !Nat.mod_small by lia. lia.
Qed.

Lemma heartbeat_loop_finds call c k n attempt (l := addrs c) :
  connected c → (k < length l)%nat → (∀ a, dial a = Ok ()) →
  (∀ t, call t (default "" (l !! k)) = Ok ()) →
  (∀ t a, call t a = Ok () ∨ ∃ e, call t a = Err e ∧ retryable e = true) →
  ((k + length l - c_index c) mod length l < n)%nat →
  ∃ c', heartbeat_loop dial closing call n attempt c = (c', Ok ()) ∧ connected c' ∧ addrs c' = l.
Proof.
  intros Hc Hk Hdial Hlead Hothers. subst l. revert c attempt Hc Hk Hlead.
  induction n as [|n IH]; intros c attempt Hc Hk Hlead Hd; [lia|]. cbn [heartbeat_loop].
  rewrite call_connected by done.
  destruct (decide (c_index c = k)) as [->|Hne]; [rewrite Hlead; by eexists|].
  destruct (Hothers attempt (default "" (addrs c !! c_index c))) as [->|(e & -> & ->)]; [by eexists|].
  destruct (advance_dialled c Hdial) as [c' E]. rewrite E.
  destruct (advance_connected c c') as (Hc' & Ha & Hi); [lia|done|].
  destruct (IH c' (S attempt) Hc') as (c2 & ? & ? & Ha2); rewrite ?Ha; try done.
  - pose proof (advance_next (length (addrs c)) (c_index c) k). destruct Hc as [? _]. rewrite Hi. lia.
  - exists c2. split_and!; [done..|]. congruence.
Qed.
(** The wait after attempt [k] is the last. *)
Lemma Register_returns call k fuel attempt c :
  (attempt ≤ k)%nat → (k - attempt < fuel)%nat →
  ∃ r, Register dial closing fuel call (Some k) attempt c = Some r.
Proof.
  revert attempt c. induction fuel as [|fuel IH]; intros attempt c Hle Hf; [lia|]. cbn [Register].
  destruct (currentClient _ _ _) as [shards|e]; [by eexists|]. destruct (retryable e); [|by eexists].
  destruct (advanceAndReconnect dial c) as [c' [[]|e']]; [|by eexists]. case_bool_decide as Hk; [by eexists|].
  assert (attempt ≠ k) by congruence. apply IH; lia.
Qed.

Lemma Register_finds call c k shards n fuel attempt expires (l := addrs c) :
  connected c → (k < length l)%nat → (∀ a, dial a = Ok ()) →
  (∀ t, call t (default "" (l !! k)) = Ok shards) →
  (∀ t a, call t a = Ok shards ∨ ∃ e, call t a = Err e ∧ retryable e = true) →
  ((k + length l - c_index c) mod length l < n)%nat → (n ≤ fuel)%nat →
  (∀ t, expires = Some t → attempt + n ≤ S t)%nat →
  ∃ c', Register dial closing fuel call expires attempt c = Some (c', Ok shards) ∧ connected c'.
Proof.
  intros Hc Hk Hdial Hlead Hothers. subst l. revert c fuel attempt Hc Hk Hlead.
  induction n as [|n IH]; intros c fuel attempt Hc Hk Hlead Hd Hf Hx; [lia|].
  destruct fuel as [|fuel]; [lia|]. cbn [Register]. rewrite call_connected by done.
  destruct (decide (c_index c = k)) as [->|Hne]; [rewrite Hlead; by eexists|].
  destruct (Hothers attempt (default "" (addrs c !! c_index c))) as [->|(e & -> & ->)]; [by eexists|].
  destruct (advance_dialled c Hdial) as [c' E]. rewrite E.
  destruct (advance_connected c c') as (Hc' & Ha & Hi); [lia|done|].
  assert ((k + length (addrs c) - c_index c') mod length (addrs c) < n)%nat as Hd'.
  { pose proof (advance_next (length (addrs c)) (c_index c) k). destruct Hc as [? _]. rewrite Hi. lia. }
  rewrite bool_decide_false.
  2: { intros Hx'%Hx. lia. }
  apply IH; rewrite ?Ha; try done; [lia|]. intros t Ht%Hx. lia.
Qed.

(** Registrations that all fail never join. *)
Lemma Register_fails call fuel expires attempt c :
  (∀ t a, ∃ e, call t a = Err e) →
  ∀ c' shards, Register dial closing fuel call expires attempt c ≠ Some (c', Ok shards).
Proof.
  intros Hcall. revert attempt c. induction fuel as [|fuel IH]; intros attempt c c' shards; [done|]. cbn [Register].
  assert (∃ e, currentClient closing (call attempt) c = Err e) as [e ->].
  { unfold currentClient. destruct (c_conn c) as [cn|]; [|by eexists]. destruct (conn_open cn); [apply Hcall|by eexists]. }
  destruct (retryable e); [|done]. destruct (advanceAndReconnect dial c) as [c1 [[]|e1]]; [|done].
  case_bool_decide; [done|]. apply IH.
Qed.

(** A closed connection is never replaced: its error is not one that rotates. *)
Lemma closed_stuck call c cn :
  retryable closing = false → (0 < length (addrs c))%nat → c_conn c = Some cn → conn_open cn = false →
  SendHeartbeat dial closing call c = (c, Err closing).
Proof.
  intros Hr Hl Hc Ho. unfold SendHeartbeat.
  destruct (length (addrs c) * 2)%nat as [|n] eqn:E; [lia|]. cbn [heartbeat_loop].
  unfold currentClient. by rewrite Hc, Ho, Hr.
Qed.
End client_lemmas.

(** ** Properties *)

(** Heartbeats find the leader: if some coordinator accepts heartbeats and all others
    answer that they do not lead or are unreachable, [SendHeartbeat] succeeds within its
    retries, whichever address the client is on, and the client stays connected. *)
Theorem heartbeat_finds_leader (dial : string → result ()) (closing : GoError)
    (call : nat → string → result ()) (c : ClusterClient) (k : nat) :
  connected c → (k < length (addrs c))%nat → (∀ a, dial a = Ok ()) →
  (∀ t, call t (default "" (addrs c !! k)) = Ok ()) →
  (∀ t a, call t a = Ok () ∨ ∃ e, call t a = Err e ∧ retryable e = true) →
  ∃ c', SendHeartbeat dial closing call c = (c', Ok ()) ∧ connected c' ∧ addrs c' = addrs c.
Proof.
  intros Hc Hk Hdial Hlead Hothers. unfold SendHeartbeat. apply (heartbeat_loop_finds _ _ _ c k); try done.
  pose proof (Nat.mod_upper_bound (k + length (addrs c) - c_index c) (length (addrs c))). lia.
Qed.

(** C32. Registration ends and joins: whatever the coordinators answer, [Register] returns
    once its context expires in the wait after attempt [k], within [k + 1] attempts; and if
    the leader accepts while the others answer that they do not lead or are unreachable,
    it returns the leader's answer before one round over the addresses is over. *)
Theorem register_terminates (dial : string → result ()) (closing : GoError)
    (call : nat → string → result (list Z)) (k : nat) (c : ClusterClient) :
  (∃ r, Register dial closing (S k) call (Some k) 0 c = Some r) ∧
  (∀ lead shards,
     connected c → (lead < length (addrs c))%nat → (∀ a, dial a = Ok ()) →
     (∀ t, call t (default "" (addrs c !! lead)) = Ok shards) →
     (∀ t a, call t a = Ok shards ∨ ∃ e, call t a = Err e ∧ retryable e = true) →
     (length (addrs c) ≤ S k)%nat →
     ∃ c', Register dial closing (S k) call (Some k) 0 c = Some (c', Ok shards) ∧ connected c').
Proof.
  split; [apply Register_returns; lia|]. intros lead shards Hc Hl Hd Hlead Hothers Hk.
  apply (Register_finds _ _ call c lead shards (length (addrs c))); try done.
  - apply Nat.mod_upper_bound. lia.
  - intros t [= <-]. lia.
Qed.

(** C39. One address that cannot be dialled disables the client for good: if the current
    coordinator is unavailable and the next address is refused by the dialler, the old
    connection is closed and stays in place, and because a call on a closed connection
    fails with an error that does not rotate, every later heartbeat and state fetch fails,
    even when all addresses can be dialled again and all coordinators answer. *)
Theorem bad_address_kills_client (dial : string → result ()) (closing : GoError)
    (call : nat → string → result ()) (c : ClusterClient) (e edial : GoError) :
  retryable closing = false → connected c →
  call 0%nat (default "" (addrs c !! c_index c)) = Err e → retryable e = true →
  dial (default "" (addrs c !! ((c_index c + 1) mod length (addrs c))%nat)) = Err edial →
  let c1 := (SendHeartbeat dial closing call c).1 in
  (SendHeartbeat dial closing call c).2 = Err (ErrWrap "grpc dial" edial) ∧
  (∀ dial' call', SendHeartbeat dial' closing call' c1 = (c1, Err closing)) ∧
  (∀ fetch, fetchState closing fetch c1 = Err closing).
Proof.
  intros Hcl Hc Hcall Hr Hdial.
  assert (SendHeartbeat dial closing call c =
    (mkClusterClient (addrs c) ((c_index c + 1) mod length (addrs c)) (close_conn <$> c_conn c) (c_nodeID c),
     Err (ErrWrap "grpc dial" edial))) as ->.
  { unfold SendHeartbeat. pose proof (proj1 Hc).
    destruct (length (addrs c) * 2)%nat as [|n] eqn:E; [lia|]. cbn [heartbeat_loop].
    rewrite call_connected by done. rewrite Hcall, Hr. unfold advanceAndReconnect, connectTo. by rewrite Hdial. }
  cbn [fst snd]. destruct Hc as [Hi Hcn]. rewrite Hcn. split_and!; [done| |done].
  intros dial' call'. eapply closed_stuck; [done| |done..]. cbn. lia.
Qed.

(** ** Witnesses *)

Definition sample_client : ClusterClient :=
  mkClusterClient ["c1"; "c2"; "c3"] 2 (Some (mkConn "c3" true)) "n".

Lemma heartbeat_finds_leader_witness :
  let call := λ (_ : nat) (a : string),
    if decide (a = "c2") then Ok () else Err (grpc_Status codes_FailedPrecondition "not the raft leader") in
  ∃ c', SendHeartbeat (λ _, Ok ()) (grpc_Status codes_Canceled "closing") call sample_client = (c', Ok ())
    ∧ connected c' ∧ addrs c' = addrs sample_client.
Proof.
  intros call.
  apply (heartbeat_finds_leader (λ _, Ok ()) (grpc_Status codes_Canceled "closing") call sample_client 1);
    cbn; try lia; try done.
  - unfold connected. cbn. split; [lia|done].
  - intros t a. unfold call. case_decide; [by left|right]. eexists. split; [done|]. done.
Defined.

Lemma register_terminates_witness :
  let call := λ (_ : nat) (a : string),
    if decide (a = "c2") then Ok [3] else Err (grpc_Status codes_Unavailable "down") in
  ∃ c', Register (λ _, Ok ()) (grpc_Status codes_Canceled "closing") 60 call (Some 59%nat) 0 sample_client
    = Some (c', Ok [3]) ∧ connected c'.
Proof.
  intros call.
  destruct (register_terminates (λ _, Ok ()) (grpc_Status codes_Canceled "closing") call 59 sample_client) as [_ H].
  apply (H 1%nat); cbn; try lia; try done.
  - unfold connected. cbn. split; [lia|done].
  - intros t a. unfold call. case_decide; [by left|right]. eexists. split; [done|]. done.
Defined.

Lemma bad_address_kills_client_witness :
  let dial := λ a, if decide (a = "c%zz") then Err (ErrMsg "invalid URL escape") else Ok () in
  let closing := grpc_Status codes_Canceled "closing" in
  let c := mkClusterClient ["c1"; "c%zz"] 0 (Some (mkConn "c1" true)) "n" in
  let c1 := (SendHeartbeat dial closing (λ _ _, Err (grpc_Status codes_Unavailable "down")) c).1 in
  (SendHeartbeat dial closing (λ _ _, Err (grpc_Status codes_Unavailable "down")) c).2
    = Err (ErrWrap "grpc dial" (ErrMsg "invalid URL escape")) ∧
  (∀ dial' call', SendHeartbeat dial' closing call' c1 = (c1, Err closing)) ∧
  (∀ fetch, fetchState closing fetch c1 = Err closing).
Proof.
  intros dial closing c.
  apply (bad_address_kills_client dial closing (λ _ _, Err (grpc_Status codes_Unavailable "down")) c
    (grpc_Status codes_Unavailable "down") (ErrMsg "invalid URL escape")); try done.
  unfold connected. cbn. split; [lia|done].
Defined.

Example ParseAddrs_sample : ParseAddrs " h:1, h:2,,h:3 " = ["h:1"; "h:2"; "h:3"].
Proof. vm_compute. reflexivity. Qed.
End Client.
