(* ===== verification/Loops.v ===== *)
(** * Background loops and connection pools ([internal/cluster/heartbeat.go],
    [state_cache.go] [Run], [internal/metadata/liveness.go] [StartLivenessChecker],
    [internal/storage/compaction.go] [Start], [internal/coordinator/node_client.go],
    [internal/ingest/orchestrator.go] [getOrCreateClient])

    A loop of the source waits for a tick or for its context to end. Which comes next is
    the argument: a list of what the loop selected. *)

From S2P Require Import Prelude GoStrings Observability Types Record Disk Segment Ranking Index Parser Bloom.
From S2P Require Import Paths Strconv Json Manager Executor Recovery Fsm Snapshot Ingest Compaction Node Metadata Client.

(** ** Pools *)

Module Pool.
Section pool.
Context {C : Type}.

Definition newNodeClientPool : gmap string C := ∅.

(** [nodeClientPool.get]; [dial] is [grpc.NewClient]. *)
Definition get (dial : string → result C) (addr : string) (clients : gmap string C)
    : gmap string C * result C :=
  match clients !! addr with
  | Some c => (clients, Ok c)
  | None =>
    match dial addr with
    | Err e => (clients, Err (ErrWrap "grpc dial" e))
    | Ok c => (<[addr := c]> clients, Ok c)
    end
  end.

(** [Orchestrator.getOrCreateClient]: the new client is read back from the map. *)
Definition getOrCreateClient (dial : string → result C) (addr : string) (clients : gmap string C)
    : gmap string C * result C :=
  match clients !! addr with
  | Some c => (clients, Ok c)
  | None =>
    match dial addr with
    | Err e => (clients, Err (ErrWrap "grpc dial" e))
    | Ok c =>
      let clients := <[addr := c]> clients in
      (clients, match clients !! addr with Some c => Ok c | None => Err (ErrMsg "nil client") end)
    end
  end.

(** The answers to a sequence of calls; dialling may answer differently each time. *)
Fixpoint gets (calls : list ((string → result C) * string)) (clients : gmap string C)
    : list (string * result C) :=
  match calls with
  | [] => []
  | (dial, addr) :: calls =>
    let '(clients, r) := get dial addr clients in (addr, r) :: gets calls clients
  end.
End pool.

Section pool_lemmas.
Context {C : Type}.
Implicit Types (clients : gmap string C).

Lemma getOrCreateClient_get (dial : string → result C) addr clients :
  getOrCreateClient dial addr clients = get dial addr clients.
Proof.
  unfold getOrCreateClient, get. destruct (clients !! addr); [done|]. destruct (dial addr); [|done].
  cbn. by rewrite lookup_insert_eq.
Qed.

Lemma gets_pooled calls clients j addr (c : C) r :
  clients !! addr = Some c → gets calls clients !! j = Some (addr, r) → r = Ok c.
Proof.
  revert clients j. induction calls as [|[dial a] calls IH]; intros clients j Hc Hj; [done|].
  cbn [gets] in Hj. unfold get in Hj.
  destruct (decide (a = addr)) as [->|Hne].
  - rewrite Hc in Hj. destruct j as [|j]; cbn in Hj; [by injection Hj|]. by eapply IH.
  - destruct (clients !! a); [|destruct (dial a)];
      (destruct j as [|j]; cbn in Hj; [by injection Hj|]; eapply IH; [|done]; by rewrite ?lookup_insert_ne).
Qed.
End pool_lemmas.

(** A pool gives out one connection per address: once a call for an address has
    succeeded, every later call for it returns that same connection, whatever dialling
    would answer then; a failed dial is not remembered and is retried. Both pools of the
    source ([nodeClientPool.get] and [getOrCreateClient]) behave so. *)
Theorem pool_stable {C : Type} (calls : list ((string → result C) * string)) (clients : gmap string C)
    (i j : nat) (addr : string) (c : C) (r : result C) :
  (∀ dial a m, getOrCreateClient dial a m = @get C dial a m) ∧
  (gets calls clients !! i = Some (addr, Ok c) → (i ≤ j)%nat →
   gets calls clients !! j = Some (addr, r) → r = Ok c) ∧
  (∀ dial e, clients !! addr = None → dial addr = Err e →
     get dial addr clients = (clients, Err (ErrWrap "grpc dial" e)) ∧
     ∀ dial' c', dial' addr = Ok c' → get dial' addr clients = (<[addr := c']> clients, Ok c')).
Proof.
  split_and!.
  - intros. apply getOrCreateClient_get.
  - revert clients i j. induction calls as [|[dial a] calls IH]; intros clients i j Hi Hle Hj; [done|].
    cbn [gets] in Hi, Hj. destruct (get dial a clients) as [clients' r'] eqn:E.
    destruct i as [|i]; destruct j as [|j]; [by simplify_eq/=|..|eapply (IH _ i j); [done|lia|done]]; [|lia].
    cbn in Hi, Hj. injection Hi as -> ->. eapply gets_pooled; [|exact Hj].
    unfold get in E. destruct (clients !! addr) eqn:Ha; [by simplify_eq|].
    destruct (dial addr); simplify_eq. by rewrite lookup_insert_eq.
  - intros dial e Hc Hd. unfold get. rewrite Hc, Hd. split; [done|]. intros dial' c' Hd'. by rewrite Hd'.
Qed.

Lemma pool_stable_witness :
  (Ok 7%nat : result nat) = Ok 7%nat.
Proof.
  apply (proj1 (proj2 (pool_stable
    [((λ _, Err (ErrMsg "down")), "a"); ((λ _, Ok 7%nat), "a"); ((λ _, Ok 8%nat), "b"); ((λ _, Ok 9%nat), "a")]
    ∅ 1 3 "a" 7%nat (Ok 7%nat)))); vm_compute; (reflexivity || lia).
Defined.
End Pool.

(** ** Ticker loops *)

(** What the [select] of a loop takes: a tick, with what the body reads of the world, or
    the end of the context. *)
Inductive select (A : Type) :=
  | Tick (x : A)
  | CtxDone.
Arguments Tick {A} _.
Arguments CtxDone {A}.

Fixpoint ticker_loop {A St} (body : A → St → St) (evs : list (select A)) (s : St) : St :=
  match evs with
  | Tick x :: evs => ticker_loop body evs (body x s)
  | _ => s
  end.

(** [time.Duration] constants. *)
Definition time_Second : Z := 1000000000.

(** A loop over [time.NewTicker], which panics when the interval is not positive; a panic
    of any goroutine ends the process, here [None]. *)
Definition with_ticker {A St} (interval : Z) (body : A → St → St) (evs : list (select A)) (s : St) : option St :=
  if interval <=? 0 then None else Some (ticker_loop body evs s).

(** The ticks a loop sees: those before the end of its context. *)
Fixpoint ticks {A} (evs : list (select A)) : list A :=
  match evs with
  | Tick x :: evs => x :: ticks evs
  | _ => []
  end.

Lemma ticker_loop_foldl {A St} (body : A → St → St) evs s :
  ticker_loop body evs s = foldl (λ s x, body x s) s (ticks evs).
Proof. revert s. induction evs as [|[x|] evs IH]; intros s; cbn; [done|apply IH|done]. Qed.

Lemma with_ticker_foldl {A St} interval (body : A → St → St) evs s :
  0 < interval → with_ticker interval body evs s = Some (foldl (λ s x, body x s) s (ticks evs)).
Proof. intros Hi. unfold with_ticker. rewrite (proj2 (Z.leb_gt _ _)) by lia. by rewrite ticker_loop_foldl. Qed.

(** ** The compactor's loop *)

Section compactor.
Context `{GoUnicode} `{Protobuf} `{Bloom}.

(** [Compactor.Start]: each tick runs the merge pass and then the retention pass. The
    interval is a product of [int64]s. *)
Definition compactor_tick (now : Z) (s : Compactor * Disk) : Compactor * Disk :=
  (c ← runMergePass s.1; runRetentionPass now c) s.2.
Definition Start (evs : list (select Z)) (c : Compactor) (d : Disk) : option (Compactor * Disk) :=
  if IntervalSeconds (c_cfg c) <=? 0 then Some (c, d)
  else with_ticker (int64 (IntervalSeconds (c_cfg c) * time_Second)) compactor_tick evs (c, d).
End compactor.

Section compactor_lemmas.
Context `{GoUnicode} `{Protobuf} `{Bloom}.
Implicit Types (c : Compactor).

(** A step of the compactor keeps its configuration and an index it has. *)
Definition keeps c c' : Prop := c_cfg c' = c_cfg c ∧ (is_Some (c_idx c) → is_Some (c_idx c')).
Definition keeping (m : IO Compactor) c : Prop := ∀ d, keeps c (m d).1.

Lemma keeps_refl c : keeps c c.
Proof. done. Qed.
Lemma keeps_trans c1 c2 c3 : keeps c1 c2 → keeps c2 c3 → keeps c1 c3.
Proof. intros [??] [??]. split; [congruence|auto]. Qed.
Lemma keeps_with_idx f c : keeps c (with_idx f c).
Proof. split; [done|]. cbn. intros [i ->]. by eexists. Qed.
Lemma keeps_with_manager m c : keeps c (with_manager m c).
Proof. done. Qed.

Lemma keeping_ret c c' : keeps c c' → keeping (mret c') c.
Proof. by intros ? d. Qed.
Lemma keeping_any {A} (m : IO A) k c : (∀ x, keeping (k x) c) → keeping (m ≫= k) c.
Proof. intros Hk d. rewrite bind_run. apply Hk. Qed.
Lemma keeping_bind (m : IO Compactor) k c :
  keeping m c → (∀ c', keeps c c' → keeping (k c') c) → keeping (m ≫= k) c.
Proof. intros Hm Hk d. rewrite bind_run. apply Hk, Hm. Qed.
Lemma keeping_weaken m c c' : keeps c c' → keeping m c' → keeping m c.
Proof. intros Hc Hm d. eapply keeps_trans; [exact Hc|apply Hm]. Qed.

Lemma restore_index_keeping ps c : keeping (restore_index ps c) c.
Proof.
  revert c. induction ps as [|p ps IH]; intros c; [by apply keeping_ret|]. cbn [restore_index].
  apply keeping_any. intros [l|e]; [|apply IH]. eapply keeping_weaken; [apply keeps_with_idx|apply IH].
Qed.

Lemma finish_merge_keeping p others all tokens c : keeping (finish_merge p others all tokens c) c.
Proof.
  unfold finish_merge. repeat (apply keeping_any; intros ?). apply keeping_ret.
  eapply keeps_trans; [apply keeps_with_idx|apply keeps_with_manager].
Qed.

Lemma mergeRun_keeping p others c : keeping (mergeRun p others c) c.
Proof.
  unfold mergeRun. apply keeping_any. intros [all|e]; [|by apply keeping_ret].
  apply keeping_any. intros _. apply keeping_any. intros [seg|e]; [|by apply keeping_ret].
  apply keeping_any. intros [[seg' tokens] ok]. apply keeping_any. intros _. destruct ok; cbn [negb].
  2: { apply keeping_any. intros _. by apply keeping_ret. }
  apply keeping_any. intros r. eapply keeping_weaken; [apply (keeps_with_idx (remove_segments (p :: others)))|].
  destruct r as [[]|e]; [apply finish_merge_keeping|]. apply keeping_any. intros _.
  destruct (c_idx (with_idx _ c)); [apply restore_index_keeping|by apply keeping_ret].
Qed.

Lemma flush_keeping run c : keeping (flush run c) c.
Proof. destruct run as [|p [|o others]]; [by apply keeping_ret..|apply mergeRun_keeping]. Qed.

Lemma merge_loop_keeping run closed c : keeping (merge_loop run closed c) c.
Proof.
  revert run c. induction closed as [|p closed IH]; intros run c; [apply flush_keeping|]. cbn [merge_loop].
  assert (keeping (c ← flush run c; merge_loop [] closed c) c) as Hf.
  { apply keeping_bind; [apply flush_keeping|]. intros c' Hc. eapply keeping_weaken; [exact Hc|apply IH]. }
  apply keeping_any. intros [size|e]; [|exact Hf]. destruct (_ <? _); [apply IH|exact Hf].
Qed.

Lemma runMergePass_keeping c : keeping (runMergePass c) c.
Proof.
  unfold runMergePass. destruct (_ <=? _); [by apply keeping_ret|].
  destruct (decide _); [by apply keeping_ret|apply merge_loop_keeping].
Qed.

Lemma retention_loop_keeping cutoff closed c : keeping (retention_loop cutoff closed c) c.
Proof.
  revert c. induction closed as [|p closed IH]; intros c; [by apply keeping_ret|]. cbn [retention_loop].
  apply keeping_any. intros [es|e]; [|apply IH]. destruct (_ && _); [|apply IH].
  do 2 (apply keeping_any; intros _). eapply keeping_weaken; [|apply IH].
  eapply keeps_trans; [apply keeps_with_manager|apply keeps_with_idx].
Qed.

Lemma runRetentionPass_keeping now c : keeping (runRetentionPass now c) c.
Proof. unfold runRetentionPass. destruct (_ <=? _); [by apply keeping_ret|apply retention_loop_keeping]. Qed.

(** The node's view of the compactor loses nothing. *)
Lemma compactor_of_after cfg nd c :
  keeps (compactor_of cfg nd) c → compactor_of cfg (after_compaction nd c) = c.
Proof.
  intros [Hcfg Hidx]. destruct c as [m i cf]. cbn in *. destruct Hidx as [idx ->]; [by eexists|].
  unfold compactor_of, after_compaction. cbn. by subst.
Qed.

Lemma compactor_tick_ops cfg now nd d :
  compactor_tick now (compactor_of cfg nd, d) =
  (let '(nd', d') := run_node cfg [OpMerge; OpRetain now] nd d in (compactor_of cfg nd', d')).
Proof.
  unfold compactor_tick. cbn [run_node run_node_op fst snd]. rewrite !bind_run, !ret_run. cbn [fst snd].
  pose proof (runMergePass_keeping (compactor_of cfg nd) d) as Hm.
  destruct (runMergePass (compactor_of cfg nd) d) as [c1 d1]. cbn [fst snd] in *.
  rewrite (compactor_of_after cfg nd c1 Hm).
  pose proof (runRetentionPass_keeping now c1 d1) as Hr.
  destruct (runRetentionPass now c1 d1) as [c2 d2]. cbn [fst snd] in *.
  rewrite compactor_of_after; [done|]. by rewrite (compactor_of_after cfg nd c1 Hm).
Qed.

Lemma run_node_app cfg ops1 ops2 nd d :
  run_node cfg (ops1 ++ ops2) nd d = (let '(nd', d') := run_node cfg ops1 nd d in run_node cfg ops2 nd' d').
Proof.
  revert nd d. induction ops1 as [|op ops1 IH]; intros nd d; [done|]. cbn [app run_node].
  rewrite !bind_run. apply IH.
Qed.

(** The compactor's loop is a run of the node: for every sequence of ticks, ended by the
    context or not, and on every disk, faults included, [Start] leaves the manager, the
    index and the disk as a node does that performs a merge pass and a retention pass per
    tick; with an interval of zero or less it does nothing, and it panics exactly when the
    interval in nanoseconds wraps to one that is not positive. What is proved of nodes over
    their life therefore holds of nodes that compact in the background. *)
Theorem Start_is_node_ops (cfg : CompactorConfig) (evs : list (select Z)) (nd : StorageNode) (d : Disk) :
  Start evs (compactor_of cfg nd) d =
  if (0 <? IntervalSeconds cfg) && (int64 (IntervalSeconds cfg * time_Second) <=? 0) then None else
  Some (let ops := if IntervalSeconds cfg <=? 0 then [] else (ticks evs) ≫= (λ now, [OpMerge; OpRetain now]) in
        let '(nd', d') := run_node cfg ops nd d in (compactor_of cfg nd', d')).
Proof.
  unfold Start. cbn [compactor_of c_cfg]. fold (compactor_of cfg nd). rewrite Z.ltb_antisym.
  destruct (IntervalSeconds cfg <=? 0); [done|]. cbn [negb andb]. unfold with_ticker. destruct (_ <=? 0); [done|].
  f_equal. rewrite ticker_loop_foldl. generalize (ticks evs) as ts. intros ts. revert nd d.
  induction ts as [|now ts IH]; intros nd d; [done|]. cbn [foldl]. rewrite compactor_tick_ops.
  rewrite bind_cons, run_node_app. destruct (run_node cfg [OpMerge; OpRetain now] nd d) as [nd' d'].
  apply IH.
Qed.
End compactor_lemmas.

(** ** The loops of a cluster node *)

Module NodeLoops.
Import Client.

(** [HeartbeatSender]. *)
Record HeartbeatSender := mkHeartbeatSender {
  hb_interval : Z;
  hb_nodeID : string;
}.
Definition NewHeartbeatSender (interval : Z) (nodeID : string) : HeartbeatSender :=
  mkHeartbeatSender interval nodeID.

(** [NewStateCache]: the state is empty until the first fetch. *)
Definition NewStateCache : Fsm.ClusterState := Fsm.mkClusterState ∅ ∅.

Section background.
Context (dial : string → result ()) (closing : GoError).

(** The body of [HeartbeatSender.Run]; [call] is what the coordinators answer. *)
Definition heartbeat_tick (h : HeartbeatSender) (call : nat → string → result ())
    (s : ClusterClient * Metrics) : ClusterClient * Metrics :=
  let '(c, r) := SendHeartbeat dial closing call s.1 in
  (c, gauge_Set NodeHealthStatus [hb_nodeID h] (match r with Err _ => 0 | Ok _ => 1 end) s.2).
Definition HeartbeatSender_Run (h : HeartbeatSender) (evs : list (select (nat → string → result ())))
    (s : ClusterClient * Metrics) : option (ClusterClient * Metrics) :=
  with_ticker (hb_interval h) (heartbeat_tick h) evs s.

(** [StateCache.Refresh] through the client, and the loop of [StateCache.Run]. *)
Definition Refresh (c : ClusterClient) (call : string → result (list Meta.NodeInfo * list Meta.ShardInfo))
    (state : Fsm.ClusterState) : Fsm.ClusterState :=
  StateCache.refresh (fetchState closing call c) state.
Definition StateCache_Run (interval : Z)
    (evs : list (select (ClusterClient * (string → result (list Meta.NodeInfo * list Meta.ShardInfo)))))
    (state : Fsm.ClusterState) : option Fsm.ClusterState :=
  with_ticker interval (λ x, Refresh x.1 x.2) evs state.

(** What a node's two loops share: the client, which only heartbeats move. *)
Record bg := mkBg {
  bg_client : ClusterClient;
  bg_state : Fsm.ClusterState;
  bg_metrics : Metrics;
}.

(** A tick of either loop. *)
Inductive bg_event :=
  | BgHeartbeat (call : nat → string → result ())
  | BgRefresh (call : string → result (list Meta.NodeInfo * list Meta.ShardInfo)).

Definition bg_step (h : HeartbeatSender) (ev : bg_event) (b : bg) : bg :=
  match ev with
  | BgHeartbeat call =>
    let '(c, ms) := heartbeat_tick h call (bg_client b, bg_metrics b) in mkBg c (bg_state b) ms
  | BgRefresh call => mkBg (bg_client b) (Refresh (bg_client b) call (bg_state b)) (bg_metrics b)
  end.
Definition bg_run (h : HeartbeatSender) (evs : list bg_event) (b : bg) : bg :=
  foldl (λ b ev, bg_step h ev b) b evs.

(** A tick that fetches nothing: a heartbeat, or a refresh no coordinator answers. *)
Definition fetches_nothing (ev : bg_event) : Prop :=
  match ev with
  | BgHeartbeat _ => True
  | BgRefresh call => ∀ a, ∃ e, call a = Err e
  end.

(** ** Lemmas *)

Lemma bg_run_app h evs1 evs2 b : bg_run h (evs1 ++ evs2) b = bg_run h evs2 (bg_run h evs1 b).
Proof. apply foldl_app. Qed.

Lemma bg_run_cons h ev evs b : bg_run h (ev :: evs) b = bg_run h evs (bg_step h ev b).
Proof. done. Qed.

Lemma bg_step_state h ev b : fetches_nothing ev → bg_state (bg_step h ev b) = bg_state b.
Proof.
  destruct ev as [call|call]; cbn; [by destruct (heartbeat_tick _ _ _)|]. intros Hf.
  unfold Refresh, StateCache.refresh, fetchState, currentClient. destruct (c_conn _) as [cn|]; [|done].
  destruct (conn_open cn); [|done]. by destruct (Hf (conn_addr cn)) as [e ->].
Qed.

Lemma bg_run_state h evs b : Forall fetches_nothing evs → bg_state (bg_run h evs b) = bg_state b.
Proof.
  intros Hf. revert b. induction Hf as [|ev evs Hev _ IH]; intros b; [done|].
  rewrite bg_run_cons, IH. by apply bg_step_state.
Qed.

(** Each loop on its own is a run of the shared state with the ticks of that loop. *)
Lemma heartbeat_loop_bg h evs c st ms :
  0 < hb_interval h →
  let b := bg_run h (BgHeartbeat <$> ticks evs) (mkBg c st ms) in
  HeartbeatSender_Run h evs (c, ms) = Some (bg_client b, bg_metrics b) ∧ bg_state b = st.
Proof.
  intros Hi. cbn zeta. unfold HeartbeatSender_Run. rewrite with_ticker_foldl by done. clear Hi. revert c ms.
  induction (ticks evs) as [|call ts IH]; intros c ms; [done|]. rewrite fmap_cons, bg_run_cons.
  cbn [foldl bg_step bg_client bg_state bg_metrics]. destruct (heartbeat_tick h call (c, ms)) as [c' ms']. apply IH.
Qed.
Lemma refresh_loop_bg h interval evs c st ms :
  0 < interval → Forall (λ x, x.1 = c) (ticks evs) →
  ∃ st', StateCache_Run interval evs st = Some st' ∧
    bg_run h (BgRefresh <$> (ticks evs).*2) (mkBg c st ms) = mkBg c st' ms.
Proof.
  intros Hi Hc. unfold StateCache_Run. rewrite with_ticker_foldl by done. eexists. split; [done|]. revert st.
  induction Hc as [|[c' call] ts Hc _ IH]; intros st; [done|]. cbn in Hc. subst c'.
  rewrite !fmap_cons, bg_run_cons. cbn [foldl bg_step bg_client bg_state bg_metrics fst snd]. apply IH.
Qed.

(** Routing reads nothing a fetch leaves out. *)
Lemma fetched_routing n R j id (cs := Fsm.layout n R) (got := Meta.protoToClusterState (Meta.GetClusterState cs)) :
  n < 2 ^ 31 →
  StateCache.ShardOwners got j = StateCache.ShardOwners cs j ∧
  StateCache.NodeAddress got id = StateCache.NodeAddress cs id.
Proof.
  intros Hn. subst got cs. rewrite Meta.fetched_layout by done.
  unfold StateCache.ShardOwners, StateCache.NodeAddress. cbn [Fsm.Shards Fsm.Nodes]. split; [done|].
  rewrite lookup_fmap. by destruct (Fsm.Nodes _ !! id).
Qed.

Lemma fetched_route n R id req (cs := Fsm.layout n R) :
  n < 2 ^ 31 →
  HandleIngest_route (Some (StateCache.reader (Meta.protoToClusterState (Meta.GetClusterState cs)))) id n req =
  HandleIngest_route (Some (StateCache.reader cs)) id n req.
Proof.
  intros Hn. subst cs. unfold HandleIngest_route. destruct req as [pb|]; [|done]. do 2 (destruct (decide _); [done|]).
  destruct (n =? 0); [done|]. cbn [StateCache.reader ShardOwners NodeAddress].
  destruct (fetched_routing n R (ShardID (Pb.Namespace pb) (Pb.Service pb) n) "" Hn) as [-> _].
  destruct (StateCache.ShardOwners _ _) as [primary replica].
  by destruct (fetched_routing n R 0 primary Hn) as [_ ->].
Qed.

(** C25. A node routes by the last state it fetched: whatever ticks its heartbeat and
    refresh loops made before, after a refresh that the connected coordinator answered with
    its state, and any further heartbeats and failed refreshes, the node finds for every
    shard the owners and for every node the address that the coordinator's state has; and
    the health gauge shows whether the last heartbeat got through. *)
Theorem cache_follows_coordinator (h : HeartbeatSender) (before after : list bg_event) (b : bg)
    (call : string → result (list Meta.NodeInfo * list Meta.ShardInfo)) (n : Z) (ps : list Fsm.payload)
    (j : Z) (id : string) (beat : nat → string → result ()) :
  let cs := Fsm.apply_all ps (Fsm.state (Fsm.NewFSM n)) in
  n < 2 ^ 31 →
  connected (bg_client (bg_run h before b)) →
  (∀ a, call a = Ok (Meta.GetClusterState cs)) →
  Forall fetches_nothing after →
  let b' := bg_run h (before ++ BgRefresh call :: after) b in
  StateCache.ShardOwners (bg_state b') j = StateCache.ShardOwners cs j ∧
  StateCache.NodeAddress (bg_state b') id = StateCache.NodeAddress cs id ∧
  bg_metrics (bg_step h (BgHeartbeat beat) b') !! (m_Name NodeHealthStatus, [hb_nodeID h])
    = Some (match (SendHeartbeat dial closing beat (bg_client b')).2 with Ok _ => 1 | Err _ => 0 end).
Proof.
  intros cs Hn Hc Hcall Haft b'.
  assert (bg_state b' = Meta.protoToClusterState (Meta.GetClusterState cs)) as Hst.
  { subst b'. rewrite bg_run_app, bg_run_cons, bg_run_state by done. cbn [bg_step bg_state]. unfold Refresh, fetchState.
    rewrite call_connected by done. by rewrite Hcall. }
  rewrite Hst. subst cs. rewrite Fsm.run_layout.
  destruct (fetched_routing n (Fsm.spec_all ps ∅) j id Hn) as [-> ->]. split_and!; [done..|].
  cbn [bg_step]. unfold heartbeat_tick. cbn [fst snd].
  destruct (SendHeartbeat dial closing beat (bg_client b')) as [c r]. cbn. unfold gauge_Set.
  rewrite lookup_insert_eq. by destruct r.
Qed.
End background.

Lemma cache_follows_coordinator_witness :
  let closing := grpc_Status codes_Canceled "closing" in
  let cs := Fsm.apply_all Fsm.sample_log (Fsm.state (Fsm.NewFSM 5)) in
  let h := NewHeartbeatSender 5000000000 "n" in
  let b0 := mkBg sample_client NewStateCache ∅ in
  let down := λ (_ : nat) (_ : string), Err (grpc_Status codes_Unavailable "down") in
  let b' := bg_run (λ _, Ok ()) closing h
    ([BgHeartbeat down] ++ BgRefresh (λ _, Ok (Meta.GetClusterState cs)) ::
     [BgRefresh (λ _, Err (grpc_Status codes_Unavailable "down"))]) b0 in
  StateCache.ShardOwners (bg_state b') 3 = StateCache.ShardOwners cs 3 ∧
  StateCache.NodeAddress (bg_state b') "b" = StateCache.NodeAddress cs "b" ∧
  bg_metrics (bg_step (λ _, Ok ()) closing h (BgHeartbeat down) b') !! (m_Name NodeHealthStatus, [hb_nodeID h])
    = Some (match (SendHeartbeat (λ _, Ok ()) closing down (bg_client b')).2 with Ok _ => 1 | Err _ => 0 end).
Proof.
  intros closing cs h b0 down.
  apply (cache_follows_coordinator (λ _, Ok ()) closing h [BgHeartbeat down]
    [BgRefresh (λ _, Err (grpc_Status codes_Unavailable "down"))] b0
    (λ _, Ok (Meta.GetClusterState cs)) 5 Fsm.sample_log 3 "b" down).
  - lia.
  - split; [vm_compute; lia|vm_compute; reflexivity].
  - done.
  - apply Forall_singleton. intros a. by eexists.
Defined.
End NodeLoops.
