(* ===== verification/Detector.v ===== *)
(** * Failure detection ([internal/metadata/liveness.go], [server.go])

    The coordinator that leads registers nodes, takes their heartbeats and, at every tick
    of [StartLivenessChecker], marks the silent ones; every coordinator publishes the
    health of the nodes it knows. The specification is an automaton per node. *)

From S2P Require Import Prelude GoStrings Observability Types Record Disk Segment Ranking Index Parser Bloom.
From S2P Require Import Paths Strconv Json Manager Executor Recovery Fsm Snapshot Ingest Compaction Node Metadata Client Loops.

Module Detector.
Import Fsm Snap Meta.

(** [emitNodeHealthMetrics]. *)
Definition emitNodeHealthMetrics (cs : ClusterState) (ms : Metrics) : Metrics :=
  foldl (λ ms node, gauge_Set NodeHealthStatus [n_ID node]
                      (if decide (n_Status node = NodeHealthy) then 1 else 0) ms)
    ms (map_to_list (Nodes cs)).*2.

(** The body of [StartLivenessChecker]: whether this coordinator leads, what becomes of
    the commands, and the time, are read at the tick. *)
Definition liveness_tick (timeoutNs : Z) (w : bool * (string → raft_outcome) * Z)
    (s : ClusterState * Metrics) : ClusterState * Metrics :=
  let '(leader, outcome, now) := w in
  let cs := if leader then checkLiveness outcome now timeoutNs s.1 else s.1 in
  (cs, emitNodeHealthMetrics cs s.2).
Definition StartLivenessChecker (interval timeoutNs : Z) (evs : list (select (bool * (string → raft_outcome) * Z)))
    (s : ClusterState * Metrics) : option (ClusterState * Metrics) :=
  with_ticker interval (liveness_tick timeoutNs) evs s.

(** What a coordinator does between two looks at its state. *)
Inductive event :=
  | EvRegister (leader : bool) (now : Z) (id addr : string)
  | EvHeartbeat (leader : bool) (now : Z) (id : string)
  | EvTick (leader : bool) (now : Z).

Definition step (timeoutNs : Z) (ev : event) (s : ClusterState * Metrics) : ClusterState * Metrics :=
  match ev with
  | EvRegister leader now id addr => ((RegisterNode leader Committed now id addr s.1).1, s.2)
  | EvHeartbeat leader now id => ((Heartbeat leader Committed now id s.1).1, s.2)
  | EvTick leader now => liveness_tick timeoutNs (leader, (λ _, Committed), now) s
  end.
Definition run (timeoutNs : Z) (evs : list event) (s : ClusterState * Metrics) : ClusterState * Metrics :=
  foldl (λ s ev, step timeoutNs ev s) s evs.

(** ** Specification *)

(** What the detector holds of one node: unknown, or its status and when it was seen. *)
Definition watch : Type := option (NodeStatus * Z).

Definition watch_step (timeoutNs : Z) (id : string) (w : watch) (ev : event) : watch :=
  match ev with
  | EvRegister true now id' addr =>
    if decide (id' = id ∧ id ≠ "" ∧ addr ≠ "") then Some (NodeHealthy, now) else w
  | EvHeartbeat true now id' =>
    if decide (id' = id ∧ id ≠ "") then (λ x, (x.1, now)) <$> w else w
  | EvTick true now =>
    (λ x, if negb (bool_decide (x.1 = NodeUnhealthy)) && (timeoutNs <? int64 (now - x.2))
          then (NodeUnhealthy, x.2) else x) <$> w
  | _ => w
  end.

(** Times are [int64] and texts UTF-8, as the handlers receive them. *)
Definition event_ok (ev : event) : Prop :=
  match ev with
  | EvRegister _ now id addr => valid_utf8 id = true ∧ valid_utf8 addr = true ∧ in_int64 now
  | EvHeartbeat _ now id => valid_utf8 id = true ∧ in_int64 now
  | EvTick _ _ => True
  end.

Definition watch_of (cs : ClusterState) (id : string) : watch :=
  (λ nd, (n_Status nd, n_LastSeen nd)) <$> Nodes cs !! id.

(** ** Lemmas *)

Definition ids_ok (R : gmap string entry) : Prop := ∀ id e, R !! id = Some e → valid_utf8 id = true.

Definition seen (e : entry) : NodeStatus * Z := (e_Status e, e_LastSeen e).

Lemma watch_of_layout n R id : watch_of (layout n R) id = seen <$> R !! id.
Proof.
  unfold watch_of. cbn [layout Nodes]. rewrite mknodes_lookup, <- option_fmap_compose. by destruct (R !! id).
Qed.

Lemma applyCommand_state p cs :
  payload_ok p → (applyCommand true Committed p cs).1 = (apply_payload p cs).1.
Proof. intros Hp. unfold applyCommand, raft_Apply. cbn [negb]. rewrite Apply_marshal by done. by destruct (apply_payload p cs). Qed.

Lemma register_state leader now id addr cs :
  event_ok (EvRegister leader now id addr) →
  (RegisterNode leader Committed now id addr cs).1 =
  if leader && negb (bool_decide (id = "") || bool_decide (addr = ""))
  then (apply_payload (RegisterNodePayload id addr now) cs).1 else cs.
Proof.
  intros Hok. unfold RegisterNode. destruct (_ || _) eqn:E; cbn [negb andb]; rewrite ?andb_false_r, ?andb_true_r; [done|].
  destruct leader; [|done].
  rewrite <- (applyCommand_state (RegisterNodePayload id addr now) cs) by done.
  by destruct (applyCommand true Committed _ cs).
Qed.

Lemma heartbeat_state leader now id cs :
  event_ok (EvHeartbeat leader now id) →
  (Heartbeat leader Committed now id cs).1 =
  if leader && negb (bool_decide (id = "")) then (apply_payload (UpdateHeartbeatPayload id now) cs).1 else cs.
Proof.
  intros Hok. unfold Heartbeat. case_bool_decide; cbn [negb]; rewrite ?andb_false_r, ?andb_true_r; [done|].
  destruct leader; [|done]. by apply applyCommand_state.
Qed.

Lemma step_layout timeout ev n R ms :
  event_ok ev → ids_ok R →
  ∃ R' ms', step timeout ev (layout n R, ms) = (layout n R', ms') ∧ ids_ok R' ∧
    (∀ id, seen <$> R' !! id = watch_step timeout id (seen <$> R !! id) ev) ∧
    (∀ leader now, ev = EvTick leader now → ms' = emitNodeHealthMetrics (layout n R') ms).
Proof.
  intros Hok Hids. destruct ev as [leader now id addr|leader now id|leader now]; cbn [step fst snd].
  - rewrite register_state by done. destruct (leader && _) eqn:E.
    + apply andb_true_iff in E as [-> E%negb_true_iff]. apply orb_false_iff in E as [E1 E2].
      apply bool_decide_eq_false in E1, E2. rewrite apply_payload_layout. eexists _, ms.
      split_and!; [done| | |done].
      * intros i e. cbn [spec_payload]. rewrite lookup_insert_Some. intros [[<- _]|[_ ?]]; [apply Hok|by eapply Hids].
      * intros i. cbn [spec_payload watch_step]. destruct (decide (id = i)) as [->|Hne].
        -- by rewrite lookup_insert_eq, decide_True.
        -- rewrite lookup_insert_ne by done. by rewrite decide_False by naive_solver.
    + exists R, ms. split_and!; [done|done| |done]. intros i. destruct leader; [|done]. cbn [watch_step].
      rewrite decide_False; [done|]. intros (-> & ? & ?). cbn in E. by rewrite !bool_decide_false in E.
  - rewrite heartbeat_state by done. destruct (leader && _) eqn:E.
    + apply andb_true_iff in E as [-> E%negb_true_iff]. apply bool_decide_eq_false in E.
      rewrite apply_payload_layout. eexists _, ms. split_and!; [done| | |done].
      * intros i e. cbn [spec_payload]. rewrite lookup_alter_Some. intros [(<- & ? & ? & _)|[_ ?]]; by eapply Hids.
      * intros i. cbn [spec_payload watch_step]. destruct (decide (id = i)) as [->|Hne].
        -- rewrite lookup_alter_eq, decide_True by done. by destruct (R !! i).
        -- rewrite lookup_alter_ne by done. by rewrite decide_False by naive_solver.
    + exists R, ms. split_and!; [done|done| |done]. intros i. destruct leader; [|done]. cbn [watch_step].
      rewrite decide_False; [done|]. intros (-> & ?). cbn in E. by rewrite bool_decide_false in E.
  - unfold liveness_tick. cbn [fst snd]. destruct leader.
    + rewrite checkLiveness_layout by done. eexists _, _. split_and!; [done| | |done].
      * intros i e. rewrite lookup_fmap, fmap_Some. intros (e0 & ? & _). by eapply Hids.
      * intros i. rewrite lookup_fmap. cbn [watch_step]. destruct (R !! i) as [e|]; [|done]. cbn. f_equal.
        unfold mark_stale, seen, marked. cbn [fst snd]. by case_match.
    + by eexists R, _.
Qed.

Lemma run_layout_steps timeout evs n R ms :
  Forall event_ok evs → ids_ok R →
  ∃ R' ms', run timeout evs (layout n R, ms) = (layout n R', ms') ∧ ids_ok R' ∧
    ∀ id, seen <$> R' !! id = foldl (watch_step timeout id) (seen <$> R !! id) evs.
Proof.
  intros Hok. revert R ms. induction Hok as [|ev evs Hev _ IH]; intros R ms Hids; [by exists R, ms|].
  destruct (step_layout timeout ev n R ms Hev Hids) as (R1 & ms1 & E & Hids1 & Hw & _).
  destruct (IH R1 ms1 Hids1) as (R2 & ms2 & E2 & Hids2 & Hw2).
  exists R2, ms2. split_and!; [|done|].
  - unfold run in *. cbn [foldl]. by rewrite E.
  - intros id. cbn [foldl]. by rewrite Hw2, Hw.
Qed.

(** The goroutine is the run of its ticks. *)
Lemma checker_run interval timeout evs s :
  0 < interval →
  StartLivenessChecker interval timeout ((λ lt, Tick (lt.1, (λ _, Committed), lt.2)) <$> evs) s
  = Some (run timeout ((λ lt, EvTick lt.1 lt.2) <$> evs) s).
Proof.
  intros Hi. unfold StartLivenessChecker, run. rewrite with_ticker_foldl by done. f_equal. clear Hi. revert s.
  induction evs as [|[leader now] evs IH]; intros s; [done|]. rewrite !fmap_cons. cbn [ticks foldl]. apply IH.
Qed.

(** The gauges after publishing: those of the nodes known are set, others kept. *)
Lemma emit_gauge n R ms id :
  emitNodeHealthMetrics (layout n R) ms !! (m_Name NodeHealthStatus, [id]) =
  match R !! id with
  | Some e => Some (if decide (e_Status e = NodeHealthy) then 1 else 0)
  | None => ms !! (m_Name NodeHealthStatus, [id])
  end.
Proof.
  unfold emitNodeHealthMetrics, gauge_Set. set (l := (map_to_list (Nodes (layout n R))).*2).
  destruct (layout_keys n R) as [HN _].
  assert (∀ nd, nd ∈ l ↔ Nodes (layout n R) !! n_ID nd = Some nd) as Hl.
  { intros nd. subst l. rewrite list_elem_of_fmap. split.
    - intros ([k v] & -> & Hkv%elem_of_map_to_list). cbn. by rewrite (HN k v Hkv).
    - intros Hnd. exists (n_ID nd, nd). split; [done|]. by apply elem_of_map_to_list. }
  assert (n_ID <$> l = (map_to_list (Nodes (layout n R))).*1) as Hids.
  { subst l. rewrite <- list_fmap_compose. apply list_fmap_ext. intros i [k v] Hi. cbn. apply HN, elem_of_map_to_list.
    by eapply list_elem_of_lookup_2. }
  destruct (fold_insert_lookup (λ nd, (m_Name NodeHealthStatus, [n_ID nd]))
    (λ nd, if decide (n_Status nd = NodeHealthy) then 1 else 0) l ms) as [H1 H2].
  { rewrite (list_fmap_compose n_ID (λ i, (m_Name NodeHealthStatus, [i]))), Hids.
    apply NoDup_fmap_2; [by intros ?? [=]|]. apply NoDup_fst_map_to_list. }
  destruct (R !! id) as [e|] eqn:He.
  - apply (H1 (layout_node (healthy R) n id e)). apply Hl. cbn [layout Nodes layout_node n_ID].
    by rewrite mknodes_lookup, He.
  - apply H2. intros (nd & [= ->] & Hnd%Hl)%list_elem_of_fmap. cbn [layout Nodes] in Hnd.
    rewrite mknodes_lookup, He in Hnd. done.
Qed.

(** ** Properties *)

(** C17. Failure detection refines an automaton per node: after any registrations,
    heartbeats and checker ticks, on a coordinator that leads or not, the status and the
    time last seen of every node in the replicated state are those of the automaton that
    follows this node alone: registration makes it healthy, a heartbeat only moves the
    time, and a tick of the leader marks it exactly when it has been silent for longer than
    the timeout. After a tick the published gauge of each known node is 1 if the automaton
    says healthy and 0 otherwise. *)
Theorem detector_refines (timeout n : Z) (evs : list event) (id : string) (ms : Metrics) :
  Forall event_ok evs →
  let spec := λ evs, foldl (watch_step timeout id) None evs in
  watch_of (run timeout evs (state (NewFSM n), ms)).1 id = spec evs ∧
  (∀ leader now st t,
     spec (evs ++ [EvTick leader now]) = Some (st, t) →
     (run timeout (evs ++ [EvTick leader now]) (state (NewFSM n), ms)).2 !! (m_Name NodeHealthStatus, [id])
       = Some (if decide (st = NodeHealthy) then 1 else 0)).
Proof.
  intros Hok spec. rewrite NewFSM_layout.
  assert (ids_ok ∅) as H0 by (by intros ? ? ?%lookup_empty_Some).
  destruct (run_layout_steps timeout evs n ∅ ms Hok H0) as (R & ms1 & E & Hids & Hw). split.
  - rewrite E. cbn [fst]. by rewrite watch_of_layout, Hw.
  - intros leader now st t Hst.
    destruct (step_layout timeout (EvTick leader now) n R ms1 I Hids) as (R' & ms' & E' & _ & Hw' & Hms).
    assert (run timeout (evs ++ [EvTick leader now]) (layout n ∅, ms) = (layout n R', ms')) as ->.
    { unfold run in *. rewrite foldl_app, E. cbn [foldl]. exact E'. }
    cbn [snd]. rewrite (Hms leader now eq_refl), emit_gauge.
    specialize (Hw' id). rewrite Hw, lookup_empty in Hw'. cbn [fmap option_fmap option_map] in Hw'.
    unfold spec in Hst. rewrite foldl_app in Hst. cbn [foldl] in Hst. rewrite Hst in Hw'.
    destruct (R' !! id) as [e|]; cbn in Hw'; [|done]. by injection Hw' as -> _.
Qed.

(** ** Witnesses *)

(** A node falls silent, is marked, and its late heartbeat does not bring it back. *)
Definition silent_run : list event :=
  [EvRegister true 0 "a" "h:1"; EvRegister true 0 "b" "h:2"; EvHeartbeat true 10 "a"; EvTick true 12;
   EvTick false 40; EvHeartbeat true 20 "a"].

Lemma detector_refines_witness :
  let spec := λ evs, foldl (watch_step 11 "b") None evs in
  watch_of (run 11 silent_run (state (NewFSM 4), ∅)).1 "b" = spec silent_run ∧
  (∀ leader now st t,
     spec (silent_run ++ [EvTick leader now]) = Some (st, t) →
     (run 11 (silent_run ++ [EvTick leader now]) (state (NewFSM 4), ∅)).2 !! (m_Name NodeHealthStatus, ["b"])
       = Some (if decide (st = NodeHealthy) then 1 else 0)).
Proof.
  apply (detector_refines 11 4 silent_run "b" ∅).
  repeat first [apply Forall_nil_2 | apply Forall_cons_2]; unfold event_ok, in_int64; split_and?; try done; lia.
Defined.

Example silent_watch :
  foldl (watch_step 11 "a") None silent_run = Some (NodeHealthy, 20) ∧
  foldl (watch_step 11 "b") None silent_run = Some (NodeUnhealthy, 0) ∧
  (run 11 silent_run (state (NewFSM 4), ∅)).2 !! (m_Name NodeHealthStatus, ["b"]) = Some 0.
Proof. vm_compute. done. Qed.
End Detector.
