(* ===== verification/Startup.v ===== *)
(** * Process startup ([cmd/node/main.go], [cmd/coordinator/main.go])

    How the environment becomes the configuration, in which mode a storage node starts and
    what it is wired to, and how a coordinator bootstraps its Raft group. What the processes
    ask of others is a record of answers. *)

From S2P Require Import Prelude GoStrings Observability Types Record Disk Segment Ranking Index Parser Bloom.
From S2P Require Import Paths Strconv Json Manager Executor Recovery Fsm Snapshot Ingest Compaction Node Catchup.
From S2P Require Import Metadata Client Loops.

(** ** The environment *)

(** [os.Getenv]: an unset variable reads as the empty text. *)
Definition Env : Type := string → string.

Definition envOrDefault (env : Env) (key def : string) : string :=
  if decide (env key = "") then def else env key.
Definition envInt64OrDefault (env : Env) (key : string) (def : Z) : Z :=
  if decide (env key = "") then def else default def (ParseInt (env key)).
Definition envIntOrDefault (env : Env) (key : string) (def : Z) : Z :=
  if decide (env key = "") then def else default def (Atoi (env key)).

(** ** The storage node *)

Module NodeMain.

Record NodeConfig := mkNodeConfig {
  cfg_nodeID : string;
  cfg_metricsAddr : string;
  cfg_dataDir : string;
  cfg_grpcAddr : string;
  cfg_advertisedAddr : string;
  cfg_maxSegBytes : Z;
  cfg_coordinatorAddrs : string;
  cfg_heartbeatInterval : Z;
  cfg_totalShards : Z;
}.

Definition node_config (env : Env) : NodeConfig :=
  let grpcAddr := envOrDefault env "GRPC_ADDR" ":50051" in
  {| cfg_nodeID := envOrDefault env "NODE_ID" "node-local";
     cfg_metricsAddr := envOrDefault env "METRICS_ADDR" ":9090";
     cfg_dataDir := envOrDefault env "DATA_DIR" "./data";
     cfg_grpcAddr := grpcAddr;
     cfg_advertisedAddr := envOrDefault env "NODE_GRPC_ADDR" grpcAddr;
     cfg_maxSegBytes := envInt64OrDefault env "MAX_SEGMENT_BYTES" (64 * 1024 * 1024);
     cfg_coordinatorAddrs := envOrDefault env "COORDINATOR_ADDRS" "";
     cfg_heartbeatInterval := int64 (envIntOrDefault env "HEARTBEAT_INTERVAL_SECONDS" 5 * time_Second);
     cfg_totalShards := envIntOrDefault env "TOTAL_SHARDS" 4 |}.

(** The overrides of the compactor's defaults: a text that is no number is ignored. *)
Definition env_override (parse : string → option Z) (env : Env) (key : string) (cur : Z) : Z :=
  if decide (env key = "") then cur else match parse (env key) with Some n => n | None => cur end.
Definition compact_config (env : Env) : CompactorConfig :=
  let cfg := DefaultCompactorConfig in
  {| MergeThresholdBytes := env_override ParseInt env "COMPACT_MERGE_THRESHOLD_BYTES" (MergeThresholdBytes cfg);
     RetentionDays := env_override Atoi env "COMPACT_RETENTION_DAYS" (RetentionDays cfg);
     IntervalSeconds := env_override Atoi env "COMPACT_INTERVAL_SECONDS" (IntervalSeconds cfg) |}.

(** What [main] is answered: dialling coordinators, the error of a closed connection, the
    registrations until the deadline in the wait after attempt [w_deadline], the two state
    fetches, the connections to other nodes, and the listener. *)
Record world := mkWorld {
  w_env : Env;
  w_dial : string → result ();
  w_closing : GoError;
  w_register : nat → string → result (list Z);
  w_deadline : nat;
  w_refresh : string → result (list Meta.NodeInfo * list Meta.ShardInfo);
  w_catchup : string → result (list Meta.NodeInfo * list Meta.ShardInfo);
  w_nodes : string → result ingest_client;
  w_listen : string → result ();
}.

Section node_main.
Context `{GoUnicode} `{Protobuf} `{Bloom}.

(** The constructors of the orchestrator, with a replicator or without, and of the server
    over one. A local server calls itself [local]. *)
Definition NewOrchestrator (nodeID : string) (totalShards : Z) (m : Manager) (idx : Index)
    (replicator : gmap string (list Replicator.replicaJob)) : StorageNode :=
  mkStorageNode nodeID totalShards m idx (Some replicator).
Definition newLocalOrchestrator (m : Manager) (idx : Index) : StorageNode := mkStorageNode "" 0 m idx None.
Definition NewServer (orch : StorageNode) (nodeID : string) (totalShards : Z) (m : Manager) (idx : Index)
    : StorageNode :=
  mkStorageNode nodeID totalShards m idx (nd_replicator orch).
Definition NewLocalServer (m : Manager) (idx : Index) : StorageNode :=
  let orch := newLocalOrchestrator m idx in mkStorageNode "local" 0 m idx (nd_replicator orch).

(** A running node: its server, the state cache it routes by and the client, both absent in
    local mode, and the compactor's configuration. *)
Record process := mkProcess {
  p_node : StorageNode;
  p_cache : option Fsm.ClusterState;
  p_client : option Client.ClusterClient;
  p_compact : CompactorConfig;
}.
Definition p_reader (p : process) : option ClusterStateReader := StateCache.reader <$> p_cache p.

(** Joining the cluster: [None] is the fall-back to local mode. *)
Definition join (w : world) : option Client.ClusterClient :=
  let cfg := node_config (w_env w) in
  if decide (cfg_coordinatorAddrs cfg = "") then None else
  match Client.NewClusterClient (w_dial w) (Client.ParseAddrs (cfg_coordinatorAddrs cfg)) (cfg_nodeID cfg) with
  | Err _ => None
  | Ok c =>
    match Client.Register (w_dial w) (w_closing w) (S (w_deadline w)) (w_register w) (Some (w_deadline w)) 0 c with
    | Some (c, Ok _) => Some c
    | _ => None
    end
  end.

(** The catch-up of [main]: skipped if the state cannot be fetched. *)
Definition main_catchup (w : world) (c : Client.ClusterClient) (nd : StorageNode) : IO StorageNode :=
  match Client.fetchState (w_closing w) (w_catchup w) c with
  | Err _ => mret nd
  | Ok st => '(nd, _) ← CatchUp (w_nodes w) (Fsm.Nodes st) (map_to_list (Fsm.Shards st)) 0 nd; mret nd
  end.

(** The storage and the servers of [main]; an error is [log.Fatalf]. *)
Definition node_wire (w : world) : IO (result process) :=
  let cfg := node_config (w_env w) in
  let compactCfg := compact_config (w_env w) in
  r ← start_node (cfg_dataDir cfg) (cfg_maxSegBytes cfg) (cfg_nodeID cfg)
        (bool_decide (w_env w "BLOOM_ENABLED" = "true"));
  match r with
  | Err e => mret (Err e)
  | Ok (m, idx) =>
    match join w with
    | None => mret (Ok (mkProcess (NewLocalServer m idx) None None compactCfg))
    | Some c =>
      let cache := NodeLoops.Refresh (w_closing w) c (w_refresh w) NodeLoops.NewStateCache in
      let orch := NewOrchestrator (cfg_nodeID cfg) (cfg_totalShards cfg) m idx ∅ in
      nd ← main_catchup w c (NewServer orch (cfg_nodeID cfg) (cfg_totalShards cfg) m idx);
      mret (Ok (mkProcess nd (Some cache) (Some c) compactCfg))
    end
  end.

(** [main] up to serving: the listener is opened last. *)
Definition node_main (w : world) : IO (result process) :=
  r ← node_wire w;
  let addr := cfg_grpcAddr (node_config (w_env w)) in
  mret match r, w_listen w addr with
       | Err e, _ => Err e
       | Ok _, Err e => Err (ErrWrap ("net.Listen " +:+ addr) e)
       | Ok p, Ok _ => Ok p
       end.
End node_main.
End NodeMain.

(** ** The coordinator *)

Module CoordinatorMain.

(** The program has its own copies of the two functions. *)
Definition envOrDefault (env : Env) (key def : string) : string :=
  if decide (env key = "") then def else env key.
Definition envIntOrDefault (env : Env) (key : string) (def : Z) : Z :=
  if decide (env key = "") then def else default def (Atoi (env key)).

Record CoordinatorConfig := mkCoordinatorConfig {
  cc_nodeID : string;
  cc_bindAddr : string;
  cc_dataDir : string;
  cc_peersStr : string;
  cc_grpcAddr : string;
  cc_httpAddr : string;
  cc_totalShards : Z;
  cc_heartbeatInterval : Z;
  cc_heartbeatTimeout : Z;
  cc_nodeQueryTimeoutMs : Z;
  cc_fanOutLimit : Z;
}.

Definition coordinator_config (env : Env) : CoordinatorConfig :=
  {| cc_nodeID := envOrDefault env "RAFT_NODE_ID" "coordinator-local";
     cc_bindAddr := envOrDefault env "RAFT_BIND_ADDR" "127.0.0.1:7000";
     cc_dataDir := envOrDefault env "RAFT_DATA_DIR" "./raft-data";
     cc_peersStr := envOrDefault env "RAFT_PEERS" "";
     cc_grpcAddr := envOrDefault env "GRPC_ADDR" ":9000";
     cc_httpAddr := envOrDefault env "HTTP_ADDR" ":8080";
     cc_totalShards := envIntOrDefault env "TOTAL_SHARDS" 16;
     cc_heartbeatInterval := int64 (envIntOrDefault env "HEARTBEAT_INTERVAL_SECONDS" 5 * time_Second);
     cc_heartbeatTimeout := int64 (envIntOrDefault env "HEARTBEAT_TIMEOUT_SECONDS" 15 * time_Second);
     cc_nodeQueryTimeoutMs := envIntOrDefault env "NODE_QUERY_TIMEOUT_MS" 5000;
     cc_fanOutLimit := int32 (envIntOrDefault env "FAN_OUT_LIMIT" 1000) |}.

(** [raft.Server]. *)
Record raft_Server := mkServer {
  srv_ID : string;
  srv_Address : string;
}.

(** One element of the list: [SplitN] at the first equals sign gives two parts or one. *)
Definition parse_peer (pair : string) : option raft_Server :=
  '(id, addr) ← Cut1 (TrimSpace pair) "=";
  Some (mkServer (TrimSpace id) (TrimSpace addr)).

Definition parsePeers (peersStr selfID selfAddr : string) : list raft_Server :=
  if decide (peersStr = "") then [mkServer selfID selfAddr]
  else omap parse_peer (Client.split_comma "" peersStr).

(** The servers [main] bootstraps with: none when Raft has state already. *)
Definition bootstrap (hasState : bool) (cfg : CoordinatorConfig) : option (list raft_Server) :=
  if hasState then None else Some (parsePeers (cc_peersStr cfg) (cc_nodeID cfg) (cc_bindAddr cfg)).

(** The body of the [/status] handler: [json.Encoder] ends the value with a newline. *)
Definition status_body (f : Fsm.FSM) : string :=
  print (Snap.cluster_json (Snap.State f)) +:+ String "010" "".
End CoordinatorMain.

(** ** Lemmas *)

(** Characters of an address or identifier in a list: ASCII, no space and no comma. *)
Definition plain (c : ascii) : bool :=
  (code c <? RuneSelf) && negb (IsSpace (code c)) && negb (bool_decide (c = ","%char)).

Lemma plain_trim s : string_forallb plain s = true → TrimSpace s = s.
Proof.
  intros Hs. apply TrimSpace_id. induction s as [|c s IH]; [done|]. cbn in *.
  apply andb_true_iff in Hs as [Hc Hs]. unfold plain in Hc. rewrite andb_true_iff in Hc. destruct Hc as [-> _].
  by apply IH.
Qed.

Lemma split_plain cur a s :
  string_forallb plain a = true →
  Client.split_comma cur (a +:+ s) = Client.split_comma (cur +:+ a) s.
Proof.
  revert cur. induction a as [|c a IH]; intros cur Ha; cbn; [by rewrite string_app_nil_r|].
  cbn in Ha. apply andb_true_iff in Ha as [Hc Ha]. unfold plain in Hc.
  apply andb_true_iff in Hc as [_ Hc%negb_true_iff%bool_decide_eq_false]. rewrite decide_False by done.
  rewrite IH by done. by rewrite <- string_app_assoc.
Qed.

(** The elements joined with commas. *)
Fixpoint join_comma (l : list string) : string :=
  match l with
  | [] => ""
  | [a] => a
  | a :: l => a +:+ "," +:+ join_comma l
  end.

Lemma split_join l :
  l ≠ [] → Forall (λ a, string_forallb plain a = true) l → Client.split_comma "" (join_comma l) = l.
Proof.
  intros Hne Hl. induction Hl as [|a l Ha Hl IH]; [done|]. destruct l as [|b l].
  - cbn [join_comma]. rewrite <- (string_app_nil_r a) at 1. rewrite split_plain by done. done.
  - change (join_comma (a :: b :: l)) with (a +:+ "," +:+ join_comma (b :: l)).
    rewrite split_plain by done. cbn [String.append Client.split_comma]. rewrite decide_True by done.
    f_equal. by apply IH.
Qed.

(** ** Properties: configuration *)

Module CoordinatorProps.
Import CoordinatorMain.

(** How an operator writes a server. *)
Definition print_peer (s : raft_Server) : string := srv_ID s +:+ "=" +:+ srv_Address s.

(** The texts a peer list can carry: the identifier has no equals sign. *)
Definition peer_ok (s : raft_Server) : bool :=
  string_forallb plain (srv_ID s) && string_forallb plain (srv_Address s) && negb (string_elem "=" (srv_ID s)).

(** The peer list reads back: every non-empty list of servers, written as
    [id=address] pairs with commas, is what [parsePeers] returns and what a coordinator
    without Raft state bootstraps with; without a list it bootstraps alone, and one that has
    state does not bootstrap. *)
Theorem peers_roundtrip (servers : list raft_Server) (cfg : CoordinatorConfig) :
  servers ≠ [] → Forall (λ s, peer_ok s = true) servers →
  cc_peersStr cfg = join_comma (print_peer <$> servers) →
  bootstrap false cfg = Some servers ∧ bootstrap true cfg = None ∧
  parsePeers "" (cc_nodeID cfg) (cc_bindAddr cfg) = [mkServer (cc_nodeID cfg) (cc_bindAddr cfg)].
Proof.
  intros Hne Hok Hs. split_and!; [|done..]. unfold bootstrap, parsePeers. rewrite Hs.
  assert (Forall (λ s, string_forallb plain (print_peer s) = true ∧ parse_peer (print_peer s) = Some s) servers) as Hp.
  { eapply Forall_impl; [exact Hok|]. intros [id addr]. unfold peer_ok, print_peer. cbn [srv_ID srv_Address].
    rewrite !andb_true_iff, negb_true_iff. intros [[Hi Ha] He].
    assert (string_forallb plain (id +:+ "=" +:+ addr) = true) as Hpl.
    { rewrite !string_forallb_app, Hi, Ha. done. }
    split; [done|]. unfold parse_peer. rewrite plain_trim by done.
    rewrite (proj2 (Cut1_Some (id +:+ "=" +:+ addr) "=" id addr)) by done. cbn.
    by rewrite !plain_trim. }
  rewrite decide_False.
  - rewrite split_join.
    + f_equal. clear -Hp. induction Hp as [|s l [_ Hs] _ IH]; [done|]. rewrite fmap_cons. cbn. by rewrite Hs, IH.
    + by destruct servers.
    + rewrite Forall_fmap. eapply Forall_impl; [exact Hp|]. by intros s [? _].
  - intros He. apply (f_equal (Client.split_comma "")) in He. rewrite split_join in He.
    + destruct servers as [|s [|]]; [done| |done]. cbn in He. injection He as He.
      unfold print_peer in He. by destruct (srv_ID s).
    + by destruct servers.
    + rewrite Forall_fmap. eapply Forall_impl; [exact Hp|]. by intros s [? _].
Qed.

(** The status page shows the state: decoding what [/status] serves gives the
    coordinator's cluster state after any Raft log, last-seen times included. *)
Theorem status_roundtrip (n : Z) (log : list string) (g : Fsm.FSM) :
  n ≤ 2 ^ 63 →
  let f := Snap.apply_log log (Fsm.NewFSM n) in
  Snap.Restore (status_body f) g = (Fsm.mkFSM (Fsm.state f) (Fsm.totalShards g), Ok true).
Proof.
  intros Hn f. unfold status_body, Snap.State. rewrite Snap.clone_id.
  destruct (Snap.cluster_reads n (Fsm.state f) Hn (Snap.log_typed n log)) as [Hok Hd].
  unfold Snap.Restore. rewrite parse_first_print by done. cbn [mbind option_bind]. by rewrite Hd.
Qed.

(** The defaults disagree: without [TOTAL_SHARDS] a coordinator lays out sixteen shards
    and a storage node hashes into four, so writes only ever reach the owners of the first
    four shards, however many nodes are healthy. *)
Theorem default_shards_differ (ps : list Fsm.payload) (ns svc : string) :
  let env := λ _ : string, "" in
  let layout := Fsm.apply_all ps (Fsm.state (Fsm.NewFSM (cc_totalShards (coordinator_config env)))) in
  let j := ShardID ns svc (NodeMain.cfg_totalShards (NodeMain.node_config env)) in
  (∀ k, is_Some (Fsm.Shards layout !! k) ↔ 0 ≤ k < 16) ∧ 0 ≤ j < 4.
Proof.
  intros env layout j. split; [|apply ShardID_range; vm_compute; done].
  intros k. subst layout. rewrite Fsm.run_layout. change (cc_totalShards _) with 16.
  cbn [Fsm.layout Fsm.Shards]. rewrite Fsm.mkshards_lookup. case_decide; split; intros Hk; first [done|by eexists|by destruct Hk].
Qed.
End CoordinatorProps.

(** ** Properties: the storage node *)

Module NodeProps.
Import NodeMain.

Lemma env_int_roundtrip env key def n :
  in_int64 n → env key = FormatInt n →
  envIntOrDefault env key def = n ∧ envInt64OrDefault env key def = n.
Proof.
  intros Hn E. unfold envIntOrDefault, envInt64OrDefault, Atoi. pose proof (ParseInt_FormatInt n Hn) as Hp.
  rewrite E. rewrite decide_False by (intros H0; by rewrite H0 in Hp). by rewrite Hp.
Qed.

(** Why a node starts in local mode: no addresses, none that can be dialled first, or a
    registration that never succeeds before the deadline. *)
Definition no_cluster (w : world) : Prop :=
  let addrs := Client.ParseAddrs (cfg_coordinatorAddrs (node_config (w_env w))) in
  addrs = [] ∨ (∃ a l e, addrs = a :: l ∧ w_dial w a = Err e) ∨ (∀ t a, ∃ e, w_register w t a = Err e).

Lemma no_cluster_join w : no_cluster w → join w = None.
Proof.
  unfold no_cluster, join. cbn zeta. intros Hw. destruct (decide _); [done|].
  destruct (Client.NewClusterClient _ _ _) as [c|e] eqn:Hc; [|done].
  destruct Hw as [Hnil|[(a & l & e & Hl & Hd)|Hr]].
  - by rewrite Hnil in Hc.
  - rewrite Hl in Hc. unfold Client.NewClusterClient, Client.connectTo in Hc. by rewrite Hd in Hc.
  - destruct (Client.Register _ _ _ _ _ _ _) as [[c' [shards|e]]|] eqn:HR; [|done..].
    by destruct (Client.Register_fails _ _ _ _ _ _ _ Hr _ _ HR).
Qed.

Section props.
Context `{GoUnicodeLaws} `{ProtobufLaws} `{BloomLaws}.

(** [main] without a cluster, on a directory whose storage starts. *)
Lemma local_main w d m idx d' (cfg := node_config (w_env w)) :
  no_cluster w → (∀ a, w_listen w a = Ok ()) →
  start_node (cfg_dataDir cfg) (cfg_maxSegBytes cfg) (cfg_nodeID cfg) (bool_decide (w_env w "BLOOM_ENABLED" = "true")) d
    = (Ok (m, idx), d') →
  node_main w d = (Ok (mkProcess (NewLocalServer m idx) None None (compact_config (w_env w))), d').
Proof.
  intros Hw Hlis Hs. subst cfg. unfold node_main, node_wire. io. rewrite Hs. cbn [fst snd]. rewrite no_cluster_join by done. io.
  by rewrite Hlis.
Qed.

(** A node without a cluster serves on its own: whatever its environment, when it has no
    usable coordinator address or cannot register, [main] still starts on an empty data
    directory if it can listen, routes every valid write to itself, and from then on, with the compactor
    configured from the environment, over any sequence of operations every query answers
    the accepted entries less those that retention could expire. *)
Theorem local_node_serves (w : world) (d : Disk) :
  no_cluster w → (∀ a, w_listen w a = Ok ()) → no_faults d → empty_dir (cfg_dataDir (node_config (w_env w))) d →
  ∃ p d0, node_main w d = (Ok p, d0) ∧
    (∀ pb, Pb.Service pb ≠ "" → Pb.Message pb ≠ "" →
       HandleIngest_route (p_reader p) (nd_id (p_node p)) (nd_totalShards (p_node p)) (Some pb) = WriteLocal pb "") ∧
    ∀ ops, within_limits (p_compact p) ops (p_node p) d0 = true →
    ∃ nd d' kept, run_node (p_compact p) ops (p_node p) d0 = (nd, d') ∧
      (∀ x, x ∈ kept → x ∈ accepted (p_node p) ops) ∧
      (∀ x, x ∈ accepted (p_node p) ops → x ∈ kept ∨ expired (p_compact p) (p_node p) ops x) ∧
      ∀ q ast took, id_consistent (accepted (p_node p) ops) → 0 ≤ Limit q → 0 ≤ Offset q →
        Parse (QueryString q) = Ok ast →
        w_env w "BLOOM_ENABLED" ≠ "true" ∨ (∀ n, ast = Some n → bloom_safe (accepted (p_node p) ops) n) →
        Execute (nd_index nd) (nd_manager nd) None None took q d' = (Ok (answer q ast kept took), d').
Proof.
  intros Hw Hlis Hn He. set (cfg := node_config (w_env w)) in *.
  destruct (start_empty (cfg_dataDir cfg) (cfg_maxSegBytes cfg) (cfg_nodeID cfg)
    (bool_decide (w_env w "BLOOM_ENABLED" = "true")) d Hn He) as (m & idx & d0 & Hrun & Hn0 & _ & Hbe & _ & Hinv & Hd).
  exists (mkProcess (NewLocalServer m idx) None None (compact_config (w_env w))), d0. split_and!.
  - by apply local_main.
  - intros pb Hs Hm. cbn. by rewrite !decide_False.
  - cbn [p_compact p_node]. intros ops Hlim.
    destruct (run_node_answers (compact_config (w_env w)) ops (NewLocalServer m idx) d0 (seq_path (cfg_dataDir cfg) 1))
      as (nd & d' & kept & Hr & Hsub & Hacc & Hq); [by split_and!|done|].
    exists nd, d', kept. split_and!; [done..|]. intros q ast took ???? Hb. apply Hq; try done.
    cbn [NewLocalServer nd_manager]. rewrite Hbe. destruct Hb as [Hb|Hb]; [left|by right]. by apply bool_decide_false.
Qed.

(** C24. A node that can reach the leader joins: with a coordinator list that holds the
    leader, a deadline of at least one round over the list and [TOTAL_SHARDS] as the
    coordinator's, [main] registers, stays connected, and starts in cluster mode; whatever
    catch-up does, it serves under its identifier with an empty replicator and routes every
    request as the coordinator's state says. *)
Theorem cluster_node_joins (w : world) (n : Z) (ps : list Fsm.payload) (lead : nat) (shards : list Z) (d : Disk) :
  let cfg := node_config (w_env w) in
  let l := Client.ParseAddrs (cfg_coordinatorAddrs cfg) in
  let cs := Fsm.apply_all ps (Fsm.state (Fsm.NewFSM n)) in
  0 < n < 2 ^ 31 → w_env w "TOTAL_SHARDS" = FormatInt n →
  (lead < length l)%nat → (length l ≤ S (w_deadline w))%nat → (∀ a, w_dial w a = Ok ()) →
  (∀ t, w_register w t (default "" (l !! lead)) = Ok shards) →
  (∀ t a, w_register w t a = Ok shards ∨ ∃ e, w_register w t a = Err e ∧ Client.retryable e = true) →
  (∀ a, w_refresh w a = Ok (Meta.GetClusterState cs)) → (∀ a, w_listen w a = Ok ()) →
  no_faults d → empty_dir (cfg_dataDir cfg) d →
  ∃ p d' c, node_main w d = (Ok p, d') ∧ p_client p = Some c ∧ Client.connected c ∧
    nd_id (p_node p) = cfg_nodeID cfg ∧ nd_replicator (p_node p) = Some ∅ ∧
    ∀ req, HandleIngest_route (p_reader p) (nd_id (p_node p)) (nd_totalShards (p_node p)) req =
           HandleIngest_route (Some (StateCache.reader cs)) (cfg_nodeID cfg) n req.
Proof.
  intros cfg l cs Hn Hts Hlead Hlen Hdial Hreg Hothers Href Hlis Hnf He.
  assert (∃ c, join w = Some c ∧ Client.connected c) as (c & Hjoin & Hc).
  { unfold join. fold cfg. rewrite decide_False by (intros E; subst l; rewrite E in Hlead; change (length _) with 0%nat in Hlead; lia).
    fold l. destruct (Client.NewClusterClient (w_dial w) l (cfg_nodeID cfg)) as [c|e] eqn:Hc.
    - destruct (Client.NewClusterClient_connected _ _ _ _ Hc) as (Hconn & Ha & _).
      destruct (Client.Register_finds (w_dial w) (w_closing w) (w_register w) c lead shards (length l)
        (S (w_deadline w)) 0 (Some (w_deadline w))) as (c' & -> & Hc'); rewrite ?Ha; try done.
      + apply Nat.mod_upper_bound. lia.
      + intros t [= <-]. lia.
      + by exists c'.
    - exfalso. unfold Client.NewClusterClient, Client.connectTo in Hc. destruct l; [cbn in Hlead; lia|].
      by rewrite Hdial in Hc. }
  destruct (start_empty (cfg_dataDir cfg) (cfg_maxSegBytes cfg) (cfg_nodeID cfg)
    (bool_decide (w_env w "BLOOM_ENABLED" = "true")) d Hnf He) as (m & idx & d0 & Hrun & _).
  set (nd0 := NewServer (NewOrchestrator (cfg_nodeID cfg) (cfg_totalShards cfg) m idx ∅)
    (cfg_nodeID cfg) (cfg_totalShards cfg) m idx).
  assert (same_wiring nd0 (main_catchup w c nd0 d0).1) as (Hid & Ht & Hrep).
  { unfold main_catchup. destruct (Client.fetchState _ _ _) as [st|e]; [|done]. rewrite bind_run.
    pose proof (CatchUp_wiring (w_nodes w) (Fsm.Nodes st) (map_to_list (Fsm.Shards st)) 0 nd0 d0) as Hw.
    by destruct (CatchUp _ _ _ _ _ _) as [[nd' k] d1]. }
  destruct (main_catchup w c nd0 d0) as [nd d1] eqn:Hcu. cbn [fst] in *.
  eexists (mkProcess nd (Some _) (Some c) _), d1, c. split; [|split_and!; try done].
  - unfold node_main, node_wire. fold cfg. io. rewrite Hrun. cbn [fst snd]. rewrite Hjoin. io. fold nd0.
    rewrite Hcu. cbn [fst snd]. by rewrite Hlis.
  - intros req. cbn [p_node p_reader p_cache]. rewrite Hid, Ht. cbn [nd0 NewServer nd_id nd_totalShards].
    assert (cfg_totalShards cfg = n) as ->.
    { apply (env_int_roundtrip (w_env w) "TOTAL_SHARDS" 4 n); [unfold in_int64; lia|done]. }
    unfold NodeLoops.Refresh, Client.fetchState. rewrite Client.call_connected by done. rewrite Href.
    cbn [StateCache.refresh p_reader p_cache fmap option_fmap option_map]. unfold cs. rewrite Fsm.run_layout. apply NodeLoops.fetched_route. lia.
Qed.
End props.
End NodeProps.

(** ** Witnesses *)

Lemma peers_roundtrip_witness :
  let cfg := CoordinatorMain.coordinator_config
    (λ k, if decide (k = "RAFT_PEERS") then "c1=h1:7000,c2=h2:7000" else "") in
  CoordinatorMain.bootstrap false cfg
    = Some [CoordinatorMain.mkServer "c1" "h1:7000"; CoordinatorMain.mkServer "c2" "h2:7000"] ∧
  CoordinatorMain.bootstrap true cfg = None ∧
  CoordinatorMain.parsePeers "" (CoordinatorMain.cc_nodeID cfg) (CoordinatorMain.cc_bindAddr cfg)
    = [CoordinatorMain.mkServer (CoordinatorMain.cc_nodeID cfg) (CoordinatorMain.cc_bindAddr cfg)].
Proof.
  intros cfg. apply (CoordinatorProps.peers_roundtrip
    [CoordinatorMain.mkServer "c1" "h1:7000"; CoordinatorMain.mkServer "c2" "h2:7000"] cfg).
  - done.
  - repeat first [apply Forall_nil_2 | apply Forall_cons_2]; vm_compute; reflexivity.
  - vm_compute. reflexivity.
Defined.

Lemma status_roundtrip_witness :
  let f := Snap.apply_log Snap.sample_bytes (Fsm.NewFSM 5) in
  Snap.Restore (CoordinatorMain.status_body f) (Fsm.NewFSM 0) = (Fsm.mkFSM (Fsm.state f) 0, Ok true).
Proof. apply (CoordinatorProps.status_roundtrip 5 Snap.sample_bytes (Fsm.NewFSM 0)). lia. Defined.

(** A node whose coordinators are never ready, and one that joins through the second. *)
Definition sample_env (addrs : string) : Env := λ k,
  if decide (k = "COORDINATOR_ADDRS") then addrs
  else if decide (k = "TOTAL_SHARDS") then "5"
  else if decide (k = "COMPACT_RETENTION_DAYS") then "seven"
  else if decide (k = "DATA_DIR") then "data" else "".
Definition down {A} : result A := Err (grpc_Status codes_Unavailable "down").
Definition alone : NodeMain.world :=
  NodeMain.mkWorld (sample_env "c1:9000") (λ _, Ok ()) (grpc_Status codes_Canceled "closing") (λ _ _, down) 59
    (λ _, down) (λ _, down) (λ _, down) (λ _, Ok ()).
Definition joining : NodeMain.world :=
  NodeMain.mkWorld (sample_env "c1:9000, c2:9000") (λ _, Ok ()) (grpc_Status codes_Canceled "closing")
    (λ _ a, if decide (a = "c2:9000") then Ok [1; 3] else down) 59
    (λ _, Ok (Meta.GetClusterState (Fsm.apply_all Fsm.sample_log (Fsm.state (Fsm.NewFSM 5)))))
    (λ _, down) (λ _, down) (λ _, Ok ()).

Lemma local_node_serves_witness :
  let H1 := ascii_tables in let H2 := bit_codec in let H3 := exact_bloom in
  ∃ p d0, NodeMain.node_main alone (mkDisk ∅ []) = (Ok p, d0) ∧
    HandleIngest_route (NodeMain.p_reader p) (nd_id (NodeMain.p_node p)) (nd_totalShards (NodeMain.p_node p))
      (Some (life_pb "a" "disk full" 1)) = WriteLocal (life_pb "a" "disk full" 1) "".
Proof.
  intros H1 H2 H3.
  destruct (@NodeProps.local_node_serves ascii_tables ascii_tables_laws bit_codec bit_codec_laws exact_bloom
    exact_bloom_laws alone (mkDisk ∅ [])) as (p & d0 & Hm & Hroute & _).
  - right; right. intros t a. by eexists.
  - done.
  - done.
  - by split.
  - exists p, d0. split; [exact Hm|]. by apply Hroute.
Defined.

Lemma cluster_node_joins_witness :
  let H1 := ascii_tables in let H2 := bit_codec in let H3 := exact_bloom in
  let cs := Fsm.apply_all Fsm.sample_log (Fsm.state (Fsm.NewFSM 5)) in
  ∃ p d' c, NodeMain.node_main joining (mkDisk ∅ []) = (Ok p, d') ∧ NodeMain.p_client p = Some c ∧
    Client.connected c ∧ nd_id (NodeMain.p_node p) = "node-local" ∧ nd_replicator (NodeMain.p_node p) = Some ∅ ∧
    ∀ req, HandleIngest_route (NodeMain.p_reader p) (nd_id (NodeMain.p_node p)) (nd_totalShards (NodeMain.p_node p)) req =
           HandleIngest_route (Some (StateCache.reader cs)) "node-local" 5 req.
Proof.
  intros H1 H2 H3.
  apply (@NodeProps.cluster_node_joins ascii_tables ascii_tables_laws bit_codec bit_codec_laws exact_bloom exact_bloom_laws
    joining 5 Fsm.sample_log 1 [1; 3] (mkDisk ∅ [])).
  - lia.
  - vm_compute. reflexivity.
  - apply (bool_decide_unpack _). vm_compute. exact I.
  - apply (bool_decide_unpack _). vm_compute. exact I.
  - done.
  - intros t. vm_compute. reflexivity.
  - intros t a. cbn [joining NodeMain.w_register]. destruct (decide (a = "c2:9000")); [by left|right]. by eexists.
  - done.
  - done.
  - done.
  - by split.
Defined.
