(* ===== verification/Shutdown.v ===== *)
(** * Shutdown of a storage node ([cmd/node/main.go], [internal/storage/manager.go] [Close])

    After a signal [main] cancels the context of its goroutines, waits for the requests in
    flight, closes the manager and returns. It does not wait for the compactor: a pass that
    is under way goes on while the manager is closed and ends with the process, wherever it
    is. The theorem says that this is safe. *)

From S2P Require Import Prelude GoStrings Observability Types Record Disk Segment Ranking Index Parser Bloom.
From S2P Require Import Paths Strconv Json Manager Executor Recovery Merge Fsm Snapshot Cache Fanout Ingest Replication Compaction.
From S2P Require Import Threads Goroutines Rely Requests Compacting Races Crash.
From S2P Require Import Node Catchup Metadata Client Loops Startup.
Import NodeMain NodeProps.

Section shutdown.
Context `{GoUnicode} `{Protobuf} `{Bloom}.

(** The end of [main], with the answer of the metrics server: the manager is closed, errors
    are logged, and the deferred calls stop the replicator and close the client. What is
    left of the process, and the lines of its log. *)
Definition node_shutdown (metrics : result ()) (p : process)
    : IO (process * list (string * option GoError)) :=
  let nd := p_node p in
  '(m, r) ← Close (nd_manager nd);
  let lines := ("shutting down", None)
    :: match r with Err e => [("manager close", Some e)] | Ok _ => [] end
    ++ match metrics with Err e => [("metrics server shutdown error", Some e)] | Ok _ => [] end
    ++ [("node stopped", None)] in
  mret (mkProcess (with_store m (nd_index nd) nd) (p_cache p)
          (Client.Close <$> p_client p) (p_compact p), lines).

(** The process with the node as its requests and its compactor left it. *)
Definition served (nd : StorageNode) (p : process) : process :=
  mkProcess nd (p_cache p) (p_client p) (p_compact p).

(** [manager.Close()] among the goroutines: a critical section of its own. *)
Definition Close_go : action Shared (result ()) := critical Close.

(** The shared state with the manager closed. *)
Definition shut (s : Shared) : Shared := put_manager (with_active None (sh_manager s)) s.

(** A goroutine that does not look at the active segment: each of its actions does the same
    in the closed state, and it goes on in the same way. *)
Fixpoint blind {A} (p : prog Shared A) : Prop :=
  match p with
  | Ret _ => True
  | Act f k =>
    (∀ s, match f s, f (shut s) with
          | None, None => True
          | Some (x, s1), Some (x', s1') => s1' = shut s1 ∧ k x' = k x
          | _, _ => False
          end) ∧
    ∀ x, blind (k x)
  end.
End shutdown.

Create HintDb blind.

(** ** Lemmas: goroutines that do not look at the active segment *)

Section blind_lemmas.
Context `{GoUnicodeLaws} `{ProtobufLaws} `{BloomLaws}.

Lemma blind_ret {A} (a : A) : blind (mret a).
Proof. done. Qed.

Lemma blind_bind {A B} (p : prog Shared A) (k : A → prog Shared B) :
  blind p → (∀ a, blind (k a)) → blind (p ≫= k).
Proof.
  intros Hp Hk. change (p ≫= k) with (prog_bind k p). induction p as [a|X f k' IH]; [apply Hk|].
  destruct Hp as [Hf Hk']. split; [|intros x; by apply IH]. intros s. specialize (Hf s).
  destruct (f s) as [[x s1]|], (f (shut s)) as [[x' s1']|]; try done. destruct Hf as [-> E]. by rewrite E.
Qed.

Lemma blind_do_io {A} (c : IO A) : blind (atomically (do_io c)).
Proof. split; [|done]. intros s. unfold do_io. cbn. by destruct (c (sh_disk s)). Qed.

Lemma blind_do_index f : blind (atomically (do_index f)).
Proof. by split. Qed.

(** A critical section that neither reads nor writes the active segment. *)
Lemma blind_critical {A} (c : Manager → IO (Manager * A)) :
  (∀ m d, c (with_active None m) d = (let '((m', a), d') := c m d in ((with_active None m', a), d'))) →
  blind (atomically (critical c)).
Proof.
  intros Hc. split; [|done]. intros s. unfold critical, do_manager. cbn. destruct (sh_mu s); [done|].
  rewrite Hc. by destruct (c (sh_manager s) (sh_disk s)) as [[m' a] d'].
Qed.

#[local] Hint Resolve blind_ret blind_do_io blind_do_index : blind.
Ltac blind_tac :=
  repeat first [done | solve [auto with blind] | apply blind_bind; [|intros ?] | case_match].

Lemma blind_prune ast kept ps : blind (prune_go ast kept ps).
Proof.
  revert kept. induction ps as [|p ps IH]; intros kept; cbn [prune_go]; [done|].
  apply blind_bind; [|intros bf; apply IH]. by apply blind_critical.
Qed.

Lemma blind_ReadSegments all ps : blind (ReadSegments_go all ps).
Proof. revert all. induction ps as [|p ps IH]; intros all; cbn [ReadSegments_go]; blind_tac. Qed.
#[local] Hint Resolve blind_prune blind_ReadSegments : blind.

Lemma blind_Execute err1 err2 took req : blind (Execute_go err1 err2 took req).
Proof. unfold Execute_go. blind_tac. Qed.

Lemma blind_merge_append b seg tokens all : blind (merge_append_go b seg tokens all).
Proof. revert seg tokens. induction all as [|e all IH]; intros seg tokens; cbn [merge_append_go]; blind_tac. Qed.

Lemma blind_RemoveSegments ps : blind (RemoveSegments_go ps).
Proof. induction ps as [|p ps IH]; cbn [RemoveSegments_go]; blind_tac. Qed.

Lemma blind_Add_all path es : blind (Add_all_go path es).
Proof. induction es as [|e es IH]; cbn [Add_all_go]; blind_tac. Qed.
#[local] Hint Resolve blind_merge_append blind_RemoveSegments blind_Add_all : blind.

Lemma blind_restore_index ps : blind (restore_index_go ps).
Proof. induction ps as [|p ps IH]; cbn [restore_index_go]; blind_tac. Qed.

Lemma blind_delete_files ps : blind (delete_files_go ps).
Proof. induction ps as [|p ps IH]; cbn [delete_files_go]; blind_tac. Qed.

Lemma blind_install newPath others : blind (atomically (critical (install_merged newPath others))).
Proof.
  apply blind_critical. intros m d. unfold install_merged. rewrite !bind_run. cbn [bloomEnabled with_active].
  match goal with |- context [if bloomEnabled m then ?a else ?b] => set (load := if bloomEnabled m then a else b) end.
  destruct (load d) as [loaded d1]. unfold merged_manager. cbn. by destruct (bloomEnabled m).
Qed.
#[local] Hint Resolve blind_restore_index blind_delete_files blind_install : blind.

Lemma blind_mergeRun newPath others : blind (mergeRun_go newPath others).
Proof.
  unfold mergeRun_go. apply blind_bind; [blind_tac|intros [all|e]; [|done]].
  do 2 (apply blind_bind; [blind_tac|intros ?]). case_match; [|done].
  split; [by intros s|]. intros m. change (prog_bind ?k (Ret ?x)) with (k x). cbn beta. blind_tac.
Qed.
#[local] Hint Resolve blind_mergeRun : blind.

Lemma blind_flush run : blind (flush_go run).
Proof. unfold flush_go. blind_tac. Qed.
#[local] Hint Resolve blind_flush : blind.

Lemma blind_merge_loop threshold run closed : blind (merge_loop_go threshold run closed).
Proof. revert run. induction closed as [|p closed IH]; intros run; cbn [merge_loop_go]; blind_tac. Qed.

Lemma blind_retention_loop cutoff closed : blind (retention_loop_go cutoff closed).
Proof.
  induction closed as [|p closed IH]; cbn [retention_loop_go]; blind_tac. by apply blind_critical.
Qed.
#[local] Hint Resolve blind_Execute blind_merge_loop blind_retention_loop : blind.

(** Every goroutine but a write. *)
Lemma blind_spawn me j : (∀ msg e, j ≠ Write msg e) → blind (spawn me j).
Proof.
  destruct j as [msg e|err1 err2 took req|threshold closed|cutoff closed]; intros Hj; cbn [spawn];
    [by destruct (Hj msg e)|blind_tac..].
Qed.

(** ** Lemmas: a pool whose manager is closed *)

Lemma blind_turn {A} (p : prog Shared A) s :
  blind p → turn p (shut s) = ((turn p s).1, shut (turn p s).2) ∧ blind (turn p s).1.
Proof.
  destruct p as [a|X f k]; [done|]. intros Hp. pose proof Hp as [Hf Hk]. cbn [turn]. specialize (Hf s).
  destruct (f s) as [[x s1]|], (f (shut s)) as [[x' s1']|]; try done. destruct Hf as [-> ->]. by split; [|apply Hk].
Qed.

Lemma blind_pool_step {A} i (c : list (prog Shared A) * Shared) :
  Forall blind c.1 →
  pool_step i (c.1, shut c.2) = ((pool_step i c).1, shut (pool_step i c).2) ∧ Forall blind (pool_step i c).1.
Proof.
  intros Hb. unfold pool_step. cbn [fst snd]. destruct (c.1 !! i) as [p|] eqn:Hi; [|done].
  pose proof (proj1 (Forall_lookup _ _) Hb i p Hi) as Hp. destruct (blind_turn p c.2 Hp) as [-> Hp'].
  destruct (turn p c.2) as [p' s']. split; [done|]. by apply Forall_insert.
Qed.

Lemma blind_pool_run {A} sched (c : list (prog Shared A) * Shared) :
  Forall blind c.1 → pool_run sched (c.1, shut c.2) = ((pool_run sched c).1, shut (pool_run sched c).2).
Proof.
  revert c. induction sched as [|i sched IH]; intros c Hb; [done|]. rewrite !pool_run_cons.
  destruct (blind_pool_step i c Hb) as [-> Hb']. by apply IH.
Qed.

(** Goroutines stay so while they run. *)
Lemma pool_run_blind {A} sched (c : list (prog Shared A) * Shared) i p :
  blind (default p (c.1 !! i)) → (pool_run sched c).1 !! i = Some p → blind p.
Proof.
  revert c. induction sched as [|j sched IH]; intros c Hb Hp; [cbn in Hp; by rewrite Hp in Hb|].
  rewrite pool_run_cons in Hp. apply (IH (pool_step j c)); [|done]. unfold pool_step.
  destruct (c.1 !! j) as [q|] eqn:Hj; [|done]. destruct (turn q c.2) as [q' s'] eqn:Ht. cbn [fst].
  destruct (decide (i = j)) as [->|Hne]; [|by rewrite list_lookup_insert_ne].
  rewrite list_lookup_insert_eq by (by eapply lookup_lt_Some). rewrite Hj in Hb. cbn in *.
  destruct (blind_turn q c.2 Hb) as [_ Hq]. by rewrite Ht in Hq.
Qed.

(** A goroutine that has returned has returned for good. *)
Lemma reply_stays sched (c : list (prog Shared reply) * Shared) i x :
  reply_of c i = Some x → reply_of (pool_run sched c) i = Some x.
Proof.
  revert c. induction sched as [|j sched IH]; intros c Hx; [done|]. rewrite pool_run_cons. apply IH.
  unfold reply_of, pool_step in *. destruct (c.1 !! j) as [q|] eqn:Hj; [|done].
  destruct (turn q c.2) as [q' s'] eqn:Ht. cbn [fst]. destruct (decide (i = j)) as [->|Hne]; [|by rewrite list_lookup_insert_ne].
  rewrite list_lookup_insert_eq by (by eapply lookup_lt_Some). rewrite Hj in Hx. cbn in *.
  destruct q as [a|]; [|done]. by injection Ht as <- _.
Qed.

(** When every write has returned nobody holds the mutex, and nobody who still runs looks
    at the active segment. *)
Section pool.
Context (m : Manager) (idx : Index) (d : Disk) (segs : gmap string (list LogEntry)) (jobs : list job).
Context (sched : list nat) (n : nat) (Hok : pool_ok (length sched + n) m idx d segs jobs).
Notation c := (pool_run sched (start m idx d jobs)).
Context (Hdone : ∀ i, is_writer jobs i → is_Some (reply_of c i)).

Lemma writes_done_free : sh_mu c.2 = None.
Proof.
  pose proof (start_config _ _ _ _ _ _ Hok) as Hc. apply config_run in Hc.
  destruct (sh_mu c.2) as [h|] eqn:Hmu; [|done].
  assert (is_writer jobs h) as Hw by (destruct Hc as [[_ _ _ _ Hh _ _ _] _]; by apply Hh).
  destruct (Hdone h Hw) as [x Hx]. exfalso.
  destruct (reply_post _ _ _ _ _ _ _ _ _ Hc Hx) as (s & (j & _ & Hne & _) & _ & [_ HR] & _). by apply HR.
Qed.

Lemma writes_done_blind : Forall blind c.1.
Proof.
  apply Forall_lookup. intros i p Hp. destruct (jobs !! i) as [j|] eqn:Hj.
  - destruct (decide (is_Some (returned p))) as [[a Ha]|Hr]; [by destruct p|].
    apply (pool_run_blind sched (start m idx d jobs) i p); [|done]. unfold start. cbn [fst].
    rewrite list_lookup_imap, Hj. cbn. apply blind_spawn. intros msg e ->.
    destruct (Hdone i) as [x Hx]; [by exists msg, e|]. unfold reply_of in Hx. rewrite Hp in Hx. cbn in Hx. by destruct Hr.
  - exfalso. apply lookup_lt_Some in Hp. rewrite pool_run_length in Hp. unfold start in Hp. cbn in Hp.
    rewrite length_imap in Hp. apply lookup_ge_None in Hj. lia.
Qed.

(** Closing the manager then changes no file and leaves the others where they were. *)
Lemma writes_done_close : Close_go c.2 = Some (Ok (), shut c.2).
Proof.
  pose proof (start_config _ _ _ _ _ _ Hok) as Hc. apply config_run in Hc. destruct Hc as [Hinv _].
  unfold Close_go, critical. rewrite writes_done_free. unfold do_manager.
  destruct (mi_active _ _ _ (inv_manager _ _ _ Hinv writes_done_free)) as (seg & bytes & _ & Ha & _ & (_ & Hoff & _) & _).
  pose proof (inv_faults _ _ _ Hinv) as Hn. unfold Close. rewrite Ha. rewrite bind_run.
  rewrite (Segment_Close_done _ seg (length bytes)) by done.
  cbn. unfold shut. by destruct c as [? []].
Qed.
End pool.
End blind_lemmas.

(** ** Properties *)

Section properties.
Context `{GoUnicodeLaws} `{ProtobufLaws} `{BloomLaws}.

(** C5. Shutting down is safe at any moment: when the server has drained its requests, so
    that every write has returned, after any schedule and wherever the compactor is in its
    pass, [Close] is not blocked, succeeds and changes no file; and if the compactor is given
    any number of further turns before the process ends, the node starts again from the disk
    and every query finds every write and every stored entry that no retention pass may
    delete. *)
Theorem shutdown_recovers (m : Manager) (idx : Index) (d : Disk) (segs : gmap string (list LogEntry))
    (jobs : list job) (before after : list nat) (maxBytes : Z) (node : string) (bloom_env : bool) :
  pool_ok (length (before ++ after)) m idx d segs jobs →
  let c := pool_run before (start m idx d jobs) in
  (∀ i, is_writer jobs i → is_Some (reply_of c i)) →
  ∃ s, Close_go c.2 = Some (Ok (), s) ∧ active (sh_manager s) = None ∧ sh_disk s = sh_disk c.2 ∧
    comes_back (mdir m) segs jobs (pool_run after (c.1, s)) maxBytes node bloom_env.
Proof.
  intros Hok c Hdone. rewrite length_app in Hok.
  pose proof (writes_done_close m idx d segs jobs before (length after) Hok Hdone) as Hclose.
  pose proof (writes_done_blind m idx d jobs before Hdone) as Hblind.
  exists (shut c.2). split_and!; [exact Hclose|done|done|]. unfold c. rewrite blind_pool_run by done.
  assert (pool_run after (pool_run before (start m idx d jobs)) = pool_run (before ++ after) (start m idx d jobs)) as E
    by (unfold pool_run; by rewrite foldl_app).
  rewrite E. rewrite <- length_app in Hok.
  apply (killed_comes_back m idx d segs jobs (before ++ after) maxBytes node bloom_env Hok).
  apply (writes_done_free m idx d segs jobs (before ++ after) 0); [by rewrite Nat.add_0_r|].
  intros i Hi. destruct (Hdone i Hi) as [x Hx]. exists x. rewrite <- E. by apply reply_stays.
Qed.

Lemma node_shutdown_closes metrics p d seg pos :
  no_faults d → active (nd_manager (p_node p)) = Some seg → f_off (seg_file seg) = Some pos →
  ∃ p' lines, node_shutdown metrics p d = ((p', lines), d) ∧ active (nd_manager (p_node p')) = None ∧
    (metrics = Ok () → lines = [("shutting down", None); ("node stopped", None)]).
Proof.
  intros Hn Ha Hoff. unfold node_shutdown, Close. rewrite bind_run, Ha, bind_run, (Segment_Close_done d seg pos) by done.
  cbn. eexists _, _. split; [done|]. split; [done|]. by intros ->.
Qed.

(** C9. A node without a cluster serves, stops and comes back: whatever its environment, when
    it has no usable coordinator address or cannot register, [main] starts on an empty data
    directory if it can listen and routes every valid write to itself; over any sequence of
    operations, with the compactor configured from the environment, every query answers the
    accepted entries less those that retention could expire; shutdown then closes the manager
    and changes no file, and [main] on the directory that is left starts again and gives the
    same answers. *)
Theorem local_node_returns (w : world) (d : Disk) :
  no_cluster w → (∀ a, w_listen w a = Ok ()) → no_faults d →
  empty_dir (cfg_dataDir (node_config (w_env w))) d →
  ∃ p d0, node_main w d = (Ok p, d0) ∧
    (∀ pb, Pb.Service pb ≠ "" → Pb.Message pb ≠ "" →
       HandleIngest_route (p_reader p) (nd_id (p_node p)) (nd_totalShards (p_node p)) (Some pb)
       = WriteLocal pb "") ∧
    ∀ ops, within_limits (p_compact p) ops (p_node p) d0 = true →
    let acc := accepted (p_node p) ops in
    ∃ nd d1 kept p' lines p2, run_node (p_compact p) ops (p_node p) d0 = (nd, d1) ∧
      (∀ x, x ∈ kept → x ∈ acc) ∧
      (∀ x, x ∈ acc → x ∈ kept ∨ expired (p_compact p) (p_node p) ops x) ∧
      node_shutdown (Ok ()) (served nd p) d1 = ((p', lines), d1) ∧
      lines = [("shutting down", None); ("node stopped", None)] ∧
      node_main w d1 = (Ok p2, d1) ∧
      ∀ node q ast took, node = nd ∨ node = p_node p2 →
        id_consistent acc → 0 ≤ Limit q → 0 ≤ Offset q → Parse (QueryString q) = Ok ast →
        w_env w "BLOOM_ENABLED" ≠ "true" ∨ (∀ n, ast = Some n → bloom_safe acc n) →
        Execute (nd_index node) (nd_manager node) None None took q d1 = (Ok (answer q ast kept took), d1).
Proof.
  intros Hw Hlis Hn He. set (cfg := node_config (w_env w)) in *.
  set (env := bool_decide (w_env w "BLOOM_ENABLED" = "true")).
  destruct (start_empty (cfg_dataDir cfg) (cfg_maxSegBytes cfg) (cfg_nodeID cfg) env d Hn He)
    as (m & idx & d0 & Hrun & Hn0 & Hdir & Hbe & _ & Hinv & Hd).
  eexists _, d0. split; [by apply local_main|]. split; [intros pb Hs Hm; cbn; by rewrite !decide_False|].
  cbn [p_compact p_node]. set (nd0 := NewLocalServer m idx).
  set (cc := compact_config (w_env w)). intros ops Hlim. set (acc := accepted nd0 ops).
  destruct (run_node_live cc ops nd0 d0 {[seq_path (cfg_dataDir cfg) 1 := []]})
    as (nd & d1 & segs & Hr & (Hn1 & Hinv1 & Hd1) & (_ & _ & Hb1 & Hm1) & Hsub & _ & Hacc); [by split_and!|done|].
  change (mdir (nd_manager nd0)) with (mdir m) in Hm1. change (bloomEnabled (nd_manager nd0)) with (bloomEnabled m) in Hb1.
  assert (∀ x, x ∈ entries_of segs → x ∈ acc) as Hin.
  { intros x Hx. by eapply only_accepted, Hsub. }
  destruct (start_node_ok (nd_manager nd) (nd_index nd) d1 segs (cfg_maxSegBytes cfg) (cfg_nodeID cfg) env)
    as (m2 & Hs2 & Hinv2 & Hd2 & Hbe2 & _); [done..|by rewrite Hb1, Hbe|].
  rewrite Hm1, Hdir in Hs2.
  destruct (ok_active _ _ (si_mgr _ _ _ _ Hinv1)) as (seg & bytes & Ha & _ & _ & Hoff & _).
  set (p0 := mkProcess nd0 None None cc).
  destruct (node_shutdown_closes (Ok ()) (served nd p0) d1 seg (length bytes) Hn1 Ha Hoff) as (p' & lines & Hshut & _ & Hlines).
  exists nd, d1, (entries_of segs), p', lines. eexists. split_and!; [done..|by apply Hlines|by apply local_main|].
  intros node q ast took Hnode Hc Hl Ho Hp Hb. cbn [p_node] in Hnode.
  assert (∀ m', bloomEnabled m' = env → dir_ok m' d1 → store_inv m' (nd_index nd) d1 segs →
    Execute (nd_index nd) m' None None took q d1 = (Ok (answer q ast (entries_of segs) took), d1)) as Hask.
  { intros m' Hm' Hd' Hi'. apply (store_answers _ _ _ _ acc); try done.
    destruct Hb as [Hb|Hb]; [left|by right]. rewrite Hm'. by apply bool_decide_false. }
  destruct Hnode as [->| ->]; [apply Hask; [by rewrite Hb1, Hbe|done..]|]. by apply Hask.
Qed.
End properties.

(** ** Witnesses *)

(** The write has returned and the merge is half done; after [Close] the merge goes on until
    the merged file is in place, and the process ends. *)
Lemma shutdown_recovers_witness :
  let H1 := ascii_tables in let H2 := bit_codec in let H3 := exact_bloom in
  let c := pool_run (turns 1 10 ++ turns 2 5) (start (race_manager true) comp_index race_disk race_jobs) in
  ∃ s, Close_go c.2 = Some (Ok (), s) ∧ active (sh_manager s) = None ∧ sh_disk s = sh_disk c.2 ∧
    comes_back "data" comp_segs race_jobs (pool_run (turns 2 8) (c.1, s)) 1000 "n1" true.
Proof.
  intros H1 H2 H3 c.
  apply (@shutdown_recovers ascii_tables ascii_tables_laws bit_codec bit_codec_laws exact_bloom exact_bloom_laws
    (race_manager true) comp_index race_disk comp_segs race_jobs (turns 1 10 ++ turns 2 5) (turns 2 8) 1000 "n1" true).
  - apply race_ok. vm_compute. lia.
  - intros i (msg & e & Hi). destruct i as [|[|[|i]]]; [discriminate Hi| |discriminate Hi..].
    exists (Wrote (Ok ())). vm_compute. reflexivity.
Defined.

Lemma local_node_returns_witness :
  let H1 := ascii_tables in let H2 := bit_codec in let H3 := exact_bloom in
  ∃ p d0, node_main alone (mkDisk ∅ []) = (Ok p, d0) ∧
    HandleIngest_route (p_reader p) (nd_id (p_node p)) (nd_totalShards (p_node p))
      (Some (life_pb "a" "disk full" 1)) = WriteLocal (life_pb "a" "disk full" 1) "".
Proof.
  intros H1 H2 H3.
  destruct (@local_node_returns ascii_tables ascii_tables_laws bit_codec bit_codec_laws exact_bloom
    exact_bloom_laws alone (mkDisk ∅ [])) as (p & d0 & Hm & Hroute & _).
  - right; right. intros t a. by eexists.
  - done.
  - done.
  - by split.
  - exists p, d0. split; [exact Hm|]. by apply Hroute.
Defined.
