(* ===== verification/Coordinator.v ===== *)
(** * The coordinator process ([cmd/coordinator/main.go])

    A coordinator from its start to its end: [main] with every failure that ends it, what it
    serves (the cluster service, distributed queries, the status page, the liveness checker),
    and shutdown. Raft, its stores and the network are a record of answers. A group of
    coordinators shares the log of Raft; its theorem says that every one of them, over any
    crashes, restarts, snapshots and late deliveries, shows a prefix of the same history. *)

From S2P Require Import Prelude GoStrings Observability Types Record Disk Segment Ranking Index Parser Bloom.
From S2P Require Import Paths Strconv Json Manager Executor Recovery Merge Fsm Snapshot Sha256 Cache Fanout Ingest Compaction.
From S2P Require Import Node Catchup Metadata Client Loops Detector Startup.

#[local] Open Scope golang_scope.

Module Coordinator.
Import Fsm Snap Meta Detector CoordinatorMain.

(** ** Starting *)

(** What Raft asks of the state machine. A text that leaves a map nil ([has_maps]) is none of
    a group's, whose snapshots are persisted ones. *)
Inductive fsm_call :=
  | FsmApply (data : string)
  | FsmRestore (text : string).
Definition fsm_serve (f : FSM) (c : fsm_call) : FSM :=
  match c with
  | FsmApply data => mkFSM (Apply data (state f)).1 (totalShards f)
  | FsmRestore text => (Restore text f).1
  end.

(** What [main] is answered, in the order of its calls. [NewRaft] answers with the calls it
    made on the state machine before it returned. *)
Record cworld := mkCWorld {
  cw_env : Env;
  cw_MkdirAll : string → result ();
  cw_NewBoltStore : string → result ();
  cw_NewFileSnapshotStore : string → result ();
  cw_ResolveTCPAddr : string → result ();
  cw_NewTCPTransport : string → result ();
  cw_NewRaft : string → result (list fsm_call);
  cw_HasExistingState : result bool;
  cw_BootstrapCluster : list raft_Server → result ();
  cw_Listen : string → result ();
}.

(** A running coordinator: its configuration, the state machine, the executor of distributed
    queries, its gauges, and the servers it bootstrapped the group with, if it did. *)
Record coordinator := mkCoordinator {
  co_cfg : CoordinatorConfig;
  co_fsm : FSM;
  co_exec : FanOut.FanOutExecutor;
  co_metrics : Metrics;
  co_bootstrapped : option (list raft_Server);
}.

(** [log.Fatalf] with the text before the error. *)
Definition fatal {A} (what : string) (r : result A) : result A :=
  match r with Ok x => Ok x | Err e => Err (ErrWrap what e) end.

(** [main] until it waits for a signal; an error is [log.Fatalf]. *)
Definition coordinator_main (w : cworld) : result coordinator :=
  let cfg := coordinator_config (cw_env w) in
  let? _ := fatal "create data dir" (cw_MkdirAll w (cc_dataDir cfg)) in
  let? _ := fatal "raftboltdb" (cw_NewBoltStore w (filepath_Join (cc_dataDir cfg) "raft.db")) in
  let? _ := fatal "snapshot store" (cw_NewFileSnapshotStore w (cc_dataDir cfg)) in
  let? _ := fatal "resolve bind addr" (cw_ResolveTCPAddr w (cc_bindAddr cfg)) in
  let? _ := fatal "tcp transport" (cw_NewTCPTransport w (cc_bindAddr cfg)) in
  let fsm := NewFSM (cc_totalShards cfg) in
  let? calls := fatal "raft.NewRaft" (cw_NewRaft w (cc_nodeID cfg)) in
  let fsm := foldl fsm_serve fsm calls in
  let? hasState := fatal "check existing state" (cw_HasExistingState w) in
  let peers := bootstrap hasState cfg in
  let? _ := match peers with
            | None => Ok ()
            | Some servers => fatal "bootstrap" (cw_BootstrapCluster w servers)
            end in
  let exec := FanOut.NewFanOutExecutor (cc_fanOutLimit cfg) in
  let? _ := fatal "grpc listen" (cw_Listen w (cc_grpcAddr cfg)) in
  Ok (mkCoordinator cfg fsm exec ∅ peers).

(** The goroutine of the checker is started with the configured interval; its panic ends
    the process. *)
Definition start_checker (co : coordinator) : option (ClusterState * Metrics) :=
  StartLivenessChecker (cc_heartbeatInterval (co_cfg co)) (cc_heartbeatTimeout (co_cfg co)) []
    (state (co_fsm co), co_metrics co).
Definition coordinator_start (w : cworld) : option coordinator :=
  match coordinator_main w with
  | Err _ => None
  | Ok co => _ ← start_checker co; Some co
  end.

(** ** Serving *)

(** The handlers of the two gRPC services and of [/status], and the tick of the checker.
    Raft's answers, the clock, and the nodes of a distributed query are arguments. *)
Inductive coordinator_op :=
  | CoRegisterNode (leader : bool) (o : raft_outcome) (now : Z) (id addr : string)
  | CoHeartbeat (leader : bool) (o : raft_outcome) (now : Z) (id : string)
  | CoGetClusterState
  | CoQuery (call : string → QueryRequest → result QueryResponse) (arrive : list nodeResult → list nodeResult)
      (ctxErr : option GoError) (now1 now2 took took' : Z) (req : QueryRequest)
  | CoStatus
  | CoTick (leader : bool) (outcome : string → raft_outcome) (now : Z).

Inductive co_answer :=
  | AnsShards (r : result (list Z))
  | AnsDone (r : result ())
  | AnsState (resp : list NodeInfo * list ShardInfo)
  | AnsQuery (r : result QueryResponse)
  | AnsBody (body : string).

Definition with_state (cs : ClusterState) (co : coordinator) : coordinator :=
  mkCoordinator (co_cfg co) (mkFSM cs (totalShards (co_fsm co))) (co_exec co) (co_metrics co) (co_bootstrapped co).
Definition with_exec (e : FanOut.FanOutExecutor) (co : coordinator) : coordinator :=
  mkCoordinator (co_cfg co) (co_fsm co) e (co_metrics co) (co_bootstrapped co).
Definition with_metrics (ms : Metrics) (co : coordinator) : coordinator :=
  mkCoordinator (co_cfg co) (co_fsm co) (co_exec co) ms (co_bootstrapped co).

(** One operation; [None] is a panic, which ends the process. Every service reads and
    writes the one state machine [main] made. *)
Definition coordinator_serve (op : coordinator_op) (co : coordinator) : option (coordinator * co_answer) :=
  match op with
  | CoRegisterNode leader o now id addr =>
    let '(cs, r) := RegisterNode leader o now id addr (state (co_fsm co)) in Some (with_state cs co, AnsShards r)
  | CoHeartbeat leader o now id =>
    let '(cs, r) := Heartbeat leader o now id (state (co_fsm co)) in Some (with_state cs co, AnsDone r)
  | CoGetClusterState => Some (co, AnsState (GetClusterState (State (co_fsm co))))
  | CoQuery call arrive ctxErr now1 now2 took took' req =>
    '(e, r) ← FanOut.Query call arrive (State (co_fsm co)) ctxErr now1 now2 took took' req (co_exec co);
    Some (with_exec e co, AnsQuery r)
  | CoStatus => Some (co, AnsBody (status_body (co_fsm co)))
  | CoTick leader outcome now =>
    let '(cs, ms) := liveness_tick (cc_heartbeatTimeout (co_cfg co)) (leader, outcome, now)
                       (state (co_fsm co), co_metrics co) in
    Some (with_metrics ms (with_state cs co), AnsDone (Ok ()))
  end.

(** ** Shutdown *)

(** After a signal: the checker's context is cancelled, the gRPC server drains its requests,
    then the HTTP server and Raft are shut down. Failures are logged and end nothing; the
    lines that reach the log, with the answers of the two shutdowns. *)
Definition coordinator_shutdown (http raft : result ()) : list (string * option GoError) :=
  ("shutting down", None)
    :: match http with Err e => [("http shutdown error", Some e)] | Ok _ => [] end
    ++ match raft with Err e => [("raft shutdown error", Some e)] | Ok _ => [] end
    ++ [("coordinator stopped", None)].

(** ** The group *)

(** A member: the process if it runs, how much of Raft's log its state machine has applied,
    and the snapshots in its store, each with the length of the log it stands for. *)
Record replica := mkReplica {
  rp_proc : option coordinator;
  rp_applied : nat;
  rp_snaps : list (nat * string);
}.
Record group := mkGroup {
  g_log : list string;
  g_members : gmap string replica;
}.

(** What happens to a group. [GStart] runs [main], where [NewRaft] restores one of the
    member's snapshots or none; [GDeliver] hands the member the next entry of the log;
    [GInstall] hands it a snapshot of another member; [GCommit] is an entry that gets into
    the log otherwise, such as one of a handler that was told it failed. *)
Inductive group_event :=
  | GStart (id : string) (w : cworld) (snap : option nat)
  | GStop (id : string)
  | GServe (id : string) (op : coordinator_op)
  | GCommit (data : string)
  | GDeliver (id : string)
  | GSnapshot (id : string) (write close : result ())
  | GInstall (id from : string) (snap : nat).

(** Whether a command that was proposed is in the log. *)
Definition applied (o : raft_outcome) : bool :=
  match o with Committed => true | RaftFailed _ a => a end.
Definition proposes (leader : bool) (o : raft_outcome) (p : payload) : list string :=
  if leader && applied o then [marshal_command p] else [].

(** The entries an operation puts into the log. *)
Definition op_log (co : coordinator) (op : coordinator_op) : list string :=
  match op with
  | CoRegisterNode leader o now id addr =>
    if bool_decide (id = "") || bool_decide (addr = "") then [] else proposes leader o (RegisterNodePayload id addr now)
  | CoHeartbeat leader o now id =>
    if bool_decide (id = "") then [] else proposes leader o (UpdateHeartbeatPayload id now)
  | CoTick leader outcome now =>
    (map_to_list (Nodes (state (co_fsm co)))).*2 ≫= (λ n,
      if is_stale now (cc_heartbeatTimeout (co_cfg co)) n
      then proposes leader (outcome (n_ID n)) (MarkUnhealthyPayload (n_ID n)) else [])
  | _ => []
  end.

Definition set_fsm (f : FSM) (co : coordinator) : coordinator :=
  mkCoordinator (co_cfg co) f (co_exec co) (co_metrics co) (co_bootstrapped co).
Definition put (id : string) (rp : replica) (g : group) : group := mkGroup (g_log g) (<[id := rp]> (g_members g)).

(** [NewRaft] restoring the snapshot of the given place in the store. *)
Definition restoring (calls : list fsm_call) (w : cworld) : cworld :=
  mkCWorld (cw_env w) (cw_MkdirAll w) (cw_NewBoltStore w) (cw_NewFileSnapshotStore w) (cw_ResolveTCPAddr w)
    (cw_NewTCPTransport w) (λ _, Ok calls) (cw_HasExistingState w) (cw_BootstrapCluster w) (cw_Listen w).
Definition stored_snapshot (rp : replica) (snap : option nat) : option (nat * list fsm_call) :=
  match snap with
  | None => Some (0%nat, [])
  | Some k => '(i, text) ← rp_snaps rp !! k; Some (i, [FsmRestore text])
  end.

(** An event of a group; [None] if it cannot happen. Raft applies a command on the leader
    when everything before it is applied there. *)
Definition group_step (ev : group_event) (g : group) : option group :=
  match ev with
  | GStart id w snap =>
    rp ← g_members g !! id;
    '(i, calls) ← stored_snapshot rp snap;
    Some (put id (mkReplica (coordinator_start (restoring calls w)) i (rp_snaps rp)) g)
  | GStop id =>
    rp ← g_members g !! id; Some (put id (mkReplica None (rp_applied rp) (rp_snaps rp)) g)
  | GServe id op =>
    rp ← g_members g !! id; co ← rp_proc rp;
    let new := op_log co op in
    if decide (new = [] ∨ rp_applied rp = length (g_log g)) then
      let g := mkGroup (g_log g ++ new) (g_members g) in
      let proc := fst <$> coordinator_serve op co in
      Some (put id (mkReplica proc (rp_applied rp + length new) (rp_snaps rp)) g)
    else None
  | GCommit data => Some (mkGroup (g_log g ++ [data]) (g_members g))
  | GDeliver id =>
    rp ← g_members g !! id; co ← rp_proc rp; data ← g_log g !! rp_applied rp;
    let co := set_fsm (fsm_serve (co_fsm co) (FsmApply data)) co in
    Some (put id (mkReplica (Some co) (S (rp_applied rp)) (rp_snaps rp)) g)
  | GSnapshot id write close =>
    rp ← g_members g !! id; co ← rp_proc rp;
    match Persist write close (Snapshot (co_fsm co)) with
    | (Persisted text, Ok _) => Some (put id (mkReplica (Some co) (rp_applied rp) ((rp_applied rp, text) :: rp_snaps rp)) g)
    | _ => Some g
    end
  | GInstall id from k =>
    rp ← g_members g !! id; co ← rp_proc rp; src ← g_members g !! from; '(i, text) ← rp_snaps src !! k;
    let co := set_fsm (fsm_serve (co_fsm co) (FsmRestore text)) co in
    Some (put id (mkReplica (Some co) i (rp_snaps rp)) g)
  end.

Fixpoint group_run (evs : list group_event) (g : group) : option group :=
  match evs with
  | [] => Some g
  | ev :: evs => g ← group_step ev g; group_run evs g
  end.

(** A group before its first start. *)
Definition new_group (ids : list string) : group :=
  mkGroup [] (list_to_map ((λ id, (id, mkReplica None 0 [])) <$> ids)).

(** ** Lemmas: one coordinator *)

Lemma apply_log_app l1 l2 f : apply_log (l1 ++ l2) f = apply_log l2 (apply_log l1 f).
Proof. unfold apply_log. cbn [state totalShards]. by rewrite foldl_app. Qed.

Lemma apply_log_nil f : apply_log [] f = f.
Proof. by destruct f. Qed.

Lemma fatal_ok {A B} what (r : result A) (k : A → result B) b :
  result_bind (fatal what r) k = Ok b → ∃ x, r = Ok x ∧ k x = Ok b.
Proof. destruct r as [x|e]; cbn; [by exists x|done]. Qed.

(** A coordinator that starts has the state machine Raft restored and a fresh executor. *)
Lemma main_state w co :
  coordinator_main w = Ok co →
  co_cfg co = coordinator_config (cw_env w) ∧
  (∃ calls, cw_NewRaft w (cc_nodeID (co_cfg co)) = Ok calls ∧
            co_fsm co = foldl fsm_serve (NewFSM (cc_totalShards (co_cfg co))) calls) ∧
  co_exec co = FanOut.NewFanOutExecutor (cc_fanOutLimit (co_cfg co)).
Proof.
  unfold coordinator_main. cbn zeta. intros Hm.
  do 5 (apply fatal_ok in Hm as (_ & _ & Hm)).
  apply fatal_ok in Hm as (calls & Hr & Hm). apply fatal_ok in Hm as (hs & _ & Hm).
  destruct (match bootstrap _ _ with None => _ | _ => _ end); cbn [result_bind] in Hm; [|done].
  apply fatal_ok in Hm as (_ & _ & [= <-]). cbn. eauto.
Qed.

Lemma start_state w co :
  coordinator_start w = Some co → coordinator_main w = Ok co ∧ 0 < cc_heartbeatInterval (co_cfg co).
Proof.
  unfold coordinator_start, start_checker, StartLivenessChecker, with_ticker.
  destruct (coordinator_main w) as [c|e]; [|done]. destruct (_ <=? 0) eqn:Hi; [done|].
  cbn. intros [= <-]. split; [done|]. by apply Z.leb_gt.
Qed.

(** What an operation does to the state machine is in the log. *)
Lemma raft_Apply_log o data cs :
  (raft_Apply o data cs).1 = foldl (λ cs data, (Apply data cs).1) cs (if applied o then [data] else []).
Proof. destruct o as [|nl []]; cbn; [by destruct (Apply data cs)|done..]. Qed.

Lemma applyCommand_log leader o p cs :
  (applyCommand leader o p cs).1 = foldl (λ cs data, (Apply data cs).1) cs (proposes leader o p).
Proof.
  unfold applyCommand, proposes. destruct leader; [|done]. cbn [negb andb].
  rewrite <- raft_Apply_log. by destruct (raft_Apply _ _ _) as [? [[[]|] []]].
Qed.

Lemma mark_log o id cs :
  (mark_unhealthy o id cs).1 = foldl (λ cs data, (Apply data cs).1) cs (proposes true o (MarkUnhealthyPayload id)).
Proof.
  unfold mark_unhealthy, proposes. cbn [andb]. rewrite <- raft_Apply_log. by destruct (raft_Apply _ _ _) as [? [? ?]].
Qed.

Lemma checkLiveness_log outcome now t cs :
  checkLiveness outcome now t cs =
  foldl (λ cs data, (Apply data cs).1) cs
    ((map_to_list (Nodes cs)).*2 ≫= (λ n,
       if is_stale now t n then proposes true (outcome (n_ID n)) (MarkUnhealthyPayload (n_ID n)) else [])).
Proof.
  unfold checkLiveness. generalize ((map_to_list (Nodes cs)).*2) as l. intros l. revert cs.
  induction l as [|n l IH]; intros cs; [done|]. rewrite bind_cons, foldl_app. cbn [foldl]. rewrite IH.
  f_equal. destruct (is_stale now t n); [apply mark_log|done].
Qed.

Lemma serve_log op co co' ans :
  coordinator_serve op co = Some (co', ans) → co_fsm co' = apply_log (op_log co op) (co_fsm co).
Proof.
  destruct op as [leader o now id addr|leader o now id| |call arrive cerr n1 n2 t t' req| |leader outcome now];
    cbn [coordinator_serve op_log].
  - unfold RegisterNode. destruct (_ || _); [by intros [= <- _]|].
    pose proof (applyCommand_log leader o (RegisterNodePayload id addr now) (state (co_fsm co))) as Hl.
    destruct (applyCommand _ _ _ _) as [cs r]. intros [= <- _]. cbn in *. by rewrite Hl.
  - unfold Heartbeat. destruct (bool_decide _); [by intros [= <- _]|].
    pose proof (applyCommand_log leader o (UpdateHeartbeatPayload id now) (state (co_fsm co))) as Hl.
    destruct (applyCommand _ _ _ _) as [cs r]. intros [= <- _]. cbn in *. by rewrite Hl.
  - intros [= <- _]. by rewrite apply_log_nil.
  - destruct (FanOut.Query _ _ _ _ _ _ _ _ _ _) as [[e r]|]; [|done]. intros [= <- _]. by rewrite apply_log_nil.
  - intros [= <- _]. by rewrite apply_log_nil.
  - unfold liveness_tick. cbn [fst snd]. intros [= <- _]. cbn. unfold apply_log. f_equal. destruct leader.
    + apply checkLiveness_log.
    + by induction ((map_to_list (Nodes (state (co_fsm co)))).*2) as [|n l IH]; [|rewrite bind_cons; destruct (is_stale _ _ n)].
Qed.

(** No operation panics, and the cache keeps to complete results. *)
Lemma serve_total op co :
  FanOut.exec_ok (co_exec co) →
  ∃ co' ans, coordinator_serve op co = Some (co', ans) ∧ co_cfg co' = co_cfg co ∧ FanOut.exec_ok (co_exec co').
Proof.
  intros He. destruct op as [leader o now id addr|leader o now id| |call arrive cerr n1 n2 t t' req| |leader outcome now];
    cbn [coordinator_serve]; try by eexists _, _.
  - destruct (RegisterNode _ _ _ _ _ _). by eexists _, _.
  - destruct (Heartbeat _ _ _ _ _). by eexists _, _.
  - unfold FanOut.Query. destruct (check_page req) as [[]|e] eqn:Hp; [|by eexists _, _].
    assert (0 ≤ Offset req) as Ho. { unfold check_page in Hp. repeat case_match; try done; lia. }
    destruct (FanOut.Execute_total call arrive (State (co_fsm co)) cerr n1 n2 t req (co_exec co) He Ho)
      as (e' & r & -> & He' & _).
    cbn [mbind option_bind]. by eexists _, _.
Qed.

(** ** Lemmas: the group *)

Section group.
Context (n : Z) (Hn : n ≤ 2 ^ 63).

(** The state machine after the first entries of the log. *)
Definition history (log : list string) (i : nat) : FSM := apply_log (take i log) (NewFSM n).

(** A snapshot stands for a prefix of the log, and restores to a machine with both maps. *)
Definition snap_ok (log : list string) (x : nat * string) : Prop :=
  (x.1 ≤ length log)%nat ∧ ∀ f, totalShards f = n → Restore x.2 f = (history log x.1, Ok true).

Record replica_ok (log : list string) (rp : replica) : Prop := {
  ro_proc co : rp_proc rp = Some co →
    co_fsm co = history log (rp_applied rp) ∧ (rp_applied rp ≤ length log)%nat ∧ FanOut.exec_ok (co_exec co);
  ro_snaps : Forall (snap_ok log) (rp_snaps rp);
}.
Definition group_ok (g : group) : Prop := map_Forall (λ _, replica_ok (g_log g)) (g_members g).

(** The processes of a group agree on the number of shards. *)
Definition same_shards (ev : group_event) : Prop :=
  match ev with GStart _ w _ => cc_totalShards (coordinator_config (cw_env w)) = n | _ => True end.

Lemma history_grow log i new : (i ≤ length log)%nat → history (log ++ new) i = history log i.
Proof. intros Hi. unfold history. by rewrite take_app_le. Qed.

Lemma history_all log : history log (length log) = apply_log log (NewFSM n).
Proof. unfold history. by rewrite take_ge. Qed.

Lemma history_S log i data :
  log !! i = Some data → history log (S i) = fsm_serve (history log i) (FsmApply data).
Proof. intros Hd. unfold history. erewrite take_S_r by done. by rewrite apply_log_app. Qed.

(** What holds of a member holds after the log has grown. *)
Lemma replica_ok_grow log rp new : replica_ok log rp → replica_ok (log ++ new) rp.
Proof.
  intros [Hp Hs]. split.
  - intros co Hco. destruct (Hp co Hco) as (? & ? & ?). rewrite history_grow, length_app by done.
    split_and!; [done|lia|done].
  - eapply Forall_impl; [done|]. intros [i text] [Hi Hr]. split; cbn in *; [rewrite length_app; lia|].
    intros f Hf. rewrite history_grow by done. by apply Hr.
Qed.

Lemma group_ok_put g id rp : group_ok g → replica_ok (g_log g) rp → group_ok (put id rp g).
Proof. intros Hg Hrp. by apply map_Forall_insert_2. Qed.

Lemma group_ok_grow g new : group_ok g → group_ok (mkGroup (g_log g ++ new) (g_members g)).
Proof. intros Hg id rp Hid. apply replica_ok_grow. by eapply Hg. Qed.

(** The state machine a process starts with. *)
Lemma stored_snapshot_ok log rp snap i calls :
  replica_ok log rp → stored_snapshot rp snap = Some (i, calls) →
  (i ≤ length log)%nat ∧ foldl fsm_serve (NewFSM n) calls = history log i.
Proof.
  intros [_ Hs]. destruct snap as [k|]; cbn [stored_snapshot].
  - destruct (rp_snaps rp !! k) as [[i' text]|] eqn:Hk; cbn [mbind option_bind]; [|done]. intros [= <- <-].
    rewrite Forall_lookup in Hs. destruct (Hs k _ Hk) as [Hi Hr]. cbn in *. by rewrite Hr.
  - intros [= <- <-]. split; [lia|]. unfold history. by rewrite take_0, apply_log_nil.
Qed.

Lemma started_ok log rp w snap i calls co :
  replica_ok log rp → stored_snapshot rp snap = Some (i, calls) →
  cc_totalShards (coordinator_config (cw_env w)) = n →
  coordinator_start (restoring calls w) = Some co →
  co_fsm co = history log i ∧ (i ≤ length log)%nat ∧ FanOut.exec_ok (co_exec co).
Proof.
  intros Hrp Hs Ht Hco. destruct (stored_snapshot_ok log rp snap i calls Hrp Hs) as [Hi Hf].
  apply start_state in Hco as [Hm _]. apply main_state in Hm as (Hcfg & (calls' & Hr & Hfsm) & He).
  cbn in Hr, Hcfg. injection Hr as <-. rewrite Hfsm, Hcfg, Ht, He. split_and!; [done..|]. apply NewFanOutExecutor_ok.
Qed.

(** A member that serves, and one whose snapshot is persisted. *)
Lemma served_ok log rp co op :
  replica_ok log rp → rp_proc rp = Some co → op_log co op = [] ∨ rp_applied rp = length log →
  replica_ok (log ++ op_log co op)
    (mkReplica (fst <$> coordinator_serve op co) (rp_applied rp + length (op_log co op)) (rp_snaps rp)).
Proof.
  intros Hrp Hco Hnew. destruct (ro_proc _ _ Hrp co Hco) as (Hf & Hi & He).
  split; [|exact (ro_snaps _ _ (replica_ok_grow _ _ (op_log co op) Hrp))].
  intros co' Hco'. cbn in Hco'. destruct (serve_total op co He) as (co1 & ans & Hs1 & _ & He1).
  rewrite Hs1 in Hco'. injection Hco' as <-. apply serve_log in Hs1. cbn [rp_applied].
  rewrite length_app. split_and!; [|lia|done]. rewrite Hs1, Hf. destruct Hnew as [->|Hnew].
  - unfold history. by rewrite app_nil_r, Nat.add_0_r, apply_log_nil.
  - rewrite Hnew, <- length_app. by rewrite !history_all, apply_log_app.
Qed.

Lemma persisted_ok log i co :
  co_fsm co = history log i → (i ≤ length log)%nat → snap_ok log (i, print (cluster_json (Snapshot (co_fsm co)))).
Proof.
  intros Hf Hi. split; [done|]. intros f Ht. cbn [fst snd]. rewrite Hf.
  destruct (restore_persisted n (take i log) f Hn Ht) as (text & Hpe & Hre).
  cbn [Persist] in Hpe. injection Hpe as <-. exact Hre.
Qed.

(** The process of a member that runs. *)
Ltac running rp Hp Hf Hi He :=
  let co := fresh "co" in let Hco := fresh "Hco" in
  destruct (rp_proc rp) as [co|] eqn:Hco; cbn [mbind option_bind]; [|done];
  destruct (Hp co eq_refl) as (Hf & Hi & He).

Lemma group_step_ok ev g g' :
  group_ok g → same_shards ev → group_step ev g = Some g' → group_ok g'.
Proof.
  intros Hg Hev. destruct ev as [id w snap|id|id op|data|id|id write close|id from k]; cbn [group_step].
  4: { intros [= <-]. by apply group_ok_grow. }
  all: destruct (g_members g !! id) as [rp|] eqn:Hid; cbn [mbind option_bind]; [|done];
    pose proof (Hg id rp Hid) as Hrp; pose proof Hrp as [Hp Hs].
  - destruct (stored_snapshot rp snap) as [[i calls]|] eqn:Hsn; cbn; [|done]. intros [= <-].
    apply group_ok_put; [done|]. split; [|done]. cbn. intros co Hco. by eapply started_ok.
  - intros [= <-]. apply group_ok_put; [done|]. by split.
  - running rp Hp Hf Hi He. destruct (decide _) as [Hnew|]; [|done]. intros [= <-].
    apply group_ok_put; [by apply group_ok_grow|]. by apply served_ok.
  - running rp Hp Hf Hi He.
    destruct (g_log g !! rp_applied rp) as [data|] eqn:Hd; cbn [mbind option_bind]; [|done]. intros [= <-].
    apply group_ok_put; [done|]. split; [|done]. cbn. intros co' [= <-]. cbn.
    rewrite (history_S _ _ _ Hd), Hf. apply lookup_lt_Some in Hd. split_and!; [done|lia|done].
  - running rp Hp Hf Hi He.
    destruct write as [[]|e]; [|by intros [= <-]]. destruct close as [[]|e]; [|by intros [= <-]].
    cbn [Persist]. intros [= <-].
    apply group_ok_put; [done|]. split; cbn; [intros co' [= <-]; done|]. apply Forall_cons. split; [|done].
    by apply persisted_ok.
  - running rp Hp Hf Hi He.
    destruct (g_members g !! from) as [src|] eqn:Hfrom; cbn [mbind option_bind]; [|done].
    destruct (rp_snaps src !! k) as [[i text]|] eqn:Hk; cbn [mbind option_bind]; [|done]. intros [= <-].
    apply group_ok_put; [done|]. split; [|done]. cbn. intros co' [= <-]. cbn.
    pose proof (ro_snaps _ _ (Hg from src Hfrom)) as Hss. rewrite Forall_lookup in Hss.
    destruct (Hss k _ Hk) as [Hi' Hr]. cbn in *. rewrite Hr by (by rewrite Hf). by split_and!.
Qed.

Lemma group_run_ok evs g g' :
  group_ok g → Forall same_shards evs → group_run evs g = Some g' → group_ok g'.
Proof.
  intros Hg Hevs. revert g Hg. induction Hevs as [|ev evs Hev _ IH]; intros g Hg; cbn; [by intros [= <-]|].
  destruct (group_step ev g) as [g1|] eqn:Hs; cbn; [|done]. apply IH. by eapply group_step_ok.
Qed.

Lemma new_group_ok ids : group_ok (new_group ids).
Proof.
  intros id rp Hid. apply elem_of_list_to_map_2, list_elem_of_fmap in Hid as (? & [= _ ->] & _). by split.
Qed.

(** A prefix of the history is the layout of a registry. *)
Lemma history_layout log i : ∃ ps, Forall payload_ok ps ∧ state (history log i) = layout n (spec_all ps ∅).
Proof.
  destruct (apply_log_commands (take i log) (state (NewFSM n))) as (ps & Hps & E). exists ps. split; [done|].
  unfold history, apply_log. cbn [state]. by rewrite E, run_layout.
Qed.

(** The log only grows, and members stay members. *)
Lemma group_step_log ev g g' : group_step ev g = Some g' → g_log g `prefix_of` g_log g'.
Proof.
  destruct ev as [id w snap|id|id op|data|id|id write close|id from k]; cbn [group_step]; intros Hs;
    bind_inv Hs; repeat case_match; simplify_eq; first [done | by apply prefix_app_r].
Qed.

Lemma group_run_log evs g g' : group_run evs g = Some g' → g_log g `prefix_of` g_log g'.
Proof.
  revert g. induction evs as [|ev evs IH]; intros g; cbn; [by intros [= <-]|].
  destruct (group_step ev g) as [g1|] eqn:Hs; cbn; [|done]. intros Hr.
  etrans; [by eapply group_step_log|]. by apply IH.
Qed.

Lemma group_run_app evs1 evs2 g : group_run (evs1 ++ evs2) g = (g1 ← group_run evs1 g; group_run evs2 g1).
Proof.
  revert g. induction evs1 as [|ev evs1 IH]; intros g; [done|]. cbn. destruct (group_step ev g); cbn; [apply IH|done].
Qed.

(** A running member catches up with the log. *)
Lemma deliver_all g id rp co :
  group_ok g → g_members g !! id = Some rp → rp_proc rp = Some co →
  ∃ co', group_run (replicate (length (g_log g) - rp_applied rp) (GDeliver id)) g
    = Some (put id (mkReplica (Some co') (length (g_log g)) (rp_snaps rp)) g) ∧
    co_cfg co' = co_cfg co ∧ co_exec co' = co_exec co ∧ co_fsm co' = apply_log (g_log g) (NewFSM n).
Proof.
  intros Hg Hid Hco. remember (length (g_log g) - rp_applied rp)%nat as k eqn:Hk.
  revert g rp co Hg Hid Hco Hk. induction k as [|k IH]; intros g rp co Hg Hid Hco Hk;
    destruct (ro_proc _ _ (Hg id rp Hid) co Hco) as (Hf & Hi & He); cbn [replicate group_run].
  - exists co. assert (rp_applied rp = length (g_log g)) as E by lia. split_and!; [|done..|].
    + f_equal. destruct g as [log ms], rp as [pr ap sn]. cbn in *. subst. unfold put. cbn. f_equal.
      symmetry. by apply insert_id.
    + by rewrite Hf, E, history_all.
  - destruct (lookup_lt_is_Some_2 (g_log g) (rp_applied rp)) as [data Hd]; [lia|].
    set (co1 := set_fsm (fsm_serve (co_fsm co) (FsmApply data)) co).
    set (rp1 := mkReplica (Some co1) (S (rp_applied rp)) (rp_snaps rp)).
    assert (group_step (GDeliver id) g = Some (put id rp1 g)) as Hs.
    { cbn [group_step]. rewrite Hid. cbn [mbind option_bind]. rewrite Hco. cbn [mbind option_bind]. by rewrite Hd. }
    rewrite Hs. cbn [mbind option_bind].
    destruct (IH (put id rp1 g) rp1 co1) as (co' & -> & Hc & Hx & Hf').
    + exact (group_step_ok (GDeliver id) g _ Hg I Hs).
    + cbn. by rewrite lookup_insert_eq.
    + done.
    + cbn in *. lia.
    + exists co'. split_and!; [|done..]. unfold put. cbn. by rewrite insert_insert_eq.
Qed.

(** Registered nodes stay known. *)
Lemma spec_all_dom ps R (id : string) : is_Some (R !! id) → is_Some (spec_all ps R !! id).
Proof.
  revert R. induction ps as [|p ps IH]; intros R HR; [done|]. unfold spec_all. cbn [foldl]. apply IH.
  destruct p as [id' addr now|id' now|id']; cbn [spec_payload].
  - destruct (decide (id' = id)) as [->|]; [by rewrite lookup_insert_eq|by rewrite lookup_insert_ne].
  - destruct (decide (id' = id)) as [->|]; [|by rewrite lookup_alter_ne]. rewrite lookup_alter_eq.
    destruct HR as [e ->]. by eexists.
  - destruct (decide (id' = id)) as [->|]; [|by rewrite lookup_alter_ne]. rewrite lookup_alter_eq.
    destruct HR as [e ->]. by eexists.
Qed.

Lemma layout_known R id : is_Some (Nodes (layout n R) !! id) ↔ is_Some (R !! id).
Proof. cbn [layout Nodes]. rewrite mknodes_lookup. by rewrite fmap_is_Some. Qed.

Lemma history_keeps log i j id :
  (i ≤ j)%nat → is_Some (Nodes (state (history log i)) !! id) → is_Some (Nodes (state (history log j)) !! id).
Proof.
  intros Hij. destruct (history_layout log i) as (ps & _ & E). rewrite E, layout_known. intros Hid.
  assert (history log j = apply_log (take (j - i) (drop i log)) (history log i)) as ->.
  { unfold history. rewrite <- apply_log_app, take_take_drop. by replace (i + (j - i))%nat with j by lia. }
  destruct (apply_log_commands (take (j - i) (drop i log)) (state (history log i))) as (ps' & _ & E').
  unfold apply_log. cbn [state]. rewrite E', E, apply_all_layout, layout_known. by apply spec_all_dom.
Qed.
End group.

(** The calls of [main] that can fail, in order, with the text of their [log.Fatalf]. *)
Definition startup_calls (w : cworld) : list (string * result ()) :=
  let cfg := coordinator_config (cw_env w) in
  let unit_of {A} (r : result A) : result () := match r with Ok _ => Ok () | Err e => Err e end in
  [("create data dir", cw_MkdirAll w (cc_dataDir cfg));
   ("raftboltdb", cw_NewBoltStore w (filepath_Join (cc_dataDir cfg) "raft.db"));
   ("snapshot store", cw_NewFileSnapshotStore w (cc_dataDir cfg));
   ("resolve bind addr", cw_ResolveTCPAddr w (cc_bindAddr cfg));
   ("tcp transport", cw_NewTCPTransport w (cc_bindAddr cfg));
   ("raft.NewRaft", unit_of (cw_NewRaft w (cc_nodeID cfg)));
   ("check existing state", unit_of (cw_HasExistingState w));
   ("bootstrap", match cw_HasExistingState w with
                 | Ok false => cw_BootstrapCluster w (parsePeers (cc_peersStr cfg) (cc_nodeID cfg) (cc_bindAddr cfg))
                 | _ => Ok ()
                 end);
   ("grpc listen", cw_Listen w (cc_grpcAddr cfg))].

(** The first failure of a list of calls. *)
Fixpoint first_failure (l : list (string * result ())) : option GoError :=
  match l with
  | [] => None
  | (what, Err e) :: _ => Some (ErrWrap what e)
  | (_, Ok _) :: l => first_failure l
  end.

(** A start succeeds exactly when no call fails, and otherwise ends with the first failure;
    in particular a group is bootstrapped only on a directory without Raft state. *)
Theorem coordinator_main_outcome (w : cworld) :
  match first_failure (startup_calls w) with
  | Some e => coordinator_main w = Err e
  | None => ∃ co, coordinator_main w = Ok co ∧ co_cfg co = coordinator_config (cw_env w) ∧
      (is_Some (co_bootstrapped co) ↔ cw_HasExistingState w = Ok false)
  end.
Proof.
  unfold coordinator_main, startup_calls. cbn [first_failure].
  destruct (cw_MkdirAll w _); [|done]. destruct (cw_NewBoltStore w _); [|done].
  destruct (cw_NewFileSnapshotStore w _); [|done]. destruct (cw_ResolveTCPAddr w _); [|done].
  destruct (cw_NewTCPTransport w _); [|done]. destruct (cw_NewRaft w _) as [calls|]; [|done].
  destruct (cw_HasExistingState w) as [[]|]; [| |done].
  - destruct (cw_Listen w _); [|done]. eexists. split_and!; [done..|]. cbn. split; [by intros [] |done].
  - cbn [fatal result_bind bootstrap]. destruct (cw_BootstrapCluster w _); [|done].
    destruct (cw_Listen w _); [|done]. eexists. split_and!; [done..|]. by cbn.
Qed.

(** The calls do not depend on the snapshot that [NewRaft] restores. *)
Lemma restoring_calls calls w :
  first_failure (startup_calls w) = None → first_failure (startup_calls (restoring calls w)) = None.
Proof.
  unfold startup_calls, restoring. cbn. destruct (cw_MkdirAll w _); [|done]. destruct (cw_NewBoltStore w _); [|done].
  destruct (cw_NewFileSnapshotStore w _); [|done]. destruct (cw_ResolveTCPAddr w _); [|done].
  destruct (cw_NewTCPTransport w _); [|done]. by destruct (cw_NewRaft w _).
Qed.

(** ** Theorems *)

(** C8. Coordinators agree: over any sequence of starts, crashes, requests on leaders and
    followers, lost answers, late deliveries, snapshots and installed snapshots, the state
    machine of a running coordinator is the one that applied a prefix of the group's log to a
    fresh state with the configured number of shards, so two coordinators that are equally
    far show the same state; it is the layout of a registry, no request makes the process
    panic, and delivering the rest of the log brings it to the state after the whole log. *)
Theorem coordinators_agree (n : Z) (ids : list string) (evs : list group_event) (g : group)
    (id : string) (rp : replica) (co : coordinator) :
  n ≤ 2 ^ 63 → Forall (same_shards n) evs → group_run evs (new_group ids) = Some g →
  g_members g !! id = Some rp → rp_proc rp = Some co →
  co_fsm co = apply_log (take (rp_applied rp) (g_log g)) (NewFSM n) ∧
  (∀ id' rp' co', g_members g !! id' = Some rp' → rp_proc rp' = Some co' → rp_applied rp' = rp_applied rp →
     co_fsm co' = co_fsm co) ∧
  (∃ ps, state (co_fsm co) = layout n (spec_all ps ∅)) ∧
  (∀ op, is_Some (coordinator_serve op co)) ∧
  ∃ g' co', group_run (replicate (length (g_log g) - rp_applied rp) (GDeliver id)) g = Some g' ∧
    rp_proc <$> g_members g' !! id = Some (Some co') ∧ co_fsm co' = apply_log (g_log g) (NewFSM n).
Proof.
  intros Hn Hevs Hrun Hid Hco.
  pose proof (group_run_ok n Hn evs _ g (new_group_ok n ids) Hevs Hrun) as Hg.
  destruct (ro_proc _ _ _ (Hg id rp Hid) co Hco) as (Hf & _ & He). split_and!; [exact Hf| | | |].
  - intros id' rp' co' Hid' Hco' Ha. destruct (ro_proc _ _ _ (Hg id' rp' Hid') co' Hco') as (-> & _). by rewrite Ha, Hf.
  - destruct (history_layout n (g_log g) (rp_applied rp)) as (ps & _ & E). exists ps. by rewrite Hf.
  - intros op. destruct (serve_total op co He) as (co' & ans & -> & _). by eexists.
  - destruct (deliver_all n Hn g id rp co Hg Hid Hco) as (co' & Hr & _ & _ & Hf'). eexists _, co'.
    split; [exact Hr|]. cbn. by rewrite lookup_insert_eq.
Qed.

(** C15. A coordinator restarts into the group's state: from any state of the group, a member
    that is killed and started again where no call of [main] fails, with any snapshot of its
    store or none, runs, and once Raft has delivered the rest of the log its state machine
    is that of the whole log, as if it had never stopped; its status page and what it answers
    to [GetClusterState] are those of the whole log. *)
Theorem coordinator_restarts (n : Z) (ids : list string) (evs : list group_event) (g : group)
    (id : string) (rp : replica) (w : cworld) (snap : option nat) :
  n ≤ 2 ^ 63 → Forall (same_shards n) evs → group_run evs (new_group ids) = Some g →
  g_members g !! id = Some rp → is_Some (stored_snapshot rp snap) →
  first_failure (startup_calls w) = None → cc_totalShards (coordinator_config (cw_env w)) = n →
  0 < cc_heartbeatInterval (coordinator_config (cw_env w)) →
  ∃ k g' co, group_run (GStop id :: GStart id w snap :: replicate k (GDeliver id)) g = Some g' ∧
    rp_proc <$> g_members g' !! id = Some (Some co) ∧ g_log g' = g_log g ∧
    let f := apply_log (g_log g) (NewFSM n) in
    coordinator_serve CoStatus co = Some (co, AnsBody (status_body f)) ∧
    coordinator_serve CoGetClusterState co = Some (co, AnsState (GetClusterState (state f))).
Proof.
  intros Hn Hevs Hrun Hid [[i calls] Hs] Hw Ht Hint.
  pose proof (group_run_ok n Hn evs _ g (new_group_ok n ids) Hevs Hrun) as Hg.
  pose proof (coordinator_main_outcome (restoring calls w)) as Hm. rewrite (restoring_calls calls w Hw) in Hm.
  destruct Hm as (co & Hm & Hcfg & _).
  assert (coordinator_start (restoring calls w) = Some co) as Hst.
  { unfold coordinator_start. rewrite Hm. unfold start_checker, StartLivenessChecker, with_ticker.
    rewrite Hcfg. cbn [cw_env restoring]. by rewrite (proj2 (Z.leb_gt _ _)). }
  set (rp0 := mkReplica None (rp_applied rp) (rp_snaps rp)). set (rp1 := mkReplica (Some co) i (rp_snaps rp)).
  assert (group_run [GStop id; GStart id w snap] g = Some (put id rp1 g)) as H2.
  { cbn. rewrite Hid. cbn. rewrite lookup_insert_eq. cbn.
    replace (stored_snapshot _ snap) with (stored_snapshot rp snap) by by destruct snap.
    rewrite Hs. cbn. rewrite Hst. unfold put. cbn. by rewrite insert_insert_eq. }
  assert (group_ok n (put id rp1 g)) as Hg1.
  { eapply (group_run_ok n Hn [GStop id; GStart id w snap]); [exact Hg| |exact H2]. by repeat constructor. }
  destruct (deliver_all n Hn (put id rp1 g) id rp1 co Hg1) as (co' & Hr & _ & _ & Hf);
    [cbn; by rewrite lookup_insert_eq|done|].
  eexists _, _, co'. split; [|split_and!].
  - change (GStop id :: GStart id w snap :: ?l) with ([GStop id; GStart id w snap] ++ l).
    rewrite group_run_app, H2. cbn [mbind option_bind]. exact Hr.
  - cbn. by rewrite lookup_insert_eq.
  - done.
  - cbn [coordinator_serve]. rewrite Hf. unfold State. by rewrite clone_id.
Qed.

(** C16. An acknowledged registration survives: when a coordinator has answered a
    registration with shards, then whatever happens to the group later (the leader may die
    with all its memory), every running coordinator that has applied as much of the log as
    there was knows the node. *)
Theorem registration_survives (n : Z) (ids : list string) (evs1 evs2 : list group_event) (g1 g2 g : group)
    (id nid addr : string) (rp : replica) (co co1 : coordinator) (leader : bool) (o : raft_outcome) (now : Z)
    (shards : list Z) :
  n ≤ 2 ^ 63 → Forall (same_shards n) (evs1 ++ evs2) →
  group_run evs1 (new_group ids) = Some g1 → g_members g1 !! id = Some rp → rp_proc rp = Some co →
  coordinator_serve (CoRegisterNode leader o now nid addr) co = Some (co1, AnsShards (Ok shards)) →
  group_step (GServe id (CoRegisterNode leader o now nid addr)) g1 = Some g2 →
  group_run evs2 g2 = Some g →
  ∀ id' rp' co', g_members g !! id' = Some rp' → rp_proc rp' = Some co' →
    (length (g_log g2) ≤ rp_applied rp')%nat → is_Some (Nodes (state (co_fsm co')) !! nid).
Proof.
  intros Hn [Hev1 Hev2]%Forall_app Hr1 Hid Hco Hserve Hstep Hr2 id' rp' co' Hid' Hco' Hfar.
  pose proof (group_run_ok n Hn _ _ g1 (new_group_ok n ids) Hev1 Hr1) as Hg1.
  pose proof (group_step_ok n Hn (GServe id (CoRegisterNode leader o now nid addr)) _ g2 Hg1 I Hstep) as Hg2.
  pose proof (group_run_ok n Hn _ _ g Hg2 Hev2 Hr2) as Hg.
  assert (is_Some (Nodes (state (history n (g_log g2) (length (g_log g2)))) !! nid)) as Hknown.
  { cbn [group_step] in Hstep. rewrite Hid in Hstep. cbn [mbind option_bind] in Hstep. rewrite Hco in Hstep.
    cbn [mbind option_bind] in Hstep. set (op := CoRegisterNode leader o now nid addr) in *.
    destruct (decide _) as [Hnew|]; [|done]. injection Hstep as <-. cbn [put g_log].
    pose proof (serve_log op co co1 _ Hserve) as Hlog. destruct (ro_proc _ _ _ (Hg1 id rp Hid) co Hco) as (Hf & _ & _).
    assert (is_Some (Nodes (state (co_fsm co1)) !! nid) ∧ op_log co op ≠ []) as [Hk Hne].
    { subst op. cbn [coordinator_serve op_log] in *. unfold RegisterNode in Hserve.
      destruct (_ || _); [done|]. unfold applyCommand, proposes in *. destruct leader; [|done]. cbn [negb andb] in *.
      unfold raft_Apply in Hserve. destruct o as [|[] ap]; [|discriminate Hserve..]. destruct (Apply _ _) as [cs [r|e]]; [|discriminate Hserve].
      destruct (Nodes cs !! nid) as [node|] eqn:En; [|discriminate Hserve]. injection Hserve as <- _.
      cbn [with_state co_fsm state applied]. split; [rewrite En; by eexists|discriminate]. }
    destruct Hnew as [|Ha]; [done|]. rewrite Hlog, Hf, Ha, history_all in Hk. rewrite history_all, apply_log_app. exact Hk. }
  destruct (ro_proc _ _ _ (Hg id' rp' Hid') co' Hco') as (-> & _ & _).
  destruct (group_run_log _ _ _ Hr2) as [new E]. eapply history_keeps; [exact Hfar|].
  rewrite E, history_grow by done. exact Hknown.
Qed.

(** A heartbeat interval that is not positive, or so large that its nanoseconds wrap,
    is accepted by both programs and then ends them: a coordinator with such an environment
    never gets to serve, and the heartbeat loop of a storage node panics whatever the
    coordinators answer. *)
Theorem interval_panics (env : Env) (z : Z) :
  in_int64 z → env "HEARTBEAT_INTERVAL_SECONDS" = FormatInt z → int64 (z * time_Second) ≤ 0 →
  (∀ w, cw_env w = env → coordinator_start w = None) ∧
  ∀ dial closing id evs s,
    NodeLoops.HeartbeatSender_Run dial closing
      (NodeLoops.NewHeartbeatSender (NodeMain.cfg_heartbeatInterval (NodeMain.node_config env)) id) evs s = None.
Proof.
  intros Hz E Hle. destruct (NodeProps.env_int_roundtrip env "HEARTBEAT_INTERVAL_SECONDS" 5 z Hz E) as [Hi _]. split.
  - intros w Hw. destruct (coordinator_start w) as [co|] eqn:Hs; [|done]. apply start_state in Hs as [Hm Hpos].
    apply main_state in Hm as (Hcfg & _). rewrite Hcfg, Hw in Hpos. cbn [coordinator_config cc_heartbeatInterval] in Hpos.
    change (CoordinatorMain.envIntOrDefault env) with (Startup.envIntOrDefault env) in Hpos. rewrite Hi in Hpos. lia.
  - intros dial closing id evs s. unfold NodeLoops.HeartbeatSender_Run, with_ticker.
    cbn [NodeLoops.NewHeartbeatSender NodeLoops.hb_interval NodeMain.node_config NodeMain.cfg_heartbeatInterval].
    rewrite Hi. by rewrite (proj2 (Z.leb_le _ _)).
Qed.
End Coordinator.

(** ** Witnesses *)

Module CoordinatorWitness.
Import Fsm Snap Meta Detector CoordinatorMain Coordinator.

(** A coordinator of a group with three shards whose calls all succeed, and one whose
    heartbeat interval is zero. *)
Definition sample_env3 (interval : string) : Env := λ k,
  if decide (k = "TOTAL_SHARDS") then "3"
  else if decide (k = "HEARTBEAT_INTERVAL_SECONDS") then interval else "".
Definition sample_world (interval : string) (hasState : bool) : cworld :=
  mkCWorld (sample_env3 interval) (λ _, Ok ()) (λ _, Ok ()) (λ _, Ok ()) (λ _, Ok ()) (λ _, Ok ()) (λ _, Ok [])
    (Ok hasState) (λ _, Ok ()) (λ _, Ok ()).

(** Two coordinators: the first leads and registers a node, the second takes a snapshot of
    it; a second registration and an entry that is no command follow, the second
    coordinator is killed and starts again from its snapshot. *)
Definition reg_a : coordinator_op := CoRegisterNode true Committed 5 "a" "h:1".
Definition reg_b : coordinator_op := CoRegisterNode true Committed 7 "b" "h:2".
Definition before_b : list group_event :=
  [GStart "c1" (sample_world "5" false) None; GStart "c2" (sample_world "5" false) None; GServe "c1" reg_a;
   GDeliver "c2"; GSnapshot "c2" (Ok ()) (Ok ())].
Definition after_b : list group_event :=
  [GCommit "{not json"; GServe "c2" (CoHeartbeat false Committed 8 "a"); GStop "c2"; GStart "c2" (sample_world "5" true) (Some 0%nat)].
Definition sample_group (evs : list group_event) : group :=
  default (mkGroup [] ∅) (group_run evs (new_group ["c1"; "c2"])).
Definition sample_replica (g : group) (id : string) : replica := default (mkReplica None 0 []) (g_members g !! id).
Definition no_coordinator : coordinator :=
  mkCoordinator (coordinator_config (λ _, "")) (NewFSM 0) (FanOut.NewFanOutExecutor 0) ∅ None.
Definition sample_co (g : group) (id : string) : coordinator := default no_coordinator (rp_proc (sample_replica g id)).

Lemma sample_events : Forall (same_shards 3) ((before_b ++ [GServe "c1" reg_b]) ++ after_b).
Proof. repeat first [apply Forall_nil_2 | apply Forall_cons_2]; vm_compute; done. Qed.

Lemma coordinators_agree_witness :
  let g := sample_group ((before_b ++ [GServe "c1" reg_b]) ++ after_b) in
  let co := sample_co g "c2" in
  rp_applied (sample_replica g "c2") = 1%nat ∧ length (g_log g) = 3%nat ∧
  co_fsm co = apply_log (take 1 (g_log g)) (NewFSM 3) ∧
  ∃ g' co', group_run (replicate 2 (GDeliver "c2")) g = Some g' ∧
    rp_proc <$> g_members g' !! "c2" = Some (Some co') ∧ co_fsm co' = apply_log (g_log g) (NewFSM 3).
Proof.
  intros g co.
  destruct (coordinators_agree 3 ["c1"; "c2"] ((before_b ++ [GServe "c1" reg_b]) ++ after_b) g "c2"
    (sample_replica g "c2") co) as (Hf & _ & _ & _ & Hd).
  - lia.
  - apply sample_events.
  - vm_compute. reflexivity.
  - vm_compute. reflexivity.
  - vm_compute. reflexivity.
  - assert (rp_applied (sample_replica g "c2") = 1%nat) as Ha by (vm_compute; reflexivity).
    assert (length (g_log g) = 3%nat) as Hl by (vm_compute; reflexivity).
    rewrite Ha, Hl in *. split_and!; [done..|exact Hf|exact Hd].
Defined.

Lemma coordinator_restarts_witness :
  let g := sample_group before_b in
  ∃ k g' co, group_run (GStop "c2" :: GStart "c2" (sample_world "5" true) (Some 0%nat) :: replicate k (GDeliver "c2")) g
      = Some g' ∧
    rp_proc <$> g_members g' !! "c2" = Some (Some co) ∧ g_log g' = g_log g ∧
    let f := apply_log (g_log g) (NewFSM 3) in
    coordinator_serve CoStatus co = Some (co, AnsBody (status_body f)) ∧
    coordinator_serve CoGetClusterState co = Some (co, AnsState (GetClusterState (state f))).
Proof.
  intros g. apply (coordinator_restarts 3 ["c1"; "c2"] before_b g "c2" (sample_replica g "c2")).
  - lia.
  - pose proof sample_events as Hs. rewrite <- app_assoc in Hs. by apply Forall_app in Hs as [? _].
  - vm_compute. reflexivity.
  - vm_compute. reflexivity.
  - vm_compute. by eexists.
  - vm_compute. reflexivity.
  - vm_compute. reflexivity.
  - vm_compute. reflexivity.
Defined.

Lemma registration_survives_witness :
  let g := sample_group ((before_b ++ [GServe "c1" reg_b]) ++ after_b ++ [GDeliver "c2"; GStop "c1"]) in
  rp_applied (sample_replica g "c2") = 2%nat ∧ rp_proc (sample_replica g "c1") = None ∧
  is_Some (Nodes (state (co_fsm (sample_co g "c2"))) !! "b").
Proof.
  intros g. split; [vm_compute; reflexivity|]. split; [vm_compute; reflexivity|].
  apply (registration_survives 3 ["c1"; "c2"] before_b (after_b ++ [GDeliver "c2"; GStop "c1"])
    (sample_group before_b) (sample_group (before_b ++ [GServe "c1" reg_b])) g "c1" "b" "h:2"
    (sample_replica (sample_group before_b) "c1") (sample_co (sample_group before_b) "c1")
    (sample_co (sample_group (before_b ++ [GServe "c1" reg_b])) "c1") true Committed 7 [1])
    with (id' := "c2") (rp' := sample_replica g "c2").
  - lia.
  - pose proof sample_events as Hs. rewrite !Forall_app in Hs. rewrite !Forall_app. destruct Hs as [[? _] ?].
    split_and!; [done..|]. by repeat constructor.
  - vm_compute. reflexivity.
  - vm_compute. reflexivity.
  - vm_compute. reflexivity.
  - vm_compute. reflexivity.
  - vm_compute. reflexivity.
  - vm_compute. reflexivity.
  - vm_compute. reflexivity.
  - vm_compute. reflexivity.
  - vm_compute. lia.
Defined.

Lemma interval_panics_witness :
  coordinator_start (sample_world "0" false) = None ∧
  coordinator_start (sample_world "9223372037" false) = None.
Proof.
  split.
  - destruct (interval_panics (sample_env3 "0") 0) as [Hc _]; [by split|reflexivity|vm_compute; done|].
    by apply Hc.
  - destruct (interval_panics (sample_env3 "9223372037") 9223372037) as [Hc _]; [by split|reflexivity|vm_compute; done|].
    by apply Hc.
Defined.

(** The number of shards is no part of the log: a member started with another value of
    [TOTAL_SHARDS] has applied the same entries and shows another layout, and one that
    restores a snapshot shows the layout of the snapshot whatever the variable says. *)
Definition other_world : cworld :=
  mkCWorld (λ k, if decide (k = "TOTAL_SHARDS") then "4" else "") (λ _, Ok ()) (λ _, Ok ()) (λ _, Ok ()) (λ _, Ok ())
    (λ _, Ok ()) (λ _, Ok []) (Ok true) (λ _, Ok ()) (λ _, Ok ()).
Example shard_count_diverges :
  let g := sample_group (before_b ++ [GStart "c2" other_world None; GDeliver "c2"]) in
  let g' := sample_group (before_b ++ [GStart "c2" other_world (Some 0%nat)]) in
  let owned g id := n_Shards <$> Nodes (state (co_fsm (sample_co g id))) !! "a" in
  rp_applied (sample_replica g "c1") = rp_applied (sample_replica g "c2") ∧
  owned g "c1" = Some [0; 1; 2] ∧ owned g "c2" = Some [0; 1; 2; 3] ∧ owned g' "c2" = Some [0; 1; 2].
Proof. vm_compute. done. Qed.

(** [main] reports what fails first, and bootstraps alone without a peer list. *)
Example main_failures :
  let w := sample_world "5" false in
  co_bootstrapped <$> coordinator_start w = Some (Some [mkServer "coordinator-local" "127.0.0.1:7000"]) ∧
  coordinator_main (mkCWorld (cw_env w) (cw_MkdirAll w) (cw_NewBoltStore w) (cw_NewFileSnapshotStore w)
      (cw_ResolveTCPAddr w) (cw_NewTCPTransport w) (λ _, Err os_ErrIO) (Ok true) (λ _, Ok ()) (λ _, Err os_ErrIO))
    = Err (ErrWrap "raft.NewRaft" os_ErrIO) ∧
  coordinator_shutdown (Ok ()) (Err os_ErrIO)
    = [("shutting down", None); ("raft shutdown error", Some os_ErrIO); ("coordinator stopped", None)].
Proof. vm_compute. done. Qed.
End CoordinatorWitness.
