(* ===== verification/Cluster.v ===== *)
(** * A cluster of storage nodes behind a coordinator

    The components put together: storage nodes with their directories ([Node]) that route
    writes by their copy of the cluster state ([Ingest], [Fsm]), forward them to each other
    with the request's context ([Observability]), replicate, compact and restart, and a
    coordinator that fans a query out to them ([Fanout]). *)

From S2P Require Import Prelude GoStrings Observability Types Record Disk Segment Ranking Index Parser Bloom.
From S2P Require Import Paths Manager Executor Recovery Merge Fsm Sha256 Cache Fanout Ingest Compaction Node.

Section cluster.
Context `{GoUnicode} `{Protobuf} `{Bloom}.

(** A node process: its memory, its disk and the state it routes by. *)
Record member := mkMember {
  mb_node : StorageNode;
  mb_disk : Disk;
  mb_state : Fsm.ClusterState;
}.

(** The processes by the address they listen on. *)
Notation cluster := (gmap string member).

Definition mb_reader (mb : member) : ClusterStateReader := StateCache.reader (mb_state mb).

Definition views (c : cluster) : gmap string (string * ClusterStateReader) :=
  (λ mb, (nd_id (mb_node mb), mb_reader mb)) <$> c.

Definition unreachable : GoError := grpc_Status codes_Unavailable "unreachable".

(** An [Ingest] call to an address, with the calls it causes; [None] is out of fuel. *)
Fixpoint cluster_ingest (fuel : nat) (ctx : Context) (rand now : Z) (newID addr : string) (pb : Pb.LogEntry)
    (c : cluster) : option (cluster * result IngestResponse) :=
  match fuel with
  | O => None
  | S fuel =>
    match c !! addr with
    | None => Some (c, Err unreachable)
    | Some mb =>
      let nd := mb_node mb in
      match HandleIngest_route (Some (mb_reader mb)) (nd_id nd) (nd_totalShards nd) (Some pb) with
      | Forward pb' addr' =>
        let ctx := WithRequestID ctx (ingest_request_id ctx rand) in
        cluster_ingest fuel (handler_context (forward_context ctx)) rand now newID addr' pb' c
      | _ =>
        let '((nd', r), d') :=
          Ingest (Some (mb_reader mb)) (λ _ _ _, Err unreachable) ctx rand now newID (Some pb) nd (mb_disk mb) in
        Some (<[addr := mkMember nd' d' (mb_state mb)]> c, r)
      end
    end
  end.

(** What happens in the cluster: a client writes through some node, a replica receives a
    copy, a node merges, deletes expired segments or restarts. *)
Inductive cluster_op :=
  | CIngest (ctx : Context) (rand now : Z) (newID addr : string) (pb : Pb.LogEntry)
  | CReplicate (addr : string) (pb : Pb.LogEntry) (shardId : Z)
  | CMerge (addr : string)
  | CRetain (addr : string) (now : Z)
  | CRestart (addr : string).

Definition node_op_at (mb : member) (op : cluster_op) : option (string * node_op) :=
  match op with
  | CIngest _ _ _ _ _ _ => None
  | CReplicate addr pb shardId => Some (addr, OpReplicate (Some (mb_reader mb)) (Some pb) shardId)
  | CMerge addr => Some (addr, OpMerge)
  | CRetain addr now => Some (addr, OpRetain now)
  | CRestart addr => Some (addr, OpRestart)
  end.

Definition op_addr (op : cluster_op) : string :=
  match op with
  | CIngest _ _ _ _ addr _ | CReplicate addr _ _ | CMerge addr | CRetain addr _ | CRestart addr => addr
  end.

(** One operation; a write is answered, and takes at most one forward ([follow]). *)
Definition run_cluster_op (cfg : CompactorConfig) (op : cluster_op) (c : cluster)
    : option (cluster * option (result IngestResponse)) :=
  match op with
  | CIngest ctx rand now newID addr pb =>
    '(c, r) ← cluster_ingest 2 ctx rand now newID addr pb c; Some (c, Some r)
  | _ =>
    match c !! op_addr op with
    | None => Some (c, None)
    | Some mb =>
      match node_op_at mb op with
      | None => Some (c, None)
      | Some (addr, nop) =>
        let '(nd, d) := run_node_op cfg nop (mb_node mb) (mb_disk mb) in
        Some (<[addr := mkMember nd d (mb_state mb)]> c, None)
      end
    end
  end.

Fixpoint run_cluster (cfg : CompactorConfig) (ops : list cluster_op) (c : cluster)
    : option (cluster * list (option (result IngestResponse))) :=
  match ops with
  | [] => Some (c, [])
  | op :: ops =>
    '(c, r) ← run_cluster_op cfg op c; '(c, rs) ← run_cluster cfg ops c; Some (c, r :: rs)
  end.

(** A query to an address, as the coordinator's client calls it. *)
Definition cluster_query (c : cluster) (addr : string) (q : QueryRequest) : result QueryResponse :=
  match c !! addr with
  | None => Err unreachable
  | Some mb => (Server.Query (nd_index (mb_node mb)) (nd_manager (mb_node mb)) None None 0 0 q (mb_disk mb)).1
  end.

(** ** Specification *)

(** The entry an operation may add, and the answer a write must get. *)
Definition op_entries (op : cluster_op) : list LogEntry :=
  match op with
  | CIngest _ _ now newID _ pb => [stamp now newID pb]
  | CReplicate _ pb _ => [ProtoToEntry pb]
  | _ => []
  end.
Definition op_writes (op : cluster_op) : list LogEntry :=
  match op with CIngest _ _ now newID _ pb => [stamp now newID pb] | _ => [] end.
Definition op_answer (op : cluster_op) : option (result IngestResponse) :=
  match op with
  | CIngest _ _ now newID _ pb => Some (Ok (mkIngestResponse (ID (stamp now newID pb)) true))
  | _ => None
  end.

(** Requests that pass validation, to nodes of the cluster. *)
Definition op_valid (c : cluster) (op : cluster_op) : Prop :=
  match op with
  | CIngest _ _ _ _ addr pb => is_Some (c !! addr) ∧ Pb.Service pb ≠ "" ∧ Pb.Message pb ≠ ""
  | _ => True
  end.

(** The machine limits of [Node], where the operation takes effect. *)
Definition cluster_op_fits (cfg : CompactorConfig) (n : Z) (c : cluster) (op : cluster_op) : bool :=
  match op with
  | CIngest _ _ now newID addr pb =>
    match follow 2 (views c) n addr pb with
    | Some (a, WriteLocal pb _) =>
      match c !! a with Some mb => entry_fits (nd_manager (mb_node mb)) (stamp now newID pb) | None => true end
    | _ => true
    end
  | _ =>
    match c !! op_addr op with
    | None => true
    | Some mb => match node_op_at mb op with Some (_, nop) => op_fits cfg (mb_node mb) nop | None => true end
    end
  end.

Fixpoint cluster_fits (cfg : CompactorConfig) (n : Z) (ops : list cluster_op) (c : cluster) : bool :=
  match ops with
  | [] => true
  | op :: ops =>
    cluster_op_fits cfg n c op &&
    match run_cluster_op cfg op c with Some (c, _) => cluster_fits cfg n ops c | None => true end
  end.

(** The processes are the healthy nodes of the state, all route by this state, and each is
    in step with its directory. *)
Record cluster_ok (n : Z) (cs : Fsm.ClusterState) (c : cluster)
    (segs : gmap string (gmap string (list LogEntry))) : Prop := {
  co_node addr mb : c !! addr = Some mb →
    routes_by (mb_reader mb) cs ∧ nd_totalShards (mb_node mb) = n ∧
    ∃ nd, Fsm.Nodes cs !! nd_id (mb_node mb) = Some nd ∧ Fsm.n_Status nd = Fsm.NodeHealthy ∧ Fsm.n_Address nd = addr;
  co_live addr mb : c !! addr = Some mb →
    ∃ sg, segs !! addr = Some sg ∧ live (mb_node mb) (mb_disk mb) sg;
  co_healthy id nd : Fsm.Nodes cs !! id = Some nd → Fsm.n_Status nd = Fsm.NodeHealthy →
    ∃ mb, c !! Fsm.n_Address nd = Some mb ∧ nd_id (mb_node mb) = id;
}.

(** The stored entries of a node, and of all nodes of a cluster. *)
Definition stored_at (c : cluster) (segs : gmap string (gmap string (list LogEntry))) (addr : string) (x : LogEntry)
    : Prop :=
  ∃ sg, is_Some (c !! addr) ∧ segs !! addr = Some sg ∧ x ∈ entries_of sg.
Definition stored_in (c : cluster) (segs : gmap string (gmap string (list LogEntry))) (x : LogEntry) : Prop :=
  ∃ addr, stored_at c segs addr x.

(** Where an operation stores an entry: a write at the node its forwards lead to, a copy at
    the replica if it accepts it. *)
Definition lands (n : Z) (c : cluster) (op : cluster_op) (addr : string) (x : LogEntry) : Prop :=
  match op with
  | CIngest _ _ now newID addr0 pb =>
    x = stamp now newID pb ∧ ∃ pb' r, follow 2 (views c) n addr0 pb = Some (addr, WriteLocal pb' r)
  | CReplicate addr0 pb shardId =>
    addr0 = addr ∧ x = ProtoToEntry pb ∧
    ∃ mb, c !! addr = Some mb ∧ replica_accepts (Some (mb_reader mb)) (mb_node mb) pb shardId = Ok ()
  | _ => False
  end.

(** What no operation changes of a process. *)
Definition mb_identity (mb : member) : string * Z * Fsm.ClusterState * bool :=
  (nd_id (mb_node mb), nd_totalShards (mb_node mb), mb_state mb, bloomEnabled (nd_manager (mb_node mb))).
Definition same_members (c c' : cluster) : Prop := mb_identity <$> c' = mb_identity <$> c.

(** The queries the nodes' filters lose nothing of, when every entry is one of [named]: all
    with the filters off, with filters those on attributes a filter stores. *)
Definition filters_off (c : cluster) : Prop :=
  ∀ addr mb, c !! addr = Some mb → bloomEnabled (nd_manager (mb_node mb)) = false.
Definition safe_query (c : cluster) (named : list LogEntry) (ast : option Node) : Prop :=
  filters_off c ∨ ∀ nd, ast = Some nd → bloom_safe named nd.
End cluster.

(** ** Lemmas *)

Section cluster_lemmas.
Context `{GoUnicodeLaws} `{ProtobufLaws} `{BloomLaws}.
Implicit Types (c : gmap string member).

(** The recursion of [cluster_ingest] is the [call] argument of [Ingest]: at a node that
    forwards, [Ingest] returns the remote answer and changes nothing. *)
Lemma cluster_ingest_forward fuel ctx rand now newID addr pb c mb pb' addr' :
  c !! addr = Some mb →
  HandleIngest_route (Some (mb_reader mb)) (nd_id (mb_node mb)) (nd_totalShards (mb_node mb)) (Some pb)
    = Forward pb' addr' →
  let remote a ctx' p := cluster_ingest fuel (handler_context ctx') rand now newID a p c in
  let call a ctx' p := match remote a ctx' p with Some (_, r) => r | None => Err unreachable end in
  ∃ ctx', cluster_ingest (S fuel) ctx rand now newID addr pb c = remote addr' ctx' pb' ∧
    Ingest (Some (mb_reader mb)) call ctx rand now newID (Some pb) (mb_node mb) (mb_disk mb)
    = ((mb_node mb, call addr' ctx' pb'), mb_disk mb).
Proof.
  intros Hc Hr remote call. eexists. cbn [cluster_ingest]. rewrite Hc, Hr. split; [done|].
  unfold Ingest, HandleIngest. rewrite Hr. done.
Qed.

(** Where [follow] ends in a local write, [cluster_ingest] performs it. *)
Lemma cluster_ingest_write fuel n ctx rand now newID addr pb c a pb' replica :
  (∀ addr mb, c !! addr = Some mb → nd_totalShards (mb_node mb) = n) →
  follow fuel (views c) n addr pb = Some (a, WriteLocal pb' replica) →
  ∃ ctx' mb, c !! a = Some mb ∧
    cluster_ingest fuel ctx rand now newID addr pb c =
      let '((nd', r), d') := writeLocal (Some (mb_reader mb)) ctx' now newID pb' replica (mb_node mb) (mb_disk mb) in
      Some (<[a := mkMember nd' d' (mb_state mb)]> c, r).
Proof.
  intros Hn. revert ctx addr pb. induction fuel as [|fuel IH]; intros ctx addr pb; cbn [follow cluster_ingest]; [done|].
  unfold views. rewrite lookup_fmap. fold (views c). destruct (c !! addr) as [mb|] eqn:Hmb; cbn [fmap option_fmap option_map];
    [|done].
  rewrite (Hn addr mb Hmb).
  destruct (HandleIngest_route (Some (mb_reader mb)) (nd_id (mb_node mb)) n (Some pb)) as [e|p rep|p a'] eqn:Hroute.
  - done.
  - intros [= <- <- <-]. eexists _, mb. split; [done|]. unfold Ingest, HandleIngest.
    rewrite (Hn addr mb Hmb), Hroute. done.
  - intros Hf. eapply IH in Hf as (ctx' & mb' & Hmb' & E). exists ctx', mb'. split; [done|]. exact E.
Qed.

Section ok.
Context (n : Z) (cs : Fsm.ClusterState).

Lemma cluster_in_sync c segs : cluster_ok n cs c segs → in_sync cs (views c).
Proof.
  intros Hok id nd Hid Hst. destruct (co_healthy _ _ _ _ Hok id nd Hid Hst) as (mb & Hmb & <-).
  exists (mb_reader mb). split; [|by apply (co_node _ _ _ _ Hok _ mb Hmb)].
  unfold views. by rewrite lookup_fmap, Hmb.
Qed.

(** One node changes, the others stay. *)
Lemma cluster_ok_update c segs a mb nd' d' sg' :
  cluster_ok n cs c segs → c !! a = Some mb → live nd' d' sg' → same_node (mb_node mb) nd' →
  cluster_ok n cs (<[a := mkMember nd' d' (mb_state mb)]> c) (<[a := sg']> segs).
Proof.
  intros Hok Ha Hl (Hid & Ht & _). destruct (co_node _ _ _ _ Hok a mb Ha) as (Hst & Hn & nd & Hnd & Hh & Hadr).
  split.
  - intros addr mb'. destruct (decide (addr = a)) as [->|Hne].
    + rewrite lookup_insert_eq. intros [= <-]. cbn [mb_node]. rewrite Hid, Ht. split; [exact Hst|]. eauto 6.
    + rewrite lookup_insert_ne by done. apply (co_node _ _ _ _ Hok).
  - intros addr mb'. destruct (decide (addr = a)) as [->|Hne].
    + rewrite !lookup_insert_eq. intros [= <-]. cbn. eauto.
    + rewrite !lookup_insert_ne by done. apply (co_live _ _ _ _ Hok).
  - intros id ndh Hndh Hhh. destruct (co_healthy _ _ _ _ Hok id ndh Hndh Hhh) as (mb' & Hmb' & Hi).
    destruct (decide (Fsm.n_Address ndh = a)) as [E|Hne].
    + exists (mkMember nd' d' (mb_state mb)). rewrite E in *. rewrite lookup_insert_eq. split; [done|].
      cbn. congruence.
    + exists mb'. by rewrite lookup_insert_ne.
Qed.

(** Replacing a process by one with the same identity. *)
Lemma same_members_update c a mb mb' :
  c !! a = Some mb → mb_identity mb' = mb_identity mb → same_members c (<[a := mb']> c).
Proof.
  intros Ha Hi. unfold same_members. rewrite fmap_insert, Hi. apply insert_id. by rewrite lookup_fmap, Ha.
Qed.

Lemma same_members_lookup c c' a mb' :
  same_members c c' → c' !! a = Some mb' → ∃ mb, c !! a = Some mb ∧ mb_identity mb' = mb_identity mb.
Proof.
  intros Hs Ha. assert ((mb_identity <$> c) !! a = Some (mb_identity mb')) as E by (rewrite <- Hs, lookup_fmap, Ha; done).
  rewrite lookup_fmap in E. apply fmap_Some in E as (mb & ? & ?). eauto.
Qed.

Lemma same_members_dom c c' a : same_members c c' → is_Some (c' !! a) ↔ is_Some (c !! a).
Proof.
  intros Hs. rewrite <- (fmap_is_Some mb_identity (c' !! a)), <- (fmap_is_Some mb_identity (c !! a)), <- !lookup_fmap.
  by rewrite Hs.
Qed.

Lemma same_members_views c c' : same_members c c' → views c' = views c.
Proof.
  intros Hs. unfold views. set (f := λ i : string * Z * Fsm.ClusterState * bool, (i.1.1.1, StateCache.reader i.1.2)).
  assert (∀ c : gmap string member, (λ mb, (nd_id (mb_node mb), mb_reader mb)) <$> c = f <$> (mb_identity <$> c)) as E.
  { intros c0. rewrite <- map_fmap_compose. by apply map_fmap_ext. }
  by rewrite !E, Hs.
Qed.

Lemma lands_same c c' op a x : same_members c c' → lands n c op a x ↔ lands n c' op a x.
Proof.
  intros Hs. destruct op as [ctx rand now newID addr pb|addr pb shardId| | |]; cbn; [by rewrite (same_members_views c c')| |done..].
  assert (∀ c c', same_members c c' →
    (∃ mb, c' !! a = Some mb ∧ replica_accepts (Some (mb_reader mb)) (mb_node mb) pb shardId = Ok ()) →
    ∃ mb, c !! a = Some mb ∧ replica_accepts (Some (mb_reader mb)) (mb_node mb) pb shardId = Ok ()) as Hl.
  { intros c0 c1 Hs0 (mb' & Hmb' & Hacc). destruct (same_members_lookup c0 c1 a mb' Hs0 Hmb') as (mb & Hmb & [= Hi Ht Hst _]).
    exists mb. split; [done|]. unfold replica_accepts, mb_reader in *. by rewrite <- Hi, <- Ht, <- Hst. }
  pose proof (Hl c c' Hs). pose proof (Hl c' c (eq_sym Hs)). naive_solver.
Qed.

(** What one changed node does to the stored entries. *)
Lemma stored_at_update c segs a mb' sg' b x :
  stored_at (<[a := mb']> c) (<[a := sg']> segs) b x ↔
  if decide (b = a) then x ∈ entries_of sg' else stored_at c segs b x.
Proof.
  unfold stored_at. case_decide as E; [subst b|by rewrite (lookup_insert_ne c), (lookup_insert_ne segs)].
  rewrite (lookup_insert_eq c), (lookup_insert_eq segs). split.
  - by intros (sg & _ & [= <-] & Hx).
  - intros Hx. eauto.
Qed.

Lemma stored_at_here c segs a sg x :
  is_Some (c !! a) → segs !! a = Some sg → stored_at c segs a x ↔ x ∈ entries_of sg.
Proof. intros Ha Hsg. unfold stored_at. rewrite Hsg. naive_solver. Qed.
End ok.

(** What one operation does to the stored entries: it adds none but its own, what it writes
    is somewhere, and every node keeps what it has and what lands there, retention aside. *)
Record entries_step (cfg : CompactorConfig) (n : Z) (op : cluster_op) (c : gmap string member)
    (segs : gmap string (gmap string (list LogEntry))) (c' : gmap string member)
    (segs' : gmap string (gmap string (list LogEntry))) : Prop := {
  es_only x : stored_in c' segs' x → stored_in c segs x ∨ x ∈ op_entries op;
  es_writes x : x ∈ op_writes op → ∃ a, lands n c op a x;
  es_keeps a x : stored_at c segs a x ∨ lands n c op a x → stored_at c' segs' a x ∨
    ∃ addr now, op = CRetain addr now ∧ Timestamp x < cutoff cfg now;
}.

Lemma CIngest_step cfg n ps c segs ctx rand now newID addr pb :
  let cs := Fsm.apply_all ps (Fsm.state (Fsm.NewFSM n)) in
  let op := CIngest ctx rand now newID addr pb in
  0 < n → (∀ id a t, Fsm.RegisterNodePayload id a t ∈ ps → id ≠ "" ∧ a ≠ "") →
  cluster_ok n cs c segs → op_valid c op → cluster_op_fits cfg n c op = true →
  ∃ c' segs', run_cluster_op cfg op c = Some (c', op_answer op) ∧ cluster_ok n cs c' segs' ∧
    same_members c c' ∧ entries_step cfg n op c segs c' segs'.
Proof.
  intros cs op Hn Hreg Hok ([mb0 Hmb0] & Hs & Hm) Hfit.
  destruct (co_node _ _ _ _ Hok addr mb0 Hmb0) as (_ & _ & nd0 & Hnd0 & Hst0 & Hadr).
  destruct (one_hop n ps (views c) pb (nd_id (mb_node mb0)) nd0 Hn Hs Hm Hreg
              (cluster_in_sync n cs c segs Hok) Hnd0 Hst0) as (owner & ndo & replica & _ & _ & _ & Hfol).
  rewrite Hadr in Hfol. set (a := Fsm.n_Address ndo) in *.
  destruct (cluster_ingest_write 2 n ctx rand now newID addr pb c a pb replica) as (ctx' & mb & Hmb & Hrun);
    [intros ? ? Hx; by destruct (co_node _ _ _ _ Hok _ _ Hx) as (_ & ? & _)|done|].
  unfold op, cluster_op_fits in Hfit. rewrite Hfol, Hmb in Hfit.
  destruct (entry_fits_can _ _ Hfit) as [data Hcan].
  destruct (co_live _ _ _ _ Hok a mb Hmb) as (sg & Hsg & Hlive).
  destruct (writeLocal_live (Some (mb_reader mb)) ctx' now newID pb replica (mb_node mb) (mb_disk mb) sg data Hlive Hcan)
    as (nd' & d' & p & Hw & Hlive' & Hsame).
  rewrite Hw in Hrun. eexists _, (<[a := appended p (stamp now newID pb) sg]> segs).
  split; [unfold op, run_cluster_op; rewrite Hrun; done|].
  split; [by apply cluster_ok_update|].
  split; [apply (same_members_update c a mb); [done|]; destruct Hsame as (? & ? & ? & _); unfold mb_identity; cbn; congruence|].
  split.
  - intros x [b Hx]. apply stored_at_update in Hx. case_decide; [subst b|left; by exists b].
    apply entries_of_appended in Hx as [Hx|Hx]; [left|right; subst x; by left].
    exists a. by apply (stored_at_here c segs a sg).
  - intros x ->%list_elem_of_singleton. exists a. cbn. eauto.
  - intros b x [Hx|Hx]; left; apply stored_at_update; case_decide; try done.
    + subst b. apply entries_of_appended. left. by apply (stored_at_here c segs a sg) in Hx.
    + destruct Hx as (-> & _). apply entries_of_appended. by right.
    + destruct Hx as (-> & pb' & r & Hf). rewrite Hfol in Hf. by injection Hf as <-.
Qed.

Lemma CNode_step cfg n cs c segs op :
  (∀ ctx rand now newID addr pb, op ≠ CIngest ctx rand now newID addr pb) →
  cluster_ok n cs c segs → cluster_op_fits cfg n c op = true →
  ∃ c' segs', run_cluster_op cfg op c = Some (c', op_answer op) ∧ cluster_ok n cs c' segs' ∧
    same_members c c' ∧ entries_step cfg n op c segs c' segs'.
Proof.
  intros Hop Hok Hfit.
  assert (op_answer op = None ∧ op_writes op = []) as [Hans Hwr].
  { destruct op; try done. by edestruct Hop. }
  assert (run_cluster_op cfg op c = match c !! op_addr op with
    | None => Some (c, None)
    | Some mb => match node_op_at mb op with
                 | None => Some (c, None)
                 | Some (addr, nop) =>
                   let '(nd, d) := run_node_op cfg nop (mb_node mb) (mb_disk mb) in
                   Some (<[addr := mkMember nd d (mb_state mb)]> c, None)
                 end
    end) as Hrun by (destruct op; try done; by edestruct Hop).
  assert (cluster_op_fits cfg n c op = match c !! op_addr op with
    | None => true
    | Some mb => match node_op_at mb op with Some (_, nop) => op_fits cfg (mb_node mb) nop | None => true end
    end) as Hf by (destruct op; try done; by edestruct Hop).
  rewrite Hf in Hfit. rewrite Hrun, Hans. clear Hf Hrun.
  destruct (c !! op_addr op) as [mb|] eqn:Hmb.
  2: { exists c, segs. split; [done|]. split; [done|]. split; [done|]. split.
       - by left.
       - rewrite Hwr. by intros x ?%not_elem_of_nil.
       - intros a x [Hx|Hx]; [by left|]. destruct op; try done.
         destruct Hx as (<- & _ & mb & Hmb' & _). cbn in Hmb. congruence. }
  destruct (node_op_at mb op) as [[a nop]|] eqn:Hnop; [|destruct op; try done; by edestruct Hop].
  assert (a = op_addr op ∧ (∀ x, op_entry (mb_node mb) nop = Some x → x ∈ op_entries op) ∧
          (∀ b x, lands n c op b x → b = op_addr op ∧ op_entry (mb_node mb) nop = Some x) ∧
          (∀ now, nop = OpRetain now → ∃ addr, op = CRetain addr now)) as (-> & Hent & Hland & Hret).
  { destruct op; cbn in Hnop, Hmb; simplify_eq; split_and!; try done; try naive_solver.
    - cbn. intros x. case_match; [|done]. intros [= <-]. by left.
    - intros b x (-> & -> & mb' & Hmb' & Hacc). split; [done|]. cbn in Hmb'. simplify_eq. cbn. by rewrite Hacc. }
  destruct (co_live _ _ _ _ Hok _ mb Hmb) as (sg & Hsg & Hlive).
  destruct (run_node_op_live cfg nop (mb_node mb) (mb_disk mb) sg Hlive Hfit)
    as (nd' & d' & sg' & -> & Hlive' & Hsame & H1' & H2' & H3').
  eexists _, (<[op_addr op := sg']> segs). split; [done|]. split; [by apply cluster_ok_update|].
  split; [apply (same_members_update c _ mb); [done|]; destruct Hsame as (? & ? & ? & _); unfold mb_identity; cbn; congruence|].
  split.
  - intros x [b Hx]. apply stored_at_update in Hx. case_decide; [subst b|left; by exists b].
    apply H1' in Hx as [Hx|Hx]; [left|right; by apply Hent].
    exists (op_addr op). by apply (stored_at_here c segs _ sg).
  - rewrite Hwr. by intros x ?%not_elem_of_nil.
  - intros b x Hx. rewrite stored_at_update. case_decide as E.
    + subst b. destruct Hx as [Hx|Hx]; [|left; apply H2'; by apply (Hland (op_addr op))].
      apply (stored_at_here c segs _ sg) in Hx; [|by eexists|done].
      apply H3' in Hx as [Hx|(now & Hnow & Hlt)]; [by left|right]. destruct (Hret now Hnow) as [addr ->]. eauto.
    + destruct Hx as [Hx|Hx]; [by left|]. by destruct (Hland b x Hx).
Qed.

Section run.
Context (cfg : CompactorConfig) (n : Z) (ps : list Fsm.payload).
Let cs := Fsm.apply_all ps (Fsm.state (Fsm.NewFSM n)).
Context (Hn : 0 < n) (Hreg : ∀ id a t, Fsm.RegisterNodePayload id a t ∈ ps → id ≠ "" ∧ a ≠ "").

Lemma op_valid_same (c c' : gmap string member) op : same_members c c' → op_valid c op → op_valid c' op.
Proof. intros Hs. destruct op; cbn; try done. by rewrite (same_members_dom c c'). Qed.

Lemma run_cluster_op_ok op c segs :
  cluster_ok n cs c segs → op_valid c op → cluster_op_fits cfg n c op = true →
  ∃ c' segs', run_cluster_op cfg op c = Some (c', op_answer op) ∧ cluster_ok n cs c' segs' ∧
    same_members c c' ∧ entries_step cfg n op c segs c' segs'.
Proof.
  intros Hok Hv Hf. destruct op; [by apply CIngest_step|apply (CNode_step cfg n cs); done..].
Qed.

(** Entries that a later retention pass may delete. *)
Definition outlived (ops : list cluster_op) (x : LogEntry) : Prop :=
  ∃ addr now, CRetain addr now ∈ ops ∧ Timestamp x < cutoff cfg now.

Lemma outlived_cons op ops x : outlived ops x → outlived (op :: ops) x.
Proof. intros (addr & now & ? & ?). exists addr, now. split; [by right|done]. Qed.

(** A run: every node keeps what it has and what lands there, retention aside. *)
Lemma run_cluster_ok ops c segs :
  cluster_ok n cs c segs → Forall (op_valid c) ops → cluster_fits cfg n ops c = true →
  ∃ c' segs', run_cluster cfg ops c = Some (c', op_answer <$> ops) ∧ cluster_ok n cs c' segs' ∧ same_members c c' ∧
    (∀ x, stored_in c' segs' x → stored_in c segs x ∨ x ∈ ops ≫= op_entries) ∧
    (∀ x, x ∈ ops ≫= op_writes → ∃ op a, op ∈ ops ∧ lands n c op a x) ∧
    (∀ a x, stored_at c segs a x ∨ (∃ op, op ∈ ops ∧ lands n c op a x) → stored_at c' segs' a x ∨ outlived ops x).
Proof.
  revert c segs. induction ops as [|op ops IH]; intros c segs Hok Hv Hfit.
  { exists c, segs. split; [done|]. split; [done|]. split; [done|]. split; [by left|].
    split; [by intros x ?%not_elem_of_nil|]. intros a x [Hx|(op & ?%not_elem_of_nil & _)]; [by left|done]. }
  apply Forall_cons in Hv as [Hv Hvs]. cbn [cluster_fits] in Hfit. apply andb_true_iff in Hfit as [Hf Hfs].
  destruct (run_cluster_op_ok op c segs Hok Hv Hf) as (c1 & segs1 & Hrun & Hok1 & Hsame & [Hin1 Hw1 Hk1]).
  rewrite Hrun in Hfs.
  destruct (IH c1 segs1 Hok1) as (c2 & segs2 & Hrun2 & Hok2 & Hsame2 & Hin2 & Hw2 & Hk2); [|done|].
  { eapply Forall_impl; [exact Hvs|]. intros o. by apply op_valid_same. }
  exists c2, segs2. split; [cbn [run_cluster]; rewrite Hrun; cbn; rewrite Hrun2; done|]. split; [done|].
  split; [by unfold same_members in *; rewrite Hsame2|]. split_and!.
  - intros x Hx. rewrite bind_cons, elem_of_app. apply Hin2 in Hx as [Hx|Hx]; [|tauto].
    apply Hin1 in Hx. tauto.
  - intros x. rewrite bind_cons, elem_of_app. intros [Hx|Hx].
    + destruct (Hw1 x Hx) as [a ?]. exists op, a. split; [by left|done].
    + destruct (Hw2 x Hx) as (o & a & ? & Hl). exists o, a. split; [by right|]. by apply (lands_same n c c1).
  - intros a x Hx.
    assert (stored_at c1 segs1 a x ∨ (∃ o, o ∈ ops ∧ lands n c1 o a x) ∨ outlived [op] x) as [Hx1|[Hx1|(b & now & Hin & Hlt)]].
    { assert (∀ y, stored_at c segs a y ∨ lands n c op a y → stored_at c1 segs1 a y ∨ outlived [op] y) as Hk.
      { intros y Hy. destruct (Hk1 a y Hy) as [?|(b & now & -> & ?)]; [by left|right]. exists b, now. split; [by left|done]. }
      destruct Hx as [Hx|(o & [->|Ho]%elem_of_cons & Hl)].
      - destruct (Hk x (or_introl Hx)); tauto.
      - destruct (Hk x (or_intror Hl)); tauto.
      - right. left. exists o. split; [done|]. by apply (lands_same n c c1). }
    + destruct (Hk2 a x (or_introl Hx1)); [by left|right]. by apply outlived_cons.
    + destruct (Hk2 a x (or_intror Hx1)); [by left|right]. by apply outlived_cons.
    + apply list_elem_of_singleton in Hin as <-. right. exists b, now. split; [by left|done].
Qed.

Lemma targets_elem t :
  t ∈ FanOut.targets cs ↔ ∃ nd, Fsm.Nodes cs !! t.1 = Some nd ∧ Fsm.n_Status nd = Fsm.NodeHealthy ∧
    t.2 = Fsm.n_Address nd.
Proof.
  unfold FanOut.targets. rewrite list_elem_of_omap. destruct t as [id addr]. cbn. split.
  - intros ([id' nd] & Hin%elem_of_map_to_list & Heq). cbn in Heq. case_decide as Hd; [|done].
    simplify_eq. exists nd. naive_solver.
  - intros (nd & Hnd & Hst & ->). exists (id, nd). split; [by apply elem_of_map_to_list|]. cbn.
    rewrite decide_True; [done|]. split; [done|].
    by destruct (Fsm.node_registered (λ id addr, id ≠ "" ∧ addr ≠ "") n ps id nd Hreg Hnd).
Qed.

Lemma Forall2_choose {A B} (P : A → B → Prop) (l : list A) :
  (∀ x, x ∈ l → ∃ y, P x y) → ∃ l', Forall2 P l l'.
Proof.
  induction l as [|x l IH]; intros Hl; [by exists []|].
  destruct (Hl x) as [y Hy]; [by left|]. destruct IH as [l' Hl']; [intros z Hz; apply Hl; by right|].
  exists (y :: l'). by constructor.
Qed.

Lemma filters_off_same (c c' : gmap string member) : same_members c c' → filters_off c → filters_off c'.
Proof.
  intros Hs Hoff addr mb Hmb. destruct (same_members_lookup c c' addr mb Hs Hmb) as (mb0 & Hmb0 & [= _ _ _ ->]).
  by eapply Hoff.
Qed.

(** The nodes the coordinator asks hold exactly the stored entries, and no filter when they
    are off. *)
Lemma cluster_stores c segs :
  cluster_ok n cs c segs →
  ∃ stores, Forall2 (λ t s, FanOut.serves (cluster_query c) t.2 s ∧ FanOut.node_ok s) (FanOut.targets cs) stores ∧
    (∀ x, x ∈ FanOut.all_entries stores ↔ stored_in c segs x) ∧
    (filters_off c → ∀ s, s ∈ stores → blooms (FanOut.ns_manager s) = ∅).
Proof.
  intros Hok.
  destruct (Forall2_choose (λ t s, ∃ mb sg, c !! t.2 = Some mb ∧ segs !! t.2 = Some sg ∧
      live (mb_node mb) (mb_disk mb) sg ∧
      s = FanOut.mkNodeStore (nd_index (mb_node mb)) (nd_manager (mb_node mb)) (mb_disk mb) sg)
    (FanOut.targets cs)) as [stores Hst].
  { intros t (nd & Hnd & Hh & ->)%targets_elem.
    destruct (co_healthy _ _ _ _ Hok _ nd Hnd Hh) as (mb & Hmb & _).
    destruct (co_live _ _ _ _ Hok _ mb Hmb) as (sg & Hsg & Hl). eauto 8. }
  exists stores. split; [|split].
  - eapply Forall2_impl; [exact Hst|]. intros t s (mb & sg & Hmb & _ & (Hd & Hinv & _) & ->). split.
    + intros q. exists 0, 0. unfold cluster_query. by rewrite Hmb.
    + split; [done|]. by apply store_inv_ok.
  - intros x. unfold FanOut.all_entries. rewrite list_elem_of_bind. split.
    + intros (s & Hx & Hs). apply list_elem_of_lookup in Hs as [i Hi].
      destruct (Forall2_lookup_r _ _ _ _ _ Hst Hi) as (t & _ & mb & sg & Hmb & Hsg & _ & ->).
      exists t.2, sg. eauto.
    + intros (addr & sg & [mb Hmb] & Hsg & Hx).
      destruct (co_node _ _ _ _ Hok addr mb Hmb) as (_ & _ & nd & Hnd & Hh & Hadr).
      assert ((nd_id (mb_node mb), addr) ∈ FanOut.targets cs) as Ht by (apply targets_elem; exists nd; done).
      apply list_elem_of_lookup in Ht as [i Hi].
      destruct (Forall2_lookup_l _ _ _ _ _ Hst Hi) as (s & Hs & mb' & sg' & Hmb' & Hsg' & _ & ->).
      cbn in Hmb', Hsg'. simplify_eq. eexists. split; [|by eapply list_elem_of_lookup_2]. exact Hx.
  - intros Hoff s Hs. apply list_elem_of_lookup in Hs as [i Hi].
    destruct (Forall2_lookup_r _ _ _ _ _ Hst Hi) as (t & _ & mb & sg & Hmb & _ & (_ & _ & Hd) & ->). cbn.
    destruct (dir_bloom _ _ Hd) as [Hon|[? _]]; [|done]. by rewrite (Hoff _ _ Hmb) in Hon.
Qed.

(** A cluster answers from everything its nodes have stored. *)
Lemma cluster_answers c0 c segs named :
  cluster_ok n cs c segs → (∀ x, stored_in c segs x → x ∈ named) → id_consistent named →
  (filters_off c0 → filters_off c) →
  ∃ kept, (∀ x, x ∈ kept ↔ stored_in c segs x) ∧ FanOut.answers (cluster_query c) cs (safe_query c0 named) kept.
Proof.
  intros Hok Hnamed Hc Hoff. destruct (cluster_stores c segs Hok) as (stores & Hst & Hall & Hno).
  exists (FanOut.all_entries stores). split; [done|].
  assert (∀ x, x ∈ FanOut.all_entries stores → x ∈ named) as Hsub by (intros x ?%Hall; by apply Hnamed).
  apply FanOut.stores_answer; [done| |intros x y Hx Hy; apply Hc; auto].
  intros ast s [Hs|Hs] Hin; [left; auto|right]. intros nd Hnd.
  eapply bloom_safe_subset; [|by apply Hs]. intros x Hx. apply Hsub.
  unfold FanOut.all_entries. apply list_elem_of_bind. by exists s.
Qed.
End run.

(** ** Theorems *)

(** C1. The cluster serves what it accepted. Take a cluster whose healthy nodes are in step with
    their directories and route by the same state. Let clients write through any of its nodes
    while nodes replicate, merge, delete expired segments and restart. Then every valid
    write is acknowledged, and afterwards the coordinator's [Query], with filters off or safe
    for the query and [offset+limit] an [int32], returns what its cache still holds under
    the key of the request, and otherwise the requested page of the ranking of [kept] ([FanOut.answers]),
    where [kept] has every entry that was stored before or acknowledged since, but for those a
    retention pass with a later cutoff has removed, and nothing that was never stored or
    written. *)
Theorem cluster_serves_writes (cfg : CompactorConfig) (n : Z) (ps : list Fsm.payload) (ops : list cluster_op)
    (c : gmap string member) (segs : gmap string (gmap string (list LogEntry))) (named : list LogEntry) :
  let cs := Fsm.apply_all ps (Fsm.state (Fsm.NewFSM n)) in
  0 < n → (∀ id addr now, Fsm.RegisterNodePayload id addr now ∈ ps → id ≠ "" ∧ addr ≠ "") →
  cluster_ok n cs c segs → Forall (op_valid c) ops → cluster_fits cfg n ops c = true →
  (∀ x, stored_in c segs x ∨ x ∈ ops ≫= op_entries → x ∈ named) → id_consistent named →
  ∃ c' kept, run_cluster cfg ops c = Some (c', op_answer <$> ops) ∧
    (∀ x, x ∈ kept → stored_in c segs x ∨ x ∈ ops ≫= op_entries) ∧
    (∀ x, stored_in c segs x ∨ x ∈ ops ≫= op_writes →
       x ∈ kept ∨ ∃ addr now, CRetain addr now ∈ ops ∧ Timestamp x < cutoff cfg now) ∧
    FanOut.answers (cluster_query c') cs (safe_query c named) kept.
Proof.
  intros cs Hn Hreg Hok Hv Hfit Hnamed Hc.
  destruct (run_cluster_ok cfg n ps Hn Hreg ops c segs Hok Hv Hfit) as (c' & segs' & Hrun & Hok' & Hsame & Hin & Hw & Hout).
  destruct (cluster_answers n ps Hreg c c' segs' named Hok') as (kept & Hall & Hq);
    [by intros x ?%Hin; apply Hnamed|done|by apply filters_off_same|].
  exists c', kept. split; [done|]. split; [by intros x ?%Hall%Hin|]. split; [|exact Hq].
  intros x Hx. assert (∃ a, stored_at c segs a x ∨ (∃ op, op ∈ ops ∧ lands n c op a x)) as [a Ha].
  { destruct Hx as [[a Ha]|(op & a & ? & ?)%Hw]; [by exists a; left|]. exists a. right. by exists op. }
  apply Hout in Ha as [Ha|Ha]; [left; apply Hall; by exists a|by right].
Qed.
End cluster_lemmas.

(** ** Witness *)

(** Two nodes, each booted on an empty directory; clients write through both, a write is
    forwarded, a replica receives a copy, and one node restarts. *)
Definition sample_ps : list Fsm.payload :=
  [Fsm.RegisterNodePayload "a" "h:1" 1; Fsm.RegisterNodePayload "b" "h:2" 2].

Definition sample_member (id : string) : option (@member exact_bloom) :=
  match @boot ascii_tables bit_codec exact_bloom "data" 1000 id true 2 (Some ∅) (mkDisk ∅ []) with
  | (Ok nd, d) => Some (@mkMember exact_bloom nd d (Fsm.apply_all sample_ps (Fsm.state (Fsm.NewFSM 2))))
  | (Err _, _) => None
  end.

Definition sample_members : gmap string (@member exact_bloom) :=
  omap sample_member {[ "h:1" := "a"; "h:2" := "b" ]}.

Definition sample_segs : gmap string (gmap string (list LogEntry)) :=
  {[ "h:1" := {[ seq_path "data" 1 := [] ]}; "h:2" := {[ seq_path "data" 1 := [] ]} ]}.

Definition sample_ops : list cluster_op :=
  [CIngest Background 7 10 "g1" "h:1" (life_pb "x" "disk full" 1);
   CIngest Background 7 11 "g2" "h:2" (life_pb "y" "disk ok" 2);
   CRestart "h:2"; CMerge "h:1";
   CIngest Background 7 12 "g3" "h:2" (life_pb "" "net down" 3)].

Lemma sample_segs_empty addr sg x : sample_segs !! addr = Some sg → x ∉ entries_of sg.
Proof.
  unfold sample_segs. intros Hsg Hx. assert (sg = {[ seq_path "data" 1 := [] ]}) as ->.
  { apply lookup_insert_Some in Hsg as [[_ <-]|[_ Hsg]]; [done|]. by apply lookup_singleton_Some in Hsg as [_ <-]. }
  apply elem_of_entries_of in Hx as (p & es & [_ <-]%lookup_singleton_Some & Hx). by apply not_elem_of_nil in Hx.
Qed.

Lemma sample_named id addr now : Fsm.RegisterNodePayload id addr now ∈ sample_ps → id ≠ "" ∧ addr ≠ "".
Proof.
  intros Hin. repeat (apply elem_of_cons in Hin as [[= -> -> ->]|Hin]; [done|]). by apply not_elem_of_nil in Hin.
Qed.

Lemma sample_member_ok id :
  ∃ mb, sample_member id = Some mb ∧ nd_id (mb_node mb) = id ∧ nd_totalShards (mb_node mb) = 2 ∧
    mb_state mb = Fsm.apply_all sample_ps (Fsm.state (Fsm.NewFSM 2)) ∧
    @live ascii_tables bit_codec exact_bloom (mb_node mb) (mb_disk mb) {[ seq_path "data" 1 := [] ]}.
Proof.
  destruct (@boot_live ascii_tables ascii_tables_laws bit_codec bit_codec_laws exact_bloom exact_bloom_laws
    "data" 1000 id true 2 (Some ∅) (mkDisk ∅ [])) as (nd & d & Hb & Hl & Hid & Ht & _); [done|by split|].
  unfold sample_member. rewrite Hb. eexists. by split_and!.
Qed.

#[local] Opaque sample_member.

Lemma sample_members_lookup addr mb :
  sample_members !! addr = Some mb →
  ∃ id, sample_member id = Some mb ∧ ((addr = "h:1" ∧ id = "a") ∨ (addr = "h:2" ∧ id = "b")).
Proof.
  unfold sample_members. rewrite lookup_omap. intros (id & Hid & Hmb)%bind_Some. exists id. split; [exact Hmb|]. clear Hmb.
  apply lookup_insert_Some in Hid as [[<- <-]|[_ Hid]]; [left; split; reflexivity|].
  apply lookup_singleton_Some in Hid as [<- <-]. right; split; reflexivity.
Qed.

Lemma sample_members_get :
  sample_members !! "h:1" = sample_member "a" ∧ sample_members !! "h:2" = sample_member "b".
Proof.
  unfold sample_members. rewrite !lookup_omap.
  rewrite lookup_insert_eq, lookup_insert_ne, lookup_singleton_eq by done. cbn [mbind option_bind]. done.
Qed.

Definition sample_cs_nodes : gmap string Fsm.NodeRecord :=
  {[ "a" := Fsm.mkNodeRecord "a" "h:1" [0] Fsm.NodeHealthy 1; "b" := Fsm.mkNodeRecord "b" "h:2" [1] Fsm.NodeHealthy 2 ]}.

Lemma sample_cluster_ok :
  @cluster_ok ascii_tables bit_codec exact_bloom 2 (Fsm.apply_all sample_ps (Fsm.state (Fsm.NewFSM 2)))
    sample_members sample_segs.
Proof.
  assert (Fsm.Nodes (Fsm.apply_all sample_ps (Fsm.state (Fsm.NewFSM 2))) = sample_cs_nodes) as HN
    by (vm_compute; reflexivity).
  split; rewrite ?HN.
  - intros addr mb (id & Hmb & Hid)%sample_members_lookup.
    destruct (sample_member_ok id) as (mb' & Hmb' & Hi & Ht & Hs & _). assert (mb' = mb) as -> by congruence.
    split; [unfold mb_reader; rewrite Hs; split; intros ?; exact eq_refl|]. split; [exact Ht|]. rewrite Hi. clear - Hid.
    destruct Hid as [[-> ->]|[-> ->]]; eexists; (split; [vm_compute; reflexivity|split; reflexivity]).
  - intros addr mb (id & Hmb & Hid)%sample_members_lookup.
    destruct (sample_member_ok id) as (mb' & Hmb' & _ & _ & _ & Hl). assert (mb' = mb) as -> by congruence.
    exists {[ seq_path "data" 1 := [] ]}. split; [|exact Hl]. clear - Hid.
    destruct Hid as [[-> _]|[-> _]]; reflexivity.
  - intros id nd Hnd _.
    assert ((id = "a" ∧ Fsm.n_Address nd = "h:1") ∨ (id = "b" ∧ Fsm.n_Address nd = "h:2")) as Hcase.
    { unfold sample_cs_nodes in Hnd. apply lookup_insert_Some in Hnd as [[<- <-]|[_ Hnd]]; [left; split; reflexivity|].
      apply lookup_singleton_Some in Hnd as [<- <-]. right; split; reflexivity. }
    destruct (sample_member_ok id) as (mb & Hmb & Hi & _). exists mb. split; [|done].
    destruct sample_members_get as [G1 G2]. destruct Hcase as [[-> ->]|[-> ->]]; [by rewrite G1|by rewrite G2].
Qed.

Lemma cluster_serves_writes_witness :
  let H1 := ascii_tables in let H2 := bit_codec in let H3 := exact_bloom in
  let req := sample_query "" in
  ∃ c' kept, run_cluster DefaultCompactorConfig sample_ops sample_members = Some (c', op_answer <$> sample_ops) ∧
    (∀ x, x ∈ sample_ops ≫= op_writes → x ∈ kept) ∧
    ∃ e' res, FanOut.Query (cluster_query c') reverse (Fsm.apply_all sample_ps (Fsm.state (Fsm.NewFSM 2))) None 0 0 3 3
        req (FanOut.NewFanOutExecutor 2) = Some (e', Ok (query_response 3 res)) ∧
      Entries res = FanOut.requested_page req None kept ∧ Partial res = false.
Proof.
  intros H1 H2 H3 req.
  destruct (@cluster_serves_writes ascii_tables ascii_tables_laws bit_codec bit_codec_laws exact_bloom exact_bloom_laws
    DefaultCompactorConfig 2 sample_ps sample_ops sample_members
    sample_segs
    (sample_ops ≫= op_entries)) as (c' & kept & Hrun & _ & Hall & Hq).
  - lia.
  - exact sample_named.
  - apply sample_cluster_ok.
  - assert (∀ addr id, addr = "h:1" ∧ id = "a" ∨ addr = "h:2" ∧ id = "b" → is_Some (sample_members !! addr)) as Hm.
    { intros addr id Hc. destruct (sample_member_ok id) as (mb & Hmb & _), sample_members_get as [G1 G2].
      destruct Hc as [[-> ->]|[-> ->]]; [rewrite G1|rewrite G2]; rewrite Hmb; eauto. }
    unfold sample_ops. repeat first [apply Forall_nil_2 | apply Forall_cons_2]; try exact I.
    + split; [apply (Hm _ "a"); auto|done].
    + split; [apply (Hm _ "b"); auto|done].
    + split; [apply (Hm _ "b"); auto|done].
  - vm_compute. reflexivity.
  - intros x [(addr & sg & _ & Hsg & Hx)|Hx]; [|done]. by destruct (sample_segs_empty addr sg x Hsg).
  - intros x y Hx Hy. cbn [sample_ops mbind list_bind op_entries app] in Hx, Hy. rewrite !elem_of_cons in Hx, Hy.
    destruct Hx as [->|[->|[->|[]%not_elem_of_nil]]], Hy as [->|[->|[->|[]%not_elem_of_nil]]]; vm_compute; congruence.
  - exists c', kept. split; [exact Hrun|]. split.
    + intros x Hx. destruct (Hall x (or_intror Hx)) as [|(addr & now & Hin & _)]; [done|].
      exfalso. repeat (apply elem_of_cons in Hin as [[=]|Hin]). by apply not_elem_of_nil in Hin.
    + destruct (Hq reverse 0 0 3 3 req None (FanOut.NewFanOutExecutor 2))
        as (e' & res & Hans & _ & [[lru Hhit]|(_ & Hpage & Hpart & _)]).
      * apply reverse_Permutation.
      * apply NewFanOutExecutor_ok.
      * reflexivity.
      * by right.
      * cbn. lia.
      * cbn. lia.
      * vm_compute. reflexivity.
      * vm_compute in Hhit. discriminate.
      * exists e', res. exact (conj Hans (conj Hpage Hpart)).
Defined.
