(* ===== verification/Failover.v ===== *)
(** * Failover ([internal/metadata/liveness.go], [fsm.go], [internal/cluster/state_cache.go],
    [internal/ingest/orchestrator.go], [internal/coordinator/fanout.go])

    The components that take over when a storage node falls silent, together: the leader's
    checker marks it, the state machine gives its shards away, the other nodes fetch the new
    layout and route by it, and distributed queries no longer ask it. Then the whole cluster:
    it goes on without the node and keeps what the others have. *)

From S2P Require Import Prelude GoStrings Observability Types Record Disk Segment Ranking Index Parser Bloom.
From S2P Require Import Paths Strconv Json Manager Executor Recovery Merge Fsm Snapshot Sha256 Cache Fanout Ingest Compaction.
From S2P Require Import Node Metadata Client Loops Detector Cluster.

Module Failover.
Import Fsm Snap Meta Detector.

(** ** Lemmas *)

Lemma apply_all_app ps1 ps2 cs : apply_all (ps1 ++ ps2) cs = apply_all ps2 (apply_all ps1 cs).
Proof. apply foldl_app. Qed.

(** Registrations carry an identifier and an address, as the handler requires. *)
Definition named (ps : list payload) : Prop :=
  ∀ id addr now, RegisterNodePayload id addr now ∈ ps → id ≠ "" ∧ addr ≠ "".

Lemma named_app ps1 ps2 : named ps1 → named ps2 → named (ps1 ++ ps2).
Proof. intros H1 H2 id addr now [?|?]%elem_of_app; eauto. Qed.

(** What the detector does to a layout is a list of commands. *)
Lemma step_commands timeout ev n R ms :
  event_ok ev → ids_ok R →
  ∃ ps, (step timeout ev (layout n R, ms)).1 = apply_all ps (layout n R) ∧ named ps.
Proof.
  assert (named []) as Hnil by (intros ??? ?%not_elem_of_nil; done).
  intros Hok Hids. destruct ev as [leader now id addr|leader now id|leader now]; cbn [step fst snd].
  - rewrite register_state by done. destruct (leader && _) eqn:E; [|by exists []].
    apply andb_true_iff in E as [_ E%negb_true_iff]. apply orb_false_iff in E as [E1 E2].
    apply bool_decide_eq_false in E1, E2. exists [RegisterNodePayload id addr now]. split; [done|].
    intros i a t [= -> -> ->]%list_elem_of_singleton. done.
  - rewrite heartbeat_state by done. destruct (leader && _); [|by exists []].
    exists [UpdateHeartbeatPayload id now]. split; [done|]. intros i a t Hi%list_elem_of_singleton. done.
  - unfold liveness_tick. cbn [fst snd]. destruct leader; [|by exists []]. rewrite checkLiveness_apply.
    + eexists. split; [done|]. intros i a t (x & Hx & _)%list_elem_of_fmap. done.
    + intros i nd Hi. destruct (layout_keys n R) as [HN _]. rewrite (HN i nd Hi).
      destruct (layout_node_Some n R i nd Hi) as (e & He & _). by eapply Hids.
Qed.

Lemma run_commands timeout evs n ms :
  Forall event_ok evs → ∃ ps, (run timeout evs (state (NewFSM n), ms)).1 = apply_all ps (state (NewFSM n)) ∧ named ps.
Proof.
  intros Hok. induction evs as [|ev evs IH] using rev_ind.
  { exists []. split; [done|]. by intros ??? ?%not_elem_of_nil. }
  apply Forall_app in Hok as [Hok [Hev _]%Forall_cons]. destruct (IH Hok) as (ps & E & Hps).
  assert (ids_ok ∅) as H0 by (by intros ? ? ?%lookup_empty_Some).
  rewrite NewFSM_layout in *. destruct (run_layout_steps timeout evs n ∅ ms Hok H0) as (R & ms1 & E1 & Hids & _).
  destruct (step_commands timeout ev n R ms1 Hev Hids) as (ps' & E2 & Hps').
  exists (ps ++ ps'). split; [|by apply named_app].
  unfold run in *. rewrite foldl_app, E1. cbn [foldl]. rewrite E1 in E. cbn [fst] in E. by rewrite E2, apply_all_app, <- E.
Qed.

(** The automaton of a node is what the state shows. *)
Lemma run_watch timeout evs n ms id :
  Forall event_ok evs →
  watch_of (run timeout evs (state (NewFSM n), ms)).1 id = foldl (watch_step timeout id) None evs.
Proof.
  intros Hok. rewrite NewFSM_layout. assert (ids_ok ∅) as H0 by (by intros ? ? ?%lookup_empty_Some).
  destruct (run_layout_steps timeout evs n ∅ ms Hok H0) as (R & ms1 & -> & _ & Hw).
  cbn [fst]. by rewrite watch_of_layout, Hw.
Qed.

Lemma watch_node cs id st t :
  watch_of cs id = Some (st, t) → ∃ nd, Nodes cs !! id = Some nd ∧ n_Status nd = st ∧ n_LastSeen nd = t.
Proof. unfold watch_of. intros (nd & Hnd & [= -> ->])%fmap_Some. eauto. Qed.

(** ** Properties *)

(** C14. A silent node is taken over: when a node has not been heard of for longer than the
    timeout and another healthy one has, a tick of the leader's checker marks the first;
    distributed queries do not ask it any more; and once a storage node has refreshed its
    cache from this coordinator, no valid write is refused for want of an owner: it is
    stored where it arrived, on a node that owns the shard, or forwarded to the address of
    a healthy node that does, and the silent node never is this owner. *)
Theorem failover_reroutes (timeout n : Z) (evs : list event) (now : Z) (ms : Metrics)
    (dead alive : string) (st : NodeStatus) (t t' : Z) :
  let spec := λ id, foldl (watch_step timeout id) None evs in
  let cs := (run timeout (evs ++ [EvTick true now]) (state (NewFSM n), ms)).1 in
  0 < n < 2 ^ 31 → Forall event_ok evs →
  spec dead = Some (st, t) → timeout < int64 (now - t) →
  spec alive = Some (NodeHealthy, t') → int64 (now - t') ≤ timeout →
  watch_of cs dead = Some (NodeUnhealthy, t) ∧
  (∀ addr, (dead, addr) ∉ FanOut.targets cs) ∧
  ∀ closing c old id pb, Client.connected c → Pb.Service pb ≠ "" → Pb.Message pb ≠ "" →
    let cache := NodeLoops.Refresh closing c (λ _, Ok (GetClusterState cs)) old in
    ∃ owner nd replica, owner ≠ dead ∧ Nodes cs !! owner = Some nd ∧ n_Status nd = NodeHealthy ∧
      ShardID (Pb.Namespace pb) (Pb.Service pb) n ∈ n_Shards nd ∧
      HandleIngest_route (Some (StateCache.reader cache)) id n (Some pb) =
        if decide (owner = id) then WriteLocal pb replica else Forward pb (n_Address nd).
Proof.
  intros spec cs Hn Hok Hdead Hsilent Halive Hheard.
  assert (Forall event_ok (evs ++ [EvTick true now])) as Hok' by (apply Forall_app; split; [done|by repeat constructor]).
  assert (∀ id, watch_of cs id = watch_step timeout id (spec id) (EvTick true now)) as Hw.
  { intros id. unfold cs. rewrite run_watch by done. by rewrite foldl_app. }
  assert (watch_of cs dead = Some (NodeUnhealthy, t)) as Hwd.
  { rewrite Hw, Hdead. cbn. rewrite (proj2 (Z.ltb_lt _ _)) by done. by case_bool_decide; subst. }
  assert (watch_of cs alive = Some (NodeHealthy, t')) as Hwa.
  { rewrite Hw, Halive. cbn. by rewrite (proj2 (Z.ltb_ge _ _)) by done. }
  destruct (watch_node _ _ _ _ Hwd) as (ndd & Hndd & Hstd & _).
  destruct (watch_node _ _ _ _ Hwa) as (nda & Hnda & Hsta & _). split_and!; [done| |].
  - intros addr ([id nd] & Hin%elem_of_map_to_list & Heq)%list_elem_of_omap. cbn in Heq. case_decide as Hd; [|done].
    cbn in *. simplify_eq. destruct Hd as [Hd _]. by rewrite Hstd in Hd.
  - intros closing c old id pb Hc Hs Hm. cbn zeta. unfold NodeLoops.Refresh, Client.fetchState.
    rewrite Client.call_connected by done. cbn [StateCache.refresh].
    destruct (run_commands timeout (evs ++ [EvTick true now]) n ms Hok') as (ps & E & Hps). fold cs in E.
    set (j := ShardID (Pb.Namespace pb) (Pb.Service pb) n).
    destruct (shard_owner n ps j (ShardID_range _ _ n ltac:(lia))) as (sr & nd & Hsr & _ & Hnd & Hst & Hj & _);
      [rewrite <- E; eauto|]. rewrite <- E in Hsr, Hnd.
    destruct (node_registered (λ id addr, id ≠ "" ∧ addr ≠ "") n ps (s_PrimaryNode sr) nd Hps) as [Hne Hane];
      [by rewrite <- E|].
    exists (s_PrimaryNode sr), nd, (s_ReplicaNode sr). split_and!; [|done..|].
    + intros Hp. rewrite Hp, Hndd in Hnd. injection Hnd as <-. by rewrite Hstd in Hst.
    + rewrite E at 1. rewrite run_layout, NodeLoops.fetched_route, <- run_layout, <- E by lia.
      rewrite route_valid by (done || lia). fold j. cbn [ShardOwners NodeAddress StateCache.reader].
      unfold StateCache.ShardOwners, StateCache.NodeAddress. rewrite Hsr, decide_False, Hnd by done.
      case_decide; [done|]. by rewrite decide_False.
Qed.

(** ** A node dies *)

Section death.
Context `{GoUnicodeLaws} `{ProtobufLaws} `{BloomLaws}.
Implicit Types (c : gmap string member).

#[global] Instance payload_eq_dec : EqDecision payload.
Proof. solve_decision. Defined.

(** What is committed when a node dies: heartbeats, and the mark of the dead one. *)
Definition buries (dead : string) (ps : list payload) : Prop :=
  MarkUnhealthyPayload dead ∈ ps ∧
  ∀ p, p ∈ ps → p = MarkUnhealthyPayload dead ∨ ∃ id now, p = UpdateHeartbeatPayload id now.

(** The processes that are left, after each has refreshed its cache from the coordinator. *)
Definition survivors (addr : string) (cs : ClusterState) c : gmap string member :=
  (λ mb, mkMember (mb_node mb) (mb_disk mb)
           (StateCache.refresh (Ok (protoToClusterState (GetClusterState cs))) (mb_state mb))) <$> delete addr c.

(** Address and status of a node, in a registry and in a state. *)
Definition entry_facts (e : entry) : string * NodeStatus := (e_Address e, e_Status e).
Definition node_facts (cs : ClusterState) (id : string) : option (string * NodeStatus) :=
  (λ nd, (n_Address nd, n_Status nd)) <$> Nodes cs !! id.

Lemma node_facts_layout n R id : node_facts (layout n R) id = entry_facts <$> R !! id.
Proof. unfold node_facts. cbn [layout Nodes]. rewrite mknodes_lookup, <- option_fmap_compose. by destruct (R !! id). Qed.

Lemma buries_registry dead ps R id :
  (∀ p, p ∈ ps → p = MarkUnhealthyPayload dead ∨ ∃ id now, p = UpdateHeartbeatPayload id now) →
  entry_facts <$> spec_all ps R !! id =
  (λ e, (e_Address e, if decide (id = dead ∧ MarkUnhealthyPayload dead ∈ ps) then NodeUnhealthy else e_Status e))
    <$> R !! id.
Proof.
  revert R. induction ps as [|p ps IH]; intros R Hps.
  { cbn. destruct (R !! id); [|done]. cbn. rewrite decide_False; [done|]. by intros [_ ?%not_elem_of_nil]. }
  change (spec_all (p :: ps) R) with (spec_all ps (spec_payload p R)). rewrite IH by (intros q Hq; apply Hps; by right).
  destruct (Hps p) as [->|(i & now & ->)]; [by left| |]; cbn [spec_payload].
  - destruct (decide (id = dead)) as [->|Hne].
    + rewrite lookup_alter_eq. destruct (R !! dead); [|done]. cbn.
      rewrite (decide_True (P := dead = dead ∧ MarkUnhealthyPayload dead ∈ _ :: ps)) by (split; [done|by left]).
      by case_decide.
    + rewrite lookup_alter_ne by done. destruct (R !! id); [|done]. cbn. by rewrite !decide_False by naive_solver.
  - destruct (decide (id = i)) as [->|Hne].
    + rewrite lookup_alter_eq. destruct (R !! i); [|done]. cbn. f_equal. f_equal. apply decide_ext. set_solver.
    + rewrite lookup_alter_ne by done. destruct (R !! id); [|done]. cbn. f_equal. f_equal. apply decide_ext. set_solver.
Qed.

Lemma buries_facts n ps ps' dead id :
  buries dead ps' →
  node_facts (apply_all (ps ++ ps') (state (NewFSM n))) id =
  (λ f, (f.1, if decide (id = dead) then NodeUnhealthy else f.2)) <$> node_facts (apply_all ps (state (NewFSM n))) id.
Proof.
  intros [Hin Hps]. rewrite !run_layout, !node_facts_layout. unfold spec_all. rewrite foldl_app.
  fold (spec_all ps ∅) (spec_all ps' (spec_all ps ∅)). rewrite (buries_registry dead) by exact Hps.
  destruct (spec_all ps ∅ !! id); [|done]. cbn. f_equal. f_equal. apply decide_ext. naive_solver.
Qed.

Lemma node_facts_Some cs id a st :
  node_facts cs id = Some (a, st) ↔ ∃ nd, Nodes cs !! id = Some nd ∧ n_Address nd = a ∧ n_Status nd = st.
Proof. unfold node_facts. rewrite fmap_Some. naive_solver. Qed.

Lemma buries_named ps ps' dead : buries dead ps' → named ps → named (ps ++ ps').
Proof. intros [_ Hb] Hps. apply named_app; [done|]. intros i a t Hin. by destruct (Hb _ Hin) as [|(? & ? & ?)]. Qed.

(** The survivors are a cluster that routes by the new state. *)
Lemma survivors_ok n ps ps' c segs addr mbd :
  let cs := apply_all ps (state (NewFSM n)) in
  let cs' := apply_all (ps ++ ps') (state (NewFSM n)) in
  n < 2 ^ 31 → cluster_ok n cs c segs → c !! addr = Some mbd → buries (nd_id (mb_node mbd)) ps' →
  cluster_ok n cs' (survivors addr cs' c) segs.
Proof.
  intros cs cs' Hn Hok Hmbd Hb. set (dead := nd_id (mb_node mbd)) in *.
  destruct (co_node _ _ _ _ Hok addr mbd Hmbd) as (_ & _ & ndd & Hndd & _ & Hadrd). fold dead in Hndd.
  assert (∀ id, node_facts cs' id = (λ f, (f.1, if decide (id = dead) then NodeUnhealthy else f.2)) <$> node_facts cs id)
    as Hfacts by (intros id; by apply buries_facts).
  assert (∀ a mb, c !! a = Some mb → a ≠ addr → nd_id (mb_node mb) ≠ dead) as Hother.
  { intros a mb Hmb Hne E. destruct (co_node _ _ _ _ Hok a mb Hmb) as (_ & _ & nd & Hnd & _ & Hadr).
    rewrite E, Hndd in Hnd. injection Hnd as <-. congruence. }
  assert (∀ a mb', survivors addr cs' c !! a = Some mb' → a ≠ addr ∧ ∃ mb, c !! a = Some mb ∧ mb_node mb' = mb_node mb ∧
    mb_disk mb' = mb_disk mb ∧ mb_state mb' = protoToClusterState (GetClusterState cs')) as Hinv.
  { intros a mb'. unfold survivors. rewrite lookup_fmap. intros (mb & Hmb & ->)%fmap_Some.
    apply lookup_delete_Some in Hmb as [? ?]. eauto 6. }
  split.
  - intros a mb' (Hne & mb & Hmb & -> & _ & Hst)%Hinv.
    destruct (co_node _ _ _ _ Hok a mb Hmb) as (_ & Ht & nd & Hnd & Hh & Hadr). split; [|split; [done|]].
    + unfold mb_reader, routes_by. cbn [StateCache.reader ShardOwners NodeAddress]. rewrite Hst. unfold cs'. rewrite run_layout.
      split; [intros j; by destruct (NodeLoops.fetched_routing n (spec_all (ps ++ ps') ∅) j "" Hn)|].
      intros id. by destruct (NodeLoops.fetched_routing n (spec_all (ps ++ ps') ∅) 0 id Hn).
    + destruct (proj1 (node_facts_Some cs' (nd_id (mb_node mb)) a NodeHealthy)) as (nd' & ? & ? & ?); [|eauto].
      rewrite Hfacts. rewrite (proj2 (node_facts_Some cs _ a NodeHealthy)) by eauto. cbn.
      by rewrite decide_False by eauto.
  - intros a mb' (Hne & mb & Hmb & -> & -> & _)%Hinv. by apply (co_live _ _ _ _ Hok).
  - intros id nd' Hnd' Hh'. pose proof (proj2 (node_facts_Some cs' id _ _) (ex_intro _ nd' (conj Hnd' (conj eq_refl eq_refl)))) as Hf.
    rewrite Hfacts in Hf. apply fmap_Some in Hf as ([a st] & Hf & [= Ha Hst]). rewrite Hh' in Hst.
    case_decide as E; [done|]. apply node_facts_Some in Hf as (nd & Hnd & Hadr & Hstn).
    destruct (co_healthy _ _ _ _ Hok id nd Hnd) as (mb & Hmb & Hid); [congruence|].
    exists (mkMember (mb_node mb) (mb_disk mb) (protoToClusterState (GetClusterState cs'))). split; [|done].
    unfold survivors. rewrite lookup_fmap, lookup_delete_ne; [by rewrite Ha, <- Hadr, Hmb|].
    intros E'. assert (mb = mbd) as -> by congruence. done.
Qed.

Lemma survivors_dom addr cs c a : is_Some (survivors addr cs c !! a) ↔ a ≠ addr ∧ is_Some (c !! a).
Proof.
  unfold survivors. rewrite lookup_fmap, fmap_is_Some. destruct (decide (a = addr)) as [->|Hne].
  - rewrite lookup_delete_eq. split; [by intros []|]. by intros [? _].
  - rewrite lookup_delete_ne by done. naive_solver.
Qed.

Lemma survivors_stored addr cs c segs a x :
  stored_at (survivors addr cs c) segs a x ↔ a ≠ addr ∧ stored_at c segs a x.
Proof. unfold stored_at. setoid_rewrite survivors_dom. naive_solver. Qed.

Lemma survivors_off addr cs c : filters_off c → filters_off (survivors addr cs c).
Proof.
  intros Hoff a mb. unfold survivors. rewrite lookup_fmap. intros (mb0 & [_ Hmb0]%lookup_delete_Some & ->)%fmap_Some.
  by apply (Hoff a mb0).
Qed.

(** C2. The cluster survives a node: take a cluster whose nodes are in step with their
    directories and route by the coordinator's state, and let clients write while nodes
    replicate, merge, expire segments and restart. Then a node dies with its disk, the
    coordinator commits the mark of it among heartbeats, and the others fetch the new
    state. From then on every valid write through any of them is acknowledged again, and the
    coordinator's [Query], with filters off or safe for the query and [offset+limit] an [int32],
    returns what its cache still holds under the key of the request, and otherwise the requested page of
    the ranking of [kept] ([FanOut.answers]), which has
    all that the other nodes had stored, every write and every accepted copy that had landed
    on one of them, and every write since, those aside that a retention pass may delete; and
    nothing that was never stored or written. *)
Theorem cluster_survives_failure (cfg : CompactorConfig) (n : Z) (ps ps' : list payload) (ops1 ops2 : list cluster_op)
    (c : gmap string member) (segs : gmap string (gmap string (list LogEntry))) (addr : string) (mbd : member)
    (known : list LogEntry) :
  let cs := apply_all ps (state (NewFSM n)) in
  let cs' := apply_all (ps ++ ps') (state (NewFSM n)) in
  0 < n < 2 ^ 31 → named ps → cluster_ok n cs c segs →
  c !! addr = Some mbd → buries (nd_id (mb_node mbd)) ps' →
  Forall (op_valid c) ops1 → cluster_fits cfg n ops1 c = true →
  ∃ c1, run_cluster cfg ops1 c = Some (c1, op_answer <$> ops1) ∧
    let c2 := survivors addr cs' c1 in
    (∀ a, is_Some (c2 !! a) ↔ a ≠ addr ∧ is_Some (c !! a)) ∧
    (Forall (op_valid c2) ops2 → cluster_fits cfg n ops2 c2 = true →
     (∀ x, stored_in c segs x ∨ x ∈ (ops1 ++ ops2) ≫= op_entries → x ∈ known) → id_consistent known →
     ∃ c3 kept, run_cluster cfg ops2 c2 = Some (c3, op_answer <$> ops2) ∧
       (∀ x, x ∈ kept → stored_in c segs x ∨ x ∈ (ops1 ++ ops2) ≫= op_entries) ∧
       (∀ a x, a ≠ addr → stored_at c segs a x ∨ (∃ op, op ∈ ops1 ∧ lands n c op a x) →
          x ∈ kept ∨ outlived cfg (ops1 ++ ops2) x) ∧
       (∀ x, x ∈ ops2 ≫= op_writes → x ∈ kept ∨ outlived cfg (ops1 ++ ops2) x) ∧
       FanOut.answers (cluster_query c3) cs' (safe_query c known) kept).
Proof.
  intros cs cs' [Hn0 Hn] Hnamed Hok Hmbd Hb Hv1 Hf1.
  destruct (run_cluster_ok cfg n ps Hn0 Hnamed ops1 c segs Hok Hv1 Hf1)
    as (c1 & segs1 & Hrun1 & Hok1 & Hsame & Hin1 & _ & Hk1).
  destruct (same_members_lookup c1 c addr mbd (eq_sym Hsame) Hmbd) as (mb1 & Hmb1 & [= Hid _ _ _]).
  rewrite Hid in Hb.
  pose proof (survivors_ok n ps ps' c1 segs1 addr mb1 Hn Hok1 Hmb1 Hb) as Hok2.
  pose proof (buries_named ps ps' _ Hb Hnamed) as Hnamed'.
  exists c1. split; [done|]. cbn zeta. fold cs'. split.
  { intros a. rewrite survivors_dom. by rewrite (same_members_dom c c1 a Hsame). }
  intros Hv2 Hf2 Hknown Hc.
  destruct (run_cluster_ok cfg n (ps ++ ps') Hn0 Hnamed' ops2 _ segs1 Hok2 Hv2 Hf2)
    as (c3 & segs3 & Hrun3 & Hok3 & Hsame3 & Hin3 & Hw3 & Hk3).
  assert (∀ x, stored_in c3 segs3 x → stored_in c segs x ∨ x ∈ (ops1 ++ ops2) ≫= op_entries) as Hin.
  { intros x Hx. rewrite bind_app, elem_of_app. apply Hin3 in Hx as [[a [_ Hx]%survivors_stored]|]; [|tauto].
    destruct (Hin1 x (ex_intro _ a Hx)); tauto. }
  assert (∀ x, outlived cfg ops1 x ∨ outlived cfg ops2 x → outlived cfg (ops1 ++ ops2) x) as Hout.
  { intros x [(a & t & ? & ?)|(a & t & ? & ?)]; exists a, t; rewrite elem_of_app; auto. }
  destruct (cluster_answers n (ps ++ ps') Hnamed' c c3 segs3 known Hok3) as (kept & Hkept & Hq); [by auto|done| |].
  { intros Hoff. eapply filters_off_same; [exact Hsame3|]. apply survivors_off. by eapply filters_off_same. }
  assert (∀ a x, stored_at (survivors addr cs' c1) segs1 a x ∨ (∃ op, op ∈ ops2 ∧ lands n (survivors addr cs' c1) op a x) →
    x ∈ kept ∨ outlived cfg (ops1 ++ ops2) x) as Hlast.
  { intros a x Hx. apply Hk3 in Hx as [Hx|Hx]; [left; apply Hkept; by exists a|right; auto]. }
  exists c3, kept. split_and!; [done|by intros x ?%Hkept%Hin| | |exact Hq].
  - intros a x Hne Hx. apply Hk1 in Hx as [Hx|Hx]; [|right; auto]. apply (Hlast a). left. by apply survivors_stored.
  - intros x (op & a & Hop & Hl)%Hw3. apply (Hlast a). right. by exists op.
Qed.
End death.

(** ** Witnesses *)

Definition outage : list event :=
  [EvRegister true 0 "a" "h:1"; EvRegister true 0 "b" "h:2"; EvHeartbeat true 10 "a"].

Lemma failover_reroutes_witness :
  let cs := (run 11 (outage ++ [EvTick true 12]) (state (NewFSM 4), ∅)).1 in
  let pb := sample_pb in
  watch_of cs "b" = Some (NodeUnhealthy, 0) ∧
  (∀ addr, ("b", addr) ∉ FanOut.targets cs) ∧
  ∀ closing c old id, Client.connected c →
    let cache := NodeLoops.Refresh closing c (λ _, Ok (GetClusterState cs)) old in
    ∃ owner nd replica, owner ≠ "b" ∧ Nodes cs !! owner = Some nd ∧ n_Status nd = NodeHealthy ∧
      ShardID (Pb.Namespace pb) (Pb.Service pb) 4 ∈ n_Shards nd ∧
      HandleIngest_route (Some (StateCache.reader cache)) id 4 (Some pb) =
        if decide (owner = id) then WriteLocal pb replica else Forward pb (n_Address nd).
Proof.
  intros cs pb.
  destruct (failover_reroutes 11 4 outage 12 ∅ "b" "a" NodeHealthy 0 10) as (H1 & H2 & H3).
  - lia.
  - repeat first [apply Forall_nil_2 | apply Forall_cons_2]; unfold event_ok, in_int64; split_and?; try done; lia.
  - vm_compute. reflexivity.
  - vm_compute. reflexivity.
  - vm_compute. reflexivity.
  - vm_compute. done.
  - split_and!; [exact H1|exact H2|]. intros closing c old id Hc. by apply H3.
Defined.

(** Node [b] stores a write that came in through [a], [a] gets the copy; [b] dies; a client
    writes through [a]. *)
Definition copied : Pb.LogEntry := life_pb "x" "disk full" 1.
Definition death_ops : list cluster_op :=
  [CIngest Background 7 10 "g1" "h:1" copied; CReplicate "h:1" (EntryToProto (stamp 10 "g1" copied)) 1].
Definition mourning_ops : list cluster_op := [CIngest Background 7 12 "g2" "h:1" (life_pb "y" "disk ok" 2)].
Definition death_commands : list payload := [UpdateHeartbeatPayload "a" 20; MarkUnhealthyPayload "b"].

#[local] Opaque sample_member.

Lemma death_buries : buries "b" death_commands.
Proof.
  split; [right; by left|]. intros p Hin.
  apply elem_of_cons in Hin as [->|Hin]; [right; eauto|].
  apply elem_of_cons in Hin as [->|Hin]; [by left|]. by apply not_elem_of_nil in Hin.
Qed.

Lemma cluster_survives_failure_witness :
  let H1 := ascii_tables in let H2 := bit_codec in let H3 := exact_bloom in
  let cs' := apply_all (sample_ps ++ death_commands) (state (NewFSM 2)) in
  ∃ c1 c3 kept, run_cluster DefaultCompactorConfig death_ops sample_members = Some (c1, op_answer <$> death_ops) ∧
    run_cluster DefaultCompactorConfig mourning_ops (survivors "h:2" cs' c1) = Some (c3, op_answer <$> mourning_ops) ∧
    stamp 10 "g1" copied ∈ kept ∧ stamp 12 "g2" (life_pb "y" "disk ok" 2) ∈ kept ∧
    FanOut.answers (cluster_query c3) cs' (safe_query sample_members ((death_ops ++ mourning_ops) ≫= op_entries)) kept.
Proof.
  intros H1 H2 H3 cs'.
  destruct (sample_member_ok "a") as (mba & Hmba & Hida & Hta & Hsta & _).
  destruct (sample_member_ok "b") as (mbb & Hmbb & Hidb & _).
  destruct sample_members_get as [G1 G2]. rewrite Hmba in G1. rewrite Hmbb in G2.
  destruct (@cluster_survives_failure ascii_tables ascii_tables_laws bit_codec bit_codec_laws exact_bloom exact_bloom_laws
    DefaultCompactorConfig 2 sample_ps death_commands death_ops mourning_ops sample_members sample_segs "h:2" mbb
    ((death_ops ++ mourning_ops) ≫= op_entries)) as (c1 & Hrun & Hdom & Hrest).
  - lia.
  - exact sample_named.
  - exact sample_cluster_ok.
  - exact G2.
  - rewrite Hidb. exact death_buries.
  - repeat first [apply Forall_nil_2 | apply Forall_cons_2]; [|exact I]. split; [rewrite G1; exact (mk_is_Some _ _ eq_refl)|split; discriminate].
  - vm_compute. reflexivity.
  - assert (c1 = default ∅ (fst <$> @run_cluster ascii_tables bit_codec exact_bloom DefaultCompactorConfig death_ops sample_members)) as E by (by rewrite Hrun).
    destruct Hrest as (c3 & kept & Hrun3 & _ & Hold & Hnew & Hq).
    + repeat first [apply Forall_nil_2 | apply Forall_cons_2]. split; [|split; discriminate].
      apply Hdom. rewrite G1. split; [discriminate|exact (mk_is_Some _ _ eq_refl)].
    + rewrite E. vm_compute. reflexivity.
    + intros x [(addr & sg & _ & Hsg & Hx)|Hx]; [|done]. by destruct (sample_segs_empty addr sg x Hsg).
    + intros x y Hx Hy. cbn [death_ops mourning_ops mbind list_bind op_entries app] in Hx, Hy. rewrite !elem_of_cons in Hx, Hy.
      destruct Hx as [->|[->|[->|[]%not_elem_of_nil]]], Hy as [->|[->|[->|[]%not_elem_of_nil]]]; vm_compute; congruence.
    + assert (∀ x, ¬ outlived DefaultCompactorConfig (death_ops ++ mourning_ops) x) as Hno.
      { intros x (addr & now & Hin & _). repeat (apply elem_of_cons in Hin as [[=]|Hin]). by apply not_elem_of_nil in Hin. }
      exists c1, c3, kept. split_and!; [exact Hrun|exact Hrun3| | |exact Hq].
      * destruct (Hold "h:1" (stamp 10 "g1" copied)) as [|[]%Hno]; [done| |done]. right.
        exists (CReplicate "h:1" (EntryToProto (stamp 10 "g1" copied)) 1). split; [right; by left|].
        split; [done|]. split; [by rewrite ProtoToEntry_EntryToProto|]. exists mba. split; [exact G1|].
        unfold replica_accepts, mb_reader. rewrite Hta, Hsta, Hida. vm_compute. reflexivity.
      * destruct (Hnew (stamp 12 "g2" (life_pb "y" "disk ok" 2))) as [|[]%Hno]; [by left|done].
Defined.
End Failover.
